(* ===== verification/_CoqProject ===== *)
-Q . S2P
Prelude.v
Ordered.v
Text.v
Float.v
Magnitude.v
Fnv.v
Namespace.v
Bloom.v
Memtable.v
Wal.v
Page.v
PageStore.v
Compaction.v
BgCompaction.v
Cache.v
Hamt.v
Mvcc.v
Session.v
Graph.v
Bm25.v
Bm25Score.v
Fuzzy.v
Planner.v
Schema.v
Hnsw.v
HnswSpec.v
HnswIo.v
IndexApi.v
Manager.v
ManagerSpec.v
QueryApi.v
Engine.v
EngineSpec.v
Recovery.v
Branch.v
Prog.v
Durable.v
IndexedEngine.v
AgentStore.v
AgentSpec.v
AgentEngine.v
AgentQuery.v
Server.v
ServerSpec.v
ServerEdges.v
Python.v
ServerQuery.v
PythonSpec.v
PythonEdges.v
PythonQuery.v
Connection.v
ConnectionSpec.v
Daemon.v
DaemonSpec.v
