(* ===== verification/Prelude.v ===== *)
(** * uldb: a verification development

    uldb is an embedded key-value database for agent memory: a log-structured
    storage engine with versions, snapshots, branches and query indices. This library
    models the Rust sources under [src/src/] definition by definition, in the order of the
    code, and proves what makes each part correct. This file is its root: the generic
    part, shared by every other file, comes after this description.

    ** The program and the files that model it

    Storage ([src/storage/]). A write is appended to the log ([Wal.v]: wal.rs, the record format,
    the buffered writer over a file whose writes may fail, replay), put into the
    memtable ([Memtable.v]: memtable.rs) and, when that is full, sorted into a page ([Page.v]:
    page.rs) with a Bloom filter ([Bloom.v]: index/bloom.rs). Pages live in three levels
    ([Compaction.v]: compaction.rs), to which a background worker adds them through a channel
    ([BgCompaction.v]: bg_compaction.rs, a transition system), and are kept in files
    ([PageStore.v]: page_store.rs, the sequence of file operations of a save). Reads go through a cache
    ([Cache.v]: cache.rs). [Fnv.v] is fnv.rs; [Namespace.v] is namespace.rs.

    Transactions ([src/tx/]). [Hamt.v] is the persistent hash trie of hamt.rs, [Mvcc.v] the version
    store of mvcc.rs, [Session.v] the sessions of session.rs.

    Indices and queries ([src/index/], [src/query/]). [Bm25.v] is keyword search, with its scores in [Bm25Score.v], [Fuzzy.v] symbol
    search by trigrams and edit distance, [Graph.v] the relation graph, [Hnsw.v] the vector
    index with its theorems in [HnswSpec.v] and its file format in [HnswIo.v], [Planner.v] the plan and the fusion of
    result lists, [Schema.v] record schemas. [Manager.v] and [ManagerSpec.v] are manager.rs, which owns
    the indices. [IndexApi.v] is the interface (a class of operations and a class of laws) the engine
    sees: the engine's theorems are proved against it and the manager is an instance. [QueryApi.v] is what the
    server and the Python classes see of it beside that, and [IndexedEngine.v] has the manager as the instance, and its
    operations as the engine's writes.

    The engine. [Engine.v] is engine.rs: the state is the record [Engine], the operations
    are in a state and error monad [EM], [open] and [close] act on a record of the files of the data directory.
    [EngineSpec.v], [Recovery.v] and [Branch.v] prove its contract; [AgentStore.v],
    [AgentSpec.v], [AgentEngine.v] and [AgentQuery.v] are agent_store.rs, a client of the engine. [Prog.v] holds
    the programs such clients are written in: trees of engine operations, which run over a finite map and, with
    the same answers, over the engine; [Durable.v] says what a program leaves in the log.

    The outside. [Server.v] is server.rs, a definition per request handler, over the engine, the
    transaction manager and the watches behind locks that a panic poisons; [ServerSpec.v],
    [ServerQuery.v] and [ServerEdges.v] are its theorems. [Python.v] is python.rs, a definition per method of
    the Python classes, whose objects share one engine; [PythonSpec.v], [PythonQuery.v] and [PythonEdges.v] are its theorems.
    [Connection.v] and [Daemon.v] are bin/uldb.rs: the command line and the threads of the connections, and then the process,
    from its start to the accept loop, as transition systems, with their theorems in [ConnectionSpec.v] and [DaemonSpec.v].

    [Ordered.v] (sorting, binary search, the in-order view of a BTreeMap), [Text.v] (decimal
    text, UTF-8, ASCII classes), [Float.v] (binary32 and binary64) and [Magnitude.v] (bounds on binary64 through the operations) model what the sources use of the
    standard library.

    ** How the code is modelled

    A byte is [Byte.byte]; byte vectors and strings are lists of bytes; machine integers are
    [Z] with [wrap] where the code wraps, and [nat] for sizes and indices that are bounded by memory.
    Floating-point numbers are the Standard Library's [spec_float], whose operations are IEEE 754.
    A fallible operation returns [res E A]: a value, an error or a panic; what panics in
    Rust (an index out of range, an assertion, a reversed range) is [Panic], and theorems state that it
    does not happen. Hash maps are [gmap]; where the code walks one, the order is a parameter that permutes the entries.
    A BTreeMap is a [gmap] with its ordered view; its [range] panics on reversed ends, as documented (the implementation
    lets a map that never held an entry pass). Shared mutable state is passed explicitly, and
    the worker thread and concurrent commits are interleavings of steps.

    Parameters, with named hypotheses: the checksum of the log, compression, the
    listing of a directory, [ln] and [exp], the unstable sorts and the binary heap (classes or variables with
    their documented contract, and an instance for the witnesses), the walks of hash maps, and in
    the agent store the payload codec of the ulmen-core crate; for the server the messages, responses and opcodes
    of the ulmp crates (class [Ump]), for the connections its frames, nonces and authentication code (class [UmpWire]), the clock and the outcomes of file copies; what the worker thread does between two operations.

    Fuel: the searches of [Graph.v] and the beam of [Hnsw.v] expand a node at most once, so that the number
    of nodes is enough; the levels of [Hnsw.v] stop at 16 and have 17 steps; the
    descent of [Hamt.v] consumes the bits of a hash, and its insertion runs out exactly where
    the code recurses without end; the runs of [Bm25.v] consume a token per turn; a connection takes at most
    as many turns as its client sends bytes, and three. Each is proved: no theorem
    assumes that a computation returns.

    ** What the theorems show

    Most theorems about the engine and its clients hold under conditions that the code does not enforce, and that
    other theorems show to be needed. They are named once here and in each theorem: the worker catches up after
    each operation ([settle]; Branch.flush_gap_stale); no flush fills level 0 with pages that disagree on a key
    ([run_safe], [prog_safe]; Compaction.compaction_oldest_wins); the keys have distinct hashes ([no_collision]); the
    entries stay below the limit for which Bloom filters are sized ([cap]); ranges are in order
    (ServerSpec.reversed_range_poisons); a log that is opened is below the flush threshold (Recovery.reopen_large_log);
    keys are text, and ASCII where they are indexed.

    - The engine refines a finite map (EngineSpec), also after a crash (Recovery), under these conditions; a snapshot
      reads what it read when it was taken, after any actions that do not write or remove it (Branch).
    - The log returns what was flushed and nothing of a torn tail, and whatever the file holds a replay returns the
      longest sequence of records it begins with (Wal); pages and saved levels
      are read back (Page, PageStore); every read of the levels answers as an abstract machine that keeps the newest record
      until level 0 fills up and then the oldest (Compaction); every schedule of the worker is a sequential one (BgCompaction).
    - The cache is an LRU list (Cache), the trie a map (Hamt), sessions read their own writes (Session). Of the version
      store (Mvcc) the theorems on commits are over all interleavings of the steps of transactions and collections: a
      commit becomes visible key by key at one timestamp where no other thread touches the key meanwhile, and one that passes
      its validation had read only what was current when it began. What the separate locks let through is proved too: a lost write, a write skew, an
      unstable snapshot.
    - Each index answers exactly what its documents, symbols, vectors or edges say (Bm25,
      Fuzzy, HnswSpec, Graph); the fusion ranks every key once (Planner); a query of the manager is
      justified hit by hit and, when it falls short of its limit, complete; the keyword index follows the
      records (ManagerSpec).
    - The agent store reads back what it stores, deletes and filters exactly (AgentSpec), also
      on the engine with the manager's indices (AgentEngine); a search after any of its programs answers
      records it holds now (AgentQuery).
    - Schemas accept what they should and defaults keep it so (Schema).
    - Whatever the schedule of the worker, a submitted page is merged once the worker has had enough turns, and a
      shutdown drains the channel (BgCompaction).
    - Requests on records, with ranges in order, are answered as by a map of the clients' keys, a query after them by the index
      entries of the records now held; a commit with nobody between its sections reports a conflict exactly when it is
      serializable and a read key changed; a backup into an empty directory reopens with every acknowledged
      record; a reversed range poisons the lock (ServerSpec, ServerQuery).
    - Python programs on a database and any number of agents are answered as by a live map and a map per branch;
      agents' writes are isolated until a merge, and a commit lays the whole branch over the live state, as long as no key of
      the branch is cached at a merge (PythonSpec). Searches after any writes of records,
      vectors and relations answer present values, and leave out no record with a word of the text when they answer fewer
      than they may (PythonQuery). No condition on scores is left: that a matching document scores above zero is proved of the
      floating-point code, of a logarithm that is positive above one (Magnitude, Bm25Score).
    - The server process, from its command line, without saved pages: whatever clients arrive at any time, it goes on and answers
      their regular requests on records as one map; killed at any point and started again on its log, it goes on with that map, but for the
      records with an empty value (DaemonSpec). Only the eight requests on records are routed there; the handlers of the others
      are modelled and proved on their own (ServerSpec, ServerEdges, ServerQuery).
    - Under any interleaving of the connections a request reaches the handler only from a client that has answered its
      own challenge with the hash of the token, answers are numbered without a gap, every connection ends, and the requests of
      all clients are answered by one map (ConnectionSpec).

    ** Not modelled

    Of the binary (bin/uldb.rs), TLS and the sockets: whether a certificate can be made, a port be listened on and a client
    complete its TLS session are outcomes given to the process. Of the Python bindings
    the conversions of PyO3 and the text of [__repr__] are left out. lib.rs declares modules. Of the modelled files, what is left out is text for logs and
    timing counters, the capacity of allocations, and the behaviour of strings made of bytes that are not UTF-8 by
    [from_utf8_unchecked]. A sort by a comparison that is not a total order (a distance
    that is not a number) is some rearrangement here, where the standard library may also panic. *)

From Stdlib Require Export ZArith Lia.
From Stdlib Require Export Init.Byte.
From Stdlib Require Strings.Byte.
From Stdlib Require String.
From stdpp Require Export prelude gmap list sorting strings.

Declare Scope uldb_scope.
Delimit Scope uldb_scope with uldb.

Create HintDb uldb.

(** ** Bytes

    A [u8] is the Standard Library's [byte]; a [Vec<u8>], [&[u8]] or [String]
    is a list of bytes (a Rust string is its UTF-8 encoding). *)
Abbreviation bytes := (list byte).

Definition b2z (b : byte) : Z := Z.of_N (Byte.to_N b).

(** [z as u8]: truncation to the low eight bits. *)
Definition z2b (z : Z) : byte :=
  match Byte.of_N (Z.to_N (z mod 256)) with Some b => b | None => x00 end.

Definition str (s : string) : bytes := String.list_byte_of_string s.

Lemma b2z_range b : (0 <= b2z b < 256)%Z.
Proof. unfold b2z. pose proof (Byte.to_N_bounded b). lia. Qed.

Lemma b2z_z2b z : b2z (z2b z) = (z mod 256)%Z.
Proof.
  unfold b2z, z2b. pose proof (Z.mod_pos_bound z 256 ltac:(lia)).
  destruct (Byte.of_N (Z.to_N (z mod 256))) as [b|] eqn:E.
  - apply Byte.to_of_N in E. rewrite E. lia.
  - apply Byte.of_N_None_iff in E. lia.
Qed.

Lemma z2b_b2z b : z2b (b2z b) = b.
Proof.
  unfold z2b. pose proof (b2z_range b). rewrite Z.mod_small by done.
  unfold b2z. by rewrite N2Z.id, Byte.of_to_N.
Qed.

#[export] Instance b2z_inj : Inj (=) (=) b2z.
Proof. intros a b H. by rewrite <- (z2b_b2z a), H, z2b_b2z. Qed.

#[export] Instance byte_eq_dec : EqDecision byte.
Proof. intros a b. exact (Byte.byte_eq_dec a b). Defined.

#[export] Instance byte_countable : Countable byte :=
  inj_countable Byte.to_N Byte.of_N Byte.of_to_N.

(** ** Machine integers

    A [u16], [u32], [u64] or [usize] is the [Z] it denotes; arithmetic is the
    release profile's, which wraps. *)
Definition wrap (w : Z) (z : Z) : Z := (z mod 2 ^ w)%Z.
Abbreviation u16 := (wrap 16).
Abbreviation u32 := (wrap 32).
Abbreviation u64 := (wrap 64).

Definition u64_max : Z := (2 ^ 64 - 1)%Z.

Lemma wrap_range w z : (0 <= w)%Z -> (0 <= wrap w z < 2 ^ w)%Z.
Proof. intros. unfold wrap. apply Z.mod_pos_bound. by apply Z.pow_pos_nonneg. Qed.

Lemma wrap_small w z : (0 <= z < 2 ^ w)%Z -> wrap w z = z.
Proof. intros. by apply Z.mod_small. Qed.

(** ** Big-endian encodings ([to_be_bytes], [from_be_bytes]) *)
Fixpoint be_bytes (n : nat) (z : Z) : bytes :=
  match n with
  | O => []
  | S n' => z2b (Z.shiftr z (8 * Z.of_nat n')) :: be_bytes n' z
  end.

Definition be_val (l : bytes) : Z := foldl (fun acc b => (acc * 256 + b2z b)%Z) 0%Z l.

Lemma length_be_bytes n z : length (be_bytes n z) = n.
Proof. induction n; simpl; congruence. Qed.

Lemma be_val_acc l a :
  foldl (fun acc b => (acc * 256 + b2z b)%Z) a l = (a * 256 ^ Z.of_nat (length l) + be_val l)%Z.
Proof.
  unfold be_val. revert a. induction l as [|b l IH]; intros a; [simpl; lia|].
  cbn [foldl length]. rewrite IH, (IH (0 * 256 + b2z b)%Z).
  rewrite Nat2Z.inj_succ, Z.pow_succ_r by lia. lia.
Qed.

Lemma be_val_cons b l : be_val (b :: l) = (b2z b * 256 ^ Z.of_nat (length l) + be_val l)%Z.
Proof. unfold be_val at 1. cbn [foldl]. by rewrite be_val_acc, Z.mul_0_l, Z.add_0_l. Qed.

Lemma be_val_range l : (0 <= be_val l < 256 ^ Z.of_nat (length l))%Z.
Proof.
  induction l as [|b l IH]; [done|]. rewrite be_val_cons. cbn [length].
  rewrite Nat2Z.inj_succ, Z.pow_succ_r by lia. pose proof (b2z_range b). nia.
Qed.

Lemma be_val_be_bytes n z : be_val (be_bytes n z) = (z mod 256 ^ Z.of_nat n)%Z.
Proof.
  induction n as [|n IH]; cbn [be_bytes]; [by rewrite Z.mod_1_r|].
  rewrite be_val_cons, length_be_bytes, IH, b2z_z2b.
  rewrite Nat2Z.inj_succ, Z.pow_succ_r by lia.
  rewrite Z.shiftr_div_pow2 by lia.
  replace (2 ^ (8 * Z.of_nat n))%Z with (256 ^ Z.of_nat n)%Z
    by (change 256%Z with (2 ^ 8)%Z; by rewrite <- Z.pow_mul_r by lia).
  assert (0 < 256 ^ Z.of_nat n)%Z by (apply Z.pow_pos_nonneg; lia).
  rewrite (Z.mul_comm 256), Z.rem_mul_r by lia. lia.
Qed.

Lemma be_bytes_be_val l : be_bytes (length l) (be_val l) = l.
Proof.
  assert (forall n z z', (z mod 256 ^ Z.of_nat n = z' mod 256 ^ Z.of_nat n)%Z ->
            be_bytes n z = be_bytes n z') as Hmod.
  { intros n z z' H. cut (forall l1 l2, length l1 = length l2 -> be_val l1 = be_val l2 -> l1 = l2).
    { intros Hi. apply Hi; [by rewrite !length_be_bytes|]. by rewrite !be_val_be_bytes. }
    clear. induction l1 as [|b1 l1 IH]; intros [|b2 l2] Hl Hv; try done.
    rewrite !be_val_cons in Hv. injection Hl as Hl. rewrite Hl in Hv.
    pose proof (be_val_range l1) as R1. pose proof (be_val_range l2) as R2. rewrite Hl in R1.
    assert (b2z b1 = b2z b2) as Hb by nia. apply (inj b2z) in Hb. subst b2.
    f_equal. apply IH; [done|]. nia. }
  induction l as [|b l IH]; [done|]. cbn [length be_bytes]. f_equal.
  - rewrite be_val_cons. apply (inj b2z). rewrite b2z_z2b, Z.shiftr_div_pow2 by lia.
    replace (2 ^ (8 * Z.of_nat (length l)))%Z with (256 ^ Z.of_nat (length l))%Z
      by (change 256%Z with (2 ^ 8)%Z; by rewrite <- Z.pow_mul_r by lia).
    pose proof (be_val_range l). pose proof (b2z_range b).
    rewrite Z.div_add_l by lia. rewrite (Z.div_small (be_val l)) by lia.
    rewrite Z.mod_small; lia.
  - transitivity (be_bytes (length l) (be_val l)); [|done]. apply Hmod. rewrite be_val_cons, Z.add_comm.
    by rewrite Z.mod_add by (apply Z.pow_nonzero; lia).
Qed.

Lemma be_bytes_inj n z z' :
  (0 <= z < 256 ^ Z.of_nat n)%Z -> (0 <= z' < 256 ^ Z.of_nat n)%Z ->
  be_bytes n z = be_bytes n z' -> z = z'.
Proof.
  intros H H' E. apply (f_equal be_val) in E. rewrite !be_val_be_bytes in E.
  by rewrite !Z.mod_small in E.
Qed.

(** ** Outcomes

    A fallible function returns [Ok], [Err] with its message, or panics. *)
Inductive res (E A : Type) :=
  | Ok (a : A)
  | Err (e : E)
  | Panic.
Arguments Ok {E A} a.
Arguments Err {E A} e.
Arguments Panic {E A}.

#[export] Instance res_ret {E} : MRet (res E) := fun _ a => Ok a.
#[export] Instance res_bind {E} : MBind (res E) := fun _ _ f r =>
  match r with Ok a => f a | Err e => Err e | Panic => Panic end.
#[export] Instance res_fmap {E} : FMap (res E) := fun _ _ f r =>
  match r with Ok a => Ok (f a) | Err e => Err e | Panic => Panic end.

(** Rust's [ok_or]. *)
Definition ok_or {E A} (o : option A) (e : E) : res E A :=
  match o with Some a => Ok a | None => Err e end.

(** An indexing or slicing that panics out of range. *)
Definition index {E A} (o : option A) : res E A :=
  match o with Some a => Ok a | None => Panic end.

Definition res_ok {E A} (r : res E A) : option A :=
  match r with Ok a => Some a | _ => None end.

(** A traversal none of whose steps fails. *)
Lemma mapM_ok {E A C} (f : A -> res E C) (g : A -> C) l : (forall x, x ∈ l -> f x = Ok (g x)) -> mapM f l = Ok (g <$> l).
Proof.
  induction l as [|x l IH]; intros H; [done|]. cbn. rewrite (H x ltac:(left)). cbn. rewrite IH; [done|].
  intros y Hy. apply H. by right.
Qed.

Lemma mjoin_cons {A} (x : list A) (l : list (list A)) : mjoin (x :: l) = x ++ mjoin l.
Proof. done. Qed.

Lemma length_mjoin {A} (l : list (list A)) : length (mjoin l) = sum_list (length <$> l).
Proof. induction l as [|x l IH]; [done|]. rewrite mjoin_cons, length_app, IH. done. Qed.

Lemma StronglySorted_sublist {A} (R : A -> A -> Prop) (l l' : list A) :
  sublist l l' -> StronglySorted R l' -> StronglySorted R l.
Proof.
  induction 1 as [|x l l' Hl IH|x l l' Hl IH]; intros Hs; [done|..]; apply StronglySorted_inv in Hs as [Hs Hx].
  - constructor; [auto|]. rewrite Forall_forall in Hx |- *. intros y Hy. apply Hx. by eapply sublist_subseteq.
  - auto.
Qed.

Lemma StronglySorted_imap {A B} (R : A -> A -> Prop) (R' : B -> B -> Prop) (l : list A) :
  StronglySorted R l -> forall f : nat -> A -> B, (forall i j x y, R x y -> R' (f i x) (f j y)) -> StronglySorted R' (imap f l).
Proof.
  induction 1 as [|x l Hl IH Hx]; intros f Hf; [constructor|]. rewrite imap_cons. constructor; [apply IH; intros; by apply Hf|].
  apply Forall_forall. rewrite Forall_forall in Hx. intros y (i & z & -> & Hz)%elem_of_lookup_imap. apply Hf, Hx. by eapply list_elem_of_lookup_2.
Qed.

Lemma elem_of_drop_sub {A} n (l : list A) x : x ∈ drop n l -> x ∈ l.
Proof. intros H. rewrite <- (take_drop n l). set_solver. Qed.

Lemma elem_of_take_sub {A} n (l : list A) x : x ∈ take n l -> x ∈ l.
Proof. intros H. rewrite <- (take_drop n l). set_solver. Qed.

(** ** Slices *)
Definition slice {A} (l : list A) (a b : nat) : list A := take (b - a) (drop a l).

Lemma slice_app_l {A} (l1 l2 : list A) a b :
  b <= length l1 -> slice (l1 ++ l2) a b = slice l1 a b.
Proof.
  intros H. unfold slice. destruct (decide (a <= length l1)).
  - rewrite drop_app_le by done. apply take_app_le. rewrite length_drop. lia.
  - rewrite !(proj2 (Nat.sub_0_le b a)) by lia. by rewrite !take_0.
Qed.

Lemma slice_app_r {A} (l1 l2 : list A) a b :
  length l1 <= a -> slice (l1 ++ l2) a b = slice l2 (a - length l1) (b - length l1).
Proof.
  intros H. unfold slice. rewrite drop_app_ge by done. f_equal. lia.
Qed.

Lemma slice_full {A} (l : list A) n : n = length l -> slice l 0 n = l.
Proof. intros ->. unfold slice. rewrite drop_0, Nat.sub_0_r. by apply take_ge. Qed.

Lemma length_slice {A} (l : list A) a b :
  a <= b -> b <= length l -> length (slice l a b) = b - a.
Proof. intros. unfold slice. rewrite length_take, length_drop. lia. Qed.

Lemma filter_all {A} (P : A -> Prop) `{!forall x, Decision (P x)} (l : list A) :
  Forall P l -> filter P l = l.
Proof. induction 1; [done|]. rewrite filter_cons_True by done. congruence. Qed.

Lemma filter_none {A} (P : A -> Prop) `{!forall x, Decision (P x)} (l : list A) :
  Forall (fun x => ~ P x) l -> filter P l = [].
Proof. induction 1; [done|]. by rewrite filter_cons_False. Qed.

(** ** The lexicographic order of byte strings ([Ord for [u8]]) *)
Fixpoint bytes_cmp (a b : bytes) : comparison :=
  match a, b with
  | [], [] => Eq
  | [], _ :: _ => Lt
  | _ :: _, [] => Gt
  | x :: a', y :: b' =>
      match Z.compare (b2z x) (b2z y) with
      | Eq => bytes_cmp a' b'
      | c => c
      end
  end.

Definition bytes_lt (a b : bytes) : Prop := bytes_cmp a b = Lt.
Definition bytes_le (a b : bytes) : Prop := bytes_cmp a b <> Gt.
Definition bytes_ltb (a b : bytes) : bool := match bytes_cmp a b with Lt => true | _ => false end.
Definition bytes_leb (a b : bytes) : bool := match bytes_cmp a b with Gt => false | _ => true end.

#[export] Instance bytes_lt_dec a b : Decision (bytes_lt a b).
Proof. unfold bytes_lt. destruct (bytes_cmp a b); [right|left|right]; done. Defined.
#[export] Instance bytes_le_dec a b : Decision (bytes_le a b).
Proof. unfold bytes_le. destruct (bytes_cmp a b); [left|left|right]; auto. Defined.

Lemma bytes_cmp_eq a b : bytes_cmp a b = Eq <-> a = b.
Proof.
  revert b. induction a as [|x a IH]; intros [|y b]; simpl; try done.
  destruct (Z.compare_spec (b2z x) (b2z y)) as [E|E|E].
  - apply (inj b2z) in E. subst. rewrite IH. naive_solver.
  - split; [done|]. intros [= -> ->]. lia.
  - split; [done|]. intros [= -> ->]. lia.
Qed.

Lemma bytes_cmp_refl a : bytes_cmp a a = Eq.
Proof. by apply bytes_cmp_eq. Qed.

Lemma bytes_cmp_antisym a b : bytes_cmp b a = CompOpp (bytes_cmp a b).
Proof.
  revert b. induction a as [|x a IH]; intros [|y b]; simpl; try done.
  rewrite (Z.compare_antisym (b2z x) (b2z y)).
  destruct (Z.compare (b2z x) (b2z y)); simpl; auto.
Qed.

Lemma bytes_lt_trans a b c : bytes_lt a b -> bytes_lt b c -> bytes_lt a c.
Proof.
  unfold bytes_lt. revert b c. induction a as [|x a IH]; intros [|y b] [|z c]; simpl; try done.
  destruct (Z.compare_spec (b2z x) (b2z y)), (Z.compare_spec (b2z y) (b2z z)); try done;
    destruct (Z.compare_spec (b2z x) (b2z z)); try done; try lia; eauto.
Qed.

#[export] Instance bytes_lt_strict : StrictOrder bytes_lt.
Proof.
  split; [|exact bytes_lt_trans].
  intros a. unfold complement, bytes_lt. by rewrite bytes_cmp_refl.
Qed.

Lemma bytes_lt_irrefl a : ~ bytes_lt a a.
Proof. apply irreflexivity. apply _. Qed.

Lemma bytes_lt_asym a b : bytes_lt a b -> ~ bytes_lt b a.
Proof. intros H H'. by eapply bytes_lt_irrefl, bytes_lt_trans. Qed.

Lemma bytes_trichotomy a b : bytes_lt a b \/ a = b \/ bytes_lt b a.
Proof.
  unfold bytes_lt. rewrite (bytes_cmp_antisym a b).
  destruct (bytes_cmp a b) eqn:E; [apply bytes_cmp_eq in E| |]; auto.
Qed.

Lemma bytes_le_lt_eq a b : bytes_le a b <-> bytes_lt a b \/ a = b.
Proof.
  unfold bytes_le, bytes_lt. rewrite <- bytes_cmp_eq. destruct (bytes_cmp a b); naive_solver.
Qed.

Lemma bytes_nlt_le a b : ~ bytes_lt a b <-> bytes_le b a.
Proof.
  unfold bytes_le, bytes_lt. rewrite (bytes_cmp_antisym a b).
  destruct (bytes_cmp a b); naive_solver.
Qed.

Lemma bytes_ltb_lt a b : bytes_ltb a b = true <-> bytes_lt a b.
Proof. unfold bytes_ltb, bytes_lt. destruct (bytes_cmp a b); naive_solver. Qed.

Lemma bytes_leb_le a b : bytes_leb a b = true <-> bytes_le a b.
Proof. unfold bytes_leb, bytes_le. destruct (bytes_cmp a b); naive_solver. Qed.

Lemma bytes_le_trans a b c : bytes_le a b -> bytes_le b c -> bytes_le a c.
Proof.
  rewrite !bytes_le_lt_eq. intros [H| ->] [H'| ->]; auto. left. by eapply bytes_lt_trans.
Qed.

Lemma bytes_lt_le_trans a b c : bytes_lt a b -> bytes_le b c -> bytes_lt a c.
Proof. rewrite bytes_le_lt_eq. intros H [H'| ->]; auto. by eapply bytes_lt_trans. Qed.

Lemma bytes_le_lt_trans a b c : bytes_le a b -> bytes_lt b c -> bytes_lt a c.
Proof. rewrite bytes_le_lt_eq. intros [H| ->] H'; auto. by eapply bytes_lt_trans. Qed.

Lemma bytes_lt_app_l p a b : bytes_lt (p ++ a) (p ++ b) <-> bytes_lt a b.
Proof.
  unfold bytes_lt. induction p as [|x p IH]; [done|]. simpl. by rewrite Z.compare_refl.
Qed.

#[export] Hint Resolve bytes_lt_trans bytes_lt_le_trans bytes_le_lt_trans bytes_le_trans : uldb.

(** ** Bit-level bounds *)
Lemma testbit_high w a n :
  (0 <= a < 2 ^ w)%Z -> (0 <= w <= n)%Z -> Z.testbit a n = false.
Proof.
  intros Ha Hn. rewrite <- (Z.mod_small a (2 ^ w)) by done. by apply Z.mod_pow2_bits_high.
Qed.

Lemma range_by_bits w a :
  (0 <= w)%Z -> (0 <= a)%Z -> (forall n, (w <= n)%Z -> Z.testbit a n = false) -> (0 <= a < 2 ^ w)%Z.
Proof.
  intros Hw Ha Hb. assert (a = a mod 2 ^ w)%Z as ->.
  { apply Z.bits_inj'. intros n Hn. destruct (Z.lt_ge_cases n w).
    - by rewrite Z.mod_pow2_bits_low.
    - rewrite Hb by done. by rewrite Z.mod_pow2_bits_high. }
  apply Z.mod_pos_bound. by apply Z.pow_pos_nonneg.
Qed.

Lemma lxor_range w a b :
  (0 <= w)%Z -> (0 <= a < 2 ^ w)%Z -> (0 <= b < 2 ^ w)%Z -> (0 <= Z.lxor a b < 2 ^ w)%Z.
Proof.
  intros Hw Ha Hb. apply range_by_bits; [done|apply Z.lxor_nonneg; lia|].
  intros n Hn. rewrite Z.lxor_spec, (testbit_high w a), (testbit_high w b) by lia. done.
Qed.

Lemma lor_range w a b :
  (0 <= w)%Z -> (0 <= a < 2 ^ w)%Z -> (0 <= b < 2 ^ w)%Z -> (0 <= Z.lor a b < 2 ^ w)%Z.
Proof.
  intros Hw Ha Hb. apply range_by_bits; [done|apply Z.lor_nonneg; lia|].
  intros n Hn. rewrite Z.lor_spec, (testbit_high w a), (testbit_high w b) by lia. done.
Qed.
