(* ===== verification/Ordered.v ===== *)
(** * Ordered collections of the Rust standard library

    The stable sort of slices ([sort_by]), the binary search of slices
    ([binary_search_by]), and the in-order view of a [BTreeMap] keyed by byte
    strings, with the lemmas the storage components share. *)

From S2P Require Import Prelude.

(** ** Stable sort *)
Section stable_sort.
Context {A : Type} (leb : A -> A -> bool).

Fixpoint sort_insert (x : A) (l : list A) : list A :=
    match l with
    | [] => [x]
    | y :: l' => if leb x y then x :: l else y :: sort_insert x l'
    end.

Definition stable_sort (l : list A) : list A := foldr sort_insert [] l.

Lemma sort_insert_perm x l : sort_insert x l ≡ₚ x :: l.
Proof.
    induction l as [|y l IH]; simpl; [done|]. destruct (leb x y); [done|].
    rewrite IH. by apply Permutation_swap.
Qed.

Lemma stable_sort_perm l : stable_sort l ≡ₚ l.
Proof. induction l as [|x l IH]; simpl; [done|]. by rewrite sort_insert_perm, IH. Qed.

Context (total : forall x y, leb x y = false -> leb y x = true).
Context (trans : forall x y z, leb x y = true -> leb y z = true -> leb x z = true).

Lemma sort_insert_sorted x l :
    StronglySorted (fun a b => leb a b = true) l ->
    StronglySorted (fun a b => leb a b = true) (sort_insert x l).
Proof.
    induction 1 as [|y l Hs IH Hy]; simpl; [by repeat constructor|].
    destruct (leb x y) eqn:E.
    - constructor; [by constructor|]. constructor; [done|].
      eapply Forall_impl; [exact Hy|]. intros z Hz. by apply (trans x y z).
    - constructor; [done|]. rewrite sort_insert_perm. constructor; auto.
Qed.

Lemma stable_sort_sorted l : StronglySorted (fun a b => leb a b = true) (stable_sort l).
Proof.
    induction l as [|x l IH]; simpl; [by constructor|]. by apply sort_insert_sorted.
Qed.

  (** A list already in order is left as it is. *)
Lemma stable_sort_id l :
    StronglySorted (fun a b => leb a b = true) l -> stable_sort l = l.
Proof.
    induction 1 as [|x l Hs IH Hx]; simpl; [done|]. rewrite IH.
    destruct l as [|y l]; simpl; [done|]. apply Forall_cons in Hx as [-> _]. done.
Qed.
End stable_sort.

(** ** Sorting whose order of equal elements is unspecified

    What the documentation of [sort_unstable_by], [sort_by] and
    [select_nth_unstable_by] promises: a rearrangement, in order when the
    comparison is a total order on the elements. *)
Definition total_preorder_on {A} (cmp : A -> A -> comparison) (l : list A) : Prop :=
  (forall x y, x ∈ l -> y ∈ l -> cmp y x = CompOpp (cmp x y)) /\
  (forall x y z, x ∈ l -> y ∈ l -> z ∈ l -> cmp x y <> Gt -> cmp y z <> Gt -> cmp x z <> Gt).

Definition in_order {A} (cmp : A -> A -> comparison) (l : list A) : Prop := StronglySorted (fun x y => cmp x y <> Gt) l.

Definition sorts {A} (sort : (A -> A -> comparison) -> list A -> list A) : Prop :=
  forall cmp l, sort cmp l ≡ₚ l /\ (total_preorder_on cmp l -> in_order cmp (sort cmp l)).

(** [select_nth_unstable_by] panics when the index is out of range. *)
Definition selects {A} (select : nat -> (A -> A -> comparison) -> list A -> list A) : Prop :=
  forall n cmp l, (n < length l)%nat -> select n cmp l ≡ₚ l /\
    (total_preorder_on cmp l -> forall i j x y, (i < n)%nat -> (n <= j)%nat ->
       select n cmp l !! i = Some x -> select n cmp l !! j = Some y -> cmp x y <> Gt).

(** [Ordering::then]: a tie is broken by a second comparison. *)
Definition then_cmp (c d : comparison) : comparison := match c with Eq => d | _ => c end.

Lemma total_preorder_then {A} (c d : A -> A -> comparison) l : total_preorder_on c l -> total_preorder_on d l ->
  total_preorder_on (fun x y => then_cmp (c x y) (d x y)) l.
Proof.
  intros [Ac Tc] [Ad Td]. split.
  - intros x y Hx Hy. rewrite (Ac x y), (Ad x y) by done. by destruct (c x y).
  - intros x y z Hx Hy Hz Hxy Hyz.
    assert (c x y <> Gt) as H1 by (by destruct (c x y)). assert (c y z <> Gt) as H2 by (by destruct (c y z)).
    pose proof (Tc x y z Hx Hy Hz H1 H2) as H3. destruct (c x z) eqn:Exz; [|done|done]. cbn.
    assert (c z x <> Gt) as Hzx by (rewrite (Ac x z), Exz by done; done).
    assert (c x y = Eq) as Exy.
    { pose proof (Tc y z x Hy Hz Hx H2 Hzx) as Hyx. rewrite (Ac x y) in Hyx by done. by destruct (c x y). }
    assert (c y z = Eq) as Eyz.
    { pose proof (Tc z x y Hz Hx Hy Hzx H1) as Hzy. rewrite (Ac y z) in Hzy by done. by destruct (c y z). }
    rewrite Exy in Hxy. rewrite Eyz in Hyz. by apply (Td x y z).
Qed.

Lemma total_preorder_nat {A} (f : A -> nat) l : total_preorder_on (fun x y => Nat.compare (f x) (f y)) l.
Proof.
  split; [intros x y _ _; by rewrite Nat.compare_antisym|]. intros x y z _ _ _. rewrite !Nat.compare_ngt_iff. lia.
Qed.

(** [Ord for bool]: false before true. *)
Definition bool_cmp (x y : bool) : comparison :=
  match x, y with false, true => Lt | true, false => Gt | _, _ => Eq end.

Lemma total_preorder_bool {A} (f : A -> bool) l : total_preorder_on (fun x y => bool_cmp (f x) (f y)) l.
Proof. split; [intros x y _ _; by destruct (f x), (f y)|]. intros x y z _ _ _. by destruct (f x), (f y), (f z). Qed.

(** The stable [sort_by] is such a sort. *)
Definition cmp_leb {A} (cmp : A -> A -> comparison) (x y : A) : bool := match cmp x y with Gt => false | _ => true end.
Definition sort_by {A} (cmp : A -> A -> comparison) (l : list A) : list A := stable_sort (cmp_leb cmp) l.

Lemma total_preorder_sub {A} (cmp : A -> A -> comparison) l l' : (forall x, x ∈ l' -> x ∈ l) ->
  total_preorder_on cmp l -> total_preorder_on cmp l'.
Proof. intros Hs [Ha Ht]. split; intros; eauto. Qed.

Lemma sort_by_sorts {A} : sorts (@sort_by A).
Proof.
  intros cmp l. split; [apply stable_sort_perm|]. unfold sort_by. induction l as [|x l IH]; intros Hp; cbn; [constructor|].
  specialize (IH (total_preorder_sub cmp (x :: l) l ltac:(by right) Hp)). destruct Hp as [Ha Ht].
  assert (forall y, y ∈ stable_sort (cmp_leb cmp) l -> y ∈ x :: l) as Hin
    by (intros y; rewrite stable_sort_perm; by right).
  change (foldr (sort_insert (cmp_leb cmp)) [] l) with (stable_sort (cmp_leb cmp) l).
  revert IH Hin. generalize (stable_sort (cmp_leb cmp) l). intros s.
  induction 1 as [|y s Hs IH Hy]; intros Hin; cbn; [by repeat constructor|].
  unfold cmp_leb at 1. assert (y ∈ x :: l) as Hyl by (apply Hin; left). assert (x ∈ x :: l) as Hxl by left.
  destruct (cmp x y) eqn:E.
  1, 2: constructor; [by constructor|]; constructor; [congruence|]; rewrite Forall_forall in Hy |- *; intros z Hz;
    apply (Ht x y z); [done|done|apply Hin; by right|congruence|by apply Hy].
  constructor; [apply IH; intros z Hz; apply Hin; by right|]. rewrite Forall_forall in Hy |- *.
  intros z. rewrite sort_insert_perm. intros [->|Hz]%elem_of_cons; [|by apply Hy].
  rewrite Ha by done. by rewrite E.
Qed.

Lemma in_order_lookup {A} (cmp : A -> A -> comparison) l i j x y : in_order cmp l ->
  (i < j)%nat -> l !! i = Some x -> l !! j = Some y -> cmp x y <> Gt.
Proof.
  intros Hs. revert i j. induction Hs as [|z l Hs IH Hz]; intros [|i] [|j] Hij Hx Hy; try (done || lia); cbn in *.
  - injection Hx as ->. rewrite Forall_forall in Hz. apply Hz. by eapply list_elem_of_lookup_2.
  - apply (IH i j); auto; lia.
Qed.

Lemma sort_by_selects {A} : selects (fun _ => @sort_by A).
Proof.
  intros n cmp l _. destruct (sort_by_sorts cmp l) as [Hp Hs]. split; [done|].
  intros Ht i j x y Hi Hj. apply in_order_lookup; [by apply Hs|lia].
Qed.

(** ** Lists ordered by distinct keys *)
Abbreviation keys_sorted l := (StronglySorted bytes_lt l).

Lemma keys_sorted_nodup (l : list bytes) : keys_sorted l -> NoDup l.
Proof.
  induction 1 as [|x l Hs IH Hx]; constructor; auto.
  intros Hin. rewrite Forall_forall in Hx. specialize (Hx x Hin).
  by apply bytes_lt_irrefl in Hx.
Qed.

Lemma keys_sorted_lookup_lt (l : list bytes) i j a b :
  keys_sorted l -> i < j -> l !! i = Some a -> l !! j = Some b -> bytes_lt a b.
Proof.
  intros Hs. revert i j. induction Hs as [|x l Hs IH Hx]; intros i j Hij Ha Hb; [done|].
  destruct j as [|j]; [lia|]. destruct i as [|i]; simplify_eq/=; [|eapply (IH i j); eauto; lia].
  rewrite Forall_forall in Hx. apply Hx. by eapply list_elem_of_lookup_2.
Qed.

Lemma keys_sorted_unique (l1 l2 : list bytes) :
  keys_sorted l1 -> keys_sorted l2 -> l1 ≡ₚ l2 -> l1 = l2.
Proof.
  intros H1 H2 Hp. eapply StronglySorted_unique_strong; [|exact H1|exact H2|exact Hp].
  intros x y _ _ Hxy Hyx. exfalso. by eapply bytes_lt_asym.
Qed.

Lemma keys_sorted_filter {A} (P : bytes * A -> Prop) `{!forall x, Decision (P x)} (l : list (bytes * A)) :
  keys_sorted l.*1 -> keys_sorted (filter P l).*1.
Proof.
  induction l as [|x l IH]; intros Hs; [constructor|].
  csimpl in Hs. apply StronglySorted_inv in Hs as [Hs Hx]. destruct (decide (P x)).
  - rewrite filter_cons_True by done. csimpl. constructor; [by apply IH|].
    rewrite Forall_fmap in Hx |- *. rewrite Forall_forall in Hx |- *.
    intros y [_ Hy]%list_elem_of_filter. by apply Hx.
  - rewrite filter_cons_False by done. by apply IH.
Qed.

(** Sorting by a byte-string key with distinct keys gives strictly ascending keys. *)
Section sort_by_key.
Context {A : Type} (key : A -> bytes).

Definition key_leb (a b : A) : bool := bytes_leb (key a) (key b).

Lemma key_leb_total x y : key_leb x y = false -> key_leb y x = true.
Proof.
    unfold key_leb. intros H. apply bytes_leb_le.
    destruct (bytes_trichotomy (key x) (key y)) as [H'|[H'|H']].
    - assert (bytes_leb (key x) (key y) = true) by (apply bytes_leb_le, bytes_le_lt_eq; auto).
      congruence.
    - apply bytes_le_lt_eq. auto.
    - apply bytes_le_lt_eq. auto.
Qed.

Lemma key_leb_trans x y z : key_leb x y = true -> key_leb y z = true -> key_leb x z = true.
Proof. unfold key_leb. rewrite !bytes_leb_le. apply bytes_le_trans. Qed.

Lemma sort_by_key_sorted (l : list A) :
    NoDup (key <$> l) -> keys_sorted (key <$> stable_sort key_leb l).
Proof.
    intros Hnd.
    pose proof (stable_sort_sorted key_leb key_leb_total key_leb_trans l) as Hs.
    assert (NoDup (key <$> stable_sort key_leb l)) as Hnd' by (by rewrite stable_sort_perm).
    clear Hnd. induction Hs as [|x l' Hs IH Hx]; simpl; [constructor|].
    apply NoDup_cons in Hnd' as [Hni Hnd']. constructor; [auto|].
    rewrite Forall_fmap. rewrite Forall_forall in Hx |- *. intros y Hy. simpl.
    specialize (Hx y Hy). apply bytes_leb_le, bytes_le_lt_eq in Hx as [Hx|Hx]; [done|].
    destruct Hni. rewrite Hx. by apply list_elem_of_fmap_2.
Qed.

Lemma sorted_by_key_inv (l : list A) :
    keys_sorted (key <$> l) -> StronglySorted (fun a b => bytes_lt (key a) (key b)) l.
Proof.
    induction l as [|x l IH]; simpl; intros H; [constructor|].
    apply StronglySorted_inv in H as [Hs Hx]. constructor; [auto|].
    by rewrite Forall_fmap in Hx.
Qed.

Lemma sort_by_key_id (l : list A) :
    keys_sorted (key <$> l) -> stable_sort key_leb l = l.
Proof.
    intros H. apply stable_sort_id.
    induction l as [|x l IH]; simpl in *; [constructor|].
    apply StronglySorted_inv in H as [Hs Hx]. constructor; [auto|].
    rewrite Forall_fmap in Hx. eapply Forall_impl; [exact Hx|].
    intros y Hy. apply bytes_leb_le, bytes_le_lt_eq. auto.
Qed.
End sort_by_key.

(** ** The in-order view of a [BTreeMap<Vec<u8>, V>] *)
Section btree.
Context {V : Type}.
Implicit Types (m : gmap bytes V).

Definition bt_entries m : list (bytes * V) := stable_sort (key_leb fst) (map_to_list m).

(** [BTreeMap::range] over [Included start .. Excluded end]: it is documented to
    panic when [start > end]. (The current implementation of the standard library
    looks at the bounds only of a map that has held an entry.) *)
Definition bt_range {E} m (start end_ : bytes) : res E (list (bytes * V)) :=
  if bytes_ltb end_ start then Panic
  else Ok (filter (fun kv => bytes_le start kv.1 /\ bytes_lt kv.1 end_) (bt_entries m)).

Lemma bt_entries_perm m : bt_entries m ≡ₚ map_to_list m.
Proof. apply stable_sort_perm. Qed.

Lemma elem_of_bt_entries m k v : (k, v) ∈ bt_entries m <-> m !! k = Some v.
Proof. rewrite bt_entries_perm. apply elem_of_map_to_list. Qed.

Lemma bt_entries_sorted m : keys_sorted (bt_entries m).*1.
Proof. apply sort_by_key_sorted, NoDup_fst_map_to_list. Qed.

Lemma bt_entries_nodup m : NoDup (bt_entries m).*1.
Proof. apply keys_sorted_nodup, bt_entries_sorted. Qed.

Lemma length_bt_entries m : length (bt_entries m) = size m.
Proof. rewrite bt_entries_perm. apply length_map_to_list. Qed.

Lemma bt_entries_empty : bt_entries ∅ = [].
Proof. unfold bt_entries. by rewrite map_to_list_empty. Qed.

Lemma list_to_map_bt_entries m : list_to_map (bt_entries m) = m.
Proof.
    apply map_eq. intros k. destruct (m !! k) as [v|] eqn:E.
    - apply elem_of_list_to_map_1; [apply bt_entries_nodup|]. by apply elem_of_bt_entries.
    - apply not_elem_of_list_to_map_1. intros H.
      apply list_elem_of_fmap in H as ([k' v] & -> & H).
      apply elem_of_bt_entries in H. simpl in *. congruence.
Qed.

  (** A key-sorted association list is determined by the map it denotes. *)
Lemma sorted_assoc_unique (l1 l2 : list (bytes * V)) :
    keys_sorted l1.*1 -> keys_sorted l2.*1 ->
    (forall k v, (k, v) ∈ l1 <-> (k, v) ∈ l2) -> l1 = l2.
Proof.
    intros H1 H2 Heq.
    assert (NoDup l1) by (by apply NoDup_fmap_1 with fst, keys_sorted_nodup).
    assert (NoDup l2) by (by apply NoDup_fmap_1 with fst, keys_sorted_nodup).
    assert (l1 ≡ₚ l2) as Hp by (apply NoDup_Permutation; auto; intros []; auto).
    rewrite <- (sort_by_key_id fst l1), <- (sort_by_key_id fst l2) by done.
    apply (StronglySorted_unique_strong (fun a b => bytes_lt a.1 b.1)).
    - intros x y _ _ Hxy Hyx. exfalso. by eapply bytes_lt_asym.
    - rewrite sort_by_key_id by done. by apply sorted_by_key_inv.
    - rewrite sort_by_key_id by done. by apply sorted_by_key_inv.
    - by rewrite !stable_sort_perm.
Qed.
End btree.

(** ** [slice::binary_search_by]

    The loop halves the window [base, base+size) until one element is left; the
    fuel is the length of the slice, an upper bound on the number of halvings.
    [inl i] is [Ok(i)] and [inr i] is [Err(i)]. *)
Section binary_search.
Context {A : Type} (f : A -> comparison).

Fixpoint bsearch_loop (fuel : nat) (l : list A) (size base : nat) : nat :=
    match fuel with
    | O => base
    | S fuel' =>
        if (1 <? size)%nat then
          let half := Nat.div2 size in
          let mid := base + half in
          let base' := match f <$> l !! mid with Some Gt => base | _ => mid end in
          bsearch_loop fuel' l (size - half) base'
        else base
    end.

Definition binary_search_by (l : list A) : nat + nat :=
    match l with
    | [] => inr 0
    | _ =>
        let base := bsearch_loop (length l) l (length l) 0 in
        match f <$> l !! base with
        | Some Eq => inl base
        | Some Lt => inr (S base)
        | _ => inr base
        end
    end.

  (** The order hypothesis: the comparison results ascend, and are equal at most once. *)
Definition search_sorted (l : list A) : Prop :=
    forall i j x y, i < j -> l !! i = Some x -> l !! j = Some y -> f y <> Gt -> f x = Lt.

Definition window (l : list A) (size base : nat) : Prop :=
    1 <= size /\ base + size <= length l /\
    (forall j y, l !! j = Some y -> base + size <= j -> f y = Gt) /\
    (base <> 0 -> forall y, l !! base = Some y -> f y <> Gt).

Lemma bsearch_loop_window l fuel size base :
    search_sorted l -> window l size base -> size <= S fuel ->
    window l 1 (bsearch_loop fuel l size base).
Proof.
    intros Hs. revert size base. induction fuel as [|fuel IH]; intros size base Hw Hf; simpl.
    { destruct Hw as (? & ?). by assert (size = 1) as -> by lia. }
    destruct (Nat.ltb_spec 1 size); [|by destruct Hw; assert (size = 1) as -> by lia].
    destruct Hw as (Hsz & Hle & Hgt & Hb).
    pose proof (Nat.div2_div size) as Hd.
    assert (1 <= Nat.div2 size /\ 2 * Nat.div2 size <= size) as [Hh1 Hh2].
    { rewrite Hd. split; [apply Nat.div_le_lower_bound; lia|apply Nat.Div0.mul_div_le]. }
    destruct (lookup_lt_is_Some_2 l (base + Nat.div2 size) ltac:(lia)) as [y Hy].
    rewrite Hy; simpl. destruct (f y) eqn:E.
    1,2: apply IH; [|lia]; split_and!; [lia..| |]; [intros j z Hz Hj; eapply Hgt; eauto; lia|];
      intros _ z Hz; congruence.
    apply IH; [|lia]. split_and!; [lia..| |done].
    intros j z Hz Hj. destruct (decide (base + Nat.div2 size = j)) as [<-|]; [congruence|].
    destruct (f z) eqn:Ez; [| |done];
      assert (f y = Lt) by (apply (Hs (base + Nat.div2 size) j y z); [lia|done|done|congruence]);
      congruence.
Qed.

  (** On a slice in order the search returns the element comparing equal, or the
      insertion point that splits the slice. *)
Lemma binary_search_by_spec l :
    search_sorted l ->
    match binary_search_by l with
    | inl i => exists x, l !! i = Some x /\ f x = Eq
    | inr i => i <= length l /\
        (forall j x, l !! j = Some x -> j < i -> f x = Lt) /\
        (forall j x, l !! j = Some x -> i <= j -> f x = Gt)
    end.
Proof.
    intros Hs. unfold binary_search_by. destruct l as [|a l']; [simpl; split_and!; naive_solver|].
    set (l := a :: l') in *.
    assert (window l 1 (bsearch_loop (length l) l (length l) 0)) as (_ & Hle & Hgt & Hb).
    { apply bsearch_loop_window; [done| |unfold l; simpl; lia].
      split_and!; [simpl; lia..| |done]. intros j y Hj%lookup_lt_Some ?. lia. }
    generalize dependent (bsearch_loop (length l) l (length l) 0). intros base Hle Hgt Hb.
    destruct (lookup_lt_is_Some_2 l base ltac:(lia)) as [x Hx].
    rewrite Hx. cbn [fmap option_fmap option_map]. destruct (f x) eqn:E; [by eauto| |].
    - split_and!; [lia| |intros j y Hy Hj; eapply Hgt; eauto; lia].
      intros j y Hy Hj. destruct (decide (j = base)) as [->|]; [congruence|].
      apply (Hs j base y x); auto; [lia|congruence].
    - destruct (decide (base = 0)) as [->|Hn]; [|by destruct (Hb Hn x Hx)].
      split_and!; [lia|lia|]. intros j y Hy _.
      destruct j as [|j]; [congruence|]. eapply Hgt; eauto. lia.
Qed.
End binary_search.

(** The comparison [r.key.cmp(key)] over a slice sorted by key is in order. *)
Lemma key_search_sorted {A} (key : A -> bytes) (l : list A) (k : bytes) :
  keys_sorted (key <$> l) -> search_sorted (fun r => bytes_cmp (key r) k) l.
Proof.
  intros Hs i j x y Hij Hx Hy Hng.
  assert (bytes_lt (key x) (key y)) as Hlt.
  { apply (keys_sorted_lookup_lt _ i j _ _ Hs Hij); by rewrite list_lookup_fmap, ?Hx, ?Hy. }
  exact (bytes_lt_le_trans _ _ k Hlt Hng).
Qed.
