(* ===== verification/Text.v ===== *)
(** * Decimal text

    [format!("{}", n)], the zero-padded [format!("{:0w}", n)] and
    [str::parse::<usize>] of the Rust standard library, on bytes. *)

From S2P Require Import Prelude.
Local Open Scope Z_scope.

Definition digit (d : Z) : byte := z2b (48 + d).

Definition digit_val (b : byte) : option Z :=
  if (48 <=? b2z b) && (b2z b <=? 57) then Some (b2z b - 48) else None.

(** The digits of [n], most significant first; a [u64] has at most twenty. *)
Fixpoint dec_loop (fuel : nat) (n : Z) : bytes :=
  match fuel with
  | O => []
  | S fuel' => if n <? 10 then [digit n] else dec_loop fuel' (n / 10) ++ [digit (n mod 10)]
  end.

Definition dec (n : Z) : bytes := dec_loop 20 n.

Definition zero_pad (w : nat) (s : bytes) : bytes := replicate (w - length s) (digit 0) ++ s.

(** One digit of [usize::from_str], with the overflow checks. *)
Definition parse_step (acc : option Z) (b : byte) : option Z :=
  a ← acc; d ← digit_val b;
  let r := a * 10 + d in if r <=? u64_max then Some r else None.

(** [str::parse::<usize>]: an optional plus sign and at least one digit. *)
Definition parse_usize (s : bytes) : option Z :=
  match s with
  | [] => None
  | b :: s' =>
      if bool_decide (b = x2b) then
        match s' with [] => None | _ => foldl parse_step (Some 0) s' end
      else foldl parse_step (Some 0) s
  end.

Lemma digit_val_digit d : 0 <= d < 10 -> digit_val (digit d) = Some d.
Proof.
  intros Hd. unfold digit_val, digit. rewrite b2z_z2b, Z.mod_small by lia.
  rewrite (proj2 (Z.leb_le _ _)), (proj2 (Z.leb_le _ _)) by lia. cbn. f_equal. lia.
Qed.

Lemma digit_not d b : 0 <= d < 10 -> ~ (48 <= b2z b <= 57) -> digit d <> b.
Proof. intros Hd Hb <-. apply Hb. unfold digit. rewrite b2z_z2b, Z.mod_small; lia. Qed.

(** Every byte of a formatted number is a digit. *)
Lemma dec_loop_digits fuel n : 0 <= n -> Forall (fun b => 48 <= b2z b <= 57) (dec_loop fuel n).
Proof.
  revert n. induction fuel as [|fuel IH]; intros n Hn; cbn [dec_loop]; [constructor|].
  assert (forall d, 0 <= d < 10 -> 48 <= b2z (digit d) <= 57) as Hd.
  { intros d Hd. unfold digit. rewrite b2z_z2b, Z.mod_small; lia. }
  destruct (Z.ltb_spec n 10); [constructor; [apply Hd; lia|constructor]|].
  apply Forall_app. split; [apply IH; by apply Z.div_pos|].
  constructor; [apply Hd, Z.mod_pos_bound; lia|constructor].
Qed.

Lemma dec_loop_parse fuel n : 0 <= n < 10 ^ Z.of_nat fuel -> n <= u64_max ->
  foldl parse_step (Some 0) (dec_loop fuel n) = Some n.
Proof.
  revert n. induction fuel as [|fuel IH]; intros n Hn Hmax.
  { cbn in *. f_equal. lia. }
  cbn [dec_loop]. destruct (Z.ltb_spec n 10).
  - cbn [foldl]. unfold parse_step. cbn [mbind option_bind]. rewrite digit_val_digit by lia.
    cbn [mbind option_bind]. rewrite (proj2 (Z.leb_le _ _)) by lia. done.
  - rewrite foldl_app, IH.
    + cbn [foldl]. unfold parse_step. cbn [mbind option_bind].
      rewrite digit_val_digit by (apply Z.mod_pos_bound; lia). cbn [mbind option_bind].
      rewrite (Z.mul_comm (n / 10)), <- Z.div_mod by lia. by rewrite (proj2 (Z.leb_le _ _)) by lia.
    + rewrite Nat2Z.inj_succ, Z.pow_succ_r in Hn by lia.
      split; [apply Z.div_pos; lia|]. apply Z.div_lt_upper_bound; lia.
    + transitivity n; [|done]. apply Z.div_le_upper_bound; lia.
Qed.

Lemma dec_loop_nonempty fuel n : dec_loop (S fuel) n <> [].
Proof. cbn [dec_loop]. destruct (n <? 10); [done|]. by destruct (dec_loop fuel (n / 10)). Qed.

Lemma parse_digits_zeros k s : foldl parse_step (Some 0) (replicate k (digit 0) ++ s) = foldl parse_step (Some 0) s.
Proof. induction k as [|k IH]; [done|]. by cbn. Qed.

Lemma parse_padded w n : 0 <= n <= u64_max -> parse_usize (zero_pad w (dec n)) = Some n.
Proof.
  intros Hn. assert (foldl parse_step (Some 0) (zero_pad w (dec n)) = Some n) as E.
  { unfold zero_pad. rewrite parse_digits_zeros. apply dec_loop_parse; [|lia].
    unfold u64_max in Hn. cbn. lia. }
  unfold parse_usize. destruct (zero_pad w (dec n)) as [|b s] eqn:Es.
  { unfold zero_pad in Es. apply app_eq_nil in Es as [_ Es]. by apply dec_loop_nonempty in Es. }
  rewrite bool_decide_eq_false_2; [done|]. intros ->.
  assert (Forall (fun b => 48 <= b2z b <= 57) (zero_pad w (dec n))) as Hd.
  { unfold zero_pad. apply Forall_app. split; [apply Forall_replicate; by vm_compute|].
    apply dec_loop_digits. lia. }
  rewrite Es in Hd. apply Forall_cons in Hd as [Hd _]. destruct Hd as [Hd _]. by apply Hd.
Qed.

Lemma parse_dec n : 0 <= n <= u64_max -> parse_usize (dec n) = Some n.
Proof. intros. by apply (parse_padded 0). Qed.

(** ** ASCII classes ([u8::is_ascii_uppercase] and its relatives) *)
Definition is_upper (b : byte) : bool := (65 <=? b2z b) && (b2z b <=? 90).
Definition is_lower (b : byte) : bool := (97 <=? b2z b) && (b2z b <=? 122).
Definition is_digit (b : byte) : bool := (48 <=? b2z b) && (b2z b <=? 57).
Definition is_alnum (b : byte) : bool := is_upper b || is_lower b || is_digit b.
Definition to_lower (b : byte) : byte := if is_upper b then z2b (b2z b + 32) else b.

Lemma is_lower_not_upper b : is_lower b = true -> is_upper b = false.
Proof. unfold is_lower, is_upper. intros H. apply andb_prop in H as [H1 H2]. apply Z.leb_le in H1. lia. Qed.

Lemma is_lower_alnum b : is_lower b = true -> is_alnum b = true.
Proof. unfold is_alnum. intros ->. by rewrite orb_true_r. Qed.

Lemma is_upper_alnum b : is_upper b = true -> is_alnum b = true.
Proof. unfold is_alnum. by intros ->. Qed.

(** ** UTF-8

    [std::str::from_utf8] and [str::chars]: the scalar values of a valid byte
    string, or [None]. *)
Definition cont_byte (b : byte) : bool := (128 <=? b2z b) && (b2z b <=? 191).

Definition in_range (lo hi : Z) (b : byte) : bool := (lo <=? b2z b) && (b2z b <=? hi).

(** The second byte after a leading byte: overlong forms, surrogates and values
    above U+10FFFF are excluded. *)
Definition second_ok (lead : Z) (b : byte) : bool :=
  if lead =? 0xE0 then in_range 0xA0 0xBF b
  else if lead =? 0xED then in_range 0x80 0x9F b
  else if lead =? 0xF0 then in_range 0x90 0xBF b
  else if lead =? 0xF4 then in_range 0x80 0x8F b
  else cont_byte b.

Definition low6 (b : byte) : Z := b2z b - 128.

Fixpoint utf8_decode (s : bytes) : option (list Z) :=
  match s with
  | [] => Some []
  | b0 :: s1 =>
      let c := b2z b0 in
      if c <? 0x80 then rest ← utf8_decode s1; Some (c :: rest)
      else if c <? 0xC2 then None
      else if c <? 0xE0 then
        match s1 with
        | b1 :: s2 =>
            if cont_byte b1 then rest ← utf8_decode s2; Some ((c - 0xC0) * 64 + low6 b1 :: rest)
            else None
        | _ => None
        end
      else if c <? 0xF0 then
        match s1 with
        | b1 :: b2 :: s3 =>
            if second_ok c b1 && cont_byte b2
            then rest ← utf8_decode s3; Some (((c - 0xE0) * 64 + low6 b1) * 64 + low6 b2 :: rest)
            else None
        | _ => None
        end
      else if c <? 0xF5 then
        match s1 with
        | b1 :: b2 :: b3 :: s4 =>
            if second_ok c b1 && cont_byte b2 && cont_byte b3
            then rest ← utf8_decode s4;
                 Some ((((c - 0xF0) * 64 + low6 b1) * 64 + low6 b2) * 64 + low6 b3 :: rest)
            else None
        | _ => None
        end
      else None
  end.

Definition utf8_valid (s : bytes) : bool := match utf8_decode s with Some _ => true | None => false end.

(** [from_utf8(s).unwrap_or("")] *)
Definition utf8_or_empty (s : bytes) : bytes := if utf8_valid s then s else [].

(** Plain ASCII text is valid, one scalar value per byte. *)
Lemma utf8_decode_ascii s : Forall (fun b => b2z b < 0x80) s -> utf8_decode s = Some (b2z <$> s).
Proof.
  induction 1 as [|b s Hb Hs IH]; [done|]. cbn [utf8_decode fmap list_fmap]. cbv zeta.
  rewrite (proj2 (Z.ltb_lt _ _)) by done. by rewrite IH.
Qed.

(** ** Reading a big-endian length *)
Definition read_u32 (data : bytes) : res bytes (Z * bytes) :=
  if (length data <? 4)%nat then Err (str "unexpected EOF reading u32")
  else Ok (be_val (take 4 data), drop 4 data).

Lemma read_u32_be z rest : 0 <= z < 2 ^ 32 -> read_u32 (be_bytes 4 z ++ rest) = Ok (z, rest).
Proof.
  intros Hz. unfold read_u32. rewrite length_app, length_be_bytes. replace (_ <? 4)%nat with false by (symmetry; apply Nat.ltb_ge; lia).
  rewrite take_app_length', drop_app_length' by (by rewrite length_be_bytes). f_equal. f_equal.
  rewrite be_val_be_bytes. apply Z.mod_small. done.
Qed.

(** ** [String::from_utf8_lossy]

    Each maximal prefix of an ill-formed sequence becomes one U+FFFD. *)
Definition replacement : bytes := [xef; xbf; xbd].

Fixpoint from_utf8_lossy (s : bytes) : bytes :=
  match s with
  | [] => []
  | b0 :: s1 =>
      let c := b2z b0 in
      if c <? 0x80 then b0 :: from_utf8_lossy s1
      else if c <? 0xC2 then replacement ++ from_utf8_lossy s1
      else if c <? 0xE0 then
        match s1 with
        | b1 :: s2 => if cont_byte b1 then b0 :: b1 :: from_utf8_lossy s2 else replacement ++ from_utf8_lossy s1
        | [] => replacement
        end
      else if c <? 0xF0 then
        match s1 with
        | b1 :: s2 =>
            if second_ok c b1 then
              match s2 with
              | b2 :: s3 => if cont_byte b2 then b0 :: b1 :: b2 :: from_utf8_lossy s3 else replacement ++ from_utf8_lossy s2
              | [] => replacement
              end
            else replacement ++ from_utf8_lossy s1
        | [] => replacement
        end
      else if c <? 0xF5 then
        match s1 with
        | b1 :: s2 =>
            if second_ok c b1 then
              match s2 with
              | b2 :: s3 =>
                  if cont_byte b2 then
                    match s3 with
                    | b3 :: s4 => if cont_byte b3 then b0 :: b1 :: b2 :: b3 :: from_utf8_lossy s4
                                  else replacement ++ from_utf8_lossy s3
                    | [] => replacement
                    end
                  else replacement ++ from_utf8_lossy s2
              | [] => replacement
              end
            else replacement ++ from_utf8_lossy s1
        | [] => replacement
        end
      else replacement ++ from_utf8_lossy s1
  end.

(** Valid text is left as it is. *)
Lemma from_utf8_lossy_valid : forall s, utf8_valid s = true -> from_utf8_lossy s = s.
Proof.
  unfold utf8_valid. fix IH 1. intros [|b0 s1]; [done|]. cbn [utf8_decode from_utf8_lossy]. cbv zeta.
  destruct (_ <? 0x80).
  { intros Hv. f_equal. apply IH. by destruct (utf8_decode s1). }
  destruct (_ <? 0xC2); [done|]. destruct (_ <? 0xE0).
  { destruct s1 as [|b1 s2]; [done|]. destruct (cont_byte b1); [|done]. intros Hv. do 2 f_equal. apply IH. by destruct (utf8_decode s2). }
  destruct (_ <? 0xF0).
  { destruct s1 as [|b1 [|b2 s3]]; [done..|]. destruct (second_ok _ b1); cbn [andb]; [|done].
    destruct (cont_byte b2); [|done]. intros Hv. do 3 f_equal. apply IH. by destruct (utf8_decode s3). }
  destruct (_ <? 0xF5); [|done].
  destruct s1 as [|b1 [|b2 [|b3 s4]]]; [done..|]. destruct (second_ok _ b1); cbn [andb]; [|done].
  destruct (cont_byte b2); cbn [andb]; [|done]. destruct (cont_byte b3); [|done].
  intros Hv. do 4 f_equal. apply IH. by destruct (utf8_decode s4).
Qed.
