(* ===== verification/Float.v ===== *)
(** * IEEE 754 floating point

    Rust's [f64] and [f32] as the Standard Library's executable specification
    of binary floating point, which uses no axiom. The transcendental functions
    ([ln], [exp]) are the platform's libm and stay parameters of the
    definitions that call them. *)

From Stdlib Require Export Floats.SpecFloat.
From S2P Require Import Prelude Ordered.
Local Open Scope Z_scope.

Abbreviation f64 := spec_float.
Abbreviation f32 := spec_float.

Definition f64_add : f64 -> f64 -> f64 := SFadd 53 1024.
Definition f64_sub : f64 -> f64 -> f64 := SFsub 53 1024.
Definition f64_mul : f64 -> f64 -> f64 := SFmul 53 1024.
Definition f64_div : f64 -> f64 -> f64 := SFdiv 53 1024.
Definition f64_neg : f64 -> f64 := SFopp.

Definition f32_add : f32 -> f32 -> f32 := SFadd 24 128.
Definition f32_sub : f32 -> f32 -> f32 := SFsub 24 128.
Definition f32_mul : f32 -> f32 -> f32 := SFmul 24 128.
Definition f32_div : f32 -> f32 -> f32 := SFdiv 24 128.
Definition f32_sqrt : f32 -> f32 := SFsqrt 24 128.

(** [partial_cmp]: [None] when an operand is NaN. *)
Definition f_partial_cmp : spec_float -> spec_float -> option comparison := SFcompare.

(** An integer converted with [as f64], rounded to nearest even. *)
Definition f64_of_Z (z : Z) : f64 := binary_normalize 53 1024 z 0 false.
Definition f32_of_Z (z : Z) : f32 := binary_normalize 24 128 z 0 false.

(** The correctly rounded quotient of two exactly representable integers: the
    value of a decimal literal [n/d]. *)
Definition f64_lit (n d : Z) : f64 := f64_div (f64_of_Z n) (f64_of_Z d).
Definition f32_lit (n d : Z) : f32 := f32_div (f32_of_Z n) (f32_of_Z d).

Definition f64_zero : f64 := S754_zero false.
Definition f32_zero : f32 := S754_zero false.

(** [f64::max]: a NaN operand is ignored. *)
Definition f_max (x y : spec_float) : spec_float :=
  match SFcompare x y with
  | Some Lt => y
  | Some _ => x
  | None => match x with S754_nan => y | _ => x end
  end.

(** [x == 0.0] *)
Definition f_is_zero (x : spec_float) : bool :=
  match x with S754_zero _ => true | _ => false end.

(** [b.partial_cmp(&a).unwrap_or(Ordering::Equal)]: the order of a descending sort. *)
Definition f_cmp_desc (a b : spec_float) : comparison :=
  match SFcompare b a with Some c => c | None => Eq end.

(** [f64::ceil]. *)
Definition f64_ceil (x : f64) : f64 :=
  match x with
  | S754_finite s m e =>
      if 0 <=? e then x
      else
        let q := Z.pos m / 2 ^ (- e) in
        let r := Z.pos m mod 2 ^ (- e) in
        let up := if s then - q else if r =? 0 then q else q + 1 in
        binary_normalize 53 1024 up 0 s
  | _ => x
  end.

(** [x as usize]: truncation towards zero, saturating, NaN to zero. *)
Definition f64_as_usize (x : f64) : Z :=
  match x with
  | S754_finite false m e =>
      Z.min u64_max (if 0 <=? e then Z.pos m * 2 ^ e else Z.pos m / 2 ^ (- e))
  | S754_infinity false => u64_max
  | _ => 0
  end.

(** [x as f64] from [f32] is exact. *)
Definition f64_of_f32 (x : f32) : f64 :=
  match x with
  | S754_finite s m e => binary_normalize 53 1024 (if s then Z.neg m else Z.pos m) e s
  | _ => x
  end.

Lemma f64_as_usize_range x : 0 <= f64_as_usize x <= u64_max.
Proof.
  unfold u64_max. destruct x as [| [] | |[] m e]; simpl; try (unfold u64_max; lia).
  unfold u64_max. destruct (Z.leb_spec 0 e).
  - assert (0 <= 2 ^ e) by (apply Z.pow_nonneg; lia). lia.
  - assert (0 <= Z.pos m / 2 ^ (- e)) by (apply Z.div_pos; [lia|apply Z.pow_pos_nonneg; lia]). lia.
Qed.

Example f64_lit_half : f64_lit 1 2 = S754_finite false 4503599627370496 (-53).
Proof. reflexivity. Qed.

Example f64_ceil_ex : f64_as_usize (f64_ceil (f64_lit 7 2)) = 4.
Proof. reflexivity. Qed.

(** ** The order of [partial_cmp] on numbers that are not NaN

    The comparison is that of a key: the sign class, the exponent and the
    mantissa, compared in this order. *)
Definition is_nan (x : spec_float) : bool := match x with S754_nan => true | _ => false end.

Definition f_key (x : spec_float) : Z * Z * Z :=
  match x with
  | S754_zero _ | S754_nan => (0, 0, 0)
  | S754_infinity s => (if s then -2 else 2, 0, 0)
  | S754_finite s m e => if s then (-1, - e, Z.neg m) else (1, e, Z.pos m)
  end.

Definition lex3 (a b : Z * Z * Z) : comparison :=
  match a.1.1 ?= b.1.1 with
  | Eq => match a.1.2 ?= b.1.2 with Eq => a.2 ?= b.2 | c => c end
  | c => c
  end.

Lemma f_partial_cmp_key x y : is_nan x = false -> is_nan y = false ->
  f_partial_cmp x y = Some (lex3 (f_key x) (f_key y)).
Proof.
  destruct x as [[]|[]| |[] m e], y as [[]|[]| |[] m' e']; try done; intros _ _; unfold f_partial_cmp, lex3; cbn.
  all: f_equal.
  rewrite Z.compare_opp, (Z.compare_antisym e e'). by destruct (e ?= e').
Qed.

Lemma lex3_antisym a b : lex3 b a = CompOpp (lex3 a b).
Proof.
  unfold lex3. rewrite (Z.compare_antisym a.1.1), (Z.compare_antisym a.1.2), (Z.compare_antisym a.2).
  destruct (a.1.1 ?= b.1.1), (a.1.2 ?= b.1.2), (a.2 ?= b.2); done.
Qed.

Lemma lex3_le a b : lex3 a b <> Gt <->
  a.1.1 < b.1.1 \/ (a.1.1 = b.1.1 /\ (a.1.2 < b.1.2 \/ (a.1.2 = b.1.2 /\ a.2 <= b.2))).
Proof.
  unfold lex3. destruct (Z.compare_spec a.1.1 b.1.1), (Z.compare_spec a.1.2 b.1.2), (Z.compare_spec a.2 b.2);
    split; intros H'; (discriminate || lia || by destruct H').
Qed.

(** The order of a descending sort of numbers that are not NaN is a total preorder. *)
Lemma f_cmp_desc_total {A} (f : A -> spec_float) (l : list A) : (forall x, x ∈ l -> is_nan (f x) = false) ->
  total_preorder_on (fun x y => f_cmp_desc (f x) (f y)) l.
Proof.
  intros Hn.
  assert (forall x y, x ∈ l -> y ∈ l -> f_cmp_desc (f x) (f y) = lex3 (f_key (f y)) (f_key (f x))) as E.
  { intros x y Hx Hy. unfold f_cmp_desc. change (SFcompare (f y) (f x)) with (f_partial_cmp (f y) (f x)).
    by rewrite f_partial_cmp_key by auto. }
  split.
  - intros x y Hx Hy. rewrite !E by done. apply lex3_antisym.
  - intros x y z Hx Hy Hz. rewrite !E by done. rewrite !lex3_le. lia.
Qed.

(** ** Numbers that are not negative

    Sums of such numbers, and quotients by a finite positive number, are not
    negative, and in particular not NaN. *)
Definition nonneg (x : spec_float) : Prop :=
  match x with
  | S754_zero s | S754_infinity s | S754_finite s _ _ => s = false
  | S754_nan => False
  end.

Definition finite_pos (x : spec_float) : Prop := exists m e, x = S754_finite false m e.

Lemma nonneg_not_nan x : nonneg x -> is_nan x = false.
Proof. by destruct x. Qed.

Lemma finite_pos_nonneg x : finite_pos x -> nonneg x.
Proof. by intros (m & e & ->). Qed.

Lemma shr_1_nonneg r : 0 <= shr_m r -> 0 <= shr_m (shr_1 r).
Proof. destruct r as [[|[]|] r s]; cbn; lia. Qed.

Lemma iter_shr_nonneg n : forall r, 0 <= shr_m r -> 0 <= shr_m (SpecFloat.iter_pos shr_1 n r).
Proof. induction n; intros r Hr; cbn; auto using shr_1_nonneg. Qed.

Lemma shr_fexp_nonneg prec emax m e l : 0 <= m -> 0 <= shr_m (shr_fexp prec emax m e l).1.
Proof.
  intros Hm. unfold shr_fexp, shr.
  assert (0 <= shr_m (shr_record_of_loc m l)) by (by destruct l as [|[]]).
  destruct (_ - _); cbn [fst]; auto using iter_shr_nonneg.
Qed.

Lemma round_aux_nonneg prec emax m e l : 0 <= m -> nonneg (binary_round_aux prec emax false m e l).
Proof.
  intros Hm. unfold binary_round_aux. pose proof (shr_fexp_nonneg prec emax m e l Hm) as H1.
  destruct (shr_fexp prec emax m e l) as [r1 e1]. cbn [fst] in H1.
  assert (0 <= round_nearest_even (shr_m r1) (loc_of_shr_record r1)) as H2.
  { destruct (loc_of_shr_record r1) as [|[]]; cbn; [done| |lia..]. destruct (Z.even _); lia. }
  pose proof (shr_fexp_nonneg prec emax _ e1 loc_Exact H2) as H3.
  destruct (shr_fexp prec emax _ e1 loc_Exact) as [r2 e2]. cbn [fst] in H3.
  destruct (shr_m r2); [done| |lia]. by destruct (_ <=? _).
Qed.

Lemma normalize_nonneg prec emax z e : 0 <= z -> nonneg (binary_normalize prec emax z e false).
Proof.
  intros Hz. destruct z as [|m|m]; [done| |lia]. cbn. unfold binary_round.
  destruct (shl_align _ _ _) as [mz ez]. apply round_aux_nonneg. lia.
Qed.

Lemma add_nonneg x y : nonneg x -> nonneg y -> nonneg (f64_add x y).
Proof.
  destruct x as [s|s| |s m e], y as [s'|s'| |s' m' e']; try done; cbn [nonneg]; intros; subst; try done.
  unfold f64_add, SFadd, cond_Zopp. apply normalize_nonneg. lia.
Qed.

Lemma div_nonneg x y : nonneg x -> finite_pos y -> nonneg (f64_div x y).
Proof.
  intros Hx (m' & e' & ->). destruct x as [s|s| |s m e]; try done; simplify_eq/=; try done.
  unfold f64_div, SFdiv. destruct (SFdiv_core_binary 53 1024 (Z.pos m) e (Z.pos m') e') as [[q e1] l] eqn:E.
  apply round_aux_nonneg. unfold SFdiv_core_binary in E.
  match type of E with (let '(q, r) := Z.div_eucl ?a ?b in _) = _ =>
    set (a' := a) in E; assert (0 <= a') as Ha; [subst a'|] end.
  { destruct (_ - _ - _); [lia| |lia]. apply Z.shiftl_nonneg. lia. }
  pose proof (Z.div_pos a' (Z.pos m') Ha ltac:(lia)) as Hq. unfold Z.div in Hq.
  destruct (Z.div_eucl a' (Z.pos m')) as [q' r']. by injection E as <- _ _.
Qed.

Lemma div_by_nonneg x y : finite_pos x -> nonneg y -> nonneg (f64_div x y).
Proof.
  intros Hx Hy. destruct y as [s|s| |s m e]; cbn in Hy; subst; [..|done|].
  3: { apply div_nonneg; [by apply finite_pos_nonneg|]. by eexists _, _. }
  all: by destruct Hx as (mx & ex & ->).
Qed.

Lemma digits2_pos_bound p k : Z.pos p < 2 ^ Z.of_nat k -> Z.pos (digits2_pos p) <= Z.of_nat k.
Proof.
  revert k. induction p as [p IH|p IH|]; intros k H.
  3: { destruct k; [cbn in H; lia|cbn; lia]. }
  all: destruct k as [|k]; [cbn in H; lia|]; rewrite Nat2Z.inj_succ, Z.pow_succ_r in H by lia;
    specialize (IH k ltac:(lia)); cbn [digits2_pos]; lia.
Qed.

Lemma digits2_pos_shift p d : Z.pos (digits2_pos (Pos.iter xO p d)) = Z.pos (digits2_pos p) + Z.pos d.
Proof.
  revert p. induction d as [|d IH] using Pos.peano_ind; intros p; [cbn; lia|].
  rewrite Pos.iter_succ. cbn [digits2_pos]. rewrite !Pos2Z.inj_succ, IH. lia.
Qed.

(** An integer below [2^53] is represented exactly. *)
Lemma f64_of_Z_pos z : 0 < z < 2 ^ 53 -> finite_pos (f64_of_Z z).
Proof.
  intros Hz. destruct z as [|p|p]; [lia| |lia]. unfold f64_of_Z, binary_normalize, binary_round.
  pose proof (digits2_pos_bound p 53 ltac:(change (Z.of_nat 53) with 53; lia)) as Hd.
  assert (forall e, -52 <= e <= 0 -> fexp 53 1024 (53 + e) = e) as Hf by (intros e He; unfold fexp, emin; lia).
  assert (exists m, shl_align p 0 (fexp 53 1024 (Z.pos (digits2_pos p) + 0)) = (m, Z.pos (digits2_pos p) - 53) /\
    Z.pos (digits2_pos m) = 53) as (m & -> & Hm).
  { replace (Z.pos (digits2_pos p) + 0) with (53 + (Z.pos (digits2_pos p) - 53)) by lia. rewrite Hf by lia.
    unfold shl_align. rewrite Z.sub_0_r. destruct (Z.pos (digits2_pos p) - 53) as [|d|d] eqn:E; [|lia|].
    - exists p. split; [done|lia].
    - exists (Pos.iter xO p d). split; [done|]. rewrite digits2_pos_shift. lia. }
  set (e := Z.pos (digits2_pos p) - 53) in *. assert (-52 <= e <= 0) as He by lia.
  assert (shr_fexp 53 1024 (Z.pos m) e loc_Exact = (Build_shr_record (Z.pos m) false false, e)) as Es.
  { unfold shr_fexp. cbn [Zdigits2]. rewrite Hm, Hf by done. by rewrite Z.sub_diag. }
  unfold binary_round_aux. rewrite Es. cbn [shr_m loc_of_shr_record round_nearest_even]. rewrite Es. cbn [shr_m].
  rewrite (proj2 (Z.leb_le _ _)) by lia. by exists m, e.
Qed.

(** ** Bit patterns ([to_bits], [from_bits]) *)
Definition bits_to_float (mw ew : Z) (z : Z) : spec_float :=
  let s := Z.testbit z (mw + ew) in
  let e := Z.shiftr z mw mod 2 ^ ew in
  let frac := z mod 2 ^ mw in
  if e =? 2 ^ ew - 1 then (if frac =? 0 then S754_infinity s else S754_nan)
  else if e =? 0 then
    match frac with
    | Z.pos m => S754_finite s m (3 - 2 ^ (ew - 1) - (mw + 1))
    | _ => S754_zero s
    end
  else S754_finite s (Z.to_pos (2 ^ mw + frac)) (e - (2 ^ (ew - 1) - 1) - mw).

Definition f64_of_bits : Z -> f64 := bits_to_float 52 11.
Definition f32_of_bits : Z -> f32 := bits_to_float 23 8.

Definition sign_bit (s : bool) : Z := if s then 2 ^ 31 else 0.

(** A NaN is written as the quiet NaN. *)
Definition f32_to_bits (x : f32) : Z :=
  match x with
  | S754_zero s => sign_bit s
  | S754_infinity s => sign_bit s + 255 * 2 ^ 23
  | S754_nan => 2143289344
  | S754_finite s m e =>
      sign_bit s + (if Z.pos m <? 2 ^ 23 then Z.pos m else (e + 150) * 2 ^ 23 + (Z.pos m - 2 ^ 23))
  end.

Definition f64_to_bits (x : f64) : Z :=
  let sign (s : bool) := if s then 2 ^ 63 else 0 in
  match x with
  | S754_zero s => sign s
  | S754_infinity s => sign s + 2047 * 2 ^ 52
  | S754_nan => 0x7FF8000000000000
  | S754_finite s m e =>
      sign s + (if Z.pos m <? 2 ^ 52 then Z.pos m else (e + 1075) * 2 ^ 52 + (Z.pos m - 2 ^ 52))
  end.

(** [a < b] *)
Definition f_ltb : spec_float -> spec_float -> bool := SFltb.

(** [f32::clamp] *)
Definition f_clamp (x lo hi : spec_float) : spec_float :=
  if f_ltb x lo then lo else if f_ltb hi x then hi else x.

Example f64_bits : f64_of_bits 0x3FF8000000000000 = f64_lit 3 2 /\ f64_to_bits (f64_lit 3 2) = 0x3FF8000000000000.
Proof. split; reflexivity. Qed.

Example f32_bits : f32_of_bits (f32_to_bits (f32_lit 1 10)) = f32_lit 1 10 /\ f32_to_bits (f32_lit 1 10) = 0x3DCCCCCD.
Proof. split; reflexivity. Qed.

(** ** Bit patterns of valid numbers are read back *)
Lemma f32_bits_split s r : 0 <= r < 2 ^ 31 -> Z.testbit (sign_bit s + r) 31 = s /\
  Z.shiftr (sign_bit s + r) 23 mod 2 ^ 8 = r / 2 ^ 23 /\ (sign_bit s + r) mod 2 ^ 23 = r mod 2 ^ 23.
Proof.
  intros Hr. rewrite Z.shiftr_div_pow2 by done. split_and!.
  - destruct s; cbn [sign_bit].
    + apply Z.testbit_true; [done|]. rewrite <- (Z.mul_1_l (2 ^ 31)) at 1. rewrite Z.div_add_l by done. by rewrite (Z.div_small r).
    + apply Z.testbit_false; [done|]. rewrite Z.add_0_l. by rewrite Z.div_small.
  - assert (0 <= r / 2 ^ 23 < 2 ^ 8) by (split; [apply Z.div_pos; lia|apply Z.div_lt_upper_bound; lia]).
    destruct s; cbn [sign_bit]; [|by rewrite Z.add_0_l, Z.mod_small].
    change (2 ^ 31) with (2 ^ 8 * 2 ^ 23). rewrite Z.div_add_l by done. rewrite <- (Z.mul_1_l (2 ^ 8)) at 1.
    rewrite Z.add_comm, Z_mod_plus_full. by apply Z.mod_small.
  - destruct s; cbn [sign_bit]; [|done]. change (2 ^ 31) with (2 ^ 8 * 2 ^ 23). by rewrite Z.add_comm, Z_mod_plus_full.
Qed.

Lemma digits2_pos_range p : 2 ^ (Z.pos (digits2_pos p) - 1) <= Z.pos p < 2 ^ Z.pos (digits2_pos p).
Proof.
  induction p as [p IH|p IH|]; cbn [digits2_pos]; [..|done].
  all: rewrite Pos2Z.inj_succ, Z.sub_1_r, Z.pred_succ, Z.pow_succ_r by done.
  all: replace (Z.pos (digits2_pos p)) with (Z.succ (Z.pos (digits2_pos p) - 1)) at 1 by lia; rewrite Z.pow_succ_r by lia.
  all: lia.
Qed.

Lemma f32_bits_range x : valid_binary 24 128 x = true -> 0 <= f32_to_bits x < 2 ^ 32.
Proof.
  destruct x as [s|s| |s m e]; cbn [f32_to_bits]; intros Hv; [by destruct s..|done| ].
  cbn [valid_binary] in Hv. unfold bounded, canonical_mantissa, fexp, emin in Hv.
  apply andb_prop in Hv as [Hc%Z.eqb_eq He%Z.leb_le]. pose proof (digits2_pos_range m) as Hm.
  assert (Z.pos m < 2 ^ 24) as Hm24 by (eapply Z.lt_le_trans; [apply Hm|]; apply Z.pow_le_mono_r; lia).
  assert (0 <= sign_bit s <= 2 ^ 31) by (by destruct s). destruct (Z.ltb_spec (Z.pos m) (2 ^ 23)); lia.
Qed.

Lemma f32_bits_roundtrip x : valid_binary 24 128 x = true -> f32_of_bits (f32_to_bits x) = x.
Proof.
  destruct x as [s|s| |s m e]; intros Hv; [by destruct s..|done|].
  cbn [valid_binary] in Hv. unfold bounded, canonical_mantissa, fexp, emin in Hv.
  apply andb_prop in Hv as [Hc%Z.eqb_eq He%Z.leb_le]. pose proof (digits2_pos_range m) as Hm.
  unfold f32_of_bits, bits_to_float. cbn [f32_to_bits]. change (23 + 8) with 31.
  assert (Z.pos m < 2 ^ 24) as Hm24 by (eapply Z.lt_le_trans; [apply Hm|]; apply Z.pow_le_mono_r; lia).
  destruct (Z.ltb_spec (Z.pos m) (2 ^ 23)) as [Hlt|Hge].
  - destruct (f32_bits_split s (Z.pos m)) as (-> & -> & ->); [lia|]. rewrite Z.div_small, Z.mod_small by lia. cbn -[Z.pow].
    f_equal. assert (Z.pos (digits2_pos m) < 24); [|lia].
    assert (2 ^ (Z.pos (digits2_pos m) - 1) < 2 ^ 23) as Hp by lia. apply Z.pow_lt_mono_r_iff in Hp; lia.
  - assert (24 <= Z.pos (digits2_pos m)) as Hd.
    { assert (2 ^ 23 < 2 ^ Z.pos (digits2_pos m)) as Hp by lia. apply Z.pow_lt_mono_r_iff in Hp; lia. }
    assert (Z.pos (digits2_pos m) = 24) as Hd24.
    { assert (2 ^ (Z.pos (digits2_pos m) - 1) < 2 ^ 24) as Hp by lia. apply Z.pow_lt_mono_r_iff in Hp; lia. }
    set (r := (e + 150) * 2 ^ 23 + (Z.pos m - 2 ^ 23)). assert (0 <= r < 2 ^ 31) by (unfold r; lia).
    destruct (f32_bits_split s r) as (-> & -> & ->); [done|].
    assert (r / 2 ^ 23 = e + 150) as -> by (unfold r; rewrite Z.div_add_l by done; rewrite Z.div_small; lia).
    assert (r mod 2 ^ 23 = Z.pos m - 2 ^ 23) as -> by (unfold r; rewrite Z.add_comm, Z_mod_plus_full; apply Z.mod_small; lia).
    rewrite (proj2 (Z.eqb_neq _ _)), (proj2 (Z.eqb_neq _ _)) by lia. f_equal; [|lia].
    replace (2 ^ 23 + (Z.pos m - 2 ^ 23)) with (Z.pos m) by lia. done.
Qed.
