(* ===== verification/Magnitude.v ===== *)
(** * Magnitudes of binary64 numbers

    The power of two below a positive number, and its bounds through the operations: enough to
    know that a computed value is neither zero nor infinite, without an account of its
    error. *)

From S2P Require Import Prelude Ordered Float.
Local Open Scope Z_scope.

(** [2 ^ magnitude m e <= m * 2 ^ e < 2 ^ (magnitude m e + 1)] *)
Definition magnitude (m : positive) (e : Z) : Z := Z.log2 (Z.pos m) + e.

(** A positive finite number between [2 ^ lo] and [2 ^ (hi + 1)]. *)
Definition at_mag (lo hi : Z) (x : f64) : Prop := exists m e, x = S754_finite false m e /\ lo <= magnitude m e <= hi.

(** Such a number, or zero. *)
Definition upto_mag (lo hi : Z) (x : f64) : Prop := x = f64_zero \/ at_mag lo hi x.

(** A number above zero, perhaps infinite. *)
Definition positive_num (x : f64) : Prop := x = S754_infinity false \/ exists m e, x = S754_finite false m e /\ -1000 <= magnitude m e.

Lemma at_mag_weaken lo hi lo' hi' x : at_mag lo hi x -> lo' <= lo -> hi <= hi' -> at_mag lo' hi' x.
Proof. intros (m & e & -> & H) ? ?. exists m, e. split; [done|lia]. Qed.

Lemma at_mag_positive lo hi x : at_mag lo hi x -> -1000 <= lo -> positive_num x.
Proof. intros (m & e & -> & H) ?. right. exists m, e. split; [done|lia]. Qed.

Lemma positive_nonneg x : positive_num x -> nonneg x /\ f_is_zero x = false.
Proof. intros [->|(m & e & -> & _)]; done. Qed.

(** ** Digits and shifts *)
Lemma digits_log2 p : Z.pos (digits2_pos p) = Z.log2 (Z.pos p) + 1.
Proof.
  pose proof (digits2_pos_range p) as H. rewrite (Z.log2_unique (Z.pos p) (Z.pos (digits2_pos p) - 1)); [lia..|].
  by replace (Z.succ (Z.pos (digits2_pos p) - 1)) with (Z.pos (digits2_pos p)) by lia.
Qed.

Lemma shr_1_half r : 0 <= shr_m r -> shr_m (shr_1 r) = shr_m r / 2.
Proof.
  destruct r as [[|[p|p|]|p] r s]; cbn [shr_1 shr_m]; intros Hr; try lia; try done.
  - rewrite Pos2Z.inj_xI, Z.mul_comm, Z.div_add_l by lia. change (1 / 2) with 0. lia.
  - by rewrite Pos2Z.inj_xO, Z.mul_comm, Z.div_mul.
Qed.

Lemma iter_shr_shiftr n : forall r, 0 <= shr_m r -> shr_m (SpecFloat.iter_pos shr_1 n r) = Z.shiftr (shr_m r) (Z.pos n).
Proof.
  induction n as [n IH|n IH|]; intros r Hr; cbn [SpecFloat.iter_pos].
  - pose proof (shr_1_nonneg r Hr) as H1. pose proof (iter_shr_nonneg n _ H1) as H2.
    rewrite !IH, shr_1_half by done. rewrite <- Z.div2_div, Z.div2_spec, !Z.shiftr_shiftr by lia. f_equal. lia.
  - rewrite !IH by auto using iter_shr_nonneg. rewrite Z.shiftr_shiftr by lia. f_equal. lia.
  - rewrite shr_1_half by done. by rewrite <- Z.div2_div, Z.div2_spec.
Qed.

Lemma shr_record_m m l : shr_m (shr_record_of_loc m l) = m.
Proof. by destruct l as [|[]]. Qed.

(** Aligning a normal number keeps its magnitude and leaves at most 53 digits. *)
Lemma shr_fexp_mag m e l : 0 < m -> -1000 <= Z.log2 m + e ->
  exists r e', shr_fexp 53 1024 m e l = (r, e') /\ 0 < shr_m r /\ Z.log2 (shr_m r) + e' = Z.log2 m + e /\ Z.log2 (shr_m r) <= 52 /\
    shr_m r = Z.shiftr m (Z.max 0 (Z.log2 m - 52)).
Proof.
  intros Hm Hd. unfold shr_fexp. destruct m as [|p|p]; [lia| |lia]. cbn [Zdigits2]. rewrite digits_log2.
  replace (fexp 53 1024 (Z.log2 (Z.pos p) + 1 + e) - e) with (Z.log2 (Z.pos p) - 52) by (unfold fexp, emin; lia).
  destruct (Z.log2 (Z.pos p) - 52) as [|k|k] eqn:Ek; cbn [shr].
  1, 3: eexists _, e; rewrite shr_record_m; cbn [Z.max]; rewrite Z.shiftr_0_r; split_and!; try done; lia.
  exists (SpecFloat.iter_pos shr_1 k (shr_record_of_loc (Z.pos p) l)), (e + Z.pos k). rewrite iter_shr_shiftr, shr_record_m by (by rewrite shr_record_m).
  rewrite Z.log2_shiftr, (Z.max_r 0 (_ - _)) by lia. split_and!; [done| |lia|lia|done].
  rewrite Z.shiftr_div_pow2 by lia. apply Z.div_str_pos. split; [lia|].
  transitivity (2 ^ Z.log2 (Z.pos p)); [apply Z.pow_le_mono_r; lia|].
  by apply Z.log2_spec.
Qed.

Lemma round_even_cases m l : round_nearest_even m l = m \/ round_nearest_even m l = m + 1.
Proof. destruct l as [|[]]; cbn; auto. destruct (Z.even m); auto. Qed.

Lemma log2_succ_le m : 0 < m -> Z.log2 m <= Z.log2 (m + 1) <= Z.log2 m + 1.
Proof. intros Hm. split; [apply Z.log2_le_mono; lia|]. apply Z.log2_succ_le. Qed.

(** Rounding keeps the magnitude, or takes the next one. *)
Lemma round_aux_cases m e l : 0 < m -> -1000 <= Z.log2 m + e ->
  exists m' e', (binary_round_aux 53 1024 false m e l = S754_finite false m' e' \/
      971 < e' /\ binary_round_aux 53 1024 false m e l = S754_infinity false) /\
    Z.log2 m + e <= magnitude m' e' <= Z.log2 m + e + 1 /\ Z.log2 (Z.pos m') <= 52 /\
    (52 <= Z.log2 m -> Z.log2 m + e = magnitude m' e' -> Z.shiftr m (Z.log2 m - 52) <= Z.pos m').
Proof.
  intros Hm Hd. unfold binary_round_aux. destruct (shr_fexp_mag m e l Hm Hd) as (r1 & e1 & -> & H1 & Hl1 & Hb1 & Hs1).
  set (m1 := round_nearest_even _ _). assert (m1 = shr_m r1 \/ m1 = shr_m r1 + 1) as Hm1 by apply round_even_cases.
  pose proof (log2_succ_le (shr_m r1) H1) as Hls.
  assert (0 < m1) as Hm1p by lia. assert (Z.log2 (shr_m r1) <= Z.log2 m1 <= Z.log2 (shr_m r1) + 1) as Hl by (destruct Hm1 as [->| ->]; lia).
  destruct (shr_fexp_mag m1 e1 loc_Exact Hm1p) as (r2 & e2 & -> & H2 & Hl2 & Hb2 & Hs2); [lia|].
  destruct (shr_m r2) as [|m'|] eqn:Em; [lia| |lia]. exists m', e2. unfold magnitude. split_and!; [|lia..|].
  - change (1024 - 53) with 971. destruct (Z.leb_spec e2 971); [by left|by right].
  - intros Hbig Heq. assert (Z.log2 m1 = Z.log2 (shr_m r1)) as E1 by lia. rewrite E1, (Z.max_l 0), Z.shiftr_0_r in Hs2 by lia.
    rewrite Hs2. rewrite Z.max_r in Hs1 by lia. rewrite <- Hs1. lia.
Qed.

Lemma round_aux_mag m e l : 0 < m -> -1000 <= Z.log2 m + e <= 900 ->
  at_mag (Z.log2 m + e) (Z.log2 m + e + 1) (binary_round_aux 53 1024 false m e l).
Proof.
  intros Hm Hd. destruct (round_aux_cases m e l Hm ltac:(lia)) as (m' & e' & [E|[He E]] & Hl & _).
  - exists m', e'. by split.
  - unfold magnitude in Hl. pose proof (Z.log2_nonneg (Z.pos m')). lia.
Qed.

Lemma round_aux_positive m e l : 0 < m -> -1000 <= Z.log2 m + e -> positive_num (binary_round_aux 53 1024 false m e l).
Proof.
  intros Hm Hd. destruct (round_aux_cases m e l Hm Hd) as (m' & e' & [->|[_ ->]] & Hl & _); [right|by left].
  exists m', e'. split; [done|lia].
Qed.

Lemma iter_xO m d : Z.pos (Pos.iter xO m d) = Z.pos m * 2 ^ Z.pos d.
Proof.
  induction d as [|d IH] using Pos.peano_ind; [cbn; lia|]. rewrite Pos.iter_succ, Pos2Z.inj_xO, IH, Pos2Z.inj_succ, Z.pow_succ_r by lia. lia.
Qed.

(** Aligning to a smaller exponent, or leaving a number as it is. *)
Lemma shl_align_value m e e' : exists p, shl_align m e e' = (p, e - Z.max 0 (e - e')) /\ Z.pos p = Z.pos m * 2 ^ Z.max 0 (e - e').
Proof.
  unfold shl_align. destruct (e' - e) as [|d|d] eqn:E.
  1, 2: exists m; rewrite Z.max_l, Z.sub_0_r by lia; split; [done|lia].
  exists (Pos.iter xO m d). replace (Z.max 0 (e - e')) with (Z.pos d) by lia. split; [f_equal; lia|apply iter_xO].
Qed.

Lemma log2_mul_pow m k : 0 < m -> 0 <= k -> Z.log2 (m * 2 ^ k) = Z.log2 m + k.
Proof. intros. rewrite Z.log2_mul_pow2 by lia. lia. Qed.

(** The number that [binary_normalize] rounds has at least 53 digits. *)
Lemma normalize_round z e : 0 < z -> -1000 <= Z.log2 z + e ->
  exists k, 0 <= k /\ 52 <= Z.log2 (z * 2 ^ k) /\ binary_normalize 53 1024 z e false = binary_round_aux 53 1024 false (z * 2 ^ k) (e - k) loc_Exact.
Proof.
  intros Hz Hd. destruct z as [|p|p]; [lia| |lia]. unfold binary_normalize, binary_round. rewrite digits_log2.
  set (f := fexp 53 1024 _). destruct (shl_align_value p e f) as (p' & -> & Hv). set (k := Z.max 0 (e - f)) in *. exists k. rewrite <- Hv. split_and!; [lia| |done].
  rewrite Hv, log2_mul_pow by lia. assert (f = Z.log2 (Z.pos p) + e - 52) by (unfold f, fexp, emin; lia). lia.
Qed.

Lemma normalize_mag z e : 0 < z -> -1000 <= Z.log2 z + e <= 900 -> at_mag (Z.log2 z + e) (Z.log2 z + e + 1) (binary_normalize 53 1024 z e false).
Proof.
  intros Hz Hd. destruct (normalize_round z e Hz ltac:(lia)) as (k & Hk & _ & ->). assert (0 < 2 ^ k) by (by apply Z.pow_pos_nonneg).
  replace (Z.log2 z + e) with (Z.log2 (z * 2 ^ k) + (e - k)) by (rewrite log2_mul_pow; lia). apply round_aux_mag; [lia|]. rewrite log2_mul_pow; lia.
Qed.

Lemma normalize_positive z e : 0 < z -> -1000 <= Z.log2 z + e -> positive_num (binary_normalize 53 1024 z e false).
Proof.
  intros Hz Hd. destruct (normalize_round z e Hz Hd) as (k & Hk & _ & ->). assert (0 < 2 ^ k) by (by apply Z.pow_pos_nonneg).
  apply round_aux_positive; [lia|]. rewrite log2_mul_pow; lia.
Qed.

(** ** Operations *)

(** The aligned mantissas of a sum: their magnitudes are the summands'. *)
Lemma aligned_mag m e ez : ez <= e -> Z.log2 (Z.pos (shl_align m e ez).1) + ez = magnitude m e.
Proof.
  intros He. destruct (shl_align_value m e ez) as (p & -> & Hp). cbn [fst]. rewrite Hp, Z.max_r, log2_mul_pow by lia. unfold magnitude. lia.
Qed.

Lemma log2_add_bounds a c : 0 < a -> 0 < c -> Z.max (Z.log2 a) (Z.log2 c) <= Z.log2 (a + c) <= Z.max (Z.log2 a) (Z.log2 c) + 1.
Proof.
  intros Ha Hc. split; [apply Z.max_lub; apply Z.log2_le_mono; lia|].
  destruct (Z.max_spec a c) as [[? E]|[? E]].
  - transitivity (Z.log2 (2 * c)); [apply Z.log2_le_mono; lia|]. rewrite Z.log2_double by lia. lia.
  - transitivity (Z.log2 (2 * a)); [apply Z.log2_le_mono; lia|]. rewrite Z.log2_double by lia. lia.
Qed.

Lemma add_sum m1 e1 m2 e2 : let ez := Z.min e1 e2 in exists z, f64_add (S754_finite false m1 e1) (S754_finite false m2 e2) =
    binary_normalize 53 1024 z ez false /\ 0 < z /\ z = Z.pos (shl_align m1 e1 ez).1 + Z.pos (shl_align m2 e2 ez).1 /\
    Z.max (magnitude m1 e1) (magnitude m2 e2) <= Z.log2 z + ez <= Z.max (magnitude m1 e1) (magnitude m2 e2) + 1.
Proof.
  intros ez. eexists. split; [reflexivity|]. cbn [cond_Zopp]. split; [lia|]. split; [done|].
  rewrite <- (aligned_mag m1 e1 ez), <- (aligned_mag m2 e2 ez) by lia.
  pose proof (log2_add_bounds (Z.pos (shl_align m1 e1 ez).1) (Z.pos (shl_align m2 e2 ez).1) ltac:(lia) ltac:(lia)). fold ez. lia.
Qed.

Lemma add_mag a1 b1 a2 b2 x y : at_mag a1 b1 x -> at_mag a2 b2 y -> -1000 <= Z.max a1 a2 -> Z.max b1 b2 < 900 ->
  at_mag (Z.max a1 a2) (Z.max b1 b2 + 2) (f64_add x y).
Proof.
  intros (m1 & e1 & -> & H1) (m2 & e2 & -> & H2) Hl Hh. destruct (add_sum m1 e1 m2 e2) as (z & -> & Hz & _ & Hm).
  eapply at_mag_weaken; [apply normalize_mag|..]; lia.
Qed.

Lemma add_zero_l y : f64_add f64_zero y = match y with S754_zero true => f64_zero | _ => y end.
Proof. by destruct y as [[]|[]| |[] m e]. Qed.

Lemma add_upto_mag a1 b1 a2 b2 x y : upto_mag a1 b1 x -> at_mag a2 b2 y -> -1000 <= a2 -> Z.max b1 b2 < 900 ->
  at_mag a2 (Z.max b1 b2 + 2) (f64_add x y).
Proof.
  intros [->|Hx] Hy Hl Hh.
  - rewrite add_zero_l. destruct Hy as (m & e & -> & H). eapply at_mag_weaken; [by exists m, e|lia..].
  - eapply at_mag_weaken; [eapply (add_mag a1 b1 a2 b2); [done|done|lia..]|lia..].
Qed.

Lemma add_positive x a c y : nonneg x -> at_mag a c y -> -1000 <= a -> positive_num (f64_add x y).
Proof.
  intros Hx (m2 & e2 & -> & H2) Ha. destruct x as [s|s| |s m1 e1]; cbn in Hx; subst; [|by left|done|].
  - right. exists m2, e2. split; [done|lia].
  - destruct (add_sum m1 e1 m2 e2) as (z & -> & Hz & _ & Hm). apply normalize_positive; lia.
Qed.

Lemma mul_mag a1 b1 a2 b2 x y : at_mag a1 b1 x -> at_mag a2 b2 y -> -1000 <= a1 + a2 -> b1 + b2 < 900 ->
  at_mag (a1 + a2) (b1 + b2 + 2) (f64_mul x y).
Proof.
  intros (m1 & e1 & -> & H1) (m2 & e2 & -> & H2) Hl Hh. unfold f64_mul. cbn [SFmul xorb]. unfold magnitude in *.
  pose proof (Z.log2_mul_below (Z.pos m1) (Z.pos m2) ltac:(lia) ltac:(lia)).
  pose proof (Z.log2_mul_above (Z.pos m1) (Z.pos m2) ltac:(lia) ltac:(lia)).
  eapply at_mag_weaken; [apply round_aux_mag|..]; rewrite ?Pos2Z.inj_mul; lia.
Qed.

Lemma mul_upto_mag a1 b1 a2 b2 x y : at_mag a1 b1 x -> upto_mag a2 b2 y -> -1000 <= a1 + a2 -> b1 + b2 < 900 ->
  upto_mag (a1 + a2) (b1 + b2 + 2) (f64_mul x y).
Proof. intros Hx [->|Hy] Hl Hh; [left; by destruct Hx as (m & e & -> & _)|right; by apply mul_mag]. Qed.

Lemma log2_div_bounds a c : 0 < c -> Z.log2 c <= Z.log2 a - 1 -> 0 < a / c /\ Z.log2 a - Z.log2 c - 1 <= Z.log2 (a / c) <= Z.log2 a - Z.log2 c.
Proof.
  intros Hc Hl. assert (0 < a) as Ha by (destruct (Z.lt_ge_cases 0 a); [done|]; rewrite (Z.log2_nonpos a) in Hl by done; pose proof (Z.log2_nonneg c); lia).
  pose proof (Z.log2_spec a Ha) as [Ha1 Ha2]. pose proof (Z.log2_spec c Hc) as [Hc1 Hc2]. pose proof (Z.log2_nonneg c) as Hn.
  assert (2 ^ (Z.log2 a - Z.log2 c - 1) <= a / c) as Hlow.
  { apply Z.div_le_lower_bound; [done|]. transitivity (2 ^ Z.succ (Z.log2 c) * 2 ^ (Z.log2 a - Z.log2 c - 1)).
    - apply Z.mul_le_mono_nonneg_r; [apply Z.pow_nonneg; lia|lia].
    - rewrite <- Z.pow_add_r by lia. by replace (Z.succ (Z.log2 c) + (Z.log2 a - Z.log2 c - 1)) with (Z.log2 a) by lia. }
  assert (a / c < 2 ^ Z.succ (Z.log2 a - Z.log2 c)) as Hupp.
  { apply Z.div_lt_upper_bound; [done|]. eapply Z.lt_le_trans; [exact Ha2|].
    transitivity (2 ^ Z.log2 c * 2 ^ Z.succ (Z.log2 a - Z.log2 c)).
    - rewrite <- Z.pow_add_r by lia. by replace (Z.log2 c + Z.succ (Z.log2 a - Z.log2 c)) with (Z.succ (Z.log2 a)) by lia.
    - apply Z.mul_le_mono_nonneg_r; [apply Z.pow_nonneg; lia|done]. }
  assert (0 < 2 ^ (Z.log2 a - Z.log2 c - 1)) by (apply Z.pow_pos_nonneg; lia).
  split; [lia|]. split; [apply Z.log2_le_pow2; lia|]. apply Z.lt_succ_r, Z.log2_lt_pow2; lia.
Qed.

Lemma div_mag a1 b1 a2 b2 x y : at_mag a1 b1 x -> at_mag a2 b2 y -> -1000 <= a1 - b2 - 1 -> b1 - a2 < 900 ->
  at_mag (a1 - b2 - 1) (b1 - a2 + 1) (f64_div x y).
Proof.
  intros (m1 & e1 & -> & H1) (m2 & e2 & -> & H2) Hl Hh. unfold f64_div, SFdiv, SFdiv_core_binary, magnitude in *. cbn [xorb Zdigits2].
  rewrite !digits_log2. set (d1 := Z.log2 (Z.pos m1)) in *. set (d2 := Z.log2 (Z.pos m2)) in *.
  set (e' := Z.min _ _). assert (fexp 53 1024 (d1 + 1 + e1 - (d2 + 1 + e2)) = d1 + e1 - (d2 + e2) - 53) as Ef by (unfold fexp, emin; lia).
  assert (0 <= e1 - e2 - e' /\ d2 <= d1 + (e1 - e2 - e') - 1) as [Hs Hd] by (unfold e'; rewrite Ef; lia).
  replace (match e1 - e2 - e' with Z.pos _ => Z.shiftl (Z.pos m1) (e1 - e2 - e') | 0 => Z.pos m1 | Z.neg _ => 0 end)
    with (Z.pos m1 * 2 ^ (e1 - e2 - e')).
  2: { destruct (e1 - e2 - e') as [|s|s] eqn:Es; [lia|by rewrite Z.shiftl_mul_pow2|lia]. }
  set (n := Z.pos m1 * 2 ^ (e1 - e2 - e')). assert (Z.log2 n = d1 + (e1 - e2 - e')) as Hn by (unfold n; by rewrite log2_mul_pow).
  destruct (log2_div_bounds n (Z.pos m2)) as [Hp Hq]; [lia|fold d2; lia|]. fold d2 in Hq.
  pose proof (eq_refl : n / Z.pos m2 = let '(q, _) := Z.div_eucl n (Z.pos m2) in q) as Ed. destruct (Z.div_eucl n (Z.pos m2)) as [q r].
  rewrite Ed in *. eapply at_mag_weaken; [apply round_aux_mag|..]; lia.
Qed.

Lemma div_upto_mag a1 b1 a2 b2 x y : upto_mag a1 b1 x -> at_mag a2 b2 y -> -1000 <= a1 - b2 - 1 -> b1 - a2 < 900 ->
  upto_mag (a1 - b2 - 1) (b1 - a2 + 1) (f64_div x y).
Proof. intros [->|Hx] Hy Hl Hh; [left; by destruct Hy as (m & e & -> & _)|right; by apply div_mag]. Qed.

(** The larger of two numbers is one of them. *)
Lemma max_mag a1 b1 a2 b2 x y : upto_mag a1 b1 x -> at_mag a2 b2 y -> at_mag (Z.min a1 a2) (Z.max b1 b2) (f_max x y).
Proof.
  intros Hx Hy. assert (at_mag (Z.min a1 a2) (Z.max b1 b2) y) as Hy' by (eapply at_mag_weaken; [done|lia..]).
  unfold f_max. destruct Hx as [->|Hx].
  - by destruct Hy as (m & e & -> & _).
  - assert (at_mag (Z.min a1 a2) (Z.max b1 b2) x) as Hx' by (eapply at_mag_weaken; [done|lia..]).
    destruct (SFcompare x y) as [[]|]; [done..|]. by destruct Hx as (m & e & -> & _).
Qed.

(** ** Integers below [2^53] *)
Lemma f64_of_Z_exact z : 0 < z < 2 ^ 53 -> exists m e, f64_of_Z z = S754_finite false m e /\ e <= 0 /\ Z.pos m = z * 2 ^ (- e).
Proof.
  intros Hz. assert (Z.log2 z < 53) as Hl by (apply Z.log2_lt_pow2; lia). pose proof (Z.log2_nonneg z) as Hn.
  destruct z as [|p|p]; [lia| |lia]. unfold f64_of_Z, binary_normalize, binary_round. rewrite digits_log2.
  set (f := fexp 53 1024 _). assert (f = Z.log2 (Z.pos p) - 52) as Ef by (unfold f, fexp, emin; lia).
  destruct (shl_align_value p 0 f) as (p' & -> & Hp). replace (Z.max 0 (0 - f)) with (- f) in * by lia.
  assert (Z.log2 (Z.pos p') = 52) as Hp' by (rewrite Hp, log2_mul_pow; lia).
  assert (shr_fexp 53 1024 (Z.pos p') f loc_Exact = (Build_shr_record (Z.pos p') false false, f)) as Es.
  { unfold shr_fexp. cbn [Zdigits2]. rewrite digits_log2, Hp'. by replace (fexp 53 1024 (52 + 1 + f) - f) with 0 by (unfold fexp, emin; lia). }
  exists p', f. split; [|split; [lia|done]]. replace (0 - - f) with f by lia. unfold binary_round_aux. rewrite Es.
  cbn [shr_m loc_of_shr_record round_nearest_even]. rewrite Es. cbn [shr_m]. by rewrite (proj2 (Z.leb_le _ _)) by lia.
Qed.

Lemma of_Z_mag z w : 0 < z < 2 ^ w -> 0 <= w <= 53 -> at_mag 0 (w - 1) (f64_of_Z z).
Proof.
  intros Hz Hw. assert (2 ^ w <= 2 ^ 53) by (apply Z.pow_le_mono_r; lia). destruct (f64_of_Z_exact z) as (m & e & -> & He & Hm); [lia|].
  exists m, e. split; [done|]. unfold magnitude. rewrite Hm, log2_mul_pow by lia. pose proof (Z.log2_nonneg z).
  assert (Z.log2 z < w) by (apply Z.log2_lt_pow2; lia). lia.
Qed.

Lemma of_Z_upto_mag z w : 0 <= z < 2 ^ w -> 0 <= w <= 53 -> upto_mag 0 (w - 1) (f64_of_Z z).
Proof. intros Hz Hw. destruct (decide (z = 0)) as [->|]; [by left|right; apply of_Z_mag; lia]. Qed.

Lemma sub_of_Z_mag z1 z2 w : 0 < z2 <= z1 -> z1 < 2 ^ w -> 0 <= w <= 53 -> upto_mag 0 w (f64_sub (f64_of_Z z1) (f64_of_Z z2)).
Proof.
  intros Hz Hw1 Hw. assert (2 ^ w <= 2 ^ 53) by (apply Z.pow_le_mono_r; lia).
  destruct (f64_of_Z_exact z1) as (m1 & e1 & -> & He1 & Hm1); [lia|]. destruct (f64_of_Z_exact z2) as (m2 & e2 & -> & He2 & Hm2); [lia|].
  unfold f64_sub, SFsub. cbn [cond_Zopp]. set (ez := Z.min e1 e2). assert (ez <= 0) by (unfold ez; lia).
  assert (forall m e z, Z.pos m = z * 2 ^ (- e) -> ez <= e -> e <= 0 -> Z.pos (shl_align m e ez).1 = z * 2 ^ (- ez)) as Ha.
  { intros m e z Hm Hez He. destruct (shl_align_value m e ez) as (p & -> & Hp). cbn [fst]. rewrite Hp, Hm, <- Z.mul_assoc, <- Z.pow_add_r by lia.
    do 2 f_equal. lia. }
  rewrite (Ha m1 e1 z1), (Ha m2 e2 z2) by (done || lia). rewrite <- Z.mul_sub_distr_r.
  destruct (decide (z1 = z2)) as [->|Hne]; [left; by rewrite Z.sub_diag|right]. assert (0 < 2 ^ (- ez)) by (apply Z.pow_pos_nonneg; lia).
  assert (Z.log2 (z1 - z2) < w) by (apply Z.log2_lt_pow2; lia). pose proof (Z.log2_nonneg (z1 - z2)).
  eapply at_mag_weaken; [apply normalize_mag; [apply Z.mul_pos_pos; lia|rewrite log2_mul_pow by lia; lia]|rewrite log2_mul_pow by lia; lia..].
Qed.

(** ** Numbers above one *)
Lemma one_value : f64_lit 1 1 = S754_finite false 4503599627370496 (-52).
Proof. reflexivity. Qed.

Lemma one_shifted m e ez k : -52 < magnitude m e -> ez <= -52 -> ez <= e -> 0 <= k ->
  2 ^ (- ez + k - 52) * Z.succ (2 ^ 52) <= (Z.pos m * 2 ^ (e - ez) + 2 ^ 52 * 2 ^ (-52 - ez)) * 2 ^ k.
Proof.
  unfold magnitude. intros Hm Hz He Hk. rewrite Z.mul_succ_r, Z.mul_add_distr_r, <- !Z.mul_assoc, <- !Z.pow_add_r by lia.
  pose proof (Z.log2_spec (Z.pos m) ltac:(lia)) as [Hlow _]. pose proof (Z.log2_nonneg (Z.pos m)).
  assert (2 ^ (- ez + k - 52) <= Z.pos m * 2 ^ (e - ez + k)).
  { transitivity (2 ^ Z.log2 (Z.pos m) * 2 ^ (e - ez + k)); [|apply Z.mul_le_mono_nonneg_r; [apply Z.pow_nonneg; lia|done]].
    rewrite <- Z.pow_add_r by lia. apply Z.pow_le_mono_r; lia. }
  replace (52 + (-52 - ez + k)) with (- ez + k - 52 + 52) by lia. lia.
Qed.

(** A number and one more is above one, if it is not too small. *)
Lemma add_one_above a c x : at_mag a c x -> -52 < a -> c < 900 -> f_ltb (f64_lit 1 1) (f64_add x (f64_lit 1 1)) = true.
Proof.
  intros (m & e & -> & Hm) Ha Hc. rewrite one_value. set (one := 4503599627370496%positive).
  destruct (add_sum m e one (-52)) as (z & -> & Hz & Ez & Hmag). set (ez := Z.min e (-52)) in *.
  assert (magnitude one (-52) = 0) as Hone by reflexivity. rewrite Hone in Hmag. assert (ez <= -52 /\ ez <= e) as Hez by (unfold ez; lia).
  destruct (normalize_round z ez Hz) as (k & Hk & Hbig & ->); [lia|]. assert (0 < 2 ^ k) by (by apply Z.pow_pos_nonneg).
  assert (Z.log2 (z * 2 ^ k) = Z.log2 z + k) as Hlz by (by apply log2_mul_pow).
  destruct (round_aux_cases (z * 2 ^ k) (ez - k) loc_Exact) as (m' & e' & [->|[_ ->]] & Hl & H52 & Hshift); [lia|lia| |done].
  rewrite Hlz in *. unfold f_ltb, SFltb, SFcompare. unfold magnitude in Hl.
  destruct (Z.compare_spec (-52) e') as [<-|Hlt|Hgt]; [|done|lia].
  specialize (Hshift ltac:(lia) ltac:(unfold magnitude; lia)).
  assert (Z.pos one < Z.pos m') as Hlt.
  { apply Z.lt_le_trans with (Z.shiftr (z * 2 ^ k) (Z.log2 z + k - 52)); [|done]. apply Z.le_succ_l.
    rewrite Z.shiftr_div_pow2 by lia. apply Z.div_le_lower_bound; [apply Z.pow_pos_nonneg; lia|].
    destruct (shl_align_value m e ez) as (p1 & E1 & Hp1). destruct (shl_align_value one (-52) ez) as (p2 & E2 & Hp2).
    rewrite E1, E2 in Ez. cbn [fst] in Ez. rewrite Hp1, Hp2, !Z.max_r in Ez by lia.
    replace (Z.log2 z) with (- ez) by lia. rewrite Ez. by apply one_shifted; lia. }
  change (Pos.compare_cont Eq one m') with (Z.pos one ?= Z.pos m'). by rewrite (proj2 (Z.compare_lt_iff _ _)) by exact Hlt.
Qed.
