(* ===== verification/Fnv.v ===== *)
(** * The FNV-1a hash ([src/storage/fnv.rs])

    The 64-bit hash that names namespaces, places keys in the HAMT and gives the
    Bloom filter its probe positions. *)

From S2P Require Import Prelude.
Local Open Scope Z_scope.

Definition FNV_OFFSET : Z := 0xcbf29ce484222325.
Definition FNV_PRIME : Z := 0x100000001b3.

(** One iteration of the loop: xor the byte in, multiply wrapping. *)
Definition fnv_step (h : Z) (b : byte) : Z := u64 (Z.lxor h (b2z b) * FNV_PRIME).

Definition fnv1a (data : bytes) : Z := foldl fnv_step FNV_OFFSET data.

Definition fnv1a_parts (parts : list bytes) : Z :=
  foldl (fun h part => foldl fnv_step h part) FNV_OFFSET parts.

Definition namespace_key (repo_url commit_sha : bytes) : Z :=
  fnv1a_parts [repo_url; str "::"; commit_sha].

Definition record_key (namespace : Z) (node_type qualified_name : bytes) : Z :=
  let ns_bytes := be_bytes 8 namespace in
  fnv1a_parts [ns_bytes; str "::"; node_type; str "::"; qualified_name].

(** ** Lemmas *)

Lemma fnv_step_range h b : 0 <= fnv_step h b < 2 ^ 64.
Proof. by apply wrap_range. Qed.

Lemma fnv_fold_range h l : 0 <= h < 2 ^ 64 -> 0 <= foldl fnv_step h l < 2 ^ 64.
Proof. revert h. induction l as [|b l IH]; intros h H; simpl; [done|]. apply IH, fnv_step_range. Qed.

Lemma fnv1a_range data : 0 <= fnv1a data < 2 ^ 64.
Proof. apply fnv_fold_range. unfold FNV_OFFSET. lia. Qed.

Lemma fnv_parts_fold h parts :
  foldl (fun h part => foldl fnv_step h part) h parts = foldl fnv_step h (mjoin parts).
Proof. revert h. induction parts as [|p ps IH]; intros h; simpl; [done|]. by rewrite foldl_app, IH. Qed.

(** The multiplier is odd, hence invertible modulo [2^64]. *)
Definition FNV_PRIME_INV : Z := 0xce965057aff6957b.

Lemma fnv_prime_mul_inj x y :
  0 <= x < 2 ^ 64 -> 0 <= y < 2 ^ 64 -> u64 (x * FNV_PRIME) = u64 (y * FNV_PRIME) -> x = y.
Proof.
  unfold wrap. intros Hx Hy H.
  assert (forall z, 0 <= z < 2 ^ 64 -> ((z * FNV_PRIME) mod 2 ^ 64 * FNV_PRIME_INV) mod 2 ^ 64 = z) as Hi.
  { intros z Hz. rewrite Z.mul_mod_idemp_l by lia. rewrite <- Z.mul_assoc.
    rewrite <- Z.mul_mod_idemp_r by lia.
    change (FNV_PRIME * FNV_PRIME_INV mod 2 ^ 64) with 1. rewrite Z.mul_1_r. by apply Z.mod_small. }
  rewrite <- (Hi x), <- (Hi y) by done. by rewrite H.
Qed.

Lemma lxor_byte_range h b : 0 <= h < 2 ^ 64 -> 0 <= Z.lxor h (b2z b) < 2 ^ 64.
Proof. intros. apply lxor_range; [lia|done|]. pose proof (b2z_range b). lia. Qed.

Lemma fnv_step_inj_h h h' b :
  0 <= h < 2 ^ 64 -> 0 <= h' < 2 ^ 64 -> fnv_step h b = fnv_step h' b -> h = h'.
Proof.
  intros Hh Hh' E. apply fnv_prime_mul_inj in E; [|by apply lxor_byte_range..].
  apply (f_equal (fun z => Z.lxor z (b2z b))) in E.
  by rewrite !Z.lxor_assoc, !Z.lxor_nilpotent, !Z.lxor_0_r in E.
Qed.

Lemma fnv_step_inj_b h b b' : 0 <= h < 2 ^ 64 -> fnv_step h b = fnv_step h b' -> b = b'.
Proof.
  intros Hh E. apply fnv_prime_mul_inj in E; [|by apply lxor_byte_range..].
  apply (f_equal (Z.lxor h)) in E.
  rewrite <- !Z.lxor_assoc, !Z.lxor_nilpotent, !Z.lxor_0_l in E. by apply (inj b2z).
Qed.

Lemma fnv_fold_inj_h h h' l :
  0 <= h < 2 ^ 64 -> 0 <= h' < 2 ^ 64 -> foldl fnv_step h l = foldl fnv_step h' l -> h = h'.
Proof.
  revert h h'. induction l as [|b l IH]; intros h h' Hh Hh' E; simpl in E; [done|].
  apply (fnv_step_inj_h h h' b Hh Hh'). apply IH; auto using fnv_step_range.
Qed.

(** ** Properties *)

(** hashing the parts of a key one after the other is hashing their
    concatenation, so [fnv1a_parts] may skip the allocation and
    [namespace_key] agrees with hashing the joined string. *)
Theorem fnv1a_parts_concat parts : fnv1a_parts parts = fnv1a (mjoin parts).
Proof. apply fnv_parts_fold. Qed.

(** two inputs of which one is the other with a single byte replaced never
    collide. *)
Theorem fnv1a_one_byte_differs pre a b post :
  a <> b -> fnv1a (pre ++ a :: post) <> fnv1a (pre ++ b :: post).
Proof.
  unfold fnv1a. rewrite !foldl_app. simpl. intros Hab H. apply Hab.
  pose proof (fnv_fold_range FNV_OFFSET pre ltac:(unfold FNV_OFFSET; lia)) as Hr.
  apply fnv_fold_inj_h in H; [|apply fnv_step_range..].
  by apply fnv_step_inj_b in H.
Qed.

Lemma fnv1a_one_byte_differs_witness : fnv1a (str "key_1") <> fnv1a (str "key_2").
Proof. by apply (fnv1a_one_byte_differs (str "key_") x31 x32 []). Defined.
