(* ===== verification/Namespace.v ===== *)
(** * Namespace key scoping ([src/namespace.rs])

    Every stored key is prefixed with its namespace identifier, eight bytes in
    big-endian order. *)

From S2P Require Import Prelude Fnv.

Definition NS_PREFIX_LEN : nat := 8.

Definition derive_namespace_id (repo_url commit_sha : bytes) : Z :=
  fnv1a (repo_url ++ str "::" ++ commit_sha).

Definition scope_key (namespace_id : Z) (key : bytes) : bytes := be_bytes 8 namespace_id ++ key.

Definition unscope_key (scoped_key : bytes) : option bytes :=
  if length scoped_key <? NS_PREFIX_LEN then None else Some (drop NS_PREFIX_LEN scoped_key).

Definition namespace_id_of (scoped_key : bytes) : option Z :=
  if length scoped_key <? NS_PREFIX_LEN then None
  else Some (be_val (take NS_PREFIX_LEN scoped_key)).

Definition ns_scan_range (namespace_id : Z) : bytes * bytes :=
  let prefix := be_bytes 8 namespace_id in
  (prefix ++ [x00], prefix ++ [xff]).

Definition key_in_namespace (scoped_key : bytes) (namespace_id : Z) : bool :=
  bool_decide (namespace_id_of scoped_key = Some namespace_id).

(** ** Lemmas *)

Definition is_u64 (z : Z) : Prop := (0 <= z < 2 ^ 64)%Z.

Lemma be_bytes8_val z : is_u64 z -> be_val (be_bytes 8 z) = z.
Proof. intros H. rewrite be_val_be_bytes. by apply Z.mod_small. Qed.

Lemma unscope_scope_key n k : unscope_key (scope_key n k) = Some k.
Proof.
  unfold unscope_key, scope_key. rewrite length_app, length_be_bytes.
  by rewrite (proj2 (Nat.ltb_ge _ _)) by (unfold NS_PREFIX_LEN; lia).
Qed.

Lemma namespace_id_of_scope_key n k : is_u64 n -> namespace_id_of (scope_key n k) = Some n.
Proof.
  intros H. unfold namespace_id_of, scope_key. rewrite length_app, length_be_bytes.
  rewrite (proj2 (Nat.ltb_ge _ _)) by (unfold NS_PREFIX_LEN; lia).
  rewrite take_app_length' by (by rewrite length_be_bytes). by rewrite be_bytes8_val.
Qed.

(** Equal-length prefixes compare as the numbers they encode. *)
Lemma bytes_cmp_be (l1 l2 x y : bytes) :
  length l1 = length l2 ->
  bytes_cmp (l1 ++ x) (l2 ++ y) =
  match Z.compare (be_val l1) (be_val l2) with Eq => bytes_cmp x y | c => c end.
Proof.
  revert l2. induction l1 as [|a l1 IH]; intros [|b l2] Hl; try done.
  injection Hl as Hl. simpl. rewrite !be_val_cons, <- Hl, IH by done.
  pose proof (be_val_range l1) as R1. pose proof (be_val_range l2) as R2. rewrite <- Hl in R2.
  destruct (Z.compare_spec (b2z a) (b2z b)) as [->|Hc|Hc].
  - by rewrite Z.add_compare_mono_l.
  - by rewrite (proj2 (Z.compare_lt_iff _ _)) by nia.
  - by rewrite (proj2 (Z.compare_gt_iff _ _)) by nia.
Qed.

Lemma scope_key_cmp m n a b : is_u64 m -> is_u64 n ->
  bytes_cmp (scope_key m a) (scope_key n b) =
  match Z.compare m n with Eq => bytes_cmp a b | c => c end.
Proof.
  intros Hm Hn. unfold scope_key.
  rewrite bytes_cmp_be by (by rewrite !length_be_bytes). by rewrite !be_bytes8_val.
Qed.

(** ** Properties *)

(** scoping is injective: distinct (namespace, key) pairs are stored under
    distinct keys, and both components are recovered from the stored key. *)
Theorem scope_key_roundtrip n k : is_u64 n ->
  unscope_key (scope_key n k) = Some k /\
  namespace_id_of (scope_key n k) = Some n /\
  forall n' k', is_u64 n' -> scope_key n k = scope_key n' k' -> n = n' /\ k = k'.
Proof.
  intros Hn. split_and!; [apply unscope_scope_key|by apply namespace_id_of_scope_key|].
  intros n' k' Hn' E. split.
  - pose proof (namespace_id_of_scope_key n k Hn) as H.
    rewrite E, namespace_id_of_scope_key in H by done. congruence.
  - pose proof (unscope_scope_key n k) as H. rewrite E, unscope_scope_key in H. congruence.
Qed.

Lemma scope_key_roundtrip_witness :
  unscope_key (scope_key 42 (str "auth.py")) = Some (str "auth.py") /\
  namespace_id_of (scope_key 42 (str "auth.py")) = Some 42%Z.
Proof. destruct (scope_key_roundtrip 42 (str "auth.py")) as (? & ? & _); [done|auto]. Defined.

Lemma ns_range_iff n m k : is_u64 n -> is_u64 m ->
  let '(start, end_) := ns_scan_range n in
  bytes_le start (scope_key m k) /\ bytes_lt (scope_key m k) end_ <->
  m = n /\ exists b rest, k = b :: rest /\ b <> xff.
Proof.
  intros Hn Hm. unfold ns_scan_range, bytes_le, bytes_lt.
  change (be_bytes 8 n ++ [x00]) with (scope_key n [x00]).
  change (be_bytes 8 n ++ [xff]) with (scope_key n [xff]).
  rewrite !scope_key_cmp by done. rewrite (Z.compare_antisym m n).
  destruct (Z.compare_spec m n) as [->|Hc|Hc]; cbn [CompOpp]; [|split; [naive_solver|lia]..].
  destruct k as [|b rest]; cbn [bytes_cmp]; [split; naive_solver|].
  pose proof (b2z_range b) as Hb. change (b2z x00) with 0%Z. change (b2z xff) with 255%Z.
  split.
  - intros [_ Hlt]. split; [done|]. exists b, rest. split; [done|]. intros ->.
    rewrite Z.compare_refl in Hlt. by destruct rest.
  - intros (_ & b' & rest' & [= <- <-] & Hne).
    assert (b2z b <> 255%Z) by (intros E; apply Hne, (inj b2z); done).
    split; [destruct (Z.compare_spec 0 (b2z b)); [by destruct rest|done|lia]|].
    by rewrite (proj2 (Z.compare_lt_iff _ _)) by lia.
Qed.

(** C28: the scan range of a namespace contains exactly the stored keys of that
    namespace whose own key is non-empty and does not begin with the byte 0xFF;
    no key of another namespace is in it. *)
Theorem ns_scan_range_exact n m k : is_u64 n -> is_u64 m ->
  let '(start, end_) := ns_scan_range n in
  bytes_le start (scope_key m k) /\ bytes_lt (scope_key m k) end_ <->
  m = n /\ exists b rest, k = b :: rest /\ b <> xff.
Proof. apply ns_range_iff. Qed.

Lemma ns_scan_range_exact_witness :
  let '(start, end_) := ns_scan_range 99 in
  bytes_le start (scope_key 99 (str "k")) /\ bytes_lt (scope_key 99 (str "k")) end_.
Proof.
  apply (ns_scan_range_exact 99 99 (str "k")); [done|done|].
  split; [done|]. by exists x6b, [].
Defined.

(** The empty key and keys beginning with 0xFF are in the namespace but outside its
    scan range. *)
Example ns_scan_range_misses :
  key_in_namespace (scope_key 7 []) 7 = true /\
  bytes_leb (ns_scan_range 7).1 (scope_key 7 []) = false /\
  key_in_namespace (scope_key 7 [xff; x61]) 7 = true /\
  bytes_ltb (scope_key 7 [xff; x61]) (ns_scan_range 7).2 = false.
Proof. by vm_compute. Qed.

(** The namespace identifier is the namespace key of the FNV module. *)
Lemma derive_namespace_id_key repo sha : derive_namespace_id repo sha = namespace_key repo sha.
Proof.
  unfold derive_namespace_id, namespace_key, fnv1a. unfold fnv1a_parts. rewrite fnv_parts_fold.
  simpl. by rewrite app_nil_r.
Qed.
