(* ===== verification/Bloom.v ===== *)
(** * Bloom filter ([src/index/bloom.rs])

    A bit array packed into 64-bit words, probed at [k] positions derived from
    two FNV-1a hashes. *)

From S2P Require Import Prelude Float Fnv.
Local Open Scope Z_scope.

Record BloomFilter := mkBloom {
  bits : list Z;          (* 64-bit words *)
  num_bits : Z;
  num_hashes : nat;
  count : nat
}.

Section new.
Context (ln : f64 -> f64).

Definition bloom_m (capacity : Z) (fpr : f64) : Z :=
  let ln2 := ln (f64_of_Z 2) in
  let m := f64_as_usize (f64_ceil
    (f64_div (f64_neg (f64_mul (f64_of_Z capacity) (ln fpr))) (f64_mul ln2 ln2))) in
  Z.max m 64.

Definition bloom_k (m capacity : Z) : Z :=
  let k := f64_as_usize (f64_ceil
    (f64_mul (f64_div (f64_of_Z m) (f64_of_Z capacity)) (ln (f64_of_Z 2)))) in
  Z.min (Z.max k 1) 20.

Definition new (capacity : Z) (fpr : f64) : BloomFilter :=
  let m := bloom_m capacity fpr in
  let k := bloom_k m capacity in
  let words := u64 (m + 63) / 64 in
  {| bits := replicate (Z.to_nat words) 0; num_bits := m; num_hashes := Z.to_nat k; count := 0 |}.
End new.

(** The probe positions: [h1 + i * h2] wrapping, reduced modulo [num_bits]. *)
Definition position (bf : BloomFilter) (h1 h2 : Z) (i : nat) : Z :=
  let h := u64 (h1 + u64 (Z.of_nat i * h2)) in
  h mod num_bits bf.

Definition positions (bf : BloomFilter) (key : bytes) : list Z :=
  let h1 := fnv1a key in
  let h2 := fnv1a_parts [key; str "_bloom_salt"] in
  position bf h1 h2 <$> seq 0 (num_hashes bf).

(** [bits[word] |= 1 << bit]; indexing past the end panics. *)
Definition set_bit (ws : list Z) (pos : Z) : res unit (list Z) :=
  let word := Z.to_nat (pos / 64) in
  let bit := pos mod 64 in
  w ← index (ws !! word);
  Ok (<[word := Z.lor w (Z.shiftl 1 bit)]> ws).

Fixpoint set_bits (ws : list Z) (ps : list Z) : res unit (list Z) :=
  match ps with
  | [] => Ok ws
  | p :: ps' => ws' ← set_bit ws p; set_bits ws' ps'
  end.

Definition add (bf : BloomFilter) (key : bytes) : res unit BloomFilter :=
  ws ← set_bits (bits bf) (positions bf key);
  Ok {| bits := ws; num_bits := num_bits bf; num_hashes := num_hashes bf; count := S (count bf) |}.

Definition test_bit (ws : list Z) (pos : Z) : res unit bool :=
  let word := Z.to_nat (pos / 64) in
  let bit := pos mod 64 in
  w ← index (ws !! word);
  Ok (Z.land (Z.shiftr w bit) 1 =? 1).

(** [iter().all(...)] stops at the first [false]. *)
Fixpoint all_bits (ws : list Z) (ps : list Z) : res unit bool :=
  match ps with
  | [] => Ok true
  | p :: ps' => b ← test_bit ws p; if b : bool then all_bits ws ps' else Ok false
  end.

Definition may_contain (bf : BloomFilter) (key : bytes) : res unit bool :=
  all_bits (bits bf) (positions bf key).

Definition bloom_count (bf : BloomFilter) : nat := count bf.
Definition size_bytes (bf : BloomFilter) : nat := (length (bits bf) * 8)%nat.

(** Adding the keys of a sequence in turn. *)
Fixpoint add_all (bf : BloomFilter) (keys : list bytes) : res unit BloomFilter :=
  match keys with
  | [] => Ok bf
  | k :: ks => bf' ← add bf k; add_all bf' ks
  end.

(** ** Invariant: the words cover the [num_bits] positions. *)
Definition bloom_wf (bf : BloomFilter) : Prop :=
  0 < num_bits bf <= 64 * Z.of_nat (length (bits bf)).

Definition bit_at (ws : list Z) (pos : Z) : bool :=
  match ws !! Z.to_nat (pos / 64) with Some w => Z.testbit w (pos mod 64) | None => false end.

Lemma position_range bf h1 h2 i : bloom_wf bf -> 0 <= position bf h1 h2 i < num_bits bf.
Proof. intros H. apply Z.mod_pos_bound. apply H. Qed.

Lemma positions_range bf key p : bloom_wf bf -> p ∈ positions bf key -> 0 <= p < num_bits bf.
Proof.
  intros Hwf Hp. unfold positions in Hp. apply list_elem_of_fmap in Hp as (i & -> & _).
  by apply position_range.
Qed.

Lemma word_in_range n p len : 0 <= p < n -> n <= 64 * Z.of_nat len -> (Z.to_nat (p / 64) < len)%nat.
Proof. intros Hp Hn. assert (p / 64 < Z.of_nat len) by (apply Z.div_lt_upper_bound; lia). lia. Qed.

Lemma test_bit_spec ws p :
  0 <= p < 64 * Z.of_nat (length ws) -> test_bit ws p = Ok (bit_at ws p).
Proof.
  intros Hp. unfold test_bit, bit_at.
  destruct (lookup_lt_is_Some_2 ws (Z.to_nat (p / 64))) as [w Hw];
    [by eapply word_in_range|].
  rewrite Hw; simpl. f_equal.
  rewrite Z.land_ones with (n := 1) by lia. change (2 ^ 1) with 2.
  rewrite <- Z.bit0_mod, Z.shiftr_spec by lia. rewrite Z.add_0_l.
  by destruct (Z.testbit w (p mod 64)).
Qed.

Lemma set_bit_spec ws p :
  0 <= p < 64 * Z.of_nat (length ws) ->
  exists ws', set_bit ws p = Ok ws' /\ length ws' = length ws /\
    forall q, 0 <= q -> bit_at ws' q = bit_at ws q || (q =? p).
Proof.
  intros Hp. unfold set_bit.
  destruct (lookup_lt_is_Some_2 ws (Z.to_nat (p / 64))) as [w Hw];
    [by eapply word_in_range|].
  rewrite Hw; simpl. eexists. split; [done|]. split; [by rewrite length_insert|].
  intros q Hq. unfold bit_at. pose proof (lookup_lt_Some _ _ _ Hw) as Hlt.
  assert (p = 64 * (p / 64) + p mod 64) as Ep by (apply Z.div_mod; lia).
  assert (q = 64 * (q / 64) + q mod 64) as Eq by (apply Z.div_mod; lia).
  pose proof (Z.mod_pos_bound p 64 ltac:(lia)). pose proof (Z.mod_pos_bound q 64 ltac:(lia)).
  assert (0 <= q / 64) by (apply Z.div_pos; lia). assert (0 <= p / 64) by (apply Z.div_pos; lia).
  destruct (decide (Z.to_nat (q / 64) = Z.to_nat (p / 64))) as [E|E].
  - rewrite E, list_lookup_insert_eq, Hw by done.
    rewrite Z.lor_spec. f_equal. rewrite Z.shiftl_spec by lia.
    destruct (Z.eqb_spec q p) as [->|Hne].
    + by rewrite Z.sub_diag.
    + destruct (Z.lt_ge_cases (q mod 64) (p mod 64)); [by rewrite Z.testbit_neg_r by lia|].
      apply Z.bits_above_log2; simpl; lia.
  - rewrite list_lookup_insert_ne by done.
    destruct (Z.eqb_spec q p) as [->|Hne]; [done|]. by rewrite orb_false_r.
Qed.

Lemma set_bits_spec ps ws :
  Forall (fun p => 0 <= p < 64 * Z.of_nat (length ws)) ps ->
  exists ws', set_bits ws ps = Ok ws' /\ length ws' = length ws /\
    forall q, 0 <= q -> bit_at ws' q = bit_at ws q || bool_decide (q ∈ ps).
Proof.
  revert ws. induction ps as [|p ps IH]; intros ws Hps; simpl.
  { exists ws. split_and!; [done..|]. intros q _. by rewrite orb_false_r. }
  apply Forall_cons in Hps as [Hp Hps].
  destruct (set_bit_spec ws p Hp) as (ws1 & -> & Hl1 & Hq1). simpl.
  destruct (IH ws1) as (ws2 & -> & Hl2 & Hq2); [by rewrite Hl1|].
  exists ws2. split_and!; [done|congruence|]. intros q Hq.
  rewrite Hq2, Hq1 by done. destruct (Z.eqb_spec q p) as [->|Hne].
  - rewrite orb_true_r. simpl. symmetry. apply orb_true_iff. right.
    apply bool_decide_eq_true. by left.
  - rewrite orb_false_r. f_equal. apply bool_decide_ext. rewrite elem_of_cons. naive_solver.
Qed.

Lemma all_bits_forallb ps ws :
  Forall (fun p => 0 <= p < 64 * Z.of_nat (length ws)) ps ->
  all_bits ws ps = Ok (forallb (bit_at ws) ps).
Proof.
  induction 1 as [|p ps Hp Hps IH]; simpl; [done|].
  rewrite test_bit_spec by done. simpl. by destruct (bit_at ws p).
Qed.

Lemma positions_forall bf key :
  bloom_wf bf -> Forall (fun p => 0 <= p < 64 * Z.of_nat (length (bits bf))) (positions bf key).
Proof.
  intros Hwf. apply Forall_forall. intros p Hp%positions_range; [|done].
  destruct Hwf as [_ Hwf]. lia.
Qed.

(** What [add] leaves unchanged. *)
Definition same_shape (bf bf' : BloomFilter) : Prop :=
  length (bits bf') = length (bits bf) /\ num_bits bf' = num_bits bf /\ num_hashes bf' = num_hashes bf.

Lemma positions_same_shape bf bf' key : same_shape bf bf' -> positions bf' key = positions bf key.
Proof. intros (_ & Hn & Hh). unfold positions, position. by rewrite Hn, Hh. Qed.

Lemma add_spec bf key : bloom_wf bf ->
  exists bf', add bf key = Ok bf' /\ bloom_wf bf' /\ same_shape bf bf' /\
    count bf' = S (count bf) /\
    forall q, 0 <= q -> bit_at (bits bf') q = bit_at (bits bf) q || bool_decide (q ∈ positions bf key).
Proof.
  intros Hwf. unfold add.
  destruct (set_bits_spec (positions bf key) (bits bf)) as (ws & -> & Hl & Hq);
    [by apply positions_forall|].
  simpl. eexists. split; [done|]. unfold bloom_wf, same_shape. simpl. rewrite Hl. auto.
Qed.

Lemma may_contain_spec bf key : bloom_wf bf ->
  may_contain bf key = Ok true <-> (forall p, p ∈ positions bf key -> bit_at (bits bf) p = true).
Proof.
  intros Hwf. unfold may_contain. rewrite all_bits_forallb by (by apply positions_forall).
  transitivity (forallb (bit_at (bits bf)) (positions bf key) = true); [split; congruence|].
  rewrite forallb_forall. by setoid_rewrite list_elem_of_In.
Qed.

Lemma add_all_spec keys bf : bloom_wf bf ->
  exists bf', add_all bf keys = Ok bf' /\ bloom_wf bf' /\ same_shape bf bf' /\
    count bf' = (count bf + length keys)%nat /\
    (forall q, 0 <= q -> bit_at (bits bf) q = true -> bit_at (bits bf') q = true) /\
    (forall k q, k ∈ keys -> q ∈ positions bf k -> bit_at (bits bf') q = true).
Proof.
  revert bf. induction keys as [|k ks IH]; intros bf Hwf; simpl.
  { exists bf. unfold same_shape. split_and!; auto. by intros k q ?%not_elem_of_nil. }
  destruct (add_spec bf k Hwf) as (b1 & -> & Hwf1 & Hs1 & Hc1 & Hq1). simpl.
  destruct (IH b1 Hwf1) as (b2 & -> & Hwf2 & Hs2 & Hc2 & Hm2 & Hk2).
  exists b2. split_and!; auto.
  - unfold same_shape in *. destruct Hs1 as (? & ? & ?), Hs2 as (? & ? & ?). split_and!; congruence.
  - lia.
  - intros q Hq Hb. apply Hm2; [done|]. rewrite Hq1 by done. by rewrite Hb.
  - intros k' q [->|Hk']%elem_of_cons Hq.
    + apply Hm2; [by pose proof (positions_range _ _ _ Hwf Hq); lia|].
      rewrite Hq1 by (pose proof (positions_range _ _ _ Hwf Hq); lia).
      rewrite (bool_decide_eq_true_2 (q ∈ _)) by done. apply orb_true_r.
    + apply (Hk2 k'); [done|]. by rewrite (positions_same_shape _ _ _ Hs1).
Qed.

(** A filter built by [new] satisfies the invariant. *)
Lemma bloom_new_wf ln capacity fpr :
  bloom_m ln capacity fpr <= 2 ^ 64 - 64 ->
  bloom_wf (new ln capacity fpr) /\ 64 <= num_bits (new ln capacity fpr) /\
  (1 <= num_hashes (new ln capacity fpr) <= 20)%nat.
Proof.
  intros Hm. unfold new. set (m := bloom_m ln capacity fpr) in *. simpl.
  assert (64 <= m) by (unfold m, bloom_m; lia).
  unfold bloom_wf; simpl. rewrite length_replicate.
  rewrite (wrap_small 64) by lia.
  assert (m + 63 = 64 * ((m + 63) / 64) + (m + 63) mod 64) by (apply Z.div_mod; lia).
  pose proof (Z.mod_pos_bound (m + 63) 64 ltac:(lia)).
  unfold bloom_k. split_and!; lia.
Qed.

(** ** Properties *)

(** C27: no false negatives. Starting from any filter whose words cover its bits,
    adding any sequence of keys never panics and keeps the filter well formed,
    and afterwards every added key, and every key that was reported before, is
    reported as possibly present. *)
Theorem bloom_no_false_negatives bf keys : bloom_wf bf ->
  exists bf', add_all bf keys = Ok bf' /\ bloom_wf bf' /\ count bf' = (count bf + length keys)%nat /\
    (forall k, k ∈ keys -> may_contain bf' k = Ok true) /\
    (forall k, may_contain bf k = Ok true -> may_contain bf' k = Ok true).
Proof.
  intros Hwf. destruct (add_all_spec keys bf Hwf) as (bf' & Ha & Hwf' & Hs & Hc & Hm & Hk).
  exists bf'. split_and!; auto; intros k Hkk; rewrite may_contain_spec in * by done;
    intros p Hp; rewrite (positions_same_shape _ _ _ Hs) in Hp.
  - by apply (Hk k).
  - apply Hm; [pose proof (positions_range _ _ _ Hwf Hp); lia|]. by apply Hkk.
Qed.

(** A logarithm good enough to size a filter of sixteen keys at one percent; it is positive above one. *)
Definition ln_sample (x : f64) : f64 :=
  if f_ltb (f64_lit 1 1) x then f64_lit 693147 1000000 else f64_lit (-4605170) 1000000.

Lemma bloom_no_false_negatives_witness :
  let bf := new ln_sample 16 (f64_lit 1 100) in
  bloom_wf bf /\ exists bf', add_all bf [str "a"; str "b"] = Ok bf' /\ may_contain bf' (str "a") = Ok true.
Proof.
  assert (bloom_wf (new ln_sample 16 (f64_lit 1 100))) as Hwf.
  { split; vm_compute; congruence. }
  split; [exact Hwf|].
  destruct (bloom_no_false_negatives _ [str "a"; str "b"] Hwf) as (bf' & H & _ & _ & Hk & _).
  exists bf'. split; [exact H|]. apply Hk. left.
Defined.
