(* ===== verification/Memtable.v ===== *)
(** * Memtable ([src/storage/memtable.rs])

    The in-memory ordered buffer of recent writes. A [None] value is a
    tombstone. The [BTreeMap] is a finite map with its in-order view. *)

From S2P Require Import Prelude Ordered.
Local Open Scope Z_scope.

Record MemEntry := mkEntry { value : option bytes; seq : Z }.

Record Memtable := mkMemtable {
  entries : gmap bytes MemEntry;
  size_bytes : Z;
  next_seq : Z;
  flush_threshold : Z
}.

Definition new (flush_threshold : Z) : Memtable :=
  {| entries := ∅; size_bytes := 0; next_seq := 0; flush_threshold := flush_threshold |}.

Definition should_flush (mt : Memtable) : bool := flush_threshold mt <=? size_bytes mt.

(** [key.len() + value.len() + 8] for the entry stored under [key]. *)
Definition entry_size (key : bytes) (v : option bytes) : Z :=
  Z.of_nat (length key) + match v with Some v => Z.of_nat (length v) | None => 0 end + 8.

(** The bookkeeping that [put] and [delete] share: the old entry's size is
    subtracted (saturating), the sequence number advances, the new entry
    replaces the old one and its size is added. *)
Definition store (mt : Memtable) (key : bytes) (v : option bytes) : Memtable :=
  let size1 :=
    match entries mt !! key with
    | Some old => Z.max 0 (size_bytes mt - entry_size key (value old))
    | None => size_bytes mt
    end in
  let seq1 := u64 (next_seq mt + 1) in
  {| entries := <[key := {| value := v; seq := seq1 |}]> (entries mt);
     size_bytes := u64 (size1 + entry_size key v);
     next_seq := seq1;
     flush_threshold := flush_threshold mt |}.

Definition put (mt : Memtable) (key v : bytes) : Memtable * bool :=
  let mt' := store mt key (Some v) in (mt', should_flush mt').

Definition delete (mt : Memtable) (key : bytes) : Memtable * bool :=
  let mt' := store mt key None in (mt', should_flush mt').

Definition get_entry (mt : Memtable) (key : bytes) : option MemEntry := entries mt !! key.

Definition get (mt : Memtable) (key : bytes) : option bytes := entries mt !! key ≫= value.

Definition contains (mt : Memtable) (key : bytes) : bool :=
  match entries mt !! key with Some _ => true | None => false end.

Definition is_tombstone (mt : Memtable) (key : bytes) : bool :=
  match entries mt !! key with
  | Some e => match value e with None => true | Some _ => false end
  | None => false
  end.

Definition iter (mt : Memtable) : list (bytes * MemEntry) := bt_entries (entries mt).

Definition range {E} (mt : Memtable) (start end_ : bytes) : res E (list (bytes * MemEntry)) :=
  bt_range (entries mt) start end_.

Definition drain (mt : Memtable) : list (bytes * MemEntry) * Memtable :=
  (bt_entries (entries mt),
   {| entries := ∅; size_bytes := 0; next_seq := 0; flush_threshold := flush_threshold mt |}).

Definition len (mt : Memtable) : nat := size (entries mt).
Definition is_empty (mt : Memtable) : bool := bool_decide (size (entries mt) = 0%nat).

(** ** Operation sequences *)
Inductive op := OpPut (key v : bytes) | OpDelete (key : bytes).

Definition op_key (o : op) : bytes := match o with OpPut k _ => k | OpDelete k => k end.
Definition op_value (o : op) : option bytes := match o with OpPut _ v => Some v | OpDelete _ => None end.

Definition run_op (mt : Memtable) (o : op) : Memtable :=
  match o with OpPut k v => (put mt k v).1 | OpDelete k => (delete mt k).1 end.

Definition run (mt : Memtable) (os : list op) : Memtable := foldl run_op mt os.

(** The specification: a map in which the last write to a key wins, a delete
    leaving a tombstone. *)
Definition spec_op (m : gmap bytes (option bytes)) (o : op) : gmap bytes (option bytes) :=
  <[op_key o := op_value o]> m.

Definition view (mt : Memtable) : gmap bytes (option bytes) := value <$> entries mt.

Lemma run_op_store mt o : run_op mt o = store mt (op_key o) (op_value o).
Proof. by destruct o. Qed.

Lemma view_store mt k v : view (store mt k v) = <[k := v]> (view mt).
Proof. unfold view, store; simpl. by rewrite fmap_insert. Qed.

Lemma view_run mt os : view (run mt os) = foldl spec_op (view mt) os.
Proof.
  revert mt. induction os as [|o os IH]; intros mt; simpl; [done|].
  by rewrite IH, run_op_store, view_store.
Qed.

Lemma memtable_get_view mt k : get mt k = view mt !! k ≫= id.
Proof. unfold get, view. rewrite lookup_fmap. by destruct (entries mt !! k). Qed.

(** ** The size of a memtable *)
Definition total_size (m : gmap bytes MemEntry) : Z :=
  map_fold (fun k e acc => entry_size k (value e) + acc) 0 m.

Lemma entry_size_pos k v : 0 < entry_size k v.
Proof. unfold entry_size. destruct v; lia. Qed.

Lemma total_size_insert_None m k e :
  m !! k = None -> total_size (<[k := e]> m) = entry_size k (value e) + total_size m.
Proof. intros H. unfold total_size. rewrite map_fold_insert_L; [done|intros; lia|done]. Qed.

Lemma total_size_delete m k e :
  m !! k = Some e -> total_size m = entry_size k (value e) + total_size (base.delete k m).
Proof.
  intros H. rewrite <- (insert_delete_id m k e H) at 1.
  apply total_size_insert_None. apply lookup_delete_eq.
Qed.

Lemma total_size_insert m k e :
  total_size (<[k := e]> m) = entry_size k (value e) + total_size (base.delete k m).
Proof.
  rewrite <- insert_delete_eq. apply total_size_insert_None. apply lookup_delete_eq.
Qed.

Lemma total_size_nonneg m : 0 <= total_size m.
Proof.
  induction m as [|k e m Hk IH] using map_ind; [done|].
  rewrite total_size_insert_None by done. pose proof (entry_size_pos k (value e)). lia.
Qed.

(** The invariant of the counters: [size_bytes] is the size of the entries. *)
Definition size_exact (mt : Memtable) : Prop := size_bytes mt = total_size (entries mt).

Lemma store_size_exact mt k v :
  size_exact mt -> total_size (entries mt) + entry_size k v < 2 ^ 64 -> size_exact (store mt k v).
Proof.
  unfold size_exact. intros Hs Hb. unfold store; simpl. rewrite total_size_insert; simpl.
  pose proof (entry_size_pos k v). pose proof (total_size_nonneg (base.delete k (entries mt))) as Hd.
  destruct (entries mt !! k) as [old|] eqn:E.
  - rewrite (total_size_delete _ _ _ E) in Hs, Hb. pose proof (entry_size_pos k (value old)).
    rewrite wrap_small by lia. lia.
  - rewrite delete_id in Hd |- * by done. rewrite wrap_small by lia. lia.
Qed.

Definition ops_size (os : list op) : Z :=
  foldr (fun o acc => entry_size (op_key o) (op_value o) + acc) 0 os.

Lemma total_size_store_le mt k v :
  total_size (entries (store mt k v)) <= total_size (entries mt) + entry_size k v.
Proof.
  unfold store; simpl. rewrite total_size_insert; simpl.
  destruct (entries mt !! k) as [old|] eqn:E.
  - rewrite (total_size_delete _ _ _ E). pose proof (entry_size_pos k (value old)). lia.
  - rewrite delete_id by done. lia.
Qed.

Lemma run_size_exact mt os :
  size_exact mt -> total_size (entries mt) + ops_size os < 2 ^ 64 -> size_exact (run mt os).
Proof.
  revert mt. induction os as [|o os IH]; intros mt Hs Hb; simpl in *; [done|].
  assert (0 <= ops_size os) as Hpos.
  { clear. induction os as [|o os IH]; simpl; [done|].
    pose proof (entry_size_pos (op_key o) (op_value o)). lia. }
  apply IH; rewrite run_op_store.
  - apply store_size_exact; [done|lia].
  - pose proof (total_size_store_le mt (op_key o) (op_value o)). lia.
Qed.

(** ** Properties *)

(** the memtable implements its specification. After any sequence of puts and
    deletes, a lookup returns the last value written unless the key was deleted
    since, tombstones included; the byte counter is the exact size of the
    entries and the flush flag compares it with the threshold, as long as the
    sizes of the operations do not add up to [2^64]. *)
Theorem memtable_refines threshold os : ops_size os < 2 ^ 64 ->
  let mt := run (new threshold) os in
  view mt = foldl spec_op ∅ os /\
  (forall k, get mt k = foldl spec_op ∅ os !! k ≫= id) /\
  (forall k, is_tombstone mt k = true <-> foldl spec_op ∅ os !! k = Some None) /\
  size_bytes mt = total_size (entries mt) /\
  (should_flush mt = true <-> threshold <= total_size (entries mt)).
Proof.
  intros Hb mt. assert (view mt = foldl spec_op ∅ os) as Hv.
  { unfold mt. rewrite view_run. unfold view; simpl. by rewrite fmap_empty. }
  assert (size_exact mt) as Hs by (by apply run_size_exact).
  assert (flush_threshold mt = threshold) as Ht.
  { unfold mt, run. generalize (new threshold) (eq_refl : flush_threshold (new threshold) = threshold).
    clear. induction os as [|o os IH]; intros m Hm; simpl; [done|].
    apply IH. by rewrite run_op_store. }
  split_and!; [done|..].
  - intros k. by rewrite memtable_get_view, Hv.
  - intros k. rewrite <- Hv. unfold view, is_tombstone. rewrite lookup_fmap.
    destruct (entries mt !! k) as [[[v|] s]|]; naive_solver.
  - done.
  - unfold should_flush. rewrite Ht, Hs. apply Z.leb_le.
Qed.

Lemma memtable_refines_witness :
  get (run (new 100) [OpPut (str "k") (str "v1"); OpPut (str "k") (str "v2")]) (str "k") = Some (str "v2").
Proof.
  destruct (memtable_refines 100 [OpPut (str "k") (str "v1"); OpPut (str "k") (str "v2")])
    as (_ & H & _); [by vm_compute|]. rewrite H. by vm_compute.
Defined.

(** a range scan panics exactly when its bounds are out of order; otherwise it
    returns, in strictly ascending key order, exactly the entries (tombstones
    included) whose keys lie in the half-open interval. *)
Theorem memtable_range_exact (mt : Memtable) (start end_ : bytes) :
  match range (E:=unit) mt start end_ with
  | Panic => bytes_lt end_ start
  | Err _ => False
  | Ok l => keys_sorted l.*1 /\
      forall k e, (k, e) ∈ l <-> get_entry mt k = Some e /\ bytes_le start k /\ bytes_lt k end_
  end.
Proof.
  unfold range, bt_range. destruct (bytes_ltb end_ start) eqn:E; [by apply bytes_ltb_lt|].
  split.
  - apply keys_sorted_filter, bt_entries_sorted.
  - intros k e. rewrite list_elem_of_filter, elem_of_bt_entries. unfold get_entry. naive_solver.
Qed.
