(* ===== verification/Wal.v ===== *)
(** * Write-ahead log ([src/storage/wal.rs])

    Record encoding and decoding, the buffered writer, and the replay loop.
    [crc] is the checksum of the crc32fast crate over the concatenated updates
    of its hasher; the file is the byte string the operating system holds. *)

From S2P Require Import Prelude.
Local Open Scope Z_scope.

Record WalRecord := mkRecord { key : bytes; value : bytes }.

Section crc.
Context (crc : bytes -> Z).

(** ** Record encoding *)
Definition header_bytes (key_len val_len : Z) : bytes :=
  [z2b (Z.shiftr key_len 8); z2b key_len;
   z2b (Z.shiftr val_len 24); z2b (Z.shiftr val_len 16); z2b (Z.shiftr val_len 8); z2b val_len].

Definition serialize (key value : bytes) : bytes :=
  let key_len := u16 (Z.of_nat (length key)) in
  let val_len := u32 (Z.of_nat (length value)) in
  let header := header_bytes key_len val_len in
  let c := crc (header ++ key ++ value) in
  be_bytes 4 c ++ header ++ key ++ value.

Definition deserialize (data : bytes) : option WalRecord :=
  if (length data <? 10)%nat then None
  else
    let crc_stored := be_val (take 4 data) in
    let payload := drop 4 data in
    if negb (crc payload =? crc_stored) then None
    else
      let key_len := Z.to_nat (be_val (slice payload 0 2)) in
      let val_len := Z.to_nat (be_val (slice payload 2 6)) in
      if (length payload <? 6 + key_len + val_len)%nat then None
      else Some {| key := slice payload 6 (6 + key_len);
                   value := slice payload (6 + key_len) (6 + key_len + val_len) |}.

(** ** Writer *)

(** The file, the [BufWriter]'s buffer and the counters. [faults] schedules the
    outcome of the writes to the file: [Some n] is a write that fails after [n]
    bytes, [None] (and the empty schedule) a write that succeeds. *)
Record WalWriter := mkWriter {
  file : bytes;
  buf : bytes;
  bytes_written : Z;
  records_written : Z;
  faults : list (option nat)
}.

Definition BUF_CAPACITY : nat := Z.to_nat (64 * 1024).

Definition open (file : bytes) : WalWriter :=
  {| file := file; buf := []; bytes_written := Z.of_nat (length file);
     records_written := 0; faults := [] |}.

(** [File::write_all] *)
Definition file_write (w : WalWriter) (data : bytes) : WalWriter * bool :=
  match faults w with
  | Some n :: fs =>
      ({| file := file w ++ take n data; buf := buf w; bytes_written := bytes_written w;
          records_written := records_written w; faults := fs |}, false)
  | fs =>
      ({| file := file w ++ data; buf := buf w; bytes_written := bytes_written w;
          records_written := records_written w; faults := tail fs |}, true)
  end.

Definition set_buf (w : WalWriter) (b : bytes) : WalWriter :=
  {| file := file w; buf := b; bytes_written := bytes_written w;
     records_written := records_written w; faults := faults w |}.

(** [BufWriter::flush_buf]: write the buffer out; what a failing write did not
    write stays in the buffer. *)
Definition flush_buf (w : WalWriter) : WalWriter * bool :=
  match buf w with
  | [] => (w, true)
  | b => let '(w', ok) := file_write w b in
         if ok then (set_buf w' [], true)
         else (set_buf w' (drop (length (file w') - length (file w)) b), false)
  end.

(** [BufWriter::write_all] *)
Definition buf_write_all (w : WalWriter) (data : bytes) : WalWriter * bool :=
  let spare := (BUF_CAPACITY - length (buf w))%nat in
  if (length data <? spare)%nat then (set_buf w (buf w ++ data), true)
  else
    let '(w1, ok) := if (spare <? length data)%nat then flush_buf w else (w, true) in
    if negb ok then (w1, false)
    else if (BUF_CAPACITY <=? length data)%nat then file_write w1 data
    else (set_buf w1 (buf w1 ++ data), true).

Definition append (w : WalWriter) (key value : bytes) : WalWriter * bool :=
  let data := serialize key value in
  let '(w1, ok) := buf_write_all w data in
  if ok then
    ({| file := file w1; buf := buf w1;
        bytes_written := u64 (bytes_written w1 + Z.of_nat (length data));
        records_written := u64 (records_written w1 + 1); faults := faults w1 |}, true)
  else (w1, false).

Definition flush (w : WalWriter) : WalWriter * bool := flush_buf w.

(** [sync]: flush, then [fsync], which changes nothing the program can read. *)
Definition sync (w : WalWriter) : WalWriter * bool := flush_buf w.

(** ** Replay *)

(** One turn of the replay loop over the unread bytes. *)
Inductive replay_step :=
  | Done                                  (* end of file before a checksum *)
  | Corrupt                               (* counted and stop *)
  | Rec (r : WalRecord) (rest : bytes).

Definition read_record (data : bytes) : replay_step :=
  if (length data <? 4)%nat then Done
  else
    let crc_stored := be_val (take 4 data) in
    let data1 := drop 4 data in
    if (length data1 <? 6)%nat then Corrupt
    else
      let header := take 6 data1 in
      let data2 := drop 6 data1 in
      let key_len := be_val (slice header 0 2) in
      let val_len := be_val (slice header 2 6) in
      if (1000000 <? key_len) || (100000000 <? val_len) then Corrupt
      else
        let n := Z.to_nat (key_len + val_len) in
        if (length data2 <? n)%nat then Corrupt
        else
          let payload := take n data2 in
          if negb (crc (header ++ payload) =? crc_stored) then Corrupt
          else Rec {| key := take (Z.to_nat key_len) payload;
                      value := drop (Z.to_nat key_len) payload |} (drop n data2).

(** The loop; each record consumes at least ten bytes, so the length of the file
    is enough fuel. *)
Fixpoint replay_loop (fuel : nat) (data : bytes) : list WalRecord * nat :=
  match fuel with
  | O => ([], 0%nat)
  | S fuel' =>
      match read_record data with
      | Done => ([], 0%nat)
      | Corrupt => ([], 1%nat)
      | Rec r rest => let '(rs, c) := replay_loop fuel' rest in (r :: rs, c)
      end
  end.

Definition replay (data : bytes) : list WalRecord * nat := replay_loop (S (length data)) data.

(** ** Lemmas *)
Context (crc_u32 : forall l, 0 <= crc l < 2 ^ 32).

(** The records that replay accepts: the key length fits sixteen bits and the value
    is at most a hundred million bytes. *)
Definition rec_ok (r : WalRecord) : Prop :=
  Z.of_nat (length (key r)) < 2 ^ 16 /\ Z.of_nat (length (value r)) <= 100000000.

Definition ser (r : WalRecord) : bytes := serialize (key r) (value r).

(** The file contents that a sequence of appends produces. *)
Fixpoint log_bytes (rs : list WalRecord) : bytes :=
  match rs with [] => [] | r :: rs' => ser r ++ log_bytes rs' end.

Lemma log_bytes_app rs1 rs2 : log_bytes (rs1 ++ rs2) = log_bytes rs1 ++ log_bytes rs2.
Proof. induction rs1 as [|r rs1 IH]; cbn [log_bytes app]; [done|]. by rewrite IH, app_assoc. Qed.

Lemma header_be kl vl : header_bytes kl vl = be_bytes 2 kl ++ be_bytes 4 vl.
Proof. unfold header_bytes. simpl. by rewrite !Z.shiftr_0_r. Qed.

Lemma length_header kl vl : length (header_bytes kl vl) = 6%nat.
Proof. done. Qed.

Lemma length_serialize k v : length (serialize k v) = (10 + length k + length v)%nat.
Proof.
  unfold serialize. rewrite !length_app, length_be_bytes, length_header. lia.
Qed.

Lemma header_fields kl vl : 0 <= kl < 2 ^ 16 -> 0 <= vl < 2 ^ 32 ->
  be_val (slice (header_bytes kl vl) 0 2) = kl /\ be_val (slice (header_bytes kl vl) 2 6) = vl.
Proof.
  intros Hk Hv. rewrite header_be.
  rewrite slice_app_l, slice_app_r by (rewrite length_be_bytes; lia).
  rewrite slice_full, slice_full by (by rewrite length_be_bytes).
  rewrite !be_val_be_bytes. change (256 ^ Z.of_nat 2) with (2 ^ 16). change (256 ^ Z.of_nat 4) with (2 ^ 32).
  by rewrite !Z.mod_small.
Qed.

Lemma crc_be l : be_val (be_bytes 4 (crc l)) = crc l.
Proof. rewrite be_val_be_bytes. apply Z.mod_small, crc_u32. Qed.

(** Reading back a complete record. *)
Lemma read_record_ser r rest : rec_ok r -> read_record (ser r ++ rest) = Rec r rest.
Proof.
  destruct r as [k v]. intros [Hk Hv]; cbn [key value] in Hk, Hv. unfold ser, serialize. cbn [key value].
  rewrite (wrap_small 16), (wrap_small 32) by lia.
  set (h := header_bytes (Z.of_nat (length k)) (Z.of_nat (length v))).
  assert (length h = 6%nat) as Hh by done.
  unfold read_record. rewrite !length_app, length_be_bytes, Hh.
  rewrite (proj2 (Nat.ltb_ge _ _)) by lia.
  rewrite <- !app_assoc.
  rewrite take_app_length', drop_app_length' by (by rewrite length_be_bytes).
  rewrite !length_app, Hh, (proj2 (Nat.ltb_ge _ _)) by lia.
  rewrite take_app_length', drop_app_length' by done.
  destruct (header_fields (Z.of_nat (length k)) (Z.of_nat (length v)) ltac:(lia) ltac:(lia)) as [E1 E2].
  fold h in E1, E2. rewrite E1, E2.
  rewrite (proj2 (Z.ltb_ge _ _)), (proj2 (Z.ltb_ge _ _)) by lia. cbn [orb].
  rewrite <- Nat2Z.inj_add, Nat2Z.id, !length_app, (proj2 (Nat.ltb_ge _ _)) by lia.
  rewrite (app_assoc k v rest), Nat2Z.id, take_app_length' by (by rewrite length_app).
  rewrite crc_be, Z.eqb_refl. cbn [negb].
  rewrite take_app_length, drop_app_length, drop_app_length' by (by rewrite length_app). done.
Qed.

(** The fuel only has to cover the records. *)
Lemma replay_loop_sers rs tl fuel : Forall rec_ok rs -> (length rs < fuel)%nat ->
  replay_loop fuel (log_bytes rs ++ tl) =
  let '(rs', c) := replay_loop (fuel - length rs) tl in (rs ++ rs', c).
Proof.
  intros Hrs. revert fuel. induction Hrs as [|r rs Hr Hrs IH]; intros fuel Hf.
  { simpl. rewrite Nat.sub_0_r. by destruct (replay_loop fuel tl). }
  destruct fuel as [|fuel]; [simpl in Hf; lia|].
  cbn [log_bytes length Nat.sub replay_loop]. rewrite <- app_assoc.
  rewrite read_record_ser by done. rewrite IH by (simpl in Hf; lia).
  by destruct (replay_loop (fuel - length rs) tl).
Qed.

Lemma length_ser_pos r : (10 <= length (ser r))%nat.
Proof. unfold ser. rewrite length_serialize. lia. Qed.

Lemma length_sers rs : (10 * length rs <= length (log_bytes rs))%nat.
Proof.
  induction rs as [|r rs IH]; [done|].
  cbn [log_bytes length]. rewrite length_app.
  pose proof (length_ser_pos r). lia.
Qed.

Lemma replay_sers rs tl : Forall rec_ok rs ->
  exists fuel, (length tl < fuel)%nat /\
    replay (log_bytes rs ++ tl) = let '(rs', c) := replay_loop fuel tl in (rs ++ rs', c).
Proof.
  intros Hrs. pose proof (length_sers rs). unfold replay.
  exists (S (length (log_bytes rs ++ tl)) - length rs)%nat. rewrite length_app in *.
  split; [lia|]. apply replay_loop_sers; [done|lia].
Qed.

(** A record cut short is the end of the log, or one corrupted record. *)
Lemma read_record_cut r n : rec_ok r -> (n < length (ser r))%nat ->
  read_record (take n (ser r)) = if (n <? 4)%nat then Done else Corrupt.
Proof.
  destruct r as [k v]. intros [Hk Hv] Hn; cbn [key value] in Hk, Hv. unfold ser in *. cbn [key value] in *.
  rewrite length_serialize in Hn. unfold serialize.
  rewrite (wrap_small 16), (wrap_small 32) by lia.
  set (h := header_bytes (Z.of_nat (length k)) (Z.of_nat (length v))).
  set (c := be_bytes 4 _). assert (length h = 6%nat) as Hh by done.
  assert (length c = 4%nat) as Hc by apply length_be_bytes.
  unfold read_record. rewrite length_take, !length_app, Hh, Hc.
  destruct (Nat.ltb_spec n 4); [by rewrite (proj2 (Nat.ltb_lt _ _)) by lia|].
  rewrite (proj2 (Nat.ltb_ge _ _)) by lia.
  rewrite skipn_firstn_comm, drop_app_length' by done.
  rewrite length_take, !length_app, Hh.
  destruct (Nat.ltb_spec (n - 4) 6); [by rewrite (proj2 (Nat.ltb_lt _ _)) by lia|].
  rewrite (proj2 (Nat.ltb_ge _ _)) by lia.
  rewrite take_take, Nat.min_l by lia. rewrite take_app_length' by done.
  destruct (header_fields (Z.of_nat (length k)) (Z.of_nat (length v)) ltac:(lia) ltac:(lia)) as [E1 E2].
  fold h in E1, E2. rewrite E1, E2.
  rewrite (proj2 (Z.ltb_ge _ _)), (proj2 (Z.ltb_ge _ _)) by lia. cbn [orb].
  rewrite <- Nat2Z.inj_add, Nat2Z.id.
  rewrite skipn_firstn_comm, drop_app_length' by done.
  by rewrite length_take, length_app, (proj2 (Nat.ltb_lt _ _)) by lia.
Qed.

(** Where a byte offset falls in a log: after [m] whole records, inside the next. *)
Lemma cut_log rs n : (n <= length (log_bytes rs))%nat ->
  exists m, (m <= length rs)%nat /\
    (take n (log_bytes rs) = log_bytes (take m rs) \/
     exists r j, rs !! m = Some r /\ (0 < j < length (ser r))%nat /\
    take n (log_bytes rs) = log_bytes (take m rs) ++ take j (ser r)).
Proof.
  revert n. induction rs as [|r rs IH]; intros n Hn.
  { exists 0%nat. split; [done|]. left. cbn. by rewrite take_nil. }
  cbn [log_bytes] in *. rewrite length_app in Hn.
  destruct (decide (n < length (ser r))%nat).
  - exists 0%nat. split; [simpl; lia|]. rewrite take_app_le by lia. destruct (decide (n = 0)%nat) as [->|].
    + left. by rewrite take_0.
    + right. exists r, n. split_and!; [done|lia..|done].
  - destruct (IH (n - length (ser r))%nat) as (m & Hm & H); [lia|].
    exists (S m). split; [simpl; lia|]. rewrite take_app_ge by lia.
    destruct H as [->|(r' & j & Hr' & Hj & ->)]; [left|right]; cbn [take log_bytes]; [done|].
    exists r', j. split_and!; [done|lia..|]. by rewrite app_assoc.
Qed.

Lemma replay_torn rs r j : Forall rec_ok rs -> rec_ok r -> (j < length (ser r))%nat ->
  (replay (log_bytes rs ++ take j (ser r))).1 = rs.
Proof.
  intros Hrs Hr Hj. destruct (replay_sers rs (take j (ser r)) Hrs) as (fuel & Hf & ->).
  destruct fuel as [|fuel]; [lia|]. cbn [replay_loop]. rewrite read_record_cut by done.
  destruct (j <? 4)%nat; cbn; by rewrite app_nil_r.
Qed.

(** ** Properties *)

(** a record with a key below 64 KiB and a value below 4 GiB decodes to itself. *)
Theorem deserialize_serialize k v :
  Z.of_nat (length k) < 2 ^ 16 -> Z.of_nat (length v) < 2 ^ 32 ->
  deserialize (serialize k v) = Some {| key := k; value := v |}.
Proof.
  intros Hk Hv. unfold deserialize. rewrite length_serialize, (proj2 (Nat.ltb_ge _ _)) by lia.
  unfold serialize. rewrite (wrap_small 16), (wrap_small 32) by lia.
  set (h := header_bytes (Z.of_nat (length k)) (Z.of_nat (length v))).
  assert (length h = 6%nat) as Hh by done.
  rewrite take_app_length', drop_app_length' by (by rewrite length_be_bytes).
  rewrite crc_be, Z.eqb_refl. cbn [negb].
  rewrite !(slice_app_l h) by (rewrite Hh; lia).
  destruct (header_fields (Z.of_nat (length k)) (Z.of_nat (length v)) ltac:(lia) ltac:(lia)) as [E1 E2].
  fold h in E1, E2. rewrite E1, E2, !Nat2Z.id, !length_app, Hh.
  rewrite (proj2 (Nat.ltb_ge _ _)) by lia. f_equal. f_equal.
  - rewrite slice_app_r, Hh, Nat.sub_diag, slice_app_l by (rewrite ?Hh; lia). apply slice_full. lia.
  - rewrite slice_app_r, Hh, slice_app_r by (rewrite ?Hh; lia).
    replace (6 + length k - 6 - length k)%nat with 0%nat by lia. apply slice_full. lia.
Qed.

(** C15: recovery after a crash at any byte. A log of well-formed records cut at an
    arbitrary offset [n] replays to exactly the records that lie wholly before
    the cut, in order, with at most one record reported corrupted. *)
Theorem wal_replay_cut rs n : Forall rec_ok rs -> (n <= length (log_bytes rs))%nat ->
  exists m c, replay (take n (log_bytes rs)) = (take m rs, c) /\ (c <= 1)%nat /\
    (m <= length rs)%nat /\ (length (log_bytes (take m rs)) <= n)%nat /\
    (m < length rs -> n < length (log_bytes (take (S m) rs)))%nat.
Proof.
  intros Hrs Hn. destruct (cut_log rs n Hn) as (m & Hm & Hcut).
  assert (Forall rec_ok (take m rs)) as Hrs' by (by apply Forall_take).
  assert (length (take n (log_bytes rs)) = n) as Hlen by (rewrite length_take; lia).
  exists m. destruct Hcut as [E|(r & j & Hr & Hj & E)]; rewrite E in Hlen |- *.
  - destruct (replay_sers (take m rs) [] Hrs') as (fuel & Hf & E'). rewrite app_nil_r in E'.
    exists 0%nat. rewrite E'. destruct fuel as [|fuel]; [simpl in Hf; lia|]. simpl. rewrite app_nil_r.
    split_and!; [done|lia|done|lia|]. intros Hlt.
    destruct (lookup_lt_is_Some_2 rs m Hlt) as [r Hr].
    rewrite (take_S_r _ _ _ Hr), log_bytes_app, length_app. cbn [log_bytes]. rewrite app_nil_r.
    pose proof (length_ser_pos r). lia.
  - destruct (replay_sers (take m rs) (take j (ser r)) Hrs') as (fuel & Hf & E').
    pose proof (Forall_lookup_1 _ _ _ _ Hrs Hr) as Hok.
    rewrite E'. destruct fuel as [|fuel]; [lia|]. cbn [replay_loop].
    rewrite read_record_cut by (done || lia). rewrite length_app, length_take in Hlen.
    exists (if (j <? 4)%nat then 0%nat else 1%nat).
    split; [destruct (j <? 4)%nat; cbn; by rewrite app_nil_r|].
    split; [destruct (j <? 4)%nat; lia|]. split_and!; [done|lia|].
    intros Hlt. rewrite (take_S_r _ _ _ Hr), log_bytes_app, length_app. cbn [log_bytes]. rewrite app_nil_r. lia.
Qed.

(** A record that is read back is the next one of the data, well-formed. *)
Lemma read_record_Rec data r rest : read_record data = Rec r rest -> rec_ok r /\ data = ser r ++ rest.
Proof.
  unfold read_record. intros E. repeat case_match; simplify_eq. rename data into d.
  repeat match goal with H : (_ <? _)%nat = false |- _ => apply Nat.ltb_ge in H end.
  match goal with H : _ || _ = false |- _ => apply orb_false_iff in H as [Hk%Z.ltb_ge Hv%Z.ltb_ge] end.
  match goal with H : negb _ = false |- _ => apply negb_false_iff, Z.eqb_eq in H; rename H into Hc end.
  set (hd := take 6 (drop 4 d)) in *.
  assert (length (drop 4 d) = length (take 6 (drop 4 d)) + length (drop 6 (drop 4 d)))%nat as Hsplit
    by (rewrite <- length_app, take_drop; done).
  assert (length hd = 6%nat) as Hhd by (unfold hd; rewrite length_take; lia).
  pose proof (be_val_range (slice hd 0 2)) as Hr1. pose proof (be_val_range (slice hd 2 6)) as Hr2.
  rewrite length_slice in Hr1, Hr2 by lia.
  change (256 ^ Z.of_nat (2 - 0)) with (2 ^ 16) in Hr1. change (256 ^ Z.of_nat (6 - 2)) with (2 ^ 32) in Hr2.
  set (kl := be_val (slice hd 0 2)) in *. set (vl := be_val (slice hd 2 6)) in *.
  set (pay := take (Z.to_nat (kl + vl)) (drop 6 (drop 4 d))) in *.
  assert (length pay = Z.to_nat (kl + vl)) as Hpay by (unfold pay; rewrite length_take; lia).
  assert (length (take (Z.to_nat kl) pay) = Z.to_nat kl /\ length (drop (Z.to_nat kl) pay) = Z.to_nat vl) as [Hl1 Hl2]
    by (rewrite length_take, length_drop; lia).
  split; [unfold rec_ok; cbn [key value]; rewrite Hl1, Hl2; lia|].
  unfold ser, serialize. cbn [key value]. rewrite Hl1, Hl2, !Z2Nat.id by lia.
  rewrite (wrap_small 16), (wrap_small 32) by lia.
  assert (header_bytes kl vl = hd) as ->.
  { assert (forall a b, (a <= b <= 6)%nat -> be_bytes (b - a) (be_val (slice hd a b)) = slice hd a b) as Hbe.
    { intros a b Hab. rewrite <- (be_bytes_be_val (slice hd a b)) at 2. by rewrite length_slice by lia. }
    rewrite header_be. unfold kl, vl. pose proof (Hbe 0 2)%nat as H02. pose proof (Hbe 2 6)%nat as H26. cbn [Nat.sub] in H02, H26. rewrite H02, H26 by lia.
    unfold slice. cbn [Nat.sub]. rewrite drop_0, (take_ge (drop 2 hd)) by (rewrite length_drop; lia). apply take_drop. }
  rewrite take_drop, Hc. rewrite <- !app_assoc. unfold pay. rewrite take_drop. unfold hd. rewrite take_drop.
  assert (length (take 4 d) = 4%nat) as H4 by (rewrite length_take; lia).
  rewrite <- H4 at 1. by rewrite be_bytes_be_val, take_drop.
Qed.

(** C26: whatever the file holds, a replay returns exactly the longest sequence of
    encoded records, with keys below 64 KiB and values of at most a hundred million
    bytes, that the file begins with; what follows is counted as one corruption,
    or as none when it is shorter than a checksum. *)
Theorem wal_replay_exact data : exists tail,
  data = log_bytes (replay data).1 ++ tail /\ Forall rec_ok (replay data).1 /\
  (forall r rest, rec_ok r -> tail <> ser r ++ rest) /\
  (replay data).2 = (if (length tail <? 4)%nat then 0 else 1)%nat.
Proof.
  unfold replay. assert (length data < S (length data))%nat as Hf by lia. revert Hf.
  generalize (S (length data)) as fuel. intros fuel. revert data.
  induction fuel as [|fuel IH]; intros data Hf; [lia|]. cbn [replay_loop].
  assert (forall d, (forall r rest, read_record d <> Rec r rest) -> forall r rest, rec_ok r -> d <> ser r ++ rest) as Hstop.
  { intros d Hd r rest Hr ->. by apply (Hd r rest), read_record_ser. }
  destruct (read_record data) as [| |r' rest] eqn:E.
  - exists data. cbn [fst snd log_bytes app]. split_and!; [done|constructor|apply Hstop; congruence|].
    unfold read_record in E. destruct (length data <? 4)%nat; [done|]. repeat case_match; congruence.
  - exists data. cbn [fst snd log_bytes app]. split_and!; [done|constructor|apply Hstop; congruence|].
    unfold read_record in E. by destruct (length data <? 4)%nat.
  - apply read_record_Rec in E as [Hr ->]. pose proof (length_ser_pos r') as Hl. rewrite length_app in Hf.
    destruct (IH rest) as (tail & Hd & Ho & Ht & Hc); [lia|]. exists tail.
    destruct (replay_loop fuel rest) as [rs c]. cbn [fst snd log_bytes] in *.
    rewrite <- app_assoc, <- Hd. split_and!; [done|by constructor|done|done].
Qed.

Lemma replay_stop rs b : Forall rec_ok rs -> read_record b = Corrupt ->
  replay (log_bytes rs ++ b) = (rs, 1%nat).
Proof.
  intros Hrs Hb. destruct (replay_sers rs b Hrs) as (fuel & Hf & ->).
  destruct fuel as [|fuel]; [lia|]. cbn [replay_loop]. rewrite Hb. cbn. by rewrite app_nil_r.
Qed.

Lemma stored_crc r rest : be_val (take 4 (ser r ++ rest)) = crc (drop 4 (ser r)).
Proof.
  unfold ser, serialize. rewrite <- app_assoc, take_app_length', drop_app_length'
    by (by rewrite length_be_bytes). apply crc_be.
Qed.

Lemma read_record_bad_crc r c rest : rec_ok r -> 0 <= c < 2 ^ 32 -> c <> crc (drop 4 (ser r)) ->
  read_record (be_bytes 4 c ++ drop 4 (ser r) ++ rest) = Corrupt.
Proof.
  intros Hok Hc Hne. pose proof (read_record_ser r rest Hok) as Hrd.
  pose proof (length_ser_pos r) as Hlen. pose proof (stored_crc r rest) as Hst.
  unfold read_record in Hrd |- *. rewrite Hst in Hrd. rewrite drop_app_le in Hrd by lia.
  rewrite take_app_length', drop_app_length' by (by rewrite length_be_bytes).
  rewrite be_val_be_bytes, Z.mod_small by done.
  rewrite !length_app, ?length_be_bytes, ?length_drop in *.
  rewrite (proj2 (Nat.ltb_ge _ _)) in Hrd by lia. rewrite (proj2 (Nat.ltb_ge _ _)) by lia.
  set (d := drop 4 (ser r) ++ rest) in *. repeat case_match; simplify_eq; try done.
  repeat match goal with H : negb _ = false |- _ => apply negb_false_iff, Z.eqb_eq in H end.
  congruence.
Qed.

(** replay stops at the first record whose stored checksum is wrong: the records
    before it are recovered and every record after it is lost, although those
    are intact. *)
Theorem wal_replay_stops_at_corruption rs r c rest : Forall rec_ok rs -> rec_ok r ->
  0 <= c < 2 ^ 32 -> c <> crc (drop 4 (ser r)) ->
  replay (log_bytes rs ++ be_bytes 4 c ++ drop 4 (ser r) ++ log_bytes rest) = (rs, 1%nat).
Proof. intros. by apply replay_stop, read_record_bad_crc. Qed.

(** ** The writer *)
Definition appends (w : WalWriter) (rs : list WalRecord) : WalWriter :=
  foldl (fun w r => (append w (key r) (value r)).1) w rs.

Lemma BUF_CAPACITY_pos : (0 < BUF_CAPACITY)%nat.
Proof. unfold BUF_CAPACITY. lia. Qed.

Lemma flush_buf_ok w : faults w = [] ->
  exists w', flush_buf w = (w', true) /\ faults w' = [] /\ buf w' = [] /\ file w' = file w ++ buf w.
Proof.
  intros Hf. unfold flush_buf, file_write. rewrite Hf.
  destruct (buf w) eqn:E; eexists; (split; [done|]); cbn; rewrite ?app_nil_r; auto.
Qed.

Lemma buf_write_all_ok w data : faults w = [] ->
  exists w', buf_write_all w data = (w', true) /\ faults w' = [] /\
    file w' ++ buf w' = (file w ++ buf w) ++ data.
Proof.
  intros Hf. unfold buf_write_all.
  destruct (length data <? BUF_CAPACITY - length (buf w))%nat eqn:E1.
  { eexists. split; [done|]. cbn. by rewrite app_assoc. }
  assert (exists w1, (if (BUF_CAPACITY - length (buf w) <? length data)%nat then flush_buf w else (w, true))
            = (w1, true) /\ faults w1 = [] /\ file w1 ++ buf w1 = file w ++ buf w /\
            (BUF_CAPACITY <= length data -> buf w1 = [])%nat) as (w1 & -> & Hf1 & Hd1 & Hb1).
  { destruct (Nat.ltb_spec (BUF_CAPACITY - length (buf w)) (length data)).
    - destruct (flush_buf_ok w Hf) as (w1 & -> & ? & Hb & Hfile).
      exists w1. rewrite Hb, app_nil_r. auto.
    - exists w. split_and!; auto. intros Hc. apply length_zero_iff_nil.
      pose proof BUF_CAPACITY_pos. lia. }
  cbn [negb]. destruct (Nat.leb_spec BUF_CAPACITY (length data)).
  - unfold file_write. rewrite Hf1. eexists. split; [done|]. cbn.
    rewrite <- Hd1, Hb1 by done. by rewrite !app_nil_r.
  - eexists. split; [done|]. cbn. by rewrite <- Hd1, app_assoc.
Qed.

(** Without faults, an append succeeds and the file followed by the buffer grows by
    the record. *)
Lemma append_ok w k v : faults w = [] ->
  exists w', append w k v = (w', true) /\ faults w' = [] /\
    file w' ++ buf w' = (file w ++ buf w) ++ serialize k v.
Proof.
  intros Hf. unfold append. destruct (buf_write_all_ok w (serialize k v) Hf) as (w' & -> & ? & ?).
  eexists. split; [done|]. cbn. auto.
Qed.

Lemma appends_ok rs w : faults w = [] ->
  faults (appends w rs) = [] /\
  file (appends w rs) ++ buf (appends w rs) = (file w ++ buf w) ++ log_bytes rs.
Proof.
  revert w. induction rs as [|r rs IH]; intros w Hf; cbn [appends foldl log_bytes].
  { by rewrite app_nil_r. }
  destruct (append_ok w (key r) (value r) Hf) as (w' & E & Hf' & Hd). rewrite E. cbn [fst].
  destruct (IH w' Hf') as [? IHd]. split; [done|].
  etransitivity; [exact IHd|]. rewrite Hd, <- !app_assoc. done.
Qed.

(** C14: durability of the log. Appending records to a log of well-formed records and
    flushing leaves a file that replays to the old records followed by the new
    ones, none corrupted, however the writes are split by the 64 KiB buffer. *)
Theorem wal_append_flush_replay old rs w' : Forall rec_ok old -> Forall rec_ok rs ->
  flush (appends (open (log_bytes old)) rs) = (w', true) ->
  buf w' = [] /\ file w' = log_bytes (old ++ rs) /\ replay (file w') = (old ++ rs, 0%nat).
Proof.
  intros Hold Hrs Hfl. destruct (appends_ok rs (open (log_bytes old)) eq_refl) as [Hf Hd].
  destruct (flush_buf_ok _ Hf) as (w1 & E & _ & Hb & Hfile).
  unfold flush in Hfl. rewrite E in Hfl. injection Hfl as <-.
  assert (file w1 = log_bytes (old ++ rs)) as Hfile'.
  { rewrite Hfile, Hd. cbn [open file buf]. by rewrite app_nil_r, log_bytes_app. }
  split_and!; [done..|]. rewrite Hfile', <- (app_nil_r (log_bytes _)).
  destruct (replay_sers (old ++ rs) []) as (fuel & Hfu & ->); [by apply Forall_app|].
  destruct fuel as [|fuel]; [simpl in Hfu; lia|]. cbn. by rewrite app_nil_r.
Qed.
End crc.

(** ** CRC-32 (IEEE), a concrete checksum for the witnesses *)
Definition crc32_bit (c : Z) : Z :=
  if Z.odd c then Z.lxor (Z.shiftr c 1) 0xEDB88320 else Z.shiftr c 1.

Definition crc32_byte (c : Z) (b : byte) : Z :=
  Nat.iter 8 crc32_bit (Z.lxor c (b2z b)).

Definition crc32 (l : bytes) : Z := Z.lxor (foldl crc32_byte 0xFFFFFFFF l) 0xFFFFFFFF.

Lemma crc32_bit_range c : 0 <= c < 2 ^ 32 -> 0 <= crc32_bit c < 2 ^ 32.
Proof.
  intros Hc. assert (0 <= Z.shiftr c 1 < 2 ^ 32).
  { rewrite Z.shiftr_div_pow2 by lia. change (2 ^ 1) with 2.
    split; [apply Z.div_pos; lia|apply Z.div_lt_upper_bound; lia]. }
  unfold crc32_bit. destruct (Z.odd c); [|done]. by apply lxor_range.
Qed.

Lemma crc32_range l : 0 <= crc32 l < 2 ^ 32.
Proof.
  apply lxor_range; [done| |done].
  assert (0 <= 0xFFFFFFFF < 2 ^ 32) as H by done. revert H. generalize 0xFFFFFFFF.
  induction l as [|b l IH]; intros c Hc; [done|]. cbn [foldl]. apply IH. unfold crc32_byte.
  apply Nat.iter_invariant; [intros; by apply crc32_bit_range|].
  apply lxor_range; [done|done|]. pose proof (b2z_range b). lia.
Qed.

(** The check value of the algorithm. *)
Example crc32_check : crc32 (str "123456789") = 0xCBF43926.
Proof. by vm_compute. Qed.

Definition sample : list WalRecord :=
  [mkRecord (str "auth.py") (str "def f"); mkRecord (str "b.py") []].

Lemma sample_ok : Forall rec_ok sample.
Proof. repeat constructor; by vm_compute. Qed.

Lemma deserialize_serialize_witness :
  deserialize crc32 (serialize crc32 (str "k") (str "v")) = Some (mkRecord (str "k") (str "v")).
Proof. by apply (deserialize_serialize crc32 crc32_range). Defined.

Lemma wal_replay_cut_witness :
  (exists m c, replay crc32 (take 25 (log_bytes crc32 sample)) = (take m sample, c)) /\
  replay crc32 (take 25 (log_bytes crc32 sample)) = ([mkRecord (str "auth.py") (str "def f")], 0%nat).
Proof.
  split; [|by vm_compute].
  destruct (wal_replay_cut crc32 crc32_range sample 25 sample_ok) as (m & c & H & _).
  - apply Nat.leb_le. by vm_compute.
  - by exists m, c.
Defined.

Lemma wal_replay_exact_witness :
  let data := log_bytes crc32 sample ++ be_bytes 4 0 ++ drop 4 (ser crc32 (mkRecord (str "x") (str "y"))) in
  replay crc32 data = (sample, 1%nat) /\ exists tail, data = log_bytes crc32 (replay crc32 data).1 ++ tail /\
    forall r rest, rec_ok r -> tail <> ser crc32 r ++ rest.
Proof.
  intros data. split; [by vm_compute|].
  destruct (wal_replay_exact crc32 crc32_range data) as (tail & Hd & _ & Ht & _). exact (ex_intro _ tail (conj Hd Ht)).
Defined.

Lemma wal_replay_stops_at_corruption_witness :
  replay crc32 (log_bytes crc32 sample ++ be_bytes 4 0 ++
    drop 4 (ser crc32 (mkRecord (str "x") (str "y"))) ++ log_bytes crc32 sample) = (sample, 1%nat).
Proof.
  apply (wal_replay_stops_at_corruption crc32 crc32_range sample (mkRecord (str "x") (str "y")) 0 sample sample_ok);
    [by vm_compute|done|by vm_compute].
Defined.

Lemma wal_append_flush_replay_witness :
  let w := (flush (appends crc32 (open (log_bytes crc32 sample)) [mkRecord (str "x") (str "y")])).1 in
  replay crc32 (file w) = (sample ++ [mkRecord (str "x") (str "y")], 0%nat).
Proof.
  apply (wal_append_flush_replay crc32 crc32_range sample [mkRecord (str "x") (str "y")] _ sample_ok);
    [by repeat constructor; vm_compute|by vm_compute].
Defined.
