(* ===== verification/Page.v ===== *)
(** * Sorted pages ([src/storage/page.rs])

    A page is a sorted run of records with an optional Bloom filter, and its
    binary format. DEFLATE (the flate2 crate) is a pair of parameters. *)

From S2P Require Import Prelude Ordered Float Bloom.
Local Open Scope Z_scope.

Definition PAGE_MAGIC : bytes := str "ULPG".
Definition PAGE_VERSION : byte := x01.
Definition RECORD_MAGIC : bytes := str "ULRC".

Record PageRecord := mkRec { key : bytes; value : bytes; tombstone : bool }.

Record Page := mkPage {
  records : list PageRecord;
  level : Z;
  bloom : option BloomFilter
}.

Definition new (level : Z) : Page := {| records := []; level := level; bloom := None |}.

Definition push (p : Page) (key value : bytes) (tombstone : bool) : Page :=
  {| records := records p ++ [{| key := key; value := value; tombstone := tombstone |}];
     level := level p; bloom := bloom p |}.

Definition sort (p : Page) : Page :=
  {| records := stable_sort (key_leb key) (records p); level := level p; bloom := bloom p |}.

(** [build_bloom]: the keys of the live records go into a fresh filter. *)
Definition build_bloom (ln : f64 -> f64) (p : Page) : res unit Page :=
  match records p with
  | [] => Ok p
  | _ =>
      let bf0 := Bloom.new ln (Z.of_nat (Nat.max (length (records p)) 16)) (f64_lit 1 100) in
      bf ← foldl (fun acc r =>
        bf ← acc; if tombstone r then Ok bf else Bloom.add bf (key r)) (Ok bf0) (records p);
      Ok {| records := records p; level := level p; bloom := Some bf |}
  end.

Definition bloom_may_contain (p : Page) (k : bytes) : res unit bool :=
  match bloom p with Some bf => Bloom.may_contain bf k | None => Ok true end.

(** ** Binary format *)
Definition encode_record (r : PageRecord) : bytes :=
  RECORD_MAGIC ++ be_bytes 2 (u16 (Z.of_nat (length (key r))))
    ++ be_bytes 4 (u32 (Z.of_nat (length (value r))))
    ++ key r ++ value r ++ [if tombstone r then x01 else x00].

Fixpoint encode_body (rs : list PageRecord) : bytes :=
  match rs with [] => [] | r :: rs' => encode_record r ++ encode_body rs' end.

(** One turn of the decoding loop over the unread part of the body. *)
Inductive parse_step :=
  | PBreak
  | PBadMagic
  | PRec (r : PageRecord) (rest : bytes).

Definition parse_record (body : bytes) : parse_step :=
  if (length body <? 4)%nat then PBreak
  else if negb (bool_decide (take 4 body = RECORD_MAGIC)) then PBadMagic
  else
    let b1 := drop 4 body in
    if (length b1 <? 6)%nat then PBreak
    else
      let key_len := Z.to_nat (be_val (slice b1 0 2)) in
      let val_len := Z.to_nat (be_val (slice b1 2 6)) in
      let b2 := drop 6 b1 in
      if (length b2 <? key_len + val_len + 1)%nat then PBreak
      else
        let k := take key_len b2 in
        let b3 := drop key_len b2 in
        let v := take val_len b3 in
        let b4 := drop val_len b3 in
        match b4 with
        | t :: rest => PRec {| key := k; value := v; tombstone := negb (bool_decide (t = x00)) |} rest
        | [] => PBreak
        end.

(** [while pos < body.len()]; each record consumes at least eleven bytes. *)
Fixpoint parse_loop (fuel : nat) (body : bytes) : res bytes (list PageRecord) :=
  match fuel with
  | O => Ok []
  | S fuel' =>
      match body with
      | [] => Ok []
      | _ =>
          match parse_record body with
          | PBreak => Ok []
          | PBadMagic => Err (str "bad record magic")
          | PRec r rest => rs ← parse_loop fuel' rest; Ok (r :: rs)
          end
      end
  end.

Section format.
Context (deflate : bytes -> bytes) (inflate : bytes -> option bytes).

Definition serialize (p : Page) : bytes :=
  let body := encode_body (records p) in
  let uncompressed_size := u32 (Z.of_nat (length body)) in
  let compressed := deflate body in
  let '(stored, compressed_size) :=
    if u32 (Z.of_nat (length compressed)) <? uncompressed_size
    then (compressed, u32 (Z.of_nat (length compressed)))
    else (body, uncompressed_size) in
  PAGE_MAGIC ++ [PAGE_VERSION] ++ be_bytes 4 (u32 (Z.of_nat (length (records p))))
    ++ be_bytes 4 uncompressed_size ++ be_bytes 4 compressed_size ++ stored.

Definition deserialize (data : bytes) : res bytes Page :=
  if (length data <? 17)%nat then Err (str "page too short")
  else if negb (bool_decide (take 4 data = PAGE_MAGIC)) then Err (str "bad page magic")
  else
    let record_count := Z.to_nat (be_val (slice data 5 9)) in
    let uncompressed_size := be_val (slice data 9 13) in
    let compressed_size := Z.to_nat (be_val (slice data 13 17)) in
    if (length data <? 17 + compressed_size)%nat then Err (str "page truncated")
    else
      let raw := slice data 17 (17 + compressed_size) in
      body ← (if (Z.of_nat compressed_size <? uncompressed_size)
              then ok_or (inflate raw) (str "deflate error") else Ok raw);
      rs ← parse_loop (S (length body)) body;
      (* assert_eq! *)
      if (length rs =? record_count)%nat
      then Ok {| records := rs; level := 0; bloom := None |} else Panic.
End format.

(** ** Lookups *)
Definition search (rs : list PageRecord) (k : bytes) : nat + nat :=
  binary_search_by (fun r => bytes_cmp (key r) k) rs.

Definition get (p : Page) (k : bytes) : option bytes :=
  match search (records p) k with
  | inl idx => r ← records p !! idx; if tombstone r then None else Some (value r)
  | inr _ => None
  end.

Fixpoint take_while {A} (f : A -> bool) (l : list A) : list A :=
  match l with [] => [] | x :: l' => if f x then x :: take_while f l' else [] end.

Definition range (p : Page) (start end_ : bytes) : list PageRecord :=
  let first := match search (records p) start with inl i => i | inr i => i end in
  take_while (fun r => bytes_ltb (key r) end_) (drop first (records p)).

Definition len (p : Page) : nat := length (records p).
Definition is_empty (p : Page) : bool := (len p =? 0)%nat.
Definition tombstone_count (p : Page) : nat := length (filter (fun r => tombstone r = true) (records p)).
Definition live_count (p : Page) : nat := length (filter (fun r => tombstone r = false) (records p)).

(** ** The page as a map *)

(** What a record says about its key: a value, or deleted. *)
Definition rec_val (r : PageRecord) : option bytes := if tombstone r then None else Some (value r).

Definition rec_map (rs : list PageRecord) : gmap bytes (option bytes) :=
  list_to_map ((fun r => (key r, rec_val r)) <$> rs).

Definition sorted_page (p : Page) : Prop := keys_sorted (key <$> records p).

Lemma rec_map_fst rs : ((fun r => (key r, rec_val r)) <$> rs).*1 = key <$> rs.
Proof. by rewrite <- list_fmap_compose. Qed.

Lemma rec_map_lookup rs k v : NoDup (key <$> rs) ->
  rec_map rs !! k = Some v <-> exists r, r ∈ rs /\ key r = k /\ rec_val r = v.
Proof.
  intros Hnd. unfold rec_map. rewrite <- elem_of_list_to_map by (by rewrite rec_map_fst).
  rewrite list_elem_of_fmap. naive_solver.
Qed.

Lemma search_spec rs k : keys_sorted (key <$> rs) ->
  match search rs k with
  | inl i => exists r, rs !! i = Some r /\ key r = k /\ rec_map rs !! k = Some (rec_val r)
  | inr i => (i <= length rs)%nat /\ rec_map rs !! k = None /\
      (forall j r, rs !! j = Some r -> (j < i)%nat <-> bytes_lt (key r) k)
  end.
Proof.
  intros Hs. pose proof (keys_sorted_nodup _ Hs) as Hnd. unfold search.
  pose proof (binary_search_by_spec _ _ (key_search_sorted key rs k Hs)) as H.
  destruct (binary_search_by _ rs) as [i|i].
  - destruct H as (r & Hr & E%bytes_cmp_eq). exists r. split_and!; [done..|].
    apply rec_map_lookup; [done|]. exists r. split_and!; [by eapply list_elem_of_lookup_2|done..].
  - destruct H as (Hi & Hlt & Hgt). split_and!; [done| |].
    + destruct (rec_map rs !! k) as [v|] eqn:E; [|done]. exfalso.
      apply rec_map_lookup in E as (r & Hr & <- & _); [|done].
      apply list_elem_of_lookup in Hr as [j Hj].
      destruct (decide (j < i)%nat) as [Hji|Hji]; [specialize (Hlt j r Hj Hji)|specialize (Hgt j r Hj ltac:(lia))];
        by rewrite bytes_cmp_refl in *.
    + intros j r Hj. split; [intros; by eapply Hlt|]. intros Hl.
      destruct (decide (j < i)%nat); [done|]. specialize (Hgt j r Hj ltac:(lia)).
      unfold bytes_lt in Hl. congruence.
Qed.

Lemma page_get_spec p k : sorted_page p -> get p k = rec_map (records p) !! k ≫= id.
Proof.
  intros Hs. unfold get. pose proof (search_spec (records p) k Hs) as H.
  destruct (search (records p) k) as [i|i].
  - destruct H as (r & -> & _ & ->). done.
  - by destruct H as (_ & -> & _).
Qed.

(** ** Range *)
Lemma take_while_prefix {A} (f : A -> bool) (l : list A) :
  exists l', l = take_while f l ++ l' /\ Forall (fun x => f x = true) (take_while f l) /\
    match l' with [] => True | x :: _ => f x = false end.
Proof.
  induction l as [|x l (l' & E & Hf & Hh)]; cbn [take_while]; [by exists []|].
  destruct (f x) eqn:Ex; [|by exists (x :: l)].
  exists l'. cbn. rewrite <- E. split_and!; auto.
Qed.

Lemma range_split p start end_ : sorted_page p ->
  exists pre post, records p = pre ++ range p start end_ ++ post /\
    Forall (fun r => bytes_lt (key r) start) pre /\
    Forall (fun r => bytes_le start (key r) /\ bytes_lt (key r) end_) (range p start end_) /\
    Forall (fun r => bytes_le end_ (key r)) post.
Proof.
  intros Hs. unfold range. pose proof (search_spec (records p) start Hs) as H.
  set (first := match search (records p) start with inl i => i | inr i => i end).
  assert (forall j r, records p !! j = Some r -> (j < first)%nat <-> bytes_lt (key r) start) as Hf.
  { unfold first. destruct (search (records p) start) as [i|i]; [|by apply H].
    destruct H as (r & Hr & Hk & _). intros j r' Hj. split.
    - intros Hji. rewrite <- Hk.
      apply (keys_sorted_lookup_lt _ j i _ _ Hs Hji); rewrite list_lookup_fmap; by rewrite ?Hj, ?Hr.
    - intros Hl. rewrite <- Hk in Hl. destruct (decide (j < i)%nat); [done|]. exfalso.
      destruct (decide (j = i)) as [->|]; [simplify_eq; by eapply bytes_lt_irrefl|].
      eapply (bytes_lt_asym _ _ Hl), (keys_sorted_lookup_lt _ i j _ _ Hs); [lia|..];
        rewrite list_lookup_fmap; by rewrite ?Hj, ?Hr. }
  clear H. destruct (take_while_prefix (fun r => bytes_ltb (key r) end_) (drop first (records p)))
    as (post & E & Hin & Hpost).
  set (mid := take_while _ _) in *.
  exists (take first (records p)), post.
  assert (records p = take first (records p) ++ mid ++ post) as Eall by (by rewrite <- E, take_drop).
  split_and!; [done|..].
  - apply Forall_lookup. intros j r Hj. apply lookup_take_Some in Hj as [Hj Hlt]. by apply (Hf j r).
  - apply Forall_forall. intros r Hr. split.
    + assert (r ∈ drop first (records p)) as Hd by (rewrite E; apply elem_of_app; by left).
      apply list_elem_of_lookup in Hd as [j Hj]. rewrite lookup_drop in Hj.
      apply bytes_nlt_le. rewrite <- (Hf _ _ Hj). lia.
    + rewrite Forall_forall in Hin. by apply bytes_ltb_lt, Hin.
  - destruct post as [|x post]; [done|].
    assert (bytes_le end_ (key x)) as Hx.
    { apply bytes_nlt_le. intros Hl%bytes_ltb_lt. congruence. }
    unfold sorted_page in Hs. rewrite Eall, app_assoc, fmap_app in Hs.
    apply StronglySorted_app_1_r in Hs. cbn in Hs. apply StronglySorted_inv in Hs as [_ Hs].
    constructor; [done|]. rewrite Forall_fmap in Hs. eapply Forall_impl; [exact Hs|].
    intros r Hr. apply bytes_le_lt_eq. left. eapply bytes_le_lt_trans; eauto.
Qed.

Lemma range_keys_sorted p start end_ : sorted_page p -> keys_sorted (key <$> range p start end_).
Proof.
  intros Hs. destruct (range_split p start end_ Hs) as (pre & post & E & _).
  unfold sorted_page in Hs. rewrite E, !fmap_app in Hs.
  by apply StronglySorted_app_1_r, StronglySorted_app_1_l in Hs.
Qed.

Lemma elem_of_range p start end_ r : sorted_page p ->
  r ∈ range p start end_ <-> r ∈ records p /\ bytes_le start (key r) /\ bytes_lt (key r) end_.
Proof.
  intros Hs. destruct (range_split p start end_ Hs) as (pre & post & E & Hpre & Hmid & Hpost).
  split.
  - intros Hr. rewrite Forall_forall in Hmid. split; [|by apply Hmid].
    rewrite E. set_solver.
  - intros (Hr & Hle & Hlt). rewrite E in Hr.
    rewrite Forall_forall in Hpre, Hpost.
    apply elem_of_app in Hr as [Hr|[Hr|Hr]%elem_of_app]; [exfalso|done|exfalso].
    + eapply bytes_lt_irrefl, bytes_lt_le_trans; [by apply Hpre|exact Hle].
    + eapply bytes_lt_irrefl, bytes_lt_le_trans; [exact Hlt|by apply Hpost].
Qed.

(** Building the filter touches nothing else, and does not panic for a page whose
    filter the address space can hold. *)
Definition bloom_fits (ln : f64 -> f64) (n : nat) : Prop :=
  bloom_m ln (Z.of_nat (Nat.max n 16)) (f64_lit 1 100) <= 2 ^ 64 - 64.

Lemma build_bloom_ok ln p : bloom_fits ln (length (records p)) ->
  exists bf, build_bloom ln p = Ok {| records := records p; level := level p; bloom := bf |}.
Proof.
  intros Hfit. unfold build_bloom. destruct p as [rs lv bl]. cbn [records level bloom] in *.
  destruct rs as [|r0 rs0]; [by exists bl|]. set (rs := r0 :: rs0) in *.
  destruct (bloom_new_wf ln (Z.of_nat (Nat.max (length rs) 16)) (f64_lit 1 100) Hfit) as [Hwf _].
  assert (forall l bf, bloom_wf bf -> exists bf', foldl (fun acc r => bf ← acc; if tombstone r then Ok bf else Bloom.add bf (key r))
    (Ok bf) l = Ok bf' /\ bloom_wf bf') as Hfold.
  { induction l as [|r l IH]; intros bf Hbf; [by exists bf|]. cbn [foldl mbind res_bind].
    destruct (tombstone r); [by apply IH|]. destruct (add_spec bf (key r) Hbf) as (bf1 & E & Hbf1 & _).
    rewrite E. by apply IH. }
  destruct (Hfold rs _ Hwf) as (bf & E & _). rewrite E. by exists (Some bf).
Qed.

(** ** Round trip *)
Definition rec_fits (r : PageRecord) : Prop :=
  Z.of_nat (length (key r)) < 2 ^ 16 /\ Z.of_nat (length (value r)) < 2 ^ 32.

Lemma length_encode_record r :
  length (encode_record r) = (11 + length (key r) + length (value r))%nat.
Proof. unfold encode_record. rewrite !length_app, !length_be_bytes. cbn. lia. Qed.

Lemma parse_record_encode r rest : rec_fits r -> parse_record (encode_record r ++ rest) = PRec r rest.
Proof.
  destruct r as [k v t]. intros [Hk Hv]; cbn [key value] in Hk, Hv.
  unfold encode_record, parse_record. cbn [key value tombstone].
  rewrite (wrap_small 16), (wrap_small 32) by lia.
  assert (length RECORD_MAGIC = 4%nat) as Hm by done.
  rewrite <- !app_assoc, !length_app, !length_be_bytes, Hm.
  rewrite (proj2 (Nat.ltb_ge _ _)) by lia.
  rewrite take_app_length', drop_app_length' by done.
  rewrite bool_decide_eq_true_2 by done. cbn [negb].
  rewrite !length_app, !length_be_bytes, (proj2 (Nat.ltb_ge _ _)) by lia.
  assert (forall tl, slice (be_bytes 2 (Z.of_nat (length k)) ++ be_bytes 4 (Z.of_nat (length v)) ++ tl) 0 2
            = be_bytes 2 (Z.of_nat (length k))) as ->.
  { intros tl. rewrite slice_app_l by (by rewrite length_be_bytes). apply slice_full. by rewrite length_be_bytes. }
  assert (forall tl, slice (be_bytes 2 (Z.of_nat (length k)) ++ be_bytes 4 (Z.of_nat (length v)) ++ tl) 2 6
            = be_bytes 4 (Z.of_nat (length v))) as ->.
  { intros tl. rewrite slice_app_r by (by rewrite length_be_bytes). rewrite length_be_bytes.
    rewrite slice_app_l by (by rewrite length_be_bytes). apply slice_full. by rewrite length_be_bytes. }
  rewrite !be_val_be_bytes. change (256 ^ Z.of_nat 2) with (2 ^ 16). change (256 ^ Z.of_nat 4) with (2 ^ 32).
  rewrite !Z.mod_small, !Nat2Z.id by lia.
  rewrite app_assoc, drop_app_length' by (by rewrite length_app, !length_be_bytes).
  rewrite !length_app. cbn [length].
  rewrite (proj2 (Nat.ltb_ge _ _)) by lia.
  rewrite take_app_length, drop_app_length, take_app_length, drop_app_length. cbn [app].
  by destruct t.
Qed.

Lemma parse_loop_encode rs fuel : Forall rec_fits rs -> (length (encode_body rs) < fuel)%nat ->
  parse_loop fuel (encode_body rs) = Ok rs.
Proof.
  intros Hrs. revert fuel. induction Hrs as [|r rs Hr Hrs IH]; intros [|fuel] Hf; try (cbn in Hf; lia); [done|].
  cbn [encode_body] in *. rewrite length_app, length_encode_record in Hf. cbn [parse_loop].
  destruct (encode_record r ++ encode_body rs) eqn:E.
  { apply (f_equal length) in E. rewrite length_app, length_encode_record in E. cbn in E. lia. }
  rewrite <- E, parse_record_encode by done. rewrite IH by lia. done.
Qed.

Section roundtrip.
Context (deflate : bytes -> bytes) (inflate : bytes -> option bytes).
Context (inflate_deflate : forall b, inflate (deflate b) = Some b).

Lemma slice_header (a b c d e tl : bytes) :
  length a = 4%nat -> length b = 1%nat -> length c = 4%nat -> length d = 4%nat -> length e = 4%nat ->
  let data := a ++ b ++ c ++ d ++ e ++ tl in
  take 4 data = a /\ slice data 5 9 = c /\ slice data 9 13 = d /\ slice data 13 17 = e /\
  forall n, slice data 17 (17 + n) = take n tl.
Proof.
  intros Ha Hb Hc Hd He data. unfold data. split_and!.
  - by apply take_app_length'.
  - rewrite slice_app_r, slice_app_r, Ha, Hb, slice_app_l by lia. apply slice_full. by rewrite Hc.
  - rewrite !slice_app_r, Ha, Hb, Hc, slice_app_l by lia. apply slice_full. by rewrite Hd.
  - rewrite !slice_app_r, Ha, Hb, Hc, Hd, slice_app_l by lia. apply slice_full. by rewrite He.
  - intros n. rewrite !slice_app_r by lia. rewrite Ha, Hb, Hc, Hd, He.
    unfold slice. rewrite !Nat.sub_0_r. cbn -[Nat.sub]. f_equal. lia.
Qed.

(** The sizes the header fields can hold. *)
Record page_fits (p : Page) : Prop := {
  fits_records : Forall rec_fits (records p);
  fits_count : Z.of_nat (length (records p)) < 2 ^ 32;
  fits_body : Z.of_nat (length (encode_body (records p))) < 2 ^ 32;
  fits_compressed : Z.of_nat (length (deflate (encode_body (records p)))) < 2 ^ 32
}.

Lemma page_deserialize_serialize p : page_fits p ->
  deserialize inflate (serialize deflate p) = Ok {| records := records p; level := 0; bloom := None |}.
Proof.
  intros [Hfit Hcount Hbody Hcomp]. unfold serialize.
  set (body := encode_body (records p)) in *.
  rewrite !(wrap_small 32) by lia.
  set (stored := if _ <? _ then (_, _) else (_, _)).
  assert (exists st n, stored = (st, Z.of_nat n) /\ length st = n /\ Z.of_nat n < 2 ^ 32 /\
    (if (Z.of_nat n <? Z.of_nat (length body)) then ok_or (inflate st) (str "deflate error") else Ok st) = Ok body)
    as (st & n & -> & Hst & Hn & Hb).
  { unfold stored. destruct (Z.ltb_spec (Z.of_nat (length (deflate body))) (Z.of_nat (length body))).
    - eexists _, _. split_and!; [done|done|done|].
      rewrite (proj2 (Z.ltb_lt _ _)) by done. by rewrite inflate_deflate.
    - eexists _, _. split_and!; [done|done|done|]. by rewrite Z.ltb_irrefl. }
  unfold deserialize.
  destruct (slice_header PAGE_MAGIC [PAGE_VERSION] (be_bytes 4 (Z.of_nat (length (records p))))
    (be_bytes 4 (Z.of_nat (length body))) (be_bytes 4 (Z.of_nat n)) st) as (E1 & E2 & E3 & E4 & E5);
    [done|done|by rewrite length_be_bytes..|].
  rewrite E1, E2, E3, E4, E5. rewrite !length_app, !length_be_bytes.
  rewrite !be_val_be_bytes. change (256 ^ Z.of_nat 4) with (2 ^ 32).
  rewrite !Z.mod_small, !Nat2Z.id by lia.
  change (length PAGE_MAGIC) with 4%nat. change (length [PAGE_VERSION]) with 1%nat.
  rewrite !(proj2 (Nat.ltb_ge _ _)) by lia. rewrite bool_decide_eq_true_2 by done. cbn [negb].
  rewrite take_ge by lia. rewrite Hb. cbn [mbind res_bind].
  unfold body. rewrite parse_loop_encode by (done || lia). cbn [mbind res_bind].
  by rewrite Nat.eqb_refl.
Qed.

(** a page whose keys are below 64 KiB, whose values, body and compressed body are
    below 4 GiB, survives the disk: serializing and deserializing returns its
    records in order (the level is set by the caller and the Bloom filter is
    not stored), whether or not compression was worth it. *)
Theorem page_roundtrip p : page_fits p ->
  deserialize inflate (serialize deflate p) = Ok {| records := records p; level := 0; bloom := None |}.
Proof. apply page_deserialize_serialize. Qed.
End roundtrip.

(** on a sorted page, [get] returns exactly the values of the live records and
    [range] exactly the records, tombstones included, whose keys lie in the
    half-open interval, in ascending order. *)
Theorem page_lookup_exact p : sorted_page p ->
  (forall k v, get p k = Some v <-> exists r, r ∈ records p /\ key r = k /\ tombstone r = false /\ value r = v) /\
  (forall start end_, keys_sorted (key <$> range p start end_) /\
    forall r, r ∈ range p start end_ <-> r ∈ records p /\ bytes_le start (key r) /\ bytes_lt (key r) end_).
Proof.
  intros Hs. split.
  - intros k v. rewrite page_get_spec by done.
    transitivity (rec_map (records p) !! k = Some (Some v)); [destruct (_ !! k) as [[]|]; naive_solver|].
    rewrite rec_map_lookup by (by apply keys_sorted_nodup).
    unfold rec_val. split; intros (r & ? & ? & H); exists r; destruct (tombstone r); naive_solver.
  - intros start end_. split; [by apply range_keys_sorted|]. intros r. by apply elem_of_range.
Qed.

Definition sample_page : Page :=
  sort (push (push (new 0) (str "dead") [] true) (str "alive") (str "yes") false).

Lemma page_lookup_exact_witness : get sample_page (str "alive") = Some (str "yes") /\ get sample_page (str "dead") = None.
Proof.
  split; [|by vm_compute].
  apply (page_lookup_exact sample_page); [|].
  { apply (bool_decide_unpack (keys_sorted (key <$> records sample_page))). by vm_compute. }
  exists (mkRec (str "alive") (str "yes") false). split_and!; [|done..]. left.
Defined.

Lemma page_roundtrip_witness :
  deserialize Some (serialize (fun b => b) sample_page) =
  Ok {| records := records sample_page; level := 0; bloom := None |}.
Proof.
  apply (page_roundtrip (fun b => b) Some); [done|]. split; [|by vm_compute..].
  repeat constructor; by vm_compute.
Defined.

(** A key of 65536 bytes is stored with length zero: the page cannot be read back. *)
Example page_long_key_lost :
  deserialize Some (serialize (fun b => b) (push (new 0) (replicate (Z.to_nat 65536) x61) [] false)) =
  Err (str "bad record magic").
Proof. by vm_compute. Qed.

(** A page file that lost a record is not an error but a failed assertion. *)
Example page_count_mismatch_panics :
  deserialize Some (PAGE_MAGIC ++ [PAGE_VERSION] ++ be_bytes 4 1 ++ be_bytes 4 0 ++ be_bytes 4 0) = Panic.
Proof. by vm_compute. Qed.
