(* ===== verification/PageStore.v ===== *)
(** * Page files ([src/storage/page_store.rs])

    The directory [data_dir/pages] is a finite map from file names to contents.
    [read_dir] lists it in an order of the operating system's choosing, which is
    a parameter; a save is the sequence of file operations it performs, so that
    it can be cut short. *)

From S2P Require Import Prelude Ordered Text Bloom Page.
Local Open Scope Z_scope.

Definition PAGE_EXT : bytes := str "ulpg".

(** ** File names *)

(** The last dot of a name splits stem and extension. *)
Fixpoint rsplit_dot (s : bytes) : option (bytes * bytes) :=
  match s with
  | [] => None
  | b :: s' =>
      match rsplit_dot s' with
      | Some (x, y) => Some (b :: x, y)
      | None => if bool_decide (b = x2e) then Some ([], s') else None
      end
  end.

(** [Path::extension] and [Path::file_stem] of a file name. *)
Definition extension (name : bytes) : option bytes :=
  if bool_decide (name = str "..") then None
  else match rsplit_dot name with Some (_ :: _, e) => Some e | _ => None end.

Definition file_stem (name : bytes) : bytes :=
  if bool_decide (name = str "..") then name
  else match rsplit_dot name with Some ((_ :: _) as s, _) => s | _ => name end.

Definition is_page_file (name : bytes) : bool := bool_decide (extension name = Some PAGE_EXT).

(** [format!("l{}_{:04}.{}", level, index, PAGE_EXT)] *)
Definition page_stem (level index : nat) : bytes :=
  x6c :: dec (Z.of_nat level) ++ x5f :: zero_pad 4 (dec (Z.of_nat index)).
Definition page_filename (level index : nat) : bytes := page_stem level index ++ x2e :: PAGE_EXT.

(** [str::find] of a one-byte character, as the two sides of its first occurrence. *)
Fixpoint split_first (c : byte) (s : bytes) : option (bytes * bytes) :=
  match s with
  | [] => None
  | b :: s' => if bool_decide (b = c) then Some ([], s')
               else '(x, y) ← split_first c s'; Some (b :: x, y)
  end.

(** The names it accepts are ASCII, so that skipping a name that is not UTF-8
    and failing to parse it are the same. *)
Definition parse_page_filename (name : bytes) : option (Z * Z) :=
  match name with
  | [] => None
  | c :: rest =>
      if negb (bool_decide (c = x6c)) then None
      else
        '(l, i) ← split_first x5f rest;
        level ← parse_usize l;
        index ← parse_usize i;
        Some (level, index)
  end.

(** ** Saving *)
Abbreviation fs := (gmap bytes bytes).

Inductive fs_op :=
  | Remove (name : bytes)
  | Write (name data : bytes).

Definition apply_op (d : fs) (op : fs_op) : fs :=
  match op with
  | Remove n => base.delete n d
  | Write n c => <[n := c]> d
  end.

Section store.
Context (deflate : bytes -> bytes) (inflate : bytes -> option bytes).
Context (read_dir : fs -> list bytes).

Definition clear_ops (d : fs) : list fs_op :=
  Remove <$> filter (fun n => is_page_file n = true) (read_dir d).

Definition write_level (level : nat) (pages : list Page) : list fs_op :=
  imap (fun index page => Write (page_filename level index) (serialize deflate page)) pages.

Definition save_ops (d : fs) (levels : list (list Page)) : list fs_op :=
  clear_ops d ++ concat (imap write_level levels).

(** [save_all] when every file operation succeeds, and when only the first [n]
    take effect: the error (or the crash) leaves what they did. *)
Definition save_all (d : fs) (levels : list (list Page)) : fs := foldl apply_op d (save_ops d levels).

Definition save_all_cut (n : nat) (d : fs) (levels : list (list Page)) : fs * bool :=
  (foldl apply_op d (take n (save_ops d levels)), bool_decide (length (save_ops d levels) <= n)%nat).

Definition file_count (d : fs) : nat := length (filter (fun n => is_page_file n = true) (read_dir d)).

(** ** Loading *)

(** One directory entry: its level, index and page, or skipped. *)
Definition load_file (d : fs) (name : bytes) : res bytes (option (nat * (Z * Page))) :=
  match parse_page_filename (file_stem name) with
  | None => Ok None
  | Some (lvl, index) =>
      if 2 <? lvl then Ok None
      else match d !! name with
           | None => Ok None
           | Some data =>
               match deserialize inflate data with
               | Ok page =>
                   Ok (Some (Z.to_nat lvl, (index, {| records := records page; level := lvl; bloom := bloom page |})))
               | Err _ => Ok None
               | Panic => Panic
               end
           end
  end.

Definition load_entry (d : fs) (acc : res bytes (list (list (Z * Page)))) (name : bytes)
    : res bytes (list (list (Z * Page))) :=
  levels ← acc;
  o ← load_file d name;
  Ok match o with
     | Some (lvl, x) => alter (fun l => l ++ [x]) lvl levels
     | None => levels
     end.

Definition index_leb (a b : Z * Page) : bool := a.1 <=? b.1.

Definition load_all (d : fs) : res bytes (list (list Page)) :=
  let entries := stable_sort bytes_leb (filter (fun n => is_page_file n = true) (read_dir d)) in
  let loaded : res bytes (list (list (Z * Page))) := foldl (load_entry d) (Ok [[]; []; []]) entries in
  levels ← loaded;
  Ok (map (fun l => map snd (stable_sort index_leb l)) levels).
End store.

(** ** File names are read back *)
Lemma rsplit_dot_app s e : x2e ∉ e -> rsplit_dot (s ++ x2e :: e) = Some (s, e).
Proof.
  intros He. induction s as [|b s IH]; cbn [app rsplit_dot].
  - assert (rsplit_dot e = None) as ->; [|by rewrite bool_decide_eq_true_2].
    induction e as [|b e IH]; cbn [rsplit_dot]; [done|].
    apply not_elem_of_cons in He as [Hb He]. rewrite IH by done.
    by rewrite bool_decide_eq_false_2.
  - by rewrite IH.
Qed.

Lemma page_filename_neq level index : page_filename level index <> str "..".
Proof. done. Qed.

Lemma rsplit_page_filename level index :
  rsplit_dot (page_filename level index) = Some (page_stem level index, PAGE_EXT).
Proof. unfold page_filename. apply rsplit_dot_app. by apply (bool_decide_unpack (x2e ∉ PAGE_EXT)). Qed.

Lemma is_page_filename level index : is_page_file (page_filename level index) = true.
Proof.
  unfold is_page_file, extension. rewrite (bool_decide_eq_false_2 (_ = str "..")) by apply page_filename_neq.
  rewrite rsplit_page_filename. by apply bool_decide_eq_true_2.
Qed.

Lemma file_stem_page_filename level index : file_stem (page_filename level index) = page_stem level index.
Proof.
  unfold file_stem. rewrite (bool_decide_eq_false_2 (_ = str "..")) by apply page_filename_neq.
  by rewrite rsplit_page_filename.
Qed.

Lemma split_first_app c s s' : c ∉ s -> split_first c (s ++ c :: s') = Some (s, s').
Proof.
  induction s as [|b s IH]; intros Hc; cbn [app split_first]; [by rewrite bool_decide_eq_true_2|].
  apply not_elem_of_cons in Hc as [Hb Hc]. rewrite bool_decide_eq_false_2 by done. by rewrite IH.
Qed.

Lemma parse_page_stem level index :
  Z.of_nat level <= u64_max -> Z.of_nat index <= u64_max ->
  parse_page_filename (page_stem level index) = Some (Z.of_nat level, Z.of_nat index).
Proof.
  intros Hl Hi. unfold page_stem, parse_page_filename. rewrite bool_decide_eq_true_2 by done. cbn [negb].
  rewrite split_first_app.
  - cbn [mbind option_bind]. rewrite parse_dec by lia. cbn [mbind option_bind].
    by rewrite parse_padded by lia.
  - intros Hin. pose proof (dec_loop_digits 20 (Z.of_nat level) ltac:(lia)) as Hd.
    rewrite Forall_forall in Hd. specialize (Hd _ Hin) as [_ Hd]. by apply Hd.
Qed.

Lemma page_filename_inj l i l' i' :
  Z.of_nat l <= u64_max -> Z.of_nat i <= u64_max -> Z.of_nat l' <= u64_max -> Z.of_nat i' <= u64_max ->
  page_filename l i = page_filename l' i' -> l = l' /\ i = i'.
Proof.
  intros ? ? ? ? E. apply (f_equal file_stem) in E. rewrite !file_stem_page_filename in E.
  apply (f_equal parse_page_filename) in E. rewrite !parse_page_stem in E by done.
  injection E. lia.
Qed.

(** ** Saving and loading again *)

(** The pages of one level with their level and index. *)
Definition level_entries {A} (l : nat) (ps : list A) : list (nat * (nat * A)) := imap (fun i p => (l, (i, p))) ps.

Lemma elem_of_level_entries {A} l (ps : list A) e :
  e ∈ level_entries l ps <-> e.1 = l /\ ps !! e.2.1 = Some e.2.2.
Proof.
  unfold level_entries. rewrite elem_of_lookup_imap. destruct e as (l' & i & p). cbn.
  split; [intros (j & q & [= -> -> ->] & Hj); done|]. intros [-> H]. by exists i, p.
Qed.

Lemma level_entries_nodup {A} l (ps : list A) : NoDup (level_entries l ps).
Proof.
  apply NoDup_alt. intros i j e Hi Hj. unfold level_entries in *. rewrite list_lookup_imap in Hi, Hj.
  apply fmap_Some in Hi as (p & _ & ->). apply fmap_Some in Hj as (q & _ & [=]). done.
Qed.

Lemma filter_level_entries {A} (l l' : nat) (ps : list A) :
  filter (fun e => e.1 = l) (level_entries l' ps) = if decide (l' = l) then level_entries l' ps else [].
Proof.
  destruct (decide (l' = l)) as [->|Hne].
  - apply filter_all, Forall_forall. intros e He%elem_of_level_entries. tauto.
  - apply filter_none, Forall_forall. intros e He%elem_of_level_entries. naive_solver.
Qed.

Lemma apply_removes_lookup (ns : list bytes) (d : fs) (n : bytes) :
  foldl apply_op d (Remove <$> ns) !! n = if bool_decide (n ∈ ns) then None else d !! n.
Proof.
  revert d. induction ns as [|m ns IH]; intros d; [done|]. cbn [fmap list_fmap foldl apply_op]. rewrite IH.
  case_bool_decide; case_bool_decide; try done; [set_solver|..].
  - assert (n = m) as -> by set_solver. apply lookup_delete_eq.
  - apply lookup_delete_ne. set_solver.
Qed.

Lemma apply_writes_lookup (w : list (bytes * bytes)) (d : fs) (n : bytes) : NoDup w.*1 ->
  foldl apply_op d ((fun nc => Write nc.1 nc.2) <$> w) !! n =
  match (list_to_map w : gmap bytes bytes) !! n with Some c => Some c | None => d !! n end.
Proof.
  revert d. induction w as [|[m c] w IH]; intros d Hnd; [done|].
  csimpl in Hnd. apply NoDup_cons in Hnd as [Hni Hnd].
  cbn [fmap list_fmap foldl apply_op fst snd]. rewrite IH, list_to_map_cons, !lookup_insert by done.
  destruct (decide (m = n)) as [<-|]; [|done]. by rewrite not_elem_of_list_to_map_1.
Qed.

(** Sorting entries with distinct indices by index. *)
Lemma sort_by_index (l l' : list (Z * Page)) :
  l ≡ₚ l' -> StronglySorted (fun a b => a.1 < b.1) l' -> stable_sort index_leb l = l'.
Proof.
  intros Hp Hs. apply (StronglySorted_unique_strong (fun a b => index_leb a b = true)).
  - intros x y Hx Hy Hxy Hyx. unfold index_leb in *. rewrite !Z.leb_le in *.
    rewrite stable_sort_perm, Hp in Hx. rename Hy into Hy'.
    clear Hp. induction Hs as [|z l' Hs IH Hz]; [by apply not_elem_of_nil in Hx|].
    rewrite Forall_forall in Hz. apply elem_of_cons in Hx as [->|Hx]; apply elem_of_cons in Hy' as [->|Hy]; auto.
    + specialize (Hz _ Hy). cbn in Hz. lia.
    + specialize (Hz _ Hx). cbn in Hz. lia.
  - apply stable_sort_sorted; unfold index_leb; intros *; rewrite ?Z.leb_le, ?Z.leb_gt; lia.
  - clear Hp. induction Hs as [|z l' Hs IH Hz]; constructor; [done|].
    eapply Forall_impl; [exact Hz|]. intros x Hx. cbn in Hx. apply Z.leb_le. lia.
  - by rewrite stable_sort_perm.
Qed.

Section reload.
Context (deflate : bytes -> bytes) (inflate : bytes -> option bytes).
Context (inflate_deflate : forall b, inflate (deflate b) = Some b).
Context (read_dir : fs -> list bytes).
Context (read_dir_spec : forall (d : fs) n, n ∈ read_dir d <-> is_Some (d !! n)).
Context (read_dir_nodup : forall d, NoDup (read_dir d)).
Implicit Types (d : fs) (n : bytes).

Definition saved_entries (a b c : list Page) : list (nat * (nat * Page)) :=
  level_entries 0 a ++ level_entries 1 b ++ level_entries 2 c.

Definition entry_file (e : nat * (nat * Page)) : bytes * bytes :=
  (page_filename e.1 e.2.1, serialize deflate e.2.2).

(** Fewer pages per level than a [u64] index can count. *)
Definition countable_level (ps : list Page) : Prop := Z.of_nat (length ps) <= u64_max.

Context (a b c : list Page).
Context (Ha : countable_level a) (Hb : countable_level b) (Hc : countable_level c).

Lemma saved_entry_bounds e : e ∈ saved_entries a b c ->
  (e.1 <= 2)%nat /\ Z.of_nat e.1 <= u64_max /\ Z.of_nat e.2.1 <= u64_max /\ e.2.2 ∈ a ++ b ++ c.
Proof.
  unfold saved_entries, countable_level in *. rewrite !elem_of_app, !elem_of_level_entries.
  assert (2 <= u64_max) by (unfold u64_max; lia).
  intros [[-> Hl]|[[-> Hl]|[-> Hl]]]; pose proof (lookup_lt_Some _ _ _ Hl);
    apply list_elem_of_lookup_2 in Hl; split_and!; try lia; tauto.
Qed.

Lemma saved_entry_inj e e' : e ∈ saved_entries a b c -> e' ∈ saved_entries a b c ->
  page_filename e.1 e.2.1 = page_filename e'.1 e'.2.1 -> e = e'.
Proof.
  intros He He' E. pose proof (saved_entry_bounds e He) as (_ & ? & ? & _).
  pose proof (saved_entry_bounds e' He') as (_ & ? & ? & _).
  apply page_filename_inj in E as [E1 E2]; [|done..].
  destruct e as (l & i & p), e' as (l' & i' & p'); cbn in *. subst l' i'. do 2 f_equal.
  unfold saved_entries in *. rewrite !elem_of_app, !elem_of_level_entries in He, He'. cbn in *.
  destruct He as [[-> ?]|[[-> ?]|[-> ?]]], He' as [[? ?]|[[? ?]|[? ?]]]; congruence.
Qed.

Lemma saved_entries_nodup : NoDup (saved_entries a b c).
Proof.
  unfold saved_entries. rewrite !NoDup_app. split_and!; try apply level_entries_nodup;
    intros e; rewrite ?elem_of_app, !elem_of_level_entries; intros [-> _]; intuition lia.
Qed.

Lemma saved_names_nodup : NoDup (entry_file <$> saved_entries a b c).*1.
Proof.
  rewrite <- list_fmap_compose. apply NoDup_fmap_2_strong; [|apply saved_entries_nodup].
  intros e e' He He' E. by apply saved_entry_inj.
Qed.

Lemma save_ops_split d : save_ops deflate read_dir d [a; b; c] =
  clear_ops read_dir d ++ ((fun nc => Write nc.1 nc.2) <$> (entry_file <$> saved_entries a b c)).
Proof.
  unfold save_ops, saved_entries, level_entries. cbn [imap concat]. f_equal.
  rewrite !fmap_app, !fmap_imap. rewrite app_nil_r. unfold write_level. cbn. done.
Qed.

(** A completed save leaves the new page files and the files that are not pages. *)
Lemma save_all_lookup d n : save_all deflate read_dir d [a; b; c] !! n =
  match (list_to_map (entry_file <$> saved_entries a b c) : gmap bytes bytes) !! n with
  | Some x => Some x
  | None => if is_page_file n then None else d !! n
  end.
Proof.
  unfold save_all. rewrite save_ops_split, foldl_app, apply_writes_lookup by apply saved_names_nodup.
  destruct (list_to_map _ !! n); [done|]. unfold clear_ops. rewrite apply_removes_lookup.
  case_bool_decide as Hin; rewrite list_elem_of_filter in Hin.
  - by destruct Hin as [-> _].
  - destruct (is_page_file n); [|done]. destruct (d !! n) eqn:E; [|done].
    destruct Hin. rewrite read_dir_spec. by rewrite E.
Qed.

Lemma saved_page_files d :
  filter (fun n => is_page_file n = true) (read_dir (save_all deflate read_dir d [a; b; c]))
  ≡ₚ (entry_file <$> saved_entries a b c).*1.
Proof.
  apply NoDup_Permutation; [apply NoDup_filter, read_dir_nodup|apply saved_names_nodup|].
  intros n. rewrite list_elem_of_filter, read_dir_spec, save_all_lookup.
  split.
  - intros [Hn H]. rewrite Hn in H. destruct (list_to_map _ !! n) eqn:E; [|by destruct H].
    apply elem_of_list_to_map_2 in E. by apply (list_elem_of_fmap_2 fst) in E.
  - intros H. split.
    + rewrite <- list_fmap_compose in H. apply list_elem_of_fmap in H as (e & -> & _). apply is_page_filename.
    + destruct (list_to_map (M := gmap bytes bytes) _ !! n) eqn:E; [done|].
      by apply not_elem_of_list_to_map in E.
Qed.

(** A page as [load_all] returns it. *)
Definition reload (l : nat) (p : Page) : Page :=
  {| records := records p; level := Z.of_nat l; bloom := None |}.

Definition loaded_entry (e : nat * (nat * Page)) : Z * Page := (Z.of_nat e.2.1, reload e.1 e.2.2).

Context (Hfits : Forall (page_fits deflate) (a ++ b ++ c)).

Lemma load_saved_file d e : e ∈ saved_entries a b c ->
  load_file inflate (save_all deflate read_dir d [a; b; c]) (page_filename e.1 e.2.1) =
  Ok (Some (e.1, loaded_entry e)).
Proof.
  intros He. pose proof (saved_entry_bounds e He) as (Hl & Hl' & Hi & Hp).
  unfold load_file. rewrite file_stem_page_filename, parse_page_stem by done.
  rewrite (proj2 (Z.ltb_ge _ _)) by lia. rewrite save_all_lookup.
  assert ((list_to_map (entry_file <$> saved_entries a b c) : gmap bytes bytes) !! page_filename e.1 e.2.1
    = Some (serialize deflate e.2.2)) as ->.
  { apply elem_of_list_to_map_1; [apply saved_names_nodup|].
    apply list_elem_of_fmap. by exists e. }
  rewrite Forall_forall in Hfits. rewrite page_deserialize_serialize by auto. by rewrite Nat2Z.id.
Qed.

Definition pick (l : nat) (es : list (nat * (nat * Page))) : list (Z * Page) :=
  loaded_entry <$> filter (fun e => e.1 = l) es.

Lemma load_saved_entries d es x y z : (forall e, e ∈ es -> e ∈ saved_entries a b c) ->
  foldl (load_entry inflate (save_all deflate read_dir d [a; b; c])) (Ok [x; y; z])
    ((fun e => page_filename e.1 e.2.1) <$> es) = Ok [x ++ pick 0 es; y ++ pick 1 es; z ++ pick 2 es].
Proof.
  revert x y z. induction es as [|e es IH]; intros x y z Hes.
  { cbn. by rewrite !app_nil_r. }
  cbn [fmap list_fmap foldl]. assert (e ∈ saved_entries a b c) as He by (apply Hes; left).
  unfold load_entry at 2. cbn [mbind res_bind]. rewrite load_saved_file by done. cbn [mbind res_bind].
  pose proof (saved_entry_bounds e He) as (Hl & _).
  assert (forall x y z, foldl (load_entry inflate (save_all deflate read_dir d [a; b; c])) (Ok [x; y; z])
    ((fun e => page_filename e.1 e.2.1) <$> es) = Ok [x ++ pick 0 es; y ++ pick 1 es; z ++ pick 2 es]) as IH'.
  { intros. apply IH. intros e' He'. apply Hes. by right. }
  unfold pick in *. destruct (e.1) as [|[|[|n]]] eqn:E; [..|lia]; cbn [alter list_alter]; rewrite IH';
    cbn [filter list_filter]; rewrite E; repeat case_decide; try lia; cbn; by rewrite <- app_assoc.
Qed.

Lemma pick_saved l : pick l (saved_entries a b c) =
  match l with 0 => loaded_entry <$> level_entries 0 a | 1 => loaded_entry <$> level_entries 1 b
             | 2 => loaded_entry <$> level_entries 2 c | _ => [] end%nat.
Proof.
  unfold pick, saved_entries. rewrite !filter_app, !filter_level_entries.
  destruct l as [|[|[|l]]]; cbn; by rewrite ?app_nil_r.
Qed.

Lemma level_entries_sorted l k (ps : list Page) :
  StronglySorted (fun x y => x.1 < y.1) (imap (fun i p => (Z.of_nat (k + i), reload l p)) ps).
Proof.
  revert k. induction ps as [|p ps IH]; intros k; [constructor|]. rewrite imap_cons. constructor.
  - rewrite (imap_ext _ (fun i p => (Z.of_nat (S k + i), reload l p))); [apply IH|].
    intros i q _. cbn. f_equal. lia.
  - apply Forall_forall. intros x Hx. apply elem_of_lookup_imap in Hx as (i & q & -> & _). cbn. lia.
Qed.

Lemma sort_picked l ps es : es ≡ₚ saved_entries a b c ->
  pick l (saved_entries a b c) = loaded_entry <$> level_entries l ps ->
  map snd (stable_sort index_leb (pick l es)) = reload l <$> ps.
Proof.
  intros Hes Hl. rewrite (sort_by_index _ (loaded_entry <$> level_entries l ps)).
  - change (snd <$> (loaded_entry <$> level_entries l ps) = reload l <$> ps). unfold level_entries.
    apply list_eq. intros i. rewrite !list_lookup_fmap, list_lookup_imap. by destruct (ps !! i).
  - rewrite <- Hl. unfold pick. by rewrite Hes.
  - unfold level_entries. rewrite fmap_imap. apply (level_entries_sorted l 0).
Qed.

Lemma load_saved d :
  load_all inflate read_dir (save_all deflate read_dir d [a; b; c]) =
  Ok [reload 0 <$> a; reload 1 <$> b; reload 2 <$> c].
Proof.
  unfold load_all. cbv zeta.
  set (saved := save_all deflate read_dir d [a; b; c]).
  assert (stable_sort bytes_leb (filter (fun n => is_page_file n = true) (read_dir saved)) ≡ₚ
    map (fun e => page_filename e.1 e.2.1) (saved_entries a b c)) as Hp.
  { unfold saved. rewrite stable_sort_perm, saved_page_files.
    by rewrite <- list_fmap_compose. }
  apply Permutation_map_inv in Hp as (es & -> & Hes).
  change (map ?f es) with (f <$> es). unfold saved. rewrite load_saved_entries.
  2: { intros e. by rewrite Hes. }
  cbn [mbind res_bind map app]. do 2 f_equal; [|f_equal; [|f_equal]]; apply sort_picked;
    first [done | apply pick_saved].
Qed.

(** C21: saving the three levels over whatever the directory holds and loading it
    again returns the same pages in the same levels and the same order, whatever
    order the directory lists its files in: every record survives, the level comes
    from the file name, and no stale page file is picked up. *)
Theorem save_all_load_all d :
  load_all inflate read_dir (save_all deflate read_dir d [a; b; c]) =
  Ok [reload 0 <$> a; reload 1 <$> b; reload 2 <$> c].
Proof. apply load_saved. Qed.
End reload.

(** a save that stops between deleting the old page files and writing the
    first new one leaves no page at all: the replacement is not atomic. *)
Theorem save_all_interrupted (deflate : bytes -> bytes) (inflate : bytes -> option bytes) (read_dir : fs -> list bytes) (d : fs) (levels : list (list Page)) :
  (forall (d : fs) (n : bytes), n ∈ read_dir d <-> is_Some (d !! n)) ->
  load_all inflate read_dir (save_all_cut deflate read_dir (length (clear_ops read_dir d)) d levels).1
  = Ok [[]; []; []].
Proof.
  intros Hspec. unfold save_all_cut, save_ops. cbn [fst]. rewrite take_app_length.
  unfold load_all. rewrite (filter_none _ (read_dir _)); [done|]. apply Forall_forall. intros n Hn Hpage.
  rewrite Hspec in Hn. unfold clear_ops in Hn. rewrite apply_removes_lookup in Hn.
  case_bool_decide as Hin; [by destruct Hn|]. destruct Hin. apply list_elem_of_filter.
  split; [done|]. by apply Hspec.
Qed.

(** ** Witnesses *)
Definition list_names (d : fs) : list bytes := (map_to_list d).*1.

Lemma list_names_spec (d : fs) (n : bytes) : n ∈ list_names d <-> is_Some (d !! n).
Proof.
  unfold list_names. rewrite list_elem_of_fmap. split.
  - intros ([k v] & -> & H%elem_of_map_to_list). by exists v.
  - intros [v H]. exists (n, v). by rewrite elem_of_map_to_list.
Qed.

Lemma list_names_nodup (d : fs) : NoDup (list_names d).
Proof. apply NoDup_fst_map_to_list. Qed.

Definition old_files : fs :=
  {[ str "l0_0000.ulpg" := str "stale"; str "l1_0007.ulpg" := str "stale"; str "notes.txt" := str "kept" ]}.

Lemma save_all_load_all_witness :
  load_all Some list_names (save_all (fun b => b) list_names old_files [[sample_page; sample_page]; []; [sample_page]])
  = Ok [[reload 0 sample_page; reload 0 sample_page]; []; [reload 2 sample_page]].
Proof.
  apply (save_all_load_all (fun b => b) Some (fun _ => eq_refl) list_names list_names_spec list_names_nodup);
    [unfold countable_level, u64_max; cbn; lia..|].
  assert (page_fits (fun b => b) sample_page) as H.
  { split; [|by vm_compute..]. repeat constructor; by vm_compute. }
  cbn [app]. by rewrite !Forall_cons.
Defined.

Lemma save_all_interrupted_witness :
  load_all Some list_names (save_all_cut (fun b => b) list_names
    (length (clear_ops list_names old_files)) old_files [[sample_page]; []; []]).1 = Ok [[]; []; []].
Proof. apply (save_all_interrupted (fun b => b) Some list_names), list_names_spec. Defined.
