(* ===== verification/Compaction.v ===== *)
(** * LSM compaction ([src/storage/compaction.rs])

    Three levels of pages: L0 holds flushed memtables in flush order (newest
    last), L1 and L2 hold merged pages. *)

From S2P Require Import Prelude Ordered Bloom Page.
Local Open Scope Z_scope.

Definition L0_LIMIT : nat := 4.
Definition L1_SIZE_LIMIT : Z := 64 * 1024.

Record CompactionManager := mkCM {
  L0 : list Page;
  L1 : list Page;
  L2 : list Page;
  compaction_count : Z
}.

Definition new : CompactionManager := {| L0 := []; L1 := []; L2 := []; compaction_count := 0 |}.

(** ** Merging *)

(** [latest.entry(key).or_insert(rec)] over every record of a page. *)
Definition or_insert_records (m : gmap bytes PageRecord) (rs : list PageRecord) : gmap bytes PageRecord :=
  foldl (fun m r => match m !! Page.key r with Some _ => m | None => <[Page.key r := r]> m end) m rs.

Definition latest (pages : list Page) : gmap bytes PageRecord :=
  foldl (fun m p => or_insert_records m (records p)) ∅ pages.

Definition merge_pages (pages : list Page) (drop_tombstones : bool) : Page :=
  foldl (fun merged kr =>
      let r := kr.2 in
      if drop_tombstones && tombstone r then merged
      else push merged (Page.key r) (Page.value r) (tombstone r))
    (Page.new 1) (bt_entries (latest pages)).

Section cm.
Context (deflate : bytes -> bytes).

Definition compact_l1_to_l2 (cm : CompactionManager) : CompactionManager :=
  let merged := merge_pages (L1 cm ++ L2 cm) true in
  {| L0 := L0 cm; L1 := []; L2 := [merged]; compaction_count := u64 (compaction_count cm + 1) |}.

Definition l1_size (cm : CompactionManager) : Z :=
  foldr (fun p acc => Z.of_nat (length (serialize deflate p)) + acc) 0 (L1 cm).

Definition compact_l0_to_l1 (cm : CompactionManager) : CompactionManager :=
  let merged := merge_pages (L0 cm ++ L1 cm) false in
  let cm1 := {| L0 := []; L1 := [merged]; L2 := L2 cm;
                compaction_count := u64 (compaction_count cm + 1) |} in
  if L1_SIZE_LIMIT <? l1_size cm1 then compact_l1_to_l2 cm1 else cm1.

Definition add_l0_page (cm : CompactionManager) (page : Page) : CompactionManager :=
  let cm1 := {| L0 := L0 cm ++ [page]; L1 := L1 cm; L2 := L2 cm;
                compaction_count := compaction_count cm |} in
  if (L0_LIMIT <=? length (L0 cm1))%nat then compact_l0_to_l1 cm1 else cm1.
End cm.

(** ** Reads *)

(** One page of the search: found, deleted here, or not in this page. *)
Definition probe (p : Page) (k : bytes) : option (option bytes) :=
  match Page.get p k with
  | Some v => Some (Some v)
  | None =>
      match search (records p) k with
      | inl i => match records p !! i with
                 | Some r => if tombstone r then Some None else None
                 | None => None
                 end
      | inr _ => None
      end
  end.

Fixpoint probe_all (ps : list Page) (k : bytes) : option (option bytes) :=
  match ps with
  | [] => None
  | p :: ps' => match probe p k with Some a => Some a | None => probe_all ps' k end
  end.

(** The order in which [get] visits the pages. *)
Definition search_order (cm : CompactionManager) : list Page :=
  rev (L0 cm) ++ rev (L1 cm) ++ rev (L2 cm).

Definition get (cm : CompactionManager) (k : bytes) : option bytes :=
  probe_all (search_order cm) k ≫= id.

Definition scan_page (start end_ : bytes) (m : gmap bytes bytes) (p : Page) : gmap bytes bytes :=
  foldl (fun m r => if tombstone r then base.delete (Page.key r) m else <[Page.key r := Page.value r]> m)
    m (Page.range p start end_).

Definition scan (cm : CompactionManager) (start end_ : bytes) : gmap bytes bytes :=
  foldl (scan_page start end_) ∅ (L2 cm ++ L1 cm ++ L0 cm).

Definition page_count (cm : CompactionManager) : nat * nat * nat :=
  (length (L0 cm), length (L1 cm), length (L2 cm)).

Definition all_pages (cm : CompactionManager) : list (list Page) := [L0 cm; L1 cm; L2 cm].

Definition load_pages (cm : CompactionManager) (level : nat) (pages : list Page) : CompactionManager :=
  match level with
  | 0%nat => {| L0 := pages; L1 := L1 cm; L2 := L2 cm; compaction_count := compaction_count cm |}
  | 1%nat => {| L0 := L0 cm; L1 := pages; L2 := L2 cm; compaction_count := compaction_count cm |}
  | 2%nat => {| L0 := L0 cm; L1 := L1 cm; L2 := pages; compaction_count := compaction_count cm |}
  | _ => cm
  end.

Definition total_records (cm : CompactionManager) : nat :=
  sum_list (Page.len <$> (L0 cm ++ L1 cm ++ L2 cm)).

(** ** The pages as one map *)

(** The newest-first list of pages as a map: the first page that mentions a key
    decides. *)
Definition pages_view (ps : list Page) : gmap bytes (option bytes) :=
  foldr (fun p acc => rec_map (records p) ∪ acc) ∅ ps.

Definition pages_sorted (ps : list Page) : Prop := Forall sorted_page ps.

Lemma probe_spec p k : sorted_page p -> probe p k = rec_map (records p) !! k.
Proof.
  intros Hs. unfold probe. rewrite page_get_spec by done.
  pose proof (search_spec (records p) k Hs) as H. destruct (search (records p) k) as [i|i].
  - destruct H as (r & -> & _ & ->). unfold rec_val. simpl. by destruct (tombstone r).
  - by destruct H as (_ & -> & _).
Qed.

Lemma probe_all_spec ps k : pages_sorted ps -> probe_all ps k = pages_view ps !! k.
Proof.
  induction 1 as [|p ps Hp Hps IH]; cbn [probe_all pages_view foldr]; [by rewrite lookup_empty|].
  rewrite probe_spec by done. rewrite lookup_union.
  destruct (rec_map (records p) !! k) as [v|]; [by destruct (_ !! k)|]. rewrite IH. by rewrite (left_id None _).
Qed.

Lemma cm_get_view cm k : pages_sorted (search_order cm) ->
  get cm k = pages_view (search_order cm) !! k ≫= id.
Proof. intros. unfold get. by rewrite probe_all_spec. Qed.

Lemma pages_view_app ps1 ps2 : pages_view (ps1 ++ ps2) = pages_view ps1 ∪ pages_view ps2.
Proof.
  induction ps1 as [|p ps1 IH]; cbn [app pages_view foldr]; [by rewrite (left_id_L ∅ _)|].
  fold (pages_view (ps1 ++ ps2)) (pages_view ps1). by rewrite IH, (assoc_L (∪)).
Qed.

Lemma or_insert_records_keys m rs :
  (forall k r, m !! k = Some r -> Page.key r = k) ->
  forall k r, or_insert_records m rs !! k = Some r -> Page.key r = k.
Proof.
  revert m. induction rs as [|r0 rs IH]; intros m Hm k r; cbn [or_insert_records foldl]; [apply Hm|].
  apply IH. intros k' r'. destruct (m !! Page.key r0) as [r1|] eqn:E; [apply Hm|].
  rewrite lookup_insert. case_decide; [naive_solver|]. apply Hm.
Qed.

Lemma latest_keys ps k r : latest ps !! k = Some r -> Page.key r = k.
Proof.
  unfold latest. assert (forall k r, (∅ : gmap bytes PageRecord) !! k = Some r -> Page.key r = k) as H by done.
  revert H. generalize (∅ : gmap bytes PageRecord) as m. revert k r.
  induction ps as [|p ps IH]; intros k r m Hm; cbn [foldl]; [apply Hm|].
  apply IH. by apply or_insert_records_keys.
Qed.

Lemma or_insert_records_view m rs :
  rec_val <$> or_insert_records m rs = (rec_val <$> m) ∪ rec_map rs.
Proof.
  revert m. induction rs as [|r rs IH]; intros m; cbn [or_insert_records foldl].
  { unfold rec_map. cbn. by rewrite (right_id_L ∅ _). }
  fold (or_insert_records (match m !! Page.key r with Some _ => m | None => <[Page.key r := r]> m end) rs).
  rewrite IH. unfold rec_map. rewrite fmap_cons, list_to_map_cons.
  apply map_eq. intros k. rewrite !lookup_union.
  destruct (m !! Page.key r) as [r1|] eqn:E; rewrite !lookup_fmap, ?lookup_insert.
  - case_decide; [|done]. subst. rewrite E. cbn. by destruct (list_to_map _ !! _).
  - case_decide; [|done]. subst. rewrite E. cbn. by destruct (list_to_map _ !! _).
Qed.

Lemma latest_view ps : rec_val <$> latest ps = pages_view ps.
Proof.
  unfold latest. transitivity ((rec_val <$> (∅ : gmap bytes PageRecord)) ∪ pages_view ps).
  - generalize (∅ : gmap bytes PageRecord) as m. induction ps as [|p ps IH]; intros m; cbn [foldl pages_view foldr].
    + by rewrite (right_id_L ∅ _).
    + rewrite IH, or_insert_records_view. by rewrite (assoc_L (∪)).
  - by rewrite fmap_empty, (left_id_L ∅ _).
Qed.

(** The records of a merged page. *)
Lemma merge_pages_records ps d :
  records (merge_pages ps d) = snd <$> filter (fun kr => d && tombstone kr.2 = false) (bt_entries (latest ps)).
Proof.
  unfold merge_pages. change (snd <$> ?l) with (records (Page.new 1) ++ (snd <$> l)).
  generalize (Page.new 1) as p. induction (bt_entries (latest ps)) as [|[k r] l IH]; intros p; cbn [foldl].
  { cbn. by rewrite app_nil_r. }
  rewrite IH. cbn [snd]. destruct (d && tombstone r) eqn:E.
  - rewrite filter_cons_False by (cbn; congruence). done.
  - rewrite filter_cons_True by done. cbn. rewrite <- app_assoc. by destruct r.
Qed.

Lemma merge_pages_keys ps d :
  Page.key <$> records (merge_pages ps d) =
  (filter (fun kr => d && tombstone kr.2 = false) (bt_entries (latest ps))).*1.
Proof.
  rewrite merge_pages_records, <- list_fmap_compose. apply list_fmap_ext.
  intros i [k r] Hi. apply list_elem_of_lookup_2, list_elem_of_filter in Hi as [_ Hi].
  apply elem_of_bt_entries, latest_keys in Hi. done.
Qed.

Lemma merge_pages_sorted ps d : sorted_page (merge_pages ps d).
Proof. unfold sorted_page. rewrite merge_pages_keys. apply keys_sorted_filter, bt_entries_sorted. Qed.

Lemma merge_pages_view ps (d : bool) k :
  rec_map (records (merge_pages ps d)) !! k =
  match pages_view ps !! k with Some None => if d then None else Some None | o => o end.
Proof.
  pose proof (keys_sorted_nodup _ (merge_pages_sorted ps d)) as Hnd.
  apply option_eq. intros v. rewrite rec_map_lookup by done. rewrite merge_pages_records, <- latest_view, lookup_fmap.
  split.
  - intros (r & ([k' r'] & -> & [Ht Hr]%list_elem_of_filter)%list_elem_of_fmap & <- & <-).
    cbn in *. apply elem_of_bt_entries in Hr. pose proof (latest_keys _ _ _ Hr) as ->. rewrite Hr. cbn.
    unfold rec_val. destruct (tombstone r'); [|done]. by destruct d.
  - destruct (latest ps !! k) as [r|] eqn:E; [|done]. cbn. intros Hv.
    exists r. pose proof (latest_keys _ _ _ E) as Hk. split_and!; [|done|].
    + apply list_elem_of_fmap. exists (k, r). split; [done|]. apply list_elem_of_filter. cbn.
      rewrite elem_of_bt_entries. split; [|done]. unfold rec_val in Hv.
      destruct (tombstone r), d; done.
    + unfold rec_val in *. destruct (tombstone r), d; congruence.
Qed.

(** ** The invariant of the levels *)

(** Between two operations every page is sorted, level 0 is below its limit and
    the merged levels hold at most one page each. *)
Record cm_wf (cm : CompactionManager) : Prop := {
  wf_sorted : pages_sorted (L0 cm ++ L1 cm ++ L2 cm);
  wf_L0 : (length (L0 cm) < L0_LIMIT)%nat;
  wf_L1 : (length (L1 cm) <= 1)%nat;
  wf_L2 : (length (L2 cm) <= 1)%nat
}.

Lemma cm_new_wf : cm_wf new.
Proof. split; [constructor|cbn; unfold L0_LIMIT; lia..]. Qed.

Lemma rev_short {A} (l : list A) : (length l <= 1)%nat -> rev l = l.
Proof. destruct l as [|x [|y l]]; [done..|]. cbn. lia. Qed.

Lemma search_order_wf cm : cm_wf cm -> search_order cm = rev (L0 cm) ++ L1 cm ++ L2 cm.
Proof. intros [_ _ H1 H2]. unfold search_order. by rewrite (rev_short (L1 cm)), (rev_short (L2 cm)). Qed.

Lemma Forall_rev_iff {A} (P : A -> Prop) (l : list A) : Forall P (rev l) <-> Forall P l.
Proof. rewrite rev_alt. apply (Forall_reverse P l). Qed.

Lemma pages_sorted_rev cm : pages_sorted (L0 cm ++ L1 cm ++ L2 cm) -> pages_sorted (search_order cm).
Proof.
  unfold pages_sorted, search_order. rewrite !Forall_app, !Forall_rev_iff. tauto.
Qed.

(** Dropping the tombstones of the last level is invisible to readers. *)
Definition visible (o : option (option bytes)) : option bytes := o ≫= id.

Lemma visible_merge ps (d : bool) k :
  visible (rec_map (records (merge_pages ps d)) !! k) = visible (pages_view ps !! k).
Proof. rewrite merge_pages_view. destruct (pages_view ps !! k) as [[v|]|]; [done| |done]. by destruct d. Qed.

Lemma pages_view_nil k : pages_view [] !! k = None.
Proof. apply lookup_empty. Qed.

Lemma pages_view_cons p ps k :
  pages_view (p :: ps) !! k = match rec_map (records p) !! k with Some a => Some a | None => pages_view ps !! k end.
Proof.
  cbn [pages_view foldr]. fold (pages_view ps). rewrite lookup_union.
  destruct (rec_map _ !! k), (pages_view ps !! k); done.
Qed.

Lemma pages_view_app_lookup ps1 ps2 k :
  pages_view (ps1 ++ ps2) !! k = match pages_view ps1 !! k with Some a => Some a | None => pages_view ps2 !! k end.
Proof. rewrite pages_view_app, lookup_union. destruct (pages_view ps1 !! k), (pages_view ps2 !! k); done. Qed.

(** A merge without tombstone dropping is the newest-first map of its input. *)
Lemma merged_view ps rest k :
  pages_view (merge_pages ps false :: rest) !! k = pages_view (ps ++ rest) !! k.
Proof.
  rewrite pages_view_cons, pages_view_app_lookup, merge_pages_view.
  by destruct (pages_view ps !! k) as [[]|].
Qed.

Lemma merged_last_visible ps k : visible (pages_view [merge_pages ps true] !! k) = visible (pages_view ps !! k).
Proof.
  rewrite pages_view_cons. rewrite <- (visible_merge ps true k).
  destruct (rec_map _ !! k); [done|]. cbn [pages_view foldr]. by rewrite lookup_empty.
Qed.

Section cm_spec.
Context (deflate : bytes -> bytes).

Lemma compact_l1_to_l2_wf cm :
  L0 cm = [] -> pages_sorted (L1 cm ++ L2 cm) -> cm_wf (compact_l1_to_l2 cm).
Proof.
  intros H0 Hs. split; cbn; rewrite ?H0; unfold L0_LIMIT; [|cbn; lia..].
  apply Forall_singleton, merge_pages_sorted.
Qed.

Lemma compact_l0_to_l1_wf cm :
  pages_sorted (L0 cm ++ L1 cm ++ L2 cm) -> (length (L2 cm) <= 1)%nat -> cm_wf (compact_l0_to_l1 deflate cm).
Proof.
  intros Hs H2. unfold compact_l0_to_l1. set (merged := merge_pages _ false).
  assert (sorted_page merged) as Hm by apply merge_pages_sorted.
  unfold pages_sorted in Hs. rewrite !Forall_app in Hs. destruct Hs as (_ & _ & Hs2).
  destruct (L1_SIZE_LIMIT <? _).
  - apply compact_l1_to_l2_wf; [done|]. cbn. by constructor.
  - split; cbn; unfold L0_LIMIT; [by constructor|lia..].
Qed.

Lemma add_l0_page_wf cm p : cm_wf cm -> sorted_page p -> cm_wf (add_l0_page deflate cm p).
Proof.
  intros [Hs H0 H1 H2] Hp. unfold add_l0_page. cbn [L0].
  assert (pages_sorted ((L0 cm ++ [p]) ++ L1 cm ++ L2 cm)) as Hs'.
  { unfold pages_sorted in *. rewrite !Forall_app in *. naive_solver. }
  destruct (Nat.leb_spec L0_LIMIT (length (L0 cm ++ [p]))).
  - by apply compact_l0_to_l1_wf.
  - by split; cbn.
Qed.

(** What readers see after the merge of level 0: the pages in flush order,
    oldest first, and then levels 1 and 2. *)
Lemma compact_l0_to_l1_get cm k : pages_sorted (L0 cm ++ L1 cm ++ L2 cm) -> (length (L2 cm) <= 1)%nat ->
  get (compact_l0_to_l1 deflate cm) k = visible (pages_view (L0 cm ++ L1 cm ++ L2 cm) !! k).
Proof.
  intros Hs H2. pose proof (compact_l0_to_l1_wf cm Hs H2) as Hwf.
  rewrite cm_get_view by (by apply pages_sorted_rev, (wf_sorted _ Hwf)). rewrite search_order_wf by done.
  unfold compact_l0_to_l1. cbv zeta. destruct (L1_SIZE_LIMIT <? _).
  - cbn [L0 L1 L2 compact_l1_to_l2 rev app]. fold (visible (pages_view [merge_pages
      (merge_pages (L0 cm ++ L1 cm) false :: L2 cm) true] !! k)).
    by rewrite merged_last_visible, merged_view, <- app_assoc.
  - cbn [L0 L1 L2 rev app]. by rewrite merged_view, <- app_assoc.
Qed.

Lemma add_l0_page_get cm p k : cm_wf cm -> sorted_page p ->
  get (add_l0_page deflate cm p) k =
    visible (pages_view (if (S (length (L0 cm)) <? L0_LIMIT)%nat
                         then p :: rev (L0 cm) ++ L1 cm ++ L2 cm
                         else L0 cm ++ p :: L1 cm ++ L2 cm) !! k).
Proof.
  intros Hwf Hp. pose proof (add_l0_page_wf cm p Hwf Hp) as Hwf'.
  revert Hwf'. unfold add_l0_page. cbv zeta. cbn [L0]. rewrite length_app. cbn [length].
  rewrite Nat.add_1_r. destruct Hwf as [Hs H0 H1 H2].
  destruct (Nat.ltb_spec (S (length (L0 cm))) L0_LIMIT) as [Hl|Hl].
  - rewrite (proj2 (Nat.leb_gt _ _)) by lia. intros Hwf'.
    rewrite cm_get_view by (apply pages_sorted_rev, (wf_sorted _ Hwf')). rewrite search_order_wf by done.
    cbn [L0 L1 L2]. by rewrite rev_app_distr.
  - rewrite (proj2 (Nat.leb_le _ _)) by lia. intros _. rewrite compact_l0_to_l1_get; cbn [L0 L1 L2]; [| |done].
    + by rewrite <- app_assoc.
    + unfold pages_sorted in *. rewrite !Forall_app in *. naive_solver.
Qed.

(** adding a flushed page keeps the levels well formed (sorted pages, fewer
    than four in level 0, at most one in levels 1 and 2) and determines every
    later read: below the limit the new page is consulted first and then what was
    there, while the flush that fills level 0 merges the pages in flush order, so
    that from then on the oldest page of level 0 that mentions a key decides. *)
Theorem add_l0_page_reads cm p : cm_wf cm -> sorted_page p ->
  cm_wf (add_l0_page deflate cm p) /\
  forall k, get (add_l0_page deflate cm p) k =
    visible (pages_view (if (S (length (L0 cm)) <? L0_LIMIT)%nat
                         then p :: rev (L0 cm) ++ L1 cm ++ L2 cm
                         else L0 cm ++ p :: L1 cm ++ L2 cm) !! k).
Proof. intros Hwf Hp. split; [by apply add_l0_page_wf|]. intros k. by apply add_l0_page_get. Qed.

(** Two pages agree when they say the same of every key both mention. *)
Definition pages_agree (p q : Page) : Prop :=
  forall k a b, rec_map (records p) !! k = Some a -> rec_map (records q) !! k = Some b -> a = b.

Lemma pages_view_agree_head (ps : list Page) p k a :
  Forall (pages_agree p) ps -> rec_map (records p) !! k = Some a ->
  pages_view ps !! k = None \/ pages_view ps !! k = Some a.
Proof.
  intros Hag Hp. induction Hag as [|q ps Hq Hps IH]; [by left|].
  rewrite pages_view_cons. destruct (rec_map (records q) !! k) as [b|] eqn:E; [|done].
  right. f_equal. symmetry. by apply (Hq k).
Qed.

Lemma pages_view_rev (ps : list Page) :
  ForallOrdPairs pages_agree ps -> pages_view (rev ps) = pages_view ps.
Proof.
  induction 1 as [|p ps Hp Hps IH]; [done|]. cbn [rev]. apply map_eq. intros k.
  rewrite pages_view_app_lookup, IH, !pages_view_cons, pages_view_nil.
  destruct (rec_map (records p) !! k) as [a|] eqn:E.
  - by destruct (pages_view_agree_head ps p k a Hp E) as [-> | ->].
  - by destruct (pages_view ps !! k).
Qed.

Lemma visible_newest p cm k : pages_sorted (L0 cm ++ L1 cm ++ L2 cm) ->
  (length (L1 cm) <= 1)%nat -> (length (L2 cm) <= 1)%nat ->
  visible (pages_view (p :: rev (L0 cm) ++ L1 cm ++ L2 cm) !! k) =
  match rec_map (records p) !! k with Some a => a | None => get cm k end.
Proof.
  intros Hs H1 H2. rewrite cm_get_view by (by apply pages_sorted_rev). unfold search_order.
  rewrite (rev_short (L1 cm)), (rev_short (L2 cm)), pages_view_cons by done.
  by destruct (rec_map (records p) !! k).
Qed.

Lemma add_l0_page_agree_get cm p k : cm_wf cm -> sorted_page p ->
  ForallOrdPairs pages_agree (L0 cm ++ [p]) ->
  get (add_l0_page deflate cm p) k =
  match rec_map (records p) !! k with Some a => a | None => get cm k end.
Proof.
  intros Hwf Hp Hag. destruct Hwf as [Hs H0 H1 H2]. rewrite <- visible_newest by done.
  unfold add_l0_page. cbv zeta. cbn [L0]. destruct (Nat.leb_spec L0_LIMIT (length (L0 cm ++ [p]))).
  - rewrite compact_l0_to_l1_get; cbn [L0 L1 L2]; [|unfold pages_sorted in *; rewrite !Forall_app in *; naive_solver|done].
    f_equal. rewrite pages_view_app_lookup, <- (pages_view_rev (L0 cm ++ [p])) by done.
    rewrite <- pages_view_app_lookup, rev_app_distr. by rewrite <- app_assoc.
  - assert (cm_wf {| L0 := L0 cm ++ [p]; L1 := L1 cm; L2 := L2 cm; compaction_count := compaction_count cm |}) as Hwf.
    { split; cbn; [|done..]. unfold pages_sorted in *. rewrite !Forall_app in *. naive_solver. }
    rewrite cm_get_view by (apply pages_sorted_rev, (wf_sorted _ Hwf)). rewrite search_order_wf by done.
    cbn [L0 L1 L2]. by rewrite rev_app_distr.
Qed.

(** Adding [p] cannot resurrect an older version: level 0 does not fill up, or its
    pages agree. *)
Definition flush_safe (cm : CompactionManager) (p : Page) : Prop :=
  (S (length (L0 cm)) < L0_LIMIT)%nat \/ ForallOrdPairs pages_agree (L0 cm ++ [p]).

Lemma add_l0_page_safe_get cm p k : cm_wf cm -> sorted_page p -> flush_safe cm p ->
  get (add_l0_page deflate cm p) k = match rec_map (records p) !! k with Some a => a | None => get cm k end.
Proof.
  intros Hwf Hp [Hl|Hag]; [|by apply add_l0_page_agree_get].
  rewrite add_l0_page_get by done. rewrite (proj2 (Nat.ltb_lt _ _)) by done.
  destruct Hwf as [Hs _ H1 H2]. by apply visible_newest.
Qed.

(** four flushes of the same key and a read: the value returned is that of
    the first flush, not of the last. *)
Theorem compaction_oldest_wins p1 p2 p3 p4 k v :
  sorted_page p1 -> sorted_page p2 -> sorted_page p3 -> sorted_page p4 ->
  rec_map (records p1) !! k = Some (Some v) ->
  get (foldl (add_l0_page deflate) new [p1; p2; p3; p4]) k = Some v.
Proof.
  intros Hp1 Hp2 Hp3 Hp4 Hv. cbn [foldl].
  assert (foldl (add_l0_page deflate) new [p1; p2; p3] = {| L0 := [p1; p2; p3]; L1 := []; L2 := []; compaction_count := 0 |})
    as E by done. cbn [foldl] in E. rewrite E.
  unfold add_l0_page. cbv zeta. cbn [L0 app length Nat.leb L0_LIMIT].
  rewrite compact_l0_to_l1_get; cbn [L0 L1 L2 app]; [| |cbn; lia].
  2: { unfold pages_sorted. by rewrite !Forall_cons. }
  by rewrite pages_view_cons, Hv.
Qed.

(** ** The levels as an abstract machine *)

(** The flushed tables that are still in level 0, newest first, and everything
    merged before them. A table maps a key to its value or to a deletion. *)
Record Levels := mkLevels { recent : list (gmap bytes (option bytes)); merged : gmap bytes (option bytes) }.

Definition levels_new : Levels := {| recent := []; merged := ∅ |}.

(** Below the limit a flush is put in front. The flush that reaches it merges the
    tables in flush order: the OLDEST that mentions a key wins over the others, and
    all of them over what was merged before. *)
Definition levels_flush (s : Levels) (t : gmap bytes (option bytes)) : Levels :=
  if (S (length (recent s)) <? L0_LIMIT)%nat
  then {| recent := t :: recent s; merged := merged s |}
  else {| recent := []; merged := foldr (∪) (merged s) (reverse (t :: recent s)) |}.

(** The newest table that mentions the key decides. *)
Definition levels_read (s : Levels) (k : bytes) : option bytes := foldr (∪) (merged s) (recent s) !! k ≫= id.

Definition table (p : Page) : gmap bytes (option bytes) := rec_map (records p).

Definition represents (cm : CompactionManager) (s : Levels) : Prop :=
  cm_wf cm /\ table <$> rev (L0 cm) = recent s /\
  forall k, visible (pages_view (L1 cm ++ L2 cm) !! k) = visible (merged s !! k).

Lemma visible_foldr (ps rest : list Page) m k :
  visible (pages_view rest !! k) = visible (m !! k) ->
  visible (pages_view (ps ++ rest) !! k) = visible (foldr (∪) m (table <$> ps) !! k).
Proof.
  intros H. induction ps as [|p ps IH]; [exact H|]. cbn [app fmap list_fmap foldr].
  rewrite pages_view_cons, lookup_union. unfold table at 1. destruct (rec_map (records p) !! k); [by destruct (foldr _ _ _ !! k)|].
  rewrite (left_id None _). exact IH.
Qed.

Lemma represents_read cm s k : represents cm s -> get cm k = levels_read s k.
Proof.
  intros (Hwf & Hr & Hm). rewrite cm_get_view by (by apply pages_sorted_rev, (wf_sorted _ Hwf)).
  rewrite search_order_wf by done. unfold levels_read. rewrite <- Hr. by apply visible_foldr.
Qed.

Lemma represents_flush cm s p : represents cm s -> sorted_page p ->
  represents (add_l0_page deflate cm p) (levels_flush s (table p)).
Proof.
  intros (Hwf & Hr & Hm) Hp. pose proof (add_l0_page_wf cm p Hwf Hp) as Hwf'. split; [done|].
  assert (length (recent s) = length (L0 cm)) as Hlen by (rewrite <- Hr, length_fmap; apply length_rev).
  pose proof (add_l0_page_get cm p) as Hget. unfold levels_flush. rewrite Hlen.
  unfold add_l0_page in *. cbv zeta in *. cbn [L0] in *. rewrite length_app, Nat.add_1_r in *.
  destruct (Nat.ltb_spec (S (length (L0 cm))) L0_LIMIT) as [Hl|Hl].
  - rewrite (proj2 (Nat.leb_gt _ _)) in * by (cbn; lia). cbn [L0 L1 L2 recent merged].
    split; [|done]. rewrite rev_app_distr. cbn. by rewrite Hr.
  - rewrite (proj2 (Nat.leb_le _ _)) in * by (cbn; lia). cbn [recent merged].
    set (cm' := compact_l0_to_l1 deflate _) in *.
    assert (L0 cm' = []) as H0 by (unfold cm', compact_l0_to_l1; cbv zeta; by destruct (_ <? _)).
    split; [by rewrite H0|]. intros k. specialize (Hget k Hwf Hp).
    rewrite cm_get_view, search_order_wf, H0 in Hget by (done || by apply pages_sorted_rev, (wf_sorted _ Hwf')).
    cbn [rev app] in Hget. unfold visible at 1. rewrite Hget, reverse_cons, <- Hr, <- fmap_reverse.
    assert (reverse (rev (L0 cm)) = L0 cm) as -> by (unfold reverse; rewrite <- rev_alt; apply rev_involutive).
    replace (L0 cm ++ p :: L1 cm ++ L2 cm) with ((L0 cm ++ [p]) ++ L1 cm ++ L2 cm) by (by rewrite <- app_assoc).
    rewrite (visible_foldr _ _ (merged s)) by done. by rewrite fmap_app.
Qed.

(** C5: whatever pages are flushed, and with the compactions the flushes trigger,
    every read answers as the abstract machine of the levels does, and the levels
    stay well formed. In particular the newest page that mentions a key decides
    until level 0 fills up; the merge then keeps, for each key, the record of the
    oldest page of level 0 that mentions it (see [compaction_oldest_wins]); and a
    deletion hides every older record, also after the last level has dropped it. *)
Theorem flushes_read ps : Forall sorted_page ps ->
  cm_wf (foldl (add_l0_page deflate) new ps) /\
  forall k, get (foldl (add_l0_page deflate) new ps) k = levels_read (foldl levels_flush levels_new (table <$> ps)) k.
Proof.
  intros Hps.
  assert (represents (foldl (add_l0_page deflate) new ps) (foldl levels_flush levels_new (table <$> ps))) as H.
  { assert (represents new levels_new) as H by (by split_and!; [apply cm_new_wf|..]). revert H.
    generalize new, levels_new. induction Hps as [|p ps Hp Hps IH]; intros cm s H; [done|]. by apply IH, represents_flush. }
  split; [apply H|]. intros k. by apply represents_read.
Qed.
End cm_spec.

(** ** Range scans *)
Lemma scan_records_lookup (rs : list PageRecord) (m : gmap bytes bytes) k : NoDup (Page.key <$> rs) ->
  foldl (fun m r => if tombstone r then base.delete (Page.key r) m else <[Page.key r := Page.value r]> m) m rs !! k
  = match rec_map rs !! k with Some a => a | None => m !! k end.
Proof.
  revert m. induction rs as [|r rs IH]; intros m Hnd; [done|]. csimpl in Hnd.
  apply NoDup_cons in Hnd as [Hni Hnd]. cbn [foldl]. rewrite IH by done.
  unfold rec_map. rewrite fmap_cons, list_to_map_cons, lookup_insert.
  destruct (decide (Page.key r = k)) as [<-|Hne].
  - rewrite not_elem_of_list_to_map_1 by (by rewrite rec_map_fst).
    unfold rec_val. destruct (tombstone r); [apply lookup_delete_eq|apply lookup_insert_eq].
  - destruct (list_to_map _ !! k); [done|].
    destruct (tombstone r); [by apply lookup_delete_ne|by apply lookup_insert_ne].
Qed.

Lemma scan_page_lookup start end_ m p k : sorted_page p ->
  scan_page start end_ m p !! k =
  if bool_decide (bytes_le start k /\ bytes_lt k end_)
  then match rec_map (records p) !! k with Some a => a | None => m !! k end else m !! k.
Proof.
  intros Hp. unfold scan_page.
  pose proof (keys_sorted_nodup _ (range_keys_sorted p start end_ Hp)) as Hnd.
  pose proof (keys_sorted_nodup _ Hp) as Hndp.
  rewrite scan_records_lookup by done.
  assert (rec_map (Page.range p start end_) !! k =
    if bool_decide (bytes_le start k /\ bytes_lt k end_) then rec_map (records p) !! k else None) as ->.
  { apply option_eq. intros a. rewrite rec_map_lookup by done. case_bool_decide as Hin.
    - rewrite rec_map_lookup by done. setoid_rewrite elem_of_range; [|done]. naive_solver.
    - split; [|done]. intros (r & Hr%elem_of_range & <- & _); [|done]. naive_solver. }
  by case_bool_decide.
Qed.

Lemma scan_fold_lookup start end_ ps m k : pages_sorted ps ->
  foldl (scan_page start end_) m ps !! k =
  if bool_decide (bytes_le start k /\ bytes_lt k end_)
  then match pages_view (rev ps) !! k with Some a => a | None => m !! k end else m !! k.
Proof.
  intros Hps. revert m. induction Hps as [|p ps Hp Hps IH]; intros m; cbn [foldl rev].
  { cbn. rewrite lookup_empty. by case_bool_decide. }
  rewrite IH, scan_page_lookup by done. rewrite pages_view_app_lookup, pages_view_cons, pages_view_nil.
  case_bool_decide; [|done]. destruct (pages_view (rev ps) !! k); [done|].
  by destruct (rec_map (records p) !! k).
Qed.

Lemma scan_lookup cm start end_ k : cm_wf cm ->
  scan cm start end_ !! k =
  if bool_decide (bytes_le start k /\ bytes_lt k end_) then get cm k else None.
Proof.
  intros Hwf. unfold scan. rewrite scan_fold_lookup.
  - rewrite cm_get_view by (apply pages_sorted_rev, (wf_sorted _ Hwf)). unfold search_order.
    rewrite !rev_app_distr, <- app_assoc, lookup_empty. case_bool_decide; [|done].
    by destruct (_ !! k).
  - destruct Hwf as [Hs _ _ _]. unfold pages_sorted in *. rewrite !Forall_app in *. tauto.
Qed.

(** C22: a range scan across the levels agrees with point reads: it holds exactly
    the keys of the half-open interval for which [get] finds a value, with that
    value. *)
Theorem scan_agrees_with_get cm start end_ k : cm_wf cm ->
  scan cm start end_ !! k =
  if bool_decide (bytes_le start k /\ bytes_lt k end_) then get cm k else None.
Proof. apply scan_lookup. Qed.

(** ** Witnesses *)
Definition sample_flush (v : string) : Page := push (Page.new 0) (str "k") (str v) false.

Lemma sample_flush_sorted v : sorted_page (sample_flush v).
Proof. by repeat constructor. Qed.

Lemma add_l0_page_reads_witness :
  get (add_l0_page (fun b => b) new (sample_flush "v1")) (str "k") = Some (str "v1").
Proof.
  destruct (add_l0_page_reads (fun b => b) new (sample_flush "v1") cm_new_wf (sample_flush_sorted "v1")) as [_ H].
  rewrite H. by vm_compute.
Defined.

(** Five flushes of one key, the last a deletion, and a key only the second has:
    read after each of them. *)
Definition sample_pages : list Page :=
  [sample_flush "v1"; push (sample_flush "v2") (str "m") (str "w") false; sample_flush "v3"; sample_flush "v4";
   push (Page.new 0) (str "k") [] true].

Lemma sample_pages_sorted n : Forall sorted_page (take n sample_pages).
Proof.
  apply Forall_take. unfold sample_pages. repeat constructor.
Qed.

Lemma flushes_read_witness :
  (fun n => get (foldl (add_l0_page (fun b => b)) new (take n sample_pages)) (str "k")) <$> seq 0 6 =
  [None; Some (str "v1"); Some (str "v2"); Some (str "v3"); Some (str "v1"); None] /\
  get (foldl (add_l0_page (fun b => b)) new (take 5 sample_pages)) (str "m") = Some (str "w").
Proof.
  pose proof (fun n => proj2 (flushes_read (fun b => b) (take n sample_pages) (sample_pages_sorted n))) as H.
  split; [cbn [fmap list_fmap seq]; rewrite !H; by vm_compute|]. rewrite H. by vm_compute.
Defined.

Lemma compaction_oldest_wins_witness :
  get (foldl (add_l0_page (fun b => b)) new
    [sample_flush "v1"; sample_flush "v2"; sample_flush "v3"; sample_flush "v4"]) (str "k") = Some (str "v1").
Proof. apply compaction_oldest_wins; [apply sample_flush_sorted..|by vm_compute]. Defined.

(** A manager with a page in each level: level 0 deletes a key of level 1 and
    rewrites one of level 2. *)
Definition sample_levels : CompactionManager :=
  {| L0 := [push (push (Page.new 0) (str "a") [] true) (str "b") (str "b0") false];
     L1 := [push (push (Page.new 1) (str "a") (str "a1") false) (str "c") (str "c1") false];
     L2 := [push (push (Page.new 1) (str "b") (str "b2") false) (str "d") (str "d2") false];
     compaction_count := 2 |}.

Lemma sample_levels_wf : cm_wf sample_levels.
Proof. split; [|cbn; unfold L0_LIMIT; lia..]. repeat constructor. Qed.

Lemma scan_agrees_with_get_witness :
  (fun k => scan sample_levels (str "a") (str "d") !! str k) <$> ["a"%string; "b"%string; "c"%string; "d"%string] =
  [None; Some (str "b0"); Some (str "c1"); None] /\ get sample_levels (str "d") = Some (str "d2").
Proof.
  split; [|by vm_compute]. cbn [fmap list_fmap].
  rewrite !(scan_agrees_with_get sample_levels (str "a") (str "d")) by apply sample_levels_wf. by vm_compute.
Defined.
