(* ===== verification/BgCompaction.v ===== *)
(** * Background compaction ([src/storage/bg_compaction.rs])

    The worker thread and its channel as a transition system: callers append to
    the queue, the worker takes the head, merges it under the lock and saves the
    levels. *)

From S2P Require Import Prelude Bloom Page PageStore Compaction.
Local Open Scope Z_scope.

Inductive Command :=
  | AddPage (page : Page)
  | Shutdown.

(** [disk] is the page directory, when the engine is persistent. *)
Record BackgroundCompactor := mkBg {
  queue : list Command;
  running : bool;
  compaction : CompactionManager;
  disk : option fs
}.

Definition new (data_dir : option fs) : BackgroundCompactor :=
  {| queue := []; running := true; compaction := Compaction.new; disk := data_dir |}.

(** Sending on the channel fails only when the worker has gone. *)
Definition submit (bc : BackgroundCompactor) (page : Page) : res bytes BackgroundCompactor :=
  if running bc
  then Ok {| queue := queue bc ++ [AddPage page]; running := true; compaction := compaction bc; disk := disk bc |}
  else Err (str "failed to submit page to compactor: sending on a closed channel").

Definition shutdown (bc : BackgroundCompactor) : BackgroundCompactor :=
  {| queue := queue bc ++ [Shutdown]; running := running bc; compaction := compaction bc; disk := disk bc |}.

Section worker.
Context (deflate : bytes -> bytes) (read_dir : fs -> list bytes).

(** One turn of the worker loop; [io] is the number of file operations of the
    save that succeed (a failed save is reported and ignored). *)
Definition worker_step (io : nat) (bc : BackgroundCompactor) : option BackgroundCompactor :=
  if running bc then
    match queue bc with
    | [] => None
    | AddPage page :: q =>
        let c := add_l0_page deflate (compaction bc) page in
        Some {| queue := q; running := true; compaction := c;
                disk := (fun d => (save_all_cut deflate read_dir io d (all_pages c)).1) <$> disk bc |}
    | Shutdown :: q =>
        Some {| queue := q; running := false; compaction := compaction bc; disk := disk bc |}
    end
  else None.

(** The join of [shutdown]: the worker runs until it stops or has nothing to receive. *)
Fixpoint drain_worker (fuel : nat) (io : nat) (bc : BackgroundCompactor) : BackgroundCompactor :=
  match fuel with
  | O => bc
  | S fuel' => match worker_step io bc with
               | Some bc' => drain_worker fuel' io bc'
               | None => bc
               end
  end.

(** The threads' steps: [Some p] labels the submission of [p]. *)
Inductive step : BackgroundCompactor -> option Page -> BackgroundCompactor -> Prop :=
  | step_submit bc p bc' : submit bc p = Ok bc' -> step bc (Some p) bc'
  | step_shutdown bc : step bc None (shutdown bc)
  | step_worker io bc bc' : worker_step io bc = Some bc' -> step bc None bc'.

Inductive steps (bc : BackgroundCompactor) : list Page -> BackgroundCompactor -> Prop :=
  | steps_refl : steps bc [] bc
  | steps_submit ps p bc1 bc2 : steps bc ps bc1 -> step bc1 (Some p) bc2 -> steps bc (ps ++ [p]) bc2
  | steps_silent ps bc1 bc2 : steps bc ps bc1 -> step bc1 None bc2 -> steps bc ps bc2.

(** The pages waiting in the channel. *)
Definition queued (q : list Command) : list Page :=
  omap (fun c => match c with AddPage p => Some p | Shutdown => None end) q.

(** Submitted pages are merged in the order of submission, each exactly once. *)
Definition bg_inv (ps : list Page) (bc : BackgroundCompactor) : Prop :=
  exists merged, ps = merged ++ queued (queue bc) /\
    compaction bc = foldl (add_l0_page deflate) Compaction.new merged.

Lemma queued_app q1 q2 : queued (q1 ++ q2) = queued q1 ++ queued q2.
Proof. apply omap_app. Qed.

Lemma bg_inv_submit ps bc p bc' : bg_inv ps bc -> submit bc p = Ok bc' -> bg_inv (ps ++ [p]) bc'.
Proof.
  intros (m & -> & Hc). unfold submit. destruct (running bc); [|done]. intros [= <-].
  exists m. cbn [queue compaction]. by rewrite queued_app, <- app_assoc.
Qed.

Lemma bg_inv_worker ps io bc bc' : bg_inv ps bc -> worker_step io bc = Some bc' -> bg_inv ps bc'.
Proof.
  intros (m & -> & Hc). unfold worker_step. destruct (running bc); [|done].
  destruct (queue bc) as [|[p|] q]; intros [= <-]; unfold bg_inv; cbn [queue compaction].
  - exists (m ++ [p]). rewrite <- app_assoc. split; [done|]. by rewrite foldl_app, Hc.
  - by exists m.
Qed.

Lemma steps_inv dir ps bc : steps (new dir) ps bc -> bg_inv ps bc.
Proof.
  induction 1 as [|ps p bc1 bc2 _ IH Hs|ps bc1 bc2 _ IH Hs].
  - by exists [].
  - inversion Hs; subst. by eapply bg_inv_submit.
  - inversion Hs; subst; [|by eapply bg_inv_worker].
    destruct IH as (m & -> & Hc). exists m. cbn. by rewrite queued_app, app_nil_r.
Qed.

(** whatever the interleaving of submissions with the worker, and whether or
    not the saves succeed, the shared levels are always those of the pages
    submitted so far merged one by one in submission order, less the pages still
    in the channel; with an empty channel nothing is missing. *)
Theorem worker_refines_sequential dir ps bc : steps (new dir) ps bc ->
  exists merged, ps = merged ++ queued (queue bc) /\
    compaction bc = foldl (add_l0_page deflate) Compaction.new merged /\
    (Forall sorted_page ps -> cm_wf (compaction bc)) /\
    (queue bc = [] -> compaction bc = foldl (add_l0_page deflate) Compaction.new ps).
Proof.
  intros (m & Hps & Hc)%steps_inv. exists m. split_and!; [done..| |].
  - intros Hps'. rewrite Hps in Hps'. apply Forall_app in Hps' as [Hm _]. rewrite Hc. clear Hps Hc.
    generalize Compaction.cm_new_wf. generalize Compaction.new as cm.
    induction Hm as [|p m Hp Hm IH]; intros cm Hwf; [done|]. apply IH. by apply add_l0_page_wf.
  - intros Hq. rewrite Hq in Hps. cbn in Hps. rewrite app_nil_r in Hps. by subst.
Qed.
End worker.

(** ** Schedules

    A schedule is a list of events: submissions, requests to stop, and turns of the
    worker, each with the number of file operations of its save that succeed. A
    turn with nothing to receive changes nothing. *)
Inductive Event :=
  | Send (page : Page)
  | Stop
  | Turn (io : nat).

Fixpoint turns (es : list Event) : nat :=
  match es with [] => 0 | Turn _ :: es' => S (turns es') | _ :: es' => turns es' end%nat.
Fixpoint sends (es : list Event) : list Page :=
  match es with [] => [] | Send p :: es' => p :: sends es' | _ :: es' => sends es' end.

Section schedules.
Context (deflate : bytes -> bytes) (read_dir : fs -> list bytes).

Abbreviation worker_step := (worker_step deflate read_dir).
Abbreviation drain_worker := (drain_worker deflate read_dir).
Abbreviation merge_pages := (foldl (add_l0_page deflate)).

Definition run_event (bc : BackgroundCompactor) (ev : Event) : BackgroundCompactor :=
  match ev with
  | Send p => match submit bc p with Ok bc' => bc' | _ => bc end
  | Stop => shutdown bc
  | Turn io => default bc (worker_step io bc)
  end.

Lemma stopped_merges es : forall bc, running bc = false -> compaction (foldl run_event bc es) = compaction bc.
Proof.
  induction es as [|[p| |io] es IH]; intros [q r cm d] E; cbn in E |- *; subst r; [done|..]; by rewrite IH.
Qed.

(** What a schedule merges: what is in the channel and what is sent, in order, at least
    as much as there are turns for. *)
Lemma run_events es : forall bc, exists merged,
  compaction (foldl run_event bc es) = merge_pages (compaction bc) merged /\
  merged `prefix_of` (queued (queue bc) ++ sends es) /\
  (running bc = true -> forall q1 q2, queue bc = (AddPage <$> q1) ++ q2 -> (length q1 <= turns es)%nat -> q1 `prefix_of` merged).
Proof.
  induction es as [|ev es IH]; intros bc.
  { exists []. split_and!; [done|apply prefix_nil|]. intros _ [|p q1] q2 _ H; [done|cbn in H; lia]. }
  destruct (running bc) eqn:Hr.
  2: { exists []. split_and!; [by apply stopped_merges|apply prefix_nil|done]. }
  destruct (IH (run_event bc ev)) as (merged & Hc & Hp & Hq). cbn [foldl]. rewrite Hc. clear Hc IH.
  destruct bc as [q r cm d]; cbn in Hr; subst r; destruct ev as [p| |io]; cbn in *.
  - exists merged. rewrite queued_app, <- app_assoc in Hp. split_and!; [done..|].
    intros _ q1 q2 -> Hl. apply (Hq eq_refl q1 (q2 ++ [AddPage p])); [by rewrite <- app_assoc|done].
  - exists merged. rewrite queued_app, app_nil_r in Hp. split_and!; [done..|].
    intros _ q1 q2 -> Hl. apply (Hq eq_refl q1 (q2 ++ [Shutdown])); [by rewrite <- app_assoc|done].
  - destruct q as [|[p|] q]; cbn in *.
    + exists merged. split_and!; [done..|]. intros _ [|p q1] q2 E _; [apply prefix_nil|done].
    + exists (p :: merged). split_and!; [done|by apply prefix_cons|].
      intros _ [|p' q1] q2 E Hl; [apply prefix_nil|]. injection E as <- E. apply prefix_cons, (Hq eq_refl q1 q2); [done|cbn in Hl; lia].
    + exists merged. split_and!; [done..|]. intros _ [|p' q1] q2 E _; [apply prefix_nil|done].
Qed.

(** Until it is asked to stop, the worker accepts everything, and it has merged what is not in the channel. *)
Lemma run_accepts es : forall bc, running bc = true -> Shutdown ∉ queue bc -> Stop ∉ es ->
  let bc' := foldl run_event bc es in
  running bc' = true /\ (Shutdown ∉ queue bc') /\
  merge_pages (compaction bc') (queued (queue bc')) = merge_pages (compaction bc) (queued (queue bc) ++ sends es).
Proof.
  induction es as [|ev es IH]; intros bc Hr Hq Hes; [cbn; by rewrite app_nil_r|].
  apply not_elem_of_cons in Hes as [Hev Hes]. cbn [foldl].
  assert (exists q cm d, run_event bc ev = mkBg q true cm d /\ (Shutdown ∉ q) /\
    merge_pages cm (queued q ++ sends es) = merge_pages (compaction bc) (queued (queue bc) ++ sends (ev :: es))) as (q & cm & d & E & Hq' & Hm).
  { destruct bc as [q r cm d]; cbn in Hr, Hq |- *; subst r. destruct ev as [p| |io]; [|done|].
    - do 3 eexists. split; [done|]. rewrite not_elem_of_app, list_elem_of_singleton. split; [done|].
      cbn. by rewrite queued_app, <- app_assoc.
    - destruct q as [|[p|] q]; cbn in *; [by do 3 eexists| |by apply not_elem_of_cons in Hq as []].
      do 3 eexists. split; [done|]. apply not_elem_of_cons in Hq as [_ Hq]. by split. }
  rewrite E, <- Hm. by apply IH.
Qed.

(** Joining a worker that has been asked to stop empties its channel. *)
Lemma drain_stops io q : forall cm d, Shutdown ∉ q -> exists d',
  drain_worker (S (length q)) io (mkBg (q ++ [Shutdown]) true cm d) = mkBg [] false (merge_pages cm (queued q)) d'.
Proof.
  induction q as [|[p|] q IH]; intros cm d Hq; [by eexists| |by apply not_elem_of_cons in Hq as []].
  apply not_elem_of_cons in Hq as [_ Hq]. cbn [length BgCompaction.drain_worker BgCompaction.worker_step running queue app]. by apply IH.
Qed.

(** C23: no page is lost. Under any schedule in which nobody has asked the worker to stop,
    every submission is accepted, and a page submitted then has been merged, after everything
    submitted before it, as soon as the worker has taken as many turns as the channel was long, whatever is
    submitted, stopped or failed to be saved meanwhile; and a shutdown, which joins the worker, ends with
    an empty channel, a stopped worker and every page merged. *)
Theorem submitted_pages_are_merged dir es p es2 io : Stop ∉ es ->
  let bc := foldl run_event (new dir) es in
  (exists bc', submit bc p = Ok bc' /\
    ((length (queue bc') <= turns es2)%nat -> exists later, later `prefix_of` sends es2 /\
      compaction (foldl run_event bc' es2) = merge_pages Compaction.new (sends es ++ p :: later))) /\
  let bc2 := drain_worker (length (queue (shutdown bc))) io (shutdown bc) in
  running bc2 = false /\ queue bc2 = [] /\ compaction bc2 = merge_pages Compaction.new (sends es).
Proof.
  intros Hes bc. destruct (run_accepts es (new dir) eq_refl ltac:(by intros ?%not_elem_of_nil) Hes) as (Hr & Hq & Hm).
  change (compaction (new dir)) with Compaction.new in Hm. change (queued (queue (new dir)) ++ sends es) with (sends es) in Hm.
  fold bc in Hr, Hq, Hm. destruct bc as [q r cm d]. cbn [running queue compaction] in Hr, Hq, Hm. subst r. split.
  - eexists. split; [done|]. cbn [queue]. intros Hl.
    destruct (run_events es2 (mkBg (q ++ [AddPage p]) true cm d)) as (merged & Hc & Hp & Hx). cbn [queue running] in *.
    assert (q ++ [AddPage p] = AddPage <$> (queued q ++ [p])) as Eq.
    { rewrite fmap_app. f_equal. clear -Hq. induction q as [|[x|] q IH]; [done| |by apply not_elem_of_cons in Hq as []].
      apply not_elem_of_cons in Hq as [_ Hq]. exact (f_equal (cons (AddPage x)) (IH Hq)). }
    destruct (Hx eq_refl (queued q ++ [p]) []) as [later ->]; [by rewrite app_nil_r|by rewrite Eq, length_fmap in Hl|].
    exists later. rewrite queued_app in Hp. apply prefix_app_inv in Hp. split; [done|]. etrans; [exact Hc|]. cbn [compaction].
    by rewrite (foldl_app _ (sends es)), <- Hm, <- foldl_app, <- app_assoc.
  - destruct (drain_stops io q cm d Hq) as [d' E]. change (queue (shutdown (mkBg q true cm d))) with (q ++ [Shutdown]).
    replace (length (q ++ [Shutdown])) with (S (length q)) by (rewrite length_app; cbn; lia).
    cbv zeta. change (shutdown (mkBg q true cm d)) with (mkBg (q ++ [Shutdown]) true cm d). rewrite E. by split_and!.
Qed.
End schedules.

(** ** Witness *)
Lemma submitted_pages_are_merged_witness :
  let bc := foldl (run_event (fun b => b) list_names) (new None) [Send (sample_flush "v1"); Turn 0; Send (sample_flush "v2")] in
  exists bc', submit bc (sample_flush "v3") = Ok bc' /\ exists later,
    compaction (foldl (run_event (fun b => b) list_names) bc' [Turn 0; Stop; Turn 0]) =
      foldl (add_l0_page (fun b => b)) Compaction.new (sends [Send (sample_flush "v1"); Turn 0; Send (sample_flush "v2")] ++ sample_flush "v3" :: later).
Proof.
  destruct (submitted_pages_are_merged (fun b => b) list_names None [Send (sample_flush "v1"); Turn 0; Send (sample_flush "v2")]
    (sample_flush "v3") [Turn 0; Stop; Turn 0] 0) as [(bc' & E & H) _].
  { by intros [[=]|[[=]|[[=]|[]%not_elem_of_nil]%elem_of_cons]%elem_of_cons]%elem_of_cons. }
  exists bc'. split; [exact E|]. destruct H as (later & _ & H).
  - vm_compute in E. injection E as <-. cbn. lia.
  - exists later. exact H.
Defined.

Lemma worker_refines_sequential_witness : exists bc,
  steps (fun b => b) list_names (new None) [sample_flush "v1"; sample_flush "v2"] bc /\
  length (queue bc) = 1%nat /\
  exists merged, compaction bc = foldl (add_l0_page (fun b => b)) Compaction.new merged /\
    [sample_flush "v1"; sample_flush "v2"] = merged ++ queued (queue bc).
Proof.
  set (bc := {| queue := [AddPage (sample_flush "v2")]; running := true;
    compaction := add_l0_page (fun b => b) Compaction.new (sample_flush "v1"); disk := None |}).
  assert (steps (fun b => b) list_names (new None) [sample_flush "v1"; sample_flush "v2"] bc) as H.
  { apply (steps_submit _ _ _ [sample_flush "v1"] (sample_flush "v2")
      {| queue := []; running := true; compaction := compaction bc; disk := None |}); [|by constructor].
    apply (steps_silent _ _ _ _ {| queue := [AddPage (sample_flush "v1")]; running := true;
      compaction := Compaction.new; disk := None |}); [|by apply (step_worker _ _ 0)].
    apply (steps_submit _ _ _ [] (sample_flush "v1") (new None)); [|by constructor]. constructor. }
  exists bc.
  split; [exact H|]. split; [done|].
  destruct (worker_refines_sequential _ _ _ _ _ H) as (m & E1 & E2 & _). by exists m.
Defined.
