(* ===== verification/Cache.v ===== *)
(** * The LRU read cache ([src/storage/cache.rs])

    A hash map whose entries carry the generation of their last use, and the
    specification it implements: a list of bindings, most recently used first. *)

From S2P Require Import Prelude.
Local Open Scope Z_scope.

Definition DEFAULT_CACHE_CAPACITY : nat := Z.to_nat 1024.

Record CacheEntry := mkEntry { value : bytes; generation : Z }.

Record LruCache := mkCache {
  entries : gmap bytes CacheEntry;
  capacity : nat;
  clock : Z  (* the field [generation] of the cache *)
}.

Definition new (capacity : nat) : LruCache := {| entries := ∅; capacity := capacity; clock := 0 |}.

Definition get (c : LruCache) (key : bytes) : option bytes * LruCache :=
  match entries c !! key with
  | Some e =>
      let g := u64 (clock c + 1) in
      (Some (value e), {| entries := <[key := {| value := value e; generation := g |}]> (entries c);
                          capacity := capacity c; clock := g |})
  | None => (None, c)
  end.

(** The eviction scan: the first entry with the least generation. *)
Definition min_step (acc : Z * option bytes) (ke : bytes * CacheEntry) : Z * option bytes :=
  if generation ke.2 <? acc.1 then (generation ke.2, Some ke.1) else acc.

Definition invalidate (c : LruCache) (key : bytes) : LruCache :=
  {| entries := base.delete key (entries c); capacity := capacity c; clock := clock c |}.

Definition clear (c : LruCache) : LruCache := {| entries := ∅; capacity := capacity c; clock := clock c |}.

Definition len (c : LruCache) : nat := size (entries c).
Definition is_empty (c : LruCache) : bool := (size (entries c) =? 0)%nat.

Section cache.
(** The iteration order of the hash map is arbitrary. *)
Context (iter : gmap bytes CacheEntry -> list (bytes * CacheEntry)).

Definition evict (m : gmap bytes CacheEntry) : gmap bytes CacheEntry :=
  match (foldl min_step (u64_max, None) (iter m)).2 with
  | Some k => base.delete k m
  | None => m
  end.

Definition insert (c : LruCache) (key v : bytes) : LruCache :=
  let g := u64 (clock c + 1) in
  let e := {| value := v; generation := g |} in
  match entries c !! key with
  | Some _ => {| entries := <[key := e]> (entries c); capacity := capacity c; clock := g |}
  | None =>
      let m := if (capacity c <=? size (entries c))%nat then evict (entries c) else entries c in
      {| entries := <[key := e]> m; capacity := capacity c; clock := g |}
  end.

(** ** The specification *)
Inductive op :=
  | OpGet (key : bytes)
  | OpInsert (key v : bytes)
  | OpInvalidate (key : bytes)
  | OpClear.

Definition run_op (c : LruCache) (o : op) : option bytes * LruCache :=
  match o with
  | OpGet k => get c k
  | OpInsert k v => (None, insert c k v)
  | OpInvalidate k => (None, invalidate c k)
  | OpClear => (None, clear c)
  end.

Fixpoint run (c : LruCache) (os : list op) : list (option bytes) * LruCache :=
  match os with
  | [] => ([], c)
  | o :: os' => let '(r, c1) := run_op c o in let '(rs, c2) := run c1 os' in (r :: rs, c2)
  end.

Definition assoc (l : list (bytes * bytes)) (k : bytes) : option bytes := (list_to_map l : gmap bytes bytes) !! k.

Definition without {A} (k : bytes) (l : list (bytes * A)) : list (bytes * A) := filter (fun x => x.1 <> k) l.

(** The least recently used binding is the last one. *)
Definition spec_op (cap : nat) (l : list (bytes * bytes)) (o : op) : option bytes * list (bytes * bytes) :=
  match o with
  | OpGet k => match assoc l k with Some v => (Some v, (k, v) :: without k l) | None => (None, l) end
  | OpInsert k v =>
      (None, (k, v) :: match assoc l k with
                       | Some _ => without k l
                       | None => if (cap <=? length l)%nat then removelast l else l
                       end)
  | OpInvalidate k => (None, without k l)
  | OpClear => (None, [])
  end.

Fixpoint spec_run (cap : nat) (l : list (bytes * bytes)) (os : list op)
    : list (option bytes) * list (bytes * bytes) :=
  match os with
  | [] => ([], l)
  | o :: os' => let '(r, l1) := spec_op cap l o in let '(rs, l2) := spec_run cap l1 os' in (r :: rs, l2)
  end.

(** ** Simulation *)
Context (iter_spec : forall m, iter m ≡ₚ map_to_list m).

Abbreviation newer := (fun a b : bytes * CacheEntry => generation b.2 < generation a.2).

Definition binding (x : bytes * CacheEntry) : bytes * bytes := (x.1, value x.2).

(** [l] lists the bindings of the cache by descending generation. *)
Definition refines (c : LruCache) (l : list (bytes * bytes)) : Prop :=
  exists es, entries c = list_to_map es /\ NoDup es.*1 /\ StronglySorted newer es /\
    Forall (fun x => 0 <= generation x.2 <= clock c) es /\ l = binding <$> es.

Lemma StronglySorted_filter {A} (R : A -> A -> Prop) (P : A -> Prop) `{!forall x, Decision (P x)} l :
  StronglySorted R l -> StronglySorted R (filter P l).
Proof.
  induction 1 as [|x l Hs IH Hx]; [constructor|]. rewrite filter_cons. case_decide; [|done].
  constructor; [done|]. rewrite Forall_forall in Hx |- *. intros y [_ Hy]%list_elem_of_filter. auto.
Qed.

Lemma StronglySorted_without {A} (R : bytes * A -> bytes * A -> Prop) (k : bytes) (l : list (bytes * A)) :
  StronglySorted R l -> StronglySorted R (without k l).
Proof. apply StronglySorted_filter. Qed.

Lemma list_to_map_without {A} (k : bytes) (l : list (bytes * A)) :
  (list_to_map (without k l) : gmap bytes A) = base.delete k (list_to_map l).
Proof.
  induction l as [|[k' a] l IH]; [cbn; by rewrite delete_empty|].
  unfold without. rewrite filter_cons. fold (without k l). cbn [fst]. case_decide.
  - rewrite !list_to_map_cons, IH. by rewrite delete_insert_ne.
  - assert (k' = k) as -> by (destruct (decide (k' = k)); naive_solver). rewrite list_to_map_cons, IH. apply map_eq. intros j. destruct (decide (j = k)) as [->|].
    + by rewrite !lookup_delete_eq.
    + by rewrite !lookup_delete_ne, lookup_insert_ne.
Qed.

Lemma without_fst {A} (k : bytes) (l : list (bytes * A)) : NoDup l.*1 -> NoDup (without k l).*1 /\ k ∉ (without k l).*1.
Proof.
  intros Hnd. split.
  - induction l as [|x l IH]; unfold without; [constructor|]. csimpl in Hnd. apply NoDup_cons in Hnd as [Hni Hnd].
    rewrite filter_cons. case_decide; [|by apply IH]. csimpl. constructor; [|by apply IH].
    intros (y & Hy1 & [_ Hy2]%list_elem_of_filter)%list_elem_of_fmap. apply Hni. rewrite Hy1.
    by apply list_elem_of_fmap_2.
  - intros (y & Hy1 & [Hy2 _]%list_elem_of_filter)%list_elem_of_fmap. done.
Qed.

Lemma Forall_without {A} (P : bytes * A -> Prop) (k : bytes) (l : list (bytes * A)) : Forall P l -> Forall P (without k l).
Proof. rewrite !Forall_forall. intros H x [_ Hx]%list_elem_of_filter. auto. Qed.

Lemma without_binding k es : without k (binding <$> es) = binding <$> without k es.
Proof.
  induction es as [|x es IH]; [done|]. unfold without in *. cbn [fmap list_fmap]. rewrite !filter_cons.
  cbn [binding fst]. case_decide; cbn [fmap list_fmap]; by rewrite IH.
Qed.

Lemma assoc_binding es k : assoc (binding <$> es) k = value <$> (list_to_map es : gmap bytes CacheEntry) !! k.
Proof.
  unfold assoc. induction es as [|x es IH]; [done|]. cbn [fmap list_fmap].
  destruct x as [k' e]. unfold binding at 1. cbn [fst snd]. rewrite !list_to_map_cons, !lookup_insert.
  by case_decide.
Qed.

Lemma map_to_list_of es : NoDup es.*1 -> map_to_list (list_to_map es : gmap bytes CacheEntry) ≡ₚ es.
Proof. apply map_to_list_to_map. Qed.

Lemma size_refines c l : refines c l -> size (entries c) = length l.
Proof.
  intros (es & E & Hnd & _ & _ & ->). rewrite E, length_fmap, <- length_map_to_list.
  by rewrite map_to_list_of.
Qed.

(** The scan finds a minimum, whatever the order it visits the entries in. *)
Lemma min_scan l acc :
  let r := foldl min_step acc l in
  (r = acc \/ exists x, x ∈ l /\ r = (generation x.2, Some x.1)) /\
  r.1 <= acc.1 /\ forall x, x ∈ l -> r.1 <= generation x.2.
Proof.
  revert acc. induction l as [|x l IH]; intros acc r.
  { unfold r. split_and!; [by left|cbn; lia|]. by intros x ?%not_elem_of_nil. }
  subst r. cbn [foldl]. destruct (IH (min_step acc x)) as (Hr & Hle & Hmin).
  set (r := foldl min_step (min_step acc x) l) in *. unfold min_step in Hr, Hle.
  destruct (Z.ltb_spec (generation x.2) acc.1); cbn [fst] in *.
  - split_and!; [right|lia|].
    + destruct Hr as [->|(y & Hy & ->)]; [exists x|exists y]; (split; [set_solver|done]).
    + intros y [->|Hy]%elem_of_cons; auto.
  - split_and!; [|lia|].
    + destruct Hr as [->|(y & Hy & ->)]; [by left|right; exists y; set_solver].
    + intros y [->|Hy]%elem_of_cons; [lia|auto].
Qed.

(** Putting a binding in front of the remaining entries. *)
Lemma refines_push c (es : list (bytes * CacheEntry)) (k v : bytes) cap :
  NoDup es.*1 -> k ∉ es.*1 -> StronglySorted newer es ->
  Forall (fun x => 0 <= generation x.2 <= clock c) es -> 0 <= clock c -> clock c + 1 <= u64_max ->
  refines {| entries := <[k := {| value := v; generation := u64 (clock c + 1) |}]> (list_to_map es);
             capacity := cap; clock := u64 (clock c + 1) |} ((k, v) :: (binding <$> es)).
Proof.
  intros Hnd Hk Hs Hg Hc Hmax. rewrite wrap_small by (unfold u64_max in *; lia).
  exists ((k, {| value := v; generation := clock c + 1 |}) :: es). cbn [entries clock]. split_and!.
  - done.
  - csimpl. by constructor.
  - constructor; [done|]. eapply Forall_impl; [exact Hg|]. cbn. lia.
  - constructor; [cbn; lia|]. eapply Forall_impl; [exact Hg|]. cbn. lia.
  - done.
Qed.

Lemma sorted_last (es : list (bytes * CacheEntry)) (x : bytes * CacheEntry) :
  StronglySorted newer (es ++ [x]) -> Forall (fun y => generation x.2 < generation y.2) es.
Proof.
  induction es as [|y es IH]; [constructor|]. cbn. intros [Hs Hy]%StronglySorted_inv.
  apply Forall_app in Hy as [_ Hy]. apply Forall_cons in Hy as [Hy _]. constructor; auto.
Qed.

(** Eviction removes exactly the least recently used entry. *)
Lemma evict_last (es : list (bytes * CacheEntry)) (x : bytes * CacheEntry) : NoDup (es ++ [x]).*1 -> StronglySorted newer (es ++ [x]) ->
  generation x.2 < u64_max -> evict (list_to_map (es ++ [x])) = list_to_map es.
Proof.
  intros Hnd Hs Hx. unfold evict. set (m := list_to_map (es ++ [x])).
  assert (iter m ≡ₚ es ++ [x]) as Hp by (by rewrite iter_spec; apply map_to_list_of).
  destruct (min_scan (iter m) (u64_max, None)) as (Hr & _ & Hmin).
  set (r := foldl min_step _ _) in *. pose proof (sorted_last _ _ Hs) as Hlast.
  assert (r.1 <= generation x.2) as Hle by (apply Hmin; rewrite Hp; set_solver).
  assert (r = (generation x.2, Some x.1)) as ->.
  { destruct Hr as [->|(y & Hy & ->)]; [cbn in Hle; lia|].
    rewrite Hp in Hy. apply elem_of_app in Hy as [Hy|Hy%list_elem_of_singleton]; [|by subst].
    rewrite Forall_forall in Hlast. specialize (Hlast y Hy). cbn in *. lia. }
  cbn [snd]. unfold m. rewrite <- list_to_map_without. f_equal.
  rewrite fmap_app in Hnd. apply NoDup_app in Hnd as (_ & Hni & _).
  unfold without. rewrite filter_app, (filter_all _ es), (filter_none _ [x]), app_nil_r; [done| |].
  - repeat constructor. naive_solver.
  - apply Forall_forall. intros y Hy E. apply (Hni y.1); [by apply list_elem_of_fmap_2|]. rewrite E. left.
Qed.

Lemma removelast_binding es x : removelast (binding <$> (es ++ [x])) = binding <$> es.
Proof. rewrite fmap_app. apply removelast_last. Qed.

Lemma insert_refines c l k v : refines c l -> 0 <= clock c -> clock c + 1 <= u64_max ->
  refines (insert c k v) (spec_op (capacity c) l (OpInsert k v)).2.
Proof.
  intros Href Hc Hmax. pose proof (size_refines c l Href) as Hsize.
  destruct Href as (es & E & Hnd & Hs & Hg & ->).
  unfold insert. cbn [spec_op snd]. rewrite assoc_binding, <- E, Hsize. cbv zeta.
  destruct (entries c !! k) as [e|] eqn:Hk; cbn [fmap option_fmap option_map].
  - rewrite without_binding, E. rewrite <- insert_delete_eq, <- list_to_map_without.
    destruct (without_fst k es Hnd). apply refines_push; auto using StronglySorted_without, Forall_without.
  - destruct (capacity c <=? length (binding <$> es))%nat eqn:Hcap; rewrite E in *.
    + destruct es as [|x es _] using rev_ind.
      * unfold evict. assert (iter (list_to_map []) = []) as ->.
        { apply Permutation_nil_r. rewrite iter_spec. cbn. by rewrite map_to_list_empty. }
        cbn [foldl snd fmap list_fmap removelast]. apply (refines_push _ []); auto; solve [constructor | apply not_elem_of_nil].
      * rewrite evict_last, removelast_binding; [|done..|].
        -- apply refines_push; auto.
           ++ rewrite fmap_app in Hnd. apply NoDup_app in Hnd. tauto.
           ++ apply not_elem_of_list_to_map in Hk. set_solver.
           ++ by apply StronglySorted_app_1_l in Hs.
           ++ apply Forall_app in Hg. tauto.
        -- apply Forall_app in Hg as [_ Hg]. apply Forall_cons in Hg as [Hg _]. lia.
    + apply refines_push; auto. by apply not_elem_of_list_to_map.
Qed.

Lemma get_refines c l k : refines c l -> 0 <= clock c -> clock c + 1 <= u64_max ->
  (get c k).1 = (spec_op (capacity c) l (OpGet k)).1 /\
  refines (get c k).2 (spec_op (capacity c) l (OpGet k)).2.
Proof.
  intros Href Hc Hmax. pose proof Href as (es & E & Hnd & Hs & Hg & ->).
  unfold get. cbn [spec_op]. rewrite assoc_binding, <- E.
  destruct (entries c !! k) as [e|]; cbn [fmap option_fmap option_map fst snd]; [|done].
  split; [done|]. rewrite without_binding, E, <- insert_delete_eq, <- list_to_map_without.
  destruct (without_fst k es Hnd). apply refines_push; auto using StronglySorted_without, Forall_without.
Qed.

Lemma invalidate_refines c l k : refines c l -> refines (invalidate c k) (without k l).
Proof.
  intros (es & E & Hnd & Hs & Hg & ->). exists (without k es). cbn [entries clock invalidate].
  rewrite E, list_to_map_without, without_binding. destruct (without_fst k es Hnd).
  split_and!; auto using StronglySorted_without, Forall_without.
Qed.

Lemma run_op_refines c l o : refines c l -> 0 <= clock c -> clock c + 1 <= u64_max ->
  (run_op c o).1 = (spec_op (capacity c) l o).1 /\ refines (run_op c o).2 (spec_op (capacity c) l o).2 /\
  capacity (run_op c o).2 = capacity c /\ clock c <= clock (run_op c o).2 <= clock c + 1.
Proof.
  intros Href Hc Hmax. assert (u64 (clock c + 1) = clock c + 1) as Hw by (apply wrap_small; unfold u64_max in *; lia).
  destruct o as [k|k v|k|]; cbn [run_op].
  - destruct (get_refines c l k Href Hc Hmax) as [H1 H2]. split_and!; [done..| | |];
      unfold get; destruct (entries c !! k); cbn [snd capacity clock]; lia || done.
  - split_and!; [done|by apply insert_refines|..]; unfold insert; destruct (entries c !! k); cbn [snd capacity clock]; lia || done.
  - split_and!; [done|by apply invalidate_refines|cbn; lia..].
  - split_and!; [done| |cbn; lia..]. exists []. split_and!; constructor.
Qed.

Lemma run_refines os : forall c l, refines c l -> 0 <= clock c -> clock c + Z.of_nat (length os) <= u64_max ->
  (run c os).1 = (spec_run (capacity c) l os).1 /\ refines (run c os).2 (spec_run (capacity c) l os).2.
Proof.
  induction os as [|o os IH]; intros c l Href Hc Hmax; [done|]. cbn [length] in Hmax. cbn [run spec_run].
  destruct (run_op_refines c l o Href Hc ltac:(lia)) as (H1 & H2 & H3 & H4).
  destruct (run_op c o) as [r c1], (spec_op (capacity c) l o) as [r' l1]. cbn [fst snd] in *. subst r'.
  destruct (IH c1 l1 H2 ltac:(lia) ltac:(lia)) as [H5 H6]. rewrite H3 in H5, H6.
  destruct (run c1 os) as [rs c2], (spec_run (capacity c) l1 os) as [rs' l2]. cbn [fst snd] in *. by subst.
Qed.

Lemma spec_bound cap os : forall l, (length l <= Nat.max cap 1)%nat ->
  (length (spec_run cap l os).2 <= Nat.max cap 1)%nat.
Proof.
  assert (forall (k : bytes) (l : list (bytes * bytes)), length (without k l) <= length l)%nat as Hw by (intros; apply length_filter).
  assert (forall (k : bytes) (l : list (bytes * bytes)) v, assoc l k = Some v -> S (length (without k l)) <= length l)%nat as Hw'.
  { intros k l v Hv. unfold assoc in Hv. apply elem_of_list_to_map_2 in Hv. eapply length_filter_lt; [exact Hv|]. naive_solver. }
  induction os as [|o os IH]; intros l Hl; [done|]. cbn [spec_run].
  destruct (spec_op cap l o) as [r l1] eqn:E.
  assert (length l1 <= Nat.max cap 1)%nat as Hl1.
  { destruct o as [k|k v|k|]; cbn [spec_op] in E; [destruct (assoc l k) eqn:Ek|..]; simplify_eq; cbn [length]; try lia.
    - specialize (Hw' k l _ Ek). lia.
    - destruct (assoc l k) eqn:Ek; [specialize (Hw' k l _ Ek); lia|].
      destruct (Nat.leb_spec cap (length l)); [|lia].
      destruct l as [|x l _] using rev_ind; [cbn; lia|]. rewrite removelast_last. rewrite length_app in *. cbn in *. lia.
    - specialize (Hw k l). lia. }
  specialize (IH l1 Hl1). by destruct (spec_run cap l1 os).
Qed.

(** C20: run from empty, the cache answers every sequence of gets, inserts,
    invalidations and clears (fewer than 2^64 - 1 of them) as a least-recently-used
    list of its capacity does, whatever the iteration order of the hash map, and
    never holds more entries than its capacity, or one when the capacity is zero. *)
Theorem cache_refines_lru cap os : Z.of_nat (length os) <= u64_max ->
  (run (new cap) os).1 = (spec_run cap [] os).1 /\
  (len (run (new cap) os).2 <= Nat.max cap 1)%nat.
Proof.
  intros Hos. assert (refines (new cap) []) as Href by (exists []; split_and!; constructor).
  destruct (run_refines os (new cap) [] Href ltac:(cbn; lia) ltac:(cbn; lia)) as [H1 H2].
  split; [exact H1|]. unfold len. rewrite (size_refines _ _ H2). apply spec_bound. cbn. lia.
Qed.
End cache.

Lemma cache_refines_lru_witness :
  (run map_to_list (new 2) [OpInsert (str "a") (str "1"); OpInsert (str "b") (str "2"); OpGet (str "a");
     OpInsert (str "c") (str "3"); OpGet (str "b"); OpGet (str "a")]).1 =
  [None; None; Some (str "1"); None; None; Some (str "1")].
Proof.
  destruct (cache_refines_lru map_to_list (fun m => reflexivity _) 2 [OpInsert (str "a") (str "1");
    OpInsert (str "b") (str "2"); OpGet (str "a"); OpInsert (str "c") (str "3"); OpGet (str "b"); OpGet (str "a")])
    as [H _]; [by vm_compute|]. rewrite H. by vm_compute.
Defined.
