(* ===== verification/Hamt.v ===== *)
(** * The persistent hash trie ([src/tx/hamt.rs])

    A 32-way trie over the FNV-1a hash of the key. A node is a leaf or a branch
    whose bitmap says which of the 32 children are present; the children are
    stored densely. Nodes are immutable and shared, so a node is a value. *)

From S2P Require Import Prelude Fnv.
Local Open Scope Z_scope.

Definition BITS_PER_LEVEL : nat := 5.
Definition MASK : Z := 31.

Inductive Node :=
  | Leaf (hash : Z) (key value : bytes)
  | Branch (bitmap : Z) (children : list Node).

(** The release profile masks a shift amount to the width of the operand. *)
Definition bit_index (hash : Z) (level : nat) : nat :=
  Z.to_nat (Z.land (Z.shiftr hash (Z.of_nat (level * BITS_PER_LEVEL) mod 64)) MASK).

Definition count_ones (z : Z) : nat := length (filter (fun i => Z.testbit z (Z.of_nat i) = true) (seq 0 32)).

Definition flag (bit : nat) : Z := Z.shiftl 1 (Z.of_nat bit).

Definition sparse_index (bitmap : Z) (bit : nat) : nat := count_ones (Z.land bitmap (flag bit - 1)).

Record Hamt := mkHamt { root : option Node; len : nat }.

Definition new : Hamt := {| root := None; len := 0 |}.

Definition is_empty (h : Hamt) : bool := (len h =? 0)%nat.

(** ** Lookup

    An index outside of [children] panics. *)
Fixpoint get_node (n : Node) (hash : Z) (key : bytes) (level : nat) : res unit (option bytes) :=
  match n with
  | Leaf _ k value => Ok (if bool_decide (k = key) then Some value else None)
  | Branch bitmap children =>
      let bit := bit_index hash level in
      if Z.land bitmap (flag bit) =? 0 then Ok None
      else (fix at_index (cs : list Node) (i : nat) : res unit (option bytes) :=
              match cs, i with
              | [], _ => Panic
              | c :: _, O => get_node c hash key (S level)
              | _ :: cs', S i' => at_index cs' i'
              end) children (sparse_index bitmap bit)
  end.

Definition get (h : Hamt) (key : bytes) : res unit (option bytes) :=
  match root h with
  | None => Ok None
  | Some n => get_node n (fnv1a key) key 0
  end.

(** ** Insertion

    Splitting a leaf recurses on the same leaf one level deeper, without a bound:
    [Err tt] is the fuel running out. *)
Definition vec_insert {A} (i : nat) (x : A) (l : list A) : list A := take i l ++ x :: drop i l.

Fixpoint insert_node (fuel : nat) (node : option Node) (hash : Z) (key value : bytes) (level : nat)
    : res unit Node :=
  match fuel with
  | O => Err tt
  | S fuel' =>
      match node with
      | None => Ok (Leaf hash key value)
      | Some ((Leaf existing_hash existing_key existing_value) as n) =>
          if bool_decide (existing_key = key) then Ok (Leaf hash key value)
          else
            let old_bit := bit_index existing_hash level in
            let new_bit := bit_index hash level in
            if (old_bit =? new_bit)%nat then
              deeper ← insert_node fuel' (Some n) hash key value (S level);
              Ok (Branch (flag old_bit) [deeper])
            else
              let new_leaf := Leaf hash key value in
              Ok (Branch (Z.lor (flag old_bit) (flag new_bit))
                    (if (old_bit <? new_bit)%nat then [n; new_leaf] else [new_leaf; n]))
      | Some (Branch bitmap children) =>
          let bit := bit_index hash level in
          let idx := sparse_index bitmap bit in
          if Z.land bitmap (flag bit) =? 0 then
            if (idx <=? length children)%nat
            then Ok (Branch (Z.lor bitmap (flag bit)) (vec_insert idx (Leaf hash key value) children))
            else Panic
          else
            c ← index (children !! idx);
            child ← insert_node fuel' (Some c) hash key value (S level);
            Ok (Branch bitmap (<[idx := child]> children))
      end
  end.

(** Thirteen levels of five bits exhaust a 64-bit hash. *)
Definition INSERT_FUEL : nat := 14.

Definition put (h : Hamt) (key value : bytes) : res unit Hamt :=
  let hash := fnv1a key in
  old ← get h key;
  new_root ← insert_node INSERT_FUEL (root h) hash key value 0;
  Ok {| root := Some new_root; len := match old with Some _ => len h | None => S (len h) end |}.

(** ** Removal *)
Fixpoint remove_node (n : Node) (hash : Z) (key : bytes) (level : nat) : res unit (option Node) :=
  match n with
  | Leaf _ k _ => Ok (if bool_decide (k = key) then None else Some n)
  | Branch bitmap children =>
      let bit := bit_index hash level in
      if Z.land bitmap (flag bit) =? 0 then Ok (Some n)
      else
        let idx := sparse_index bitmap bit in
        new_child ← (fix at_index (cs : list Node) (i : nat) : res unit (option Node) :=
              match cs, i with
              | [], _ => Panic
              | c :: _, O => remove_node c hash key (S level)
              | _ :: cs', S i' => at_index cs' i'
              end) children idx;
        Ok match new_child with
           | None =>
               if (length children =? 1)%nat then None
               else Some (Branch (Z.land bitmap (Z.lnot (flag bit))) (base.delete idx children))
           | Some child => Some (Branch bitmap (<[idx := child]> children))
           end
  end.

Definition delete (h : Hamt) (key : bytes) : res unit Hamt :=
  old ← get h key;
  match old with
  | None => Ok h
  | Some _ =>
      new_root ← (match root h with None => Ok None | Some n => remove_node n (fnv1a key) key 0 end);
      Ok {| root := new_root; len := len h - 1 |}
  end.

Definition snapshot (h : Hamt) : Hamt := h.

(** ** Iteration *)
Fixpoint collect_leaves (n : Node) : list (bytes * bytes) :=
  match n with
  | Leaf _ key value => [(key, value)]
  | Branch _ children => concat (map collect_leaves children)
  end.

Definition iter (h : Hamt) : list (bytes * bytes) :=
  match root h with None => [] | Some n => collect_leaves n end.

Definition merge_from (h other : Hamt) : res unit Hamt :=
  foldl (fun acc kv => h ← acc; put h kv.1 kv.2) (Ok h) (iter other).

(** ** Hash indices *)
Lemma bit_index_lt h l : (bit_index h l < 32)%nat.
Proof.
  unfold bit_index, MASK. change 31 with (Z.ones 5). rewrite Z.land_ones by lia.
  pose proof (Z.mod_pos_bound (Z.shiftr h (Z.of_nat (l * BITS_PER_LEVEL) mod 64)) (2 ^ 5) ltac:(lia)). lia.
Qed.

(** The thirteen indices determine the hash. *)
Lemma bit_index_determines h h' : 0 <= h < 2 ^ 64 -> 0 <= h' < 2 ^ 64 ->
  (forall l, (l <= 12)%nat -> bit_index h l = bit_index h' l) -> h = h'.
Proof.
  intros Hh Hh' Hl. apply Z.bits_inj'. intros n Hn.
  destruct (Z.lt_ge_cases n 64) as [Hlt|Hge]; [|by rewrite !(testbit_high 64) by lia].
  specialize (Hl (Z.to_nat (n / 5))). unfold bit_index, BITS_PER_LEVEL, MASK in Hl.
  pose proof (Z.div_pos n 5 ltac:(lia) ltac:(lia)).
  assert (n / 5 <= 12) by (apply Z.lt_succ_r, Z.div_lt_upper_bound; lia).
  specialize (Hl ltac:(lia)). rewrite !Nat2Z.inj_mul, !Z2Nat.id in Hl by lia.
  change (Z.of_nat 5) with 5 in Hl. rewrite Z.mod_small in Hl by lia.
  assert (forall x, 0 <= Z.land x 31) as Hpos by (intros; apply Z.land_nonneg; lia).
  apply Z2Nat.inj in Hl; [|apply Hpos..].
  apply (f_equal (fun z => Z.testbit z (n mod 5))) in Hl. pose proof (Z.mod_pos_bound n 5 ltac:(lia)).
  change 31 with (Z.ones 5) in Hl.
  rewrite !Z.land_spec, Z.ones_spec_low, !andb_true_r, !Z.shiftr_spec in Hl by lia.
  replace (n mod 5 + n / 5 * 5) with n in Hl by (pose proof (Z.div_mod n 5 ltac:(lia)); lia). done.
Qed.

(** ** Bitmaps *)
Definition bits (bm : Z) : list nat := filter (fun i => Z.testbit bm (Z.of_nat i) = true) (seq 0 32).

Lemma testbit_flag bit i : Z.testbit (flag bit) (Z.of_nat i) = bool_decide (i = bit).
Proof.
  unfold flag. rewrite Z.shiftl_1_l. case_bool_decide; [subst; apply Z.pow2_bits_true; lia|].
  apply Z.pow2_bits_false. lia.
Qed.

Lemma land_flag bm bit : (Z.land bm (flag bit) =? 0) = negb (Z.testbit bm (Z.of_nat bit)).
Proof.
  destruct (Z.testbit bm (Z.of_nat bit)) eqn:E; cbn.
  - apply Z.eqb_neq. intros H. apply (f_equal (fun z => Z.testbit z (Z.of_nat bit))) in H.
    rewrite Z.land_spec, E, testbit_flag, bool_decide_eq_true_2 in H by done. by rewrite Z.bits_0 in H.
  - apply Z.eqb_eq, Z.bits_inj'. intros n Hn. rewrite Z.bits_0, Z.land_spec.
    rewrite <- (Z2Nat.id n), testbit_flag by done. case_bool_decide; [|apply andb_false_r].
    subst bit. by rewrite Z2Nat.id in E |- * by done; rewrite E.
Qed.

Definition low (bm : Z) (bit : nat) : list nat := filter (fun i => Z.testbit bm (Z.of_nat i) = true) (seq 0 bit).
Definition high (bm : Z) (bit : nat) : list nat :=
  filter (fun i => Z.testbit bm (Z.of_nat i) = true) (seq (S bit) (31 - bit)).

Lemma bits_split bm bit : (bit < 32)%nat ->
  bits bm = low bm bit ++ (if Z.testbit bm (Z.of_nat bit) then [bit] else []) ++ high bm bit.
Proof.
  intros Hb. unfold bits, low, high.
  assert (seq 0 32 = seq 0 bit ++ [bit] ++ seq (S bit) (31 - bit)) as ->.
  { change ([bit] ++ seq (S bit) (31 - bit)) with (seq bit (S (31 - bit))).
    rewrite <- (seq_app bit (S (31 - bit)) 0 : seq 0 _ = seq 0 bit ++ seq bit _). f_equal. lia. }
  rewrite !filter_app. f_equal. f_equal.
  rewrite (filter_singleton _ bit []). case_decide as H; [by rewrite H|]. by rewrite (not_true_is_false _ H).
Qed.

Lemma filter_seq_ext bm bm' s n :
  (forall i, (s <= i < s + n)%nat -> Z.testbit bm (Z.of_nat i) = Z.testbit bm' (Z.of_nat i)) ->
  filter (fun i => Z.testbit bm (Z.of_nat i) = true) (seq s n) =
  filter (fun i => Z.testbit bm' (Z.of_nat i) = true) (seq s n).
Proof.
  revert s. induction n as [|n IH]; intros s H; [done|]. cbn [seq]. rewrite !filter_cons, H by lia.
  rewrite (IH (S s)) by (intros; apply H; lia). done.
Qed.

Lemma sparse_index_low bm bit : (bit < 32)%nat -> sparse_index bm bit = length (low bm bit).
Proof.
  intros Hb. unfold sparse_index, count_ones. fold (bits (Z.land bm (flag bit - 1))).
  rewrite (bits_split _ bit) by done.
  assert (forall i, Z.testbit (Z.land bm (flag bit - 1)) (Z.of_nat i) = Z.testbit bm (Z.of_nat i) && (i <? bit)%nat) as Ht.
  { intros i. rewrite Z.land_spec. f_equal. unfold flag. rewrite Z.shiftl_1_l.
    replace (2 ^ Z.of_nat bit - 1) with (Z.ones (Z.of_nat bit)) by (rewrite Z.ones_equiv; lia).
    destruct (Nat.ltb_spec i bit); [apply Z.ones_spec_low; lia|apply Z.ones_spec_high; lia]. }
  rewrite Ht, Nat.ltb_irrefl, andb_false_r. unfold high. rewrite (filter_none _ (seq (S bit) _)).
  - rewrite !app_nil_r. unfold low. f_equal. apply filter_seq_ext. intros i Hi.
    rewrite Ht, (proj2 (Nat.ltb_lt _ _)) by lia. apply andb_true_r.
  - apply Forall_forall. intros i [Hi _]%elem_of_seq. rewrite Ht, (proj2 (Nat.ltb_ge _ _)) by lia.
    by rewrite andb_false_r.
Qed.

Lemma low_ext bm bm' bit : (forall i, i <> bit -> Z.testbit bm (Z.of_nat i) = Z.testbit bm' (Z.of_nat i)) ->
  low bm bit = low bm' bit /\ high bm bit = high bm' bit.
Proof. intros H. split; apply filter_seq_ext; intros i Hi; apply H; lia. Qed.

Lemma bits_set bm bit : (bit < 32)%nat ->
  bits (Z.lor bm (flag bit)) = low bm bit ++ bit :: high bm bit.
Proof.
  intros Hb. rewrite (bits_split _ bit) by done.
  destruct (low_ext (Z.lor bm (flag bit)) bm bit) as [-> ->].
  { intros i Hi. rewrite Z.lor_spec, testbit_flag, bool_decide_eq_false_2, orb_false_r; done. }
  by rewrite Z.lor_spec, testbit_flag, bool_decide_eq_true_2, orb_true_r.
Qed.

Lemma bits_clear bm bit : (bit < 32)%nat ->
  bits (Z.land bm (Z.lnot (flag bit))) = low bm bit ++ high bm bit.
Proof.
  intros Hb. rewrite (bits_split _ bit) by done.
  destruct (low_ext (Z.land bm (Z.lnot (flag bit))) bm bit) as [-> ->].
  { intros i Hi. by rewrite Z.land_spec, Z.lnot_spec, testbit_flag, bool_decide_eq_false_2, andb_true_r by (done || lia). }
  by rewrite Z.land_spec, Z.lnot_spec, testbit_flag, bool_decide_eq_true_2, andb_false_r by (done || lia).
Qed.

Lemma bits_nodup bm : NoDup (bits bm).
Proof. apply NoDup_filter, NoDup_seq. Qed.

Lemma elem_of_bits bm i : i ∈ bits bm <-> (i < 32)%nat /\ Z.testbit bm (Z.of_nat i) = true.
Proof. unfold bits. rewrite list_elem_of_filter, elem_of_seq. lia || (split; intros [? ?]; split; (done || lia)). Qed.

Lemma bits_flag bit : (bit < 32)%nat -> bits (flag bit) = [bit].
Proof.
  intros Hb. rewrite <- (Z.lor_0_l (flag bit)), bits_set by done. unfold low, high.
  rewrite !filter_none; [done|apply Forall_forall..]; intros i _; by rewrite Z.bits_0.
Qed.

Lemma bits_two a b : (a < b < 32)%nat -> bits (Z.lor (flag a) (flag b)) = [a; b].
Proof.
  intros Hab. rewrite bits_set by lia.
  pose proof (bits_split (flag a) b ltac:(lia)) as E. rewrite bits_flag in E by lia.
  rewrite testbit_flag, bool_decide_eq_false_2 in E by lia. cbn [app] in E.
  assert (high (flag a) b = []) as Hh.
  { apply filter_none, Forall_forall. intros i [Hi _]%elem_of_seq. rewrite testbit_flag, bool_decide_eq_false_2; [done|lia]. }
  rewrite Hh in *. rewrite app_nil_r in E. by rewrite <- E.
Qed.

(** ** Well-formed tries

    [wf p n]: [n] is a subtree reached by the child indices [p]; the hash of
    each of its leaves has those indices. *)
Definition matches (p : list nat) (h : Z) : Prop := forall l i, p !! l = Some i -> bit_index h l = i.

Fixpoint wf (p : list nat) (n : Node) : Prop :=
  match n with
  | Leaf h k _ => h = fnv1a k /\ matches p h
  | Branch bm cs =>
      (length p <= 12)%nat /\ cs <> [] /\
      (fix go (ix : list nat) (cs : list Node) {struct cs} : Prop :=
         match ix, cs with
         | [], [] => True
         | i :: ix', c :: cs' => wf (p ++ [i]) c /\ go ix' cs'
         | _, _ => False
         end) (bits bm) cs
  end.

Abbreviation children_wf p := (Forall2 (fun i c => wf (p ++ [i]) c)).

Lemma wf_branch p bm cs : wf p (Branch bm cs) <->
  (length p <= 12)%nat /\ cs <> [] /\ children_wf p (bits bm) cs.
Proof.
  cbn [wf]. do 2 (apply and_iff_compat_l). generalize (bits bm) as ix. induction cs as [|c cs IH]; intros [|i ix].
  - by split; [constructor|].
  - split; [done|]. intros H. by inversion H.
  - split; [done|]. intros H. by inversion H.
  - rewrite Forall2_cons, IH. done.
Qed.

Fixpoint node_ind' (P : Node -> Prop) (HL : forall h k v, P (Leaf h k v))
    (HB : forall bm cs, Forall P cs -> P (Branch bm cs)) (n : Node) : P n :=
  match n with
  | Leaf h k v => HL h k v
  | Branch bm cs => HB bm cs ((fix go cs : Forall P cs :=
      match cs with
      | [] => List.Forall_nil P
      | c :: cs' => Forall_cons_2 P c cs' (node_ind' P HL HB c) (go cs')
      end) cs)
  end.

(** The bindings of a subtree. *)
Definition node_map (n : Node) : gmap bytes bytes := list_to_map (collect_leaves n).
Definition nodes_map (cs : list Node) : gmap bytes bytes := list_to_map (concat (map collect_leaves cs)).

Lemma nodes_map_cons c cs : nodes_map (c :: cs) = node_map c ∪ nodes_map cs.
Proof. unfold nodes_map, node_map. cbn. by rewrite list_to_map_app. Qed.

Lemma matches_snoc p i h : matches (p ++ [i]) h <-> matches p h /\ bit_index h (length p) = i.
Proof.
  split.
  - intros H. split; [intros l j Hl; apply H; by apply lookup_app_l_Some|]. apply H. by rewrite list_lookup_middle.
  - intros [H Hi] l j [Hl|[Hl1 Hl2]]%lookup_app_Some; [by apply H|].
    apply list_lookup_singleton_Some in Hl2 as [Hl2 <-]. by assert (l = length p) as -> by lia.
Qed.

Lemma leaves_match n : forall p k, wf p n -> k ∈ (collect_leaves n).*1 -> matches p (fnv1a k).
Proof.
  induction n as [h k' v|bm cs IH] using node_ind'; intros p k Hwf Hk.
  - cbn in Hk. apply list_elem_of_singleton in Hk as ->. by destruct Hwf as [<- Hm].
  - apply wf_branch in Hwf as (_ & _ & Hcs). cbn [collect_leaves] in Hk.
    induction Hcs as [|i c ix cs Hc Hcs IHcs]; [by apply not_elem_of_nil in Hk|].
    apply Forall_cons in IH as [IHc IH]. cbn [map concat] in Hk. rewrite fmap_app in Hk.
    apply elem_of_app in Hk as [Hk|Hk]; [|by apply IHcs].
    apply (matches_snoc p i). by apply IHc.
Qed.

Lemma node_map_None p n k : wf p n -> ~ matches p (fnv1a k) -> node_map n !! k = None.
Proof. intros Hwf Hk. apply not_elem_of_list_to_map_1. intros H. by apply Hk, (leaves_match n). Qed.

(** A key lives in the child of its index, if that child is present. *)
Lemma nodes_map_other p ix cs k : children_wf p ix cs ->
  bit_index (fnv1a k) (length p) ∉ ix -> nodes_map cs !! k = None.
Proof.
  induction 1 as [|i c ix cs Hc Hcs IH]; intros Hi; [done|].
  apply not_elem_of_cons in Hi as [Hi His]. rewrite nodes_map_cons, lookup_union, IH by done.
  rewrite (node_map_None (p ++ [i])); [done..|]. rewrite matches_snoc. naive_solver.
Qed.

Lemma nodes_map_at p ix cs k j c : children_wf p ix cs -> NoDup ix ->
  ix !! j = Some (bit_index (fnv1a k) (length p)) -> cs !! j = Some c ->
  nodes_map cs !! k = node_map c !! k.
Proof.
  intros Hcs. revert j. induction Hcs as [|i c' ix cs Hc Hcs IH]; intros j Hnd Hj Hc'; [done|].
  apply NoDup_cons in Hnd as [Hi Hnd]. rewrite nodes_map_cons, lookup_union. destruct j as [|j]; cbn in *; simplify_eq.
  - rewrite (nodes_map_other p ix cs k) by done. by destruct (node_map c !! k).
  - rewrite (node_map_None (p ++ [i])) by first [done | rewrite matches_snoc; intros [_ <-]; apply Hi; by eapply list_elem_of_lookup_2].
    rewrite (IH j) by done. by destruct (node_map c !! k).
Qed.

(** The leaves of a well-formed subtree have distinct keys. *)
Lemma leaves_nodup n : forall p, wf p n -> NoDup (collect_leaves n).*1.
Proof.
  induction n as [h k v|bm cs IH] using node_ind'; intros p Hwf; [apply NoDup_singleton|].
  apply wf_branch in Hwf as (_ & _ & Hcs). cbn [collect_leaves]. pose proof (bits_nodup bm) as Hnd.
  induction Hcs as [|i c ix cs Hc Hcs IHcs]; [constructor|].
  apply Forall_cons in IH as [IHc IH]. apply NoDup_cons in Hnd as [Hi Hnd].
  cbn [map concat]. rewrite fmap_app. apply NoDup_app. split_and!; [by eapply IHc| |by apply IHcs].
  intros k Hk Hk'. apply (leaves_match c (p ++ [i]) k Hc), matches_snoc in Hk as [_ Hk].
  assert (nodes_map cs !! k = None) as E by (apply (nodes_map_other p ix); congruence).
  apply not_elem_of_list_to_map in E. done.
Qed.

(** ** Lookup is lookup in the bindings *)
Lemma get_node_branch bm cs h k l :
  get_node (Branch bm cs) h k l =
  if Z.testbit bm (Z.of_nat (bit_index h l))
  then match cs !! sparse_index bm (bit_index h l) with Some c => get_node c h k (S l) | None => Panic end
  else Ok None.
Proof.
  cbn [get_node]. rewrite land_flag. destruct (Z.testbit bm _); [|done]. cbn [negb].
  generalize (sparse_index bm (bit_index h l)) as i. induction cs as [|c cs IH]; intros [|i]; done.
Qed.

Lemma low_child p bm cs bit : children_wf p (bits bm) cs -> (bit < 32)%nat ->
  Z.testbit bm (Z.of_nat bit) = true ->
  exists c, cs !! sparse_index bm bit = Some c /\ bits bm !! sparse_index bm bit = Some bit /\ wf (p ++ [bit]) c.
Proof.
  intros Hcs Hb Ht. assert (bits bm !! sparse_index bm bit = Some bit) as Hi.
  { rewrite sparse_index_low, (bits_split bm bit), Ht by done. by apply list_lookup_middle. }
  destruct (Forall2_lookup_l _ _ _ _ _ Hcs Hi) as (c & Hc & Hwf). by exists c.
Qed.

Lemma get_node_spec n : forall p k, wf p n -> matches p (fnv1a k) ->
  get_node n (fnv1a k) k (length p) = Ok (node_map n !! k).
Proof.
  induction n as [h k' v|bm cs IH] using node_ind'; intros p k Hwf Hk.
  - cbn. rewrite lookup_insert. case_bool_decide; case_decide; done.
  - apply wf_branch in Hwf as (_ & _ & Hcs). rewrite get_node_branch.
    set (bit := bit_index (fnv1a k) (length p)). pose proof (bit_index_lt (fnv1a k) (length p)).
    change (node_map (Branch bm cs)) with (nodes_map cs). destruct (Z.testbit bm (Z.of_nat bit)) eqn:Ht.
    + destruct (low_child p bm cs bit Hcs ltac:(done) Ht) as (c & Hc & Hi & Hwf). rewrite Hc.
      rewrite Forall_lookup in IH. replace (S (length p)) with (length (p ++ [bit])) by (rewrite length_app; cbn; lia).
      rewrite (IH _ _ Hc) by first [done | by apply matches_snoc].
      by rewrite (nodes_map_at p (bits bm) cs k _ c Hcs (bits_nodup bm) Hi Hc).
    + rewrite (nodes_map_other p (bits bm) cs k Hcs); [done|]. rewrite elem_of_bits. fold bit. intros [_ ?]. congruence.
Qed.

(** ** A branch around one child index *)
Lemma not_elem_low bm bit : bit ∉ low bm bit.
Proof. unfold low. rewrite list_elem_of_filter, elem_of_seq. lia. Qed.

Lemma not_elem_high bm bit : bit ∉ high bm bit.
Proof. unfold high. rewrite list_elem_of_filter, elem_of_seq. lia. Qed.

Lemma branch_split p bm cs bit : children_wf p (bits bm) cs -> (bit < 32)%nat ->
  exists ca cb, length ca = sparse_index bm bit /\ children_wf p (low bm bit) ca /\ children_wf p (high bm bit) cb /\
    if Z.testbit bm (Z.of_nat bit) then exists c, cs = ca ++ c :: cb /\ wf (p ++ [bit]) c else cs = ca ++ cb.
Proof.
  intros Hcs Hb. rewrite (bits_split bm bit) in Hcs by done.
  apply Forall2_app_inv_l in Hcs as (ca & cs' & Ha & Hcs' & ->).
  apply Forall2_app_inv_l in Hcs' as (cm & cb & Hm & Hcb & ->).
  exists ca, cb. split; [|split; [done|split; [done|]]].
  - rewrite sparse_index_low by done. symmetry. by eapply Forall2_length.
  - destruct (Z.testbit bm (Z.of_nat bit)).
    + apply Forall2_cons_inv_l in Hm as (c & cm' & Hc & Hm & ->).
      apply Forall2_nil_inv_l in Hm as ->. by exists c.
    + by apply Forall2_nil_inv_l in Hm as ->.
Qed.

Lemma nodes_map_app cs1 cs2 : nodes_map (cs1 ++ cs2) = nodes_map cs1 ∪ nodes_map cs2.
Proof. unfold nodes_map. by rewrite map_app, concat_app, list_to_map_app. Qed.

Section around.
Context (p : list nat) (bm : Z) (bit : nat) (ca cb : list Node).
Context (Ha : children_wf p (low bm bit) ca) (Hb : children_wf p (high bm bit) cb).

Lemma nodes_map_rest k : bit_index (fnv1a k) (length p) = bit -> nodes_map (ca ++ cb) !! k = None.
Proof.
  intros Hk. rewrite nodes_map_app, lookup_union.
  rewrite (nodes_map_other p (low bm bit) ca), (nodes_map_other p (high bm bit) cb); rewrite ?Hk;
    auto using not_elem_low, not_elem_high.
Qed.

Lemma nodes_map_mid c k : wf (p ++ [bit]) c -> nodes_map (ca ++ c :: cb) !! k =
  if decide (bit_index (fnv1a k) (length p) = bit) then node_map c !! k else nodes_map (ca ++ cb) !! k.
Proof.
  intros Hc. rewrite !nodes_map_app, nodes_map_cons, !lookup_union. case_decide as Hk.
  - rewrite (nodes_map_other p (low bm bit) ca), (nodes_map_other p (high bm bit) cb); rewrite ?Hk;
      auto using not_elem_low, not_elem_high. by destruct (node_map c !! k).
  - rewrite (node_map_None (p ++ [bit]) c) by first [done | rewrite matches_snoc; tauto].
    by destruct (nodes_map cb !! k).
Qed.

Lemma nodes_map_mid_insert c c' k v : wf (p ++ [bit]) c -> wf (p ++ [bit]) c' ->
  bit_index (fnv1a k) (length p) = bit -> node_map c' = <[k := v]> (node_map c) ->
  nodes_map (ca ++ c' :: cb) = <[k := v]> (nodes_map (ca ++ c :: cb)).
Proof.
  intros Hc Hc' Hk Hm. apply map_eq. intros k'. rewrite lookup_insert, !nodes_map_mid, Hm, lookup_insert by done.
  repeat case_decide; naive_solver.
Qed.

Lemma nodes_map_mid_delete c c' k : wf (p ++ [bit]) c -> wf (p ++ [bit]) c' ->
  bit_index (fnv1a k) (length p) = bit -> node_map c' = base.delete k (node_map c) ->
  nodes_map (ca ++ c' :: cb) = base.delete k (nodes_map (ca ++ c :: cb)).
Proof.
  intros Hc Hc' Hk Hm. apply map_eq. intros k'. rewrite lookup_delete, !nodes_map_mid, Hm, lookup_delete by done.
  repeat case_decide; naive_solver.
Qed.

Lemma nodes_map_rest_delete c k : wf (p ++ [bit]) c ->
  bit_index (fnv1a k) (length p) = bit -> base.delete k (node_map c) = ∅ ->
  nodes_map (ca ++ cb) = base.delete k (nodes_map (ca ++ c :: cb)).
Proof.
  intros Hc Hk Hm. apply map_eq. intros k'. rewrite lookup_delete, nodes_map_mid by done. case_decide as E.
  - apply nodes_map_rest. congruence.
  - case_decide as E'; [|done]. rewrite nodes_map_rest by done.
    assert (base.delete k (node_map c) !! k' = None) as H by (by rewrite Hm).
    by rewrite lookup_delete_ne in H.
Qed.
End around.

(** ** Insertion *)
Lemma wf_leaf p k v : matches p (fnv1a k) -> wf p (Leaf (fnv1a k) k v).
Proof. done. Qed.

Lemma node_map_leaf h k v : node_map (Leaf h k v) = {[k := v]}.
Proof. done. Qed.

(** Two leaves that part at this level. *)
Lemma split_leaves p k1 v1 k2 v2 a b :
  (length p <= 12)%nat -> matches p (fnv1a k1) -> matches p (fnv1a k2) ->
  bit_index (fnv1a k1) (length p) = a -> bit_index (fnv1a k2) (length p) = b -> (a < b)%nat ->
  wf p (Branch (Z.lor (flag a) (flag b)) [Leaf (fnv1a k1) k1 v1; Leaf (fnv1a k2) k2 v2]).
Proof.
  intros Hp H1 H2 Ha Hb Hab. apply wf_branch. split_and!; [done..|].
  pose proof (bit_index_lt (fnv1a k2) (length p)). rewrite bits_two by lia.
  repeat constructor; by apply matches_snoc.
Qed.

Lemma same_indices_same_key p h h' : (13 <= length p)%nat -> 0 <= h < 2 ^ 64 -> 0 <= h' < 2 ^ 64 ->
  matches p h -> matches p h' -> h = h'.
Proof.
  intros Hp Hh Hh' Hm Hm'. apply bit_index_determines; [done..|]. intros l Hl.
  destruct (lookup_lt_is_Some_2 p l ltac:(lia)) as [i Hi]. by rewrite (Hm l i), (Hm' l i).
Qed.

Definition insert_spec (p : list nat) (n : Node) (k v : bytes) (r : res unit Node) : Prop :=
  exists n', r = Ok n' /\ wf p n' /\ node_map n' = <[k := v]> (node_map n).

Lemma insert_leaf_spec fuel p h0 k0 v0 k v :
  wf p (Leaf h0 k0 v0) -> matches p (fnv1a k) -> (length p <= 13)%nat ->
  (k0 <> k -> fnv1a k0 <> fnv1a k) ->
  (bit_index (fnv1a k0) (length p) = bit_index (fnv1a k) (length p) -> (length p <= 12)%nat ->
    insert_spec (p ++ [bit_index (fnv1a k) (length p)]) (Leaf h0 k0 v0) k v
      (insert_node fuel (Some (Leaf h0 k0 v0)) (fnv1a k) k v (S (length p)))) ->
  insert_spec p (Leaf h0 k0 v0) k v (insert_node (S fuel) (Some (Leaf h0 k0 v0)) (fnv1a k) k v (length p)).
Proof.
  intros [-> Hm0] Hm Hp Hcol IH. cbn [insert_node].
  case_bool_decide as Hk.
  { subst. eexists. split_and!; [done|by apply wf_leaf|]. by rewrite !node_map_leaf, insert_singleton_eq. }
  assert (length p <= 12)%nat as Hp'.
  { destruct (decide (length p <= 12)%nat); [done|]. destruct (Hcol Hk).
    apply (same_indices_same_key p); auto using fnv1a_range. lia. }
  destruct (Nat.eqb_spec (bit_index (fnv1a k0) (length p)) (bit_index (fnv1a k) (length p))) as [E|E].
  - destruct (IH E Hp') as (n' & -> & Hwf & Hmap). cbn [mbind res_bind]. eexists. split_and!; [done| |].
    + apply wf_branch. split_and!; [done..|]. rewrite bits_flag by apply bit_index_lt. rewrite E. by repeat constructor.
    + rewrite <- Hmap. change (nodes_map [n'] = node_map n'). rewrite nodes_map_cons. apply (right_id_L ∅ (∪)).
  - destruct (Nat.ltb_spec (bit_index (fnv1a k0) (length p)) (bit_index (fnv1a k) (length p))) as [Hlt|Hlt];
      (eexists; split_and!; [done| |]).
    + by apply split_leaves.
    + change (nodes_map [Leaf (fnv1a k0) k0 v0; Leaf (fnv1a k) k v] = <[k:=v]> {[k0 := v0]}).
      unfold nodes_map. cbn. by rewrite insert_insert_ne.
    + rewrite Z.lor_comm. apply split_leaves; auto. lia.
    + done.
Qed.

Lemma insert_node_spec fuel : forall n p k v, wf p n -> matches p (fnv1a k) ->
  (length p <= 13)%nat -> (14 <= fuel + length p)%nat ->
  (forall k', k' ∈ (collect_leaves n).*1 -> k' <> k -> fnv1a k' <> fnv1a k) ->
  insert_spec p n k v (insert_node fuel (Some n) (fnv1a k) k v (length p)).
Proof.
  induction fuel as [|fuel IH]; intros n p k v Hwf Hm Hp Hf Hcol; [lia|].
  assert (forall x : nat, length (p ++ [x]) = S (length p)) as Hlen by (intros; rewrite length_app; cbn; lia).
  destruct n as [h0 k0 v0|bm cs].
  - apply insert_leaf_spec; auto.
    + apply Hcol. left.
    + intros E Hp'. rewrite <- (Hlen (bit_index (fnv1a k) (length p))). destruct Hwf as [-> Hm0].
      apply IH; rewrite ?Hlen; [split; [done|]; by apply matches_snoc|by apply matches_snoc|lia|lia|exact Hcol].
  - apply wf_branch in Hwf as (Hp' & Hne & Hcs). set (bit := bit_index (fnv1a k) (length p)).
    pose proof (bit_index_lt (fnv1a k) (length p)) as Hb. fold bit in Hb.
    destruct (branch_split p bm cs bit Hcs Hb) as (ca & cb & Hla & Ha & Hcb & Hsplit).
    cbn [insert_node]. fold bit. rewrite land_flag. destruct (Z.testbit bm (Z.of_nat bit)) eqn:Ht; cbn [negb].
    + destruct Hsplit as (c & -> & Hc). rewrite list_lookup_middle by done. cbn [index mbind res_bind].
      rewrite <- (Hlen bit).
      destruct (IH c (p ++ [bit]) k v) as (c' & -> & Hc' & Hmap); rewrite ?Hlen; [done|by apply matches_snoc|lia|lia| |].
      { intros k' Hk'. apply Hcol. cbn [collect_leaves]. rewrite map_app, concat_app, !fmap_app. cbn [map concat].
        rewrite fmap_app. set_solver. }
      cbn [mbind res_bind]. rewrite <- Hla, list_insert_middle || rewrite <- Hla, insert_app_r_alt, Nat.sub_diag by lia.
      eexists. split_and!; [done| |].
      * apply wf_branch. split_and!; [done|by destruct ca|]. rewrite (bits_split bm bit), Ht by done.
        apply Forall2_app; [done|]. by constructor.
      * change (nodes_map (ca ++ c' :: cb) = <[k:=v]> (nodes_map (ca ++ c :: cb))).
        by apply (nodes_map_mid_insert p bm bit).
    + subst cs. rewrite (proj2 (Nat.leb_le _ _)) by (rewrite length_app; lia).
      unfold vec_insert. rewrite <- Hla, take_app_length, drop_app_length.
      assert (wf (p ++ [bit]) (Leaf (fnv1a k) k v)) as Hl by (apply wf_leaf; by apply matches_snoc).
      eexists. split_and!; [done| |].
      * apply wf_branch. split_and!; [done|by destruct ca|]. rewrite bits_set by done.
        apply Forall2_app; [done|]. by constructor.
      * change (nodes_map (ca ++ Leaf (fnv1a k) k v :: cb) = <[k:=v]> (nodes_map (ca ++ cb))).
        apply map_eq. intros k'. rewrite (nodes_map_mid p bm bit) by done. rewrite node_map_leaf, lookup_insert, lookup_singleton.
        case_decide as E; case_decide as E'; try done; [|naive_solver].
        symmetry. by apply (nodes_map_rest p bm bit).
Qed.

(** ** Removal *)
Lemma remove_node_branch bm cs h k l :
  remove_node (Branch bm cs) h k l =
  if Z.testbit bm (Z.of_nat (bit_index h l)) then
    let idx := sparse_index bm (bit_index h l) in
    new_child ← match cs !! idx with Some c => remove_node c h k (S l) | None => Panic end;
    Ok match new_child with
       | None => if (length cs =? 1)%nat then None
                 else Some (Branch (Z.land bm (Z.lnot (flag (bit_index h l)))) (base.delete idx cs))
       | Some child => Some (Branch bm (<[idx := child]> cs))
       end
  else Ok (Some (Branch bm cs)).
Proof.
  cbn [remove_node]. rewrite land_flag. destruct (Z.testbit bm _); [|done]. cbn [negb]. cbv zeta.
  match goal with |- ?f ?x ?y ≫= _ = ?g ≫= _ => assert (f x y = g) as ->; [|done] end.
  generalize (sparse_index bm (bit_index h l)) as i. induction cs as [|c cs IH]; intros [|i]; done.
Qed.

Definition remove_spec (p : list nat) (n : Node) (k : bytes) (r : res unit (option Node)) : Prop :=
  exists o, r = Ok o /\
    match o with
    | Some n' => wf p n' /\ node_map n' = base.delete k (node_map n)
    | None => base.delete k (node_map n) = ∅
    end.

Lemma remove_node_spec n : forall p k, wf p n -> matches p (fnv1a k) ->
  remove_spec p n k (remove_node n (fnv1a k) k (length p)).
Proof.
  induction n as [h k' v|bm cs IH] using node_ind'; intros p k Hwf Hm.
  - eexists. split; [done|]. rewrite node_map_leaf. case_bool_decide as E.
    + by rewrite E, delete_singleton_eq.
    + split; [done|]. by rewrite delete_singleton_ne.
  - apply wf_branch in Hwf as (Hp & Hne & Hcs). rewrite remove_node_branch.
    set (bit := bit_index (fnv1a k) (length p)).
    pose proof (bit_index_lt (fnv1a k) (length p)) as Hb. fold bit in Hb.
    destruct (branch_split p bm cs bit Hcs Hb) as (ca & cb & Hla & Ha & Hcb & Hsplit).
    destruct (Z.testbit bm (Z.of_nat bit)) eqn:Ht.
    + destruct Hsplit as (c & -> & Hc). cbv zeta. rewrite list_lookup_middle by done.
      apply Forall_app in IH as [_ IH]. apply Forall_cons in IH as [IH _].
      destruct (IH (p ++ [bit]) k) as (o & E & Ho); [done|by apply matches_snoc|].
      rewrite length_app, Nat.add_1_r in E. rewrite E. cbn [mbind res_bind].
      eexists. split; [done|]. change (node_map (Branch bm (ca ++ c :: cb))) with (nodes_map (ca ++ c :: cb)).
      destruct o as [c'|].
      * destruct Ho as [Hc' Hmap]. rewrite <- Hla, insert_app_r_alt, Nat.sub_diag by lia. split.
        -- apply wf_branch. split_and!; [done|by destruct ca|]. rewrite (bits_split bm bit), Ht by done.
           apply Forall2_app; [done|]. by constructor.
        -- by apply (nodes_map_mid_delete p bm bit ca cb Ha Hcb c c').
      * rewrite length_app. cbn [length].
        pose proof (nodes_map_rest_delete p bm bit ca cb Ha Hcb c k Hc eq_refl Ho) as Hrest.
        destruct (Nat.eqb_spec (length ca + S (length cb)) 1) as [El|El].
        -- rewrite <- Hrest. destruct ca, cb; cbn in El; try lia. done.
        -- rewrite <- Hla, delete_middle. split; [|exact Hrest]. apply wf_branch. split_and!; [done| |].
           ++ clear -El. destruct ca, cb; [by destruct El|done..].
           ++ rewrite bits_clear by done. by apply Forall2_app.
    + eexists. split; [done|]. split; [by apply wf_branch|]. symmetry. apply delete_id.
      subst cs. by apply (nodes_map_rest p bm bit).
Qed.

(** ** The map a trie denotes *)
Definition view (h : Hamt) : gmap bytes bytes := list_to_map (iter h).

Definition hamt_wf (h : Hamt) : Prop :=
  match root h with None => True | Some n => wf [] n end /\ len h = size (view h).

(** [k] does not share its 64-bit hash with another key of [ks]. *)
Definition no_collision (ks : gset bytes) : Prop :=
  forall k k', k ∈ ks -> k' ∈ ks -> fnv1a k = fnv1a k' -> k = k'.

Lemma matches_nil h : matches [] h.
Proof. by intros l i. Qed.

Lemma hamt_new_wf : hamt_wf new.
Proof. done. Qed.

Lemma hamt_get_spec h k : hamt_wf h -> get h k = Ok (view h !! k).
Proof.
  intros [Hwf _]. unfold get, view, iter. destruct (root h) as [n|]; [|done].
  apply (get_node_spec n [] k Hwf (matches_nil _)).
Qed.

Lemma iter_spec h : hamt_wf h -> iter h ≡ₚ map_to_list (view h).
Proof.
  intros [Hwf _]. unfold view, iter. destruct (root h) as [n|]; [|cbn; by rewrite map_to_list_empty].
  symmetry. apply map_to_list_to_map. by eapply leaves_nodup.
Qed.

Lemma put_spec h k v : hamt_wf h -> no_collision ({[k]} ∪ dom (view h)) ->
  exists h', put h k v = Ok h' /\ hamt_wf h' /\ view h' = <[k := v]> (view h).
Proof.
  intros Hwf Hcol. unfold put. rewrite (hamt_get_spec h k Hwf). cbn [mbind res_bind].
  assert (exists n, insert_node INSERT_FUEL (root h) (fnv1a k) k v 0 = Ok n /\ wf [] n /\
    node_map n = <[k := v]> (view h)) as (n & -> & Hn & Hmap).
  { destruct Hwf as [Hwf _]. unfold view, iter in *. destruct (root h) as [n|].
    - destruct (insert_node_spec INSERT_FUEL n [] k v Hwf (matches_nil _)) as (n' & ? & ? & ?);
        [cbn; lia|cbn; unfold INSERT_FUEL; lia| |by eauto].
      intros k' Hk' Hne E. apply Hne, Hcol; [|set_solver|done].
      apply elem_of_union. right. apply elem_of_dom.
      destruct (list_to_map (M := gmap bytes bytes) (collect_leaves n) !! k') eqn:E'; [done|].
      by apply not_elem_of_list_to_map in E'.
    - eexists. split_and!; [done|by apply wf_leaf, matches_nil|done]. }
  cbn [mbind res_bind]. eexists. split; [done|]. split; [|exact Hmap]. split; [exact Hn|].
  cbn [len]. match goal with |- _ = size (view ?x) => change (view x) with (node_map n) end. destruct Hwf as [_ Hlen]. rewrite Hmap.
  destruct (view h !! k) eqn:E; [rewrite map_size_insert_Some by done|rewrite map_size_insert_None by done]; lia.
Qed.

Lemma delete_spec h k : hamt_wf h ->
  exists h', delete h k = Ok h' /\ hamt_wf h' /\ view h' = base.delete k (view h).
Proof.
  intros Hwf. unfold delete. rewrite (hamt_get_spec h k Hwf). cbn [mbind res_bind].
  destruct (view h !! k) eqn:E; [|by exists h; rewrite delete_id].
  destruct Hwf as [Hwf Hlen]. unfold view, iter in E. destruct (root h) as [n|] eqn:Hr; [|done].
  destruct (remove_node_spec n [] k Hwf (matches_nil _)) as (o & Eo & Ho).
  cbn [length] in Eo. rewrite Eo. cbn [mbind res_bind]. eexists. split; [done|].
  assert (view h = node_map n) as Hv by (unfold view, iter; by rewrite Hr).
  assert (size (base.delete k (view h)) = (len h - 1)%nat) as Hs.
  { rewrite map_size_delete_Some, Hlen; [lia|]. rewrite Hv. by eexists. }
  destruct o as [n'|].
  - destruct Ho as [Hn' Hmap]. assert (forall l, view {| root := Some n'; len := l |} = base.delete k (view h)) as E' by (intros; by rewrite Hv, <- Hmap).
    rewrite E'. split; [|done]. split; [done|]. cbn [len]. by rewrite E'.
  - rewrite Hv, Ho in *. split; [|done]. split; [done|]. cbn [len]. by rewrite <- Hs.
Qed.

(** ** Refinement *)
Inductive op :=
  | OpPut (key value : bytes)
  | OpDelete (key : bytes).

Definition op_key (o : op) : bytes := match o with OpPut k _ => k | OpDelete k => k end.

Definition run_op (h : Hamt) (o : op) : res unit Hamt :=
  match o with OpPut k v => put h k v | OpDelete k => delete h k end.

Definition run (h : Hamt) (os : list op) : res unit Hamt := foldl (fun acc o => h ← acc; run_op h o) (Ok h) os.

Definition spec_op (m : gmap bytes bytes) (o : op) : gmap bytes bytes :=
  match o with OpPut k v => <[k := v]> m | OpDelete k => base.delete k m end.

Lemma run_spec ks os : forall h, hamt_wf h -> dom (view h) ⊆ ks -> no_collision ks ->
  (forall o, o ∈ os -> op_key o ∈ ks) ->
  exists h', run h os = Ok h' /\ hamt_wf h' /\ view h' = foldl spec_op (view h) os /\ dom (view h') ⊆ ks.
Proof.
  induction os as [|o os IH]; intros h Hwf Hdom Hcol Hos; [by exists h|].
  assert (exists h1, run_op h o = Ok h1 /\ hamt_wf h1 /\ view h1 = spec_op (view h) o) as (h1 & E & Hwf1 & Hv).
  { destruct o as [k v|k]; [|by apply delete_spec]. apply put_spec; [done|].
    intros k1 k2 H1 H2. assert (k ∈ ks) by (apply (Hos (OpPut k v)); left). apply Hcol; set_solver. }
  unfold run. cbn [foldl mbind res_bind]. rewrite E. fold (run h1 os).
  destruct (IH h1) as (h' & ? & ? & ? & ?); [done| |done|set_solver|].
  - rewrite Hv. specialize (Hos o ltac:(left)). destruct o; cbn in *; set_solver.
  - exists h'. cbn [foldl]. rewrite <- Hv. done.
Qed.

(** C7: on every sequence of puts and deletes whose keys have distinct 64-bit
    hashes, the trie never panics, terminates within the thirteen levels of the
    hash, and is the finite map those operations describe: lookups, the length and
    the iterated bindings agree with the map. *)
Theorem hamt_refines_map os : no_collision (list_to_set (op_key <$> os)) ->
  exists h, run new os = Ok h /\ forall m, m = foldl spec_op ∅ os ->
    (forall k, get h k = Ok (m !! k)) /\ len h = size m /\ iter h ≡ₚ map_to_list m.
Proof.
  intros Hcol. destruct (run_spec (list_to_set (op_key <$> os)) os new) as (h & E & Hwf & Hv & _); try done.
  { intros o Ho. apply elem_of_list_to_set. by apply list_elem_of_fmap_2. }
  exists h. split; [done|]. intros m ->. change (view new) with (∅ : gmap bytes bytes) in Hv. rewrite <- Hv.
  split_and!; [intros; by apply hamt_get_spec|by destruct Hwf|by apply iter_spec].
Qed.

(** inserting a second key with the same 64-bit hash splits the leaf at every
    level and never ends: no fuel is enough. *)
Theorem hash_collision_diverges fuel k k' v v' level : k <> k' -> fnv1a k = fnv1a k' ->
  insert_node fuel (Some (Leaf (fnv1a k) k v)) (fnv1a k') k' v' level = Err tt.
Proof.
  intros Hne Hh. revert level. induction fuel as [|fuel IH]; intros level; [done|].
  cbn [insert_node]. rewrite bool_decide_eq_false_2 by done. rewrite Hh, Nat.eqb_refl. rewrite Hh in IH.
  by rewrite IH.
Qed.

(** More fuel than a call needs does not change its result. *)
Lemma insert_node_mono fuel fuel' : (fuel <= fuel')%nat -> forall n h k v l r,
  insert_node fuel n h k v l = Ok r -> insert_node fuel' n h k v l = Ok r.
Proof.
  revert fuel'. induction fuel as [|fuel IH]; intros [|fuel'] Hle n h k v l r; try done; [lia|].
  assert (forall n h k v l r, insert_node fuel n h k v l = Ok r -> insert_node fuel' n h k v l = Ok r) as IH'
    by (apply IH; lia).
  destruct n as [[h0 k0 v0|bm cs]|]; cbn [insert_node]; [..|done].
  - case_bool_decide; [done|]. destruct (_ =? _)%nat; [|done].
    destruct (insert_node fuel _ _ _ _ _) as [d| |] eqn:E; [|done..]. by rewrite (IH' _ _ _ _ _ _ E).
  - destruct (_ =? 0); [done|]. destruct (cs !! _) as [c|]; [|done]. cbn [index mbind res_bind].
    destruct (insert_node fuel (Some c) _ _ _ _) as [d| |] eqn:E; [|done..]. by rewrite (IH' _ _ _ _ _ _ E).
Qed.

(** ** Witnesses *)
Definition sample_ops : list op :=
  [OpPut (str "a") (str "1"); OpPut (str "b") (str "2"); OpPut (str "a") (str "3"); OpDelete (str "b"); OpDelete (str "zz")].

(** Deciding that the hashes of some keys are distinct. *)
Definition distinct_hashes (l : list bytes) : bool :=
  forallb (fun k => forallb (fun k' => bool_decide (k = k') || negb (fnv1a k =? fnv1a k')) l) l.

Lemma distinct_hashes_ok l : distinct_hashes l = true -> no_collision (list_to_set l).
Proof.
  intros Hb k k' Hk%elem_of_list_to_set Hk'%elem_of_list_to_set Hh. unfold distinct_hashes in Hb.
  rewrite forallb_forall in Hb. specialize (Hb k). rewrite <- list_elem_of_In, forallb_forall in Hb.
  specialize (Hb Hk k'). rewrite <- list_elem_of_In in Hb. specialize (Hb Hk').
  apply orb_true_iff in Hb as [Hb|Hb]; [by apply bool_decide_eq_true in Hb|].
  rewrite Hh, Z.eqb_refl in Hb. done.
Qed.

Lemma hamt_refines_map_witness : exists h, run new sample_ops = Ok h /\ get h (str "a") = Ok (Some (str "3")) /\ len h = 1%nat.
Proof.
  destruct (hamt_refines_map sample_ops) as (h & E & H).
  - apply distinct_hashes_ok. vm_compute; reflexivity.
  - exists h. destruct (H _ eq_refl) as (Hg & Hl & _). split; [done|]. rewrite Hg, Hl. split; [vm_compute; reflexivity|]. vm_compute; reflexivity.
Defined.

(** Two ASCII keys with the same hash. *)
Lemma hash_collision_diverges_witness :
  put (mkHamt (Some (Leaf (fnv1a (str "8yn0iYCKYHlIj4-BwPqk")) (str "8yn0iYCKYHlIj4-BwPqk") (str "v"))) 1)
    (str "GReLUrM4wMqfg9yzV3KQ") (str "w") = Err tt.
Proof.
  unfold put. assert (get (mkHamt (Some (Leaf (fnv1a (str "8yn0iYCKYHlIj4-BwPqk")) (str "8yn0iYCKYHlIj4-BwPqk") (str "v"))) 1)
    (str "GReLUrM4wMqfg9yzV3KQ") = Ok None) as -> by (by vm_compute).
  cbn [mbind res_bind root]. rewrite hash_collision_diverges; [done|done|by vm_compute].
Defined.
