(* ===== verification/Mvcc.v ===== *)
(** * Multi-version concurrency control ([src/tx/mvcc.rs])

    A chain of versions per key, newest first, a commit clock, and transactions
    that buffer their writes. The locks make each store operation atomic; a commit
    is a sequence of them, and any number of transactions and collections are run
    one such operation at a time, in any order ([run]). [commit] is the sequence
    with nobody in between ([commit_runs_alone]). *)

From S2P Require Import Prelude.
Local Open Scope Z_scope.

Inductive Isolation := ReadCommitted | Snapshot | Serializable.

#[export] Instance Isolation_eq_dec : EqDecision Isolation.
Proof. solve_decision. Defined.

Record Version := mkVersion { value : bytes; txn_id : Z; commit_ts : option Z }.

(** A boxed chain of versions is the non-empty list of them. *)
Record MvccStore := mkStore { chains : gmap bytes (list Version); ts : Z }.

Definition new : MvccStore := {| chains := ∅; ts := 0 |}.

Definition next_ts (st : MvccStore) : Z * MvccStore :=
  let t := u64 (ts st + 1) in (t, {| chains := chains st; ts := t |}).

Definition current_ts (st : MvccStore) : Z := ts st.

Fixpoint read_chain (l : list Version) (snapshot_ts : Z) : option bytes :=
  match l with
  | [] => None
  | v :: l' =>
      match commit_ts v with
      | Some cts => if cts <=? snapshot_ts then Some (value v) else read_chain l' snapshot_ts
      | None => read_chain l' snapshot_ts
      end
  end.

Definition chain (st : MvccStore) (key : bytes) : list Version := default [] (chains st !! key).

Definition read (st : MvccStore) (key : bytes) (snapshot_ts : Z) : option bytes :=
  read_chain (chain st key) snapshot_ts.

Definition set_chain (st : MvccStore) (key : bytes) (l : list Version) : MvccStore :=
  {| chains := <[key := l]> (chains st); ts := ts st |}.

Definition write_intent (st : MvccStore) (key v : bytes) (txn : Z) : MvccStore :=
  set_chain st key ({| value := v; txn_id := txn; commit_ts := None |} :: chain st key).

(** The head of the chain, when it is the pending version of [txn]. *)
Definition pending_of (v : Version) (txn : Z) : bool :=
  (txn_id v =? txn) && bool_decide (commit_ts v = None).

Definition commit_key (st : MvccStore) (key : bytes) (txn commit_ts : Z) : bool * MvccStore :=
  match chain st key with
  | v :: l =>
      if pending_of v txn
      then (true, set_chain st key ({| value := value v; txn_id := txn; commit_ts := Some commit_ts |} :: l))
      else (false, st)
  | [] => (false, st)
  end.

Definition abort_key (st : MvccStore) (key : bytes) (txn : Z) : MvccStore :=
  match chain st key with
  | v :: l =>
      if pending_of v txn
      then match l with
           | [] => {| chains := base.delete key (chains st); ts := ts st |}
           | _ => set_chain st key l
           end
      else st
  | [] => st
  end.

Definition committed_after (since_ts : Z) (v : Version) : bool :=
  match commit_ts v with Some cts => since_ts <? cts | None => false end.

Definition has_committed_since (st : MvccStore) (key : bytes) (since_ts : Z) : bool :=
  existsb (committed_after since_ts) (chain st key).

(** ** Garbage collection *)
Fixpoint gc_chain (oldest_active_ts : Z) (seen_committed : bool) (l : list Version) : list Version * nat :=
  match l with
  | [] => ([], 0%nat)
  | v :: l' =>
      match commit_ts v with
      | Some cts =>
          if seen_committed && (cts <? oldest_active_ts) then ([v], length l')
          else let '(r, n) := gc_chain oldest_active_ts true l' in (v :: r, n)
      | None => let '(r, n) := gc_chain oldest_active_ts seen_committed l' in (v :: r, n)
      end
  end.

Definition gc (st : MvccStore) (oldest_active_ts : Z) : nat * MvccStore :=
  (sum_list ((fun kl => (gc_chain oldest_active_ts false kl.2).2) <$> map_to_list (chains st)),
   {| chains := (fun l => (gc_chain oldest_active_ts false l).1) <$> chains st; ts := ts st |}).

Definition version_count (st : MvccStore) : nat := sum_list ((fun kl => length kl.2) <$> map_to_list (chains st)).

(** ** Transactions *)
Record Transaction := mkTx {
  tx_id : Z;
  snapshot_ts : Z;
  isolation : Isolation;
  writes : gmap bytes bytes;
  reads : list bytes
}.

Definition begin_tx (st : MvccStore) (id : Z) (iso : Isolation) : Transaction :=
  {| tx_id := id; snapshot_ts := current_ts st; isolation := iso; writes := ∅; reads := [] |}.

Definition get (st : MvccStore) (tx : Transaction) (key : bytes) : option bytes * Transaction :=
  match writes tx !! key with
  | Some v => (Some v, tx)
  | None =>
      let t := match isolation tx with ReadCommitted => current_ts st | _ => snapshot_ts tx end in
      (read st key t,
       if decide (isolation tx = Serializable)
       then {| tx_id := tx_id tx; snapshot_ts := snapshot_ts tx; isolation := isolation tx;
               writes := writes tx; reads := reads tx ++ [key] |}
       else tx)
  end.

Definition put (tx : Transaction) (key v : bytes) : Transaction :=
  {| tx_id := tx_id tx; snapshot_ts := snapshot_ts tx; isolation := isolation tx;
     writes := <[key := v]> (writes tx); reads := reads tx |}.

Definition conflict (st : MvccStore) (tx : Transaction) : option bytes :=
  match isolation tx with
  | Serializable => head (filter (fun k => has_committed_since st k (snapshot_ts tx) = true) (reads tx))
  | _ => None
  end.

Definition install (txn : Z) (st : MvccStore) (kvs : list (bytes * bytes)) : MvccStore :=
  foldl (fun st kv => write_intent st kv.1 kv.2 txn) st kvs.

Definition stamp (txn cts : Z) (st : MvccStore) (ks : list bytes) : MvccStore :=
  foldl (fun st k => (commit_key st k txn cts).2) st ks.

Definition commit (st : MvccStore) (tx : Transaction) : res bytes Z * MvccStore :=
  match conflict st tx with
  | Some key => (Err (str "serialization conflict on key=" ++ key), st)
  | None =>
      let ws := map_to_list (writes tx) in
      let st1 := install (tx_id tx) st ws in
      let '(cts, st2) := next_ts st1 in
      (Ok cts, stamp (tx_id tx) cts st2 ws.*1)
  end.

(** The manager's counter and [begin]. *)
Definition begin (next_txn_id : Z) (st : MvccStore) (iso : Isolation) : Z * Transaction :=
  let id := u64 (next_txn_id + 1) in (id, begin_tx st id iso).

Lemma chain_set st k k' l : chain (set_chain st k l) k' = if decide (k = k') then l else chain st k'.
Proof. unfold chain, set_chain. cbn. rewrite lookup_insert. by case_decide. Qed.

Lemma ts_commit_key st k txn c : ts (commit_key st k txn c).2 = ts st.
Proof. unfold commit_key. destruct (chain st k) as [|v l]; [done|]. by destruct (pending_of v txn). Qed.

Lemma chain_commit_key st k txn c k' : chain (commit_key st k txn c).2 k' =
  match chain st k' with
  | v :: l => if decide (k = k') then
                (if pending_of v txn then {| value := value v; txn_id := txn; commit_ts := Some c |} :: l else v :: l)
              else v :: l
  | [] => []
  end.
Proof.
  unfold commit_key. destruct (chain st k) as [|v l] eqn:E; cbn [snd].
  - destruct (decide (k = k')) as [<-|]; [by rewrite E|]. by destruct (chain st k').
  - destruct (pending_of v txn) eqn:Hp; cbn [snd]; rewrite ?chain_set.
    + case_decide as Hk; [subst; by rewrite E, Hp|]. by destruct (chain st k').
    + destruct (decide (k = k')) as [<-|]; [by rewrite E, Hp|]. by destruct (chain st k').
Qed.

(** ** Chains *)

(** The committed timestamps of a chain, newest first. *)
Definition stamps (l : list Version) : list Z := omap commit_ts l.

(** Within a chain timestamps strictly decrease, and none is in the future. *)
Definition chain_ok (now : Z) (l : list Version) : Prop :=
  StronglySorted (fun a b => b < a) (stamps l) /\ Forall (fun c => c <= now) (stamps l).

Definition store_ok (st : MvccStore) : Prop := forall k, chain_ok (ts st) (chain st k).

Lemma read_chain_unchanged l s now : Forall (fun c => c <= now) (stamps l) ->
  existsb (committed_after s) l = false -> read_chain l now = read_chain l s.
Proof.
  induction l as [|v l IH]; intros Hnow Hs; [done|]. cbn [existsb] in Hs.
  apply orb_false_iff in Hs as [Hv Hs]. unfold stamps in Hnow. cbn [omap list_omap] in Hnow.
  unfold committed_after in Hv. cbn [read_chain]. destruct (commit_ts v) as [c|]; [|by apply IH].
  apply Forall_cons in Hnow as [Hc Hnow]. apply Z.ltb_ge in Hv.
  by rewrite (proj2 (Z.leb_le c now)), (proj2 (Z.leb_le c s)).
Qed.

(** ** Garbage collection *)
Lemma gc_chain_read oldest s l : oldest <= s -> forall seen,
  read_chain (gc_chain oldest seen l).1 s = read_chain l s.
Proof.
  intros Hs. induction l as [|v l IH]; intros seen; [done|]. cbn [gc_chain read_chain].
  destruct (commit_ts v) as [c|] eqn:E.
  - destruct (seen && (c <? oldest)) eqn:Hcut.
    + apply andb_true_iff in Hcut as [_ Hlt%Z.ltb_lt]. cbn [fst read_chain]. rewrite E.
      by rewrite (proj2 (Z.leb_le _ _)) by lia.
    + specialize (IH true). destruct (gc_chain oldest true l). cbn [fst read_chain] in *. by rewrite E, IH.
  - specialize (IH seen). destruct (gc_chain oldest seen l). cbn [fst read_chain] in *. by rewrite E, IH.
Qed.

Lemma gc_chain_count oldest l : forall seen,
  (length (gc_chain oldest seen l).1 + (gc_chain oldest seen l).2 = length l)%nat.
Proof.
  induction l as [|v l IH]; intros seen; [done|]. cbn [gc_chain].
  destruct (commit_ts v) as [c|]; [destruct (seen && (c <? oldest)); [cbn; lia|]|];
    [specialize (IH true); destruct (gc_chain oldest true l)|specialize (IH seen); destruct (gc_chain oldest seen l)];
    cbn in *; lia.
Qed.

Lemma gc_chain_newest oldest l : head (gc_chain oldest false l).1 = head l.
Proof. destruct l as [|v l]; [done|]. cbn. destruct (commit_ts v); [destruct (gc_chain oldest true l)|destruct (gc_chain oldest false l)]; done. Qed.

Lemma chain_gc st o k : chain (gc st o).2 k = (gc_chain o false (chain st k)).1.
Proof. unfold chain, gc. cbn. rewrite lookup_fmap. by destruct (chains st !! k). Qed.

(** C25: collecting the versions older than every active snapshot is invisible: a
    read at or after [oldest_active_ts] returns what it returned before, the
    newest version of each key stays, and the number reported is the number of
    versions that are gone. *)
Theorem gc_preserves_reads st oldest :
  (forall k s, oldest <= s -> read (gc st oldest).2 k s = read st k s) /\
  (forall k, head (chain (gc st oldest).2 k) = head (chain st k)) /\
  (version_count (gc st oldest).2 + (gc st oldest).1 = version_count st)%nat.
Proof.
  split_and!.
  - intros k s Hs. unfold read. rewrite chain_gc. by apply gc_chain_read.
  - intros k. rewrite chain_gc. apply gc_chain_newest.
  - unfold version_count, gc. cbn [fst snd chains]. rewrite map_to_list_fmap.
    induction (map_to_list (chains st)) as [|[k l] kls IH]; [done|].
    cbn [fmap list_fmap sum_list sum_list_with prod_map fst snd id] in *.
    pose proof (gc_chain_count oldest l false). cbn in *. lia.
Qed.

(** ** Threads

    A thread runs one transaction. The store's locks are taken anew for each
    validated key, each intent, the timestamp and each stamp, so a commit is a
    sequence of atomic steps, between which the other threads run. The write
    buffer is a hash map: both of its loops visit the keys in one order, which
    the event that starts the commit carries. A [Get] looks at the clock and at
    the chain in one event; an abort drops the buffer and does nothing else. *)
Inductive phase :=
  | Active
  | Validating (todo : list bytes) (order : list (bytes * bytes))
  | Failed (key : bytes)
  | Installing (todo order : list (bytes * bytes))
  | Stamping (cts : Z) (todo : list bytes)
  | Done (cts : Z).

Record thread := mkThread { transaction : Transaction; at_phase : phase }.

Record system := mkSys { store : MvccStore; next_txn_id : Z; threads : gmap Z thread }.

Definition init : system := {| store := new; next_txn_id := 0; threads := ∅ |}.

Definition start_commit (tx : Transaction) (order : list (bytes * bytes)) : phase :=
  Validating (if decide (isolation tx = Serializable) then reads tx else []) order.

(** The next step of a commit; [None] when there is none (or the clock is at its
    end, where the addition overflows). *)
Definition advance (st : MvccStore) (tx : Transaction) (p : phase) : option (MvccStore * phase) :=
  match p with
  | Validating (k :: todo) order =>
      Some (st, if has_committed_since st k (snapshot_ts tx) then Failed k else Validating todo order)
  | Validating [] order => Some (st, Installing order order)
  | Installing ((k, v) :: todo) order => Some (write_intent st k v (tx_id tx), Installing todo order)
  | Installing [] order =>
      if ts st <? u64_max then let '(cts, st') := next_ts st in Some (st', Stamping cts order.*1) else None
  | Stamping cts (k :: todo) => Some ((commit_key st k (tx_id tx) cts).2, Stamping cts todo)
  | Stamping cts [] => Some (st, Done cts)
  | Active | Failed _ | Done _ => None
  end.

Inductive event :=
  | Begin (iso : Isolation)
  | Get (id : Z) (key : bytes)
  | Put (id : Z) (key v : bytes)
  | Commit (id : Z) (order : list (bytes * bytes))
  | Advance (id : Z)
  | Collect (oldest_active_ts : Z).

#[export] Instance event_eq_dec : EqDecision event.
Proof. solve_decision. Defined.

Definition set_thread (s : system) (id : Z) (st : MvccStore) (tx : Transaction) (p : phase) : system :=
  {| store := st; next_txn_id := next_txn_id s; threads := <[id := mkThread tx p]> (threads s) |}.

Definition active (s : system) (id : Z) : option Transaction :=
  match threads s !! id with Some (mkThread tx Active) => Some tx | _ => None end.

Definition exec (s : system) (e : event) : option system :=
  match e with
  | Begin iso =>
      if next_txn_id s <? u64_max
      then let '(id, tx) := begin (next_txn_id s) (store s) iso in
           Some {| store := store s; next_txn_id := id; threads := <[id := mkThread tx Active]> (threads s) |}
      else None
  | Get id key => tx ← active s id; Some (set_thread s id (store s) (get (store s) tx key).2 Active)
  | Put id key v => tx ← active s id; Some (set_thread s id (store s) (put tx key v) Active)
  | Commit id order =>
      tx ← active s id;
      if decide (NoDup order.*1 /\ list_to_map order = writes tx)
      then Some (set_thread s id (store s) tx (start_commit tx order)) else None
  | Advance id =>
      th ← threads s !! id;
      '(st, p) ← advance (store s) (transaction th) (at_phase th);
      Some (set_thread s id st (transaction th) p)
  | Collect oldest => Some {| store := (gc (store s) oldest).2; next_txn_id := next_txn_id s; threads := threads s |}
  end.

Fixpoint run (es : list event) (s : system) : option system :=
  match es with [] => Some s | e :: es => exec s e ≫= run es end.

Definition reachable (s : system) : Prop := exists es, run es init = Some s.

(** The key on which an event installs or stamps a version, and the thread. *)
Definition touches (s : system) (e : event) : option (Z * bytes) :=
  match e with
  | Advance id =>
      match threads s !! id with
      | Some (mkThread _ (Installing ((k, _) :: _) _)) | Some (mkThread _ (Stamping _ (k :: _))) => Some (id, k)
      | _ => None
      end
  | _ => None
  end.

(** Nobody but [id] touches the keys [ks], and nothing at or after [low] is collected. *)
Definition quiet (id : Z) (ks : list bytes) (low : Z) (s : system) (e : event) : bool :=
  match touches s e with Some (j, k) => bool_decide (j = id) || bool_decide (k ∉ ks) | None => true end &&
  match e with Collect oldest => oldest <=? low | _ => true end.

Fixpoint undisturbed (id : Z) (ks : list bytes) (low : Z) (es : list event) (s : system) : bool :=
  match es with
  | [] => true
  | e :: es => quiet id ks low s e && match exec s e with Some s' => undisturbed id ks low es s' | None => true end
  end.

(** From when a key of a commit in this phase is visible. *)
Definition visible_from (p : phase) (k : bytes) : option Z :=
  match p with
  | Stamping cts todo => if decide (k ∈ todo) then None else Some cts
  | Done cts => Some cts
  | _ => None
  end.

(** ** What every interleaving keeps *)

Lemma gc_chain_prefix o l : forall seen, (gc_chain o seen l).1 `prefix_of` l.
Proof.
  induction l as [|v l IH]; intros seen; [done|]. cbn [gc_chain].
  destruct (commit_ts v) as [c|]; [destruct (seen && (c <? o)); [apply prefix_cons, prefix_nil|]|];
    [specialize (IH true); destruct (gc_chain o true l)|specialize (IH seen); destruct (gc_chain o seen l)];
    by apply prefix_cons.
Qed.

Lemma gc_chain_stamp o l : head (stamps (gc_chain o false l).1) = head (stamps l).
Proof.
  induction l as [|v l IH]; [done|]. cbn [gc_chain]. unfold stamps in *.
  destruct (commit_ts v) as [c|] eqn:E.
  - cbn [andb]. destruct (gc_chain o true l). cbn. by rewrite E.
  - destruct (gc_chain o false l). cbn in *. by rewrite E.
Qed.

Lemma stamps_app l1 l2 : stamps (l1 ++ l2) = stamps l1 ++ stamps l2.
Proof. apply omap_app. Qed.

Lemma chain_ok_later now now' l : now <= now' -> chain_ok now l -> chain_ok now' l.
Proof. intros Hle [H1 H2]. split; [done|]. eapply Forall_impl; [exact H2|]. cbn. lia. Qed.

Lemma chain_ok_prefix now l l' : l' `prefix_of` l -> chain_ok now l -> chain_ok now l'.
Proof.
  intros [l2 ->]. unfold chain_ok. rewrite stamps_app. intros [Hs Hf].
  apply Forall_app in Hf as [Hf _]. split; [|done].
  eapply StronglySorted_sublist; [|exact Hs]. by apply sublist_inserts_r.
Qed.

(** While a thread is stamping, what lies below its pending versions is older
    than the timestamp it took. *)
Definition pending_ok (thr : gmap Z thread) (now : Z) (l : list Version) : Prop :=
  forall l1 v l2 tx cts todo, l = l1 ++ v :: l2 -> commit_ts v = None ->
    thr !! txn_id v = Some (mkThread tx (Stamping cts todo)) -> Forall (fun c => c < cts) (stamps l2) /\ cts <= now.

Definition writing (p : phase) : Prop :=
  match p with Installing _ _ | Stamping _ _ | Done _ => True | _ => False end.

(** Every version was written by a thread that passed its validation. *)
Definition owned (thr : gmap Z thread) (l : list Version) : Prop :=
  Forall (fun v => exists th, thr !! txn_id v = Some th /\ writing (at_phase th)) l.

Record sys_inv (s : system) : Prop := {
  inv_ts : 0 <= ts (store s) <= u64_max;
  inv_ids : forall id th, threads s !! id = Some th -> 0 <= id <= next_txn_id s /\ tx_id (transaction th) = id;
  inv_next : 0 <= next_txn_id s <= u64_max;
  inv_chain : forall k, chain_ok (ts (store s)) (chain (store s) k);
  inv_pending : forall k, pending_ok (threads s) (ts (store s)) (chain (store s) k);
  inv_owned : forall k, owned (threads s) (chain (store s) k)
}.

Lemma pending_ok_prefix thr now l l' : l' `prefix_of` l -> pending_ok thr now l -> pending_ok thr now l'.
Proof.
  intros [l3 ->] H l1 v l2 tx cts todo -> Hv Ht. destruct (H l1 v (l2 ++ l3) tx cts todo) as [Hf ?]; [by rewrite <- app_assoc|done..|].
  split; [|done]. rewrite stamps_app in Hf. by apply Forall_app in Hf as [? _].
Qed.

(** A thread moves on: it is stamping with the timestamp it had, or has just
    taken one above every stamp, or is not stamping. *)
Lemma pending_ok_insert thr now now' id tx p l : now <= now' -> pending_ok thr now l ->
  (forall cts todo, p = Stamping cts todo ->
    (exists tx0 todo0, thr !! id = Some (mkThread tx0 (Stamping cts todo0))) \/
    (cts <= now' /\ Forall (fun c => c < cts) (stamps l))) ->
  pending_ok (<[id := mkThread tx p]> thr) now' l.
Proof.
  intros Hle H Hp l1 v l2 tx1 cts todo Hl Hv Ht. apply lookup_insert_Some in Ht as [[Hid Ht]|[_ Ht]].
  - injection Ht as <- ->. destruct (Hp cts todo eq_refl) as [(tx0 & todo0 & H0)|[Hc Hf]].
    + destruct (H l1 v l2 tx0 cts todo0) as [? ?]; [done|done|by rewrite <- Hid|]. split; [done|lia].
    + split; [|done]. subst l. rewrite stamps_app in Hf. apply Forall_app in Hf as [_ Hf].
      unfold stamps in Hf at 1. cbn in Hf. by rewrite Hv in Hf.
  - destruct (H l1 v l2 tx1 cts todo) as [? ?]; [done..|]. split; [done|lia].
Qed.

Lemma pending_ok_cons thr now v l : commit_ts v <> None \/ (forall tx cts todo, thr !! txn_id v <> Some (mkThread tx (Stamping cts todo))) ->
  pending_ok thr now l -> pending_ok thr now (v :: l).
Proof.
  intros Hv H [|w l1] u l2 tx cts todo Hl Hu Ht; cbn in Hl; simplify_eq; [naive_solver|by eapply H].
Qed.

Lemma owned_insert thr id tx p l :
  (forall th, thr !! id = Some th -> writing (at_phase th) -> writing p) ->
  owned thr l -> owned (<[id := mkThread tx p]> thr) l.
Proof.
  intros Hp Ho. eapply Forall_impl; [exact Ho|]. intros v (th & Hth & Hw).
  destruct (decide (id = txn_id v)) as [Hid|Hne].
  - rewrite <- Hid in *. eexists. rewrite lookup_insert_eq. split; [done|]. cbn. by eapply Hp.
  - exists th. by rewrite lookup_insert_ne.
Qed.

Lemma owned_prefix thr l l' : l' `prefix_of` l -> owned thr l -> owned thr l'.
Proof. intros [l2 ->] H. by apply Forall_app in H as [? _]. Qed.

(** One thread's phase changes and the store with it. *)
Lemma inv_set_thread s id st tx p : sys_inv s -> (exists th, threads s !! id = Some th) -> tx_id tx = id ->
  ts (store s) <= ts st <= u64_max ->
  (forall k, chain_ok (ts st) (chain st k)) ->
  (forall k, pending_ok (<[id := mkThread tx p]> (threads s)) (ts st) (chain st k)) ->
  (forall k, owned (<[id := mkThread tx p]> (threads s)) (chain st k)) ->
  sys_inv (set_thread s id st tx p).
Proof.
  intros I [th Hth] Hid Hts Hc Hp Ho. pose proof (inv_ts s I).
  split; cbn [store next_txn_id threads set_thread]; [lia| |apply I|done..].
  intros id' th' [[<- <-]|[_ H']]%lookup_insert_Some; [split; [by destruct (inv_ids s I _ _ Hth)|done]|by apply (inv_ids s I)].
Qed.

(** A step that leaves the store alone and does not start stamping. *)
Lemma inv_same_store s id th tx p : sys_inv s -> threads s !! id = Some th -> tx_id tx = id ->
  (writing (at_phase th) -> writing p) ->
  (forall cts todo, p = Stamping cts todo -> exists tx0 todo0, th = mkThread tx0 (Stamping cts todo0)) ->
  sys_inv (set_thread s id (store s) tx p).
Proof.
  intros I Hth Hid Hw Hs. apply inv_set_thread; [done|by exists th|done|split; [done|apply I]|apply I|..]; intros k.
  - apply (pending_ok_insert _ (ts (store s))); [done|by apply I|]. intros cts todo ->.
    destruct (Hs cts todo eq_refl) as (tx0 & todo0 & ->). left. eauto.
  - apply owned_insert; [|by apply I]. intros th' Hth'. by replace th' with th by congruence.
Qed.

Lemma inv_install s id tx k v todo order : sys_inv s ->
  threads s !! id = Some (mkThread tx (Installing ((k, v) :: todo) order)) ->
  sys_inv (set_thread s id (write_intent (store s) k v (tx_id tx)) tx (Installing todo order)).
Proof.
  intros I Hth. destruct (inv_ids s I _ _ Hth) as [_ Hid]. cbn in Hid.
  apply inv_set_thread; [done|eauto|done|split; [done|apply I]|..]; intros k';
    unfold write_intent; rewrite chain_set; rewrite ?Hid.
  - case_decide as E; [subst k'|]; apply (inv_chain s I).
  - assert (pending_ok (<[id := mkThread tx (Installing todo order)]> (threads s)) (ts (store s)) (chain (store s) k')) as H.
    { apply (pending_ok_insert _ (ts (store s))); [done|apply I|done]. }
    case_decide as E; [subst k'|done]. apply pending_ok_cons; [|done]. right. cbn. intros. by rewrite lookup_insert_eq.
  - assert (owned (<[id := mkThread tx (Installing todo order)]> (threads s)) (chain (store s) k')) as H.
    { apply owned_insert; [done|apply I]. }
    case_decide as E; [subst k'|done]. constructor; [|done]. cbn. eexists. by rewrite lookup_insert_eq.
Qed.

Lemma inv_timestamp s id tx order : sys_inv s -> ts (store s) < u64_max ->
  threads s !! id = Some (mkThread tx (Installing [] order)) ->
  sys_inv (set_thread s id (next_ts (store s)).2 tx (Stamping (next_ts (store s)).1 order.*1)).
Proof.
  intros I Hmax Hth. destruct (inv_ids s I _ _ Hth) as [_ Hid]. cbn in Hid. pose proof (inv_ts s I).
  unfold next_ts. rewrite wrap_small by (unfold u64_max in *; lia). cbn [fst snd].
  apply inv_set_thread; [done|eauto|done|cbn; lia|..]; intros k; cbn [ts].
  - apply (chain_ok_later (ts (store s))); [lia|apply (inv_chain s I)].
  - apply (pending_ok_insert _ (ts (store s))); [lia|apply (inv_pending s I)|].
    intros cts todo [= <- _]. right. split; [done|].
    eapply Forall_impl; [apply (inv_chain s I k)|]. cbn. lia.
  - apply owned_insert; [done|apply (inv_owned s I)].
Qed.

Lemma inv_stamp s id tx k cts todo : sys_inv s ->
  threads s !! id = Some (mkThread tx (Stamping cts (k :: todo))) ->
  sys_inv (set_thread s id (commit_key (store s) k (tx_id tx) cts).2 tx (Stamping cts todo)).
Proof.
  intros I Hth. destruct (inv_ids s I _ _ Hth) as [_ Hid]. cbn in Hid. rewrite Hid.
  assert (forall k', chain (commit_key (store s) k id cts).2 k' = chain (store s) k' \/
    exists v l, chain (store s) k' = v :: l /\ commit_ts v = None /\ txn_id v = id /\
      chain (commit_key (store s) k id cts).2 k' = {| value := value v; txn_id := id; commit_ts := Some cts |} :: l) as Hk.
  { intros k'. rewrite chain_commit_key. destruct (chain (store s) k') as [|v l]; [by left|].
    case_decide; [|by left]. destruct (pending_of v id) eqn:Hp; [|by left]. right. exists v, l.
    apply andb_true_iff in Hp as [Hv%Z.eqb_eq Hc%bool_decide_eq_true]. done. }
  assert (forall k', pending_ok (<[id := mkThread tx (Stamping cts todo)]> (threads s)) (ts (store s)) (chain (store s) k')) as Hp.
  { intros k'. apply (pending_ok_insert _ (ts (store s))); [done|apply I|]. intros ?? [= <- _]. left. eauto. }
  assert (forall k', owned (<[id := mkThread tx (Stamping cts todo)]> (threads s)) (chain (store s) k')) as Ho.
  { intros k'. apply owned_insert; [done|apply I]. }
  apply inv_set_thread; [done|eauto|done|rewrite ts_commit_key; split; [done|apply I]|..]; intros k';
    rewrite ?ts_commit_key; destruct (Hk k') as [->|(v & l & Hl & Hv & Hi & ->)]; [apply I| |done| |done|].
  - destruct (inv_chain s I k') as [Hs Hf]. destruct (inv_pending s I k' [] v l tx cts (k :: todo)) as [Hlt Hle]; [done..|by rewrite Hi|].
    rewrite Hl in Hs, Hf. unfold chain_ok, stamps in *. cbn in *. rewrite Hv in Hs, Hf. split; by constructor.
  - apply pending_ok_cons; [by left|]. specialize (Hp k'). rewrite Hl in Hp.
    intros l1 u l2 tx1 c1 todo1 -> Hu Ht. by apply (Hp (v :: l1) u l2 tx1 c1 todo1).
  - specialize (Ho k'). rewrite Hl in Ho. apply Forall_cons in Ho as [Hv' Ho]. constructor; [|done]. cbn. by rewrite Hi in Hv'.
Qed.

Lemma inv_advance s id tx p st' p' : sys_inv s -> threads s !! id = Some (mkThread tx p) ->
  advance (store s) tx p = Some (st', p') -> sys_inv (set_thread s id st' tx p').
Proof.
  intros I Hth Ha. destruct (inv_ids s I _ _ Hth) as [_ Hid]. cbn in Hid.
  destruct p as [|[|k todo] order|k|[|[k v] todo] order|cts [|k todo]|cts]; cbn in Ha; try done.
  - injection Ha as <- <-. by eapply inv_same_store.
  - injection Ha as <- <-. eapply inv_same_store; [done..| |]; by destruct (has_committed_since _ _ _).
  - destruct (ts (store s) <? u64_max) eqn:Hm; [|done]. injection Ha as <- <-. apply Z.ltb_lt in Hm. by apply inv_timestamp.
  - injection Ha as <- <-. by eapply inv_install.
  - injection Ha as <- <-. by eapply inv_same_store.
  - injection Ha as <- <-. by apply inv_stamp.
Qed.

Lemma active_Some s id tx : active s id = Some tx <-> threads s !! id = Some (mkThread tx Active).
Proof. unfold active. destruct (threads s !! id) as [[? []]|]; naive_solver. Qed.

Lemma get_tx_id st tx k : tx_id (get st tx k).2 = tx_id tx.
Proof. unfold get. destruct (writes tx !! k); [done|]. cbn. by case_decide. Qed.

Lemma exec_inv s e s' : sys_inv s -> exec s e = Some s' -> sys_inv s'.
Proof.
  intros I He. destruct e as [iso|id k|id k v|id order|id|o]; cbn [exec] in He.
  - destruct (next_txn_id s <? u64_max) eqn:Hm; [|done]. apply Z.ltb_lt in Hm. unfold begin in He. cbn in He.
    pose proof (inv_next s I). rewrite wrap_small in He by (unfold u64_max in *; lia). injection He as <-.
    assert (threads s !! (next_txn_id s + 1) = None) as Hn.
    { destruct (threads s !! (next_txn_id s + 1)) eqn:E; [|done]. apply (inv_ids s I) in E. lia. }
    split; cbn [store next_txn_id threads]; [apply I| |lia|apply I|..].
    + intros id th [[<- <-]|[_ Hth]]%lookup_insert_Some; [cbn; lia|]. destruct (inv_ids s I _ _ Hth). lia.
    + intros k. apply (pending_ok_insert _ (ts (store s))); [done|apply I|done].
    + intros k. apply owned_insert; [congruence|apply I].
  - apply bind_Some in He as (tx & Htx%active_Some & [= <-]). destruct (inv_ids s I _ _ Htx) as [_ Hid].
    eapply inv_same_store; [done..|by rewrite get_tx_id|done|done].
  - apply bind_Some in He as (tx & Htx%active_Some & [= <-]). destruct (inv_ids s I _ _ Htx) as [_ Hid].
    by eapply inv_same_store.
  - apply bind_Some in He as (tx & Htx%active_Some & He). case_decide; [|done]. injection He as <-.
    destruct (inv_ids s I _ _ Htx) as [_ Hid]. by eapply inv_same_store.
  - apply bind_Some in He as ([tx p] & Hth & He). apply bind_Some in He as ([st' p'] & Ha & [= <-]).
    by eapply inv_advance.
  - apply (inj Some) in He as <-. split; cbn [store next_txn_id threads]; [apply I..| | |]; intros k; rewrite chain_gc.
    + eapply chain_ok_prefix; [apply gc_chain_prefix|apply (inv_chain s I)].
    + eapply pending_ok_prefix; [apply gc_chain_prefix|apply (inv_pending s I)].
    + eapply owned_prefix; [apply gc_chain_prefix|apply (inv_owned s I)].
Qed.

Lemma run_inv es : forall s s', sys_inv s -> run es s = Some s' -> sys_inv s'.
Proof.
  induction es as [|e es IH]; intros s s' I Hr; [by injection Hr as <-|].
  apply bind_Some in Hr as (s1 & He & Hr). eapply IH; [|done]. by eapply exec_inv.
Qed.

Lemma reachable_inv s : reachable s -> sys_inv s.
Proof.
  intros [es Hr]. eapply run_inv; [|exact Hr]. split; [done|..].
  - intros id th Hth. cbn in Hth. by rewrite lookup_empty in Hth.
  - done.
  - intros k. repeat constructor.
  - intros k [] ? ? ? ? ? [=].
  - intros k. constructor.
Qed.

Lemma run_app es1 es2 s : run (es1 ++ es2) s = run es1 s ≫= run es2.
Proof. revert s. induction es1 as [|e es1 IH]; intros s; [done|]. cbn. destruct (exec s e); [apply IH|done]. Qed.

(** ** One step, seen from a thread and from a key *)

Lemma exec_thread s e s' id tx p : sys_inv s -> threads s !! id = Some (mkThread tx p) -> p <> Active ->
  exec s e = Some s' -> e <> Advance id -> threads s' !! id = Some (mkThread tx p).
Proof.
  intros I Hth Hp He Hne. destruct e as [iso|j k|j k v|j order|j|o]; cbn [exec] in He.
  - destruct (next_txn_id s <? u64_max) eqn:Hm; [|done]. apply Z.ltb_lt in Hm. unfold begin in He. cbn in He.
    pose proof (inv_next s I). rewrite wrap_small in He by (unfold u64_max in *; lia). injection He as <-. cbn [threads].
    rewrite lookup_insert_ne; [done|]. destruct (inv_ids s I _ _ Hth). lia.
  - apply bind_Some in He as (tx' & Htx%active_Some & [= <-]). cbn. rewrite lookup_insert_ne; [done|naive_solver].
  - apply bind_Some in He as (tx' & Htx%active_Some & [= <-]). cbn. rewrite lookup_insert_ne; [done|naive_solver].
  - apply bind_Some in He as (tx' & Htx%active_Some & He). case_decide; [|done]. injection He as <-. cbn.
    rewrite lookup_insert_ne; [done|naive_solver].
  - apply bind_Some in He as ([tx' p'] & Hth' & He). apply bind_Some in He as ([st' p2] & Ha & [= <-]). cbn.
    rewrite lookup_insert_ne; [done|naive_solver].
  - by apply (inj Some) in He as <-.
Qed.

Lemma advance_chain st tx p st' p' k : advance st tx p = Some (st', p') ->
  match p with
  | Installing ((k', v) :: _) _ =>
      chain st' k = if decide (k' = k) then {| value := v; txn_id := tx_id tx; commit_ts := None |} :: chain st k else chain st k
  | Stamping cts (k' :: _) => chain st' k = if decide (k' = k) then chain (commit_key st k' (tx_id tx) cts).2 k else chain st k
  | _ => chain st' k = chain st k
  end.
Proof.
  intros Ha. destruct p as [|[|k0 todo] order|k0|[|[k0 v] todo] order|cts [|k0 todo]|cts]; cbn in Ha; try done.
  - by injection Ha as <- <-.
  - by injection Ha as <- <-.
  - destruct (ts st <? u64_max); [|done]. by injection Ha as <- <-.
  - injection Ha as <- <-. unfold write_intent. rewrite chain_set. by case_decide; [subst|].
  - by injection Ha as <- <-.
  - injection Ha as <- <-. case_decide as E; [by subst|]. rewrite chain_commit_key. destruct (chain st k); [done|].
    by rewrite decide_False.
Qed.

Lemma advance_ts st tx p st' p' : 0 <= ts st -> advance st tx p = Some (st', p') -> ts st <= ts st'.
Proof.
  intros H0 Ha. destruct p as [|[|k0 todo] order|k0|[|[k0 v] todo] order|cts [|k0 todo]|cts]; cbn in Ha; try done;
    try by injection Ha as <- <-.
  - destruct (ts st <? u64_max) eqn:Hm; [|done]. apply Z.ltb_lt in Hm. injection Ha as <- <-. cbn.
    rewrite wrap_small by (unfold u64_max in *; lia). lia.
  - injection Ha as <- <-. by rewrite ts_commit_key.
Qed.

(** What an event does to one key's chain. *)
Lemma exec_chain s e s' k : exec s e = Some s' -> (forall id, touches s e <> Some (id, k)) ->
  chain (store s') k = match e with Collect o => (gc_chain o false (chain (store s) k)).1 | _ => chain (store s) k end.
Proof.
  intros He Hk. destruct e as [iso|j k0|j k0 v|j order|j|o]; cbn [exec] in He.
  - destruct (next_txn_id s <? u64_max); [|done]. unfold begin in He. by injection He as <-.
  - by apply bind_Some in He as (tx' & _ & [= <-]).
  - by apply bind_Some in He as (tx' & _ & [= <-]).
  - apply bind_Some in He as (tx' & _ & He). case_decide; [|done]. by injection He as <-.
  - apply bind_Some in He as ([tx p] & Hth & He). apply bind_Some in He as ([st' p'] & Ha & [= <-]). cbn [store set_thread].
    specialize (Hk j). cbn [touches] in Hk. rewrite Hth in Hk. cbn in Ha. apply (advance_chain _ _ _ _ _ k) in Ha.
    destruct p as [| | |[|[k0 v] todo] order|cts [|k0 todo]|]; try done; by rewrite decide_False in Ha by congruence.
  - apply (inj Some) in He as <-. apply chain_gc.
Qed.

Lemma exec_ts s e s' : sys_inv s -> exec s e = Some s' -> ts (store s) <= ts (store s').
Proof.
  intros I He. destruct e as [iso|j k0|j k0 v|j order|j|o]; cbn [exec] in He.
  - destruct (next_txn_id s <? u64_max); [|done]. unfold begin in He. by injection He as <-.
  - by apply bind_Some in He as (tx' & _ & [= <-]).
  - by apply bind_Some in He as (tx' & _ & [= <-]).
  - apply bind_Some in He as (tx' & _ & He). case_decide; [|done]. by injection He as <-.
  - apply bind_Some in He as ([tx p] & Hth & He). apply bind_Some in He as ([st' p'] & Ha & [= <-]).
    eapply advance_ts; [apply I|exact Ha].
  - by apply (inj Some) in He as <-.
Qed.

(** ** Serializable validation *)

Lemma committed_since_iff st k t : has_committed_since st k t = true <-> exists c, c ∈ stamps (chain st k) /\ t < c.
Proof.
  unfold has_committed_since. rewrite existsb_exists. unfold committed_after, stamps. split.
  - intros (v & Hv%list_elem_of_In & Hc). destruct (commit_ts v) as [c|] eqn:E; [|done]. apply Z.ltb_lt in Hc.
    exists c. split; [apply list_elem_of_omap; eauto|done].
  - intros (c & (v & Hv & E)%list_elem_of_omap & Hc). exists v. split; [by apply list_elem_of_In|].
    rewrite E. by apply Z.ltb_lt.
Qed.

(** Once a key was committed after a snapshot it stays so: an intent hides no
    stamp, a stamp adds one, and a collection keeps the newest. *)
Lemma exec_committed_since s e s' k t : sys_inv s -> exec s e = Some s' ->
  has_committed_since (store s) k t = true -> has_committed_since (store s') k t = true.
Proof.
  intros I He. rewrite !committed_since_iff. intros (c & Hc & Ht).
  assert (forall l, stamps (chain (store s) k) `sublist_of` l -> exists c, c ∈ l /\ t < c) as Hsub.
  { intros l Hl. exists c. split; [|done]. by eapply sublist_subseteq. }
  destruct e as [iso|j k0|j k0 v|j order|j|o].
  1-4: apply Hsub; rewrite (exec_chain _ _ _ k He) by done; done.
  - cbn [exec] in He. apply bind_Some in He as ([tx p] & Hth & He). apply bind_Some in He as ([st' p'] & Ha & [= <-]).
    cbn in Ha |- *. apply (advance_chain _ _ _ _ _ k) in Ha. apply Hsub.
    destruct p as [| | |[|[k0 v] todo] order|cts [|k0 todo]|]; try by rewrite Ha.
    + rewrite Ha. by case_decide.
    + rewrite Ha. case_decide; [|done]. subst k0. rewrite chain_commit_key. destruct (chain (store s) k) as [|v l]; [done|].
      rewrite decide_True by done. destruct (pending_of v (tx_id tx)) eqn:Hp; [|done].
      apply andb_true_iff in Hp as [_ Hv%bool_decide_eq_true]. unfold stamps. cbn. rewrite Hv. by apply sublist_cons.
  - apply (inj Some) in He as <-. cbn [store]. rewrite chain_gc. pose proof (gc_chain_stamp o (chain (store s) k)) as Hh.
    destruct (inv_chain s I k) as [Hs _]. destruct (stamps (chain (store s) k)) as [|c0 cs]; [by apply not_elem_of_nil in Hc|].
    destruct (stamps (gc_chain o false (chain (store s) k)).1) as [|c1 cs1]; [done|]. injection Hh as ->.
    exists c0. split; [left|]. apply StronglySorted_inv in Hs as [_ Hs]. rewrite Forall_forall in Hs.
    apply elem_of_cons in Hc as [->|Hc]; [done|]. specialize (Hs c Hc). lia.
Qed.

(** Where the validation of [tx], begun in [s0], has come to. *)
Definition validation (s0 : system) (id : Z) (tx : Transaction) (s : system) : Prop :=
  (forall k, has_committed_since (store s0) k (snapshot_ts tx) = true -> has_committed_since (store s) k (snapshot_ts tx) = true) /\
  exists p, threads s !! id = Some (mkThread tx p) /\
  match p with
  | Active => False
  | Validating todo _ =>
      exists pre, reads tx = pre ++ todo /\ Forall (fun k => has_committed_since (store s0) k (snapshot_ts tx) = false) pre
  | Failed k => k ∈ reads tx /\ has_committed_since (store s) k (snapshot_ts tx) = true
  | _ => Forall (fun k => has_committed_since (store s0) k (snapshot_ts tx) = false) (reads tx)
  end.

Lemma exec_validation s0 id tx s e s' : sys_inv s -> exec s e = Some s' -> validation s0 id tx s -> validation s0 id tx s'.
Proof.
  intros I He (Hmono & p & Hth & Hp). split; [intros k Hk; eapply exec_committed_since; [done..|by apply Hmono]|].
  destruct (decide (e = Advance id)) as [->|Hne].
  - cbn [exec] in He. rewrite Hth in He. cbn in He. apply bind_Some in He as ([st' p'] & Ha & [= <-]).
    exists p'. cbn. rewrite lookup_insert_eq. split; [done|].
    destruct p as [|[|k todo] order|k|[|[k v] todo] order|cts [|k todo]|cts]; cbn in Ha; try done.
    + injection Ha as <- <-. destruct Hp as (pre & -> & Hpre). by rewrite app_nil_r.
    + destruct Hp as (pre & Hr & Hpre). destruct (has_committed_since (store s) k (snapshot_ts tx)) eqn:Hk; injection Ha as <- <-.
      * rewrite Hr. split; [set_solver|done].
      * exists (pre ++ [k]). rewrite <- app_assoc. split; [done|]. apply Forall_app. split; [done|]. constructor; [|done].
        destruct (has_committed_since (store s0) k (snapshot_ts tx)) eqn:E; [|done]. apply Hmono in E. congruence.
    + destruct (ts (store s) <? u64_max); [|done]. by injection Ha as <- <-.
    + by injection Ha as <- <-.
    + by injection Ha as <- <-.
    + by injection Ha as <- <-.
  - exists p. split; [eapply exec_thread; [done..|by intros ->|done|done]|].
    destruct p; try done. destruct Hp as [Hk Hs]. split; [done|]. by eapply exec_committed_since.
Qed.

(** The commit of a thread begins. *)
Lemma start_commit_run id order es s s' tx : threads s !! id = Some (mkThread tx Active) ->
  run (Commit id order :: es) s = Some s' ->
  NoDup order.*1 /\ list_to_map order = writes tx /\
  run es (set_thread s id (store s) tx (start_commit tx order)) = Some s'.
Proof.
  intros Hth%active_Some Hr. cbn [run exec] in Hr. rewrite Hth in Hr. cbn in Hr.
  case_decide as Hd; [|done]. by destruct Hd.
Qed.

(** C24: in every interleaving, a serializable transaction whose commit passed
    its validation had read only keys that, when its commit began, no commit had
    touched since its snapshot, so each read the same then as at the snapshot. A
    commit that fails names a key it read that was committed since, and neither it
    nor a commit still validating has left a version in the store. (Between the
    validation and the stamps other commits may land: see [write_skew_commits].) *)
Theorem serializable_reads_current s id tx order es s' : reachable s ->
  threads s !! id = Some (mkThread tx Active) -> isolation tx = Serializable ->
  run (Commit id order :: es) s = Some s' ->
  exists p, threads s' !! id = Some (mkThread tx p) /\
  match p with
  | Active => False
  | Validating _ _ => forall k v, v ∈ chain (store s') k -> txn_id v <> id
  | Failed key =>
      (key ∈ reads tx /\ has_committed_since (store s') key (snapshot_ts tx) = true) /\
      forall k v, v ∈ chain (store s') k -> txn_id v <> id
  | Installing _ _ | Stamping _ _ | Done _ =>
      forall k, k ∈ reads tx -> has_committed_since (store s) k (snapshot_ts tx) = false /\
        read (store s) k (ts (store s)) = read (store s) k (snapshot_ts tx)
  end.
Proof.
  intros I%reachable_inv Hth Hiso Hr. apply (start_commit_run _ _ _ _ _ tx) in Hr as (_ & _ & Hr); [|done].
  set (s1 := set_thread s id (store s) tx (start_commit tx order)) in Hr.
  assert (sys_inv s1) as I1. { eapply inv_same_store; [done..|by destruct (inv_ids s I _ _ Hth)|done|done]. }
  assert (validation s id tx s1) as V1.
  { split; [done|]. exists (start_commit tx order). unfold s1. cbn. rewrite lookup_insert_eq, decide_True by done. split; [done|].
    by exists []. }
  assert (sys_inv s' /\ validation s id tx s') as [I' (_ & p & Hp & Hv)].
  { clearbody s1. clear Hth I. revert s1 I1 V1 Hr. induction es as [|e es IH]; intros s1 I1 V1 Hr; [by injection Hr as <-|].
    apply bind_Some in Hr as (s2 & He & Hr). apply (IH s2); [by eapply exec_inv|by eapply exec_validation|done]. }
  assert (~ writing p -> forall k v, v ∈ chain (store s') k -> txn_id v <> id) as Hno.
  { intros Hw k v Hin E. pose proof (inv_owned s' I' k) as Ho. unfold owned in Ho. rewrite Forall_forall in Ho.
    destruct (Ho v Hin) as (th & Ht & Hw'). rewrite E, Hp in Ht. injection Ht as <-. done. }
  assert (Forall (fun k => has_committed_since (store s) k (snapshot_ts tx) = false) (reads tx) ->
    forall k, k ∈ reads tx -> has_committed_since (store s) k (snapshot_ts tx) = false /\
        read (store s) k (ts (store s)) = read (store s) k (snapshot_ts tx)) as Hcur.
  { intros Hf k Hk. rewrite Forall_forall in Hf. specialize (Hf k Hk). split; [done|].
    apply read_chain_unchanged; [apply (inv_chain s I)|exact Hf]. }
  exists p. split; [done|]. destruct p; cbn in Hno; eauto.
Qed.

(** ** Visibility of a commit *)
Section Visible.
Context (s0 : system) (id : Z) (tx : Transaction) (ks : list bytes) (low : Z).

(** A chain that reads as the key did when the commit began. *)
Definition unchanged (k : bytes) (l : list Version) : Prop := forall t, low <= t -> read_chain l t = read (store s0) k t.

Definition headed (k v : bytes) (c : option Z) (l : list Version) : Prop :=
  exists l', l = {| value := v; txn_id := id; commit_ts := c |} :: l' /\ unchanged k l'.

Definition shape (k : bytes) (p : phase) (l : list Version) : Prop :=
  match writes tx !! k with
  | None => unchanged k l
  | Some v =>
      match p with
      | Installing todo _ => if decide (k ∈ todo.*1) then unchanged k l else headed k v None l
      | Stamping cts todo => if decide (k ∈ todo) then headed k v None l else headed k v (Some cts) l
      | Done cts => headed k v (Some cts) l
      | _ => unchanged k l
      end
  end.

Definition in_order (now : Z) (p : phase) : Prop :=
  match p with
  | Active => False
  | Validating _ order => NoDup order.*1 /\ list_to_map order = writes tx
  | Failed _ => True
  | Installing todo order => NoDup order.*1 /\ list_to_map order = writes tx /\ todo `suffix_of` order
  | Stamping cts todo => NoDup todo /\ (ts (store s0) < cts <= now) /\ forall k', k' ∈ todo -> is_Some (writes tx !! k')
  | Done cts => ts (store s0) < cts <= now
  end.

Definition progress (s : system) : Prop :=
  ts (store s0) <= ts (store s) /\
  exists p, threads s !! id = Some (mkThread tx p) /\ in_order (ts (store s)) p /\
  forall k, k ∈ ks -> shape k p (chain (store s) k).

Lemma unchanged_gc k o b l : o <= low -> unchanged k l -> unchanged k (gc_chain o b l).1.
Proof. intros Ho H t Ht. rewrite gc_chain_read by lia. by apply H. Qed.

Lemma headed_gc k o v c l : o <= low -> headed k v c l -> headed k v c (gc_chain o false l).1.
Proof.
  intros Ho (l' & -> & H). destruct c as [c|]; cbn.
  - pose proof (unchanged_gc k o true l' Ho H). destruct (gc_chain o true l'). by eexists.
  - pose proof (unchanged_gc k o false l' Ho H). destruct (gc_chain o false l'). by eexists.
Qed.

Lemma shape_gc k o p l : o <= low -> shape k p l -> shape k p (gc_chain o false l).1.
Proof.
  intros Ho. unfold shape. destruct (writes tx !! k); [|by apply unchanged_gc].
  destruct p; try case_decide; (by apply unchanged_gc) || (by apply headed_gc).
Qed.

Lemma in_order_later now now' p : now <= now' -> in_order now p -> in_order now' p.
Proof. intros Hle. destruct p; cbn; naive_solver lia. Qed.

Lemma advance_progress k st p st' p' : tx_id tx = id -> ts (store s0) <= ts st -> 0 <= ts st ->
  advance st tx p = Some (st', p') -> in_order (ts st) p ->
  in_order (ts st') p' /\ (shape k p (chain st k) -> shape k p' (chain st' k)).
Proof.
  intros Hid Hts H0 Ha Hp. pose proof (advance_chain _ _ _ _ _ k Ha) as Hk.
  destruct p as [|[|k0 todo] order|k0|[|[k0 v0] todo] order|cts [|k0 todo]|cts]; cbn in Ha; try done.
  - injection Ha as <- <-. destruct Hp as [Hnd Hm]. split; [done|]. intros Hs. unfold shape in *. cbn.
    destruct (writes tx !! k) as [v|] eqn:Hw; [|done]. rewrite decide_True; [done|].
    rewrite <- Hm in Hw. apply elem_of_list_to_map_2 in Hw. by apply (list_elem_of_fmap_2 fst _ (k, v)).
  - injection Ha as <- <-. destruct (has_committed_since st k0 (snapshot_ts tx)); split; (done || by intros Hs).
  - destruct (ts st <? u64_max) eqn:Hm; [|done]. apply Z.ltb_lt in Hm. injection Ha as <- <-. cbn.
    rewrite wrap_small by (unfold u64_max in *; lia). destruct Hp as (Hnd & Hm' & _). split.
    + split; [done|]. split; [lia|]. intros k' ([k2 v] & -> & Hin)%list_elem_of_fmap. rewrite <- Hm'. cbn.
      exists v. by apply elem_of_list_to_map_1.
    + intros Hs. change (shape k (Stamping (ts st + 1) order.*1) (chain st k)). unfold shape in *. destruct (writes tx !! k) as [v|] eqn:Hw; [|done].
      rewrite decide_False in Hs by (cbn; set_solver). rewrite decide_True; [done|].
      rewrite <- Hm' in Hw. apply elem_of_list_to_map_2 in Hw. by apply (list_elem_of_fmap_2 fst _ (k, v)).
  - injection Ha as <- <-. destruct Hp as (Hnd & Hm & [l0 Ho]). split; [split_and!; [done..|exists (l0 ++ [(k0, v0)]); by rewrite <- app_assoc]|].
    assert (writes tx !! k0 = Some v0) as Hv0.
    { rewrite <- Hm. apply elem_of_list_to_map_1; [done|]. rewrite Ho. set_solver. }
    assert (k0 ∉ todo.*1) as Hni.
    { rewrite Ho, fmap_app in Hnd. apply NoDup_app in Hnd as (_ & _ & Hnd). cbn in Hnd. by apply NoDup_cons in Hnd as [? _]. }
    intros Hs. rewrite Hk. unfold shape in *. cbn [fmap list_fmap fst] in Hs. destruct (decide (k0 = k)) as [E|E].
    + subst k0. rewrite Hv0 in *. rewrite decide_True in Hs by left. rewrite decide_False by done. exists (chain st k). by rewrite Hid.
    + destruct (writes tx !! k); [|done]. destruct (decide (k ∈ todo.*1)).
      * by rewrite decide_True in Hs by by right.
      * by rewrite decide_False in Hs by (intros [|]%elem_of_cons; congruence).
  - injection Ha as <- <-. destruct Hp as (_ & Hc & _). split; [done|]. intros Hs. unfold shape in *.
    destruct (writes tx !! k); [|done]. rewrite decide_False in Hs by set_solver. done.
  - injection Ha as <- <-. rewrite ts_commit_key. destruct Hp as (Hnd & Hc & Hw). apply NoDup_cons in Hnd as [Hni Hnd].
    split; [split_and!; [done|lia|lia|]; intros; apply Hw; by right|]. intros Hs. rewrite Hk. unfold shape in *. destruct (decide (k0 = k)) as [E|E].
    + subst k0. destruct (Hw k) as [v Hv]; [left|]. rewrite Hv in *. rewrite decide_True in Hs by left. rewrite decide_False by done.
      destruct Hs as (l' & Hl & Hu). exists l'. rewrite chain_commit_key, Hl, decide_True by done. unfold pending_of. cbn.
      by rewrite Hid, Z.eqb_refl.
    + destruct (writes tx !! k); [|done]. destruct (decide (k ∈ todo)).
      * by rewrite decide_True in Hs by by right.
      * by rewrite decide_False in Hs by (intros [|]%elem_of_cons; congruence).
Qed.

Lemma exec_progress s e s' : sys_inv s -> quiet id ks low s e = true -> exec s e = Some s' ->
  progress s -> progress s'.
Proof.
  intros I Hq He (Hts & p & Hth & Hp & Hs). pose proof (exec_ts _ _ _ I He) as Hts'. split; [lia|].
  destruct (decide (e = Advance id)) as [->|Hne].
  - cbn [exec] in He. rewrite Hth in He. cbn in He. apply bind_Some in He as ([st' p'] & Ha & [= <-]).
    exists p'. cbn. rewrite lookup_insert_eq. split; [done|].
    destruct (inv_ids s I _ _ Hth) as [_ Hid]. cbn in Hid.
    assert (forall k, in_order (ts st') p' /\ (shape k p (chain (store s) k) -> shape k p' (chain st' k))) as Hk.
    { intros k. eapply advance_progress; [done|exact Hts|apply I|exact Ha|done]. }
    split; [apply (Hk [])|]. intros k Hin. by apply Hk, Hs.
  - exists p. split; [eapply exec_thread; [done..|by intros ->|done|done]|]. split; [by eapply in_order_later|].
    intros k Hks. specialize (Hs k Hks). unfold quiet in Hq. apply andb_true_iff in Hq as [Ht Hc].
    assert (forall j, touches s e <> Some (j, k)) as Hn.
    { intros j E. rewrite E in Ht. apply orb_true_iff in Ht as [->%bool_decide_eq_true|Ht%bool_decide_eq_true]; [|done].
      destruct e; try done. cbn in E. destruct (threads s !! id0) as [[? []]|]; repeat case_match; naive_solver. }
    rewrite (exec_chain _ _ _ k He Hn). destruct e; try done. apply shape_gc; [by apply Z.leb_le|done].
Qed.

End Visible.

(** C6: while a transaction commits, in any interleaving, the keys that no other
    thread installs or stamps meanwhile read as follows at every snapshot from the
    oldest one collected for. Before a key is stamped it reads as it did when the
    commit began, at every snapshot. Once it is stamped, and for every written key
    once the commit has returned [Ok cts], snapshots at or after [cts] read the
    written value and older ones what they read before; [cts] is above every
    timestamp taken before the commit began. Keys it does not write are left as
    they were. *)
Theorem commit_visible s id tx order es s' ks low : reachable s ->
  threads s !! id = Some (mkThread tx Active) ->
  run (Commit id order :: es) s = Some s' -> undisturbed id ks low (Commit id order :: es) s = true ->
  exists p, threads s' !! id = Some (mkThread tx p) /\
  (match p with Stamping cts _ | Done cts => ts (store s) < cts <= ts (store s') | _ => True end) /\
  forall k t, k ∈ ks -> low <= t ->
    read (store s') k t =
    match writes tx !! k, visible_from p k with
    | Some v, Some cts => if cts <=? t then Some v else read (store s) k t
    | _, _ => read (store s) k t
    end.
Proof.
  intros I%reachable_inv Hth Hr Hu. pose proof Hr as Hr0. apply (start_commit_run _ _ _ _ _ tx) in Hr0 as (Hnd & Hm & Hr1); [|done].
  assert (exec s (Commit id order) = Some (set_thread s id (store s) tx (start_commit tx order))) as He.
  { cbn. rewrite (proj2 (active_Some s id tx) Hth). cbn. by rewrite decide_True. }
  cbn [undisturbed] in Hu. rewrite He in Hu. apply andb_true_iff in Hu as [_ Hu].
  pose proof (exec_inv _ _ _ I He) as I1.
  set (s1 := set_thread s id (store s) tx (start_commit tx order)) in *.
  assert (progress s id tx ks low s1) as P1.
  { split; [done|]. exists (start_commit tx order). unfold s1. cbn. rewrite lookup_insert_eq. split; [done|].
    split; [done|]. intros k _. unfold shape. destruct (writes tx !! k); by intros t Ht. }
  assert (progress s id tx ks low s') as (_ & p & Hp & Ho & Hs).
  { clearbody s1. clear He Hr. revert s1 I1 P1 Hu Hr1.
    induction es as [|e es IH]; intros s1 I1 P1 Hu Hr; [by injection Hr as <-|].
    apply bind_Some in Hr as (s2 & He & Hr). cbn [undisturbed] in Hu. rewrite He in Hu. apply andb_true_iff in Hu as [Hq Hu].
    apply (IH s2); [by eapply exec_inv|by eapply exec_progress|done..]. }
  exists p. split; [done|]. split; [destruct p; try done; naive_solver|].
  intros k t Hk Ht. specialize (Hs k Hk). revert Hs. unfold shape, visible_from, read.
  destruct (writes tx !! k) as [v|]; [|intros Hs; by apply Hs].
  assert (forall c, headed s id low k v c (chain (store s') k) -> read_chain (chain (store s') k) t =
    match c with Some cts => if cts <=? t then Some v else read (store s) k t | None => read (store s) k t end) as Hh.
  { intros c (l' & -> & Hl). destruct c as [c|]; cbn; [destruct (c <=? t); [done|]|]; by apply Hl. }
  destruct p; try (intros Hs; by apply Hs); try case_decide; try apply Hh. intros Hs. by apply Hs.
Qed.
Lemma read_chain_newest l s v : StronglySorted (fun a b => b < a) (stamps l) -> read_chain l s = Some v ->
  exists u c, u ∈ l /\ value u = v /\ commit_ts u = Some c /\ c <= s /\
    forall u' c', u' ∈ l -> commit_ts u' = Some c' -> c' <= s -> c' <= c.
Proof.
  induction l as [|w l IH]; intros Hs Hr; [done|]. cbn [read_chain] in Hr. unfold stamps in Hs. cbn in Hs.
  assert (forall c u' c', StronglySorted (fun a b => b < a) (c :: stamps l) -> u' ∈ l -> commit_ts u' = Some c' -> c' < c) as Hlt.
  { intros c u' c' [_ Hc]%StronglySorted_inv Hu' Hc'. rewrite Forall_forall in Hc. apply Hc.
    unfold stamps. apply list_elem_of_omap. by exists u'. }
  destruct (commit_ts w) as [c|] eqn:Ew.
  - destruct (Z.leb_spec c s) as [Hcs|Hcs].
    + injection Hr as <-. exists w, c. split_and!; [left|done..|]. intros u' c' Hu' Hc' _.
      apply elem_of_cons in Hu' as [->|Hu']; [naive_solver lia|]. specialize (Hlt c u' c' Hs Hu' Hc'). lia.
    + apply StronglySorted_inv in Hs as [Hs _]. destruct (IH Hs Hr) as (u & cu & Hu & ? & ? & ? & Hmax).
      exists u, cu. split_and!; [by right|done..|]. intros u' c' Hu' Hc' Hle.
      apply elem_of_cons in Hu' as [->|Hu']; [naive_solver lia|eauto].
  - destruct (IH Hs Hr) as (u & cu & Hu & ? & ? & ? & Hmax).
    exists u, cu. split_and!; [by right|done..|]. intros u' c' Hu' Hc' Hle.
    apply elem_of_cons in Hu' as [->|Hu']; [congruence|eauto].
Qed.


(** under every interleaving of any number of transactions and collections, the
    committed versions of each key are in strictly descending timestamp order and
    none is newer than the clock; so a read returns the version with the greatest
    timestamp not above the snapshot. *)
Theorem interleaved_chains_ordered s : reachable s ->
  (forall k, chain_ok (ts (store s)) (chain (store s) k)) /\
  forall k t v, read (store s) k t = Some v ->
    exists u c, u ∈ chain (store s) k /\ value u = v /\ commit_ts u = Some c /\ c <= t /\
      forall u' c', u' ∈ chain (store s) k -> commit_ts u' = Some c' -> c' <= t -> c' <= c.
Proof.
  intros I%reachable_inv. split; [apply (inv_chain s I)|]. intros k t v. apply read_chain_newest, (inv_chain s I).
Qed.

(** ** A commit that runs alone *)

Abbreviation advances tx := (rtc (fun a b => advance a.1 tx a.2 = Some b)).

Lemma run_advances id tx a b : advances tx a b -> forall s, threads s !! id = Some (mkThread tx a.2) -> store s = a.1 ->
  exists n, run (replicate n (Advance id)) s = Some (set_thread s id b.1 tx b.2).
Proof.
  induction 1 as [[st p]|[st p] [st1 p1] b Ha _ IH]; intros s Hth Hst; cbn in *.
  - exists 0%nat. subst st. unfold set_thread. cbn. rewrite insert_id by done. by destruct s.
  - destruct (IH (set_thread s id st1 tx p1)) as [n Hn]; [cbn; by rewrite lookup_insert_eq|done|].
    exists (S n). cbn. rewrite Hth. cbn. subst st. rewrite Ha. cbn. rewrite Hn. f_equal. unfold set_thread. cbn.
    by rewrite insert_insert_eq.
Qed.

Lemma advances_validate tx st order ks :
  match head (filter (fun k => has_committed_since st k (snapshot_ts tx) = true) ks) with
  | Some k => advances tx (st, Validating ks order) (st, Failed k)
  | None => advances tx (st, Validating ks order) (st, Installing order order)
  end.
Proof.
  induction ks as [|k ks IH]; [by apply rtc_once|]. rewrite filter_cons.
  destruct (has_committed_since st k (snapshot_ts tx)) eqn:E; case_decide; try congruence.
  - apply rtc_once. cbn. by rewrite E.
  - destruct (head _); (eapply rtc_l; [cbn; by rewrite E|exact IH]).
Qed.

Lemma advances_install tx order todo : forall st,
  advances tx (st, Installing todo order) (install (tx_id tx) st todo, Installing [] order).
Proof. induction todo as [|[k v] todo IH]; intros st; [apply rtc_refl|]. eapply rtc_l; [done|apply IH]. Qed.

Lemma advances_stamp tx cts ks : forall st, advances tx (st, Stamping cts ks) (stamp (tx_id tx) cts st ks, Done cts).
Proof. induction ks as [|k ks IH]; intros st; [by apply rtc_once|]. eapply rtc_l; [done|apply IH]. Qed.

Lemma ts_install txn kvs : forall st, ts (install txn st kvs) = ts st.
Proof. unfold install. induction kvs as [|kv kvs IH]; intros st; [done|]. cbn [foldl]. by rewrite IH. Qed.

(** with nobody else running, the steps of a commit are [commit]. *)
Theorem commit_runs_alone s id tx : threads s !! id = Some (mkThread tx Active) -> ts (store s) < u64_max ->
  exists n p, run (Commit id (map_to_list (writes tx)) :: replicate n (Advance id)) s =
    Some (set_thread s id (commit (store s) tx).2 tx p) /\
  match (commit (store s) tx).1 with Ok cts => p = Done cts | _ => exists k, p = Failed k end.
Proof.
  intros Hth Hmax. set (ws := map_to_list (writes tx)).
  assert (exists p, advances tx (store s, start_commit tx ws) ((commit (store s) tx).2, p) /\
    match (commit (store s) tx).1 with Ok cts => p = Done cts | _ => exists k, p = Failed k end) as (p & Hadv & Hp).
  { pose proof (advances_validate tx (store s) ws (if decide (isolation tx = Serializable) then reads tx else [])) as Hv.
    unfold commit. fold ws.
    assert (conflict (store s) tx = head (filter (fun k => has_committed_since (store s) k (snapshot_ts tx) = true)
      (if decide (isolation tx = Serializable) then reads tx else []))) as ->.
    { unfold conflict. by destruct (isolation tx). }
    destruct (head _) as [k|]; [exists (Failed k); split; [exact Hv|by eexists]|].
    destruct (next_ts (install (tx_id tx) (store s) ws)) as [cts st2] eqn:E. exists (Done cts). split; [|done]. cbn [fst snd].
    etransitivity; [exact Hv|]. etransitivity; [apply advances_install|].
    eapply rtc_l; [cbn [fst snd advance]; rewrite ts_install, (proj2 (Z.ltb_lt _ _) Hmax), E; done|]. apply advances_stamp. }
  destruct (run_advances id tx _ _ Hadv (set_thread s id (store s) tx (start_commit tx ws))) as [n Hn];
    [cbn; by rewrite lookup_insert_eq|done|].
  exists n, p. split; [|done]. cbn [run exec]. rewrite (proj2 (active_Some s id tx) Hth). cbn [mbind option_bind].
  rewrite decide_True by (split; [apply NoDup_fst_map_to_list|apply list_to_map_to_list]). cbn [mbind option_bind].
  rewrite Hn. f_equal. unfold set_thread. cbn. by rewrite insert_insert_eq.
Qed.

(** ** What the steps of a commit let through *)

Definition outcome (s : system) (id : Z) : option phase := at_phase <$> threads s !! id.

Definition key1 : bytes := str "k".

(** Both write [key1]; the second installs over the pending version of the first. *)
Definition lost_update : list event :=
  [Begin Snapshot; Begin Snapshot; Put 1 key1 (str "v1"); Put 2 key1 (str "v2");
   Commit 1 [(key1, str "v1")]; Commit 2 [(key1, str "v2")]; Advance 1; Advance 2; Advance 1; Advance 2;
   Advance 2; Advance 1; Advance 1; Advance 2; Advance 1; Advance 2].

(** two transactions that write the same key can both commit although the
    write of the one with the later timestamp is never readable, at any snapshot:
    its pending version was buried before it could be stamped. *)
Theorem concurrent_commit_loses_write : exists s, run lost_update init = Some s /\
  outcome s 1 = Some (Done 2) /\ outcome s 2 = Some (Done 1) /\ forall t, read (store s) key1 t <> Some (str "v1").
Proof.
  eexists. split; [by vm_compute|]. split_and!; [by vm_compute..|]. intros t.
  unfold read. match goal with |- read_chain ?l t <> _ => let c := eval vm_compute in l in change (read_chain c t <> Some (str "v1")) end.
  cbn. by destruct (1 <=? t).
Qed.

(** Each reads [key1] and [key2] and writes one of them; both validate first. *)
Definition key2 : bytes := str "k2".
Definition write_skew : list event :=
  [Begin Serializable; Begin Serializable; Get 1 key1; Get 1 key2; Get 2 key1; Get 2 key2; Put 1 key1 (str "v1"); Put 2 key2 (str "v2");
   Commit 1 [(key1, str "v1")]; Commit 2 [(key2, str "v2")]; Advance 1; Advance 1; Advance 1; Advance 2; Advance 2; Advance 2;
   Advance 1; Advance 1; Advance 1; Advance 1; Advance 2; Advance 2; Advance 2; Advance 2].

(** two serializable transactions that each read what the other writes can both
    commit, which no serial order of the two explains: the second validates before
    the first has stamped. *)
Theorem write_skew_commits : exists s, run write_skew init = Some s /\
  outcome s 1 = Some (Done 1) /\ outcome s 2 = Some (Done 2) /\
  read (store s) key1 2 = Some (str "v1") /\ read (store s) key2 2 = Some (str "v2").
Proof. eexists. split; [by vm_compute|]. by vm_compute. Qed.

(** The second begins between the timestamp and the stamp of the first. *)
Definition early_snapshot : list event :=
  [Begin Snapshot; Put 1 key1 (str "v1"); Commit 1 [(key1, str "v1")]; Advance 1; Advance 1; Advance 1; Begin Snapshot].

(** a snapshot taken while a commit is stamping is not stable: the transaction
    reads a key as absent, and as present once the stamp has been set. *)
Theorem snapshot_read_changes : exists s s' tx,
  run early_snapshot init = Some s /\ run [Advance 1; Advance 1] s = Some s' /\
  active s 2 = Some tx /\ active s' 2 = Some tx /\ isolation tx = Snapshot /\
  (get (store s) tx key1).1 = None /\ (get (store s') tx key1).1 = Some (str "v1").
Proof. do 3 eexists. do 3 (split; [by vm_compute|]). by vm_compute. Qed.

(** ** Witnesses *)

(** A commit of two keys between whose steps another transaction commits a third
    key and the store is collected. *)
Definition before_commit : list event :=
  [Begin Snapshot; Put 1 key1 (str "old"); Commit 1 [(key1, str "old")]; Advance 1; Advance 1; Advance 1; Advance 1; Advance 1;
   Begin Serializable; Get 2 key1; Put 2 key1 (str "new"); Put 2 key2 (str "v2"); Begin Snapshot; Put 3 (str "k3") (str "v3")].
Definition commit_order : list (bytes * bytes) := [(key2, str "v2"); (key1, str "new")].
Definition meanwhile : list event :=
  [Advance 2; Commit 3 [(str "k3", str "v3")]; Advance 3; Advance 2; Advance 3; Advance 2; Advance 3; Advance 2; Advance 3;
   Collect 1; Advance 2; Advance 3; Advance 2; Advance 2; Advance 2].

Definition state_before : system := default init (run before_commit init).
Definition state_after : system := default init (run meanwhile (default init (exec state_before (Commit 2 commit_order)))).
Definition tx2 : Transaction := default (begin_tx new 2 Serializable) (active state_before 2).

Lemma state_before_reachable : reachable state_before.
Proof. exists before_commit. by vm_compute. Qed.

Lemma commit_visible_witness :
  outcome state_after 2 = Some (Done 3) /\
  (forall t, 1 <= t -> read (store state_after) key1 t = if 3 <=? t then Some (str "new") else read (store state_before) key1 t) /\
  (forall t, 1 <= t -> read (store state_after) key2 t = if 3 <=? t then Some (str "v2") else read (store state_before) key2 t).
Proof.
  destruct (commit_visible state_before 2 tx2 commit_order meanwhile state_after [key1; key2] 1) as (p & Hp & Hc & H);
    [apply state_before_reachable|by vm_compute..|].
  assert (p = Done 3) as ->.
  { assert (threads state_after !! 2 = Some (mkThread tx2 (Done 3))) as E by (by vm_compute). congruence. }
  split; [by vm_compute|]. split; intros t Ht.
  - rewrite (H key1 t); [|left|done]. by vm_compute (writes tx2 !! key1).
  - rewrite (H key2 t); [|right; left|done]. by vm_compute (writes tx2 !! key2).
Defined.

Lemma serializable_reads_current_witness :
  outcome state_after 2 = Some (Done 3) /\ reads tx2 = [key1] /\
  read (store state_before) key1 (ts (store state_before)) = read (store state_before) key1 (snapshot_ts tx2).
Proof.
  destruct (serializable_reads_current state_before 2 tx2 commit_order meanwhile state_after) as (p & Hp & H);
    [apply state_before_reachable|by vm_compute..|].
  assert (p = Done 3) as ->.
  { assert (threads state_after !! 2 = Some (mkThread tx2 (Done 3))) as E by (by vm_compute). congruence. }
  split; [by vm_compute|]. split; [by vm_compute|]. apply (H key1). by vm_compute; left.
Defined.

Lemma interleaved_chains_ordered_witness : chain_ok (ts (store state_after)) (chain (store state_after) key1).
Proof.
  apply (interleaved_chains_ordered state_after). exists (before_commit ++ Commit 2 commit_order :: meanwhile). by vm_compute.
Defined.

Lemma commit_runs_alone_witness : exists n p,
  run (Commit 2 (map_to_list (writes tx2)) :: replicate n (Advance 2)) state_before =
    Some (set_thread state_before 2 (commit (store state_before) tx2).2 tx2 p).
Proof.
  destruct (commit_runs_alone state_before 2 tx2) as (n & p & H & _); [by vm_compute..|]. by exists n, p.
Defined.
