(* ===== verification/Session.v ===== *)
(** * Transaction sessions ([src/tx/session.rs])

    A session is a trie snapshot, a buffer of writes and a read set; the manager
    holds the active sessions by identifier. *)

From S2P Require Import Prelude Fnv Hamt.
Local Open Scope Z_scope.

Inductive TxIsolation := ReadCommitted | Snapshot | Serializable.

#[export] Instance TxIsolation_eq_dec : EqDecision TxIsolation.
Proof. solve_decision. Defined.

Definition from_byte (b : byte) : TxIsolation :=
  match b with
  | x01 => ReadCommitted
  | x02 => Snapshot
  | x03 => Serializable
  | _ => Snapshot
  end.

Inductive TxOp :=
  | Put (key value : bytes)
  | Delete (key : bytes).

Record TxSession := mkSession {
  tx_id : Z;
  isolation : TxIsolation;
  snapshot : Hamt;
  write_buffer : list TxOp;
  read_set : list bytes;
  begin_ts : Z
}.

Definition new_session (tx_id : Z) (isolation : TxIsolation) (snapshot : Hamt) (begin_ts : Z) : TxSession :=
  {| tx_id := tx_id; isolation := isolation; snapshot := snapshot; write_buffer := [];
     read_set := []; begin_ts := begin_ts |}.

(** The first operation of the reversed buffer that names the key: [Some] of its
    outcome. *)
Fixpoint buffered (ops : list TxOp) (key : bytes) : option (option bytes) :=
  match ops with
  | [] => None
  | Put k v :: ops' => if bool_decide (k = key) then Some (Some v) else buffered ops' key
  | Delete k :: ops' => if bool_decide (k = key) then Some None else buffered ops' key
  end.

Definition get (s : TxSession) (key : bytes) : res unit (option bytes) * TxSession :=
  match buffered (rev (write_buffer s)) key with
  | Some r => (Ok r, s)
  | None =>
      (Hamt.get (snapshot s) key,
       if decide (isolation s = Serializable)
       then {| tx_id := tx_id s; isolation := isolation s; snapshot := snapshot s;
               write_buffer := write_buffer s; read_set := read_set s ++ [key]; begin_ts := begin_ts s |}
       else s)
  end.

Definition push_op (s : TxSession) (o : TxOp) : TxSession :=
  {| tx_id := tx_id s; isolation := isolation s; snapshot := snapshot s;
     write_buffer := write_buffer s ++ [o]; read_set := read_set s; begin_ts := begin_ts s |}.

Definition put (s : TxSession) (key value : bytes) : TxSession := push_op s (Put key value).
Definition delete (s : TxSession) (key : bytes) : TxSession := push_op s (Delete key).
Definition buffer_len (s : TxSession) : nat := length (write_buffer s).

(** ** The manager *)
Record TxManager := mkManager {
  sessions : gmap Z TxSession;
  next_id : Z;
  next_ts : Z
}.

Definition new : TxManager := {| sessions := ∅; next_id := 1; next_ts := 1 |}.

Definition begin (m : TxManager) (isolation : TxIsolation) (snapshot : Hamt) : Z * TxManager :=
  let tx_id := next_id m in
  let ts := next_ts m in
  (tx_id, {| sessions := <[tx_id := new_session tx_id isolation snapshot ts]> (sessions m);
             next_id := u64 (next_id m + 1); next_ts := u64 (next_ts m + 1) |}).

Definition lookup_session (m : TxManager) (tx_id : Z) : option TxSession := sessions m !! tx_id.

(** Writing a session back through the reference [get_mut] hands out. *)
Definition set_session (m : TxManager) (tx_id : Z) (s : TxSession) : TxManager :=
  {| sessions := <[tx_id := s]> (sessions m); next_id := next_id m; next_ts := next_ts m |}.

Definition remove (m : TxManager) (tx_id : Z) : option TxSession * TxManager :=
  (sessions m !! tx_id,
   {| sessions := base.delete tx_id (sessions m); next_id := next_id m; next_ts := next_ts m |}).

Definition active_count (m : TxManager) : nat := size (sessions m).
Definition exists_tx (m : TxManager) (tx_id : Z) : bool := bool_decide (is_Some (sessions m !! tx_id)).

(** ** What a session reads *)
Definition op_key (o : TxOp) : bytes := match o with Put k _ | Delete k => k end.

Definition apply_op (m : gmap bytes bytes) (o : TxOp) : gmap bytes bytes :=
  match o with Put k v => <[k := v]> m | Delete k => base.delete k m end.

Lemma buffered_apply ops m key :
  foldr (fun o m => apply_op m o) m ops !! key = match buffered ops key with Some r => r | None => m !! key end.
Proof.
  induction ops as [|[k v|k] ops IH]; cbn [foldr buffered apply_op]; [done|..].
  - rewrite lookup_insert. case_decide; case_bool_decide; done.
  - rewrite lookup_delete. case_decide; case_bool_decide; done.
Qed.

Lemma foldr_rev_ops m ops : foldr (fun o m => apply_op m o) m (rev ops) = foldl apply_op m ops.
Proof.
  revert m. induction ops as [|o ops IH]; intros m; [done|]. cbn [rev foldl]. by rewrite foldr_app, <- IH.
Qed.

(** a session reads its snapshot with its own buffered writes applied in
    order, so it sees its own puts and deletes and nothing committed since it
    began; reading changes nothing but the read set, which grows by the key exactly
    when a serializable session has to look at the snapshot. *)
Theorem session_reads_own_writes s key : hamt_wf (snapshot s) ->
  (get s key).1 = Ok (foldl apply_op (view (snapshot s)) (write_buffer s) !! key) /\
  write_buffer (get s key).2 = write_buffer s /\ snapshot (get s key).2 = snapshot s /\
  read_set (get s key).2 = read_set s ++
    (if decide (isolation s = Serializable /\ Forall (fun o => op_key o <> key) (write_buffer s))
     then [key] else []).
Proof.
  intros Hwf. rewrite <- (foldr_rev_ops (view (snapshot s)) (write_buffer s)), buffered_apply. unfold get.
  assert (buffered (rev (write_buffer s)) key = None <->
    Forall (fun o => op_key o <> key) (write_buffer s)) as Hb.
  { transitivity (Forall (fun o => op_key o <> key) (rev (write_buffer s))).
    - generalize (rev (write_buffer s)) as ops. induction ops as [|[k v|k] ops IH]; cbn [buffered]; [by split|..];
        rewrite Forall_cons; case_bool_decide; naive_solver.
    - rewrite rev_alt. apply (Forall_reverse _ (write_buffer s)). }
  destruct (buffered (rev (write_buffer s)) key) as [r|].
  - cbn [fst snd]. split_and!; try done. rewrite decide_False, app_nil_r; [done|]. intros [_ H]. by apply Hb in H.
  - cbn [fst snd]. rewrite hamt_get_spec by done. destruct (decide (isolation s = Serializable)) as [Hi|Hi]; split_and!; try done.
    + cbn. rewrite decide_True; [done|]. split; [done|]. by apply Hb.
    + rewrite decide_False, app_nil_r; [done|]. by intros [? _].
Qed.

(** ** Identifiers *)
Inductive mop :=
  | MBegin (isolation : TxIsolation) (snapshot : Hamt)
  | MRemove (tx_id : Z).

Definition run_mop (m : TxManager) (o : mop) : TxManager :=
  match o with MBegin i h => (begin m i h).2 | MRemove id => (remove m id).2 end.

Definition manager_inv (m : TxManager) : Prop :=
  1 <= next_id m /\ next_ts m = next_id m /\
  forall id s, sessions m !! id = Some s -> tx_id s = id /\ begin_ts s = id /\ 1 <= id < next_id m.

Lemma run_mop_inv m o : manager_inv m -> next_id m < u64_max -> manager_inv (run_mop m o) /\
  next_id m <= next_id (run_mop m o) <= next_id m + 1.
Proof.
  intros (H1 & H2 & H3) Hmax. destruct o as [i h|id]; unfold manager_inv; cbn [run_mop begin remove snd next_id next_ts sessions].
  - rewrite H2, !wrap_small by (unfold u64_max in *; lia). split; [|lia]. split_and!; [lia|done|].
    intros id s. rewrite lookup_insert. case_decide as E; [|intros Hs; specialize (H3 _ _ Hs); lia].
    intros [= <-]. subst. cbn. lia.
  - split; [|lia]. split_and!; [done..|]. intros id' s [Hne Hs]%lookup_delete_Some. by apply H3.
Qed.

Lemma run_mops_inv os : forall m, manager_inv m -> next_id m + Z.of_nat (length os) <= u64_max ->
  manager_inv (foldl run_mop m os) /\ next_id (foldl run_mop m os) <= next_id m + Z.of_nat (length os).
Proof.
  induction os as [|o os IH]; intros m Hm Hlen; cbn [foldl length] in *; [split; [done|lia]|].
  destruct (run_mop_inv m o Hm ltac:(lia)) as [Hm' Hn]. destruct (IH _ Hm' ltac:(lia)) as [? ?]. split; [done|lia].
Qed.

(** transaction identifiers are never reused while one is active: after any
    sequence of begins and removals, [begin] hands out an identifier no active
    session has, and registers exactly the new session under it. *)
Theorem begin_fresh os iso h : Z.of_nat (length os) < u64_max - 1 ->
  let m := foldl run_mop new os in
  let '(id, m') := begin m iso h in
  sessions m !! id = None /\ sessions m' !! id = Some (new_session id iso h id) /\
  active_count m' = S (active_count m) /\ forall id', id' <> id -> sessions m' !! id' = sessions m !! id'.
Proof.
  intros Hlen m. assert (manager_inv new) as H0 by (split_and!; done).
  destruct (run_mops_inv os new H0 ltac:(cbn; lia)) as [(H1 & H2 & H3) _]. fold m in H1, H2, H3.
  unfold begin. cbn [sessions]. assert (sessions m !! next_id m = None) as Hn.
  { destruct (sessions m !! next_id m) as [s|] eqn:E; [|done]. specialize (H3 _ _ E). lia. }
  rewrite H2. split_and!; [done|by rewrite lookup_insert_eq|unfold active_count; cbn; by rewrite map_size_insert_None|].
  intros id' Hne. by rewrite lookup_insert_ne.
Qed.

(** ** Witnesses *)
Lemma session_reads_own_writes_witness :
  (get (delete (put (new_session 1 Snapshot Hamt.new 1) (str "a") (str "1")) (str "a")) (str "a")).1 = Ok None.
Proof.
  destruct (session_reads_own_writes (delete (put (new_session 1 Snapshot Hamt.new 1) (str "a") (str "1")) (str "a"))
    (str "a") Hamt.hamt_new_wf) as [H _]. rewrite H. by vm_compute.
Defined.

Lemma begin_fresh_witness :
  sessions (foldl run_mop new [MBegin Snapshot Hamt.new; MRemove 1]) !! 2 = None.
Proof. by apply (begin_fresh [MBegin Snapshot Hamt.new; MRemove 1] Snapshot Hamt.new). Defined.
