(* ===== verification/Graph.v ===== *)
(** * Relation graph ([src/index/graph.rs])

    Nodes named by keys, typed edges in forward and backward adjacency lists, the
    compressed sparse row arrays built from them, traversals over those arrays, and
    the file format. Indexing past the end of an array is a panic. *)

From S2P Require Import Prelude Text.
Local Open Scope Z_scope.

Inductive Relation := Imports | Calls | Inherits | Tests | Defines.

#[export] Instance relation_eq_dec : EqDecision Relation.
Proof. solve_decision. Defined.

Definition from_str (s : bytes) : option Relation :=
  if bool_decide (s = str "imports") then Some Imports
  else if bool_decide (s = str "calls") then Some Calls
  else if bool_decide (s = str "inherits") then Some Inherits
  else if bool_decide (s = str "tests") then Some Tests
  else if bool_decide (s = str "defines") then Some Defines
  else None.

Definition as_str (r : Relation) : bytes :=
  match r with
  | Imports => str "imports"
  | Calls => str "calls"
  | Inherits => str "inherits"
  | Tests => str "tests"
  | Defines => str "defines"
  end.

Record Edge := mkEdge { edge_dst : nat; relation : Relation }.

Record RelationGraph := mkGraph {
  key_to_idx : gmap bytes nat;
  idx_to_key : list bytes;
  fwd_adj : list (list Edge);
  bwd_adj : list (list Edge);
  fwd_ptr : list nat; fwd_dst : list nat; fwd_rel : list Relation;
  bwd_ptr : list nat; bwd_dst : list nat; bwd_rel : list Relation;
  built : bool;
  edges : nat
}.

Definition new : RelationGraph := mkGraph ∅ [] [] [] [] [] [] [] [] [] false 0.

Definition add_node (g : RelationGraph) (key : bytes) : RelationGraph * nat :=
  match key_to_idx g !! key with
  | Some idx => (g, idx)
  | None =>
      let idx := length (idx_to_key g) in
      ({| key_to_idx := <[key := idx]> (key_to_idx g); idx_to_key := idx_to_key g ++ [key];
          fwd_adj := fwd_adj g ++ [[]]; bwd_adj := bwd_adj g ++ [[]];
          fwd_ptr := fwd_ptr g; fwd_dst := fwd_dst g; fwd_rel := fwd_rel g;
          bwd_ptr := bwd_ptr g; bwd_dst := bwd_dst g; bwd_rel := bwd_rel g;
          built := false; edges := edges g |}, idx)
  end.

(** [adj[i].push(e)]. *)
Definition push_edge (adj : list (list Edge)) (i : nat) (e : Edge) : res bytes (list (list Edge)) :=
  es ← index (adj !! i); Ok (<[i := es ++ [e]]> adj).

Definition add_edge (g : RelationGraph) (src dst : bytes) (r : Relation) : res bytes RelationGraph :=
  let '(g1, s) := add_node g src in
  let '(g2, d) := add_node g1 dst in
  fwd ← push_edge (fwd_adj g2) s (mkEdge d r);
  bwd ← push_edge (bwd_adj g2) d (mkEdge s r);
  Ok {| key_to_idx := key_to_idx g2; idx_to_key := idx_to_key g2; fwd_adj := fwd; bwd_adj := bwd;
        fwd_ptr := fwd_ptr g2; fwd_dst := fwd_dst g2; fwd_rel := fwd_rel g2;
        bwd_ptr := bwd_ptr g2; bwd_dst := bwd_dst g2; bwd_rel := bwd_rel g2;
        built := false; edges := S (edges g2) |}.

(** ** Compressed sparse rows *)
Record Csr := mkCsr { ptr : list nat; dst : list nat; rel : list Relation; offset : nat }.

Definition csr_row (adj : list (list Edge)) (acc : res bytes Csr) (i : nat) : res bytes Csr :=
  c ← acc;
  es ← index (adj !! i);
  Ok {| ptr := ptr c ++ [offset c]; dst := dst c ++ (edge_dst <$> es); rel := rel c ++ (relation <$> es);
        offset := (offset c + length es)%nat |}.

Definition build_csr (adj : list (list Edge)) (n : nat) : res bytes Csr :=
  c ← foldl (csr_row adj) (Ok (mkCsr [] [] [] 0)) (seq 0 n);
  Ok {| ptr := ptr c ++ [offset c]; dst := dst c; rel := rel c; offset := offset c |}.

Definition build (g : RelationGraph) : res bytes RelationGraph :=
  let n := length (idx_to_key g) in
  f ← build_csr (fwd_adj g) n;
  b ← build_csr (bwd_adj g) n;
  Ok {| key_to_idx := key_to_idx g; idx_to_key := idx_to_key g; fwd_adj := fwd_adj g; bwd_adj := bwd_adj g;
        fwd_ptr := ptr f; fwd_dst := dst f; fwd_rel := rel f;
        bwd_ptr := ptr b; bwd_dst := dst b; bwd_rel := rel b; built := true; edges := edges g |}.

Definition ensure_built (g : RelationGraph) : res bytes RelationGraph :=
  if built g then Ok g else build g.

(** The arrays of a direction: anything but ["backward"] is forward. *)
Definition arrays (g : RelationGraph) (direction : bytes) : list nat * list nat * list Relation :=
  if bool_decide (direction = str "backward") then (bwd_ptr g, bwd_dst g, bwd_rel g)
  else (fwd_ptr g, fwd_dst g, fwd_rel g).

Definition passes (f : option Relation) (r : Relation) : bool :=
  match f with Some r' => bool_decide (r = r') | None => true end.

(** [ptr[i]..ptr[i + 1]]: the positions of the edges of a node. *)
Definition row (p : list nat) (i : nat) : res bytes (list nat) :=
  start ← index (p !! i); end_ ← index (p !! S i); Ok (seq start (end_ - start)).

Fixpoint neighbour_loop (g : RelationGraph) (d : list nat) (r : list Relation) (f : option Relation)
    (is_ : list nat) : res bytes (list (bytes * Relation)) :=
  match is_ with
  | [] => Ok []
  | i :: is' =>
      ri ← index (r !! i);
      if passes f ri then
        di ← index (d !! i);
        key ← index (idx_to_key g !! di);
        rest ← neighbour_loop g d r f is';
        Ok ((key, ri) :: rest)
      else neighbour_loop g d r f is'
  end.

Definition neighbours (g0 : RelationGraph) (key direction : bytes) (f : option Relation)
    : res bytes (list (bytes * Relation) * RelationGraph) :=
  g ← ensure_built g0;
  match key_to_idx g !! key with
  | None => Ok ([], g)
  | Some idx =>
      let '(p, d, r) := arrays g direction in
      is_ ← row p idx;
      results ← neighbour_loop g d r f is_;
      Ok (results, g)
  end.

(** ** Traversals *)
Record TraversalResult := mkResult { key : bytes; depth : nat; via : option Relation }.

(** The inner loop of [bfs]: visited nodes with their depths, the queue, the
    results. *)
Definition BfsState : Type := gmap nat nat * list (nat * nat) * list TraversalResult.

Definition bfs_edge (g : RelationGraph) (d : list nat) (r : list Relation) (f : option Relation) (dep : nat)
    (acc : res bytes BfsState) (i : nat) : res bytes BfsState :=
  '(visited, queue, results) ← acc;
  ri ← index (r !! i);
  if passes f ri then
    nb ← index (d !! i);
    match visited !! nb with
    | Some _ => Ok (visited, queue, results)
    | None =>
        k ← index (idx_to_key g !! nb);
        Ok (<[nb := S dep]> visited, queue ++ [(nb, S dep)], results ++ [mkResult k (S dep) (Some ri)])
    end
  else Ok (visited, queue, results).

Fixpoint bfs_loop (fuel : nat) (g : RelationGraph) (a : list nat * list nat * list Relation)
    (max_depth : nat) (f : option Relation) (s : BfsState) : res bytes (list TraversalResult) :=
  let '(visited, queue, results) := s in
  match queue with
  | [] => Ok results
  | (node, dep) :: queue' =>
      match fuel with
      | O => Err (str "out of fuel")
      | S fuel' =>
          if (max_depth <=? dep)%nat then bfs_loop fuel' g a max_depth f (visited, queue', results)
          else
            is_ ← row a.1.1 node;
            s' ← foldl (bfs_edge g a.1.2 a.2 f dep) (Ok (visited, queue', results)) is_;
            bfs_loop fuel' g a max_depth f s'
      end
  end.

(** Every node is queued at most once, so that one step per node is enough fuel. *)
Definition bfs (g0 : RelationGraph) (start direction : bytes) (max_depth : nat) (f : option Relation)
    : res bytes (list TraversalResult * RelationGraph) :=
  g ← ensure_built g0;
  match key_to_idx g !! start with
  | None => Ok ([], g)
  | Some s =>
      k ← index (idx_to_key g !! s);
      results ← bfs_loop (length (idx_to_key g)) g (arrays g direction) max_depth f
        ({[s := 0%nat]}, [(s, 0%nat)], [mkResult k 0 None]);
      Ok (results, g)
  end.

(** The inner loop of [dfs] pushes onto the stack, whose top is the head here. *)
Definition dfs_edge (d : list nat) (r : list Relation) (f : option Relation) (dep : nat) (visited : gset nat)
    (acc : res bytes (list (nat * nat))) (i : nat) : res bytes (list (nat * nat)) :=
  stack ← acc;
  ri ← index (r !! i);
  if passes f ri then
    nb ← index (d !! i);
    if bool_decide (nb ∈ visited) then Ok stack else Ok ((nb, S dep) :: stack)
  else Ok stack.

Fixpoint dfs_loop (fuel : nat) (g : RelationGraph) (a : list nat * list nat * list Relation)
    (max_depth : nat) (f : option Relation) (visited : gset nat) (stack : list (nat * nat))
    (results : list TraversalResult) : res bytes (list TraversalResult) :=
  match stack with
  | [] => Ok results
  | (node, dep) :: stack' =>
      match fuel with
      | O => Err (str "out of fuel")
      | S fuel' =>
          if bool_decide (node ∈ visited) then dfs_loop fuel' g a max_depth f visited stack' results
          else
            let visited' := {[node]} ∪ visited in
            k ← index (idx_to_key g !! node);
            let results' := results ++ [mkResult k dep None] in
            if (max_depth <=? dep)%nat then dfs_loop fuel' g a max_depth f visited' stack' results'
            else
              is_ ← row a.1.1 node;
              s' ← foldl (dfs_edge a.1.2 a.2 f dep visited') (Ok stack') is_;
              dfs_loop fuel' g a max_depth f visited' s' results'
      end
  end.

(** Each edge is pushed at most once, after the start. *)
Definition dfs (g0 : RelationGraph) (start direction : bytes) (max_depth : nat) (f : option Relation)
    : res bytes (list TraversalResult * RelationGraph) :=
  g ← ensure_built g0;
  match key_to_idx g !! start with
  | None => Ok ([], g)
  | Some s =>
      results ← dfs_loop (S (length (arrays g direction).1.2)) g (arrays g direction) max_depth f ∅ [(s, 0%nat)] [];
      Ok (results, g)
  end.

(** ** File format *)
Definition relation_tag (r : Relation) : byte :=
  match r with Imports => x01 | Calls => x02 | Inherits => x03 | Tests => x04 | Defines => x05 end.

Definition encode_node (k : bytes) : bytes := be_bytes 4 (Z.of_nat (length k)) ++ k.

Definition encode_edge (s : nat) (e : Edge) : bytes :=
  be_bytes 4 (Z.of_nat s) ++ be_bytes 4 (Z.of_nat (edge_dst e)) ++ [relation_tag (relation e)].

Definition serialize (g : RelationGraph) : bytes :=
  str "GRPH" ++ be_bytes 4 (Z.of_nat (length (idx_to_key g))) ++
  mjoin (encode_node <$> idx_to_key g) ++
  be_bytes 4 (Z.of_nat (edges g)) ++
  mjoin (imap (fun s es => mjoin (encode_edge s <$> es)) (fwd_adj g)).

Fixpoint read_nodes (n : nat) (data : bytes) : res bytes (list bytes * bytes) :=
  match n with
  | O => Ok ([], data)
  | S n' =>
      '(key_len, d1) ← read_u32 data;
      if (length d1 <? Z.to_nat key_len)%nat then Err (str "unexpected EOF reading node key")
      else
        let k := take (Z.to_nat key_len) d1 in
        if utf8_valid k then
          '(ks, d2) ← read_nodes n' (drop (Z.to_nat key_len) d1);
          Ok (k :: ks, d2)
        else Err (str "invalid UTF-8 in node key")
  end.

Definition tag_relation (b : byte) : option Relation :=
  match b with
  | x01 => Some Imports | x02 => Some Calls | x03 => Some Inherits | x04 => Some Tests | x05 => Some Defines
  | _ => None
  end.

(** [{b:#x}] *)
Definition hex_digit (d : Z) : byte := z2b (if d <? 10 then 48 + d else 87 + d).
Definition lower_hex (b : byte) : bytes :=
  str "0x" ++ (if b2z b <? 16 then [hex_digit (b2z b)] else [hex_digit (b2z b / 16); hex_digit (b2z b mod 16)]).

Fixpoint read_edges (n : nat) (data : bytes) : res bytes (list (nat * nat * Relation) * bytes) :=
  match n with
  | O => Ok ([], data)
  | S n' =>
      '(s, d1) ← read_u32 data;
      '(t, d2) ← read_u32 d1;
      match d2 with
      | [] => Err (str "unexpected EOF reading relation tag")
      | b :: d3 =>
          match tag_relation b with
          | None => Err (str "unknown relation tag: " ++ lower_hex b)
          | Some r =>
              '(es, d4) ← read_edges n' d3;
              Ok ((Z.to_nat s, Z.to_nat t, r) :: es, d4)
          end
      end
  end.

(** Nodes and edges are added again; edges to unknown nodes are dropped. *)
Definition add_edge_at (keys : list bytes) (acc : res bytes RelationGraph) (e : nat * nat * Relation) : res bytes RelationGraph :=
  g ← acc;
  match keys !! e.1.1, keys !! e.1.2 with
  | Some s, Some t => add_edge g s t e.2
  | _, _ => Ok g
  end.

Definition deserialize (data : bytes) : res bytes RelationGraph :=
  if (length data <? 4)%nat || negb (bool_decide (take 4 data = str "GRPH")) then Err (str "bad GRPH magic")
  else
    '(n_nodes, d1) ← read_u32 (drop 4 data);
    '(keys, d2) ← read_nodes (Z.to_nat n_nodes) d1;
    '(n_edges, d3) ← read_u32 d2;
    '(es, _) ← read_edges (Z.to_nat n_edges) d3;
    let g := foldl (fun g k => (add_node g k).1) new keys in
    foldl (add_edge_at keys) (Ok g) es.

Definition node_count (g : RelationGraph) : nat := length (idx_to_key g).
Definition edge_count (g : RelationGraph) : nat := edges g.
Definition is_built (g : RelationGraph) : bool := built g.
Definition has_node (g : RelationGraph) (k : bytes) : bool := bool_decide (is_Some (key_to_idx g !! k)).

(** ** Well-formed graphs *)

(** The total length of the first [i] adjacency lists. *)
Definition row_offset (adj : list (list Edge)) (i : nat) : nat := length (mjoin (take i adj)).

Definition csr_of (adj : list (list Edge)) (p d : list nat) (r : list Relation) : Prop :=
  p = row_offset adj <$> seq 0 (S (length adj)) /\ d = edge_dst <$> mjoin adj /\ r = relation <$> mjoin adj.

Record graph_wf (g : RelationGraph) : Prop := {
  wf_keys : forall k i, key_to_idx g !! k = Some i <-> idx_to_key g !! i = Some k;
  wf_fwd_len : length (fwd_adj g) = length (idx_to_key g);
  wf_bwd_len : length (bwd_adj g) = length (idx_to_key g);
  wf_fwd_dst : forall e, e ∈ mjoin (fwd_adj g) -> (edge_dst e < length (idx_to_key g))%nat;
  wf_bwd_dst : forall e, e ∈ mjoin (bwd_adj g) -> (edge_dst e < length (idx_to_key g))%nat;
  wf_transpose : forall u v r, mkEdge v r ∈ default [] (fwd_adj g !! u) <-> mkEdge u r ∈ default [] (bwd_adj g !! v);
  wf_count : edges g = length (mjoin (fwd_adj g));
  wf_built : built g = true -> csr_of (fwd_adj g) (fwd_ptr g) (fwd_dst g) (fwd_rel g) /\
                                csr_of (bwd_adj g) (bwd_ptr g) (bwd_dst g) (bwd_rel g)
}.

Lemma row_offset_S adj i es : adj !! i = Some es -> row_offset adj (S i) = (row_offset adj i + length es)%nat.
Proof.
  intros E. unfold row_offset. rewrite (take_S_r _ _ es E), join_app, length_app. cbn. by rewrite app_nil_r.
Qed.

Lemma csr_rows adj m : (m <= length adj)%nat ->
  foldl (csr_row adj) (Ok (mkCsr [] [] [] 0)) (seq 0 m) =
  Ok (mkCsr (row_offset adj <$> seq 0 m) (edge_dst <$> mjoin (take m adj)) (relation <$> mjoin (take m adj)) (row_offset adj m)).
Proof.
  induction m as [|m IH]; intros Hm; [done|]. rewrite seq_S, foldl_app, IH by lia. cbn [foldl].
  destruct (lookup_lt_is_Some_2 adj m ltac:(lia)) as [es Hes]. unfold csr_row. cbn [mbind res_bind Nat.add]. rewrite Hes.
  cbn [index mbind res_bind ptr dst rel offset].
  rewrite (row_offset_S _ _ es Hes), (take_S_r _ _ es Hes), join_app, !fmap_app. cbn. by rewrite app_nil_r.
Qed.

Lemma build_csr_ok adj : exists c, build_csr adj (length adj) = Ok c /\ csr_of adj (ptr c) (dst c) (rel c).
Proof.
  unfold build_csr. rewrite csr_rows by lia. cbn [mbind res_bind]. eexists. split; [done|].
  cbn [ptr dst rel offset]. rewrite take_ge by lia. split_and!; [|done..].
  rewrite seq_S, fmap_app. done.
Qed.

(** Reading a row of the arrays is reading the adjacency list. *)
Lemma csr_row_ok adj p d r i es : csr_of adj p d r -> adj !! i = Some es -> exists o,
  row p i = Ok (seq o (length es)) /\
  forall j e, es !! j = Some e -> d !! (o + j)%nat = Some (edge_dst e) /\ r !! (o + j)%nat = Some (relation e).
Proof.
  intros (-> & -> & ->) Hes. exists (row_offset adj i). pose proof (lookup_lt_Some _ _ _ Hes) as Hi. split.
  - unfold row. rewrite !list_lookup_fmap, !lookup_seq_lt by lia. cbn [fmap option_fmap option_map index mbind res_bind Nat.add].
    rewrite (row_offset_S _ _ es Hes). f_equal. f_equal. lia.
  - intros j e Hj. rewrite !list_lookup_fmap.
    assert (mjoin adj !! (row_offset adj i + j)%nat = Some e) as ->; [|done].
    assert (mjoin adj = mjoin (take i adj) ++ es ++ mjoin (drop (S i) adj)) as ->.
    { rewrite <- (take_drop_middle adj i es Hes) at 1. by rewrite join_app. }
    unfold row_offset. rewrite lookup_app_r by lia. rewrite Nat.add_comm, Nat.add_sub.
    rewrite lookup_app_l by (by eapply lookup_lt_Some). done.
Qed.

Lemma foldl_row {T} (F : T -> nat -> T) (G : T -> Edge -> T) es : forall o acc,
  (forall j e a, es !! j = Some e -> F a (o + j)%nat = G a e) -> foldl F acc (seq o (length es)) = foldl G acc es.
Proof.
  induction es as [|e es IH]; intros o acc H; [done|]. cbn [length seq foldl].
  rewrite <- (H 0%nat e acc eq_refl), Nat.add_0_r. apply IH. intros j e' a Hj. rewrite <- (H (S j) e' a Hj). f_equal. lia.
Qed.

(** ** Breadth-first search *)
Section search.
Context (g : RelationGraph) (adj : list (list Edge)) (p d : list nat) (r : list Relation) (f : option Relation).
Context (Hcsr : csr_of adj p d r) (Hlen : length adj = length (idx_to_key g)).
Context (Hdst : forall e, e ∈ mjoin adj -> (edge_dst e < length (idx_to_key g))%nat).

(** The edges a traversal follows from a node. *)
Definition out_edges (u : nat) : list Edge := filter (fun e => passes f (relation e) = true) (default [] (adj !! u)).

Inductive walk (u : nat) : nat -> nat -> Prop :=
  | walk_here : walk u 0 u
  | walk_step k v e : walk u k v -> e ∈ out_edges v -> walk u (S k) (edge_dst e).

(** The length of a shortest walk. *)
Definition distance (u k v : nat) : Prop := walk u k v /\ forall k', (k' < k)%nat -> ~ walk u k' v.

Lemma out_edges_dst u e : e ∈ out_edges u -> (edge_dst e < length (idx_to_key g))%nat.
Proof.
  unfold out_edges. rewrite list_elem_of_filter. intros [_ He]. apply Hdst.
  destruct (adj !! u) as [es|] eqn:E; [|by apply not_elem_of_nil in He]. cbn in He. apply list_elem_of_join.
  exists es. split; [done|]. by eapply list_elem_of_lookup_2.
Qed.

Lemma walk_bound s k v : (s < length (idx_to_key g))%nat -> walk s k v -> (v < length (idx_to_key g))%nat.
Proof. intros Hs H. destruct H as [|k v e _ He]; [done|]. by eapply out_edges_dst. Qed.

(** One edge of the inner loop, on the adjacency list. *)
Definition bfs_visit (dep : nat) (acc : res bytes BfsState) (e : Edge) : res bytes BfsState :=
  '(visited, queue, results) ← acc;
  match visited !! edge_dst e with
  | Some _ => Ok (visited, queue, results)
  | None =>
      k ← index (idx_to_key g !! edge_dst e);
      Ok (<[edge_dst e := S dep]> visited, queue ++ [(edge_dst e, S dep)], results ++ [mkResult k (S dep) (Some (relation e))])
  end.

Lemma foldl_filter {A B} (P : B -> Prop) `{!forall x, Decision (P x)} (F : A -> B -> A) l : forall a,
  foldl (fun a x => if decide (P x) then F a x else a) a l = foldl F a (filter P l).
Proof.
  induction l as [|x l IH]; intros a; [done|]. cbn [foldl]. rewrite filter_cons. rewrite IH. by destruct (decide (P x)).
Qed.

Lemma bfs_row dep u acc es : adj !! u = Some es ->
  (is_ ← row p u; foldl (bfs_edge g d r f dep) acc is_) = foldl (bfs_visit dep) acc (out_edges u).
Proof.
  intros Hes. destruct (csr_row_ok adj p d r u es Hcsr Hes) as (o & -> & Hat). cbn [mbind res_bind].
  unfold out_edges. rewrite Hes. cbn [default from_option id].
  rewrite <- (foldl_filter (fun e => passes f (relation e) = true)).
  apply foldl_row. intros j e a Hj. destruct (Hat j e Hj) as [Hd Hr]. unfold bfs_edge, bfs_visit.
  destruct a as [[[v q] rs]|x|]; cbn [mbind res_bind]; [|by case_decide..]. rewrite Hr, Hd. cbn [index mbind res_bind].
  destruct (passes f (relation e)); case_decide; done.
Qed.

Context (s : nat) (max : nat) (Hs : (s < length (idx_to_key g))%nat).

(** What a result says of a visited node. *)
Definition result_of (nd : nat * nat) (t : TraversalResult) : Prop :=
  idx_to_key g !! nd.1 = Some (key t) /\ depth t = nd.2 /\
  match via t with
  | None => nd = (s, 0%nat)
  | Some rl => exists k v e, nd.2 = S k /\ walk s k v /\ e ∈ out_edges v /\ edge_dst e = nd.1 /\ relation e = rl
  end.

(** [all] is every node queued so far, in order, the first [done] of them
    processed. *)
Record bfs_inv (all : list (nat * nat)) (visited : gmap nat nat) (results : list TraversalResult) (dep : nat) : Prop := {
  bi_nodup : NoDup all.*1;
  bi_visited : forall u k, visited !! u = Some k <-> (u, k) ∈ all;
  bi_results : Forall2 result_of all results;
  bi_walk : forall u k, (u, k) ∈ all -> walk s k u;
  bi_sorted : StronglySorted le all.*2;
  bi_bound : forall u k, (u, k) ∈ all -> (k <= S dep)%nat;
  bi_max : forall u k, (u, k) ∈ all -> (k <= max)%nat
}.

Lemma sorted_snoc (l : list nat) x : StronglySorted le l -> Forall (fun y => (y <= x)%nat) l -> StronglySorted le (l ++ [x]).
Proof.
  induction 1 as [|y l Hl IH Hy]; intros Hx; cbn [app]; [by repeat constructor|].
  apply Forall_cons in Hx as [Hyx Hx]. constructor; [by apply IH|]. apply Forall_app. split; [done|]. by repeat constructor.
Qed.

(** Visiting the edges of a node at depth [dep] below the limit. *)
Lemma bfs_visit_ok u dep es : forall all done_ queue visited results,
  (forall e, e ∈ es -> e ∈ out_edges u) -> walk s dep u -> (dep < max)%nat ->
  all = done_ ++ queue -> bfs_inv all visited results dep ->
  exists new_ visited' results', foldl (bfs_visit dep) (Ok (visited, queue, results)) es =
      Ok (visited', queue ++ new_, results') /\ bfs_inv (all ++ new_) visited' results' dep /\
    Forall (fun nk => nk.2 = S dep) new_ /\
    forall e, e ∈ es -> exists k, (edge_dst e, k) ∈ all ++ new_ /\ (k <= S dep)%nat.
Proof.
  induction es as [|e es IH]; intros all dn queue visited results Hes Hw Hlt Hall Hinv.
  - exists [], visited, results. rewrite !app_nil_r. split_and!; [done..|]. by intros e ?%not_elem_of_nil.
  - cbn [foldl]. unfold bfs_visit at 2. cbn [mbind res_bind].
    assert (e ∈ out_edges u) as He by (apply Hes; left).
    assert (forall e', e' ∈ es -> e' ∈ out_edges u) as Hes' by (intros; apply Hes; by right).
    destruct (visited !! edge_dst e) as [k|] eqn:Ev.
    + destruct (IH all dn queue visited results Hes' Hw Hlt Hall Hinv) as (nw & v' & rs' & E & Hinv' & Hnw & Hall').
      exists nw, v', rs'. split_and!; [done..|]. intros e' [->|He']%elem_of_cons; [|by apply Hall'].
      apply (bi_visited _ _ _ _ Hinv) in Ev. exists k. split; [apply elem_of_app; by left|].
      exact (bi_bound _ _ _ _ Hinv _ _ Ev).
    + destruct (lookup_lt_is_Some_2 (idx_to_key g) (edge_dst e)) as [ky Hky]; [by eapply out_edges_dst|].
      rewrite Hky. cbn [index mbind res_bind].
      set (nd := (edge_dst e, S dep)).
      assert (bfs_inv (all ++ [nd]) (<[edge_dst e := S dep]> visited) (results ++ [mkResult ky (S dep) (Some (relation e))]) dep) as Hinv1.
      { destruct Hinv as [Hnd Hvis Hres Hwalk Hsort Hb Hm]. split.
        - rewrite fmap_app. apply NoDup_app. split_and!; [done| |apply NoDup_singleton].
          intros v ([v' k] & -> & Hin)%list_elem_of_fmap. cbn. intros ->%list_elem_of_singleton.
          apply Hvis in Hin. congruence.
        - intros v k. rewrite lookup_insert, elem_of_app, list_elem_of_singleton, <- Hvis. unfold nd. case_decide as Hd.
          + subst. split; [intros [= <-]; by right|]. intros [Hk|[= ->]]; [congruence|done].
          + split; [by left|]. intros [Hk|[= -> _]]; done.
        - apply Forall2_app; [done|]. repeat constructor; cbn; [done|]. exists dep, u, e. done.
        - intros v k [Hin|Hin]%elem_of_app; [by apply Hwalk|]. apply list_elem_of_singleton in Hin as [= -> ->]. by eapply walk_step.
        - rewrite fmap_app. cbn. apply sorted_snoc; [done|]. apply Forall_fmap, Forall_forall. intros [v k] Hin. cbn. by eapply Hb.
        - intros v k [Hin|Hin]%elem_of_app; [by eapply Hb|]. by apply list_elem_of_singleton in Hin as [= -> ->].
        - intros v k [Hin|Hin]%elem_of_app; [by eapply Hm|]. apply list_elem_of_singleton in Hin as [= -> ->]. lia. }
      destruct (IH (all ++ [nd]) dn (queue ++ [nd]) _ _ Hes' Hw Hlt ltac:(by rewrite Hall, app_assoc) Hinv1)
        as (nw & v' & rs' & E & Hinv' & Hnw & Hall').
      exists (nd :: nw), v', rs'. rewrite <- !app_assoc in E, Hinv'. cbn [app] in E, Hinv'. split_and!; [done|done|by constructor|].
      intros e' [->|He']%elem_of_cons.
      * exists (S dep). split; [|done]. apply elem_of_app. right. left.
      * destruct (Hall' e' He') as (k & Hin & Hk). exists k. split; [|done]. by rewrite <- app_assoc in Hin.
Qed.

(** The nodes processed so far: their out edges lead to nodes already queued. *)
Definition closed (dn all : list (nat * nat)) : Prop :=
  forall u k e, (u, k) ∈ dn -> (k < max)%nat -> e ∈ out_edges u ->
  exists k', (edge_dst e, k') ∈ all /\ (k' <= S k)%nat.

Lemma bfs_inv_bound all visited results dep dep' : bfs_inv all visited results dep -> (dep <= dep')%nat ->
  bfs_inv all visited results dep'.
Proof. intros [] Hd. split; try done. intros u k Hin. specialize (bi_bound0 u k Hin). lia. Qed.

Lemma sorted_app_head (l1 l2 : list nat) x : StronglySorted le (l1 ++ x :: l2) -> Forall (fun y => (x <= y)%nat) l2.
Proof.
  induction l1 as [|y l1 IH]; cbn [app]; intros H; apply StronglySorted_inv in H as [H Hf]; [done|by apply IH].
Qed.

Lemma nodup_bound (l : list nat) n : NoDup l -> (forall x, x ∈ l -> (x < n)%nat) -> (length l <= n)%nat.
Proof.
  intros Hnd Hb. rewrite <- (length_seq n 0). apply submseteq_length, NoDup_submseteq; [done|].
  intros x Hx. apply elem_of_seq. specialize (Hb x Hx). lia.
Qed.

(** The head of the queue is no nearer than the node before it. *)
Lemma bfs_head dn u k queue visited results nw : bfs_inv (dn ++ (u, k) :: queue) visited results k ->
  Forall (fun nk => nk.2 = S k) nw -> (match queue ++ nw with nd :: _ => nd.2 | [] => max end >= k)%nat.
Proof.
  intros Hinv Hnw. pose proof (bi_sorted _ _ _ _ Hinv) as Hso. rewrite fmap_app, fmap_cons in Hso. cbn in Hso.
  apply sorted_app_head in Hso. destruct queue as [|[u2 k2] queue]; cbn [app].
  - destruct nw as [|[u2 k2] nw]; [eapply (bi_max _ _ _ _ Hinv u); apply elem_of_app; right; left|].
    apply Forall_cons in Hnw as [Hnw _]. cbn in *. lia.
  - cbn in Hso. apply Forall_cons in Hso as [Hso _]. cbn. lia.
Qed.

Lemma bfs_loop_ok fuel : forall dn queue visited results,
  bfs_inv (dn ++ queue) visited results (match queue with nd :: _ => nd.2 | [] => max end) ->
  closed dn (dn ++ queue) -> (length (idx_to_key g) <= fuel + length dn)%nat ->
  exists all visited' results', bfs_loop fuel g (p, d, r) max f (visited, queue, results) = Ok results' /\
    bfs_inv all visited' results' max /\ closed all all /\ (dn ++ queue) `prefix_of` all.
Proof.
  induction fuel as [|fuel IH]; intros dn queue visited results Hinv Hcl Hfuel.
  - destruct queue as [|nd queue].
    + exists dn, visited, results. rewrite app_nil_r in *. done.
    + exfalso. assert (length (dn ++ nd :: queue).*1 <= length (idx_to_key g))%nat as Hle.
      { apply nodup_bound; [apply Hinv|]. intros u ([u' k] & -> & Hin)%list_elem_of_fmap. cbn.
        eapply walk_bound; [exact Hs|]. eapply bi_walk; [exact Hinv|exact Hin]. }
      rewrite length_fmap, length_app in Hle. cbn in Hle. lia.
  - destruct queue as [|[u k] queue]; cbn [bfs_loop].
    { exists dn, visited, results. rewrite app_nil_r in *. done. }
    assert ((u, k) ∈ dn ++ (u, k) :: queue) as Hin by (apply elem_of_app; right; left).
    assert (dn ++ (u, k) :: queue = (dn ++ [(u, k)]) ++ queue) as Heq by (by rewrite <- app_assoc).
    cbn [snd] in Hinv. pose proof (fun nw => bfs_head dn u k queue visited results nw Hinv) as Hhead.
    destruct (Nat.leb_spec max k) as [Hmax|Hmax].
    + rewrite Heq in *. destruct (IH (dn ++ [(u, k)]) queue visited results) as (all & v' & rs' & E & H1 & H2 & H3).
      * eapply bfs_inv_bound; [exact Hinv|]. specialize (Hhead [] ltac:(constructor)). by rewrite app_nil_r in Hhead.
      * intros v j e [Hv|Hv]%elem_of_app Hj He; [by eapply Hcl|]. apply list_elem_of_singleton in Hv as [= -> ->]. lia.
      * rewrite length_app. cbn. lia.
      * exists all, v', rs'. done.
    + assert (u < length (idx_to_key g))%nat as Hu by (eapply walk_bound; [exact Hs|]; eapply bi_walk; [exact Hinv|exact Hin]).
      destruct (lookup_lt_is_Some_2 adj u ltac:(lia)) as [es Hes]. cbn [fst snd].
      pose proof (bfs_row k u (Ok (visited, queue, results)) es Hes) as Hrow. 
      destruct (bfs_visit_ok u k (out_edges u) (dn ++ (u, k) :: queue) (dn ++ [(u, k)]) queue visited results)
        as (nw & v1 & rs1 & E1 & Hinv1 & Hnw & Hto); [done|by eapply bi_walk|done|done|done|].
      destruct (row p u) as [is_|x|] eqn:Erow; cbn [mbind res_bind] in *; rewrite E1 in Hrow; [|done..].
      rewrite Hrow. cbn [mbind res_bind].
      rewrite Heq, <- app_assoc in Hinv1. 
      destruct (IH (dn ++ [(u, k)]) (queue ++ nw) v1 rs1) as (all & v' & rs' & E & H1 & H2 & H3).
      * eapply bfs_inv_bound; [exact Hinv1|]. by apply Hhead.
      * intros v j e [Hv|Hv]%elem_of_app Hj He.
        -- destruct (Hcl v j e Hv Hj He) as (k' & Hk' & ?). exists k'. split; [|done].
           rewrite Heq in Hk'. rewrite app_assoc. apply elem_of_app. by left.
        -- apply list_elem_of_singleton in Hv as [= -> ->]. destruct (Hto e He) as (k' & Hk' & ?).
           exists k'. split; [|done]. by rewrite Heq, <- app_assoc in Hk'.
      * rewrite length_app. cbn. lia.
      * exists all, v', rs'. split_and!; [done..|]. rewrite Heq. etrans; [|exact H3]. rewrite app_assoc. by apply prefix_app_r.
Qed.

(** What the processed nodes say of walks. *)
Lemma closed_complete all visited results : bfs_inv all visited results max -> closed all all -> (s, 0%nat) ∈ all ->
  forall k v, walk s k v -> (k <= max)%nat -> exists k', (v, k') ∈ all /\ (k' <= k)%nat.
Proof.
  intros Hinv Hcl H0 k v Hw. induction Hw as [|k v e Hw IH He]; intros Hk; [by exists 0%nat|].
  destruct IH as (k' & Hin & Hle); [lia|].
  destruct (Hcl v k' e Hin ltac:(lia) He) as (k2 & Hin2 & Hle2). exists k2. split; [done|lia].
Qed.

Lemma bfs_search_ok k0 : idx_to_key g !! s = Some k0 -> exists all results,
  bfs_loop (length (idx_to_key g)) g (p, d, r) max f ({[s := 0%nat]}, [(s, 0%nat)], [mkResult k0 0 None]) = Ok results /\
  Forall2 result_of all results /\ NoDup all.*1 /\ StronglySorted le all.*2 /\
  forall v k, (v, k) ∈ all <-> (k <= max)%nat /\ distance s k v.
Proof.
  intros Hk0. destruct (bfs_loop_ok (length (idx_to_key g)) [] [(s, 0%nat)] {[s := 0%nat]} [mkResult k0 0 None])
    as (all & v' & rs & E & Hinv & Hcl & Hpre).
  - cbn [app]. split.
    + apply NoDup_singleton.
    + intros u k. rewrite lookup_singleton, list_elem_of_singleton. case_decide; [subst|]; naive_solver.
    + repeat constructor. cbn. done.
    + intros u k [= -> ->]%list_elem_of_singleton. constructor.
    + repeat constructor.
    + intros u k [= -> ->]%list_elem_of_singleton. lia.
    + intros u k [= -> ->]%list_elem_of_singleton. lia.
  - by intros ? ? ? ?%not_elem_of_nil.
  - cbn. lia.
  - exists all, rs. split; [done|]. destruct Hinv as [Hnd Hvis Hres Hwalk Hso Hb Hm].
    assert ((s, 0%nat) ∈ all) as H0.
    { destruct Hpre as [l ->]. apply elem_of_app. left. left. }
    assert (forall k v, walk s k v -> (k <= max)%nat -> exists k', (v, k') ∈ all /\ (k' <= k)%nat) as Hcomp.
    { eapply closed_complete; [by split|done..]. }
    split_and!; [done..|]. intros v k. split.
    + intros Hin. split; [by eapply Hm|]. split; [by apply Hwalk|]. intros k' Hlt Hw.
      destruct (Hcomp k' v Hw) as (k2 & Hin2 & Hle); [specialize (Hm v k Hin); lia|].
      apply Hvis in Hin, Hin2. rewrite Hin in Hin2. injection Hin2. lia.
    + intros [Hk [Hw Hmin]]. destruct (Hcomp k v Hw Hk) as (k2 & Hin2 & Hle).
      destruct (decide (k2 = k)) as [->|Hne]; [done|]. destruct (Hmin k2 ltac:(lia)). by apply Hwalk.
Qed.
(** *** Depth-first search *)

(** What visiting a node pushes, in the order it will be popped. *)
Definition dfs_pushes (dep : nat) (visited : gset nat) (es : list Edge) : list (nat * nat) :=
  reverse ((fun e => (edge_dst e, S dep)) <$> filter (fun e => edge_dst e ∉ visited) es).

Lemma dfs_row u dep visited stack es : adj !! u = Some es ->
  (is_ ← row p u; foldl (dfs_edge d r f dep visited) (Ok stack) is_) = Ok (dfs_pushes dep visited (out_edges u) ++ stack).
Proof.
  intros Hes. destruct (csr_row_ok adj p d r u es Hcsr Hes) as (o & -> & Hat). cbn [mbind res_bind].
  unfold out_edges. rewrite Hes. cbn [default from_option id]. clear Hes.
  rewrite (foldl_row _ (fun acc e => stack ← acc; if passes f (relation e) then
    if bool_decide (edge_dst e ∈ visited) then Ok stack else Ok ((edge_dst e, S dep) :: stack) else Ok stack)).
  2: { intros j e a Hj. destruct (Hat j e Hj) as [Hd Hr]. unfold dfs_edge. rewrite Hr, Hd. destruct a; cbn [mbind res_bind index]; [|done..].
       by destruct (passes f (relation e)). }
  clear Hat. revert stack. induction es as [|e es IH]; intros stack; [done|]. cbn [foldl mbind res_bind]. rewrite filter_cons.
  destruct (passes f (relation e)) eqn:Ep; [rewrite decide_True by done|rewrite decide_False by done; apply IH].
  unfold dfs_pushes. rewrite filter_cons. case_bool_decide as Hv.
  - rewrite decide_False by tauto. apply IH.
  - rewrite decide_True by tauto. rewrite fmap_cons, reverse_cons, <- app_assoc. apply IH.
Qed.

(** The edges of the nodes not yet visited bound what can still be pushed. *)
Definition unvisited_edges (visited : gset nat) : nat :=
  sum_list ((fun u => if decide (u ∈ visited) then 0%nat else length (default [] (adj !! u))) <$> seq 0 (length adj)).

Lemma sum_list_visit (F : nat -> nat) (visited : gset nat) u l : NoDup l -> u ∈ l -> u ∉ visited ->
  sum_list ((fun v => if decide (v ∈ visited) then 0%nat else F v) <$> l) =
  (F u + sum_list ((fun v => if decide (v ∈ ({[u]} ∪ visited : gset nat)) then 0%nat else F v) <$> l))%nat.
Proof.
  assert (forall l', u ∉ l' -> sum_list ((fun v => if decide (v ∈ visited) then 0%nat else F v) <$> l') =
    sum_list ((fun v => if decide (v ∈ ({[u]} ∪ visited : gset nat)) then 0%nat else F v) <$> l')) as Hout.
  { intros l' Hl'. f_equal. apply list_fmap_ext. intros i v Hv. apply list_elem_of_lookup_2 in Hv.
    assert (u <> v) by (intros ->; done). repeat case_decide; set_solver. }
  intros Hnd Hu Hn. induction l as [|v l IH]; [by apply not_elem_of_nil in Hu|]. apply NoDup_cons in Hnd as [Hv Hnd].
  rewrite !fmap_cons. cbn [sum_list]. destruct (decide (v = u)) as [->|Hne].
  - rewrite decide_False, Hout by done. rewrite decide_True by set_solver. done.
  - apply elem_of_cons in Hu as [->|Hu]; [done|]. rewrite (IH Hnd Hu). repeat case_decide; set_solver by lia.
Qed.

Lemma unvisited_edges_visit visited u es : adj !! u = Some es -> u ∉ visited ->
  unvisited_edges visited = (length es + unvisited_edges ({[u]} ∪ visited))%nat.
Proof.
  intros Hes Hu. unfold unvisited_edges. rewrite (sum_list_visit _ _ u); [by rewrite Hes| |  |done].
  - apply NoDup_seq.
  - apply elem_of_seq. apply lookup_lt_Some in Hes. lia.
Qed.

Lemma length_dfs_pushes dep visited u es : adj !! u = Some es ->
  (length (dfs_pushes dep visited (out_edges u)) <= length es)%nat.
Proof.
  intros Hes. unfold dfs_pushes, out_edges. rewrite Hes, length_reverse, length_fmap. cbn.
  etrans; [apply length_filter|apply length_filter].
Qed.

Lemma elem_of_dfs_pushes dep visited u v k : (v, k) ∈ dfs_pushes dep visited (out_edges u) <->
  k = S dep /\ (v ∉ visited) /\ exists e, e ∈ out_edges u /\ edge_dst e = v.
Proof.
  unfold dfs_pushes. rewrite elem_of_reverse, list_elem_of_fmap. split.
  - intros (e & [= -> ->] & [He1 He2]%list_elem_of_filter). eauto.
  - intros (-> & Hv & e & He & <-). exists e. split; [done|]. by apply list_elem_of_filter.
Qed.

Definition visit_of (nd : nat * nat) (t : TraversalResult) : Prop :=
  idx_to_key g !! nd.1 = Some (key t) /\ depth t = nd.2 /\ via t = None.

Record dfs_inv (all : list (nat * nat)) (visited : gset nat) (stack : list (nat * nat)) (results : list TraversalResult) : Prop := {
  di_nodup : NoDup all.*1;
  di_visited : forall u, u ∈ visited <-> u ∈ all.*1;
  di_results : Forall2 visit_of all results;
  di_all : forall u k, (u, k) ∈ all -> (k <= max)%nat /\ walk s k u;
  di_stack : forall u k, (u, k) ∈ stack -> (k <= max)%nat /\ walk s k u;
  (* without a limit that bites *)
  di_depth : (length (idx_to_key g) <= max)%nat -> forall u k, (u, k) ∈ stack -> (k <= length all)%nat;
  di_closed : (length (idx_to_key g) <= max)%nat -> forall u e, u ∈ visited -> e ∈ out_edges u ->
    edge_dst e ∈ visited \/ edge_dst e ∈ stack.*1;
  di_start : s ∈ visited \/ s ∈ stack.*1
}.

(** A node on the stack that was visited is dropped. *)
Lemma dfs_inv_seen all visited u k stack results : dfs_inv all visited ((u, k) :: stack) results -> u ∈ visited -> dfs_inv all visited stack results.
Proof.
  intros [H1 H2 H3 H4 H5 H6 H7 H8] Hv. split; try done.
  - intros v j Hin. apply H5. by right.
  - intros Hn v j Hin. apply (H6 Hn v). by right.
  - intros Hn v e Hvis He. destruct (H7 Hn v e Hvis He) as [?|Hin]; [by left|]. csimpl in Hin.
    apply elem_of_cons in Hin as [->|Hin]; [by left|by right].
  - destruct H8 as [?|Hin]; [by left|]. csimpl in Hin. apply elem_of_cons in Hin as [->|Hin]; [by left|by right].
Qed.

(** A new node is answered, and its successors are pushed when it is above the limit. *)
Lemma dfs_inv_visit all visited u k stack stack' results ky : dfs_inv all visited ((u, k) :: stack) results -> u ∉ visited ->
  idx_to_key g !! u = Some ky ->
  (forall v j, (v, j) ∈ stack' <-> (v, j) ∈ stack \/ ((k < max)%nat /\ (v, j) ∈ dfs_pushes k ({[u]} ∪ visited) (out_edges u))) ->
  dfs_inv (all ++ [(u, k)]) ({[u]} ∪ visited) stack' (results ++ [mkResult ky k None]).
Proof.
  intros [H1 H2 H3 H4 H5 H6 H7 H8] Hv Hky Hst.
  assert ((u, k) ∈ (u, k) :: stack) as Htop by left. destruct (H5 u k Htop) as [Hk Hw].
  assert (u < length (idx_to_key g))%nat as Hu by (by eapply walk_bound).
  assert (u ∉ all.*1) as Hnew by (by rewrite <- H2).
  assert (forall v j, (v, j) ∈ stack -> v ∈ stack'.*1) as Hkeep.
  { intros v j Hin. apply (list_elem_of_fmap_2 fst _ (v, j)), Hst. by left. }
  assert (forall v, v ∈ ((u, k) :: stack).*1 -> v ∈ ({[u]} ∪ visited : gset nat) \/ v ∈ stack'.*1) as Hold.
  { intros v [[v' j] [-> [[= -> ->]|Hin]%elem_of_cons]]%list_elem_of_fmap; [left; set_solver|right; by eapply Hkeep]. }
  split.
  - rewrite fmap_app. apply NoDup_app. split_and!; [done| |apply NoDup_singleton].
    intros v Hin. cbn. by intros ->%list_elem_of_singleton.
  - intros v. rewrite fmap_app, elem_of_app, elem_of_union, <- H2. cbn.
    rewrite list_elem_of_singleton, elem_of_singleton. clear. tauto.
  - apply Forall2_app; [done|]. by repeat constructor.
  - intros v j [Hin|Hin]%elem_of_app; [by apply H4|]. apply list_elem_of_singleton in Hin as [= -> ->]. done.
  - intros v j [Hin|[Hlt Hin]]%Hst; [apply H5; by right|].
    apply elem_of_dfs_pushes in Hin as (-> & _ & e & He & <-). split; [lia|]. by eapply walk_step.
  - intros Hn v j [Hin|[Hlt Hin]]%Hst; rewrite length_app; cbn.
    + specialize (H6 Hn v j). pose proof (H6 ltac:(by right)). lia.
    + apply elem_of_dfs_pushes in Hin as (-> & _). specialize (H6 Hn u k Htop). lia.
  - intros Hn v e Hvis He. apply elem_of_union in Hvis as [->%elem_of_singleton|Hvis].
    + destruct (decide (edge_dst e ∈ ({[u]} ∪ visited : gset nat))) as [?|Hne]; [by left|]. right.
      apply (list_elem_of_fmap_2 fst _ (edge_dst e, S k)), Hst. right. split.
      * specialize (H6 Hn u k Htop). assert (length all < length (idx_to_key g))%nat; [|lia].
        assert (length (u :: all.*1) <= length (idx_to_key g))%nat as Hle; [|cbn in Hle; rewrite length_fmap in Hle; lia].
        apply nodup_bound; [by constructor|]. intros x [->|[[x' j] [-> Hin]]%list_elem_of_fmap]%elem_of_cons; [done|].
        eapply walk_bound; [exact Hs|]. by apply H4.
      * apply elem_of_dfs_pushes. eauto.
    + destruct (H7 Hn v e Hvis He) as [?|Hin]; [left; set_solver|by apply Hold].
  - destruct H8 as [?|Hin]; [left; set_solver|by apply Hold].
Qed.

Lemma dfs_loop_ok fuel : forall all visited stack results, dfs_inv all visited stack results ->
  (length stack + unvisited_edges visited <= fuel)%nat ->
  exists all' visited' results', dfs_loop fuel g (p, d, r) max f visited stack results = Ok results' /\
    dfs_inv all' visited' [] results'.
Proof.
  induction fuel as [|fuel IH]; intros all visited stack results Hinv Hfuel.
  { destruct stack; [|cbn in Hfuel; lia]. by exists all, visited, results. }
  destruct stack as [|[u k] stack]; [by exists all, visited, results|]. cbn [dfs_loop].
  assert ((u, k) ∈ (u, k) :: stack) as Htop by left.
  case_bool_decide as Hv.
  - apply (IH all); [by eapply dfs_inv_seen|cbn in Hfuel; lia].
  - destruct (di_stack _ _ _ _ Hinv u k Htop) as [Hk Hw].
    assert (u < length (idx_to_key g))%nat as Hu by (by eapply walk_bound).
    destruct (lookup_lt_is_Some_2 (idx_to_key g) u Hu) as [ky Hky]. rewrite Hky. cbn [index mbind res_bind].
    destruct (lookup_lt_is_Some_2 adj u ltac:(lia)) as [es Hes].
    pose proof (fun stack' => dfs_inv_visit all visited u k stack stack' results ky Hinv Hv Hky) as Hnext.
    pose proof (unvisited_edges_visit visited u es Hes Hv) as Hrem. cbn in Hfuel.
    destruct (Nat.leb_spec max k) as [Hmax|Hmax].
    + eapply IH; [|lia]. apply Hnext. intros v j. split; [by left|]. intros [?|[Hlt _]]; [done|lia].
    + cbn [fst snd]. pose proof (dfs_row u k ({[u]} ∪ visited) stack es Hes) as Hrow.
      destruct (row p u) as [is_|x|]; cbn [mbind res_bind] in *; [|done..]. rewrite Hrow. cbn [mbind res_bind].
      eapply IH.
      * apply Hnext. intros v j. rewrite elem_of_app. clear -Hmax. tauto.
      * rewrite length_app. pose proof (length_dfs_pushes k ({[u]} ∪ visited) u es Hes). lia.
Qed.

Lemma unvisited_edges_empty : unvisited_edges ∅ = length (mjoin adj).
Proof.
  unfold unvisited_edges. rewrite length_mjoin. f_equal. apply list_eq. intros i. rewrite !list_lookup_fmap.
  destruct (decide (i < length adj)%nat) as [Hi|Hi].
  - rewrite lookup_seq_lt by lia. cbn. destruct (lookup_lt_is_Some_2 adj i Hi) as [es ->]. done.
  - rewrite lookup_seq_ge by lia. by rewrite lookup_ge_None_2 by lia.
Qed.

Lemma dfs_search_ok : exists all results,
  dfs_loop (S (length d)) g (p, d, r) max f ∅ [(s, 0%nat)] [] = Ok results /\
  Forall2 visit_of all results /\ NoDup all.*1 /\
  (forall v k, (v, k) ∈ all -> (k <= max)%nat /\ walk s k v) /\
  ((length (idx_to_key g) <= max)%nat -> forall v k, walk s k v -> v ∈ all.*1).
Proof.
  destruct (dfs_loop_ok (S (length d)) [] ∅ [(s, 0%nat)] []) as (all & v' & rs & E & Hinv).
  - split.
    + constructor.
    + intros u. cbn. set_solver.
    + constructor.
    + by intros u k ?%not_elem_of_nil.
    + intros u k [= -> ->]%list_elem_of_singleton. split; [lia|constructor].
    + intros _ u k [= -> ->]%list_elem_of_singleton. done.
    + set_solver.
    + right. left.
  - rewrite unvisited_edges_empty. destruct Hcsr as (_ & -> & _). rewrite length_fmap. cbn. lia.
  - exists all, rs. destruct Hinv as [H1 H2 H3 H4 H5 H6 H7 H8]. split_and!; [done..|].
    intros Hn v k Hw. apply H2. induction Hw as [|k v e Hw IH He].
    + destruct H8 as [?|Hin]; [done|]. by apply not_elem_of_nil in Hin.
    + destruct (H7 Hn v e IH He) as [?|Hin]; [done|]. by apply not_elem_of_nil in Hin.
Qed.
End search.

(** ** Construction *)
Lemma graph_new_wf : graph_wf new.
Proof.
  split.
  - intros k i. split; [|by destruct i]. change (key_to_idx new) with (∅ : gmap bytes nat). by rewrite lookup_empty.
  - done.
  - done.
  - by intros e ?%not_elem_of_nil.
  - by intros e ?%not_elem_of_nil.
  - intros u v r. change (fwd_adj new) with (@nil (list Edge)). change (bwd_adj new) with (@nil (list Edge)).
    rewrite !lookup_nil. cbn. by split; intros ?%not_elem_of_nil.
  - done.
  - done.
Qed.

Lemma keys_nodup g : graph_wf g -> NoDup (idx_to_key g).
Proof.
  intros Hwf. apply NoDup_alt. intros i j k Hi Hj. apply (wf_keys g Hwf) in Hi, Hj. congruence.
Qed.

Lemma mjoin_snoc_nil {A} (l : list (list A)) : mjoin (l ++ [[]]) = mjoin l.
Proof. rewrite join_app. cbn. by rewrite app_nil_r. Qed.

Lemma default_snoc_nil {A} (l : list (list A)) i : default [] ((l ++ [[]]) !! i) = default [] (l !! i).
Proof.
  destruct (decide (i < length l)%nat) as [Hi|Hi]; [by rewrite lookup_app_l|].
  rewrite lookup_app_r by lia. rewrite (lookup_ge_None_2 l i) by lia. by destruct (i - length l)%nat as [|[|n]].
Qed.

Lemma add_node_ok g k : graph_wf g -> let '(g', i) := add_node g k in
  graph_wf g' /\ idx_to_key g' !! i = Some k /\ (exists l, idx_to_key g' = idx_to_key g ++ l) /\
  mjoin (fwd_adj g') = mjoin (fwd_adj g) /\ edges g' = edges g.
Proof.
  intros Hwf. unfold add_node. destruct (key_to_idx g !! k) as [i|] eqn:Ek.
  - split_and!; [done|by apply wf_keys|exists []; by rewrite app_nil_r|done..].
  - destruct Hwf. cbn. split_and!.
    + split; cbn; rewrite ?length_app, ?mjoin_snoc_nil; cbn; try lia; try done.
      * intros k' i. rewrite lookup_insert. case_decide as Hk.
        -- subst. split; [intros [= <-]; by rewrite lookup_app_r, Nat.sub_diag by lia|].
           intros H. destruct (decide (i < length (idx_to_key g))%nat) as [Hi|Hi].
           ++ rewrite lookup_app_l in H by done. apply wf_keys0 in H. congruence.
           ++ apply lookup_lt_Some in H. rewrite length_app in H. cbn in H. f_equal. lia.
        -- rewrite wf_keys0. split; [intros H; by apply lookup_app_l_Some|].
           intros H. destruct (decide (i < length (idx_to_key g))%nat) as [Hi|Hi]; [by rewrite lookup_app_l in H|].
           rewrite lookup_app_r in H by lia. destruct (i - length (idx_to_key g))%nat as [|[|]]; cbn in H; congruence.
      * intros e He. specialize (wf_fwd_dst0 e He). lia.
      * intros e He. specialize (wf_bwd_dst0 e He). lia.
      * intros u v r. by rewrite !default_snoc_nil.
    + by rewrite lookup_app_r, Nat.sub_diag by lia.
    + by eexists.
    + by rewrite mjoin_snoc_nil.
    + done.
Qed.

Lemma push_edge_ok adj i e : (i < length adj)%nat -> exists adj', push_edge adj i e = Ok adj' /\
  length adj' = length adj /\ (forall e', e' ∈ mjoin adj' <-> e' ∈ mjoin adj \/ e' = e) /\
  (forall j, default [] (adj' !! j) = default [] (adj !! j) ++ (if decide (j = i) then [e] else [])) /\
  length (mjoin adj') = S (length (mjoin adj)).
Proof.
  intros Hi. destruct (lookup_lt_is_Some_2 adj i Hi) as [es Hes]. unfold push_edge. rewrite Hes. cbn [index mbind res_bind].
  eexists. split; [done|]. split; [by rewrite length_insert|].
  assert (mjoin (<[i:=es ++ [e]]> adj) = mjoin (take i adj) ++ (es ++ [e]) ++ mjoin (drop (S i) adj)) as E1.
  { rewrite insert_take_drop by done. by rewrite join_app. }
  assert (mjoin adj = mjoin (take i adj) ++ es ++ mjoin (drop (S i) adj)) as E2.
  { rewrite <- (take_drop_middle adj i es Hes) at 1. by rewrite join_app. }
  split_and!.
  - intros e'. rewrite E1, E2, !elem_of_app, list_elem_of_singleton. clear. tauto.
  - intros j. rewrite list_lookup_insert. repeat case_decide; subst; try lia; rewrite ?Hes, ?app_nil_r; try done.
  - rewrite E1, E2, !length_app. cbn. lia.
Qed.

Lemma elem_of_if_single {A} (P : Prop) `{!Decision P} (x y : A) : x ∈ (if decide P then [y] else []) <-> P /\ x = y.
Proof.
  case_decide; [rewrite list_elem_of_singleton; tauto|]. split; [by intros ?%not_elem_of_nil|by intros []].
Qed.

Lemma add_edge_ok g a b r : graph_wf g -> exists g', add_edge g a b r = Ok g' /\ graph_wf g' /\ edges g' = S (edges g).
Proof.
  intros Hwf. unfold add_edge. pose proof (add_node_ok g a Hwf) as Ha. destruct (add_node g a) as [g1 i].
  destruct Ha as (Hwf1 & Hi & _ & _ & He1). pose proof (add_node_ok g1 b Hwf1) as Hb. destruct (add_node g1 b) as [g2 j].
  destruct Hb as (Hwf2 & Hj & [l Hl] & _ & He2).
  assert (i < length (idx_to_key g2))%nat as Hi2.
  { rewrite Hl, length_app. apply lookup_lt_Some in Hi. lia. }
  pose proof (lookup_lt_Some _ _ _ Hj) as Hj2. destruct Hwf2.
  destruct (push_edge_ok (fwd_adj g2) i (mkEdge j r)) as (fw & -> & F1 & F2 & F3 & F4); [lia|].
  destruct (push_edge_ok (bwd_adj g2) j (mkEdge i r)) as (bw & -> & B1 & B2 & B3 & B4); [lia|].
  cbn [mbind res_bind]. eexists. split; [done|]. split; [|cbn; congruence]. split; cbn; try done; try lia.
  - intros e [He| ->]%F2; [by apply wf_fwd_dst0|done].
  - intros e [He| ->]%B2; [by apply wf_bwd_dst0|done].
  - intros u v rl. rewrite F3, B3, !elem_of_app, wf_transpose0, !elem_of_if_single. clear.
    split; (intros [Hx|[-> [= -> ->]]]; [by left|by right]).
Qed.

(** Building the arrays changes nothing else. *)
Definition same_graph (g g' : RelationGraph) : Prop :=
  key_to_idx g' = key_to_idx g /\ idx_to_key g' = idx_to_key g /\ fwd_adj g' = fwd_adj g /\
  bwd_adj g' = bwd_adj g /\ edges g' = edges g.

Lemma ensure_built_ok g : graph_wf g -> exists g', ensure_built g = Ok g' /\ graph_wf g' /\ built g' = true /\ same_graph g g'.
Proof.
  intros Hwf. unfold ensure_built. destruct (built g) eqn:Eb; [by exists g|]. destruct Hwf. unfold build.
  destruct (build_csr_ok (fwd_adj g)) as (cf & Ef & Hf), (build_csr_ok (bwd_adj g)) as (cb & Ebw & Hb).
  rewrite wf_fwd_len0 in Ef. rewrite wf_bwd_len0 in Ebw. cbv zeta. rewrite Ef, Ebw.
  cbn [mbind res_bind]. eexists. split; [done|]. split; [|done]. by split.
Qed.

(** The adjacency lists a direction reads. *)
Definition direction_adj (g : RelationGraph) (direction : bytes) : list (list Edge) :=
  if bool_decide (direction = str "backward") then bwd_adj g else fwd_adj g.

Lemma arrays_ok g direction : graph_wf g -> built g = true ->
  csr_of (direction_adj g direction) (arrays g direction).1.1 (arrays g direction).1.2 (arrays g direction).2 /\
  length (direction_adj g direction) = length (idx_to_key g) /\
  forall e, e ∈ mjoin (direction_adj g direction) -> (edge_dst e < length (idx_to_key g))%nat.
Proof.
  intros [] Hb. destruct (wf_built0 Hb). unfold arrays, direction_adj. by case_bool_decide.
Qed.

(** Walking backward is walking the forward edges in reverse. *)
Lemma walk_reverse g f u k v : graph_wf g -> walk (bwd_adj g) f u k v -> walk (fwd_adj g) f v k u.
Proof.
  intros Hwf. assert (forall u0 u1 k0 v0, (exists e, e ∈ out_edges (fwd_adj g) f u0 /\ edge_dst e = u1) ->
    walk (fwd_adj g) f u1 k0 v0 -> walk (fwd_adj g) f u0 (S k0) v0) as Hcons.
  { intros u0 u1 k0 v0 (e & He & <-) H. induction H as [|k0 v0 e0 H IH He0]; [by apply walk_step with u0; [constructor|]|].
    by apply walk_step with v0. }
  induction 1 as [|k v e Hw IH He]; [constructor|]. apply Hcons with v; [|done].
  unfold out_edges in *. apply list_elem_of_filter in He as [Hp He]. exists (mkEdge v (relation e)). split; [|done].
  apply list_elem_of_filter. split; [done|]. apply (wf_transpose g Hwf). by destruct e.
Qed.

Lemma bfs_ok g start direction max f s : graph_wf g -> key_to_idx g !! start = Some s ->
  exists results g' all, bfs g start direction max f = Ok (results, g') /\ graph_wf g' /\ same_graph g g' /\
    Forall2 (result_of g (direction_adj g direction) f s) all results /\ NoDup all.*1 /\ StronglySorted le all.*2 /\
    forall v k, (v, k) ∈ all <-> (k <= max)%nat /\ distance (direction_adj g direction) f s k v.
Proof.
  intros Hwf Hs. destruct (ensure_built_ok g Hwf) as (g' & E & Hwf' & Hb & Hsame). pose proof Hsame as (Hk & Hi & Hf & Hbw & He).
  unfold bfs. rewrite E. cbn [mbind res_bind]. rewrite Hk, Hs. apply (wf_keys g Hwf) in Hs.
  rewrite Hi, Hs. cbn [index mbind res_bind].
  destruct (arrays_ok g' direction Hwf' Hb) as (Hcsr & Hlen & Hdst).
  assert (direction_adj g' direction = direction_adj g direction) as Hd by (unfold direction_adj; by rewrite Hf, Hbw).
  rewrite Hd in *. destruct (arrays g' direction) as [[p d] r]. cbn [fst snd] in *. rewrite Hi in Hlen.
  destruct (bfs_search_ok g' (direction_adj g direction) p d r f Hcsr ltac:(by rewrite Hi) Hdst s max
    ltac:(rewrite Hi; by eapply lookup_lt_Some) start ltac:(by rewrite Hi)) as (all & rs & Ebfs & Hres & Hrest).
  rewrite Hi in Ebfs. rewrite Ebfs. cbn [mbind res_bind]. exists rs, g', all. split_and!; try done; [|apply Hrest..].
  eapply Forall2_impl; [exact Hres|]. intros nd t (H1 & H2). split; [by rewrite <- Hi|done].
Qed.

(** C32: The breadth-first search of any graph built by [add_node] and [add_edge]
    never panics and terminates; it reports exactly the nodes whose distance from
    the start, along edges of the direction that pass the filter, is at most the
    limit, each once, with that distance as its depth and the relation of an edge
    that reaches it from one step nearer, in order of distance. *)
Theorem bfs_exact g start direction max f s : graph_wf g -> key_to_idx g !! start = Some s ->
  exists results g' all, bfs g start direction max f = Ok (results, g') /\ graph_wf g' /\ same_graph g g' /\
    Forall2 (result_of g (direction_adj g direction) f s) all results /\ NoDup all.*1 /\ StronglySorted le all.*2 /\
    forall v k, (v, k) ∈ all <-> (k <= max)%nat /\ distance (direction_adj g direction) f s k v.
Proof. apply bfs_ok. Qed.

(** The depth-first search terminates without a panic; each node it reports is
    reached by a walk of its depth, which is within the limit, and is reported
    once; and when the limit is at least the number of nodes it reports every
    reachable node. *)
Theorem dfs_exact g start direction max f s : graph_wf g -> key_to_idx g !! start = Some s ->
  exists results g' all, dfs g start direction max f = Ok (results, g') /\ graph_wf g' /\ same_graph g g' /\
    Forall2 (visit_of g) all results /\ NoDup all.*1 /\
    (forall v k, (v, k) ∈ all -> (k <= max)%nat /\ walk (direction_adj g direction) f s k v) /\
    ((node_count g <= max)%nat -> forall v k, walk (direction_adj g direction) f s k v -> v ∈ all.*1).
Proof.
  intros Hwf Hs. destruct (ensure_built_ok g Hwf) as (g' & E & Hwf' & Hb & Hsame). pose proof Hsame as (Hk & Hi & Hf & Hbw & He).
  unfold dfs. rewrite E. cbn [mbind res_bind]. rewrite Hk, Hs. apply (wf_keys g Hwf) in Hs.
  destruct (arrays_ok g' direction Hwf' Hb) as (Hcsr & Hlen & Hdst).
  assert (direction_adj g' direction = direction_adj g direction) as Hd by (unfold direction_adj; by rewrite Hf, Hbw).
  rewrite Hd in *. destruct (arrays g' direction) as [[p d] r]. cbn [fst snd] in *.
  destruct (dfs_search_ok g' (direction_adj g direction) p d r f Hcsr Hlen Hdst s max
    ltac:(rewrite Hi; by eapply lookup_lt_Some)) as (all & rs & Edfs & Hres & Hnd & Hsound & Hcomp).
  rewrite Edfs. cbn [mbind res_bind]. exists rs, g', all. split_and!; try done; [|by rewrite Hi in Hcomp].
  eapply Forall2_impl; [exact Hres|]. intros nd t (H1 & H2). split; [by rewrite <- Hi|done].
Qed.

(** The neighbours of a node are its edges of the direction that pass the filter, in
    the order they were added. *)
Lemma neighbours_ok g k direction f s : graph_wf g -> key_to_idx g !! k = Some s ->
  exists results g', neighbours g k direction f = Ok (results, g') /\ graph_wf g' /\ same_graph g g' /\
    Forall2 (fun e kr => idx_to_key g !! edge_dst e = Some kr.1 /\ kr.2 = relation e)
      (out_edges (direction_adj g direction) f s) results.
Proof.
  intros Hwf Hs. destruct (ensure_built_ok g Hwf) as (g' & E & Hwf' & Hb & Hsame). pose proof Hsame as (Hk & Hi & Hf & Hbw & He).
  unfold neighbours. rewrite E. cbn [mbind res_bind]. rewrite Hk, Hs. apply (wf_keys g Hwf) in Hs.
  destruct (arrays_ok g' direction Hwf' Hb) as (Hcsr & Hlen & Hdst).
  assert (direction_adj g' direction = direction_adj g direction) as Hd by (unfold direction_adj; by rewrite Hf, Hbw).
  rewrite Hd, Hi in *. destruct (arrays g' direction) as [[p d] r]. cbn [fst snd] in *.
  destruct (lookup_lt_is_Some_2 (direction_adj g direction) s) as [es Hes]; [rewrite Hlen; by eapply lookup_lt_Some|].
  destruct (csr_row_ok _ p d r s es Hcsr Hes) as (o & -> & Hat). cbn [mbind res_bind].
  assert (forall e, e ∈ es -> (edge_dst e < length (idx_to_key g))%nat) as Hb2.
  { intros e He'. apply Hdst, list_elem_of_join. exists es. split; [done|]. by eapply list_elem_of_lookup_2. }
  unfold out_edges. rewrite Hes. cbn [default from_option id]. clear Hes.
  assert (exists results, neighbour_loop g' d r f (seq o (length es)) = Ok results /\
    Forall2 (fun e kr => idx_to_key g !! edge_dst e = Some kr.1 /\ kr.2 = relation e)
      (filter (fun e => passes f (relation e) = true) es) results) as (rs & -> & Hrs); [|by exists rs, g'].
  revert o Hat. induction es as [|e es IH]; intros o Hat; [exists []; split; [done|constructor]|].
  cbn [length seq neighbour_loop]. destruct (Hat 0%nat e eq_refl) as [Hd0 Hr0]. rewrite Nat.add_0_r in Hd0, Hr0.
  rewrite Hr0. cbn [index mbind res_bind].
  destruct (IH ltac:(intros; apply Hb2; by right) (S o)) as (rs & Ers & Hrs).
  { intros j e' Hj. destruct (Hat (S j) e' Hj) as [H1 H2]. by rewrite Nat.add_succ_r in H1, H2. }
  rewrite filter_cons. destruct (passes f (relation e)) eqn:Ep.
  - rewrite Hd0. cbn [index mbind res_bind]. rewrite Hi.
    destruct (lookup_lt_is_Some_2 (idx_to_key g) (edge_dst e)) as [ky Hky]; [apply Hb2; left|]. rewrite Hky, Ers.
    cbn [index mbind res_bind]. eexists. split; [done|]. by constructor.
  - rewrite Ers. by exists rs.
Qed.

(** ** The file format *)
Lemma read_nodes_ok ks rest : Forall (fun k => Z.of_nat (length k) < 2 ^ 32 /\ utf8_valid k = true) ks ->
  read_nodes (length ks) (mjoin (encode_node <$> ks) ++ rest) = Ok (ks, rest).
Proof.
  induction 1 as [|k ks [Hk Hu] Hks IH]; [done|]. cbn [length read_nodes]. rewrite fmap_cons, mjoin_cons.
  unfold encode_node at 1. rewrite <- !app_assoc, read_u32_be by lia. cbn [mbind res_bind]. rewrite Nat2Z.id.
  replace (_ <? length k)%nat with false by (symmetry; apply Nat.ltb_ge; rewrite length_app; lia).
  rewrite take_app_length, Hu, drop_app_length. cbn [mbind res_bind]. by rewrite IH.
Qed.

(** The edges as the file lists them: by source, in adjacency order. *)
Definition edge_list (adj : list (list Edge)) : list (nat * nat * Relation) :=
  mjoin (imap (fun s es => (fun e => (s, edge_dst e, relation e)) <$> es) adj).

Definition encode_triple (t : nat * nat * Relation) : bytes := encode_edge t.1.1 (mkEdge t.1.2 t.2).

Lemma encode_edges adj : forall k, mjoin (imap (fun s es => mjoin (encode_edge (k + s)%nat <$> es)) adj) =
  mjoin (encode_triple <$> mjoin (imap (fun s es => (fun e => ((k + s)%nat, edge_dst e, relation e)) <$> es) adj)).
Proof.
  induction adj as [|es adj IH]; intros k; [done|]. cbn [imap]. rewrite !mjoin_cons, fmap_app, join_app. f_equal.
  - rewrite Nat.add_0_r, <- list_fmap_compose. f_equal.
  - assert (forall s, (k + S s)%nat = (S k + s)%nat) as Hk by lia.
    etrans; [|etrans; [apply (IH (S k))|]]; f_equal; [|f_equal; f_equal];
      apply imap_ext; intros s l _; unfold compose; cbn; by rewrite Hk.
Qed.

Lemma tag_relation_tag r : tag_relation (relation_tag r) = Some r.
Proof. by destruct r. Qed.

Lemma read_edges_ok ts rest : Forall (fun t => Z.of_nat t.1.1 < 2 ^ 32 /\ Z.of_nat t.1.2 < 2 ^ 32) ts ->
  read_edges (length ts) (mjoin (encode_triple <$> ts) ++ rest) = Ok (ts, rest).
Proof.
  induction 1 as [|[[s t] r] ts [Hs Ht] Hts IH]; [done|]. cbn [length read_edges]. rewrite fmap_cons, mjoin_cons.
  unfold encode_triple at 1, encode_edge at 1. cbn [fst snd edge_dst relation] in *.
  rewrite <- !app_assoc, read_u32_be by lia. cbn [mbind res_bind]. rewrite read_u32_be by lia. cbn [mbind res_bind app].
  rewrite tag_relation_tag, IH. cbn [mbind res_bind]. by rewrite !Nat2Z.id.
Qed.

(** Adding the nodes again. *)
Lemma add_nodes_ok ks : forall g, graph_wf g -> edges g = 0%nat -> NoDup (idx_to_key g ++ ks) ->
  let g' := foldl (fun g k => (add_node g k).1) g ks in
  graph_wf g' /\ idx_to_key g' = idx_to_key g ++ ks /\ edges g' = 0%nat.
Proof.
  induction ks as [|k ks IH]; intros g Hwf He Hnd; cbn [foldl]; [by rewrite app_nil_r|].
  pose proof (add_node_ok g k Hwf) as H. assert (key_to_idx g !! k = None) as Hk.
  { destruct (key_to_idx g !! k) as [i|] eqn:E; [|done]. apply (wf_keys g Hwf) in E. apply list_elem_of_lookup_2 in E.
    apply NoDup_app in Hnd as (_ & Hnd & _). destruct (Hnd k E). left. }
  assert (idx_to_key (add_node g k).1 = idx_to_key g ++ [k]) as E1 by (unfold add_node; by rewrite Hk).
  destruct (add_node g k) as [g1 i]. destruct H as (Hwf1 & _ & _ & _ & He1). cbn [fst] in *.
  destruct (IH g1 Hwf1) as (H1 & H2 & H3); [congruence|by rewrite E1, <- app_assoc|]. cbv zeta in *.
  split_and!; [done| |done]. by rewrite H2, E1, <- app_assoc.
Qed.

(** Adding an edge between known nodes. *)
Lemma add_edge_known g a b i j r : graph_wf g -> idx_to_key g !! i = Some a -> idx_to_key g !! j = Some b ->
  exists g', add_edge g a b r = Ok g' /\ graph_wf g' /\ key_to_idx g' = key_to_idx g /\ idx_to_key g' = idx_to_key g /\
    edges g' = S (edges g) /\
    forall u, default [] (fwd_adj g' !! u) = default [] (fwd_adj g !! u) ++ (if decide (u = i) then [mkEdge j r] else []).
Proof.
  intros Hwf Ha Hb. destruct (add_edge_ok g a b r Hwf) as (g' & E & Hwf' & He). exists g'. split; [done|]. split; [done|].
  unfold add_edge, add_node in E. apply (wf_keys g Hwf) in Ha, Hb. rewrite Ha, Hb in E.
  apply (wf_keys g Hwf) in Ha. destruct (push_edge_ok (fwd_adj g) i (mkEdge j r)) as (fw & Efw & _ & _ & Hfw & _).
  { rewrite (wf_fwd_len g Hwf). by eapply lookup_lt_Some. }
  rewrite Efw in E. cbn [mbind res_bind] in E. destruct (push_edge (bwd_adj g) j (mkEdge i r)); [|done..].
  cbn [mbind res_bind] in E. injection E as <-. cbn in *. done.
Qed.

Lemma add_edges_ok keys ts : forall g, graph_wf g -> idx_to_key g = keys ->
  Forall (fun t => (t.1.1 < length keys)%nat /\ (t.1.2 < length keys)%nat) ts ->
  exists g', foldl (add_edge_at keys) (Ok g) ts = Ok g' /\ graph_wf g' /\ key_to_idx g' = key_to_idx g /\
    idx_to_key g' = keys /\ edges g' = (edges g + length ts)%nat /\
    forall u, default [] (fwd_adj g' !! u) = default [] (fwd_adj g !! u) ++
      ((fun t => mkEdge t.1.2 t.2) <$> filter (fun t => t.1.1 = u) ts).
Proof.
  induction ts as [|[[s t] r] ts IH]; intros g Hwf Hk Hts.
  - exists g. split; [done|]. split; [done|]. split; [done|]. split; [done|]. split; [cbn; lia|].
    intros u. cbn. by rewrite app_nil_r.
  - apply Forall_cons in Hts as [[Hs Ht] Hts]. cbn [fst snd] in Hs, Ht.
    destruct (lookup_lt_is_Some_2 keys s Hs) as [a Ha], (lookup_lt_is_Some_2 keys t Ht) as [b Hb].
    destruct (add_edge_known g a b s t r Hwf) as (g1 & E1 & Hwf1 & Hk1 & Hi1 & He1 & Hf1); [congruence..|].
    cbn [foldl]. unfold add_edge_at at 2. cbn [mbind res_bind fst snd]. rewrite Ha, Hb, E1.
    destruct (IH g1 Hwf1) as (g' & E & Hwf' & Hk' & Hi' & He' & Hf'); [congruence|done|].
    exists g'. split_and!; try done; [congruence|cbn; lia|]. intros u. rewrite Hf', Hf1, filter_cons. cbn [fst snd].
    rewrite <- app_assoc. f_equal. destruct (decide (u = s)), (decide (s = u)); subst; done.
Qed.

Lemma filter_edge_list adj u : forall k,
  (fun t => mkEdge t.1.2 t.2) <$> filter (fun t => t.1.1 = u)
    (mjoin (imap (fun s es => (fun e => ((k + s)%nat, edge_dst e, relation e)) <$> es) adj)) =
  if decide (k <= u)%nat then default [] (adj !! (u - k)%nat) else [].
Proof.
  induction adj as [|es adj IH]; intros k; [by case_decide|]. cbn [imap]. rewrite mjoin_cons, filter_app, fmap_app.
  rewrite Nat.add_0_r.
  assert (mjoin (imap ((fun s es0 => (fun e => ((k + s)%nat, edge_dst e, relation e)) <$> es0) ∘ S) adj) =
          mjoin (imap (fun s es0 => (fun e => ((S k + s)%nat, edge_dst e, relation e)) <$> es0) adj)) as ->.
  { f_equal. apply imap_ext. intros s l _. unfold compose. cbn. by replace (k + S s)%nat with (S (k + s)) by lia. }
  rewrite IH. destruct (decide (k = u)) as [->|Hne].
  - rewrite filter_all by (apply Forall_fmap, Forall_forall; done).
    rewrite decide_False, app_nil_r by lia. rewrite decide_True by lia. rewrite Nat.sub_diag. cbn.
    rewrite <- list_fmap_compose. rewrite <- (list_fmap_id es) at 2. apply list_fmap_ext. by intros i [].
  - rewrite filter_none by (apply Forall_fmap, Forall_forall; done). cbn [fmap list_fmap app].
    repeat case_decide; try lia; try done. by replace (u - k)%nat with (S (u - S k)) by lia.
Qed.

Lemma edge_list_bound g : graph_wf g ->
  Forall (fun t => (t.1.1 < length (idx_to_key g))%nat /\ (t.1.2 < length (idx_to_key g))%nat) (edge_list (fwd_adj g)).
Proof.
  intros Hwf. apply Forall_forall. intros t (l & Ht & Hl)%list_elem_of_join.
  apply elem_of_lookup_imap in Hl as (s & es & -> & Hes).
  apply list_elem_of_fmap in Ht as (e & -> & He). cbn. split.
  - rewrite <- (wf_fwd_len g Hwf). by eapply lookup_lt_Some.
  - apply (wf_fwd_dst g Hwf), list_elem_of_join. exists es. split; [done|]. by eapply list_elem_of_lookup_2.
Qed.


Lemma length_edge_list adj : length (edge_list adj) = length (mjoin adj).
Proof.
  unfold edge_list. rewrite !length_mjoin. f_equal. rewrite fmap_imap.
  rewrite (imap_ext _ (fun _ es => length es)) by (intros i es _; unfold compose; by rewrite length_fmap).
  apply list_eq. intros i. rewrite list_lookup_imap, list_lookup_fmap. by destruct (adj !! i).
Qed.

(** What the file can hold: counts and lengths in 32 bits, keys in UTF-8. *)
Record graph_fits (g : RelationGraph) : Prop := {
  fit_nodes : Z.of_nat (length (idx_to_key g)) < 2 ^ 32;
  fit_edges : Z.of_nat (edges g) < 2 ^ 32;
  fit_keys : Forall (fun k => Z.of_nat (length k) < 2 ^ 32 /\ utf8_valid k = true) (idx_to_key g)
}.

(** A saved graph loads as the same graph: the same keys at the same indices, the
    same forward edges in the same order, the same backward edges (their order may
    change), whatever was built. *)
Theorem graph_roundtrip g : graph_wf g -> graph_fits g -> exists g', deserialize (serialize g) = Ok g' /\ graph_wf g' /\
  idx_to_key g' = idx_to_key g /\ (forall k, key_to_idx g' !! k = key_to_idx g !! k) /\ edges g' = edges g /\
  fwd_adj g' = fwd_adj g /\ forall u e, e ∈ default [] (bwd_adj g' !! u) <-> e ∈ default [] (bwd_adj g !! u).
Proof.
  intros Hwf [Hn He Hk]. unfold deserialize, serialize.
  replace (_ || _) with false by (symmetry; apply orb_false_iff; split; [done|by rewrite take_app_length']).
  change (drop 4 (str "GRPH" ++ ?x)) with x. rewrite read_u32_be by lia. cbn [mbind res_bind]. rewrite Nat2Z.id.
  rewrite read_nodes_ok by done. cbn [mbind res_bind]. rewrite read_u32_be by lia. cbn [mbind res_bind]. rewrite Nat2Z.id.
  assert (mjoin (imap (fun s es => mjoin (encode_edge s <$> es)) (fwd_adj g)) = mjoin (encode_triple <$> edge_list (fwd_adj g)))
    as -> by exact (encode_edges (fwd_adj g) 0).
  rewrite (wf_count g Hwf), <- length_edge_list, <- (app_nil_r (mjoin (encode_triple <$> _))), read_edges_ok.
  2: { eapply Forall_impl; [by apply edge_list_bound|]. intros t [H1 H2]. cbn beta in *. lia. }
  cbn [mbind res_bind].
  destruct (add_nodes_ok (idx_to_key g) new graph_new_wf eq_refl) as (Hwf0 & Hi0 & He0); [by apply keys_nodup|].
  set (g0 := foldl _ new (idx_to_key g)) in *.
  destruct (add_edges_ok (idx_to_key g) (edge_list (fwd_adj g)) g0 Hwf0 Hi0 (edge_list_bound g Hwf))
    as (g' & -> & Hwf' & Hk' & Hi' & He' & Hf'). exists g'.
  assert (forall u, default [] (fwd_adj g' !! u) = default [] (fwd_adj g !! u)) as Hfwd.
  { intros u. rewrite Hf'. pose proof (filter_edge_list (fwd_adj g) u 0) as Hfe.
    rewrite decide_True, Nat.sub_0_r in Hfe by lia. etrans; [apply (f_equal (app _)), Hfe|].
    assert (mjoin (fwd_adj g0) = []) as Hnil by (apply nil_length_inv; rewrite <- (wf_count g0 Hwf0); done).
    destruct (fwd_adj g0 !! u) as [es|] eqn:E; [|done]. cbn [default from_option id].
    assert (es = []) as ->; [|done]. destruct es as [|e es]; [done|]. exfalso.
    assert (e ∈ mjoin (fwd_adj g0)) as Hin; [|rewrite Hnil in Hin; by apply not_elem_of_nil in Hin].
    apply list_elem_of_join. exists (e :: es). split; [left|by eapply list_elem_of_lookup_2]. }
  split; [done|]. split; [done|]. split; [done|]. split; [|split; [|split]].
  - intros k. apply option_eq. intros i. rewrite (wf_keys g' Hwf'), (wf_keys g Hwf). by rewrite Hi'.
  - by rewrite He', He0, ?length_edge_list.
  - apply list_eq. intros u. specialize (Hfwd u). pose proof (wf_fwd_len g Hwf). pose proof (wf_fwd_len g' Hwf').
    rewrite Hi' in *. destruct (decide (u < length (idx_to_key g))%nat).
    + destruct (lookup_lt_is_Some_2 (fwd_adj g) u ltac:(lia)) as [x Hx], (lookup_lt_is_Some_2 (fwd_adj g') u ltac:(lia)) as [y Hy].
      rewrite Hx, Hy in *. cbn in Hfwd. congruence.
    + by rewrite !lookup_ge_None_2 by lia.
  - intros u [v r]. rewrite <- (wf_transpose g' Hwf'), <- (wf_transpose g Hwf). by rewrite Hfwd.
Qed.

(** ** A concrete graph *)
Definition add_edges (g : RelationGraph) (l : list (string * string * Relation)) : res bytes RelationGraph :=
  foldl (fun acc e => g ← acc; add_edge g (str e.1.1) (str e.1.2) e.2) (Ok g) l.

Lemma add_edges_wf l : forall g g', graph_wf g -> add_edges g l = Ok g' -> graph_wf g'.
Proof.
  induction l as [|e l IH]; intros g g' Hwf E; [by injection E as <-|]. unfold add_edges in E. cbn [foldl mbind res_bind] in E.
  destruct (add_edge_ok g (str e.1.1) (str e.1.2) e.2 Hwf) as (g1 & E1 & Hwf1 & _). rewrite E1 in E. by apply (IH g1).
Qed.

(** a -> b -> c -> d and a -> c. *)
Definition diamond : RelationGraph :=
  match add_edges new [("a", "b", Calls); ("b", "c", Calls); ("c", "d", Calls); ("a", "c", Imports)]%string with
  | Ok g => g | _ => new end.

Lemma diamond_wf : graph_wf diamond.
Proof.
  apply (add_edges_wf [("a", "b", Calls); ("b", "c", Calls); ("c", "d", Calls); ("a", "c", Imports)]%string new diamond);
    [apply graph_new_wf|by vm_compute].
Qed.

Lemma bfs_exact_witness : exists g',
  bfs diamond (str "a") (str "forward") 2 None =
    Ok ([mkResult (str "a") 0 None; mkResult (str "b") 1 (Some Calls); mkResult (str "c") 1 (Some Imports);
         mkResult (str "d") 2 (Some Calls)], g') /\
  distance (fwd_adj diamond) None 0 2 3.
Proof.
  destruct (bfs_exact diamond (str "a") (str "forward") 2 None 0 diamond_wf eq_refl)
    as (rs & g' & all & E & _ & _ & Hres & Hnd & _ & Hall).
  assert (exists g2, bfs diamond (str "a") (str "forward") 2 None =
    Ok ([mkResult (str "a") 0 None; mkResult (str "b") 1 (Some Calls); mkResult (str "c") 1 (Some Imports);
         mkResult (str "d") 2 (Some Calls)], g2)) as [g2 E2] by (eexists; vm_compute; reflexivity).
  rewrite E2 in E. injection E as <- <-. exists g2. split; [exact E2|].
  assert ((3, 2)%nat ∈ all) as Hin; [|apply Hall in Hin as [_ H]; exact H].
  do 4 (let H1 := fresh in let H2 := fresh in
    apply Forall2_cons_inv_r in Hres as ([? ?] & ? & [H1 [H2 _]] & Hres & ->)). apply Forall2_nil_inv_r in Hres as ->.
  cbn [fst snd depth key] in *. subst. do 3 right.
  assert (idx_to_key diamond !! 3%nat = Some (str "d")) as Hd3 by done.
  match goal with H : idx_to_key diamond !! ?i = Some (str "d") |- _ =>
    assert (i = 3%nat) as -> by exact (proj1 (NoDup_alt _) (keys_nodup diamond diamond_wf) _ _ _ H Hd3) end.
  left.
Defined.

Lemma graph_roundtrip_witness : exists g', deserialize (serialize diamond) = Ok g' /\ fwd_adj g' = fwd_adj diamond.
Proof.
  destruct (graph_roundtrip diamond diamond_wf) as (g' & E & _ & _ & _ & _ & Hf & _).
  - split; apply (bool_decide_unpack _); vm_compute; reflexivity.
  - exists g'. split; [exact E|exact Hf].
Defined.

Lemma dfs_exact_witness : exists g',
  dfs diamond (str "a") (str "forward") 4 None =
    Ok ([mkResult (str "a") 0 None; mkResult (str "c") 1 None; mkResult (str "d") 2 None; mkResult (str "b") 1 None], g') /\
  graph_wf g'.
Proof.
  destruct (dfs_exact diamond (str "a") (str "forward") 4 None 0 diamond_wf eq_refl)
    as (rs & g' & all & E & Hwf & _).
  assert (exists g2, dfs diamond (str "a") (str "forward") 4 None =
    Ok ([mkResult (str "a") 0 None; mkResult (str "c") 1 None; mkResult (str "d") 2 None; mkResult (str "b") 1 None], g2))
    as [g2 E2] by (eexists; vm_compute; reflexivity).
  rewrite E2 in E. injection E as <- <-. exists g2. split; [exact E2|exact Hwf].
Defined.

(** With a limit, the depth-first search misses nodes within it: it enters [c] by
    the longer way first, at the limit, and never looks at [d], which the
    breadth-first search reports at depth 2. *)
Example dfs_limit_misses :
  match add_edges new [("a", "c", Imports); ("a", "b", Calls); ("b", "c", Calls); ("c", "d", Calls)]%string with
  | Ok g => match dfs g (str "a") (str "forward") 2 None, bfs g (str "a") (str "forward") 2 None with
            | Ok (r1, _), Ok (r2, _) => (key <$> r1, key <$> r2)
            | _, _ => ([], [])
            end
  | _ => ([], [])
  end = ([str "a"; str "b"; str "c"], [str "a"; str "c"; str "b"; str "d"]).
Proof. by vm_compute. Qed.
