(* ===== verification/Bm25.v ===== *)
(** * The inverted index of [src/index/bm25.rs]

    The tokenizer, the index with its lazily deleted documents, the three ways
    to add a document, and the ranked search. The logarithm is libm's and the
    order in which an unstable sort leaves equal elements is unspecified: both
    are parameters. A run of more than [2^32] equal tokens in one document is
    outside the model. *)

From S2P Require Import Prelude Ordered Text Float.
Local Open Scope Z_scope.

(** ** The tokenizer *)
Record Scan := mkScan { s_tokens : list bytes; s_buf : bytes; s_in : bool }.

(** A token is pushed only from a buffer that is not empty. *)
Definition push_token (st : Scan) : Scan :=
  match s_buf st with
  | [] => st
  | w => {| s_tokens := s_tokens st ++ [w]; s_buf := []; s_in := s_in st |}
  end.

(** The camelCase boundary before the byte [b], whose predecessor is [prev]. *)
Definition camel (in_token : bool) (prev : option byte) (b : byte) : bool :=
  is_upper b && in_token && match prev with Some p => is_lower p | None => false end.

Definition scan_byte (prev : option byte) (st : Scan) (b : byte) : Scan :=
  let st1 := if camel (s_in st) prev b then push_token st else st in
  if is_alnum b then {| s_tokens := s_tokens st1; s_buf := s_buf st1 ++ [to_lower b]; s_in := true |}
  else if s_in st1 then
    let st2 := push_token st1 in {| s_tokens := s_tokens st2; s_buf := s_buf st2; s_in := false |}
  else st1.

Fixpoint scan_text (prev : option byte) (st : Scan) (text : bytes) : Scan :=
  match text with
  | [] => st
  | b :: rest => scan_text (Some b) (scan_byte prev st b) rest
  end.

Definition tokenize (text : bytes) : list bytes :=
  s_tokens (push_token (scan_text None (mkScan [] [] false) text)).

(** ** The index *)
Record Bm25Index := mkBm25 {
  docs : list bytes;
  key_to_doc : gmap bytes nat;
  term_pool : list bytes;
  term_ids : gmap bytes Z;
  doc_terms : list (list Z);
  df : gmap Z Z;
  postings : gmap Z (list (nat * Z));
  doc_len : list Z;
  total_doc_len : Z;
  active_docs : Z;
  avgdl : f64;
  k1 : f64;
  b : f64
}.

Definition with_params (k1 b : f64) : Bm25Index :=
  mkBm25 [] ∅ [] ∅ [] ∅ ∅ [] 0 0 f64_zero k1 b.

Definition new : Bm25Index := with_params (f64_lit 3 2) (f64_lit 3 4).

Definition len (ix : Bm25Index) : nat := length (docs ix).
Definition is_empty (ix : Bm25Index) : bool := match docs ix with [] => true | _ => false end.
Definition vocab_size (ix : Bm25Index) : nat := size (term_ids ix).

(** The first statements of every insertion: a new document id and its key. *)
Definition open_doc (ix : Bm25Index) (key : bytes) : Bm25Index * nat :=
  let doc_id := length (docs ix) in
  ({| docs := docs ix ++ [key]; key_to_doc := <[key := doc_id]> (key_to_doc ix);
      term_pool := term_pool ix; term_ids := term_ids ix; doc_terms := doc_terms ix;
      df := df ix; postings := postings ix; doc_len := doc_len ix;
      total_doc_len := total_doc_len ix; active_docs := active_docs ix; avgdl := avgdl ix;
      k1 := k1 ix; b := b ix |}, doc_id).

Definition push_len (ix : Bm25Index) (n : Z) : Bm25Index :=
  {| docs := docs ix; key_to_doc := key_to_doc ix; term_pool := term_pool ix; term_ids := term_ids ix;
     doc_terms := doc_terms ix; df := df ix; postings := postings ix; doc_len := doc_len ix ++ [n];
     total_doc_len := total_doc_len ix; active_docs := active_docs ix; avgdl := avgdl ix;
     k1 := k1 ix; b := b ix |}.

(** The term's id; a new term takes the size of the pool, as a [u32]. *)
Definition intern (ix : Bm25Index) (t : bytes) : Bm25Index * Z :=
  match term_ids ix !! t with
  | Some id => (ix, id)
  | None =>
      let id := u32 (Z.of_nat (length (term_pool ix))) in
      ({| docs := docs ix; key_to_doc := key_to_doc ix; term_pool := term_pool ix ++ [[]];
          term_ids := <[t := id]> (term_ids ix); doc_terms := doc_terms ix; df := df ix;
          postings := postings ix; doc_len := doc_len ix; total_doc_len := total_doc_len ix;
          active_docs := active_docs ix; avgdl := avgdl ix; k1 := k1 ix; b := b ix |}, id)
  end.

Definition add_posting (ix : Bm25Index) (doc_id : nat) (tid freq : Z) : Bm25Index :=
  {| docs := docs ix; key_to_doc := key_to_doc ix; term_pool := term_pool ix; term_ids := term_ids ix;
     doc_terms := doc_terms ix;
     df := <[tid := u32 (default 0 (df ix !! tid) + 1)]> (df ix);
     postings := <[tid := default [] (postings ix !! tid) ++ [(doc_id, freq)]]> (postings ix);
     doc_len := doc_len ix; total_doc_len := total_doc_len ix; active_docs := active_docs ix;
     avgdl := avgdl ix; k1 := k1 ix; b := b ix |}.

(** The last statements of every insertion. *)
Definition close_doc (ix : Bm25Index) (terms : list Z) (n : Z) : Bm25Index :=
  let total := u64 (total_doc_len ix + n) in
  let active := u64 (active_docs ix + 1) in
  {| docs := docs ix; key_to_doc := key_to_doc ix; term_pool := term_pool ix; term_ids := term_ids ix;
     doc_terms := doc_terms ix ++ [terms]; df := df ix; postings := postings ix; doc_len := doc_len ix;
     total_doc_len := total; active_docs := active; avgdl := f64_div (f64_of_Z total) (f64_of_Z active);
     k1 := k1 ix; b := b ix |}.

(** How many further tokens equal [t] at the front of [l]. *)
Fixpoint run_length (t : bytes) (l : list bytes) : nat :=
  match l with
  | x :: l' => if bool_decide (x = t) then S (run_length t l') else O
  | [] => O
  end.

(** The loop over the runs of the sorted tokens; each turn consumes at least one. *)
Fixpoint run_loop (fuel : nat) (doc_id : nat) (ix : Bm25Index) (terms : list Z) (tokens : list bytes)
    : Bm25Index * list Z :=
  match fuel, tokens with
  | S fuel', t :: rest =>
      let freq := S (run_length t rest) in
      let '(ix1, tid) := intern ix t in
      run_loop fuel' doc_id (add_posting ix1 doc_id tid (u32 (Z.of_nat freq))) (terms ++ [tid])
        (drop freq tokens)
  | _, _ => (ix, terms)
  end.

(** The tokens of a document are counted by sorting them; equal tokens are the
    same bytes, so the unstable sort has one result. *)
Definition add_tokens (ix : Bm25Index) (key : bytes) (tokens : list bytes) : Bm25Index :=
  let '(ix1, doc_id) := open_doc ix key in
  let n := u32 (Z.of_nat (length tokens)) in
  let ix2 := push_len ix1 n in
  let sorted := stable_sort bytes_leb tokens in
  let '(ix3, terms) := run_loop (length sorted) doc_id ix2 [] sorted in
  close_doc ix3 terms n.

Definition add_document (ix : Bm25Index) (key content : bytes) : Bm25Index :=
  add_tokens ix key (tokenize content).

Definition add_document_parts (ix : Bm25Index) (key key_text value_text : bytes) : Bm25Index :=
  add_tokens ix key (tokenize key_text ++ tokenize value_text).

(** ** The direct tokenizer: terms are interned and counted as they are read *)
Definition bump (tf : list (Z * Z)) (tid : Z) : list (Z * Z) :=
  match list_find (fun p => p.1 = tid) tf with
  | Some (i, (t, n)) => <[i := (t, u32 (n + 1))]> tf
  | None => tf ++ [(tid, 1)]
  end.

Definition intern_and_count (ix : Bm25Index) (tf : list (Z * Z)) (buf : bytes) : Bm25Index * list (Z * Z) :=
  let '(ix1, tid) := intern ix buf in (ix1, bump tf tid).

Record Direct := mkDirect {
  d_ix : Bm25Index; d_tf : list (Z * Z); d_total : Z; d_buf : bytes; d_in : bool
}.

Definition emit (st : Direct) : Direct :=
  match d_buf st with
  | [] => st
  | w => let '(ix, tf) := intern_and_count (d_ix st) (d_tf st) w in
         mkDirect ix tf (u32 (d_total st + 1)) [] (d_in st)
  end.

Definition direct_byte (prev : option byte) (st : Direct) (b : byte) : Direct :=
  let st1 := if camel (d_in st) prev b then emit st else st in
  if is_alnum b then mkDirect (d_ix st1) (d_tf st1) (d_total st1) (d_buf st1 ++ [to_lower b]) true
  else if d_in st1 then
    let st2 := emit st1 in mkDirect (d_ix st2) (d_tf st2) (d_total st2) (d_buf st2) false
  else st1.

Fixpoint direct_text (prev : option byte) (st : Direct) (text : bytes) : Direct :=
  match text with
  | [] => st
  | b :: rest => direct_text (Some b) (direct_byte prev st b) rest
  end.

(** One turn of [for text in &[key_text, value_text]]; [in_token] starts anew. *)
Definition direct_part (st : Direct) (text : bytes) : Direct :=
  emit (direct_text None (mkDirect (d_ix st) (d_tf st) (d_total st) (d_buf st) false) text).

Definition post_all (doc_id : nat) (ix : Bm25Index) (tf : list (Z * Z)) : Bm25Index :=
  foldl (fun ix p => add_posting ix doc_id p.1 p.2) ix tf.

Definition add_document_direct (ix : Bm25Index) (key key_text value_text : bytes) : Bm25Index :=
  let '(ix1, doc_id) := open_doc ix key in
  let st := foldl direct_part (mkDirect ix1 [] 0 [] false) [key_text; value_text] in
  let ix2 := post_all doc_id (push_len (d_ix st) (d_total st)) (d_tf st) in
  close_doc ix2 (d_tf st).*1 (d_total st).

(** ** Membership and removal *)
Definition contains_key (ix : Bm25Index) (key : bytes) : bool :=
  bool_decide (is_Some (key_to_doc ix !! key)).

Definition remove_document (ix : Bm25Index) (key : bytes) : res unit Bm25Index :=
  match key_to_doc ix !! key with
  | None => Ok ix
  | Some doc_id =>
      removed_len ← index (doc_len ix !! doc_id);
      _ ← index (docs ix !! doc_id);
      let total := Z.max 0 (total_doc_len ix - removed_len) in
      let active := Z.max 0 (active_docs ix - 1) in
      Ok {| docs := <[doc_id := []]> (docs ix); key_to_doc := delete key (key_to_doc ix);
            term_pool := term_pool ix; term_ids := term_ids ix; doc_terms := doc_terms ix;
            df := df ix; postings := postings ix; doc_len := <[doc_id := 0]> (doc_len ix);
            total_doc_len := total; active_docs := active;
            avgdl := if 0 <? active then f64_div (f64_of_Z total) (f64_of_Z active) else f64_zero;
            k1 := k1 ix; b := b ix |}
  end.

(** ** Search *)
Record Bm25Result := mkHit { key : bytes; score : f64; rank : nat }.

Section search.
Variable ln : f64 -> f64.
(** [sort_unstable_by] and [select_nth_unstable_by] of the standard library. *)
Variable sort_unstable_by : (nat * f64 -> nat * f64 -> comparison) -> list (nat * f64) -> list (nat * f64).
Variable select_nth_unstable_by :
  nat -> (nat * f64 -> nat * f64 -> comparison) -> list (nat * f64) -> list (nat * f64).

Definition f64_one : f64 := f64_lit 1 1.
Definition f64_half : f64 := f64_lit 1 2.

Definition idf (n_docs df : f64) : f64 :=
  ln (f64_add (f64_div (f64_add (f64_sub n_docs df) f64_half) (f64_add df f64_half)) f64_one).

(** The contribution of one posting. *)
Definition term_score (k1 b avgdl idf tf dl : f64) : f64 :=
  let denom := f64_add tf (f64_mul k1 (f64_add (f64_sub f64_one b)
                 (f64_div (f64_mul b dl) (f_max avgdl (f64_lit 1 1000000000))))) in
  f64_div (f64_mul idf (f64_mul tf (f64_add k1 f64_one))) denom.

Definition score_posting (ix : Bm25Index) (idf : f64) (acc : res unit (list f64 * list nat)) (p : nat * Z)
    : res unit (list f64 * list nat) :=
  '(scores, touched) ← acc;
  match docs ix !! p.1 with
  | None | Some [] => Ok (scores, touched)
  | Some _ =>
      dl ← index (doc_len ix !! p.1);
      s ← index (scores !! p.1);
      let score := term_score (k1 ix) (b ix) (avgdl ix) idf (f64_of_Z p.2) (f64_of_Z dl) in
      Ok (<[p.1 := f64_add s score]> scores, if f_is_zero s then touched ++ [p.1] else touched)
  end.

Definition score_term (ix : Bm25Index) (acc : res unit (list f64 * list nat)) (term : bytes)
    : res unit (list f64 * list nat) :=
  match term_ids ix !! term with
  | None => acc
  | Some tid =>
      match df ix !! tid with
      | None => acc
      | Some n =>
          let w := idf (f64_of_Z (Z.of_nat (length (docs ix)))) (f64_of_Z n) in
          match postings ix !! tid with
          | None => acc
          | Some ps => foldl (score_posting ix w) acc ps
          end
      end
  end.

Definition by_score (x y : nat * f64) : comparison := f_cmp_desc x.2 y.2.

Definition top (top_k : nat) (candidates : list (nat * f64)) : list (nat * f64) :=
  if (length candidates <=? top_k)%nat then sort_unstable_by by_score candidates
  else sort_unstable_by by_score (take top_k (select_nth_unstable_by top_k by_score candidates)).

Definition to_result (ix : Bm25Index) (rank : nat) (c : nat * f64) : res unit Bm25Result :=
  k ← index (docs ix !! c.1); Ok (mkHit k c.2 rank).

Definition collect (scores : list f64) (touched : list nat) : res unit (list (nat * f64)) :=
  mapM (fun id => s ← index (scores !! id); Ok (id, s)) touched.

Definition search (ix : Bm25Index) (query : bytes) (top_k : nat) : res unit (list Bm25Result) :=
  if is_empty ix || (top_k =? 0)%nat then Ok []
  else
    match tokenize query with
    | [] => Ok []
    | q_terms =>
        '(scores, touched) ← foldl (score_term ix) (Ok (replicate (length (docs ix)) f64_zero, [])) q_terms;
        candidates ← collect scores touched;
        mapM (fun p => to_result ix p.1 p.2) (imap (fun i c => (i, c)) (top top_k candidates))
    end.
End search.

(** ** The tokenizer against its description: separators are inserted at the
    camelCase boundaries, the text is split at what is not alphanumeric, and the
    words that are not empty are lowercased. *)
Fixpoint separate (prev : option byte) (text : bytes) : bytes :=
  match text with
  | [] => []
  | b :: rest => (if camel true prev b then [x20; b] else [b]) ++ separate (Some b) rest
  end.

Fixpoint split_by (p : byte -> bool) (l : bytes) : list bytes :=
  match l with
  | [] => [[]]
  | x :: l' =>
      if p x then [] :: split_by p l'
      else match split_by p l' with w :: ws => (x :: w) :: ws | [] => [[x]] end
  end.

Definition words (l : bytes) : list bytes := split_by (fun b => negb (is_alnum b)) l.

Definition lower (w : bytes) : bytes := to_lower <$> w.

Definition nonempty (ws : list bytes) : list bytes := filter (fun w => w <> []) ws.

Definition tokens_of (text : bytes) : list bytes := nonempty (lower <$> words (separate None text)).

(** The words of a text whose first word continues [buf]. *)
Definition resume (buf : bytes) (ws : list bytes) : list bytes :=
  match ws with [] => [buf] | w :: ws => (buf ++ w) :: ws end.

Lemma split_by_cons p l : exists w ws, split_by p l = w :: ws.
Proof. destruct l as [|x l]; cbn; [eauto|]. destruct (p x); [eauto|]. destruct (split_by p l); eauto. Qed.

Definition scan_ok (prev : option byte) (st : Scan) : Prop :=
  (match prev with Some p => is_lower p = true -> s_in st = true | None => True end) /\
  (s_in st = false -> s_buf st = []).

Lemma push_token_tokens st :
  s_tokens (push_token st) = s_tokens st ++ nonempty [s_buf st] /\
  s_buf (push_token st) = [] /\ s_in (push_token st) = s_in st.
Proof.
  destruct st as [tk [|x w] it]; cbn; [by rewrite app_nil_r|].
  by rewrite decide_True by done.
Qed.

Lemma nonempty_cons w ws : nonempty [w] ++ nonempty ws = nonempty (w :: ws).
Proof. unfold nonempty. by rewrite <- filter_app. Qed.

Lemma camel_in prev st b : scan_ok prev st -> camel (s_in st) prev b = camel true prev b.
Proof.
  intros [Hp _]. unfold camel. destruct prev as [p|]; [|by rewrite !andb_false_r].
  destruct (is_lower p); [by rewrite Hp|by rewrite !andb_false_r].
Qed.

Lemma words_alnum b l : is_alnum b = true -> exists w ws, words l = w :: ws /\ words (b :: l) = (b :: w) :: ws.
Proof.
  intros Hb. destruct (split_by_cons (fun b => negb (is_alnum b)) l) as (w & ws & E).
  exists w, ws. split; [done|]. unfold words in *. cbn. by rewrite Hb, E.
Qed.

Lemma words_sep b l : is_alnum b = false -> words (b :: l) = [] :: words l.
Proof. intros Hb. unfold words. cbn. by rewrite Hb. Qed.

Lemma scan_text_tokens text : forall prev st, scan_ok prev st ->
  s_tokens (push_token (scan_text prev st text)) =
  s_tokens st ++ nonempty (resume (s_buf st) (lower <$> words (separate prev text))).
Proof.
  induction text as [|b text IH]; intros prev st Hst.
  { cbn [scan_text separate]. rewrite (proj1 (push_token_tokens st)). cbn. by rewrite app_nil_r. }
  cbn [scan_text separate]. unfold scan_byte. rewrite (camel_in prev st b Hst).
  assert (forall st', s_in st' = s_in st -> scan_ok (Some b) {| s_tokens := s_tokens st'; s_buf := s_buf st' ++ [to_lower b]; s_in := true |}) as Hal
    by (intros; split; cbn; done).
  destruct (camel true prev b) eqn:Ec.
  - assert (is_alnum b = true) as Hb.
    { unfold camel in Ec. apply andb_prop in Ec as [Ec _]. apply andb_prop in Ec as [Ec _]. by apply is_upper_alnum. }
    rewrite Hb. rewrite IH by (by apply Hal, push_token_tokens). cbn [s_tokens s_buf].
    destruct (push_token_tokens st) as (-> & -> & _). cbn [app].
    rewrite words_sep by done. destruct (words_alnum b (separate (Some b) text) Hb) as (w & ws & -> & ->).
    rewrite <- app_assoc. f_equal. cbn [fmap list_fmap resume]. rewrite app_nil_r.
    apply (nonempty_cons (s_buf st)).
  - cbn [app]. destruct (is_alnum b) eqn:Hb.
    + rewrite IH by (by apply Hal). cbn [s_tokens s_buf].
      destruct (words_alnum b (separate (Some b) text) Hb) as (w & ws & -> & ->). cbn. by rewrite <- app_assoc.
    + assert (is_lower b = true -> False) as Hl by (intros Hl%is_lower_alnum; congruence).
      rewrite words_sep by done. destruct (words (separate (Some b) text)) as [|w ws] eqn:Ew.
      { destruct (split_by_cons (fun b => negb (is_alnum b)) (separate (Some b) text)) as (? & ? & E). unfold words in Ew. congruence. }
      destruct (s_in st) eqn:Ein.
      * rewrite IH by (split; cbn; [done|intros _; apply push_token_tokens]). cbn [s_tokens s_buf].
        destruct (push_token_tokens st) as (-> & -> & _). rewrite Ew, <- app_assoc. f_equal.
        cbn [fmap list_fmap resume app lower]. rewrite app_nil_r. apply (nonempty_cons (s_buf st)).
      * rewrite IH by (split; [intros; exfalso; auto|by apply Hst]). f_equal.
        destruct Hst as [_ Hst]. rewrite (Hst Ein), Ew. cbn. done.
Qed.

(** The tokenizer yields the words of its description. *)
Lemma tokenize_tokens_of text : tokenize text = tokens_of text.
Proof.
  unfold tokenize. rewrite scan_text_tokens by done. cbn [s_tokens s_buf app]. unfold tokens_of, words.
  destruct (split_by_cons (fun b => negb (is_alnum b)) (separate None text)) as (w & ws & ->). done.
Qed.

Example tokenize_camel : tokenize (str "getUserById and validate_token") =
  str <$> ["get"; "user"; "by"; "id"; "and"; "validate"; "token"]%string.
Proof. vm_compute. reflexivity. Qed.

(** ** The abstract index

    A sequence of documents with their tokens. A document is found by its key
    until it is removed or another document is added under the same key, which
    leaves it searchable but out of reach of [remove_document]. *)
Inductive Status := Indexed | Orphan | Removed.

#[export] Instance status_eq_dec : EqDecision Status.
Proof. solve_decision. Defined.

Record Doc := mkDoc { dkey : bytes; dtoks : list bytes; dstatus : Status }.

Definition set_status (k : bytes) (s : Status) (d : Doc) : Doc :=
  if bool_decide (dkey d = k /\ dstatus d = Indexed) then mkDoc (dkey d) (dtoks d) s else d.

Definition spec_add (ds : list Doc) (k : bytes) (toks : list bytes) : list Doc :=
  (set_status k Orphan <$> ds) ++ [mkDoc k toks Indexed].

Definition spec_remove (ds : list Doc) (k : bytes) : list Doc := set_status k Removed <$> ds.

Definition live (d : Doc) : bool := bool_decide (dstatus d <> Removed).
Definition stored_key (d : Doc) : bytes := if live d then dkey d else [].
Definition stored_len (d : Doc) : Z := if live d then Z.of_nat (length (dtoks d)) else 0.

Definition count (t : bytes) (l : list bytes) : nat := length (filter (fun x => x = t) l).

(** The postings of a term: the documents that contain it, oldest first, with the
    number of its occurrences. *)
Definition doc_postings (t : bytes) (i : nat) (d : Doc) : list (nat * Z) :=
  match count t (dtoks d) with O => [] | n => [(i, Z.of_nat n)] end.

Definition posting_list (t : bytes) (ds : list Doc) : list (nat * Z) := mjoin (imap (doc_postings t) ds).

(** Documents, tokens and terms stay below [2^32]. *)
Definition volume (ds : list Doc) : nat := sum_list ((fun d => S (length (dtoks d))) <$> ds).
Definition fits (ds : list Doc) : Prop := Z.of_nat (volume ds) < 2 ^ 32.

(** The part of the invariant on terms: distinct ids below the pool's size, and the
    postings [F t] and document frequency of each term. *)
Record terms_ok (ix : Bm25Index) (F : bytes -> list (nat * Z)) : Prop := {
  to_inj : forall t t' id, term_ids ix !! t = Some id -> term_ids ix !! t' = Some id -> t = t';
  to_range : forall t id, term_ids ix !! t = Some id -> 0 <= id < Z.of_nat (length (term_pool ix));
  to_post : forall t id, term_ids ix !! t = Some id -> default [] (postings ix !! id) = F t;
  to_df : forall t id, term_ids ix !! t = Some id -> default 0 (df ix !! id) = Z.of_nat (length (F t));
  to_unknown : forall t, term_ids ix !! t = None -> F t = [];
  to_fresh : forall id, Z.of_nat (length (term_pool ix)) <= id -> postings ix !! id = None /\ df ix !! id = None
}.

Record bm25_repr (ix : Bm25Index) (ds : list Doc) : Prop := {
  rp_docs : docs ix = stored_key <$> ds;
  rp_lens : doc_len ix = stored_len <$> ds;
  rp_keys : forall k i, key_to_doc ix !! k = Some i <->
    exists d, ds !! i = Some d /\ dkey d = k /\ dstatus d = Indexed;
  rp_terms : terms_ok ix (fun t => posting_list t ds);
  rp_pool : (length (term_pool ix) <= volume ds)%nat;
  rp_doc_terms : length (doc_terms ix) = length ds;
  rp_total : total_doc_len ix = foldr Z.add 0 (stored_len <$> ds);
  rp_active : active_docs ix = Z.of_nat (length (filter (fun d => live d = true) ds));
  rp_avgdl : avgdl ix = if 0 <? active_docs ix
    then f64_div (f64_of_Z (total_doc_len ix)) (f64_of_Z (active_docs ix)) else f64_zero
}.

Lemma with_params_repr p q : bm25_repr (with_params p q) [].
Proof.
  split; try done. intros k i. cbn. rewrite lookup_empty. split; [done|]. intros (d & H & _).
  by rewrite lookup_nil in H.
Qed.

(** Interning keeps the terms, gives the term an id, and changes nothing else. *)
Lemma intern_ok ix F t : terms_ok ix F -> Z.of_nat (length (term_pool ix)) < 2 ^ 32 ->
  let '(ix', id) := intern ix t in
  terms_ok ix' F /\ term_ids ix' !! t = Some id /\ (length (term_pool ix') <= S (length (term_pool ix)))%nat /\
  (forall t' id', term_ids ix !! t' = Some id' -> term_ids ix' !! t' = Some id').
Proof.
  intros Hok Hb. pose proof Hok as [Hi Hr Hp Hd Hu Hf]. unfold intern. destruct (term_ids ix !! t) as [id|] eqn:E; [split_and!; auto; lia|].
  rewrite wrap_small by lia. cbn.
  destruct (Hf (Z.of_nat (length (term_pool ix))) ltac:(lia)) as [Hnp Hnd].
  split_and!; [|by rewrite lookup_insert_eq|rewrite length_app; cbn; lia|].
  - split; cbn.
    + intros t1 t2 id [[<- <-]|[? H1]]%lookup_insert_Some [[<- ?]|[? H2]]%lookup_insert_Some; [done|..|by eauto].
      * apply Hr in H2. lia.
      * subst. apply Hr in H1. lia.
    + intros t1 id [[<- <-]|[? H1]]%lookup_insert_Some; rewrite length_app; cbn; [lia|]. apply Hr in H1. lia.
    + intros t1 id [[<- <-]|[? H1]]%lookup_insert_Some; [|by apply Hp]. by rewrite Hnp, Hu.
    + intros t1 id [[<- <-]|[? H1]]%lookup_insert_Some; [|by apply Hd]. by rewrite Hnd, Hu.
    + intros t1 [H1 _]%lookup_insert_None. by apply Hu.
    + intros id Hid. rewrite length_app in Hid. apply Hf. lia.
  - intros t' id' H'. rewrite lookup_insert_ne; [done|]. congruence.
Qed.

Lemma add_posting_ok ix F doc t id n : terms_ok ix F -> term_ids ix !! t = Some id ->
  Z.of_nat (length (F t)) + 1 < 2 ^ 32 ->
  terms_ok (add_posting ix doc id n) (fun t' => if decide (t' = t) then F t ++ [(doc, n)] else F t').
Proof.
  intros [Hi Hr Hp Hd Hu Hf] Ht Hb. split; cbn; [done|done| | | |].
  - intros t' id' H'. destruct (decide (t' = t)) as [->|Hne].
    + simplify_eq. rewrite lookup_insert_eq. cbn. by rewrite (Hp t).
    + rewrite lookup_insert_ne by (intros ->; eauto). by apply Hp.
  - intros t' id' H'. destruct (decide (t' = t)) as [->|Hne].
    + simplify_eq. rewrite lookup_insert_eq. cbn. rewrite (Hd t) by done. rewrite length_app. cbn.
      rewrite wrap_small; lia.
    + rewrite lookup_insert_ne by (intros ->; eauto). by apply Hd.
  - intros t' H'. destruct (decide (t' = t)); [congruence|]. by apply Hu.
  - intros id' Hid'. pose proof (Hr t id Ht). rewrite !lookup_insert_ne by lia. by apply Hf.
Qed.

(** An equal family of postings represents the same index. *)
Lemma terms_ok_ext ix F G : (forall t, F t = G t) -> terms_ok ix F -> terms_ok ix G.
Proof. intros E [Hi Hr Hp Hd Hu Hf]. split; try done; intros; rewrite <- E; eauto. Qed.

(** What interning and posting leave alone. *)
Definition same_docs (ix ix' : Bm25Index) : Prop :=
  docs ix' = docs ix /\ key_to_doc ix' = key_to_doc ix /\ doc_terms ix' = doc_terms ix /\
  doc_len ix' = doc_len ix /\ total_doc_len ix' = total_doc_len ix /\ active_docs ix' = active_docs ix /\
  avgdl ix' = avgdl ix /\ k1 ix' = k1 ix /\ b ix' = b ix.

#[export] Instance same_docs_preorder : PreOrder same_docs.
Proof. split; [by intros ix|]. unfold same_docs. intros x y z H1 H2. destruct_and!. split_and!; congruence. Qed.

Lemma intern_same ix t : same_docs ix (intern ix t).1.
Proof. unfold intern. by destruct (term_ids ix !! t). Qed.

Lemma count_cons t x l : count t (x :: l) = ((if decide (x = t) then 1 else 0) + count t l)%nat.
Proof. unfold count. rewrite filter_cons. by destruct (decide (x = t)). Qed.

Lemma count_app t l l' : count t (l ++ l') = (count t l + count t l')%nat.
Proof. unfold count. by rewrite filter_app, length_app. Qed.

Lemma count_zero t l : count t l = 0%nat <-> t ∉ l.
Proof.
  unfold count. rewrite length_zero_iff_nil. split.
  - intros E Hin. assert (t ∈ filter (fun x => x = t) l) as H by (by apply list_elem_of_filter).
    rewrite E in H. by apply not_elem_of_nil in H.
  - intros Hn. apply filter_none, Forall_forall. by intros x Hx ->.
Qed.

Lemma count_perm t l l' : l ≡ₚ l' -> count t l = count t l'.
Proof. intros H. unfold count. by rewrite H. Qed.

Lemma count_le t l : (count t l <= length l)%nat.
Proof. unfold count. apply length_filter. Qed.

Lemma run_length_split t l : exists rest, (l = replicate (run_length t l) t ++ rest) /\ head rest <> Some t.
Proof.
  induction l as [|x l (rest & E & H)]; [by exists []|]. cbn. destruct (bool_decide_reflect (x = t)) as [->|Hne].
  - exists rest. cbn. by rewrite <- E.
  - exists (x :: l). split; [done|]. cbn. congruence.
Qed.

Abbreviation ascending := (StronglySorted (fun x y => bytes_leb x y = true)).

Lemma bytes_sorted (l : list bytes) : ascending (stable_sort bytes_leb l).
Proof. apply (stable_sort_sorted bytes_leb (key_leb_total (fun x => x)) (key_leb_trans (fun x => x))). Qed.

Lemma sorted_drop n (l : list bytes) : ascending l -> ascending (drop n l).
Proof.
  intros Hs. revert n. induction Hs as [|x l Hs IH]; intros [|n]; cbn; auto; by constructor.
Qed.

(** The first run of an ascending list is every occurrence of its first token. *)
Lemma first_run t rest : ascending (t :: rest) ->
  count t rest = run_length t rest /\ (t ∉ drop (run_length t rest) rest) /\
  (forall t', t' <> t -> count t' rest = count t' (drop (run_length t rest) rest)).
Proof.
  intros [Hs Ht]%StronglySorted_inv. destruct (run_length_split t rest) as (l & E & Hh).
  set (n := run_length t rest) in *. assert (drop n rest = l) as -> by (rewrite E; apply drop_app_length'; by rewrite length_replicate).
  assert (t ∉ l) as Hn.
  { intros Hin. destruct l as [|x l]; [by apply not_elem_of_nil in Hin|]. cbn in Hh.
    assert (ascending (x :: l)) as [_ Hx]%StronglySorted_inv.
    { rewrite E in Hs. revert Hs. generalize (replicate n t). intros l1 Hs. induction l1; [done|].
      apply IHl1. apply StronglySorted_inv in Hs as [Hs _]. exact Hs. }
    assert (bytes_leb t x = true) as Hle.
    { rewrite Forall_forall in Ht. apply Ht. rewrite E. set_solver. }
    apply elem_of_cons in Hin as [->|Hin]; [done|]. rewrite Forall_forall in Hx. specialize (Hx t Hin).
    apply bytes_leb_le, bytes_le_lt_eq in Hx as [Hx|Hx]; [|congruence].
    apply bytes_leb_le in Hle. by apply (bytes_nlt_le x t) in Hle. }
  assert (forall t', count t' (replicate n t) = if decide (t = t') then n else 0%nat) as Hrep.
  { intros t'. clear. induction n as [|n IH]; cbn [replicate]; [by destruct (decide _)|]. rewrite count_cons, IH.
    by destruct (decide (t = t')). }
  split_and!; [|done|].
  - rewrite E, count_app, Hrep, decide_True by done. rewrite (proj2 (count_zero t l) Hn). lia.
  - intros t' Hne. by rewrite E at 1; rewrite count_app, Hrep, decide_False.
Qed.

(** The postings of a term after a document's tokens have been entered. *)
Definition with_doc (doc : nat) (toks : list bytes) (F : bytes -> list (nat * Z)) (t : bytes) : list (nat * Z) :=
  F t ++ match count t toks with O => [] | n => [(doc, Z.of_nat n)] end.

Lemma run_loop_ok fuel doc : forall F ix terms tokens, (length tokens <= fuel)%nat -> ascending tokens ->
  terms_ok ix F -> Z.of_nat (length (term_pool ix) + length tokens) < 2 ^ 32 ->
  (forall t, t ∈ tokens -> Z.of_nat (length (F t)) + 1 < 2 ^ 32) ->
  let '(ix', terms') := run_loop fuel doc ix terms tokens in
  terms_ok ix' (with_doc doc tokens F) /\ same_docs ix ix' /\
  (length (term_pool ix') <= length (term_pool ix) + length tokens)%nat.
Proof.
  induction fuel as [|fuel IH]; intros F ix terms tokens Hlen Hs Hok Hb HF.
  { destruct tokens; [|cbn in Hlen; lia]. cbn. split_and!; [|done|lia].
    eapply terms_ok_ext; [|exact Hok]. intros t. unfold with_doc. by rewrite app_nil_r. }
  destruct tokens as [|t rest]; cbn [run_loop].
  { split_and!; [|done|cbn; lia]. eapply terms_ok_ext; [|exact Hok]. intros t. unfold with_doc. by rewrite app_nil_r. }
  destruct (first_run t rest Hs) as (Hc & Hn & Hother). cbn [length drop] in *.
  pose proof (intern_ok ix F t Hok ltac:(lia)) as Hi. pose proof (intern_same ix t) as Hsame.
  destruct (intern ix t) as [ix1 id]. destruct Hi as (Hok1 & Hid & Hp1 & _). cbn in Hsame.
  set (n := run_length t rest) in *. assert (n <= length rest)%nat as Hnr by (rewrite <- Hc; apply count_le).
  rewrite (wrap_small 32 (Z.of_nat (S n))) by lia.
  pose proof (add_posting_ok ix1 F doc t id (Z.of_nat (S n)) Hok1 Hid (HF t ltac:(left))) as Hok2.
  assert (ascending (drop n rest)) as Hs2 by (apply sorted_drop; by apply StronglySorted_inv in Hs as [Hs _]).
  specialize (IH _ (add_posting ix1 doc id (Z.of_nat (S n))) (terms ++ [id]) (drop n rest)
    ltac:(rewrite length_drop; lia) Hs2 Hok2 ltac:(rewrite length_drop; cbn; lia)).
  destruct (run_loop fuel doc _ _ _) as [ix' terms']. destruct IH as (Hok' & Hsame' & Hp').
  { intros t' Hin. rewrite decide_False by (by intros ->). apply HF. right. by eapply elem_of_drop_sub. }
  split_and!; [| |rewrite length_drop in Hp'; cbn in Hp'; lia].
  - eapply terms_ok_ext; [|exact Hok']. intros t'. unfold with_doc. rewrite count_cons.
    destruct (decide (t' = t)) as [->|Hne].
    + rewrite (proj2 (count_zero t _) Hn), decide_True, Hc by done. cbn. by rewrite app_nil_r.
    + by rewrite decide_False, (Hother t' Hne) by done.
  - etransitivity; [exact Hsame|]. etransitivity; [|exact Hsame']. done.
Qed.

(** ** The direct tokenizer counts the tokens of [tokenize] *)
Definition count_token (acc : Bm25Index * list (Z * Z) * Z) (w : bytes) : Bm25Index * list (Z * Z) * Z :=
  let '(ix, tf) := intern_and_count acc.1.1 acc.1.2 w in (ix, tf, u32 (acc.2 + 1)).

Definition counts (st : Direct) : Bm25Index * list (Z * Z) * Z := (d_ix st, d_tf st, d_total st).

Definition direct_sim (acc : Bm25Index * list (Z * Z) * Z) (st : Direct) (sc : Scan) : Prop :=
  counts st = foldl count_token acc (s_tokens sc) /\ d_buf st = s_buf sc /\ d_in st = s_in sc.

Lemma emit_sim acc st sc : direct_sim acc st sc -> direct_sim acc (emit st) (push_token sc).
Proof.
  intros (Hc & Hb & Hi). unfold emit, push_token. rewrite Hb. destruct (s_buf sc) as [|x w] eqn:E; [split; [exact Hc|split; congruence]|].
  destruct (intern_and_count (d_ix st) (d_tf st) (x :: w)) as [ix tf] eqn:Ei. split_and!; [|done|done]. cbn [s_tokens].
  rewrite foldl_app, <- Hc. cbn [foldl]. unfold count_token, counts. cbn [fst snd d_ix d_tf d_total]. by rewrite Ei.
Qed.

Lemma direct_byte_sim acc prev st sc b : direct_sim acc st sc -> direct_sim acc (direct_byte prev st b) (scan_byte prev sc b).
Proof.
  intros H. unfold direct_byte, scan_byte. replace (d_in st) with (s_in sc) by (symmetry; apply H).
  assert (direct_sim acc (if camel (s_in sc) prev b then emit st else st)
            (if camel (s_in sc) prev b then push_token sc else sc)) as H1.
  { destruct (camel (s_in sc) prev b); [by apply emit_sim|done]. }
  revert H1. generalize (if camel (s_in sc) prev b then emit st else st).
  generalize (if camel (s_in sc) prev b then push_token sc else sc). intros sc1 st1 H1.
  pose proof H1 as (Hc & Hb & Hi). rewrite Hi. destruct (is_alnum b).
  { split; [exact Hc|]. split; [|done]. cbn. by rewrite Hb. }
  destruct (s_in sc1); [|exact H1]. destruct (emit_sim acc st1 sc1 H1) as (Hc' & Hb' & _).
  split; [exact Hc'|]. by split.
Qed.

Lemma direct_text_sim acc text : forall prev st sc, direct_sim acc st sc ->
  direct_sim acc (direct_text prev st text) (scan_text prev sc text).
Proof. induction text as [|x text IH]; intros prev st sc H; cbn; [done|]. by apply IH, direct_byte_sim. Qed.

Lemma direct_part_counts st text : d_buf st = [] ->
  counts (direct_part st text) = foldl count_token (counts st) (tokenize text) /\ d_buf (direct_part st text) = [].
Proof.
  intros Hb. unfold direct_part, tokenize.
  assert (direct_sim (counts st) (emit (direct_text None (mkDirect (d_ix st) (d_tf st) (d_total st) (d_buf st) false) text))
    (push_token (scan_text None (mkScan [] [] false) text))) as (Hc & Hb' & _) by (by apply emit_sim, direct_text_sim).
  split; [done|]. rewrite Hb'. apply push_token_tokens.
Qed.

(** ** Counting by ids *)
Definition counted (ix : Bm25Index) (tf : list (Z * Z)) (ws : list bytes) : Prop :=
  NoDup tf.*1 /\ (forall t, t ∈ ws -> exists id, term_ids ix !! t = Some id /\ (id ∈ tf.*1)) /\
  (forall id n, (id, n) ∈ tf -> exists t, term_ids ix !! t = Some id /\ t ∈ ws /\ n = Z.of_nat (count t ws)).

Lemma bump_ok tf id : NoDup tf.*1 ->
  NoDup (bump tf id).*1 /\ (forall i, i ∈ (bump tf id).*1 <-> i ∈ tf.*1 \/ i = id) /\
  (forall i m, (i, m) ∈ bump tf id -> (i <> id /\ (i, m) ∈ tf) \/
     (i = id /\ ((exists n, (id, n) ∈ tf /\ m = u32 (n + 1)) \/ ((id ∉ tf.*1) /\ m = 1)))).
Proof.
  intros Hnd. unfold bump. destruct (list_find (fun p => p.1 = id) tf) as [[i [t n]]|] eqn:E.
  - apply list_find_Some in E as (Hi & Ht & _). cbn in Ht. subst t.
    assert ((<[i := (id, u32 (n + 1))]> tf).*1 = tf.*1) as Hf.
    { rewrite list_fmap_insert. apply list_insert_id. by rewrite list_lookup_fmap, Hi. }
    rewrite Hf. split_and!; [done| |].
    + intros j. split; [by left|]. intros [?| ->]; [done|]. apply list_elem_of_fmap. exists (id, n).
      split; [done|]. by eapply list_elem_of_lookup_2.
    + intros j m [p Hp]%list_elem_of_lookup. destruct (decide (p = i)) as [->|Hne].
      * rewrite list_lookup_insert_eq in Hp by (by eapply lookup_lt_Some). injection Hp as <- <-. right. split; [done|].
        left. exists n. split; [|done]. by eapply list_elem_of_lookup_2.
      * rewrite list_lookup_insert_ne in Hp by done. left. split; [|by eapply list_elem_of_lookup_2].
        intros ->. apply Hne. eapply (NoDup_lookup tf.*1); [done| |]; by rewrite list_lookup_fmap, ?Hp, ?Hi.
  - apply list_find_None in E. rewrite Forall_forall in E.
    assert (id ∉ tf.*1) as Hn by (intros ([i n] & -> & Hin)%list_elem_of_fmap; by apply (E _ Hin)).
    rewrite fmap_app. cbn. split_and!.
    + apply NoDup_app. split_and!; [done| |apply NoDup_singleton]. intros x Hx ->%list_elem_of_singleton. done.
    + intros i. rewrite elem_of_app, list_elem_of_singleton. done.
    + intros i m [Hin|[= -> ->]%list_elem_of_singleton]%elem_of_app; [|by right; split; [|right]].
      left. split; [|done]. intros ->. apply Hn, list_elem_of_fmap. by exists (id, m).
Qed.

Lemma count_token_ok F ix tf n ws w : terms_ok ix F -> counted ix tf ws ->
  Z.of_nat (length (term_pool ix)) < 2 ^ 32 -> Z.of_nat (length ws) + 1 < 2 ^ 32 -> n = Z.of_nat (length ws) ->
  let '(ix', tf', n') := count_token (ix, tf, n) w in
  terms_ok ix' F /\ counted ix' tf' (ws ++ [w]) /\ n' = Z.of_nat (length (ws ++ [w])) /\ same_docs ix ix' /\
  (length (term_pool ix') <= S (length (term_pool ix)))%nat.
Proof.
  intros Hok (Hnd & Hin & Hof) Hp Hl ->. unfold count_token, intern_and_count. cbn [fst snd].
  pose proof (intern_ok ix F w Hok Hp) as Hi. pose proof (intern_same ix w) as Hsame.
  destruct (intern ix w) as [ix1 id]. destruct Hi as (Hok1 & Hid & Hp1 & Hext). cbn in Hsame.
  destruct (bump_ok tf id Hnd) as (Hnd' & Hids & Hvals).
  split_and!; try done; [..|rewrite wrap_small by lia; rewrite length_app; cbn; lia].
  split_and!; [done| |].
  - intros t [Ht| ->%list_elem_of_singleton]%elem_of_app; [|exists id; split; [done|]; apply Hids; by right].
    destruct (Hin t Ht) as (i & Hi & Htf). exists i. split; [by apply Hext|]. apply Hids. by left.
  - intros i m Him. destruct (Hvals i m Him) as [[Hne Him']|[-> [(k & Hk & ->)|[Hnin ->]]]].
    + destruct (Hof i m Him') as (t & Ht & Htw & ->). exists t. split; [by apply Hext|]. split; [set_solver|].
      rewrite count_app, count_cons. rewrite decide_False; [cbn; lia|]. intros ->. apply Hext in Ht. congruence.
    + destruct (Hof id k Hk) as (t & Ht & Htw & ->). apply Hext in Ht.
      assert (t = w) as -> by (by eapply to_inj). exists w. split; [done|]. split; [set_solver|].
      rewrite count_app, count_cons, decide_True by done. pose proof (count_le w ws). cbn. rewrite wrap_small by lia. lia.
    + exists w. split; [done|]. split; [set_solver|]. rewrite count_app, count_cons, decide_True by done. cbn.
      rewrite (proj2 (count_zero w ws)); [done|]. intros Hw. destruct (Hin w Hw) as (i & Hi & Htf).
      apply Hext in Hi. congruence.
Qed.

Lemma count_tokens_ok F ws' : forall ix tf n ws, terms_ok ix F -> counted ix tf ws ->
  Z.of_nat (length (term_pool ix) + length ws') < 2 ^ 32 -> Z.of_nat (length ws + length ws') < 2 ^ 32 ->
  n = Z.of_nat (length ws) ->
  let '(ix', tf', n') := foldl count_token (ix, tf, n) ws' in
  terms_ok ix' F /\ counted ix' tf' (ws ++ ws') /\ n' = Z.of_nat (length (ws ++ ws')) /\ same_docs ix ix' /\
  (length (term_pool ix') <= length (term_pool ix) + length ws')%nat.
Proof.
  induction ws' as [|w ws' IH]; intros ix tf n ws Hok Hc Hp Hl Hn; cbn [foldl].
  { rewrite app_nil_r. split_and!; [done..|lia]. }
  cbn [length] in *. pose proof (count_token_ok F ix tf n ws w Hok Hc ltac:(lia) ltac:(lia) Hn) as H1.
  destruct (count_token (ix, tf, n) w) as [[ix1 tf1] n1]. destruct H1 as (Hok1 & Hc1 & Hn1 & Hs1 & Hp1).
  specialize (IH ix1 tf1 n1 (ws ++ [w]) Hok1 Hc1 ltac:(lia) ltac:(rewrite length_app; cbn; lia) Hn1).
  destruct (foldl count_token (ix1, tf1, n1) ws') as [[ix' tf'] n']. rewrite <- app_assoc in IH. cbn in IH.
  destruct IH as (? & ? & ? & ? & ?). split_and!; [done..|by etransitivity|lia].
Qed.

Lemma Forall_choose {A B} (P : A -> B -> Prop) l : Forall (fun x => exists y, P x y) l -> exists l', Forall2 P l l'.
Proof. induction 1 as [|x l [y Hy] _ [l' Hl']]; [by exists []|]. exists (y :: l'). by constructor. Qed.

Definition doc_entry (doc : nat) (o : option Z) : list (nat * Z) :=
  match o with Some n => [(doc, n)] | None => [] end.

Lemma post_all_ok doc tf : forall rs F ix, Forall2 (fun p r => term_ids ix !! r.1 = Some p.1 /\ p.2 = r.2) tf rs ->
  NoDup rs.*1 -> terms_ok ix F -> (forall t, Z.of_nat (length (F t)) + 1 < 2 ^ 32) ->
  terms_ok (post_all doc ix tf) (fun t => F t ++ doc_entry doc ((list_to_map rs : gmap bytes Z) !! t)) /\
  same_docs ix (post_all doc ix tf) /\ term_pool (post_all doc ix tf) = term_pool ix.
Proof.
  enough (forall rs F ix, Forall2 (fun p r => term_ids ix !! r.1 = Some p.1 /\ p.2 = r.2) tf rs ->
    NoDup rs.*1 -> terms_ok ix F -> (forall t, t ∈ rs.*1 -> Z.of_nat (length (F t)) + 1 < 2 ^ 32) ->
    terms_ok (post_all doc ix tf) (fun t => F t ++ doc_entry doc ((list_to_map rs : gmap bytes Z) !! t)) /\
    same_docs ix (post_all doc ix tf) /\ term_pool (post_all doc ix tf) = term_pool ix) as H by eauto.
  induction tf as [|[id n] tf IH]; intros rs F ix Hall Hnd Hok HF.
  - apply Forall2_nil_inv_l in Hall as ->. cbn. split_and!; [|done..].
    eapply terms_ok_ext; [|exact Hok]. intros t. by rewrite lookup_empty, app_nil_r.
  - apply Forall2_cons_inv_l in Hall as ([t n'] & rs' & [Hid Hn'] & Hall & ->). cbn [fst snd] in *. subst n'.
    cbn in Hnd. apply NoDup_cons in Hnd as [Hni Hnd]. change (post_all doc ix ((id, n) :: tf)) with (post_all doc (add_posting ix doc id n) tf).
    pose proof (add_posting_ok ix F doc t id n Hok Hid ltac:(apply HF; left)) as Hok1.
    destruct (IH rs' _ (add_posting ix doc id n) Hall Hnd Hok1) as (Hok' & Hs & Hp).
    { intros t' Ht'. rewrite decide_False by (by intros ->). apply HF. by right. }
    split_and!; [|exact Hs|exact Hp]. eapply terms_ok_ext; [|exact Hok']. intros t'. cbn.
    destruct (decide (t' = t)) as [->|Hne].
    + rewrite lookup_insert_eq, (not_elem_of_list_to_map_1 rs' t Hni). cbn. by rewrite app_nil_r.
    + by rewrite lookup_insert_ne by done.
Qed.

(** The counts by id, posted, are the counts by term. *)
Lemma post_counted_ok doc F ix tf ws : terms_ok ix F -> counted ix tf ws ->
  (forall t, Z.of_nat (length (F t)) + 1 < 2 ^ 32) ->
  terms_ok (post_all doc ix tf) (with_doc doc ws F) /\ same_docs ix (post_all doc ix tf) /\
  term_pool (post_all doc ix tf) = term_pool ix.
Proof.
  intros Hok (Hnd & Hin & Hof) HF.
  assert (exists rs, Forall2 (fun p r => term_ids ix !! r.1 = Some p.1 /\ p.2 = r.2 /\ r.1 ∈ ws /\ r.2 = Z.of_nat (count r.1 ws)) tf rs)
    as [rs Hrs].
  { apply Forall_choose, Forall_forall. intros [id n] Hp. destruct (Hof id n Hp) as (t & Ht & Htw & ->).
    by exists (t, Z.of_nat (count t ws)). }
  assert (NoDup rs.*1) as Hnd'.
  { clear Hin Hof HF. revert Hnd. induction Hrs as [|[id n] [t n'] tf rs (Ht & _) Hrs IH]; cbn; intros Hnd; [constructor|].
    apply NoDup_cons in Hnd as [Hni Hnd]. constructor; [|by apply IH].
    intros ([t' m] & -> & [i Hr]%list_elem_of_lookup)%list_elem_of_fmap. cbn [fst] in *.
    destruct (Forall2_lookup_r _ _ _ i _ Hrs Hr) as ([id' m'] & Hi & Ht' & _). cbn in Ht, Ht'. apply Hni.
    assert (id' = id) as -> by congruence. apply list_elem_of_fmap. exists (id, m'). split; [done|].
    by eapply list_elem_of_lookup_2. }
  destruct (post_all_ok doc tf rs F ix) as (Hok' & Hs & Hp); try done.
  { eapply Forall2_impl; [exact Hrs|]. naive_solver. }
  split_and!; [|done|done]. eapply terms_ok_ext; [|exact Hok']. intros t. cbn beta. unfold with_doc. f_equal.
  destruct (count t ws) as [|n] eqn:Ec.
  - rewrite (not_elem_of_list_to_map_1 rs t); [done|]. intros ([t' m] & -> & [i Hr]%list_elem_of_lookup)%list_elem_of_fmap.
    destruct (Forall2_lookup_r _ _ _ i _ Hrs Hr) as (p & _ & _ & _ & Hw & _). by apply count_zero in Ec.
  - assert (t ∈ ws) as Hw by (apply dec_stable; intros Hw; apply count_zero in Hw; lia).
    destruct (Hin t Hw) as (id & Hid & ([id' m] & -> & [i Hi]%list_elem_of_lookup)%list_elem_of_fmap).
    destruct (Forall2_lookup_l _ _ _ i _ Hrs Hi) as ([t' m'] & Hr & Ht' & _ & _ & Hm). cbn in *.
    assert (t' = t) as -> by (by eapply (to_inj ix F Hok)). subst m'. rewrite Ec in Hr.
    rewrite (elem_of_list_to_map_1 rs t (Z.of_nat (S n))); [done|done|]. by eapply list_elem_of_lookup_2.
Qed.

(** ** Insertion *)
Lemma stored_orphan k d : stored_key (set_status k Orphan d) = stored_key d /\
  stored_len (set_status k Orphan d) = stored_len d /\ live (set_status k Orphan d) = live d.
Proof.
  unfold set_status. destruct (bool_decide_reflect (dkey d = k /\ dstatus d = Indexed)) as [[? H]|]; [|done].
  unfold stored_key, stored_len, live. cbn. by rewrite H.
Qed.

Lemma set_status_toks k s d : dtoks (set_status k s d) = dtoks d /\ dkey (set_status k s d) = dkey d.
Proof. unfold set_status. by destruct (bool_decide _). Qed.

Lemma posting_list_status t k s ds : posting_list t (set_status k s <$> ds) = posting_list t ds.
Proof.
  unfold posting_list. f_equal. rewrite imap_fmap. apply imap_ext. intros i d _. cbn.
  unfold doc_postings. by rewrite (proj1 (set_status_toks k s d)).
Qed.

Lemma posting_list_snoc t ds d : posting_list t (ds ++ [d]) = posting_list t ds ++ doc_postings t (length ds) d.
Proof. unfold posting_list. rewrite imap_app, join_app. cbn. by rewrite Nat.add_0_r, app_nil_r. Qed.

Lemma length_posting_list t ds : (length (posting_list t ds) <= length ds)%nat.
Proof.
  induction ds as [|d ds IH] using rev_ind; [done|]. rewrite posting_list_snoc, !length_app. cbn.
  unfold doc_postings. destruct (count t (dtoks d)); cbn; lia.
Qed.

Lemma volume_status k s ds : volume (set_status k s <$> ds) = volume ds.
Proof.
  unfold volume. rewrite <- list_fmap_compose. f_equal. apply list_fmap_ext. intros i d _. cbn.
  by rewrite (proj1 (set_status_toks k s d)).
Qed.

Lemma volume_app ds ds' : volume (ds ++ ds') = (volume ds + volume ds')%nat.
Proof. unfold volume. rewrite fmap_app. induction ds as [|d ds IH]; cbn; lia. Qed.

Lemma volume_add ds k toks : volume (spec_add ds k toks) = (volume ds + S (length toks))%nat.
Proof. unfold spec_add. rewrite volume_app, volume_status. unfold volume. cbn. lia. Qed.

Lemma length_volume ds : (length ds <= volume ds)%nat.
Proof. unfold volume. induction ds as [|d ds IH]; cbn; lia. Qed.

Lemma total_volume ds : 0 <= foldr Z.add 0 (stored_len <$> ds) <= Z.of_nat (volume ds).
Proof.
  unfold volume. induction ds as [|d ds IH]; cbn; [lia|]. unfold stored_len at 1 3. destruct (live d); lia.
Qed.

Lemma foldr_add_snoc l x : foldr Z.add 0 (l ++ [x]) = foldr Z.add 0 l + x.
Proof. induction l as [|y l IH]; cbn; lia. Qed.

Lemma push_len_same ix ix' n : same_docs ix ix' -> same_docs (push_len ix n) (push_len ix' n).
Proof. unfold same_docs. intros H. destruct_and!. split_and!; cbn; congruence. Qed.

(** The common end of the three insertions. *)
Lemma close_doc_ok ix ds key toks ix3 terms : bm25_repr ix ds -> fits (spec_add ds key toks) ->
  same_docs (push_len (open_doc ix key).1 (Z.of_nat (length toks))) ix3 ->
  terms_ok ix3 (with_doc (length (docs ix)) toks (fun t => posting_list t ds)) ->
  (length (term_pool ix3) <= length (term_pool ix) + length toks)%nat ->
  bm25_repr (close_doc ix3 terms (Z.of_nat (length toks))) (spec_add ds key toks).
Proof.
  intros Hr Hfit (Ed & Ek & Et & El & Etot & Eact & _) Hok Hpool. destruct Hr as [Rd Rl Rk Rt Rp Rdt Rtot Ract Ravg].
  unfold fits in Hfit. pose proof (volume_add ds key toks) as Hv. cbn in Ed, Ek, Et, El, Etot, Eact.
  pose proof (total_volume ds) as Ht. assert (length (docs ix) = length ds) as Hlen by (by rewrite Rd, length_fmap).
  pose proof (length_volume ds). pose proof (length_filter (fun d => live d = true) ds).
  assert (stored_key <$> (set_status key Orphan <$> ds) = stored_key <$> ds) as Ek'.
  { rewrite <- list_fmap_compose. apply list_fmap_ext. intros i d _. apply stored_orphan. }
  assert (stored_len <$> (set_status key Orphan <$> ds) = stored_len <$> ds) as El'.
  { rewrite <- list_fmap_compose. apply list_fmap_ext. intros i d _. apply stored_orphan. }
  assert (stored_len (mkDoc key toks Indexed) = Z.of_nat (length toks)) as En by done.
  split; cbn [docs key_to_doc doc_len term_pool doc_terms total_doc_len active_docs avgdl close_doc].
  - unfold spec_add. by rewrite Ed, Rd, fmap_app, Ek'.
  - unfold spec_add. by rewrite El, Rl, fmap_app, El'.
  - intros k i. rewrite Ek, Hlen, lookup_insert_Some, Rk. unfold spec_add. split.
    + intros [[<- <-]|[Hne (d & Hd & Hk & Hs)]].
      * eexists. rewrite lookup_app_r by (by rewrite length_fmap). by rewrite length_fmap, Nat.sub_diag.
      * exists d. rewrite lookup_app_l by (rewrite length_fmap; by eapply lookup_lt_Some).
        rewrite list_lookup_fmap, Hd. cbn. unfold set_status. rewrite bool_decide_eq_false_2; [done|]. intros [? _]. congruence.
    + intros (d & Hd & Hk & Hs). apply lookup_app_Some in Hd as [Hd|[Hge Hd]].
      * rewrite list_lookup_fmap in Hd. apply fmap_Some in Hd as (d0 & Hd0 & ->).
        rewrite (proj2 (set_status_toks key Orphan d0)) in Hk. unfold set_status in Hs.
        destruct (bool_decide_reflect (dkey d0 = key /\ dstatus d0 = Indexed)) as [|Hn]; [done|].
        right. split; [|eauto]. intros ->. by apply Hn.
      * rewrite length_fmap in Hge, Hd. apply list_lookup_singleton_Some in Hd as [Hi <-]. left. split; [done|lia].
  - eapply terms_ok_ext with (F := with_doc (length (docs ix)) toks (fun t => posting_list t ds)).
    + intros t. unfold spec_add. by rewrite posting_list_snoc, posting_list_status, length_fmap, <- Hlen.
    + destruct Hok as [? ? ? ? ? ?]. by split.
  - rewrite Hv. lia.
  - rewrite length_app, Et, Rdt. unfold spec_add. by rewrite length_app, length_fmap.
  - rewrite Etot, Rtot. unfold spec_add. rewrite fmap_app, El'. cbn. rewrite foldr_add_snoc, En. rewrite wrap_small; lia.
  - rewrite Eact, Ract, wrap_small by lia. unfold spec_add.
    rewrite filter_app, length_app, (filter_cons_True _ (mkDoc key toks Indexed)) by done. cbn [length filter list_filter].
    assert (forall l, length (filter (fun d => live d = true) (set_status key Orphan <$> l)) = length (filter (fun d => live d = true) l)) as ->.
    { clear. intros l. induction l as [|d l IH]; [done|]. cbn [fmap list_fmap]. rewrite !filter_cons.
      rewrite (proj2 (proj2 (stored_orphan key d))). by destruct (decide (live d = true)); cbn; rewrite ?IH. }
    lia.
  - rewrite (proj2 (Z.ltb_lt 0 _)); [done|]. rewrite Eact, Ract, wrap_small by lia. lia.
Qed.

Lemma open_doc_terms ix ds key : bm25_repr ix ds -> terms_ok (open_doc ix key).1 (fun t => posting_list t ds).
Proof. intros [_ _ _ [? ? ? ? ? ?] _ _ _ _ _]. by split. Qed.

(** Sorting the tokens and counting the runs. *)
Lemma add_tokens_ok ix ds key toks : bm25_repr ix ds -> fits (spec_add ds key toks) ->
  bm25_repr (add_tokens ix key toks) (spec_add ds key toks).
Proof.
  intros Hr Hfit. pose proof Hfit as Hv. unfold fits in Hv. rewrite volume_add in Hv. pose proof (rp_pool ix ds Hr) as Hpool.
  pose proof (length_volume ds). unfold add_tokens. destruct (open_doc ix key) as [ix1 doc] eqn:Eo.
  assert (doc = length (docs ix)) as -> by (by injection Eo as _ <-). assert (ix1 = (open_doc ix key).1) as -> by (by rewrite Eo).
  rewrite (wrap_small 32 (Z.of_nat (length toks))) by lia. set (sorted := stable_sort bytes_leb toks).
  assert (sorted ≡ₚ toks) as Hperm by apply stable_sort_perm. assert (length sorted = length toks) as Hl by (by rewrite Hperm).
  pose proof (run_loop_ok (length sorted) (length (docs ix)) (fun t => posting_list t ds)
    (push_len (open_doc ix key).1 (Z.of_nat (length toks))) [] sorted ltac:(done) (bytes_sorted toks)) as Hrun.
  destruct (run_loop _ _ _ _ _) as [ix3 terms]. destruct Hrun as (Hok & Hs & Hp).
  - pose proof (open_doc_terms ix ds key Hr) as [? ? ? ? ? ?]. by split.
  - cbn. rewrite Hl. lia.
  - intros t _. pose proof (length_posting_list t ds). lia.
  - apply (close_doc_ok ix); try done; [|cbn in Hp; rewrite Hl in Hp; exact Hp].
    eapply terms_ok_ext; [|exact Hok]. intros t. unfold with_doc. by rewrite (count_perm t _ _ Hperm).
Qed.

(** Interning the terms as they are read, then posting the counts. *)
Lemma add_document_direct_ok ix ds key kt vt : bm25_repr ix ds -> fits (spec_add ds key (tokenize kt ++ tokenize vt)) ->
  bm25_repr (add_document_direct ix key kt vt) (spec_add ds key (tokenize kt ++ tokenize vt)).
Proof.
  intros Hr Hfit. pose proof Hfit as Hv. unfold fits in Hv. rewrite volume_add in Hv. pose proof (rp_pool ix ds Hr) as Hpool.
  pose proof (length_volume ds). set (toks := tokenize kt ++ tokenize vt) in *.
  unfold add_document_direct. destruct (open_doc ix key) as [ix1 doc] eqn:Eo.
  assert (doc = length (docs ix)) as -> by (by injection Eo as _ <-). assert (ix1 = (open_doc ix key).1) as -> by (by rewrite Eo).
  cbn [foldl]. set (st0 := mkDirect (open_doc ix key).1 [] 0 [] false).
  destruct (direct_part_counts st0 kt eq_refl) as [E1 B1]. destruct (direct_part_counts _ vt B1) as [E2 _].
  rewrite E1, <- foldl_app in E2. fold toks in E2. set (st := direct_part (direct_part st0 kt) vt) in *.
  pose proof (count_tokens_ok (fun t => posting_list t ds) toks (open_doc ix key).1 [] 0 [] (open_doc_terms ix ds key Hr)) as Hc.
  change (counts st0) with ((open_doc ix key).1, @nil (Z * Z), 0) in E2. rewrite <- E2 in Hc. cbn [counts] in Hc.
  destruct Hc as (Hok & Hcount & Hn & Hs & Hp).
  { split_and!; [constructor|set_solver|set_solver]. }
  { cbn. lia. } { cbn. lia. } { done. }
  cbn [app] in *. rewrite Hn.
  destruct (post_counted_ok (length (docs ix)) (fun t => posting_list t ds) (push_len (d_ix st) (Z.of_nat (length toks))) (d_tf st) toks)
    as (Hok' & Hs' & Hp').
  - by destruct Hok as [? ? ? ? ? ?].
  - exact Hcount.
  - intros t. pose proof (length_posting_list t ds). lia.
  - apply (close_doc_ok ix); try done; [|rewrite Hp'; exact Hp].
    etransitivity; [|exact Hs']. by apply push_len_same.
Qed.

(** ** Removal *)
Lemma spec_remove_none ix ds k : bm25_repr ix ds -> key_to_doc ix !! k = None -> spec_remove ds k = ds.
Proof.
  intros Hr Hk. unfold spec_remove. rewrite <- (list_fmap_id ds) at 2. apply list_fmap_ext. intros i d Hd. cbn.
  unfold set_status. destruct (bool_decide_reflect (dkey d = k /\ dstatus d = Indexed)) as [H|]; [|done].
  assert (key_to_doc ix !! k = Some i) by (apply (rp_keys ix ds Hr); eauto). congruence.
Qed.

Lemma spec_remove_some ix ds k i d : bm25_repr ix ds -> key_to_doc ix !! k = Some i -> ds !! i = Some d ->
  spec_remove ds k = <[i := mkDoc k (dtoks d) Removed]> ds.
Proof.
  intros Hr Hk Hd. apply list_eq. intros j. unfold spec_remove. rewrite list_lookup_fmap.
  pose proof Hk as Hk'. apply (rp_keys ix ds Hr) in Hk' as (d' & Hd' & <- & Hs). simplify_eq.
  destruct (decide (j = i)) as [->|Hne].
  - rewrite list_lookup_insert_eq by (by eapply lookup_lt_Some). rewrite Hd. cbn. unfold set_status.
    by rewrite bool_decide_eq_true_2 by done.
  - rewrite list_lookup_insert_ne by done. destruct (ds !! j) as [dj|] eqn:Ej; [|done]. cbn. f_equal.
    unfold set_status. destruct (bool_decide_reflect (dkey dj = dkey d /\ dstatus dj = Indexed)) as [H|]; [|done].
    assert (key_to_doc ix !! dkey d = Some j) by (apply (rp_keys ix ds Hr); naive_solver). congruence.
Qed.

Lemma foldr_add_insert (l : list Z) i x : l !! i = Some x -> foldr Z.add 0 (<[i := 0]> l) = foldr Z.add 0 l - x.
Proof.
  revert i. induction l as [|y l IH]; intros [|i] H; [done|done|injection H as ->; cbn; lia|].
  change (y + foldr Z.add 0 (<[i := 0]> l) = y + foldr Z.add 0 l - x). rewrite (IH i H). lia.
Qed.

Lemma count_live_insert ds i d d' : ds !! i = Some d -> live d = true -> live d' = false ->
  length (filter (fun d => live d = true) ds) = S (length (filter (fun d => live d = true) (<[i := d']> ds))).
Proof.
  revert i. induction ds as [|x ds IH]; intros [|i] H Hl Hl'; [done|done| |].
  - injection H as ->. cbn [insert list_insert]. by rewrite filter_cons_True, filter_cons_False by (congruence || done).
  - cbn [insert list_insert]. rewrite !filter_cons. cbn in H. pose proof (IH i H Hl Hl') as E.
    destruct (decide (live x = true)); cbn [length]; rewrite E; done.
Qed.

Lemma remove_document_ok ix ds k : bm25_repr ix ds ->
  exists ix', remove_document ix k = Ok ix' /\ bm25_repr ix' (spec_remove ds k).
Proof.
  intros Hr. unfold remove_document. destruct (key_to_doc ix !! k) as [i|] eqn:Ek; [|].
  2: { exists ix. split; [done|]. by rewrite (spec_remove_none ix). }
  pose proof Ek as Ek'. apply (rp_keys ix ds Hr) in Ek' as (d & Hd & Hdk & Hs).
  assert (live d = true) as Hl by (unfold live; by rewrite Hs).
  assert (doc_len ix !! i = Some (stored_len d)) as El by (by rewrite (rp_lens ix ds Hr), list_lookup_fmap, Hd).
  assert (docs ix !! i = Some (stored_key d)) as Ed by (by rewrite (rp_docs ix ds Hr), list_lookup_fmap, Hd).
  rewrite El, Ed. cbn. eexists. split; [done|].
  pose proof (spec_remove_some ix ds k i d Hr Ek Hd) as ->. set (d' := mkDoc k (dtoks d) Removed).
  pose proof (count_live_insert ds i d d' Hd Hl eq_refl) as Hcl.
  pose proof (spec_remove_some ix ds k i d Hr Ek Hd) as Hspec. fold d' in Hspec.
  assert (spec_remove ds k = <[i := d']> ds -> volume (<[i := d']> ds) = volume ds) as Hvol by (intros <-; apply volume_status).
  destruct Hr as [Rd Rl Rk Rt Rp Rdt Rtot Ract Ravg]. pose proof (total_volume (<[i := d']> ds)) as Htv.
  assert (stored_len <$> (<[i := d']> ds) = <[i := 0]> (doc_len ix)) as El' by (by rewrite list_fmap_insert, Rl).
  assert (foldr Z.add 0 (<[i := 0]> (doc_len ix)) = total_doc_len ix - stored_len d) as Esum
    by (rewrite Rtot, <- Rl; by apply foldr_add_insert).
  rewrite El', Esum in Htv. pose proof (lookup_lt_Some _ _ _ Hd) as Hlt.
  split; cbn [docs key_to_doc doc_len term_pool doc_terms total_doc_len active_docs avgdl].
  - by rewrite list_fmap_insert, Rd.
  - by rewrite El'.
  - intros k' j. rewrite lookup_delete_Some, Rk. split.
    + intros (Hne & d1 & Hd1 & <- & Hs1). exists d1. rewrite list_lookup_insert_ne; [done|]. intros ->. simplify_eq.
    + intros (d1 & Hd1 & Hk1 & Hs1). destruct (decide (i = j)) as [->|Hne].
      { rewrite list_lookup_insert_eq in Hd1 by done. simplify_eq. }
      rewrite list_lookup_insert_ne in Hd1 by done. split; [|eauto]. intros ->. subst k'.
      assert (key_to_doc ix !! dkey d1 = Some j) by (apply Rk; eauto). congruence.
  - destruct Rt as [? ? T3 T4 T5 ?]. split; cbn; intros; try eauto; rewrite <- Hspec; unfold spec_remove;
      rewrite posting_list_status; eauto.
  - rewrite (Hvol Hspec). done.
  - by rewrite length_insert.
  - rewrite El', Esum. lia.
  - rewrite Ract, Hcl. lia.
  - done.
Qed.

(** ** The ranking of a query, from the documents alone *)
Definition searchable (d : Doc) : bool := bool_decide (stored_key d <> []).

Definition matches (q : list bytes) (d : Doc) : Prop := searchable d = true /\ exists t, t ∈ q /\ t ∈ dtoks d.

#[export] Instance matches_dec q d : Decision (matches q d).
Proof.
  unfold matches. apply and_dec; [apply _|].
  refine (cast_if (decide (Exists (fun t => t ∈ dtoks d) q))); rewrite <- Exists_exists; done.
Defined.

Section ranking.
Variable ln : f64 -> f64.
Variables (K B AVG : f64) (ds : list Doc).

(** The weight of term [t] in document [d]. *)
Definition weight (t : bytes) (d : Doc) : f64 :=
  term_score K B AVG (idf ln (f64_of_Z (Z.of_nat (length ds))) (f64_of_Z (Z.of_nat (length (posting_list t ds)))))
    (f64_of_Z (Z.of_nat (count t (dtoks d)))) (f64_of_Z (stored_len d)).

Definition add_weight (d : Doc) (s : f64) (t : bytes) : f64 :=
  if searchable d && negb (count t (dtoks d) =? 0)%nat then f64_add s (weight t d) else s.

(** The score of a document: the weights of the query's terms it contains, added in
    the order of the query. *)
Definition doc_score (q : list bytes) (d : Doc) : f64 := foldl (add_weight d) f64_zero q.

Lemma doc_score_nomatch q d : ~ matches q d -> doc_score q d = f64_zero.
Proof.
  unfold doc_score. induction q as [|t q IH] using rev_ind; intros Hn; [done|]. rewrite foldl_app. cbn [foldl].
  rewrite IH by (intros [Hs (t' & ? & ?)]; apply Hn; split; [done|exists t'; set_solver]).
  unfold add_weight. destruct (searchable d) eqn:Es; [|done]. destruct (Nat.eqb_spec (count t (dtoks d)) 0) as [|Hc]; [done|].
  destruct Hn. split; [done|]. exists t. split; [set_solver|]. apply dec_stable. intros Hin. by apply Hc, count_zero.
Qed.

(** Scores and touched documents after the terms [q]. *)
Record scored (q : list bytes) (scores : list f64) (touched : list nat) : Prop := {
  sc_val : scores = doc_score q <$> ds;
  sc_touched : forall i, i ∈ touched <-> exists d, ds !! i = Some d /\ matches q d;
  sc_nodup : (forall d q', d ∈ ds -> q' `prefix_of` q -> matches q' d -> f_is_zero (doc_score q' d) = false) -> NoDup touched
}.
End ranking.

Lemma elem_of_posting_list t ds i n : (i, n) ∈ posting_list t ds <->
  exists d, ds !! i = Some d /\ t ∈ dtoks d /\ n = Z.of_nat (count t (dtoks d)).
Proof.
  unfold posting_list. rewrite list_elem_of_join. split.
  - intros (l & Hl & Hin). apply elem_of_lookup_imap in Hin as (j & d & -> & Hd). exists d.
    unfold doc_postings in Hl. destruct (count t (dtoks d)) as [|c] eqn:E; [by apply not_elem_of_nil in Hl|].
    apply list_elem_of_singleton in Hl as [= -> ->]. split_and!; [done| |done].
    apply dec_stable. intros Hin%count_zero. congruence.
  - intros (d & Hd & Ht & ->). exists (doc_postings t i d). split; [|apply elem_of_lookup_imap; eauto].
    unfold doc_postings. destruct (count t (dtoks d)) eqn:E; [by apply count_zero in E|]. left.
Qed.

Lemma posting_list_nodup t ds : NoDup (posting_list t ds).*1.
Proof.
  induction ds as [|d ds IH] using rev_ind; [constructor|]. rewrite posting_list_snoc, fmap_app.
  apply NoDup_app. split_and!; [done| |].
  - intros i ([j m] & -> & Hi)%list_elem_of_fmap Hd. apply elem_of_posting_list in Hi as (d' & Hd' & _).
    apply lookup_lt_Some in Hd'. unfold doc_postings in Hd.
    destruct (count t (dtoks d)); [by apply not_elem_of_nil in Hd|]. apply list_elem_of_singleton in Hd. cbn in Hd. lia.
  - unfold doc_postings. destruct (count t (dtoks d)); [constructor|apply NoDup_singleton].
Qed.

(** One term: the scores of the documents in its postings grow by its weight. *)
Section scoring.
Variable ln : f64 -> f64.
Variables (ix : Bm25Index) (ds : list Doc).
Hypothesis Hrepr : bm25_repr ix ds.

(** What the postings [ps] of a term make of scores and touched documents. *)
Record posted (w : f64) (ps : list (nat * Z)) (scores scores' : list f64) (touched touched' : list nat) : Prop := {
  po_len : length scores' = length ds;
  po_val : forall i d s, ds !! i = Some d -> scores !! i = Some s ->
    scores' !! i = Some (match (list_to_map ps : gmap nat Z) !! i with
      | Some n => if searchable d
          then f64_add s (term_score (k1 ix) (b ix) (avgdl ix) w (f64_of_Z n) (f64_of_Z (stored_len d))) else s
      | None => s end);
  po_touched : forall i, i ∈ touched' <-> i ∈ touched \/ exists d s, ds !! i = Some d /\ searchable d = true /\
    i ∈ ps.*1 /\ scores !! i = Some s /\ f_is_zero s = true;
  po_nodup : NoDup touched -> (forall i s, i ∈ touched -> i ∈ ps.*1 -> scores !! i = Some s -> f_is_zero s = false) -> NoDup touched'
}.

(** A posting of a document that is not searchable changes nothing. *)
Lemma posted_skip w i n ps scores scores' touched touched' : i ∉ ps.*1 -> (forall d, ds !! i = Some d -> searchable d = false) ->
  posted w ps scores scores' touched touched' -> posted w ((i, n) :: ps) scores scores' touched touched'.
Proof.
  intros Hni Hd [Hl Hv Ht Hu]. split; [done| | |].
  - intros j d s Hj Hs. rewrite (Hv j d s Hj Hs). cbn. destruct (decide (j = i)) as [->|]; [|by rewrite lookup_insert_ne by congruence].
    rewrite lookup_insert_eq, (Hd d Hj). by destruct ((list_to_map ps : gmap nat Z) !! i).
  - intros j. rewrite Ht. split; (intros [?|(d & s & Hj & Hsd & Hin & Hr)]; [by left|right]); exists d, s; split_and!; try done; try apply Hr.
    + by right.
    + cbn [fmap list_fmap fst] in Hin. apply elem_of_cons in Hin as [->|?]; [|done]. by rewrite (Hd d Hj) in Hsd.
  - intros Hnt Hz. apply Hu; [done|]. intros j s Hj Hjp. apply (Hz j s Hj). by right.
Qed.

(** A posting of a searchable document adds to its score. *)
Lemma posted_score w i n ps scores scores' touched touched' d si : i ∉ ps.*1 -> ds !! i = Some d -> searchable d = true ->
  scores !! i = Some si ->
  posted w ps (<[i := f64_add si (term_score (k1 ix) (b ix) (avgdl ix) w (f64_of_Z n) (f64_of_Z (stored_len d)))]> scores) scores'
    (if f_is_zero si then touched ++ [i] else touched) touched' ->
  posted w ((i, n) :: ps) scores scores' touched touched'.
Proof.
  intros Hni Ed Hst Hsi. set (s1 := f64_add si _). intros [Hl Hv Ht Hu].
  assert (forall i', i' ∈ ps.*1 -> i' <> i) as Hne by (by intros i' Hi' ->). split; [done| | |].
  - intros j d' s Hd Hs. destruct (decide (j = i)) as [->|Hji].
    + simplify_eq. rewrite (Hv i d s1 Ed) by (apply list_lookup_insert_eq; by eapply lookup_lt_Some).
      cbn. rewrite lookup_insert_eq, Hst, (not_elem_of_list_to_map_1 ps i Hni). done.
    + cbn. rewrite lookup_insert_ne by congruence. apply Hv; [done|]. by rewrite list_lookup_insert_ne by congruence.
  - intros j. rewrite Ht. cbn [fmap list_fmap fst]. split.
    + intros [Hj|(d' & s & Hd & Hsd & Hin & Hs & Hz)].
      * destruct (f_is_zero si) eqn:Ez; [|by left]. apply elem_of_app in Hj as [?| ->%list_elem_of_singleton]; [by left|].
        right. exists d, si. split_and!; try done. left.
      * right. exists d', s. rewrite list_lookup_insert_ne in Hs by (intros <-; done). split_and!; try done. by right.
    + intros [Hj|(d' & s & Hd & Hsd & Hin & Hs & Hz)].
      * left. destruct (f_is_zero si); [apply elem_of_app; by left|done].
      * apply elem_of_cons in Hin as [->|Hin].
        -- left. simplify_eq. rewrite Hz. apply elem_of_app. right. by left.
        -- right. exists d', s. rewrite list_lookup_insert_ne by (intros <-; done). done.
  - intros Hnt Hz. apply Hu.
    + destruct (f_is_zero si) eqn:Ez; [|done]. apply NoDup_app. split_and!; [done| |apply NoDup_singleton].
      intros j Hj ->%list_elem_of_singleton. specialize (Hz i si Hj ltac:(left) Hsi). congruence.
    + intros j s Hj Hjp Hs. rewrite list_lookup_insert_ne in Hs by (intros <-; done).
      apply (Hz j s); [|by right|done]. destruct (f_is_zero si); [|done].
      apply elem_of_app in Hj as [?| ->%list_elem_of_singleton]; done.
Qed.

Lemma score_postings_ok w ps : forall scores touched, NoDup ps.*1 -> length scores = length ds ->
  exists scores' touched', foldl (score_posting ix w) (Ok (scores, touched)) ps = Ok (scores', touched') /\
    posted w ps scores scores' touched touched'.
Proof.
  induction ps as [|[i n] ps IH]; intros scores touched Hnd Hlen.
  { exists scores, touched. split; [done|]. split; [done..| |done]. intros i. split; [by left|].
    intros [?|(d & s & _ & _ & H & _)]; [done|]. by apply not_elem_of_nil in H. }
  cbn [fmap list_fmap fst] in Hnd. apply NoDup_cons in Hnd as [Hni Hnd]. cbn [foldl].
  unfold score_posting at 2. cbn [mbind res_bind fst snd]. rewrite (rp_docs ix ds Hrepr), list_lookup_fmap.
  assert ((forall d, ds !! i = Some d -> searchable d = false) ->
    exists scores' touched', foldl (score_posting ix w) (Ok (scores, touched)) ps = Ok (scores', touched') /\
      posted w ((i, n) :: ps) scores scores' touched touched') as Hskip.
  { intros Hd. destruct (IH scores touched Hnd Hlen) as (sc' & to' & E & Hp). exists sc', to'. split; [done|]. by apply posted_skip. }
  destruct (ds !! i) as [d|] eqn:Ed; cbn [fmap option_fmap option_map]; [|by apply Hskip].
  destruct (stored_key d) as [|x kx] eqn:Ek.
  { apply Hskip. intros d' [= <-]. unfold searchable. by rewrite Ek. }
  clear Hskip. rewrite (rp_lens ix ds Hrepr), list_lookup_fmap, Ed. cbn [fmap option_fmap option_map index mbind res_bind].
  destruct (lookup_lt_is_Some_2 scores i) as [si Hsi]; [rewrite Hlen; by eapply lookup_lt_Some|].
  rewrite Hsi. cbn [index mbind res_bind]. set (s1 := f64_add si _).
  destruct (IH (<[i := s1]> scores) (if f_is_zero si then touched ++ [i] else touched) Hnd) as (sc' & to' & E & Hp);
    [by rewrite length_insert|]. exists sc', to'. split; [done|]. eapply posted_score; [done|done| |done|exact Hp].
  unfold searchable. by rewrite Ek.
Qed.

Lemma score_term_postings t acc : score_term ln ix acc t =
  foldl (score_posting ix (idf ln (f64_of_Z (Z.of_nat (length ds))) (f64_of_Z (Z.of_nat (length (posting_list t ds))))))
    acc (posting_list t ds).
Proof.
  unfold score_term. destruct (rp_terms ix ds Hrepr) as [_ _ Hp Hd Hu _].
  destruct (term_ids ix !! t) as [tid|] eqn:Et; [|by rewrite (Hu t Et)].
  specialize (Hp t tid Et). specialize (Hd t tid Et). rewrite (rp_docs ix ds Hrepr), length_fmap.
  destruct (df ix !! tid) as [n|]; cbn in Hd.
  - subst n. destruct (postings ix !! tid) as [ps|]; cbn in Hp; by rewrite <- Hp.
  - destruct (posting_list t ds); [done|]. cbn in Hd. lia.
Qed.

Abbreviation scored_here := (scored ln (k1 ix) (b ix) (avgdl ix) ds).
Abbreviation score_here := (doc_score ln (k1 ix) (b ix) (avgdl ix) ds).

Lemma doc_score_snoc q t d : score_here (q ++ [t]) d = add_weight ln (k1 ix) (b ix) (avgdl ix) ds d (score_here q d) t.
Proof. unfold doc_score. by rewrite foldl_app. Qed.

Lemma score_term_ok q scores touched t : scored_here q scores touched ->
  exists scores' touched', score_term ln ix (Ok (scores, touched)) t = Ok (scores', touched') /\
    scored_here (q ++ [t]) scores' touched'.
Proof.
  intros [Hv Ht Hn]. rewrite score_term_postings. set (w := idf ln _ _).
  destruct (score_postings_ok w (posting_list t ds) scores touched (posting_list_nodup t ds)) as (sc' & to' & E & [Hl Hv' Ht' Hn']).
  { by rewrite Hv, length_fmap. }
  assert (forall i d, ds !! i = Some d -> scores !! i = Some (score_here q d)) as Hs by (intros i d Hd; by rewrite Hv, list_lookup_fmap, Hd).
  assert (forall i d, ds !! i = Some d -> i ∈ (posting_list t ds).*1 <-> t ∈ dtoks d) as Hin.
  { intros i d Hd. rewrite list_elem_of_fmap. split.
    - intros ([j n] & -> & (d' & Hd' & Ht1 & _)%elem_of_posting_list). cbn in Hd. by simplify_eq.
    - intros Htd. exists (i, Z.of_nat (count t (dtoks d))). split; [done|]. apply elem_of_posting_list. eauto. }
  exists sc', to'. split; [done|]. split.
  - apply list_eq. intros i. rewrite list_lookup_fmap. destruct (ds !! i) as [d|] eqn:Ed.
    2: { cbn. apply lookup_ge_None_2. rewrite Hl. by apply lookup_ge_None_1. }
    rewrite (Hv' i d (score_here q d) Ed) by auto. cbn. f_equal. rewrite doc_score_snoc. unfold add_weight.
    destruct (Nat.eqb_spec (count t (dtoks d)) 0) as [Hc|Hc].
    + rewrite andb_false_r, not_elem_of_list_to_map_1; [done|]. rewrite (Hin i d Ed). by apply count_zero.
    + rewrite andb_true_r, (elem_of_list_to_map_1 _ i (Z.of_nat (count t (dtoks d)))); [done|apply posting_list_nodup|].
      apply elem_of_posting_list. exists d. split_and!; [done| |done]. apply dec_stable. intros Hi. by apply Hc, count_zero.
  - intros i. rewrite Ht', Ht. split.
    + intros [(d & Hd & Hsd & t' & Hq & Htd)|(d & s & Hd & Hsd & Hi & _)]; exists d; (split; [done|]); (split; [done|]).
      * exists t'. set_solver.
      * exists t. split; [set_solver|]. by apply (Hin i d).
    + intros (d & Hd & Hsd & t' & Hq & Htd). apply elem_of_app in Hq as [Hq| ->%list_elem_of_singleton].
      { left. exists d. split; [done|]. split; eauto. }
      destruct (f_is_zero (score_here q d)) eqn:Ez.
      * right. exists d, (score_here q d). split_and!; auto. by apply (Hin i d).
      * left. exists d. split; [done|]. apply dec_stable. intros Hm.
        rewrite (doc_score_nomatch ln (k1 ix) (b ix) (avgdl ix) ds q d Hm) in Ez. done.
  - intros Hz. apply Hn'.
    + apply Hn. intros d q' Hd Hq'. apply Hz; [done|]. by apply prefix_app_r.
    + intros i s Hi _ Hsi. apply Ht in Hi as (d & Hd & Hm). rewrite (Hs i d Hd) in Hsi. injection Hsi as <-.
      apply Hz; [by eapply list_elem_of_lookup_2|by apply prefix_app_r|done].
Qed.

Lemma score_terms_ok q' : forall q scores touched, scored_here q scores touched ->
  exists scores' touched', foldl (score_term ln ix) (Ok (scores, touched)) q' = Ok (scores', touched') /\
    scored_here (q ++ q') scores' touched'.
Proof.
  induction q' as [|t q' IH]; intros q scores touched H; cbn [foldl].
  { exists scores, touched. by rewrite app_nil_r. }
  destruct (score_term_ok q scores touched t H) as (sc1 & to1 & E & H1). rewrite E.
  destruct (IH (q ++ [t]) sc1 to1 H1) as (sc' & to' & E' & H'). exists sc', to'. by rewrite <- app_assoc in H'.
Qed.

Lemma scored_start : scored_here [] (replicate (length ds) f64_zero) [].
Proof.
  split; [|intros i; split; [intros H; by apply not_elem_of_nil in H|]|constructor].
  - change (doc_score ln (k1 ix) (b ix) (avgdl ix) ds []) with (fun _ : Doc => f64_zero).
    clear. induction ds as [|d l IH]; cbn; [done|]. by f_equal.
  - intros (d & _ & _ & t & H & _). by apply not_elem_of_nil in H.
Qed.

Lemma collect_ok q scores touched : scored_here q scores touched ->
  collect scores touched = Ok ((fun i => (i, default f64_zero (score_here q <$> ds !! i))) <$> touched).
Proof.
  intros [Hv Ht _]. unfold collect. assert (forall i, i ∈ touched -> is_Some (ds !! i)) as Hin.
  { intros i Hi. apply Ht in Hi as (d & Hd & _). eauto. }
  clear Ht. induction touched as [|i to IH]; [done|]. cbn. rewrite Hv, list_lookup_fmap.
  destruct (Hin i ltac:(left)) as [d Hd]. rewrite Hd. cbn. rewrite Hv in IH. rewrite IH; [done|].
  intros j Hj. apply Hin. by right.
Qed.
End scoring.

(** ** The ranked search *)
Lemma top_ok sort select k (cands : list (nat * f64)) : sorts sort -> selects select ->
  let cs := top sort select k cands in
  (forall c, c ∈ cs -> c ∈ cands) /\ length cs = Nat.min k (length cands) /\
  (NoDup cands.*1 -> NoDup cs.*1) /\ ((length cands <= k)%nat -> forall c, c ∈ cands -> c ∈ cs) /\
  (total_preorder_on by_score cands -> in_order by_score cs /\
     forall x c, x ∈ cands -> x ∉ cs -> c ∈ cs -> by_score c x <> Gt).
Proof.
  intros Hsort Hsel. unfold top. destruct (Nat.leb_spec (length cands) k) as [Hle|Hgt]; cbn zeta.
  - destruct (Hsort by_score cands) as [Hp Ho]. split; [intros c; rewrite Hp; auto|]. split; [rewrite Hp; lia|]. split; [by rewrite Hp|].
    split; [intros _ c Hc; by rewrite Hp|]. intros Ht. split; [auto|]. intros x c Hx Hn. by rewrite Hp in Hn.
  - destruct (Hsel k by_score cands Hgt) as [Hps Hos]. set (l := take k (select k by_score cands)).
    destruct (Hsort by_score l) as [Hp Ho].
    assert (forall c, c ∈ l -> c ∈ cands) as Hsub by (intros c Hc; rewrite <- Hps; by eapply elem_of_take_sub).
    split; [intros c; rewrite Hp; auto|]. split; [rewrite Hp; unfold l; by rewrite length_take, Hps|].
    split; [|split; [lia|]].
    + intros Hnd. rewrite Hp. rewrite <- Hps in Hnd. rewrite <- (take_drop k (select k by_score cands)), fmap_app in Hnd.
      by apply NoDup_app in Hnd as [? _].
    + intros Ht. split; [by apply Ho; eapply total_preorder_sub|]. intros x c Hx Hn Hc. rewrite Hp in Hn, Hc.
      rewrite <- Hps in Hx. apply list_elem_of_lookup in Hx as [j Hj]. apply list_elem_of_lookup in Hc as [i Hi].
      apply lookup_take_Some in Hi as [Hi Hik]. apply (Hos Ht i j c x); auto.
      destruct (decide (k <= j)%nat) as [|Hjk]; [done|]. destruct Hn. apply list_elem_of_lookup. exists j.
      apply lookup_take_Some. split; [done|lia].
Qed.

Lemma no_match_empty ix ds query : bm25_repr ix ds -> is_empty ix = true \/ tokenize query = [] ->
  forall d, d ∈ ds -> ~ matches (tokenize query) d.
Proof.
  intros Hr [He| ->] d Hd [_ (t & Ht & _)]; [|by apply not_elem_of_nil in Ht].
  unfold is_empty in He. rewrite (rp_docs ix ds Hr) in He. destruct ds; [by apply not_elem_of_nil in Hd|done].
Qed.

(** From the scored documents to the hits. *)
Lemma search_tail sort select ix ds q k sc touched (Z : Prop) : bm25_repr ix ds -> sorts sort -> selects select ->
  (forall i, i ∈ touched <-> exists d, ds !! i = Some d /\ matches q d) -> (Z -> NoDup touched) ->
  exists hits cs,
    mapM (fun p => to_result ix p.1 p.2)
      (imap (fun i c => (i, c)) (top sort select k ((fun i => (i, default f64_zero (sc <$> ds !! i))) <$> touched))) = Ok hits /\
    Forall2 (fun c h => exists d, ds !! c.1 = Some d /\ matches q d /\ key h = dkey d /\ score h = sc d /\ c.2 = sc d) cs hits /\
    (forall j h, hits !! j = Some h -> rank h = j) /\ (length hits <= k)%nat /\
    ((length hits < k)%nat -> forall i d, ds !! i = Some d -> matches q d -> i ∈ cs.*1) /\
    ((forall d, d ∈ ds -> is_nan (sc d) = false) -> in_order by_score cs /\
       forall i d c, ds !! i = Some d -> matches q d -> i ∉ cs.*1 -> c ∈ cs -> by_score c (i, sc d) <> Gt) /\
    (Z -> NoDup cs.*1).
Proof.
  intros Hr Hsort Hsel Ht Hz. set (cands := _ <$> touched).
  destruct (top_ok sort select k cands Hsort Hsel) as (Hsub & Hlen & Hnd & Hall & Hord).
  set (cs := top sort select k cands) in *. set (to_hit := fun p : nat * (nat * f64) => mkHit (default [] (docs ix !! p.2.1)) p.2.2 p.1).
  assert (forall c, c ∈ cs -> exists d, ds !! c.1 = Some d /\ matches q d /\ c.2 = sc d) as Hcs.
  { intros c Hc. apply Hsub, list_elem_of_fmap in Hc as (i & -> & (d & Hd & Hm)%Ht). exists d. cbn. by rewrite Hd. }
  assert (forall i d, ds !! i = Some d -> matches q d -> (i, sc d) ∈ cands) as Hcands.
  { intros i d Hd Hm. apply list_elem_of_fmap. exists i. rewrite Hd. split; [done|]. apply Ht. eauto. }
  exists (to_hit <$> imap (fun i c => (i, c)) cs), cs.
  assert (length (to_hit <$> imap (fun i c => (i, c)) cs) = length cs) as Hlh by (by rewrite length_fmap, length_imap).
  split; [|split; [|split; [|split; [|split; [|split]]]]].
  - apply mapM_ok. intros [i c] Hin. apply elem_of_lookup_imap in Hin as (j & c' & [= -> ->] & Hc).
    destruct (Hcs c' ltac:(by eapply list_elem_of_lookup_2)) as (d & Hd & _). unfold to_result, to_hit. cbn [fst snd].
    by rewrite (rp_docs ix ds Hr), list_lookup_fmap, Hd.
  - apply Forall2_same_length_lookup. split; [done|]. intros i c h Hc Hh. rewrite list_lookup_fmap, list_lookup_imap, Hc in Hh.
    cbn in Hh. injection Hh as <-. destruct (Hcs c ltac:(by eapply list_elem_of_lookup_2)) as (d & Hd & Hm & Hsc).
    exists d. unfold to_hit. cbn. rewrite (rp_docs ix ds Hr), list_lookup_fmap, Hd. cbn. split_and!; try done.
    destruct Hm as [Hs _]. apply bool_decide_eq_true in Hs. unfold stored_key in *. by destruct (live d).
  - intros j h Hh. rewrite list_lookup_fmap, list_lookup_imap in Hh. destruct (cs !! j); [|done]. cbn in Hh. by injection Hh as <-.
  - rewrite Hlh, Hlen. lia.
  - rewrite Hlh, Hlen. intros Hk i d Hd Hm. apply list_elem_of_fmap. exists (i, sc d). split; [done|].
    apply Hall; [lia|by apply Hcands].
  - intros Hn. destruct Hord as [Ho Hrest].
    { apply f_cmp_desc_total. intros c (i & -> & (d & Hd & _)%Ht)%list_elem_of_fmap. cbn. rewrite Hd. apply Hn.
      by eapply list_elem_of_lookup_2. }
    split; [done|]. intros i d c Hd Hm Hi Hc. apply Hrest; [by apply Hcands| |done]. intros Hin. apply Hi, list_elem_of_fmap.
    by exists (i, sc d).
  - intros HZ. apply Hnd. unfold cands. rewrite <- list_fmap_compose. rewrite (list_fmap_ext _ id); [|done].
    rewrite list_fmap_id. auto.
Qed.

Lemma search_ok ln sort select ix ds query k : bm25_repr ix ds -> sorts sort -> selects select ->
  let q := tokenize query in
  let sc := doc_score ln (k1 ix) (b ix) (avgdl ix) ds q in
  exists hits cs, search ln sort select ix query k = Ok hits /\
    Forall2 (fun c h => exists d, ds !! c.1 = Some d /\ matches q d /\ key h = dkey d /\ score h = sc d /\ c.2 = sc d) cs hits /\
    (forall j h, hits !! j = Some h -> rank h = j) /\ (length hits <= k)%nat /\
    ((length hits < k)%nat -> forall i d, ds !! i = Some d -> matches q d -> i ∈ cs.*1) /\
    ((forall d, d ∈ ds -> is_nan (sc d) = false) -> in_order by_score cs /\
       forall i d c, ds !! i = Some d -> matches q d -> i ∉ cs.*1 -> c ∈ cs -> by_score c (i, sc d) <> Gt) /\
    ((forall d q', d ∈ ds -> q' `prefix_of` q -> matches q' d ->
        f_is_zero (doc_score ln (k1 ix) (b ix) (avgdl ix) ds q' d) = false) -> NoDup cs.*1).
Proof.
  intros Hr Hsort Hsel q. assert (tokenize query = q) as Hq by done. clearbody q. intros sc. unfold search. rewrite Hq.
  assert ((forall d, d ∈ ds -> ~ matches q d) \/ k = 0%nat ->
    exists hits cs, (Ok [] : res unit _) = Ok hits /\
      Forall2 (fun c h => exists d, ds !! c.1 = Some d /\ matches q d /\ key h = dkey d /\ score h = sc d /\ c.2 = sc d) cs hits /\
      (forall j h, hits !! j = Some h -> rank h = j) /\ (length hits <= k)%nat /\
      ((length hits < k)%nat -> forall i d, ds !! i = Some d -> matches q d -> i ∈ cs.*1) /\
      ((forall d, d ∈ ds -> is_nan (sc d) = false) -> in_order by_score cs /\
         forall i d c, ds !! i = Some d -> matches q d -> i ∉ cs.*1 -> c ∈ cs -> by_score c (i, sc d) <> Gt) /\
      ((forall d q', d ∈ ds -> q' `prefix_of` q -> matches q' d ->
          f_is_zero (doc_score ln (k1 ix) (b ix) (avgdl ix) ds q' d) = false) -> NoDup cs.*1)) as Hnone.
  { intros Hn. exists [], []. split_and!; [done|constructor|done|cbn; lia| | |by constructor].
    - intros Hk i d Hd Hm. destruct Hn as [Hn| ->]; [|cbn in Hk; lia].
      destruct (Hn d); [by eapply list_elem_of_lookup_2|done].
    - intros _. split; [constructor|]. intros i d c _ _ _ Hc. by apply not_elem_of_nil in Hc. }
  destruct (is_empty ix) eqn:Ee; cbn [orb].
  { apply Hnone. left. subst q. apply (no_match_empty ix); auto. }
  destruct (Nat.eqb_spec k 0) as [->|Hk]; [apply Hnone; by right|].
  destruct q as [|t0 q0].
  { apply Hnone. left. intros d Hd [_ (t & Ht & _)]. by apply not_elem_of_nil in Ht. }
  set (q := t0 :: q0) in *. clear Hnone Ee.
  assert (length (docs ix) = length ds) as -> by (by rewrite (rp_docs ix ds Hr), length_fmap).
  destruct (score_terms_ok ln ix ds Hr q [] _ _ (scored_start ln ix ds)) as (scores & touched & -> & Hsc).
  cbn [app] in Hsc. cbn [mbind res_bind]. rewrite (collect_ok ln ix ds q scores touched Hsc). cbn [mbind res_bind].
  exact (search_tail sort select ix ds q k _ touched _ Hr Hsort Hsel (sc_touched _ _ _ _ _ _ _ _ Hsc) (sc_nodup _ _ _ _ _ _ _ _ Hsc)).
Qed.

(** ** Sequences of operations *)
Inductive BmOp :=
  | OAdd (k content : bytes)
  | OParts (k kt vt : bytes)
  | ODirect (k kt vt : bytes)
  | ORemove (k : bytes).

Definition do_op (ix : Bm25Index) (o : BmOp) : res unit Bm25Index :=
  match o with
  | OAdd k c => Ok (add_document ix k c)
  | OParts k kt vt => Ok (add_document_parts ix k kt vt)
  | ODirect k kt vt => Ok (add_document_direct ix k kt vt)
  | ORemove k => remove_document ix k
  end.

Definition do_ops (ix : Bm25Index) (ops : list BmOp) : res unit Bm25Index :=
  foldl (fun r o => ix ← r; do_op ix o) (Ok ix) ops.

Definition spec_op (ds : list Doc) (o : BmOp) : list Doc :=
  match o with
  | OAdd k c => spec_add ds k (tokens_of c)
  | OParts k kt vt | ODirect k kt vt => spec_add ds k (tokens_of kt ++ tokens_of vt)
  | ORemove k => spec_remove ds k
  end.

Lemma spec_op_volume ds o : (volume ds <= volume (spec_op ds o))%nat.
Proof. destruct o; cbn [spec_op]; unfold spec_remove; rewrite ?volume_add, ?volume_status; lia. Qed.

Lemma spec_ops_volume ops : forall ds, (volume ds <= volume (foldl spec_op ds ops))%nat.
Proof.
  induction ops as [|o ops IH]; intros ds; cbn [foldl]; [lia|]. etransitivity; [apply (spec_op_volume ds o)|apply IH].
Qed.

Lemma do_op_ok ix ds o : bm25_repr ix ds -> fits (spec_op ds o) ->
  exists ix', do_op ix o = Ok ix' /\ bm25_repr ix' (spec_op ds o).
Proof.
  intros Hr Hf. destruct o; cbn [spec_op do_op] in *; rewrite <- ?tokenize_tokens_of in *.
  - eexists. split; [done|]. by apply add_tokens_ok.
  - eexists. split; [done|]. by apply add_tokens_ok.
  - eexists. split; [done|]. by apply add_document_direct_ok.
  - by apply remove_document_ok.
Qed.

Lemma do_ops_ok ops : forall ix ds, bm25_repr ix ds -> fits (foldl spec_op ds ops) ->
  exists ix', do_ops ix ops = Ok ix' /\ bm25_repr ix' (foldl spec_op ds ops).
Proof.
  induction ops as [|o ops IH]; intros ix ds Hr Hf; [by exists ix|].
  assert (fits (spec_op ds o)) as Hf1 by (unfold fits in *; pose proof (spec_ops_volume ops (spec_op ds o)); cbn [foldl] in Hf; lia).
  destruct (do_op_ok ix ds o Hr Hf1) as (ix1 & E & Hr1). destruct (IH ix1 _ Hr1 Hf) as (ix' & E' & Hr').
  exists ix'. split; [|done]. unfold do_ops in *. cbn. by rewrite E.
Qed.

(** C33: Every sequence of insertions, by any of the three routes, and removals that
    stays below [2^32] tokens and documents runs without a panic and leaves an index
    that represents the documents it should: the routes differ in how they count
    and in the ids they give to terms, not in what is indexed. *)
Theorem bm25_refines p q ops : fits (foldl spec_op [] ops) ->
  exists ix, do_ops (with_params p q) ops = Ok ix /\ bm25_repr ix (foldl spec_op [] ops).
Proof. intros Hf. apply do_ops_ok; [apply with_params_repr|done]. Qed.

Definition sample_ops : list BmOp :=
  [ODirect (str "auth.py::validateToken") (str "auth.py::validateToken") (str "check the JWT token");
   OParts (str "models.py") (str "models.py") (str "class User");
   OAdd (str "notes") (str "token token rotation");
   ORemove (str "models.py");
   ODirect (str "notes") (str "notes") (str "validate user")].

Lemma bm25_refines_witness : exists ix, do_ops new sample_ops = Ok ix /\ bm25_repr ix (foldl spec_op [] sample_ops).
Proof. apply (bm25_refines (f64_lit 3 2) (f64_lit 3 4) sample_ops). apply (bool_decide_unpack _). vm_compute. exact I. Defined.

(** Searching the index of the sample for "userToken", with a logarithm of one. *)
(** A document added again under its key without a removal stays searchable, also
    after the key is removed: this is what a replay of the log does. *)
Definition found_keys (ops : list BmOp) (q : bytes) (k : nat) : option (list bytes) :=
  match do_ops new ops with
  | Ok ix => match search (fun _ => f64_one) sort_by (fun _ => sort_by) ix q k with
             | Ok hits => Some (key <$> hits) | _ => None end
  | _ => None
  end.

Example readded_document_stays : found_keys
  [ODirect (str "k") (str "k") (str "old"); ODirect (str "k") (str "k") (str "new"); ORemove (str "k")] (str "old") 5 = Some [str "k"].
Proof. vm_compute. reflexivity. Qed.

(** "notes" was added twice, and both documents are hits. *)
Example search_ranks : found_keys sample_ops (str "userToken") 2 = Some [str "notes"; str "notes"].
Proof. vm_compute. reflexivity. Qed.

(** ** Removal never panics, whatever the size of the index *)
Record safe (ix : Bm25Index) : Prop := {
  safe_lens : length (doc_len ix) = length (docs ix);
  safe_keys : forall k i, key_to_doc ix !! k = Some i -> (i < length (docs ix))%nat
}.

Lemma emit_same st : same_docs (d_ix st) (d_ix (emit st)).
Proof.
  unfold emit, intern_and_count. destruct (d_buf st) as [|b w]; [done|].
  pose proof (intern_same (d_ix st) (b :: w)) as H. by destruct (intern (d_ix st) (b :: w)).
Qed.

Lemma direct_byte_same prev st c : same_docs (d_ix st) (d_ix (direct_byte prev st c)).
Proof.
  unfold direct_byte. assert (same_docs (d_ix st) (d_ix (if camel (d_in st) prev c then emit st else st))) as H
    by (destruct (camel _ _ _); [apply emit_same|done]).
  set (st1 := if camel (d_in st) prev c then emit st else st) in *. destruct (is_alnum c); [done|].
  destruct (d_in st1); [|done]. cbn. etransitivity; [exact H|apply emit_same].
Qed.

Lemma direct_text_same text : forall prev st, same_docs (d_ix st) (d_ix (direct_text prev st text)).
Proof.
  induction text as [|c text IH]; intros prev st; [done|]. cbn [direct_text].
  etransitivity; [apply (direct_byte_same prev st c)|apply IH].
Qed.

Lemma direct_part_same st text : same_docs (d_ix st) (d_ix (direct_part st text)).
Proof. unfold direct_part. etransitivity; [|apply emit_same]. apply (direct_text_same text None (mkDirect _ _ _ _ _)). Qed.

Lemma post_all_same doc tf : forall ix, same_docs ix (post_all doc ix tf).
Proof. induction tf as [|p tf IH]; intros ix; [done|]. unfold post_all. cbn [foldl]. etransitivity; [|apply IH]. done. Qed.

Lemma with_params_safe p q : safe (with_params p q).
Proof. by split. Qed.

Lemma add_document_direct_safe ix k kt vt : safe ix -> safe (add_document_direct ix k kt vt).
Proof.
  intros [Hl Hk]. unfold add_document_direct. cbn [open_doc foldl].
  set (st0 := mkDirect _ [] 0 [] false). set (st := direct_part (direct_part st0 kt) vt).
  assert (same_docs (d_ix st0) (d_ix st)) as (Hd & Hm & _ & Hn & _) by (etransitivity; apply direct_part_same).
  pose proof (post_all_same (length (docs ix)) (d_tf st) (push_len (d_ix st) (d_total st))) as (Hd' & Hm' & _ & Hn' & _).
  split; cbn; rewrite ?Hd', ?Hm', ?Hn'; cbn; rewrite ?Hd, ?Hm, ?Hn; cbn; rewrite !length_app; cbn; [lia|].
  intros k' i [[_ <-]|[_ Hi]]%lookup_insert_Some; [lia|]. specialize (Hk _ _ Hi). lia.
Qed.

Lemma remove_document_safe ix k : safe ix -> exists ix', remove_document ix k = Ok ix' /\ safe ix'.
Proof.
  intros [Hl Hk]. unfold remove_document. destruct (key_to_doc ix !! k) as [i|] eqn:Ei; [|by exists ix].
  pose proof (Hk _ _ Ei) as Hi. destruct (lookup_lt_is_Some_2 (docs ix) i Hi) as [d ->].
  destruct (lookup_lt_is_Some_2 (doc_len ix) i ltac:(lia)) as [n ->]. cbn [index mbind res_bind]. eexists. split; [done|].
  split; cbn; rewrite ?length_insert; [done|]. intros k' j [_ Hj]%lookup_delete_Some. by apply (Hk k').
Qed.
