(* ===== verification/Bm25Score.v ===== *)
(** * The scores of the keyword index

    With the parameters of [Bm25Index::new] the score of a document that holds a word of
    the query is a number above zero: no division by zero, no underflow, no NaN. So the
    search ranks every such document once. *)

From S2P Require Import Prelude Ordered Text Float Magnitude Bloom Bm25.
Local Open Scope Z_scope.

(** The logarithm of a number above one is positive; it is no less than that of the next number after one. *)
Definition ln_positive (ln : f64 -> f64) : Prop := forall x, f_ltb (f64_lit 1 1) x = true -> at_mag 0 40 x -> at_mag (-60) 10 (ln x).

(** The parameters of [Bm25Index::new]. *)
Definition std_params (ix : Bm25Index) : Prop := k1 ix = f64_lit 3 2 /\ b ix = f64_lit 3 4.

(** ** One term *)
Lemma idf_mag ln n d : ln_positive ln -> 0 < d <= n -> n < 2 ^ 32 -> at_mag (-60) 10 (idf ln (f64_of_Z n) (f64_of_Z d)).
Proof.
  intros Hln Hd Hn. assert (at_mag (-1) (-1) f64_half) as Hh by (by exists 4503599627370496%positive, (-53)).
  assert (at_mag 0 0 f64_one) as H1 by (by exists 4503599627370496%positive, (-52)).
  pose proof (sub_of_Z_mag n d 32 Hd Hn ltac:(lia)) as Hs. pose proof (of_Z_mag d 32 ltac:(lia) ltac:(lia)) as Hdf.
  pose proof (add_upto_mag _ _ _ _ _ _ Hs Hh ltac:(lia) ltac:(lia)) as Hnum.
  pose proof (add_mag _ _ _ _ _ _ Hdf Hh ltac:(lia) ltac:(lia)) as Hden.
  pose proof (div_mag _ _ _ _ _ _ Hnum Hden ltac:(lia) ltac:(lia)) as Hq.
  apply Hln; [by eapply add_one_above; [exact Hq|lia..]|].
  eapply at_mag_weaken; [by eapply add_mag; [exact Hq|exact H1|lia..]|lia..].
Qed.

(** A weight: [tf] and [dl] are below [2^32], the average is a quotient of such numbers, or zero. *)
Lemma term_score_mag avg w tf dl : at_mag (-60) 10 w -> 0 < tf < 2 ^ 32 -> 0 <= dl < 2 ^ 32 -> upto_mag (-33) 33 avg ->
  at_mag (-200) 200 (term_score (f64_lit 3 2) (f64_lit 3 4) avg w (f64_of_Z tf) (f64_of_Z dl)).
Proof.
  intros Hw Htf Hdl Havg. unfold term_score. pose proof (of_Z_mag tf 32 Htf ltac:(lia)) as Ht. pose proof (of_Z_upto_mag dl 32 Hdl ltac:(lia)) as Hd.
  assert (at_mag (-1) (-1) (f64_lit 3 4)) as Hb by (by eexists _, _).
  assert (at_mag 0 0 (f64_lit 3 2)) as Hk by (by eexists _, _).
  assert (at_mag (-2) (-2) (f64_sub f64_one (f64_lit 3 4))) as Hb1 by (by eexists _, _).
  assert (at_mag 1 1 (f64_add (f64_lit 3 2) f64_one)) as Hk1 by (by eexists _, _).
  assert (at_mag (-30) (-30) (f64_lit 1 1000000000)) as Hm by (by eexists _, _).
  pose proof (max_mag _ _ _ _ _ _ Havg Hm) as Hmax. pose proof (mul_upto_mag _ _ _ _ _ _ Hb Hd ltac:(lia) ltac:(lia)) as Hbd.
  pose proof (div_upto_mag _ _ _ _ _ _ Hbd Hmax ltac:(lia) ltac:(lia)) as Hq.
  assert (at_mag (-2) 80 (f64_add (f64_sub f64_one (f64_lit 3 4)) (f64_div (f64_mul (f64_lit 3 4) (f64_of_Z dl)) (f_max avg (f64_lit 1 1000000000))))) as Hin.
  { destruct Hq as [->|Hq].
    - by eexists _, _.
    - eapply at_mag_weaken; [by eapply add_mag; [exact Hb1|exact Hq|lia..]|lia..]. }
  pose proof (mul_mag _ _ _ _ _ _ Hk Hin ltac:(lia) ltac:(lia)) as Hkin. pose proof (add_mag _ _ _ _ _ _ Ht Hkin ltac:(lia) ltac:(lia)) as Hden.
  pose proof (mul_mag _ _ _ _ _ _ Ht Hk1 ltac:(lia) ltac:(lia)) as Htk. pose proof (mul_mag _ _ _ _ _ _ Hw Htk ltac:(lia) ltac:(lia)) as Hnum.
  eapply at_mag_weaken; [exact (div_mag _ _ _ _ _ _ Hnum Hden ltac:(lia) ltac:(lia))|lia..].
Qed.

(** ** A document *)
Section scores.
Context (ln : f64 -> f64) (Hln : ln_positive ln) (ix : Bm25Index) (ds : list Doc).
Context (Hrepr : bm25_repr ix ds) (Hfits : fits ds) (Hstd : std_params ix).

Abbreviation score_of := (doc_score ln (k1 ix) (b ix) (avgdl ix) ds).

Lemma avgdl_mag : upto_mag (-33) 33 (avgdl ix).
Proof.
  rewrite (rp_avgdl ix ds Hrepr). destruct (Z.ltb_spec 0 (active_docs ix)) as [Ha|]; [|by left].
  rewrite (rp_active ix ds Hrepr) in *. rewrite (rp_total ix ds Hrepr). unfold fits in Hfits.
  pose proof (total_volume ds). pose proof (length_volume ds). pose proof (length_filter (fun d => live d = true) ds).
  assert (at_mag 0 31 (f64_of_Z (Z.of_nat (length (filter (fun d => live d = true) ds))))) as Hact by (apply (of_Z_mag _ 32); lia).
  assert (upto_mag 0 31 (f64_of_Z (foldr Z.add 0 (stored_len <$> ds)))) as Htot by (apply (of_Z_upto_mag _ 32); lia).
  destruct (div_upto_mag _ _ _ _ _ _ Htot Hact ltac:(lia) ltac:(lia)) as [->|Hq]; [by left|right].
  eapply at_mag_weaken; [exact Hq|lia..].
Qed.

Lemma toks_volume d : d ∈ ds -> (length (dtoks d) < volume ds)%nat.
Proof.
  unfold volume. clear. induction ds as [|d' l IH]; [by intros ?%not_elem_of_nil|]. intros [->|Hd]%elem_of_cons; cbn; [lia|]. specialize (IH Hd). lia.
Qed.

Lemma weight_mag t d : d ∈ ds -> t ∈ dtoks d -> at_mag (-200) 200 (weight ln (k1 ix) (b ix) (avgdl ix) ds t d).
Proof.
  intros Hd Ht. unfold weight. destruct Hstd as [-> ->]. pose proof (toks_volume d Hd) as Hv. pose proof (count_le t (dtoks d)) as Hc.
  assert (count t (dtoks d) <> 0%nat) as Hc0 by (by intros Hz%count_zero). unfold fits in Hfits.
  assert (0 < length (posting_list t ds))%nat as Hp.
  { apply list_elem_of_lookup in Hd as [i Hd]. destruct (posting_list t ds) eqn:E; [|cbn; lia].
    assert ((i, Z.of_nat (count t (dtoks d))) ∈ posting_list t ds) as Hin by (apply elem_of_posting_list; eauto).
    rewrite E in Hin. by apply not_elem_of_nil in Hin. }
  pose proof (length_posting_list t ds). pose proof (length_volume ds).
  apply term_score_mag; [apply idf_mag; [done|lia..]|lia| |exact avgdl_mag]. unfold stored_len. destruct (live d); lia.
Qed.

(** The score of a document of the query is above zero, however long the query. *)
Lemma doc_score_positive q d : d ∈ ds -> (matches q d -> positive_num (score_of q d)) /\ nonneg (score_of q d).
Proof.
  intros Hd. induction q as [|t q IH] using rev_ind; [split; [by intros [_ (t & Ht%not_elem_of_nil & _)]|done]|].
  unfold doc_score in *. rewrite foldl_app. cbn [foldl]. destruct IH as [IHm IHn]. unfold add_weight at 1 3.
  destruct (searchable d) eqn:Es; cbn [andb].
  2: { split; [|done]. intros [Hs _]. by rewrite Es in Hs. }
  destruct (Nat.eqb_spec (count t (dtoks d)) 0) as [Hc|Hc]; cbn [negb].
  - split; [|done]. intros [_ (t' & Ht' & Htd)]. apply elem_of_app in Ht' as [Ht'|Ht'%list_elem_of_singleton].
    + apply IHm. split; [done|by exists t'].
    + subst t'. by apply count_zero in Hc.
  - assert (t ∈ dtoks d) as Ht by (apply dec_stable; intros Hn; by apply Hc, count_zero).
    pose proof (add_positive _ _ _ _ IHn (weight_mag t d Hd Ht) ltac:(lia)) as Hpos. split; [done|by apply positive_nonneg].
Qed.

Lemma score_positive q d : d ∈ ds -> matches q d -> f_is_zero (score_of q d) = false.
Proof. intros Hd Hm. by apply positive_nonneg, doc_score_positive. Qed.

Lemma score_not_nan q d : d ∈ ds -> is_nan (score_of q d) = false.
Proof. intros Hd. by apply nonneg_not_nan, doc_score_positive. Qed.
End scores.

(** ** The parameters do not change *)
Lemma run_loop_params fuel doc : forall ix terms tokens, same_docs ix (run_loop fuel doc ix terms tokens).1.
Proof.
  induction fuel as [|fuel IH]; intros ix terms tokens; [done|]. destruct tokens as [|t rest]; [done|]. cbn [run_loop].
  pose proof (intern_same ix t) as Hi. destruct (intern ix t) as [ix1 tid]. cbn [fst] in Hi.
  etransitivity; [exact Hi|]. etransitivity; [|apply IH]. done.
Qed.

Lemma new_params : std_params Bm25.new.
Proof. done. Qed.

Lemma same_params ix ix' : same_docs ix ix' -> std_params ix -> std_params ix'.
Proof. unfold std_params. by intros (_ & _ & _ & _ & _ & _ & _ & -> & ->). Qed.

Lemma add_tokens_params ix key toks : std_params ix -> std_params (add_tokens ix key toks).
Proof.
  intros Hp. unfold add_tokens. cbn [open_doc]. set (ix2 := push_len _ _).
  pose proof (run_loop_params (length (stable_sort bytes_leb toks)) (length (docs ix)) ix2 [] (stable_sort bytes_leb toks)) as Hs.
  destruct (run_loop _ _ _ _ _) as [ix3 terms]. exact (same_params ix2 ix3 Hs Hp).
Qed.

Lemma add_document_direct_params ix key kt vt : std_params ix -> std_params (add_document_direct ix key kt vt).
Proof.
  intros Hp. unfold add_document_direct. cbn [open_doc foldl]. set (st0 := mkDirect _ [] 0 [] false).
  assert (same_docs (d_ix st0) (d_ix (direct_part (direct_part st0 kt) vt))) as Hs by (etransitivity; apply direct_part_same).
  pose proof (same_params _ _ Hs Hp) as Hp1.
  set (st := direct_part (direct_part st0 kt) vt) in *.
  exact (same_params (push_len (d_ix st) (d_total st)) _ (post_all_same (length (docs ix)) (d_tf st) _) Hp1).
Qed.

Lemma remove_document_params ix key ix' : std_params ix -> remove_document ix key = Ok ix' -> std_params ix'.
Proof.
  intros Hp. unfold remove_document. destruct (key_to_doc ix !! key) as [i|]; [|by intros [= <-]].
  destruct (doc_len ix !! i); [|done]. destruct (docs ix !! i); [|done]. by intros [= <-].
Qed.

Lemma do_op_params ix o ix' : std_params ix -> do_op ix o = Ok ix' -> std_params ix'.
Proof.
  intros Hp. destruct o; cbn [do_op]; [intros [= <-]..|]; [by apply add_tokens_params..|by apply add_document_direct_params|].
  by apply remove_document_params.
Qed.

Lemma do_ops_params ops : forall ix ix', std_params ix -> do_ops ix ops = Ok ix' -> std_params ix'.
Proof.
  induction ops as [|o ops IH]; intros ix ix' Hp; [by intros [= <-]|]. unfold do_ops. cbn [foldl mbind res_bind].
  destruct (do_op ix o) as [ix1|[]|] eqn:E.
  - apply IH. by eapply do_op_params.
  - clear. induction ops; [done|done].
  - clear. induction ops; [done|done].
Qed.

(** ** Searching after any operations *)

(** C34: After any insertions and removals on a new index, a search never panics. Its hits are documents that hold a word of the query and
    have not been removed, each of them once, with their scores, which are above zero, ranked from zero in descending order; there are at
    most [top_k], and when there are fewer, every such document is a hit; no document left out has a higher score than one returned. *)
Theorem bm25_search_exact ln sort select ops query k : ln_positive ln -> sorts sort -> selects select -> fits (foldl spec_op [] ops) ->
  let ds := foldl spec_op [] ops in
  let q := tokenize query in
  exists ix hits cs, do_ops new ops = Ok ix /\ search ln sort select ix query k = Ok hits /\ NoDup cs.*1 /\
    Forall2 (fun c h => exists d, ds !! c.1 = Some d /\ matches q d /\ key h = dkey d /\
      score h = doc_score ln (k1 ix) (b ix) (avgdl ix) ds q d /\ c.2 = score h /\ positive_num (score h)) cs hits /\
    (forall j h, hits !! j = Some h -> rank h = j) /\ (length hits <= k)%nat /\
    ((length hits < k)%nat -> forall i d, ds !! i = Some d -> matches q d -> i ∈ cs.*1) /\
    in_order by_score cs /\
    forall i d c, ds !! i = Some d -> matches q d -> i ∉ cs.*1 -> c ∈ cs -> by_score c (i, doc_score ln (k1 ix) (b ix) (avgdl ix) ds q d) <> Gt.
Proof.
  intros Hln Hsort Hsel Hfit ds q. destruct (do_ops_ok ops new [] (with_params_repr _ _) Hfit) as (ix & E & Hr). fold ds in Hr, Hfit.
  pose proof (do_ops_params ops new ix new_params E) as Hp.
  destruct (search_ok ln sort select ix ds query k Hr Hsort Hsel) as (hits & cs & Es & Hf & Hrank & Hlen & Hall & Hord & Hnd). fold q in Hf, Hall, Hord, Hnd.
  exists ix, hits, cs. split; [done|]. split; [done|]. split; [|split; [|split; [done|split; [done|split; [done|]]]]].
  - apply Hnd. intros d q' Hd _. by apply score_positive.
  - eapply Forall2_impl; [exact Hf|]. intros c h (d & Hd & Hm & Hk & Hs & Hc). exists d. rewrite Hs. split_and!; try done.
    apply (doc_score_positive ln Hln ix ds Hr Hfit Hp); [by eapply list_elem_of_lookup_2|done].
  - apply Hord. intros d Hd. by apply score_not_nan.
Qed.

Lemma ln_sample_positive : ln_positive ln_sample.
Proof. intros x Hx _. unfold ln_sample. rewrite Hx. by eexists _, _. Qed.

Lemma bm25_search_exact_witness : exists ix hits, do_ops new sample_ops = Ok ix /\
  search ln_sample sort_by (fun _ => sort_by) ix (str "userToken") 2 = Ok hits /\ (length hits <= 2)%nat /\
  forall h, h ∈ hits -> positive_num (score h).
Proof.
  destruct (bm25_search_exact ln_sample sort_by (fun _ => sort_by) sample_ops (str "userToken") 2 ln_sample_positive sort_by_sorts sort_by_selects)
    as (ix & hits & cs & E & Es & _ & Hf & _ & Hl & _).
  { vm_compute. reflexivity. }
  exists ix, hits. split; [exact E|]. split; [exact Es|]. split; [exact Hl|]. intros h [i Hh]%list_elem_of_lookup.
  destruct (Forall2_lookup_r _ _ _ _ _ Hf Hh) as (c & _ & d & _ & _ & _ & _ & _ & Hp). exact Hp.
Defined.
