(* ===== verification/Fuzzy.v ===== *)
(** * The fuzzy symbol matcher of [src/index/fuzzy.rs]

    Normalisation, trigrams, the bounded edit distance and the matcher. A Rust
    string is its UTF-8 bytes: lowercasing and dropping ASCII separators act on
    the bytes, the distance on the scalar values. The hash map of hits is walked
    in an arbitrary order. *)

From S2P Require Import Prelude Ordered Text Float.
Local Open Scope Z_scope.

(** ** Normalisation and trigrams *)
Definition is_separator (b : byte) : bool := (b2z b =? 95) || (b2z b =? 45) || (b2z b =? 32).

Definition normalize (s : bytes) : bytes := to_lower <$> filter (fun b => is_separator b = false) s.

(** A trigram is three bytes. *)
Fixpoint windows (padded : bytes) : list bytes :=
  match padded with
  | x :: ((y :: z :: _) as rest) => [x; y; z] :: windows rest
  | _ => []
  end.

Definition trigrams (s : bytes) : list bytes :=
  match s with
  | [] => []
  | _ => windows (str "##" ++ s ++ str "##")
  end.

(** [Vec::dedup]: consecutive equal elements are merged. *)
Fixpoint dedup (l : list bytes) : list bytes :=
  match l with
  | x :: ((y :: _) as rest) => if bool_decide (x = y) then dedup rest else x :: dedup rest
  | _ => l
  end.

Definition unique_trigrams (s : bytes) : list bytes := dedup (stable_sort bytes_leb (trigrams s)).

(** ** The bounded edit distance *)
Definition chars (s : bytes) : list Z := default [] (utf8_decode s).

(** [curr[j + 1]] from the cells above, to the left and diagonal. *)
Definition lev_cell (a_i : Z) (b_chars : list Z) (prev : list nat) (acc : res unit (list nat * nat)) (j : nat)
    : res unit (list nat * nat) :=
  '(curr, row_min) ← acc;
  b_j ← index (b_chars !! j);
  up ← index (prev !! S j); left ← index (curr !! j); diag ← index (prev !! j);
  let cost := if bool_decide (a_i = b_j) then 0%nat else 1%nat in
  let v := Nat.min (Nat.min (up + 1) (left + 1)) (diag + cost) in
  _ ← index (curr !! S j);
  Ok (<[S j := v]> curr, Nat.min row_min v).

Definition lev_row (i : nat) (a_i : Z) (b_chars : list Z) (prev : list nat) : res unit (list nat * nat) :=
  let lb := length b_chars in
  foldl (lev_cell a_i b_chars prev) (Ok (replicate (lb + 1) (i + 1)%nat, (i + 1)%nat)) (seq 0 lb).

Fixpoint lev_rows (i : nat) (a_chars b_chars : list Z) (max_dist : nat) (prev : list nat) : res unit nat :=
  match a_chars with
  | [] => index (prev !! length b_chars)
  | a_i :: rest =>
      '(curr, row_min) ← lev_row i a_i b_chars prev;
      if (max_dist <? row_min)%nat then Ok (max_dist + 1)%nat
      else lev_rows (S i) rest b_chars max_dist curr
  end.

Definition levenshtein (a b : bytes) (max_dist : nat) : res unit nat :=
  let '(a, b) := if (length b <? length a)%nat then (b, a) else (a, b) in
  if (max_dist <? length b - length a)%nat then Ok (max_dist + 1)%nat
  else lev_rows 0 (chars a) (chars b) max_dist (seq 0 (length (chars b) + 1)).

(** ** The matcher *)
Record FuzzyMatch := mkMatch { symbol : bytes; distance : nat; jaccard : f64 }.

Record FuzzyMatcher := mkMatcher {
  symbols : list bytes;
  normalized : list bytes;
  tri_counts : list nat;
  tri_index : gmap bytes (list nat);
  max_distance : nat
}.

Definition new (max_distance : nat) : FuzzyMatcher := mkMatcher [] [] [] ∅ max_distance.

(** [self.index.entry(tg).or_default().push(idx)] *)
Definition push_index (idx : nat) (m : gmap bytes (list nat)) (tg : bytes) : gmap bytes (list nat) :=
  <[tg := default [] (m !! tg) ++ [idx]]> m.

Definition add (f : FuzzyMatcher) (sym : bytes) : FuzzyMatcher :=
  let idx := length (symbols f) in
  let norm := normalize sym in
  let unique := unique_trigrams norm in
  {| symbols := symbols f ++ [sym]; normalized := normalized f ++ [norm];
     tri_counts := tri_counts f ++ [length unique];
     tri_index := foldl (push_index idx) (tri_index f) unique; max_distance := max_distance f |}.

Definition len (f : FuzzyMatcher) : nat := length (symbols f).

(** [*hit_count.entry(idx).or_default() += 1] *)
Definition count_hit (hits : gmap nat nat) (idx : nat) : gmap nat nat :=
  <[idx := (default 0%nat (hits !! idx) + 1)%nat]> hits.

Definition count_trigram (f : FuzzyMatcher) (hits : gmap nat nat) (tg : bytes) : gmap nat nat :=
  match tri_index f !! tg with
  | Some indices => foldl count_hit hits indices
  | None => hits
  end.

Definition candidate (f : FuzzyMatcher) (q_tri_n : nat) (p : nat * nat) : res unit (f64 * nat) :=
  n ← index (tri_counts f !! p.1);
  let union := u64 (Z.of_nat q_tri_n + Z.of_nat n - Z.of_nat p.2) in
  Ok (if 0 <? union then f64_div (f64_of_Z (Z.of_nat p.2)) (f64_of_Z union) else f64_zero, p.1).

(** Descending similarity, then ascending index. *)
Definition by_jaccard (x y : f64 * nat) : comparison := then_cmp (f_cmp_desc x.1 y.1) (Nat.compare x.2 y.2).

(** Distance, then exact spelling first, then similarity, then index. *)
Definition by_distance (x y : nat * bool * f64 * nat) : comparison :=
  then_cmp (then_cmp (then_cmp (Nat.compare x.1.1.1 y.1.1.1) (bool_cmp x.1.1.2 y.1.1.2))
    (f_cmp_desc x.1.2 y.1.2)) (Nat.compare x.2 y.2).

(** [top_k.max(50) * 4], which wraps. *)
Definition candidate_limit (top_k : nat) : nat := Z.to_nat (u64 (Z.of_nat (Nat.max top_k 50) * 4)).

Definition rank_candidate (f : FuzzyMatcher) (q q_norm : bytes) (max_distance : nat)
    (acc : res unit (list (nat * bool * f64 * nat))) (c : f64 * nat) : res unit (list (nat * bool * f64 * nat)) :=
  results ← acc;
  norm ← index (normalized f !! c.2);
  dist ← levenshtein q_norm norm max_distance;
  if (dist <=? max_distance)%nat then
    sym ← index (symbols f !! c.2);
    Ok (results ++ [(dist, negb (bool_decide (sym = q)), c.1, c.2)])
  else Ok results.

Definition to_match (f : FuzzyMatcher) (r : nat * bool * f64 * nat) : res unit FuzzyMatch :=
  let '(dist, _, jac, idx) := r in sym ← index (symbols f !! idx); Ok (mkMatch sym dist jac).

Section query.
Variable iter : gmap nat nat -> list (nat * nat).

Definition query_with_max (f : FuzzyMatcher) (q : bytes) (top_k max_distance : nat) : res unit (list FuzzyMatch) :=
  let q_norm := normalize q in
  match trigrams q_norm with
  | [] => Ok []
  | _ =>
      let q_trigs := unique_trigrams q_norm in
      let hits := foldl (count_trigram f) ∅ q_trigs in
      if bool_decide (hits = ∅) then Ok []
      else
        candidates ← mapM (candidate f (length q_trigs)) (iter hits);
        let candidates := take (candidate_limit top_k) (sort_by by_jaccard candidates) in
        results ← foldl (rank_candidate f q q_norm max_distance) (Ok []) candidates;
        mapM (to_match f) (take top_k (sort_by by_distance results))
  end.

Definition query (f : FuzzyMatcher) (q : bytes) (top_k : nat) : res unit (list FuzzyMatch) :=
  query_with_max f q top_k (max_distance f).
End query.

(** ** The edit distance

    An edit script of cost [n] from one sequence to another, from left to right,
    and the least cost of one. *)
Inductive edits : list Z -> list Z -> nat -> Prop :=
  | edits_nil : edits [] [] 0
  | edits_delete a b n x : edits a b n -> edits (a ++ [x]) b (S n)
  | edits_insert a b n y : edits a b n -> edits a (b ++ [y]) (S n)
  | edits_keep a b n x : edits a b n -> edits (a ++ [x]) (b ++ [x]) n
  | edits_replace a b n x y : edits a b n -> edits (a ++ [x]) (b ++ [y]) (S n).

Definition edit_distance (a b : list Z) (n : nat) : Prop :=
  edits a b n /\ forall m, edits a b m -> (n <= m)%nat.

Lemma edits_sym a b n : edits a b n -> edits b a n.
Proof. induction 1; by constructor. Qed.

Lemma edit_distance_sym a b n : edit_distance a b n -> edit_distance b a n.
Proof. intros [He Hm]. split; [by apply edits_sym|]. intros m H. by apply Hm, edits_sym. Qed.

Lemma edits_length a b n : edits a b n -> (length a <= length b + n)%nat /\ (length b <= length a + n)%nat.
Proof. induction 1; rewrite ?length_app in *; cbn in *; lia. Qed.

Lemma edits_nil_l b : edits [] b (length b).
Proof.
  induction b as [|y b IH] using rev_ind; [constructor|]. rewrite length_app, Nat.add_comm. by apply edits_insert.
Qed.

Lemma edit_distance_nil b : edit_distance [] b (length b).
Proof. split; [apply edits_nil_l|]. intros m Hm%edits_length. cbn in Hm. lia. Qed.

Lemma edit_distance_unique a b n m : edit_distance a b n -> edit_distance a b m -> n = m.
Proof. intros [H1 H2] [H3 H4]. apply Nat.le_antisymm; auto. Qed.

(** A script passes through every prefix of its source. *)
Lemma edits_split a1 a2 b n : edits (a1 ++ a2) b n -> exists b1 b2 m, b = b1 ++ b2 /\ edits a1 b1 m /\ (m <= n)%nat.
Proof.
  remember (a1 ++ a2) as a eqn:Ea. intros H. revert a1 a2 Ea.
  induction H as [|a b n x H IH|a b n y H IH|a b n x H IH|a b n x y H IH]; intros a1 a2 Ea.
  - symmetry in Ea. apply app_nil in Ea as [-> ->]. exists [], [], 0%nat. split_and!; [done|constructor|lia].
  - destruct a2 as [|z a2 _] using rev_ind.
    + rewrite app_nil_r in Ea. subst a1. exists b, [], (S n). rewrite app_nil_r. split_and!; [done|by constructor|lia].
    + rewrite app_assoc in Ea. apply app_inj_tail in Ea as [-> ->].
      destruct (IH a1 a2 eq_refl) as (b1 & b2 & m & -> & ? & ?). exists b1, b2, m. split_and!; [done|done|lia].
  - destruct (IH a1 a2 Ea) as (b1 & b2 & m & -> & ? & ?). exists b1, (b2 ++ [y]), m. split_and!; [by rewrite app_assoc|done|lia].
  - destruct a2 as [|z a2 _] using rev_ind.
    + rewrite app_nil_r in Ea. subst a1. exists (b ++ [x]), [], n. rewrite app_nil_r. split_and!; [done|by constructor|lia].
    + rewrite app_assoc in Ea. apply app_inj_tail in Ea as [-> ->].
      destruct (IH a1 a2 eq_refl) as (b1 & b2 & m & -> & ? & ?). exists b1, (b2 ++ [z]), m. split_and!; [by rewrite app_assoc|done|lia].
  - destruct a2 as [|z a2 _] using rev_ind.
    + rewrite app_nil_r in Ea. subst a1. exists (b ++ [y]), [], (S n). rewrite app_nil_r. split_and!; [done|by constructor|lia].
    + rewrite app_assoc in Ea. apply app_inj_tail in Ea as [-> ->].
      destruct (IH a1 a2 eq_refl) as (b1 & b2 & m & -> & ? & ?). exists b1, (b2 ++ [y]), m. split_and!; [by rewrite app_assoc|done|lia].
Qed.

(** The recurrence of the dynamic programme. *)
Lemma edits_snoc_inv a b x y n : edits (a ++ [x]) (b ++ [y]) n ->
  (exists m, n = S m /\ edits a (b ++ [y]) m) \/ (exists m, n = S m /\ edits (a ++ [x]) b m) \/
  (x = y /\ edits a b n) \/ (exists m, n = S m /\ edits a b m).
Proof.
  intros H. remember (a ++ [x]) as a' eqn:Ea. remember (b ++ [y]) as b' eqn:Eb.
  destruct H as [|a0 b0 n z H|a0 b0 n z H|a0 b0 n z H|a0 b0 n z z' H].
  - by destruct a.
  - apply app_inj_tail in Ea as [-> ->]. left. subst. eauto.
  - apply app_inj_tail in Eb as [-> ->]. right. left. subst. eauto.
  - apply app_inj_tail in Ea as [-> ->]. apply app_inj_tail in Eb as [-> ->]. right. right. by left.
  - apply app_inj_tail in Ea as [-> ->]. apply app_inj_tail in Eb as [-> ->]. right. right. right. eauto.
Qed.

Lemma edit_distance_snoc a b x y up left diag :
  edit_distance a (b ++ [y]) up -> edit_distance (a ++ [x]) b left -> edit_distance a b diag ->
  edit_distance (a ++ [x]) (b ++ [y])
    (Nat.min (Nat.min (up + 1) (left + 1)) (diag + if bool_decide (x = y) then 0%nat else 1%nat)).
Proof.
  intros [Hu Hu'] [Hl Hl'] [Hd Hd']. split.
  - destruct (Nat.min_spec (Nat.min (up + 1) (left + 1)) (diag + if bool_decide (x = y) then 0%nat else 1%nat)) as [[_ ->]|[_ ->]].
    + destruct (Nat.min_spec (up + 1) (left + 1)) as [[_ ->]|[_ ->]]; rewrite Nat.add_comm; by constructor.
    + destruct (bool_decide_reflect (x = y)) as [->|]; [rewrite Nat.add_0_r|rewrite Nat.add_comm]; by constructor.
  - intros m [(k & -> & H)|[(k & -> & H)|[[-> H]|(k & -> & H)]]]%edits_snoc_inv.
    + apply Hu' in H. lia.
    + apply Hl' in H. lia.
    + rewrite bool_decide_eq_true_2 by done. apply Hd' in H. lia.
    + apply Hd' in H. destruct (bool_decide (x = y)); lia.
Qed.

(** A row of the table: the distances from [a] to the prefixes of [b]. *)
Definition row_of (a b : list Z) (prev : list nat) : Prop :=
  length prev = S (length b) /\
  forall j v, (j <= length b)%nat -> prev !! j = Some v -> edit_distance a (take j b) v.

Lemma row_start b : row_of [] b (seq 0 (length b + 1)).
Proof.
  split; [rewrite length_seq; lia|]. intros j v Hj Hv. apply lookup_seq in Hv as [-> _]. cbn [Nat.add].
  pose proof (edit_distance_nil (take j b)) as H. by rewrite length_take, Nat.min_l in H.
Qed.

Lemma lev_cells_ok a x b prev : row_of a b prev -> forall n, (n <= length b)%nat ->
  exists curr row_min, foldl (lev_cell x b prev) (Ok (replicate (length b + 1) (length a + 1)%nat, (length a + 1)%nat)) (seq 0 n)
      = Ok (curr, row_min) /\
    length curr = S (length b) /\
    (forall j v, (j <= n)%nat -> curr !! j = Some v -> edit_distance (a ++ [x]) (take j b) v /\ (row_min <= v)%nat).
Proof.
  intros [Hlen Hprev]. induction n as [|n IH]; intros Hn.
  - exists (replicate (length b + 1) (length a + 1)%nat), (length a + 1)%nat. split_and!; [done|rewrite length_replicate; lia|].
    intros j v Hj Hv. assert (j = 0%nat) as -> by lia. apply lookup_replicate in Hv as [-> _]. split; [|lia]. cbn [take].
    apply edit_distance_sym. pose proof (edit_distance_nil (a ++ [x])) as H. by rewrite length_app in H.
  - destruct IH as (curr & rm & E & Hl & Hc); [lia|]. rewrite seq_S, foldl_app, E. cbn [foldl Nat.add].
    unfold lev_cell. cbn [mbind res_bind].
    destruct (lookup_lt_is_Some_2 b n ltac:(lia)) as [y Hy]. destruct (lookup_lt_is_Some_2 prev (S n) ltac:(lia)) as [up Hup].
    destruct (lookup_lt_is_Some_2 curr n ltac:(lia)) as [left Hleft]. destruct (lookup_lt_is_Some_2 prev n ltac:(lia)) as [diag Hdiag].
    destruct (lookup_lt_is_Some_2 curr (S n) ltac:(lia)) as [old Hold].
    rewrite Hy, Hup, Hleft, Hdiag, Hold. cbn [index mbind res_bind].
    assert (take (S n) b = take n b ++ [y]) as Et by (by apply take_S_r).
    pose proof (Hprev (S n) up ltac:(lia) Hup) as Du. rewrite Et in Du. destruct (Hc n left ltac:(lia) Hleft) as [Dl _].
    pose proof (Hprev n diag ltac:(lia) Hdiag) as Dd.
    pose proof (edit_distance_snoc a (take n b) x y up left diag Du Dl Dd) as D.
    set (v := Nat.min _ _) in *. exists (<[S n := v]> curr), (Nat.min rm v). split; [done|]. split; [by rewrite length_insert|].
    intros j w Hj Hw. destruct (decide (j = S n)) as [->|Hne].
    + rewrite list_lookup_insert_eq in Hw by lia. injection Hw as <-. rewrite Et. split; [done|lia].
    + rewrite list_lookup_insert_ne in Hw by done. destruct (Hc j w ltac:(lia) Hw). split; [done|lia].
Qed.

Lemma lev_row_ok a x b prev : row_of a b prev -> exists curr row_min, lev_row (length a) x b prev = Ok (curr, row_min) /\
  row_of (a ++ [x]) b curr /\ (forall j v, (j <= length b)%nat -> curr !! j = Some v -> (row_min <= v)%nat).
Proof.
  intros H. destruct (lev_cells_ok a x b prev H (length b) ltac:(lia)) as (curr & rm & E & Hl & Hc).
  exists curr, rm. split; [exact E|]. split; [split; [done|]|]; intros j v Hj Hv; by apply (Hc j v).
Qed.

(** What the bounded distance promises: the distance itself, unless it gave up, and
    then every script costs more than the bound. *)
Definition bounded_distance (a b : list Z) (max r : nat) : Prop :=
  edit_distance a b r \/ (r = (max + 1)%nat /\ forall m, edits a b m -> (max < m)%nat).

Lemma lev_rows_ok b max a2 : forall a1 prev, row_of a1 b prev ->
  exists r, lev_rows (length a1) a2 b max prev = Ok r /\ bounded_distance (a1 ++ a2) b max r.
Proof.
  induction a2 as [|x a2 IH]; intros a1 prev Hrow; cbn [lev_rows].
  - destruct Hrow as [Hl Hp]. destruct (lookup_lt_is_Some_2 prev (length b) ltac:(lia)) as [v Hv]. rewrite Hv. exists v.
    split; [done|]. left. rewrite app_nil_r. specialize (Hp (length b) v ltac:(lia) Hv). by rewrite take_ge in Hp.
  - destruct (lev_row_ok a1 x b prev Hrow) as (curr & rm & -> & Hrow' & Hmin). cbn [mbind res_bind].
    destruct (Nat.ltb_spec max rm) as [Hlt|_].
    + exists (max + 1)%nat. split; [done|]. right. split; [done|]. intros m Hm.
      change (x :: a2) with ([x] ++ a2) in Hm. rewrite app_assoc in Hm.
      apply edits_split in Hm as (b1 & b2 & k & -> & Hk & Hkm). destruct Hrow' as [Hl Hp].
      rewrite length_app in Hl. destruct (lookup_lt_is_Some_2 curr (length b1) ltac:(lia)) as [v Hv].
      assert (length b1 <= length (b1 ++ b2))%nat as Hb1 by (rewrite length_app; lia).
      pose proof (Hp _ v Hb1 Hv) as [_ Hleast]. rewrite take_app_length in Hleast.
      pose proof (Hleast k Hk). pose proof (Hmin _ v Hb1 Hv). lia.
    + destruct (IH (a1 ++ [x]) curr Hrow') as (r & E & Hr). exists r. rewrite length_app, Nat.add_comm in E. cbn in E.
      split; [done|]. by rewrite <- app_assoc in Hr.
Qed.

(** Plain ASCII, where bytes are characters. *)
Definition ascii (s : bytes) : Prop := Forall (fun b => b2z b < 128) s.

Lemma chars_ascii s : ascii s -> chars s = b2z <$> s.
Proof. intros H. unfold chars. by rewrite utf8_decode_ascii. Qed.

Lemma bounded_distance_sym a b max r : bounded_distance a b max r -> bounded_distance b a max r.
Proof.
  intros [H|[-> H]]; [left; by apply edit_distance_sym|right]. split; [done|]. intros m Hm. by apply H, edits_sym.
Qed.

(** The bounded distance of ASCII strings never panics and is the edit distance,
    unless it stops early, at [max_dist + 1], on strings further apart than
    [max_dist]. *)
Lemma levenshtein_bounded a b max : ascii a -> ascii b ->
  exists r, levenshtein a b max = Ok r /\ bounded_distance (b2z <$> a) (b2z <$> b) max r.
Proof.
  assert (forall a b, ascii a -> ascii b -> (length a <= length b)%nat -> exists r,
    (if (max <? length b - length a)%nat then Ok (max + 1)%nat
     else lev_rows 0 (chars a) (chars b) max (seq 0 (length (chars b) + 1))) = Ok r /\
    bounded_distance (b2z <$> a) (b2z <$> b) max r) as Hle.
  { intros x y Hx Hy Hl. destruct (Nat.ltb_spec max (length y - length x)).
    - exists (max + 1)%nat. split; [done|]. right. split; [done|]. intros m Hm%edits_length. rewrite !length_fmap in Hm. lia.
    - rewrite !chars_ascii by done. exact (lev_rows_ok (b2z <$> y) max (b2z <$> x) [] _ (row_start _)). }
  intros Ha Hb. unfold levenshtein. destruct (Nat.ltb_spec (length b) (length a)).
  - destruct (Hle b a Hb Ha ltac:(lia)) as (r & E & Hr). exists r. split; [done|]. by apply bounded_distance_sym.
  - by apply Hle.
Qed.

(** For ASCII symbols the matcher's distance is exact up to the bound: it never
    panics, it is at most [max_dist] exactly when the strings are that close, and
    then it is their edit distance. *)
Theorem levenshtein_exact a b max d : ascii a -> ascii b -> edit_distance (b2z <$> a) (b2z <$> b) d ->
  exists r, levenshtein a b max = Ok r /\ ((r <= max)%nat <-> (d <= max)%nat) /\ ((d <= max)%nat -> r = d).
Proof.
  intros Ha Hb Hd. destruct (levenshtein_bounded a b max Ha Hb) as (r & E & [Hr|[-> Hr]]); exists r || exists (max + 1)%nat.
  - pose proof (edit_distance_unique _ _ _ _ Hr Hd) as ->. done.
  - split; [done|]. specialize (Hr d (proj1 Hd)). lia.
Qed.

(** The bound is not the value returned: two strings at distance 4 can be reported
    at 4 for a bound of 2, and on other characters the early exit compares bytes. *)
Example levenshtein_over_bound : levenshtein (str "axx") (str "ayyzz") 2 = Ok 4%nat.
Proof. vm_compute. reflexivity. Qed.

Example levenshtein_bytes : levenshtein [xe6; x97; xa5] (str "a") 1 = Ok 2%nat.
Proof. vm_compute. reflexivity. Qed.

Lemma levenshtein_exact_witness : exists r, levenshtein (str "getuser") (str "getusr") 4 = Ok r /\
  ((r <= 4)%nat <-> (1 <= 4)%nat) /\ ((1 <= 4)%nat -> r = 1%nat).
Proof.
  apply levenshtein_exact; [apply (bool_decide_unpack _); vm_compute; exact I..|]. split.
  - change (b2z <$> str "getuser") with ([103; 101; 116; 117; 115] ++ [101] ++ [114]).
    change (b2z <$> str "getusr") with ([103; 101; 116; 117; 115] ++ [114]). rewrite app_assoc.
    apply edits_keep, edits_delete.
    apply (edits_keep [103; 101; 116; 117] [103; 101; 116; 117] 0 115), (edits_keep [103; 101; 116] [103; 101; 116] 0 117),
      (edits_keep [103; 101] [103; 101] 0 116), (edits_keep [103] [103] 0 101), (edits_keep [] [] 0 103), edits_nil.
  - intros m Hm%edits_length. cbn in Hm. lia.
Defined.

(** ** Distinct trigrams *)
Lemma dedup_ok l : StronglySorted (fun x y => bytes_leb x y = true) l ->
  keys_sorted (dedup l) /\ (forall x, x ∈ dedup l <-> x ∈ l).
Proof.
  induction l as [|x l IH]; intros Hs; [split; [constructor|done]|].
  apply StronglySorted_inv in Hs as [Hs Hx]. destruct (IH Hs) as [Hks Hin]. destruct l as [|y l].
  - split; [repeat constructor|done].
  - change (dedup (x :: y :: l)) with (if bool_decide (x = y) then dedup (y :: l) else x :: dedup (y :: l)).
    destruct (bool_decide_reflect (x = y)) as [->|Hne].
    + split; [done|]. intros z. rewrite Hin. set_solver.
    + split; [|intros z; rewrite (elem_of_cons (dedup (y :: l))), (elem_of_cons (y :: l)), Hin; done]. constructor; [done|].
      rewrite Forall_forall in Hx |- *. intros z Hz%Hin. pose proof (Hx z Hz) as Hxz. apply bytes_leb_le, bytes_le_lt_eq in Hxz as [?| ->]; [done|].
      exfalso. apply elem_of_cons in Hz as [?|Hz]; [done|]. apply StronglySorted_inv in Hs as [_ Hy].
      rewrite Forall_forall in Hy. specialize (Hy z Hz). specialize (Hx y ltac:(left)). apply bytes_leb_le in Hy, Hx.
      apply bytes_le_lt_eq in Hy as [Hy|Hy]; [|congruence]. by apply (bytes_nlt_le y z) in Hx.
Qed.

Lemma unique_trigrams_ok s : NoDup (unique_trigrams s) /\ (forall t, t ∈ unique_trigrams s <-> t ∈ trigrams s).
Proof.
  unfold unique_trigrams. destruct (dedup_ok (stable_sort bytes_leb (trigrams s))) as [Hs Hin].
  - apply (stable_sort_sorted bytes_leb (key_leb_total (fun x => x)) (key_leb_trans (fun x => x))).
  - split; [by apply keys_sorted_nodup|]. intros t. rewrite Hin. by rewrite stable_sort_perm.
Qed.

(** ** The matcher's invariant *)
Record fuzzy_wf (f : FuzzyMatcher) : Prop := {
  fw_norm : normalized f = normalize <$> symbols f;
  fw_counts : tri_counts f = (fun s => length (unique_trigrams (normalize s))) <$> symbols f;
  fw_nodup : forall tg, NoDup (default [] (tri_index f !! tg));
  fw_elem : forall tg i, i ∈ default [] (tri_index f !! tg) <->
    exists s, symbols f !! i = Some s /\ tg ∈ trigrams (normalize s)
}.

Lemma fuzzy_new_wf m : fuzzy_wf (new m).
Proof.
  split; try done; cbn.
  - intros tg. rewrite lookup_empty. constructor.
  - intros tg i. rewrite lookup_empty. cbn. split; [intros H; by apply not_elem_of_nil in H|].
    intros (s & H & _). by rewrite lookup_nil in H.
Qed.

Lemma push_all_ok idx tgs : forall m tg, NoDup tgs ->
  default [] (foldl (push_index idx) m tgs !! tg) = default [] (m !! tg) ++ if decide (tg ∈ tgs) then [idx] else [].
Proof.
  induction tgs as [|t tgs IH]; intros m tg Hnd; cbn [foldl].
  { rewrite decide_False by apply not_elem_of_nil. by rewrite app_nil_r. }
  apply NoDup_cons in Hnd as [Hni Hnd]. rewrite IH by done. unfold push_index at 1. destruct (decide (tg = t)) as [->|Hne].
  - rewrite lookup_insert_eq. cbn. rewrite decide_False, app_nil_r, decide_True by (done || left). done.
  - rewrite lookup_insert_ne by done. f_equal. destruct (decide (tg ∈ tgs)) as [Hi|Hi].
    + by rewrite decide_True by (by right).
    + rewrite decide_False; [done|]. by intros [?|?]%elem_of_cons.
Qed.

Lemma add_wf f s : fuzzy_wf f -> fuzzy_wf (add f s).
Proof.
  intros [Hn Hc Hd He]. destruct (unique_trigrams_ok (normalize s)) as [Hnd Hin]. split; cbn.
  - by rewrite Hn, fmap_app.
  - by rewrite Hc, fmap_app.
  - intros tg. rewrite push_all_ok by done. apply NoDup_app. split_and!; [done| |destruct (decide _); [apply NoDup_singleton|constructor]].
    intros i (s' & Hs' & _)%He Hi. apply lookup_lt_Some in Hs'. destruct (decide _); [|by apply not_elem_of_nil in Hi].
    apply list_elem_of_singleton in Hi. lia.
  - intros tg i. rewrite push_all_ok, elem_of_app, He by done. split.
    + intros [(s' & Hs' & Ht)|Hi].
      * exists s'. split; [|done]. by apply lookup_app_l_Some.
      * destruct (decide (tg ∈ unique_trigrams (normalize s))) as [Hu|]; [|by apply not_elem_of_nil in Hi].
        apply list_elem_of_singleton in Hi as ->. exists s. split; [|by apply Hin].
        by rewrite lookup_app_r, Nat.sub_diag by done.
    + intros (s' & [Hs'|[Hl Hs']]%lookup_app_Some & Ht); [left; eauto|]. right.
      apply list_lookup_singleton_Some in Hs' as [Hi <-]. rewrite decide_True by (by apply Hin).
      apply list_elem_of_singleton. lia.
Qed.

(** ** Similarity *)
(** The number of trigrams a query shares with a symbol, and their Jaccard index. *)
Definition shared (q s : bytes) : nat :=
  length (filter (fun t => t ∈ trigrams (normalize s)) (unique_trigrams (normalize q))).

Definition similarity (q s : bytes) : f64 :=
  f64_div (f64_of_Z (Z.of_nat (shared q s)))
    (f64_of_Z (Z.of_nat (length (unique_trigrams (normalize q))) + Z.of_nat (length (unique_trigrams (normalize s)))
               - Z.of_nat (shared q s))).

Lemma count_hits_ok l : forall (hits : gmap nat nat) i, NoDup l ->
  foldl count_hit hits l !! i = if decide (i ∈ l) then Some (default 0%nat (hits !! i) + 1)%nat else hits !! i.
Proof.
  induction l as [|j l IH]; intros hits i Hnd; cbn [foldl].
  { by rewrite decide_False by apply not_elem_of_nil. }
  apply NoDup_cons in Hnd as [Hni Hnd]. rewrite IH by done. unfold count_hit. destruct (decide (i = j)) as [->|Hne].
  - rewrite lookup_insert_eq, decide_False, decide_True by (done || left). done.
  - rewrite lookup_insert_ne by done. destruct (decide (i ∈ l)) as [Hi|Hi].
    + by rewrite decide_True by (by right).
    + rewrite decide_False; [done|]. by intros [?|?]%elem_of_cons.
Qed.

Definition as_count (n : nat) : option nat := match n with O => None | _ => Some n end.

Lemma count_trigrams_ok f : fuzzy_wf f -> forall tgs (hits : gmap nat nat) n i,
  hits !! i = as_count n ->
  foldl (count_trigram f) hits tgs !! i =
    as_count (n + length (filter (fun t => i ∈ default [] (tri_index f !! t)) tgs)).
Proof.
  intros Hwf. induction tgs as [|t tgs IH]; intros hits n i Hn; cbn [foldl]; [cbn; by rewrite Nat.add_0_r|].
  rewrite filter_cons. unfold count_trigram at 2. pose proof (fw_nodup f Hwf t) as Hnd.
  assert (match tri_index f !! t with Some js => foldl count_hit hits js | None => hits end
    = foldl count_hit hits (default [] (tri_index f !! t))) as -> by (by destruct (tri_index f !! t)).
  destruct (decide (i ∈ default [] (tri_index f !! t))) as [Hi|Hi].
  - rewrite (IH _ (n + 1)%nat).
    + cbn [length]. by rewrite <- Nat.add_assoc.
    + rewrite count_hits_ok, decide_True by done. rewrite Hn. by destruct n.
  - apply IH. by rewrite count_hits_ok, decide_False by done.
Qed.

Lemma hits_ok f q i : fuzzy_wf f ->
  foldl (count_trigram f) ∅ (unique_trigrams (normalize q)) !! i = s ← symbols f !! i; as_count (shared q s).
Proof.
  intros Hwf. rewrite (count_trigrams_ok f Hwf _ ∅ 0%nat i (lookup_empty i)). cbn [Nat.add].
  destruct (symbols f !! i) as [s|] eqn:Es; cbn [mbind option_bind].
  - unfold shared. do 2 f_equal. apply list_filter_iff. intros t. rewrite (fw_elem f Hwf). naive_solver.
  - rewrite filter_none; [done|]. apply Forall_forall. intros t _ (s & Hs & _)%(fw_elem f Hwf). congruence.
Qed.

(** Strings are shorter than [2^51] bytes. *)
Definition short (s : bytes) : Prop := Z.of_nat (length s) < 2 ^ 51.

Lemma length_windows s : (length (windows s) <= length s)%nat.
Proof.
  induction s as [|x s IH]; [cbn; lia|]. destruct s as [|y [|z s]]; [cbn; lia..|].
  change (windows (x :: y :: z :: s)) with ([x; y; z] :: windows (y :: z :: s)). cbn [length] in *. lia.
Qed.

Lemma length_unique s : (length (unique_trigrams (normalize s)) <= length s + 4)%nat.
Proof.
  destruct (unique_trigrams_ok (normalize s)) as [Hnd Hin].
  assert (length (unique_trigrams (normalize s)) <= length (trigrams (normalize s)))%nat as H1.
  { apply submseteq_length, NoDup_submseteq; [done|]. intros t. by rewrite Hin. }
  assert (length (normalize s) <= length s)%nat by (unfold normalize; rewrite length_fmap; apply length_filter).
  assert (length (trigrams (normalize s)) <= length (normalize s) + 4)%nat; [|lia].
  unfold trigrams. destruct (normalize s) as [|x l]; [cbn; lia|]. etransitivity; [apply length_windows|].
  rewrite !length_app. cbn. lia.
Qed.

Lemma shared_le q s : (shared q s <= length (unique_trigrams (normalize q)))%nat /\
  (shared q s <= length (unique_trigrams (normalize s)))%nat.
Proof.
  unfold shared. split; [apply length_filter|]. apply submseteq_length, NoDup_submseteq.
  - apply NoDup_filter, unique_trigrams_ok.
  - intros t [Ht _]%list_elem_of_filter. by apply unique_trigrams_ok.
Qed.

(** The similarity of strings that share a trigram is a number, not negative. *)
Lemma similarity_nonneg q s : short q -> short s -> shared q s <> 0%nat -> nonneg (similarity q s).
Proof.
  unfold short. intros Hq Hs Hn. pose proof (length_unique q). pose proof (length_unique s). destruct (shared_le q s).
  apply div_nonneg; [apply finite_pos_nonneg|]; apply f64_of_Z_pos; lia.
Qed.

Lemma candidate_ok f q s i n : fuzzy_wf f -> short q -> short s -> symbols f !! i = Some s -> shared q s = n -> n <> 0%nat ->
  candidate f (length (unique_trigrams (normalize q))) (i, n) = Ok (similarity q s, i).
Proof.
  unfold short. intros Hwf Hq Hs Hi <- Hn. unfold candidate. cbn [fst snd]. rewrite (fw_counts f Hwf), list_lookup_fmap, Hi.
  cbn [fmap option_fmap option_map index mbind res_bind].
  pose proof (length_unique q). pose proof (length_unique s). destruct (shared_le q s).
  rewrite wrap_small by lia. by rewrite (proj2 (Z.ltb_lt _ _)) by lia.
Qed.

(** ** The query *)
Lemma normalize_ascii s : ascii s -> ascii (normalize s).
Proof.
  unfold ascii, normalize. rewrite Forall_fmap, !Forall_forall. intros H b [_ Hb]%list_elem_of_filter. cbn.
  specialize (H b Hb). unfold to_lower, is_upper. destruct (Z.leb_spec 65 (b2z b)), (Z.leb_spec (b2z b) 90); cbn; try done.
  rewrite b2z_z2b, Z.mod_small; lia.
Qed.

Definition sym_at (f : FuzzyMatcher) (i : nat) : bytes := default [] (symbols f !! i).

(** The entry of the results for a candidate, if it is close enough. *)
Definition ranked (f : FuzzyMatcher) (q : bytes) (max : nat) (c : f64 * nat) : option (nat * bool * f64 * nat) :=
  match levenshtein (normalize q) (normalize (sym_at f c.2)) max with
  | Ok d => if (d <=? max)%nat then Some (d, negb (bool_decide (sym_at f c.2 = q)), c.1, c.2) else None
  | _ => None
  end.

(** A candidate: a symbol that shares a trigram with the query. *)
Definition is_candidate (f : FuzzyMatcher) (q : bytes) (c : f64 * nat) : Prop :=
  exists s, symbols f !! c.2 = Some s /\ shared q s <> 0%nat /\ c.1 = similarity q s.

Section query_spec.
Variable f : FuzzyMatcher.
Variables (q : bytes) (max : nat).
Hypothesis Hwf : fuzzy_wf f.
Hypothesis Hq : ascii q /\ short q.
Hypothesis Hsyms : Forall (fun s => ascii s /\ short s) (symbols f).

Lemma sym_ok i s : symbols f !! i = Some s -> ascii s /\ short s.
Proof. intros H. rewrite Forall_forall in Hsyms. eapply Hsyms, list_elem_of_lookup_2, H. Qed.

Lemma ranked_eq c s d : symbols f !! c.2 = Some s -> levenshtein (normalize q) (normalize s) max = Ok d ->
  ranked f q max c = if (d <=? max)%nat then Some (d, negb (bool_decide (s = q)), c.1, c.2) else None.
Proof. intros Hs Hd. unfold ranked, sym_at. rewrite Hs. cbn [from_option id]. by rewrite Hd. Qed.

Lemma rank_candidates_ok cs : forall acc, Forall (is_candidate f q) cs ->
  foldl (rank_candidate f q (normalize q) max) (Ok acc) cs = Ok (acc ++ omap (ranked f q max) cs).
Proof.
  induction cs as [|c cs IH]; intros acc Hcs; cbn [foldl omap list_omap]; [by rewrite app_nil_r|].
  apply Forall_cons in Hcs as [(s & Hs & _ & _) Hcs]. unfold rank_candidate at 2. cbn [mbind res_bind].
  rewrite (fw_norm f Hwf), list_lookup_fmap, Hs. cbn [fmap option_fmap option_map index mbind res_bind].
  destruct (sym_ok _ _ Hs) as [Ha _].
  destruct (levenshtein_bounded (normalize q) (normalize s) max) as (r & E & _); [by apply normalize_ascii; try apply Hq..|].
  rewrite (ranked_eq c s r Hs E), E. cbn [mbind res_bind].
  destruct (r <=? max)%nat; cbn [index mbind res_bind]; rewrite IH by done; [by rewrite <- app_assoc|done].
Qed.

Lemma ranked_nodup cs : NoDup cs.*2 -> NoDup (omap (ranked f q max) cs).*2.
Proof.
  assert (forall cs r, r ∈ omap (ranked f q max) cs -> r.2 ∈ cs.*2) as Hin.
  { intros l r (c & Hc & E)%list_elem_of_omap. apply list_elem_of_fmap. exists c. split; [|done].
    unfold ranked in E. destruct (levenshtein _ _ _) as [d| |]; [|done..]. destruct (d <=? max)%nat; [|done]. by injection E as <-. }
  induction cs as [|c cs IH]; intros Hnd; [constructor|]. cbn [fmap list_fmap] in Hnd. apply NoDup_cons in Hnd as [Hni Hnd].
  cbn [omap list_omap]. destruct (ranked f q max c) as [r|] eqn:E; [|by apply IH]. cbn [fmap list_fmap]. constructor; [|by apply IH].
  assert (r.2 = c.2) as ->.
  { unfold ranked in E. destruct (levenshtein _ _ _) as [d| |]; [|done..]. destruct (d <=? max)%nat; [|done]. by injection E as <-. }
  intros (r' & Er & Hr')%list_elem_of_fmap. apply Hni. rewrite Er. by apply Hin.
Qed.

(** A result of the query. *)
Definition is_result (r : nat * bool * f64 * nat) : Prop :=
  exists s, symbols f !! r.2 = Some s /\ shared q s <> 0%nat /\ r.1.2 = similarity q s /\ (r.1.1.1 <= max)%nat /\
    edit_distance (b2z <$> normalize q) (b2z <$> normalize s) r.1.1.1.

Lemma ranked_result c r : is_candidate f q c -> ranked f q max c = Some r -> is_result r.
Proof.
  intros (s & Hs & Hsh & Hc) E. destruct (sym_ok _ _ Hs) as [Ha _].
  destruct (levenshtein_bounded (normalize q) (normalize s) max) as (d & Ed & Hd); [by apply normalize_ascii; try apply Hq..|].
  rewrite (ranked_eq c s d Hs Ed) in E. destruct (Nat.leb_spec d max); [|done]. injection E as <-. exists s. cbn [fst snd]. split_and!; try done.
  destruct Hd as [Hd|[-> _]]; [done|lia].
Qed.

Lemma ranked_complete c s d : is_candidate f q c -> symbols f !! c.2 = Some s ->
  edit_distance (b2z <$> normalize q) (b2z <$> normalize s) d -> (d <= max)%nat -> is_Some (ranked f q max c).
Proof.
  intros _ Hs Hd Hle. destruct (sym_ok _ _ Hs) as [Ha _].
  destruct (levenshtein_exact (normalize q) (normalize s) max d) as (r & E & Hr & _); [by apply normalize_ascii; try apply Hq..|done|].
  rewrite (ranked_eq c s r Hs E), (proj2 (Nat.leb_le _ _)); [eauto|by apply Hr].
Qed.

Lemma results_total rs : Forall is_result rs -> total_preorder_on by_distance rs.
Proof.
  intros Hrs. apply total_preorder_then; [|apply total_preorder_nat]. apply total_preorder_then.
  - apply total_preorder_then; [apply total_preorder_nat|apply (total_preorder_bool (fun x => x.1.1.2))].
  - apply (f_cmp_desc_total (fun x => x.1.2)). intros r Hr. rewrite Forall_forall in Hrs.
    destruct (Hrs r Hr) as (s & Hs & Hsh & -> & _). destruct (sym_ok _ _ Hs). apply nonneg_not_nan, similarity_nonneg; [apply Hq|done|done].
Qed.

Lemma by_distance_le x y : by_distance x y <> Gt -> (x.1.1.1 <= y.1.1.1)%nat.
Proof.
  unfold by_distance, then_cmp. destruct (Nat.compare_spec x.1.1.1 y.1.1.1); [lia..|done].
Qed.
End query_spec.

(** The symbols that share a trigram with the query. *)
Definition sharing (f : FuzzyMatcher) (q : bytes) : list nat :=
  filter (fun i => shared q (sym_at f i) <> 0%nat) (seq 0 (len f)).

Lemma shared_empty q s : trigrams (normalize q) = [] -> shared q s = 0%nat.
Proof. intros E. unfold shared, unique_trigrams. by rewrite E. Qed.

(** The candidates before the sort: one for each symbol sharing a trigram. *)
Lemma candidates_ok iter f q : fuzzy_wf f -> (forall m, iter m ≡ₚ map_to_list m) -> short q ->
  Forall (fun s => ascii s /\ short s) (symbols f) ->
  let hits := foldl (count_trigram f) ∅ (unique_trigrams (normalize q)) in
  exists cs, mapM (candidate f (length (unique_trigrams (normalize q)))) (iter hits) = Ok cs /\
    Forall (is_candidate f q) cs /\ NoDup cs.*2 /\ (length cs <= length (sharing f q))%nat /\
    forall i s, symbols f !! i = Some s -> shared q s <> 0%nat -> i ∈ cs.*2.
Proof.
  intros Hwf Hit Hq Hsyms hits.
  assert (forall i n, (i, n) ∈ iter hits <-> exists s, symbols f !! i = Some s /\ shared q s = n /\ n <> 0%nat) as Hin.
  { intros i n. rewrite Hit, elem_of_map_to_list. unfold hits. rewrite hits_ok by done.
    destruct (symbols f !! i) as [s|]; cbn [mbind option_bind]; [|naive_solver].
    destruct (shared q s) eqn:E; cbn; naive_solver. }
  set (g := fun p : nat * nat => (similarity q (sym_at f p.1), p.1)). exists (g <$> iter hits).
  assert ((g <$> iter hits).*2 = (iter hits).*1) as Hsnd by (by rewrite <- list_fmap_compose).
  assert (NoDup (iter hits).*1) as Hnd by (rewrite Hit; apply NoDup_fst_map_to_list).
  split; [|split; [|split; [by rewrite Hsnd|split]]].
  - apply mapM_ok. intros [i n] (s & Hs & Hsh & Hn)%Hin. unfold g, sym_at. cbn [fst]. rewrite Hs. cbn [from_option id].
    rewrite Forall_forall in Hsyms. apply candidate_ok; try done. apply (Hsyms s). by eapply list_elem_of_lookup_2.
  - apply Forall_fmap, Forall_forall. intros [i n] (s & Hs & Hsh & Hn)%Hin. exists s. cbn. unfold sym_at. rewrite Hs.
    split_and!; [done|congruence|done].
  - rewrite length_fmap. rewrite <- (length_fmap fst (iter hits)). apply submseteq_length, NoDup_submseteq; [done|].
    intros i ([j n] & -> & (s & Hs & Hsh & Hn)%Hin)%list_elem_of_fmap. cbn. apply list_elem_of_filter.
    unfold sym_at. rewrite Hs. cbn [from_option id]. split; [congruence|]. apply elem_of_seq.
    apply lookup_lt_Some in Hs. unfold len. lia.
  - intros i s Hs Hsh. rewrite Hsnd. apply list_elem_of_fmap. exists (i, shared q s). split; [done|]. apply Hin. eauto.
Qed.

(** What a query returns: matches [ms] of the entries [js]. *)
Definition query_matches (f : FuzzyMatcher) (q : bytes) (k max : nat) (ms : list FuzzyMatch) (js : list nat) : Prop :=
  (length ms <= k)%nat /\ NoDup js /\
    Forall2 (fun i m => exists s, symbols f !! i = Some s /\ symbol m = s /\ shared q s <> 0%nat /\
      jaccard m = similarity q s /\ (distance m <= max)%nat /\
      edit_distance (b2z <$> normalize q) (b2z <$> normalize s) (distance m)) js ms /\
    StronglySorted (fun m m' => distance m <= distance m')%nat ms /\
    ((length ms < k)%nat -> (length (sharing f q) <= candidate_limit k)%nat ->
       forall i s d, symbols f !! i = Some s -> shared q s <> 0%nat ->
         edit_distance (b2z <$> normalize q) (b2z <$> normalize s) d -> (d <= max)%nat -> i ∈ js).

Lemma query_matches_none f q k max : (forall i s, symbols f !! i = Some s -> shared q s = 0%nat) -> query_matches f q k max [] [].
Proof. intros H0. split_and!; [cbn; lia|constructor..|]. intros _ _ i s d Hs Hn. by rewrite (H0 i s Hs) in Hn. Qed.

(** The best [k] of the candidates [kept], when these are all that share a trigram or as many as are kept. *)
Lemma query_matches_kept f q k max kept : fuzzy_wf f -> ascii q /\ short q -> Forall (fun s => ascii s /\ short s) (symbols f) ->
  Forall (is_candidate f q) kept -> NoDup kept.*2 ->
  ((length (sharing f q) <= candidate_limit k)%nat -> forall i s, symbols f !! i = Some s -> shared q s <> 0%nat -> i ∈ kept.*2) ->
  exists ms js, mapM (to_match f) (take k (sort_by by_distance (omap (ranked f q max) kept))) = Ok ms /\ query_matches f q k max ms js.
Proof.
  intros Hwf Hq Hsyms Hkc Hknd Hall. set (rs := omap (ranked f q max) kept).
  assert (Forall (is_result f q max) rs) as Hrs.
  { apply Forall_forall. intros r (c & Hc & E)%list_elem_of_omap. rewrite Forall_forall in Hkc.
    eapply (ranked_result f q max Hq Hsyms); eauto. }
  pose proof (ranked_nodup f q max kept Hknd) as Hrnd. fold rs in Hrnd.
  destruct (sort_by_sorts by_distance rs) as [Hps Hos]. specialize (Hos (results_total f q max Hq Hsyms rs Hrs)).
  set (top := take k (sort_by by_distance rs)).
  assert (forall r, r ∈ top -> r ∈ rs) as Htop by (intros r Hr; rewrite <- Hps; by eapply elem_of_take_sub).
  set (g := fun r : nat * bool * f64 * nat => mkMatch (sym_at f r.2) r.1.1.1 r.1.2). rewrite Forall_forall in Hrs.
  assert (mapM (to_match f) top = Ok (g <$> top)) as ->.
  { apply mapM_ok. intros [[[d e] j] i] Hr. destruct (Hrs _ (Htop _ Hr)) as (s & Hs & _). cbn [snd] in Hs.
    unfold to_match, g, sym_at. cbn [fst snd]. by rewrite Hs. }
  exists (g <$> top), top.*2. split; [done|]. split; [rewrite length_fmap; unfold top; rewrite length_take; lia|]. split; [|split; [|split]].
  - unfold top. rewrite fmap_take. eapply sublist_NoDup; [|apply sublist_take]. by rewrite Hps.
  - apply Forall2_fmap. apply Forall_Forall2_diag, Forall_forall. intros r Hr.
    destruct (Hrs r (Htop r Hr)) as (s & Hs & Hsh & Hj & Hd & He). exists s. cbn. unfold sym_at. rewrite Hs. done.
  - apply (StronglySorted_fmap g (fun x y => by_distance x y <> Gt)); [intros x y; apply by_distance_le|].
    apply (StronglySorted_app_1_l _ _ (drop k (sort_by by_distance rs))). unfold top. by rewrite take_drop.
  - rewrite length_fmap. intros Hk Hlim i s d Hs Hsh Hd Hdm.
    assert (top = sort_by by_distance rs) as Et by (apply take_ge; unfold top in Hk; rewrite length_take in Hk; lia).
    pose proof (Hall Hlim i s Hs Hsh) as (c & -> & Hc)%list_elem_of_fmap.
    rewrite Forall_forall in Hkc. destruct (ranked_complete f q max Hq Hsyms c s d (Hkc c Hc) Hs Hd Hdm) as [r Er].
    apply list_elem_of_fmap. exists r. split; [|rewrite Et, Hps; apply list_elem_of_omap; eauto].
    unfold ranked in Er. destruct (levenshtein _ _ _) as [e| |]; [|done..]. destruct (e <=? max)%nat; [|done]. by injection Er as <-.
Qed.

Lemma query_ok iter f q k max : fuzzy_wf f -> (forall m, iter m ≡ₚ map_to_list m) ->
  ascii q /\ short q -> Forall (fun s => ascii s /\ short s) (symbols f) ->
  exists ms js, query_with_max iter f q k max = Ok ms /\ query_matches f q k max ms js.
Proof.
  intros Hwf Hit Hq Hsyms. unfold query_with_max.
  destruct (candidates_ok iter f q Hwf Hit (proj2 Hq) Hsyms) as (cs & Ecs & Hcs & Hnd & Hlen & Hall).
  set (hits := foldl (count_trigram f) ∅ (unique_trigrams (normalize q))) in *.
  assert ((forall i s, symbols f !! i = Some s -> shared q s = 0%nat) ->
    exists ms js, (Ok [] : res unit _) = Ok ms /\ query_matches f q k max ms js) as Hnone.
  { intros H0. exists [], []. split; [done|by apply query_matches_none]. }
  destruct (trigrams (normalize q)) as [|t ts] eqn:Et; [apply Hnone; intros; by apply shared_empty|].
  destruct (bool_decide_reflect (hits = ∅)) as [Hh|_].
  { apply Hnone. intros i s Hs. pose proof (hits_ok f q i Hwf) as H. fold hits in H.
    rewrite Hh, lookup_empty, Hs in H. cbn in H. by destruct (shared q s). }
  clear Hnone Et. rewrite Ecs. cbn [mbind res_bind]. set (kept := take (candidate_limit k) (sort_by by_jaccard cs)).
  destruct (sort_by_sorts by_jaccard cs) as [Hp _].
  assert (forall c, c ∈ kept -> c ∈ cs) as Hkept by (intros c Hc; rewrite <- Hp; by eapply elem_of_take_sub).
  assert (Forall (is_candidate f q) kept) as Hkc by (rewrite Forall_forall in Hcs |- *; auto).
  rewrite (rank_candidates_ok f q max Hwf Hq Hsyms kept [] Hkc). cbn [app mbind res_bind].
  apply query_matches_kept; try done.
  - unfold kept. rewrite fmap_take. eapply sublist_NoDup; [|apply sublist_take]. by rewrite Hp.
  - intros Hlim i s Hs Hsh. unfold kept. rewrite take_ge, Hp by (rewrite Hp; lia). by eapply Hall.
Qed.

(** C35: a query over a well-formed index, where the query and the symbols are short ASCII strings
    ([Fuzzy.levenshtein_bytes] shows that other text is compared by bytes), never panics. Each match
    is a symbol that was added and shares a trigram with the query, with its Jaccard index and the
    exact edit distance of the normalised forms, at most the bound; no entry is matched twice; the
    matches come in order of distance, at most [top_k]; and when there are fewer, and the candidates
    fit their limit, every such symbol within the bound is a match. *)
Theorem fuzzy_query_exact iter f q k max : fuzzy_wf f -> (forall m, iter m ≡ₚ map_to_list m) ->
  ascii q /\ short q -> Forall (fun s => ascii s /\ short s) (symbols f) ->
  exists ms js, query_with_max iter f q k max = Ok ms /\ (length ms <= k)%nat /\ NoDup js /\
    Forall2 (fun i m => exists s, symbols f !! i = Some s /\ symbol m = s /\ shared q s <> 0%nat /\
      jaccard m = similarity q s /\ (distance m <= max)%nat /\
      edit_distance (b2z <$> normalize q) (b2z <$> normalize s) (distance m)) js ms /\
    StronglySorted (fun m m' => distance m <= distance m')%nat ms /\
    ((length ms < k)%nat -> (length (sharing f q) <= candidate_limit k)%nat ->
       forall i s d, symbols f !! i = Some s -> shared q s <> 0%nat ->
         edit_distance (b2z <$> normalize q) (b2z <$> normalize s) d -> (d <= max)%nat -> i ∈ js).
Proof. apply query_ok. Qed.

Lemma adds_wf l : forall f, fuzzy_wf f -> fuzzy_wf (foldl add f l).
Proof. induction l as [|s l IH]; intros f Hf; cbn; [done|]. by apply IH, add_wf. Qed.

Definition sample_matcher : FuzzyMatcher :=
  foldl add (new 4) (str <$> ["getUserById"; "get_user_name"; "validateToken"; "hash-password"]%string).

Lemma fuzzy_query_exact_witness : exists ms, query map_to_list sample_matcher (str "getUsrById") 2 = Ok ms /\ (length ms <= 2)%nat.
Proof.
  destruct (fuzzy_query_exact map_to_list sample_matcher (str "getUsrById") 2 4) as (ms & js & E & Hl & _).
  - apply adds_wf, fuzzy_new_wf.
  - intros m. apply reflexivity.
  - split; [apply (bool_decide_unpack _); vm_compute; exact I|]. apply (bool_decide_unpack _). vm_compute. exact I.
  - repeat constructor; apply (bool_decide_unpack _); vm_compute; exact I.
  - exists ms. split; [exact E|exact Hl].
Defined.

Example fuzzy_finds_typo : (fun r => match r with Ok ms => symbol <$> ms | _ => [] end)
  (query map_to_list sample_matcher (str "getUsrById") 2) = [str "getUserById"].
Proof. vm_compute. reflexivity. Qed.
