(* ===== verification/Planner.v ===== *)
(** * The query planner of [src/query/planner.rs]

    The rule-based plan of a query, the test for symbol-like text, and the
    reciprocal rank fusion of result lists. The fused scores are kept in a hash map
    that is walked in an arbitrary order. *)

From S2P Require Import Prelude Ordered Text Float.
Local Open Scope Z_scope.

Inductive QueryStep := Bm25 | Hnsw | Fuzzy | Graph.

#[export] Instance step_eq_dec : EqDecision QueryStep.
Proof. solve_decision. Defined.

Record QuerySpec := mkSpec {
  text : bytes; vector : list f32; top_k : nat; max_depth : nat; relations : list bytes;
  lang_filter : list bytes; type_filter : list bytes; file_filter : list bytes;
  merge_strategy : Z; timeout_ms : Z
}.

Definition default_spec : QuerySpec := mkSpec [] [] 10 3 [] [] [] [] 1 5000.

Record RankedHit := mkRanked { key : bytes; score : f64; rank : nat }.

(** ** [str::trim] removes the characters of the Unicode property White_Space *)
Definition is_whitespace (c : Z) : bool :=
  ((9 <=? c) && (c <=? 13)) || (c =? 0x20) || (c =? 0x85) || (c =? 0xA0) || (c =? 0x1680) ||
  ((0x2000 <=? c) && (c <=? 0x200A)) || (c =? 0x2028) || (c =? 0x2029) || (c =? 0x202F) || (c =? 0x205F) || (c =? 0x3000).

Fixpoint trim_start (cs : list Z) : list Z :=
  match cs with
  | c :: rest => if is_whitespace c then trim_start rest else cs
  | [] => []
  end.

Definition trim (cs : list Z) : list Z := rev (trim_start (rev (trim_start cs))).

Definition chars (s : bytes) : list Z := default [] (utf8_decode s).

(** [text.contains(pat)] for one byte and for two. *)
Definition contains_byte (b : byte) (s : bytes) : bool := existsb (fun x => bool_decide (x = b)) s.

Fixpoint contains_pair (a b : byte) (s : bytes) : bool :=
  match s with
  | x :: ((y :: _) as rest) => (bool_decide (x = a) && bool_decide (y = b)) || contains_pair a b rest
  | _ => false
  end.

(** An uppercase letter after a lowercase one. *)
Fixpoint has_hump (s : bytes) : bool :=
  match s with
  | x :: ((y :: _) as rest) => (is_upper y && is_lower x) || has_hump rest
  | _ => false
  end.

(** The characters of a text all of whose characters are ASCII are its bytes. *)
Definition looks_symbol_like (s : bytes) : bool :=
  match s with
  | [] => false
  | _ =>
      if contains_pair x3a x3a s || contains_byte x2e s || contains_byte x5f s then true
      else if negb (contains_byte x20 s) && forallb is_alnum s then has_hump s
      else false
  end.

(** ** The plan *)
(** [steps.retain(...)] with the steps seen so far: the first of equal steps stays. *)
Fixpoint retain_unseen (seen steps : list QueryStep) : list QueryStep :=
  match steps with
  | [] => []
  | s :: rest => if bool_decide (s ∈ seen) then retain_unseen seen rest else s :: retain_unseen (seen ++ [s]) rest
  end.

Definition has_text (q : QuerySpec) : bool := negb (bool_decide (trim (chars (text q)) = [])).
Definition has_vector (q : QuerySpec) : bool := match vector q with [] => false | _ => true end.
Definition has_graph (q : QuerySpec) : bool := match relations q with [] => false | _ => true end.
Definition is_short (q : QuerySpec) : bool := (length (text q) <=? 32)%nat.

Definition plan (q : QuerySpec) : list QueryStep :=
  let is_symbol := looks_symbol_like (text q) in
  let steps0 := if has_graph q then [Graph] else [] in
  let steps1 :=
    if has_text q && is_symbol && is_short q then steps0 ++ [Fuzzy] ++ [Bm25]
    else
      let s1 := if has_text q then steps0 ++ [Bm25] else steps0 in
      let s2 := if has_vector q then s1 ++ [Hnsw] else s1 in
      if has_text q && is_symbol then s2 ++ [Fuzzy] else s2 in
  let steps2 := if has_vector q && negb (bool_decide (Hnsw ∈ steps1)) then steps1 ++ [Hnsw] else steps1 in
  retain_unseen [] steps2.

(** ** Reciprocal rank fusion *)
(** [*scores.entry(key).or_insert(0.0) += 1.0 / (k + rank)] *)
Definition add_score (k : f64) (scores : gmap bytes f64) (p : nat * RankedHit) : gmap bytes f64 :=
  let rank := f64_of_Z (Z.of_nat (p.1 + 1)) in
  <[key p.2 := f64_add (default f64_zero (scores !! key p.2)) (f64_div (f64_lit 1 1) (f64_add k rank))]> scores.

Definition add_list (k : f64) (scores : gmap bytes f64) (hits : list RankedHit) : gmap bytes f64 :=
  foldl (add_score k) scores (imap (fun i h => (i, h)) hits).

Definition by_score (a b : RankedHit) : comparison := f_cmp_desc (score a) (score b).

Definition set_rank (i : nat) (h : RankedHit) : RankedHit := mkRanked (key h) (score h) i.

Section merge.
Variable iter : gmap bytes f64 -> list (bytes * f64).

Definition merge_rrf (lists : list (list RankedHit)) (k : f64) : list RankedHit :=
  let scores := foldl (add_list k) ∅ lists in
  let merged := (fun p : bytes * f64 => mkRanked p.1 p.2 0) <$> iter scores in
  imap set_rank (sort_by by_score merged).
End merge.

(** ** The rules of the plan *)
(** [x] occurs and the first [y] comes after it. *)
Fixpoint precedes (x y : QueryStep) (l : list QueryStep) : bool :=
  match l with
  | [] => false
  | z :: rest => if bool_decide (z = x) then bool_decide (y ∈ rest) else negb (bool_decide (z = y)) && precedes x y rest
  end.

(** The plan depends on five tests of the query. *)
Definition plan_of (graph has_txt vec sym short : bool) : list QueryStep :=
  let steps0 := if graph then [Graph] else [] in
  let steps1 :=
    if has_txt && sym && short then steps0 ++ [Fuzzy] ++ [Bm25]
    else
      let s1 := if has_txt then steps0 ++ [Bm25] else steps0 in
      let s2 := if vec then s1 ++ [Hnsw] else s1 in
      if has_txt && sym then s2 ++ [Fuzzy] else s2 in
  retain_unseen [] (if vec && negb (bool_decide (Hnsw ∈ steps1)) then steps1 ++ [Hnsw] else steps1).

Lemma plan_of_ok g t v s h : let p := plan_of g t v s h in
  bool_decide (NoDup p) = true /\ bool_decide (Graph ∈ p) = g /\ bool_decide (Hnsw ∈ p) = v /\ bool_decide (Bm25 ∈ p) = t /\
  bool_decide (Fuzzy ∈ p) = t && s /\ (if g then bool_decide (head p = Some Graph) else true) = true /\
  (if t && s then Bool.eqb (precedes Fuzzy Bm25 p) h && Bool.eqb (precedes Bm25 Fuzzy p) (negb h) else true) = true.
Proof. destruct g, t, v, s, h; vm_compute; done. Qed.

(** The plan holds no step twice. It has a graph step exactly when relations are
    asked for, a vector step exactly when there is a vector, a keyword step exactly
    when the text is not blank, and a fuzzy step exactly when the text also looks
    like a symbol; the graph step is first, and the fuzzy step comes before the
    keyword step for short symbols and after it for long ones. *)
Theorem plan_exact q :
  let sym := looks_symbol_like (text q) in
  NoDup (plan q) /\
  (Graph ∈ plan q <-> relations q <> []) /\ (Hnsw ∈ plan q <-> vector q <> []) /\
  (Bm25 ∈ plan q <-> has_text q = true) /\ (Fuzzy ∈ plan q <-> has_text q = true /\ sym = true) /\
  (relations q <> [] -> head (plan q) = Some Graph) /\
  (has_text q = true -> sym = true ->
     precedes Fuzzy Bm25 (plan q) = is_short q /\ precedes Bm25 Fuzzy (plan q) = negb (is_short q)).
Proof.
  intros sym. assert (relations q <> [] <-> has_graph q = true) as -> by (unfold has_graph; by destruct (relations q)).
  assert (vector q <> [] <-> has_vector q = true) as -> by (unfold has_vector; by destruct (vector q)).
  change (plan q) with (plan_of (has_graph q) (has_text q) (has_vector q) sym (is_short q)).
  destruct (plan_of_ok (has_graph q) (has_text q) (has_vector q) sym (is_short q)) as (H1 & H2 & H3 & H4 & H5 & H6 & H7).
  apply bool_decide_eq_true in H1. split; [done|].
  rewrite <- (bool_decide_eq_true (Graph ∈ _)), <- (bool_decide_eq_true (Hnsw ∈ _)), <- (bool_decide_eq_true (Bm25 ∈ _)),
    <- (bool_decide_eq_true (Fuzzy ∈ _)), H2, H3, H4, H5.
  split; [done|]. split; [done|]. split; [done|]. split; [by rewrite andb_true_iff|]. split.
  - intros Hg. rewrite Hg in H6 |- *. by apply bool_decide_eq_true in H6.
  - intros Ht Hs. rewrite Ht, Hs in H7. cbn [andb] in H7. apply andb_prop in H7 as [H7%eqb_prop H8%eqb_prop].
    by rewrite Ht, Hs, H7, H8.
Qed.

Lemma plan_exact_witness : head (plan (mkSpec (str "getUserById") [] 10 3 [str "calls"] [] [] [] 1 5000)) = Some Graph /\
  plan (mkSpec (str "getUserById") [] 10 3 [str "calls"] [] [] [] 1 5000) = [Graph; Fuzzy; Bm25].
Proof. split; [apply plan_exact; discriminate|vm_compute; reflexivity]. Defined.

(** ** The fused score of a key *)
Definition positions (hits : list RankedHit) : list (nat * RankedHit) := imap (fun i h => (i, h)) hits.

(** One over [k] plus the rank, ranks counted from one. *)
Definition reciprocal (k : f64) (i : nat) : f64 := f64_div (f64_lit 1 1) (f64_add k (f64_of_Z (Z.of_nat (i + 1)))).

Definition add_reciprocal (k : f64) (x : bytes) (s : f64) (p : nat * RankedHit) : f64 :=
  if bool_decide (key p.2 = x) then f64_add s (reciprocal k p.1) else s.

Definition rrf_score (k : f64) (lists : list (list RankedHit)) (x : bytes) : f64 :=
  foldl (add_reciprocal k x) f64_zero (mjoin (positions <$> lists)).

Lemma foldl_join {A B} (f : A -> B -> A) (ls : list (list B)) : forall a,
  foldl (foldl f) a ls = foldl f a (mjoin ls).
Proof. induction ls as [|l ls IH]; intros a; [done|]. cbn [foldl]. by rewrite IH, mjoin_cons, foldl_app. Qed.

Lemma add_lists_flat k lists m : foldl (add_list k) m lists = foldl (add_score k) m (mjoin (positions <$> lists)).
Proof. rewrite <- foldl_join. revert m. induction lists as [|l ls IH]; intros m; [done|]. cbn. by rewrite IH. Qed.

Lemma add_reciprocal_absent k x ps : forall s, x ∉ (fun p : nat * RankedHit => key p.2) <$> ps ->
  foldl (add_reciprocal k x) s ps = s.
Proof.
  induction ps as [|p ps IH]; intros s Hn; [done|]. cbn [fmap list_fmap] in Hn. apply not_elem_of_cons in Hn as [Hx Hn].
  cbn [foldl]. rewrite IH by done. unfold add_reciprocal. by rewrite bool_decide_eq_false_2 by congruence.
Qed.

Lemma add_score_lookup k x m p : add_score k m p !! x =
  if decide (key p.2 = x) then Some (add_reciprocal k x (default f64_zero (m !! x)) p) else m !! x.
Proof.
  unfold add_score, add_reciprocal. destruct (decide (key p.2 = x)) as [<-|Hne]; [|by rewrite lookup_insert_ne].
  by rewrite lookup_insert_eq, bool_decide_eq_true_2.
Qed.

Lemma scores_ok k x ps : forall m,
  foldl (add_score k) m ps !! x =
    if decide (x ∈ (fun p : nat * RankedHit => key p.2) <$> ps) then Some (foldl (add_reciprocal k x) (default f64_zero (m !! x)) ps) else m !! x.
Proof.
  induction ps as [|p ps IH]; intros m; cbn [foldl fmap list_fmap].
  { by rewrite decide_False by apply not_elem_of_nil. }
  rewrite IH, add_score_lookup. destruct (decide (key p.2 = x)) as [Hk|Hk].
  - rewrite (decide_True (P := x ∈ key p.2 :: _)) by (subst x; left). cbn [from_option id].
    destruct (decide _) as [|Hn]; [done|]. by rewrite add_reciprocal_absent.
  - assert (add_reciprocal k x (default f64_zero (m !! x)) p = default f64_zero (m !! x)) as ->
      by (unfold add_reciprocal; by rewrite bool_decide_eq_false_2).
    destruct (decide (x ∈ _ <$> ps)) as [Hi|Hi].
    + by rewrite decide_True by (by right).
    + rewrite decide_False; [done|]. by intros [?|?]%elem_of_cons.
Qed.

Lemma elem_of_positions x lists :
  x ∈ (fun p : nat * RankedHit => key p.2) <$> mjoin (positions <$> lists) <-> exists l h, l ∈ lists /\ h ∈ l /\ key h = x.
Proof.
  rewrite list_elem_of_fmap. split.
  - intros ([i h] & -> & (ps & Hps & (l & -> & Hl)%list_elem_of_fmap)%list_elem_of_join).
    apply elem_of_lookup_imap in Hps as (j & h' & [= -> ->] & Hh). exists l, h'. split_and!; [done| |done].
    by eapply list_elem_of_lookup_2.
  - intros (l & h & Hl & [i Hh]%list_elem_of_lookup & <-). exists (i, h). split; [done|]. apply list_elem_of_join.
    exists (positions l). split; [apply elem_of_lookup_imap; eauto|]. by apply list_elem_of_fmap_2.
Qed.

(** With a constant that is not negative every score is a number. *)
Lemma rrf_score_nonneg k lists x : nonneg k -> nonneg (rrf_score k lists x).
Proof.
  intros Hk. unfold rrf_score. assert (nonneg f64_zero) as H0 by done. revert H0. generalize f64_zero.
  induction (mjoin (positions <$> lists)) as [|p ps IH]; intros s Hs; [done|]. cbn [foldl]. apply IH. unfold add_reciprocal.
  destruct (bool_decide _); [|done]. apply add_nonneg; [done|]. apply div_by_nonneg.
  - eexists _, _. vm_compute. reflexivity.
  - apply add_nonneg; [done|]. apply normalize_nonneg. lia.
Qed.

Lemma merge_ok iter lists k : (forall m, iter m ≡ₚ map_to_list m) ->
  let hits := merge_rrf iter lists k in
  NoDup (key <$> hits) /\
  (forall x, x ∈ key <$> hits <-> exists l h, l ∈ lists /\ h ∈ l /\ key h = x) /\
  (forall i h, hits !! i = Some h -> rank h = i /\ score h = rrf_score k lists (key h)) /\
  (nonneg k -> in_order by_score hits).
Proof.
  intros Hit hits. set (scores := foldl (add_list k) ∅ lists).
  set (merged := (fun p : bytes * f64 => mkRanked p.1 p.2 0) <$> iter scores).
  set (sorted := sort_by by_score merged). destruct (sort_by_sorts by_score merged) as [Hp Ho]. fold sorted in Hp, Ho.
  assert (hits = imap set_rank sorted) as Eh by done.
  assert (key <$> hits = key <$> sorted) as Ek.
  { rewrite Eh, fmap_imap. rewrite <- (imap_const key sorted). by apply imap_ext. }
  assert (key <$> merged = (iter scores).*1) as Em by (unfold merged; by rewrite <- list_fmap_compose).
  assert (forall x, scores !! x = if decide (x ∈ (fun p : nat * RankedHit => key p.2) <$> mjoin (positions <$> lists))
    then Some (rrf_score k lists x) else None) as Hsc.
  { intros x. unfold scores. rewrite add_lists_flat, scores_ok, lookup_empty. done. }
  assert (forall h, h ∈ sorted -> score h = rrf_score k lists (key h)) as Hs.
  { intros h. rewrite Hp. intros ([x s] & -> & Hx)%list_elem_of_fmap. rewrite Hit, elem_of_map_to_list, Hsc in Hx.
    cbn. destruct (decide _); [congruence|done]. }
  split; [|split; [|split]].
  - rewrite Ek, Hp, Em, Hit. apply NoDup_fst_map_to_list.
  - intros x. rewrite Ek, Hp, Em, Hit, <- elem_of_positions. rewrite list_elem_of_fmap. split.
    + intros ([y s] & -> & Hy). rewrite elem_of_map_to_list, Hsc in Hy. cbn. by destruct (decide _).
    + intros Hx. exists (x, rrf_score k lists x). split; [done|]. rewrite elem_of_map_to_list, Hsc. by rewrite decide_True.
  - intros i h Hh. rewrite Eh, list_lookup_imap in Hh. destruct (sorted !! i) as [h'|] eqn:E; [|done].
    cbn in Hh. injection Hh as <-. cbn. split; [done|]. apply Hs. by eapply list_elem_of_lookup_2.
  - intros Hk. rewrite Eh. assert (in_order by_score sorted) as Hord.
    { apply Ho. apply (f_cmp_desc_total score). intros h Hh. rewrite <- Hp in Hh.
      rewrite (Hs h Hh). by apply nonneg_not_nan, rrf_score_nonneg. }
    eapply StronglySorted_imap; [exact Hord|]. intros i j x y Hxy. exact Hxy.
Qed.

(** The fusion ranks each key that occurs in some list once, with the sum of the
    reciprocals of its positions, and nothing else; ranks count from zero, and with a
    constant that is not negative no score is NaN and the scores descend. Which of two keys with equal scores comes
    first is left open by the hash map. *)
Theorem merge_rrf_exact iter lists k : (forall m, iter m ≡ₚ map_to_list m) ->
  let hits := merge_rrf iter lists k in
  NoDup (key <$> hits) /\
  (forall x, x ∈ key <$> hits <-> exists l h, l ∈ lists /\ h ∈ l /\ key h = x) /\
  (forall i h, hits !! i = Some h -> rank h = i /\ score h = rrf_score k lists (key h)) /\
  (nonneg k -> in_order by_score hits).
Proof. apply merge_ok. Qed.

Definition sample_lists : list (list RankedHit) :=
  [[mkRanked (str "a") f64_zero 0; mkRanked (str "b") f64_zero 1]; [mkRanked (str "b") f64_zero 0; mkRanked (str "c") f64_zero 1]].

Lemma merge_rrf_exact_witness : NoDup (key <$> merge_rrf map_to_list sample_lists (f64_lit 60 1)) /\
  in_order by_score (merge_rrf map_to_list sample_lists (f64_lit 60 1)) /\
  key <$> merge_rrf map_to_list sample_lists (f64_lit 60 1) = str <$> ["b"; "a"; "c"]%string.
Proof.
  destruct (merge_rrf_exact map_to_list sample_lists (f64_lit 60 1) (fun m => reflexivity _)) as (H1 & _ & _ & H2).
  split; [exact H1|]. split; [|vm_compute; reflexivity]. apply H2. vm_compute. reflexivity.
Defined.

Example symbol_like : (fun s : string => looks_symbol_like (str s)) <$> ["getUserById"; "auth::token"; "a.b"; "snake_case"; "plain"; "two words"; ""]%string
  = [true; true; true; true; false; false; false].
Proof. vm_compute. reflexivity. Qed.
