(* ===== verification/Schema.v ===== *)
(** * Record schemas, [src/query/schema.rs]

    Field definitions, validation and defaults. The numeric types are checked by
    the standard library's parsers: [str::parse::<i64>], with its overflow checks,
    and the documented grammar of [str::parse::<f64>]. *)

From S2P Require Import Prelude Text.
Local Open Scope Z_scope.

Inductive FieldType := TString | TInt | TFloat | TBool | TBytes.

Record FieldDef := mkField { name : bytes; field_type : FieldType; required : bool; default_value : option bytes }.

Record Schema := mkSchema { schema_name : bytes; fields : list FieldDef }.

Record ValidationError := mkError { err_field : bytes; message : bytes }.

(** A record to validate: [HashMap<String, Vec<u8>>]. *)
Abbreviation Rec := (gmap bytes bytes).

Definition new (n : bytes) : Schema := mkSchema n [].

Definition field (s : Schema) (def : FieldDef) : Schema := mkSchema (schema_name s) (fields s ++ [def]).

(** ** [str::parse::<i64>] *)
Definition i64_max : Z := 2 ^ 63 - 1.
Definition i64_min : Z := - 2 ^ 63.

Definition in_i64 (z : Z) : bool := (i64_min <=? z) && (z <=? i64_max).

(** [checked_mul(10)] and then [checked_add] or [checked_sub] of the digit. *)
Definition i64_step (neg : bool) (acc : option Z) (b : byte) : option Z :=
  a ← acc; d ← digit_val b;
  if in_i64 (a * 10) then
    let r := if neg then a * 10 - d else a * 10 + d in
    if in_i64 r then Some r else None
  else None.

Definition minus : byte := x2d.
Definition plus : byte := x2b.

Definition parse_i64 (s : bytes) : option Z :=
  match s with
  | [] => None
  | b :: rest =>
      if bool_decide (b = plus) then match rest with [] => None | _ => foldl (i64_step false) (Some 0) rest end
      else if bool_decide (b = minus) then match rest with [] => None | _ => foldl (i64_step true) (Some 0) rest end
      else foldl (i64_step false) (Some 0) s
  end.

(** ** The grammar of [str::parse::<f64>] *)
Fixpoint skip_digits (s : bytes) : nat * bytes :=
  match s with
  | b :: rest => if is_digit b then let '(n, r) := skip_digits rest in (S n, r) else (O, s)
  | [] => (O, [])
  end.

Definition skip_sign (s : bytes) : bytes :=
  match s with
  | b :: rest => if bool_decide (b = plus) || bool_decide (b = minus) then rest else s
  | [] => []
  end.

(** The end of the text, or an exponent with at least one digit. *)
Definition exponent_ok (s : bytes) : bool :=
  match s with
  | [] => true
  | e :: rest =>
      if bool_decide (to_lower e = x65) then
        let '(n, r) := skip_digits (skip_sign rest) in negb (n =? 0)%nat && match r with [] => true | _ => false end
      else false
  end.

Definition number_ok (s : bytes) : bool :=
  let '(n, r) := skip_digits s in
  match r with
  | d :: r' =>
      if bool_decide (d = x2e) then
        let '(m, r'') := skip_digits r' in negb (n + m =? 0)%nat && exponent_ok r''
      else negb (n =? 0)%nat && exponent_ok r
  | [] => negb (n =? 0)%nat
  end.

Definition parses_f64 (s : bytes) : bool :=
  let t := skip_sign s in
  let l := to_lower <$> t in
  bool_decide (l = str "inf") || bool_decide (l = str "infinity") || bool_decide (l = str "nan") || number_ok t.

(** ** Validation *)
Definition type_name (t : FieldType) : bytes :=
  match t with
  | TString => str "String" | TInt => str "Int" | TFloat => str "Float" | TBool => str "Bool" | TBytes => str "Bytes"
  end.

Definition has_type (t : FieldType) (value : bytes) : bool :=
  match t with
  | TString => utf8_valid value
  | TInt => utf8_valid value && match parse_i64 value with Some _ => true | None => false end
  | TFloat => utf8_valid value && parses_f64 value
  | TBool => bool_decide (value ∈ [str "true"; str "false"; str "0"; str "1"])
  | TBytes => true
  end.

Definition check_type (n : bytes) (expected : FieldType) (value : bytes) : res ValidationError unit :=
  if has_type expected value then Ok tt
  else Err (mkError n (str "field '" ++ n ++ str "': expected " ++ type_name expected ++ str ", got invalid data")).

Definition validate_field (r : Rec) (errors : list ValidationError) (f : FieldDef) : list ValidationError :=
  match r !! name f with
  | None =>
      if required f && match default_value f with None => true | Some _ => false end
      then errors ++ [mkError (name f) (str "field '" ++ name f ++ str "' is required")] else errors
  | Some value =>
      match check_type (name f) (field_type f) value with
      | Err e => errors ++ [e]
      | _ => errors
      end
  end.

Definition validate (s : Schema) (r : Rec) : list ValidationError := foldl (validate_field r) [] (fields s).

(** ** Defaults *)
Definition default_field (r : Rec) (f : FieldDef) : Rec :=
  match r !! name f with
  | None => match default_value f with Some d => <[name f := d]> r | None => r end
  | Some _ => r
  end.

Definition apply_defaults (s : Schema) (r : Rec) : Rec := foldl default_field r (fields s).

(** ** What validation accepts *)
Definition field_ok (r : Rec) (f : FieldDef) : Prop :=
  match r !! name f with
  | None => required f = true -> is_Some (default_value f)
  | Some v => has_type (field_type f) v = true
  end.

Lemma validate_field_ok r es f : (validate_field r es f = es <-> field_ok r f) /\
  exists es', validate_field r es f = es ++ es' /\ (length es' <= 1)%nat /\ Forall (fun e => err_field e = name f) es'.
Proof.
  assert (forall e : ValidationError, es ++ [e] <> es) as Hgrow
    by (intros e E; apply (f_equal length) in E; rewrite length_app in E; cbn in E; lia).
  assert (exists es', es = es ++ es' /\ (length es' <= 1)%nat /\ Forall (fun e => err_field e = name f) es') as Hsame
    by (exists []; rewrite app_nil_r; split_and!; [done|cbn; lia|constructor]).
  assert (forall m, exists es', es ++ [mkError (name f) m] = es ++ es' /\ (length es' <= 1)%nat /\
    Forall (fun e => err_field e = name f) es') as Hone
    by (intros m; exists [mkError (name f) m]; split_and!; [done|cbn; lia|by repeat constructor]).
  unfold validate_field, field_ok, check_type. destruct (r !! name f) as [v|].
  - destruct (has_type (field_type f) v); [done|]. split; [|apply Hone]. split; [|done]. intros E. by apply Hgrow in E.
  - destruct (required f), (default_value f) as [d|]; cbn; (split; [|apply Hsame || apply Hone]).
    1, 3, 4: naive_solver.
    split; [intros E; by apply Hgrow in E|]. intros H. by destruct (H eq_refl).
Qed.

Lemma validate_fields_ok r fs : forall es, foldl (validate_field r) es fs = es <-> Forall (field_ok r) fs.
Proof.
  induction fs as [|f fs IH]; intros es; cbn [foldl]; [split; [constructor|done]|].
  destruct (validate_field_ok r es f) as [Hiff (es' & E & _)]. rewrite Forall_cons, <- Hiff. split.
  - intros H. assert (es' = []) as ->.
    { assert (forall fs es, exists t, foldl (validate_field r) es fs = es ++ t) as Hext.
      { clear. induction fs as [|f fs IH]; intros es; [exists []; by rewrite app_nil_r|]. cbn.
        destruct (proj2 (validate_field_ok r es f)) as (e1 & -> & _). destruct (IH (es ++ e1)) as [t ->].
        exists (e1 ++ t). by rewrite app_assoc. }
      destruct (Hext fs (validate_field r es f)) as [t Ht]. rewrite Ht, E in H.
      apply (f_equal length) in H. rewrite !length_app in H. destruct es'; [done|cbn in H; lia]. }
    rewrite app_nil_r in E. split; [done|]. rewrite E in H. by apply (IH es).
  - intros [-> H]. by apply IH.
Qed.

(** A record validates exactly when each field it has is of the declared type and
    each field it lacks is optional or has a default. *)
Theorem validate_exact s r : validate s r = [] <-> Forall (field_ok r) (fields s).
Proof. apply validate_fields_ok. Qed.

(** The first default given for a name. *)
Definition default_of (fs : list FieldDef) (n : bytes) : option bytes :=
  head (omap (fun f => if bool_decide (name f = n) then default_value f else None) fs).

Lemma apply_defaults_lookup s r n :
  apply_defaults s r !! n = match r !! n with Some v => Some v | None => default_of (fields s) n end.
Proof.
  unfold apply_defaults, default_of. revert r. induction (fields s) as [|f fs IH]; intros r; cbn [foldl omap list_omap head].
  { by destruct (r !! n). }
  rewrite IH. unfold default_field. destruct (bool_decide_reflect (name f = n)) as [<-|Hne].
  - destruct (r !! name f) as [v|] eqn:E; [by rewrite E|]. destruct (default_value f) as [d|]; [by rewrite lookup_insert_eq|].
    by rewrite E.
  - destruct (r !! name f) as [v|]; [done|]. destruct (default_value f) as [d|]; [by rewrite lookup_insert_ne|done].
Qed.

(** Applying the defaults keeps every field that is present and gives each absent one
    the first default declared for it; applying them again changes nothing. *)
Theorem apply_defaults_exact s r :
  (forall n, apply_defaults s r !! n = match r !! n with Some v => Some v | None => default_of (fields s) n end) /\
  apply_defaults s (apply_defaults s r) = apply_defaults s r.
Proof.
  split; [intros n; apply apply_defaults_lookup|]. apply map_eq. intros n. rewrite !apply_defaults_lookup.
  destruct (r !! n); [done|]. by destruct (default_of (fields s) n).
Qed.

(** The declared defaults are of their fields' types. *)
Definition defaults_typed (s : Schema) : Prop :=
  forall f d, f ∈ fields s -> default_of (fields s) (name f) = Some d -> has_type (field_type f) d = true.

Lemma default_of_some fs f d : f ∈ fs -> default_value f = Some d -> is_Some (default_of fs (name f)).
Proof.
  intros Hf Hd. unfold default_of. destruct (omap _ fs) as [|x l] eqn:E; [|done]. exfalso.
  assert (d ∈ omap (fun g => if bool_decide (name g = name f) then default_value g else None) fs) as H.
  { apply list_elem_of_omap. exists f. by rewrite bool_decide_eq_true_2. }
  rewrite E in H. by apply not_elem_of_nil in H.
Qed.

(** C36: When the declared defaults are well typed, a record that validates still does
    after the defaults are applied, and then has every required field, of its
    declared type. *)
Theorem valid_with_defaults s r : defaults_typed s -> validate s r = [] ->
  validate s (apply_defaults s r) = [] /\
  forall f, f ∈ fields s -> required f = true ->
    exists v, apply_defaults s r !! name f = Some v /\ has_type (field_type f) v = true.
Proof.
  unfold validate. rewrite !validate_fields_ok, !Forall_forall. intros Ht Hv.
  assert (forall f, f ∈ fields s -> field_ok (apply_defaults s r) f /\
    (required f = true -> exists v, apply_defaults s r !! name f = Some v /\ has_type (field_type f) v = true)) as H.
  { intros f Hf. specialize (Hv f Hf). unfold field_ok in *. rewrite apply_defaults_lookup.
    destruct (r !! name f) as [v|]; [split; [done|eauto]|].
    destruct (default_of (fields s) (name f)) as [d|] eqn:Ed; [split; [by apply Ht|eauto]|].
    assert (required f = true -> False) as Hreq; [|split; [|]; intros; exfalso; auto].
    intros [d Hd]%Hv. destruct (default_of_some _ f d Hf Hd). congruence. }
  split; intros; by apply H.
Qed.

Definition sample_schema : Schema :=
  mkSchema (str "code") [mkField (str "name") TString true None; mkField (str "line") TInt true (Some (str "0"));
    mkField (str "score") TFloat false None].

Definition sample_rec : Rec := list_to_map [(str "name", str "main"); (str "score", str "-1.5e3")].

Lemma valid_with_defaults_witness : validate sample_schema (apply_defaults sample_schema sample_rec) = [].
Proof.
  apply valid_with_defaults; [|vm_compute; reflexivity]. intros f d Hf Hd. cbn [fields sample_schema] in Hf.
  repeat (apply elem_of_cons in Hf as [->|Hf]); [..|by apply not_elem_of_nil in Hf];
    vm_compute in Hd; try discriminate Hd; injection Hd as <-; vm_compute; reflexivity.
Defined.

(** A default that is not of its field's type passes validation while the field is
    absent and fails it once applied. *)
Example ill_typed_default :
  let s := mkSchema [] [mkField (str "n") TInt true (Some (str "many"))] in
  validate s ∅ = [] /\ length (validate s (apply_defaults s ∅)) = 1%nat.
Proof. by vm_compute. Qed.

(** ** The integers that parse *)
Definition digits (s : bytes) : Prop := Forall (fun b => is_digit b = true) s.

Definition decimal (acc : Z) (s : bytes) : Z := foldl (fun a b => a * 10 + (b2z b - 48)) acc s.

Lemma foldl_i64_none neg s : foldl (i64_step neg) None s = None.
Proof. by induction s. Qed.

Lemma decimal_ge s : forall acc, 0 <= acc -> digits s -> acc <= decimal acc s.
Proof.
  induction s as [|b s IH]; intros acc Ha Hd; [cbn; lia|]. apply Forall_cons in Hd as [Hb Hd]. cbn.
  unfold is_digit in Hb. apply andb_prop in Hb as [H1%Z.leb_le H2%Z.leb_le].
  specialize (IH (acc * 10 + (b2z b - 48)) ltac:(lia) Hd). unfold decimal in IH. lia.
Qed.

Lemma i64_digits (neg : bool) s : forall acc, digits s -> 0 <= acc -> in_i64 (if neg then - acc else acc) = true ->
  foldl (i64_step neg) (Some (if neg then - acc else acc)) s =
    let v := if neg then - decimal acc s else decimal acc s in if in_i64 v then Some v else None.
Proof.
  induction s as [|b s IH]; intros acc Hd Ha Hr; [cbn; by rewrite Hr|].
  apply Forall_cons in Hd as [Hb Hd]. pose proof Hb as Hb'. unfold is_digit in Hb'.
  apply andb_prop in Hb' as [H1%Z.leb_le H2%Z.leb_le]. cbn [foldl]. unfold i64_step at 2. cbn [mbind option_bind].
  unfold digit_val. rewrite (proj2 (Z.leb_le _ _) H1), (proj2 (Z.leb_le _ _) H2). cbn [andb mbind option_bind].
  set (acc' := acc * 10 + (b2z b - 48)). assert (decimal acc (b :: s) = decimal acc' s) as -> by done.
  pose proof (decimal_ge s acc' ltac:(lia) Hd) as Hge. specialize (IH acc' Hd ltac:(lia)).
  unfold in_i64, i64_min, i64_max in *. destruct neg.
  - replace (- acc * 10) with (- (acc * 10)) by lia. replace (- (acc * 10) - (b2z b - 48)) with (- acc') by lia.
    destruct (Z.leb_spec (- 2 ^ 63) (- acc')).
    + rewrite (proj2 (Z.leb_le (- 2 ^ 63) (- (acc * 10)))), (proj2 (Z.leb_le (- (acc * 10)) _)) by lia.
      rewrite (proj2 (Z.leb_le (- acc') _)) by lia. apply IH. rewrite !(proj2 (Z.leb_le _ _)) by lia. done.
    + cbn zeta. rewrite (proj2 (Z.leb_gt (- 2 ^ 63) (- decimal acc' s))) by lia. cbn [andb].
      destruct ((- 2 ^ 63 <=? - (acc * 10)) && _); apply foldl_i64_none.
  - fold acc'. destruct (Z.leb_spec acc' (2 ^ 63 - 1)).
    + rewrite (proj2 (Z.leb_le (- 2 ^ 63) (acc * 10))), (proj2 (Z.leb_le (acc * 10) _)) by lia.
      rewrite (proj2 (Z.leb_le (- 2 ^ 63) acc')) by lia. apply IH. rewrite !(proj2 (Z.leb_le _ _)) by lia. done.
    + cbn zeta. rewrite (proj2 (Z.leb_gt (decimal acc' s) (2 ^ 63 - 1))) by lia. rewrite !andb_false_r.
      destruct ((- 2 ^ 63 <=? acc * 10) && _); apply foldl_i64_none.
Qed.

(** A string of digits, with or without a sign, is an [Int] exactly when its value
    fits 64 bits, the least value included. *)
Theorem parse_i64_exact b s : digits (b :: s) ->
  let v := decimal 0 (b :: s) in
  parse_i64 (b :: s) = (if v <=? i64_max then Some v else None) /\
  parse_i64 (plus :: b :: s) = (if v <=? i64_max then Some v else None) /\
  parse_i64 (minus :: b :: s) = (if v <=? 2 ^ 63 then Some (- v) else None).
Proof.
  intros Hd v. pose proof (decimal_ge (b :: s) 0 ltac:(lia) Hd) as Hv. fold v in Hv.
  assert (b <> plus /\ b <> minus) as [Hp Hm]. { apply Forall_cons in Hd as [Hb _]. by split; intros ->. }
  pose proof (i64_digits false (b :: s) 0 Hd ltac:(lia) eq_refl) as E1. cbn zeta in E1. fold v in E1.
  pose proof (i64_digits true (b :: s) 0 Hd ltac:(lia) eq_refl) as E2. cbn zeta in E2. fold v in E2. change (- 0) with 0 in E2.
  assert (in_i64 v = (v <=? i64_max)) as F1.
  { unfold in_i64. rewrite (proj2 (Z.leb_le i64_min v)); [done|unfold i64_min; lia]. }
  assert (in_i64 (- v) = (v <=? 2 ^ 63)) as F2.
  { unfold in_i64, i64_min, i64_max. rewrite (proj2 (Z.leb_le (- v) _)), andb_true_r by lia.
    destruct (Z.leb_spec v (2 ^ 63)); [apply Z.leb_le|apply Z.leb_gt]; lia. }
  unfold parse_i64. rewrite (bool_decide_eq_false_2 (b = plus)), (bool_decide_eq_false_2 (b = minus)) by done.
  rewrite (bool_decide_eq_true_2 (plus = plus)), (bool_decide_eq_false_2 (minus = plus)), (bool_decide_eq_true_2 (minus = minus)) by done.
  rewrite E1, E2, F1, F2. done.
Qed.

Lemma parse_i64_exact_witness : parse_i64 (str "-9223372036854775808") = Some (- 2 ^ 63) /\ parse_i64 (str "9223372036854775808") = None.
Proof.
  destruct (parse_i64_exact x39 (str "223372036854775808")) as (E1 & _ & E2).
  - apply (bool_decide_unpack _). vm_compute. exact I.
  - split; [etransitivity; [exact E2|vm_compute; reflexivity]|etransitivity; [exact E1|vm_compute; reflexivity]].
Defined.

Example floats_parse : (fun s : string => parses_f64 (str s)) <$> ["1"; "1."; ".5"; "-1.5e+3"; "inf"; "NaN"; "."; "1e"; "+"; "1.2.3"; ""]%string =
  [true; true; true; true; true; true; false; false; false; false; false].
Proof. vm_compute. reflexivity. Qed.
