(* ===== verification/Hnsw.v ===== *)
(** * The vector index of [src/index/hnsw.rs]

    The layered proximity graph: distances, the level generator, the beam search
    of a layer, insertion with neighbour selection and pruning, and queries. The
    binary heaps are the standard library's: what they keep is a parameter, with
    the documented contract. [ln] and [exp] are libm's. *)

From S2P Require Import Prelude Ordered Text Float.
Local Open Scope Z_scope.

(** ** Distances *)
Definition sum_f32 (l : list f32) : f32 := foldl f32_add f32_zero l.

Definition f32_one : f32 := f32_lit 1 1.
Definition f32_MAX : f32 := f32_of_bits 0x7F7FFFFF.

Definition cosine_dist (a b : list f32) : f32 :=
  f32_sub f32_one (f_clamp (sum_f32 (zip_with f32_mul a b)) (f32_lit (-1) 1) f32_one).

(** The normalised vector, or [None] when the norm is too small. *)
Definition normalize (v : list f32) : option (list f32) :=
  let norm := f32_sqrt (sum_f32 ((fun x => f32_mul x x) <$> v)) in
  if f_ltb norm (f32_lit 1 10000000000) then None else Some ((fun x => f32_div x norm) <$> v).

(** [Ord for OrdF32]. *)
Definition ord_cmp (x y : f32) : comparison := match f_partial_cmp x y with Some c => c | None => Gt end.

(** The order of the pairs [(OrdF32, usize)], and its reverse. *)
Definition pair_cmp (x y : f32 * nat) : comparison := then_cmp (ord_cmp x.1 y.1) (Nat.compare x.2 y.2).
Definition rev_cmp (x y : f32 * nat) : comparison := pair_cmp y x.
Definition by_dist (x y : f32 * nat) : comparison := ord_cmp x.1 y.1.

Definition gt_dist (x y : f32) : bool := match ord_cmp x y with Gt => true | _ => false end.
Definition lt_dist (x y : f32) : bool := match ord_cmp x y with Lt => true | _ => false end.

(** ** The graph *)
Record Node := mkNode { vector : list f32; key : bytes; neighbours : list (list nat) }.

Definition rng_new (seed : Z) : Z := Z.lxor seed 0x123456789ABCDEF0.

Definition next_f64 (state : Z) : f64 * Z :=
  let state := u64 (state * 6364136223846793005 + 1442695040888963407) in
  (f64_sub (f64_of_bits (Z.lor 0x3FF0000000000000 (Z.shiftr state 11))) (f64_lit 1 1), state).

Record SearchResult := mkResult { res_key : bytes; distance : f32; rank : nat }.

Record HnswIndex := mkHnsw {
  dim : nat; m : nat; m0 : nat; ef_build : nat; ef_search : nat;
  nodes : list Node; entry_point : option nat; entry_level : nat; rng : Z
}.

(** [assert!] panics. *)
Definition new (dim m ef_build ef_search : nat) : res bytes HnswIndex :=
  if (dim =? 0)%nat then Panic
  else if (m <? 2)%nat then Panic
  else Ok (mkHnsw dim m (m * 2) ef_build ef_search [] None 0 (rng_new 42)).

Definition with_defaults (dim : nat) : res bytes HnswIndex := new dim 16 200 50.

Definition len (ix : HnswIndex) : nat := length (nodes ix).
Definition is_empty (ix : HnswIndex) : bool := match nodes ix with [] => true | _ => false end.

Definition set_nodes (ns : list Node) (ix : HnswIndex) : HnswIndex :=
  mkHnsw (dim ix) (m ix) (m0 ix) (ef_build ix) (ef_search ix) ns (entry_point ix) (entry_level ix) (rng ix).

Definition set_entry (ep level : nat) (ix : HnswIndex) : HnswIndex :=
  mkHnsw (dim ix) (m ix) (m0 ix) (ef_build ix) (ef_search ix) (nodes ix) (Some ep) level (rng ix).

Definition set_rng (r : Z) (ix : HnswIndex) : HnswIndex :=
  mkHnsw (dim ix) (m ix) (m0 ix) (ef_build ix) (ef_search ix) (nodes ix) (entry_point ix) (entry_level ix) r.

(** ** Heaps *)
Class HeapOps := {
  heap_push : (f32 * nat -> f32 * nat -> comparison) -> f32 * nat -> list (f32 * nat) -> list (f32 * nat);
  heap_pop : (f32 * nat -> f32 * nat -> comparison) -> list (f32 * nat) -> option (f32 * nat * list (f32 * nat))
}.

Class HeapLaws `{HeapOps} := {
  push_perm cmp x h : heap_push cmp x h ≡ₚ x :: h;
  pop_none cmp h : heap_pop cmp h = None <-> h = [];
  pop_perm cmp h x h' : heap_pop cmp h = Some (x, h') -> h ≡ₚ x :: h';
  pop_max cmp h x h' : heap_pop cmp h = Some (x, h') -> total_preorder_on cmp h -> forall y, y ∈ h -> cmp y x <> Gt
}.

Section hnsw.
Context `{HeapOps}.
Variables (ln exp : f64 -> f64).

Definition heap_peek (cmp : f32 * nat -> f32 * nat -> comparison) (h : list (f32 * nat)) : option (f32 * nat) :=
  fst <$> heap_pop cmp h.

(** ** Levels *)
Fixpoint level_loop (fuel : nat) (p : f64) (state : Z) (level : nat) : nat * Z :=
  let '(x, state') := next_f64 state in
  match fuel with
  | O => (level, state')
  | S fuel' => if f_ltb x p && (level <? 16)%nat then level_loop fuel' p state' (S level) else (level, state')
  end.

Definition random_level (ix : HnswIndex) : nat * Z :=
  let ml := f64_div (f64_lit 1 1) (ln (f64_of_Z (Z.of_nat (m ix)))) in
  level_loop 17 (exp (f64_div (f64_lit (-1) 1) ml)) (rng ix) 0.

(** ** Distances between nodes *)
Definition node_dist (ix : HnswIndex) (a b : nat) : res bytes f32 :=
  x ← index (nodes ix !! a); y ← index (nodes ix !! b); Ok (cosine_dist (vector x) (vector y)).

Definition vec_dist (ix : HnswIndex) (node : nat) (v : list f32) : res bytes f32 :=
  x ← index (nodes ix !! node); Ok (cosine_dist (vector x) v).

Definition get_layer_neighbours (ix : HnswIndex) (node layer : nat) : res bytes (list nat) :=
  x ← index (nodes ix !! node); Ok (default [] (neighbours x !! layer)).

(** ** The beam search of one layer *)
Definition Beam : Type := gset nat * list (f32 * nat) * list (f32 * nat).

Definition visit (dist : nat -> res bytes f32) (ef : nat) (acc : res bytes Beam) (nb : nat) : res bytes Beam :=
  '(visited, cands, results) ← acc;
  if bool_decide (nb ∈ visited) then Ok (visited, cands, results)
  else
    nb_d ← dist nb;
    let worst := match heap_peek pair_cmp results with Some (d, _) => d | None => f32_MAX end in
    if lt_dist nb_d worst || (length results <? ef)%nat then
      let cands := heap_push rev_cmp (nb_d, nb) cands in
      let results := heap_push pair_cmp (nb_d, nb) results in
      let results := if (ef <? length results)%nat
                     then match heap_pop pair_cmp results with Some (_, r) => r | None => results end else results in
      Ok ({[nb]} ∪ visited, cands, results)
    else Ok ({[nb]} ∪ visited, cands, results).

(** [Err] stands for the fuel running out; each turn expands another node. *)
Fixpoint beam_loop (fuel : nat) (ix : HnswIndex) (dist : nat -> res bytes f32) (ef layer : nat) (b : Beam)
    : res bytes (list (f32 * nat)) :=
  let '(visited, cands, results) := b in
  match heap_pop rev_cmp cands with
  | None => Ok results
  | Some ((c_dist, c_idx), cands') =>
      match fuel with
      | O => Err []
      | S fuel' =>
          let stop := match heap_peek pair_cmp results with
                      | Some (worst, _) => gt_dist c_dist worst && (ef <=? length results)%nat
                      | None => false end in
          if stop then Ok results
          else
            nbs ← get_layer_neighbours ix c_idx layer;
            b' ← foldl (visit dist ef) (Ok (visited, cands', results)) nbs;
            beam_loop fuel' ix dist ef layer b'
      end
  end.

Definition search_layer (ix : HnswIndex) (dist : nat -> res bytes f32) (ep ef layer : nat) : res bytes (list (f32 * nat)) :=
  ep_d ← dist ep;
  out ← beam_loop (S (length (nodes ix))) ix dist ef layer
          ({[ep]}, heap_push rev_cmp (ep_d, ep) [], heap_push pair_cmp (ep_d, ep) []);
  Ok (sort_by by_dist out).

Definition search_layer_node (ix : HnswIndex) (query ep ef layer : nat) : res bytes (list (f32 * nat)) :=
  search_layer ix (node_dist ix query) ep ef layer.

Definition search_layer_vec (ix : HnswIndex) (query_vec : list f32) (ep ef layer : nat) : res bytes (list (f32 * nat)) :=
  search_layer ix (fun node => vec_dist ix node query_vec) ep ef layer.

(** ** Neighbour selection *)
Fixpoint all_farther (ix : HnswIndex) (v : list f32) (selected_vecs : list (list f32)) (dist : f32) : bool :=
  match selected_vecs with
  | [] => true
  | sv :: rest => negb (lt_dist (cosine_dist v sv) dist) && all_farther ix v rest dist
  end.

Fixpoint select_loop (ix : HnswIndex) (query : nat) (candidates : list (f32 * nat)) (m : nat)
    (selected : list nat) (selected_vecs : list (list f32)) : res bytes (list nat) :=
  match candidates with
  | [] => Ok selected
  | (dist, idx) :: rest =>
      if (idx =? query)%nat then select_loop ix query rest m selected selected_vecs
      else if (m <=? length selected)%nat then Ok selected
      else
        x ← index (nodes ix !! idx);
        if all_farther ix (vector x) selected_vecs dist
        then select_loop ix query rest m (selected ++ [idx]) (selected_vecs ++ [vector x])
        else select_loop ix query rest m selected selected_vecs
  end.

Definition select_neighbours_heuristic (ix : HnswIndex) (query : nat) (candidates : list (f32 * nat)) (m : nat)
    : res bytes (list nat) := select_loop ix query candidates m [] [].

Definition prune (ix : HnswIndex) (node layer m_max : nat) : res bytes (list nat) :=
  x ← index (nodes ix !! node);
  current ← index (neighbours x !! layer);
  cands ← mapM (fun nb => d ← node_dist ix node nb; Ok (d, nb)) current;
  select_neighbours_heuristic ix node (sort_by by_dist cands) m_max.

(** [self.nodes[i].neighbours[l] = ns] *)
Definition set_layer (ix : HnswIndex) (i l : nat) (ns : list nat) : res bytes HnswIndex :=
  x ← index (nodes ix !! i);
  _ ← index (neighbours x !! l);
  Ok (set_nodes (<[i := mkNode (vector x) (key x) (<[l := ns]> (neighbours x))]> (nodes ix)) ix).

(** The missing layers of a node, up to [l], are added empty. *)
Definition pad_layers (ix : HnswIndex) (i l : nat) : res bytes HnswIndex :=
  x ← index (nodes ix !! i);
  Ok (set_nodes (<[i := mkNode (vector x) (key x) (neighbours x ++ replicate (S l - length (neighbours x)) [])]> (nodes ix)) ix).

(** The link back from a selected neighbour, pruned when it has too many. *)
Definition link_back (lyr m_max new_idx : nat) (acc : res bytes HnswIndex) (nb : nat) : res bytes HnswIndex :=
  ix0 ← acc;
  ix ← pad_layers ix0 nb lyr;
  x ← index (nodes ix !! nb);
  ns ← index (neighbours x !! lyr);
  ix1 ← (if bool_decide (new_idx ∈ ns) then Ok ix else set_layer ix nb lyr (ns ++ [new_idx]));
  x1 ← index (nodes ix1 !! nb);
  ns1 ← index (neighbours x1 !! lyr);
  if (m_max <? length ns1)%nat then
    pruned ← prune ix1 nb lyr m_max; set_layer ix1 nb lyr pruned
  else Ok ix1.

(** ** Insertion *)
Definition head_or (ep : nat) (cands : list (f32 * nat)) : nat := match cands with (_, c) :: _ => c | [] => ep end.

Definition descend (ix : HnswIndex) (new_idx : nat) (acc : res bytes nat) (lyr : nat) : res bytes nat :=
  ep ← acc; cands ← search_layer_node ix new_idx ep 1 lyr; Ok (head_or ep cands).

Definition insert_layer (new_idx : nat) (acc : res bytes (HnswIndex * nat)) (lyr : nat) : res bytes (HnswIndex * nat) :=
  '(ix, ep) ← acc;
  let m_max := if (lyr =? 0)%nat then m0 ix else m ix in
  cands ← search_layer_node ix new_idx ep (ef_build ix) lyr;
  selected ← select_neighbours_heuristic ix new_idx cands m_max;
  ix1 ← set_layer ix new_idx lyr selected;
  ix2 ← foldl (link_back lyr m_max new_idx) (Ok ix1) selected;
  Ok (ix2, head_or ep cands).

(** The error and the index it leaves; a panic leaves none. *)
Definition add (ix : HnswIndex) (key : bytes) (v : list f32) : res bytes HnswIndex :=
  if negb (length v =? dim ix)%nat then
    Err (str "dimension mismatch: index has dim=" ++ dec (Z.of_nat (dim ix)) ++ str ", got dim=" ++ dec (Z.of_nat (length v)))
  else
    match normalize v with
    | None => Err (str "vector has zero norm and cannot be normalized")
    | Some v =>
        let new_idx := length (nodes ix) in
        let '(level, r) := random_level ix in
        let ix1 := set_rng r (set_nodes (nodes ix ++ [mkNode v key (replicate (S level) [])]) ix) in
        match entry_point ix1 with
        | None => Ok (set_entry new_idx level ix1)
        | Some ep =>
            let ep_level := entry_level ix1 in
            ep1 ← foldl (descend ix1 new_idx) (Ok ep) (rev (seq (S level) (ep_level - level)));
            '(ix2, _) ← foldl (insert_layer new_idx) (Ok (ix1, ep1)) (rev (seq 0 (S (Nat.min level ep_level))));
            Ok (if (ep_level <? level)%nat then set_entry new_idx level ix2 else ix2)
        end
    end.

(** ** Queries *)
Definition descend_vec (ix : HnswIndex) (q : list f32) (acc : res bytes nat) (lyr : nat) : res bytes nat :=
  ep ← acc; cands ← search_layer_vec ix q ep 1 lyr; Ok (head_or ep cands).

Definition to_result (ix : HnswIndex) (rank : nat) (c : f32 * nat) : res bytes SearchResult :=
  x ← index (nodes ix !! c.2); Ok (mkResult (key x) c.1 rank).

Definition search_with_ef (ix : HnswIndex) (query : list f32) (k ef_override : nat) : res bytes (list SearchResult) :=
  if is_empty ix || (k =? 0)%nat || negb (length query =? dim ix)%nat then Ok []
  else
    match normalize query with
    | None => Ok []
    | Some q =>
        ep ← index (entry_point ix);
        ep1 ← foldl (descend_vec ix q) (Ok ep) (rev (seq 1 (entry_level ix)));
        cands ← search_layer_vec ix q ep1 (Nat.max ef_override k) 0;
        mapM (fun p => to_result ix p.1 p.2) (imap (fun i c => (i, c)) (take k (sort_by by_dist cands)))
    end.

Definition search (ix : HnswIndex) (query : list f32) (k : nat) : res bytes (list SearchResult) :=
  search_with_ef ix query k (ef_search ix).
End hnsw.

(** ** The invariant *)
Definition layer_cap (ix : HnswIndex) (l : nat) : nat := if (l =? 0)%nat then m0 ix else m ix.

(** The links of node [i]: distinct nodes of the graph other than itself. *)
Definition links_ok (n i : nat) (ns : list nat) : Prop := NoDup ns /\ (i ∉ ns) /\ forall j, j ∈ ns -> (j < n)%nat.

(** A node has a vector of the index's dimension, and at most 17 layers. *)
Definition node_ok (d : nat) (nd : Node) : Prop := length (vector nd) = d /\ (length (neighbours nd) <= 17)%nat.

Record hnsw_wf (ix : HnswIndex) : Prop := {
  w_nodes : Forall (node_ok (dim ix)) (nodes ix);
  w_links : forall i nd l ns, nodes ix !! i = Some nd -> neighbours nd !! l = Some ns ->
    links_ok (length (nodes ix)) i ns /\ (length ns <= layer_cap ix l)%nat;
  w_entry : match entry_point ix with Some ep => (ep < length (nodes ix))%nat | None => nodes ix = [] end;
  w_level : (entry_level ix <= 16)%nat;
  w_params : (0 < dim ix)%nat /\ (2 <= m ix)%nat /\ m0 ix = (m ix * 2)%nat
}.

(** Every field but the links of the nodes. *)
Definition same_shape (ix ix' : HnswIndex) : Prop :=
  length (nodes ix') = length (nodes ix) /\
  (forall i nd, nodes ix !! i = Some nd -> exists nd', nodes ix' !! i = Some nd' /\ vector nd' = vector nd /\ key nd' = key nd) /\
  dim ix' = dim ix /\ m ix' = m ix /\ m0 ix' = m0 ix /\ ef_build ix' = ef_build ix /\ ef_search ix' = ef_search ix /\
  entry_point ix' = entry_point ix /\ entry_level ix' = entry_level ix /\ rng ix' = rng ix.

#[export] Instance same_shape_preorder : PreOrder same_shape.
Proof.
  split; [intros ix; split_and!; try done; intros i nd Hi; by exists nd|].
  intros x y z (L1 & N1 & H1) (L2 & N2 & H2). destruct_and!. split_and!; try congruence.
  intros i nd Hi. destruct (N1 i nd Hi) as (nd1 & Hi1 & ? & ?). destruct (N2 i nd1 Hi1) as (nd2 & Hi2 & ? & ?).
  exists nd2. split_and!; congruence.
Qed.

Section search.
Context `{HL : HeapLaws}.

Variable ix : HnswIndex.
Let n := length (nodes ix).
Hypothesis Hlinks : forall i nd l ns, nodes ix !! i = Some nd -> neighbours nd !! l = Some ns -> forall j, j ∈ ns -> (j < n)%nat.
Variable dist : nat -> res bytes f32.
Variable distf : nat -> f32.
Hypothesis Hdist : forall i, (i < n)%nat -> dist i = Ok (distf i).

(** An entry of a heap: a node with its distance. *)
Definition entry_ok (c : f32 * nat) : Prop := (c.2 < n)%nat /\ c.1 = distf c.2.

Record beam_inv (ef : nat) (b : Beam) : Prop := {
  bi_visited : forall i, i ∈ b.1.1 -> (i < n)%nat;
  bi_cands : Forall entry_ok b.1.2;
  bi_results : Forall entry_ok b.2;
  bi_nodup : NoDup b.2.*2;
  bi_sub : forall i, i ∈ b.2.*2 -> i ∈ b.1.1;
  bi_len : (1 <= length b.2 <= Nat.max ef 1)%nat
}.

Definition beam_measure (b : Beam) : nat := (length b.1.2 + (n - size b.1.1))%nat.

Lemma visited_size (v : gset nat) : (forall i, i ∈ v -> (i < n)%nat) -> (size v <= n)%nat.
Proof.
  intros Hv. assert (v ⊆ set_seq 0 n) as Hsub by (intros i Hi; apply elem_of_set_seq; specialize (Hv i Hi); lia).
  etransitivity; [by apply subseteq_size|]. by rewrite size_set_seq.
Qed.

Lemma visit_ok ef b nb : beam_inv ef b -> (nb < n)%nat ->
  exists b', visit dist ef (Ok b) nb = Ok b' /\ beam_inv ef b' /\ (beam_measure b' <= beam_measure b)%nat.
Proof.
  intros [Hv Hc Hr Hnd Hs Hl] Hnb. destruct b as [[visited cands] results]. unfold visit. cbn [mbind res_bind fst snd] in *.
  destruct (bool_decide_reflect (nb ∈ visited)) as [Hin|Hnin]; [by exists (visited, cands, results)|].
  rewrite (Hdist nb Hnb). cbn [mbind res_bind]. set (d := distf nb).
  assert (size ({[nb]} ∪ visited) = S (size visited)) as Hsz by (rewrite size_union, size_singleton by set_solver; lia).
  assert (size ({[nb]} ∪ visited) <= n)%nat as Hsn.
  { apply visited_size. intros i [->%elem_of_singleton|?]%elem_of_union; auto. }
  assert (entry_ok (d, nb)) as Hok by done.
  destruct (lt_dist d _ || _) eqn:Eb.
  2: { exists ({[nb]} ∪ visited, cands, results). split; [done|]. split; [|unfold beam_measure; cbn; lia].
       split; cbn; try done; [set_solver|]. intros i Hi. apply elem_of_union_r. auto. }
  pose proof (push_perm rev_cmp (d, nb) cands) as Pc. pose proof (push_perm pair_cmp (d, nb) results) as Pr.
  set (cands' := heap_push rev_cmp (d, nb) cands) in *. set (results1 := heap_push pair_cmp (d, nb) results) in *.
  assert (nb ∉ results.*2) as Hnr by (intros Hi; apply Hnin; auto).
  assert (Forall entry_ok results1) as Hr1 by (rewrite Pr; by constructor).
  assert (NoDup results1.*2) as Hnd1 by (rewrite Pr; by constructor).
  assert (forall i, i ∈ results1.*2 -> i ∈ ({[nb]} ∪ visited : gset nat)) as Hs1.
  { intros i. rewrite Pr. cbn. intros [->|Hi]%elem_of_cons; [set_solver|]. apply elem_of_union_r. auto. }
  assert (length results1 = S (length results)) as Hl1 by (by rewrite Pr).
  set (results2 := if (ef <? length results1)%nat then _ else results1).
  assert (Forall entry_ok results2 /\ NoDup results2.*2 /\ (forall i, i ∈ results2.*2 -> i ∈ results1.*2) /\
    (1 <= length results2 <= Nat.max ef 1)%nat) as (Hr2 & Hnd2 & Hs2 & Hl2).
  { unfold results2. destruct (Nat.ltb_spec ef (length results1)) as [Hlt|Hge]; [|split_and!; try done; lia].
    destruct (heap_pop pair_cmp results1) as [[x h']|] eqn:Ep.
    - apply pop_perm in Ep. rewrite Ep in Hr1, Hnd1, Hl1. cbn in Hnd1, Hl1. apply Forall_cons in Hr1 as [_ Hr1].
      apply NoDup_cons in Hnd1 as [_ Hnd1]. split_and!; try done; [|lia..]. intros i Hi. rewrite Ep. by right.
    - apply pop_none in Ep. by rewrite Ep in Hl1. }
  exists ({[nb]} ∪ visited, cands', results2). split; [done|]. split.
  - split; cbn; try done; [set_solver|rewrite Pc; by constructor|]. auto.
  - unfold beam_measure. cbn. rewrite Pc. cbn. lia.
Qed.

Lemma visits_ok ef nbs : forall b, beam_inv ef b -> (forall j, j ∈ nbs -> (j < n)%nat) ->
  exists b', foldl (visit dist ef) (Ok b) nbs = Ok b' /\ beam_inv ef b' /\ (beam_measure b' <= beam_measure b)%nat.
Proof.
  induction nbs as [|nb nbs IH]; intros b Hb Hn; [by exists b|]. cbn [foldl].
  destruct (visit_ok ef b nb Hb ltac:(apply Hn; left)) as (b1 & -> & Hb1 & Hm1).
  destruct (IH b1 Hb1 ltac:(intros; apply Hn; by right)) as (b' & E & Hb' & Hm'). exists b'. split_and!; [done..|lia].
Qed.

Lemma beam_loop_ok ef layer fuel : forall b, beam_inv ef b -> (beam_measure b <= fuel)%nat ->
  exists out, beam_loop fuel ix dist ef layer b = Ok out /\ Forall entry_ok out /\ NoDup out.*2 /\
    (1 <= length out <= Nat.max ef 1)%nat.
Proof.
  induction fuel as [|fuel IH]; intros b Hb Hm; destruct b as [[visited cands] results]; pose proof Hb as [Hv Hc Hr Hnd Hs Hl]; cbn [fst snd] in *.
  all: cbn [beam_loop]; destruct (heap_pop rev_cmp cands) as [[[c_dist c_idx] cands']|] eqn:Ep; [|by exists results].
  all: apply pop_perm in Ep; unfold beam_measure in Hm; cbn [fst snd] in Hm; rewrite Ep in Hm, Hc; cbn [length] in Hm.
  { lia. }
  apply Forall_cons in Hc as [[Hci _] Hc]. cbn in Hci.
  destruct (match heap_peek pair_cmp results with Some (worst, _) => _ | None => false end); [by exists results|].
  destruct (lookup_lt_is_Some_2 (nodes ix) c_idx Hci) as [x Hx]. unfold get_layer_neighbours. rewrite Hx. cbn [index mbind res_bind].
  destruct (visits_ok ef (default [] (neighbours x !! layer)) (visited, cands', results)) as (b' & E & Hb' & Hm').
  - by split.
  - intros j Hj. destruct (neighbours x !! layer) as [ns|] eqn:El; [|by apply not_elem_of_nil in Hj]. by eapply Hlinks.
  - change (@Ok bytes (gset nat * list (f32 * nat) * list (f32 * nat)) (visited, cands', results)) with (@Ok bytes Beam (visited, cands', results)).
    rewrite E. cbn [mbind res_bind]. apply IH; [done|]. unfold beam_measure in *. cbn [fst snd] in *. lia.
Qed.

Lemma start_inv ep ef : (ep < n)%nat ->
  beam_inv ef ({[ep]}, heap_push rev_cmp (distf ep, ep) [], heap_push pair_cmp (distf ep, ep) []).
Proof.
  intros Hep. pose proof (push_perm rev_cmp (distf ep, ep) []) as Pc. pose proof (push_perm pair_cmp (distf ep, ep) []) as Pr.
  assert (entry_ok (distf ep, ep)) as Hok by done. split; cbn; rewrite ?Pc, ?Pr.
  - by intros i ->%elem_of_singleton.
  - by constructor.
  - by constructor.
  - apply NoDup_singleton.
  - intros i. rewrite Pr. intros ->%list_elem_of_singleton. by apply elem_of_singleton.
  - cbn. lia.
Qed.

(** The beam search of a layer ends, without a panic, with distinct nodes at their
    distances, at least one and at most the width of the beam. *)
Lemma search_layer_ok ep ef layer : (ep < n)%nat ->
  exists out, search_layer ix dist ep ef layer = Ok out /\ Forall entry_ok out /\ NoDup out.*2 /\
    (1 <= length out <= Nat.max ef 1)%nat /\ (total_preorder_on by_dist out -> in_order by_dist out).
Proof.
  intros Hep. unfold search_layer. rewrite (Hdist ep Hep). cbn [mbind res_bind]. fold n.
  pose proof (push_perm rev_cmp (distf ep, ep) []) as Pc.
  destruct (beam_loop_ok ef layer (S n) ({[ep]}, heap_push rev_cmp (distf ep, ep) [], heap_push pair_cmp (distf ep, ep) []))
    as (out & -> & Ho & Hnd & Hl).
  - by apply start_inv.
  - unfold beam_measure. cbn. rewrite Pc, size_singleton. cbn. lia.
  - cbn [mbind res_bind]. exists (sort_by by_dist out). destruct (sort_by_sorts by_dist out) as [Hp Hs]. split; [done|].
    split; [by rewrite Hp|]. split; [by rewrite Hp|]. split; [by rewrite Hp|]. intros Ht. apply Hs.
    eapply total_preorder_sub; [|exact Ht]. intros x Hx. by rewrite Hp.
Qed.
End search.

(** ** Neighbour selection and links *)
Lemma select_loop_ok ix query mx cands : forall selected vecs, NoDup cands.*2 ->
  (forall c, c ∈ cands -> (c.2 < length (nodes ix))%nat) -> NoDup selected -> (forall i, i ∈ selected -> i ∉ cands.*2) ->
  (length selected <= mx)%nat ->
  exists out, select_loop ix query cands mx selected vecs = Ok out /\ NoDup out /\ (length out <= mx)%nat /\
    forall i, i ∈ out -> i ∈ selected \/ (i ∈ cands.*2 /\ i <> query).
Proof.
  induction cands as [|[d i] cands IH]; intros selected vecs Hnd Hr Hs Hdis Hl; cbn [select_loop].
  { exists selected. split_and!; auto. }
  cbn [fmap list_fmap snd] in *. apply NoDup_cons in Hnd as [Hni Hnd].
  assert (forall c, c ∈ cands -> (c.2 < length (nodes ix))%nat) as Hr' by (intros c Hc; apply Hr; by right).
  assert (forall sel : list nat, (forall j, j ∈ sel -> j ∉ i :: cands.*2) -> forall j, j ∈ sel -> j ∉ cands.*2) as Hd'
    by (intros sel Hsel j Hj Hjc; destruct (Hsel j Hj); by right).
  assert (forall out : list nat, (forall j, j ∈ out -> j ∈ selected \/ j ∈ cands.*2 /\ j <> query) ->
    forall j, j ∈ out -> j ∈ selected \/ j ∈ i :: cands.*2 /\ j <> query) as Hw.
  { intros out Ho j Hj. destruct (Ho j Hj) as [?|[? ?]]; [by left|right; split; [by right|done]]. }
  destruct (Nat.eqb_spec i query) as [->|Hne].
  { destruct (IH selected vecs Hnd Hr' Hs (Hd' _ Hdis) Hl) as (out & E & ? & ? & Ho). exists out. split_and!; [done..|by apply Hw]. }
  destruct (Nat.leb_spec mx (length selected)); [exists selected; split_and!; auto|].
  destruct (lookup_lt_is_Some_2 (nodes ix) i (Hr (d, i) ltac:(left))) as [x Hx]. rewrite Hx. cbn [index mbind res_bind].
  destruct (all_farther ix (vector x) vecs d).
  2: { destruct (IH selected vecs Hnd Hr' Hs (Hd' _ Hdis) Hl) as (out & E & ? & ? & Ho). exists out. split_and!; [done..|by apply Hw]. }
  destruct (IH (selected ++ [i]) (vecs ++ [vector x]) Hnd Hr') as (out & E & ? & ? & Ho).
  - apply NoDup_app. split_and!; [done| |apply NoDup_singleton]. intros j Hj ->%list_elem_of_singleton.
    destruct (Hdis i Hj). left.
  - intros j [Hj| ->%list_elem_of_singleton]%elem_of_app; [|done]. by apply (Hd' selected).
  - rewrite length_app. cbn. lia.
  - exists out. split_and!; auto. intros j Hj. destruct (Ho j Hj) as [[?| ->%list_elem_of_singleton]%elem_of_app|[? ?]].
    + by left.
    + right. split; [left|done].
    + right. split; [by right|done].
Qed.

Lemma select_ok ix query mx cands : NoDup cands.*2 -> (forall c, c ∈ cands -> (c.2 < length (nodes ix))%nat) ->
  exists out, select_neighbours_heuristic ix query cands mx = Ok out /\ links_ok (length (nodes ix)) query out /\
    (length out <= mx)%nat.
Proof.
  intros Hnd Hr. destruct (select_loop_ok ix query mx cands [] [] Hnd Hr) as (out & E & Hno & Hl & Ho).
  - constructor.
  - intros i Hi. by apply not_elem_of_nil in Hi.
  - cbn. lia.
  - exists out. split; [done|]. split; [|done]. split; [done|]. split.
    + intros Hq. destruct (Ho query Hq) as [Hi|[_ ?]]; [by apply not_elem_of_nil in Hi|done].
    + intros j Hj. destruct (Ho j Hj) as [Hi|[([d i] & -> & Hc)%list_elem_of_fmap _]]; [by apply not_elem_of_nil in Hi|].
      exact (Hr _ Hc).
Qed.

Definition dist_of (ix : HnswIndex) (a b : nat) : f32 := match node_dist ix a b with Ok d => d | _ => f32_zero end.

Lemma node_dist_ok ix a b : (a < length (nodes ix))%nat -> (b < length (nodes ix))%nat -> node_dist ix a b = Ok (dist_of ix a b).
Proof.
  intros Ha Hb. unfold dist_of, node_dist. destruct (lookup_lt_is_Some_2 _ _ Ha) as [x ->], (lookup_lt_is_Some_2 _ _ Hb) as [y ->]. done.
Qed.

Lemma prune_ok ix i nd l ns mx : nodes ix !! i = Some nd -> neighbours nd !! l = Some ns ->
  links_ok (length (nodes ix)) i ns -> exists out, prune ix i l mx = Ok out /\ links_ok (length (nodes ix)) i out /\ (length out <= mx)%nat.
Proof.
  intros Hi Hl (Hnd & Hni & Hr). unfold prune. rewrite Hi. cbn [index mbind res_bind]. rewrite Hl. cbn [index mbind res_bind].
  rewrite (mapM_ok _ (fun j => (dist_of ix i j, j))).
  2: { intros j Hj. rewrite node_dist_ok; [done|by eapply lookup_lt_Some|by apply Hr]. }
  cbn [mbind res_bind]. set (cands := (fun j => (dist_of ix i j, j)) <$> ns). destruct (sort_by_sorts by_dist cands) as [Hp _].
  assert (cands.*2 = ns) as Hc by (unfold cands; rewrite <- list_fmap_compose; apply list_fmap_id).
  apply select_ok; [by rewrite Hp, Hc|]. intros c Hin. rewrite Hp in Hin. apply list_elem_of_fmap in Hin as (j & -> & Hj). by apply Hr.
Qed.

(** The invariant with nothing known of the links of node [i] at layer [l]. *)
Definition hnsw_wf_but (ix : HnswIndex) (i l : nat) : Prop :=
  Forall (node_ok (dim ix)) (nodes ix) /\
  (forall j nd l' ns, nodes ix !! j = Some nd -> neighbours nd !! l' = Some ns -> (j, l') <> (i, l) ->
    links_ok (length (nodes ix)) j ns /\ (length ns <= layer_cap ix l')%nat) /\
  match entry_point ix with Some ep => (ep < length (nodes ix))%nat | None => nodes ix = [] end /\
  (entry_level ix <= 16)%nat /\ ((0 < dim ix)%nat /\ (2 <= m ix)%nat /\ m0 ix = (m ix * 2)%nat).

Lemma wf_wf_but ix i l : hnsw_wf ix -> hnsw_wf_but ix i l.
Proof. intros [Wd Wl We Wv Wp]. split_and!; try done; try apply Wp. intros j nd l' ns Hj Hl _. by apply (Wl j nd). Qed.

(** Replacing the links of one layer of one node. *)
Lemma set_layer_ok ix i nd l ns : hnsw_wf_but ix i l -> nodes ix !! i = Some nd -> (l < length (neighbours nd))%nat ->
  exists ix', set_layer ix i l ns = Ok ix' /\ same_shape ix ix' /\
    (exists nd', nodes ix' !! i = Some nd' /\ neighbours nd' = <[l := ns]> (neighbours nd)) /\
    (forall j, j <> i -> nodes ix' !! j = nodes ix !! j) /\
    hnsw_wf_but ix' i l /\
    (links_ok (length (nodes ix)) i ns -> (length ns <= layer_cap ix l)%nat -> hnsw_wf ix').
Proof.
  intros Hwf Hi Hl. unfold set_layer. rewrite Hi. cbn [index mbind res_bind].
  destruct (lookup_lt_is_Some_2 _ _ Hl) as [old Hold]. rewrite Hold. cbn [index mbind res_bind]. eexists. split; [done|].
  pose proof (lookup_lt_Some _ _ _ Hi) as Hlt. split; [|split; [|split]].
  - split_and!; try done; cbn; [by rewrite length_insert|]. intros j nj Hj. destruct (decide (j = i)) as [->|Hne].
    + rewrite list_lookup_insert_eq by done. simplify_eq. eauto.
    + rewrite list_lookup_insert_ne by done. eauto.
  - cbn. rewrite list_lookup_insert_eq by done. eauto.
  - intros j Hne. cbn. by rewrite list_lookup_insert_ne.
  - destruct Hwf as (Wd & Wl & We & Wv & Wp).
    assert (node_ok (dim ix) nd) as [Hvd Hln] by (rewrite Forall_forall in Wd; apply Wd; by eapply list_elem_of_lookup_2).
    assert (Forall (node_ok (dim ix)) (<[i := mkNode (vector nd) (key nd) (<[l := ns]> (neighbours nd))]> (nodes ix))) as Wd'.
    { apply Forall_insert; [done|]. split; cbn; by rewrite ?length_insert. }
    assert (match entry_point ix with Some ep => (ep < length (nodes ix))%nat
            | None => <[i := mkNode (vector nd) (key nd) (<[l := ns]> (neighbours nd))]> (nodes ix) = [] end) as We'
      by (destruct (entry_point ix); [done|by rewrite We]).
    assert (forall j nj l' ns', <[i := mkNode (vector nd) (key nd) (<[l := ns]> (neighbours nd))]> (nodes ix) !! j = Some nj ->
      neighbours nj !! l' = Some ns' -> (j, l') = (i, l) /\ ns' = ns \/
      links_ok (length (nodes ix)) j ns' /\ (length ns' <= layer_cap ix l')%nat) as Wl'.
    { intros j nj l' ns' Hj Hl'. destruct (decide (j = i)) as [->|Hne].
      - rewrite list_lookup_insert_eq in Hj by done. injection Hj as <-. cbn in Hl'. destruct (decide (l' = l)) as [->|Hnl].
        + rewrite list_lookup_insert_eq in Hl' by done. injection Hl' as <-. by left.
        + rewrite list_lookup_insert_ne in Hl' by done. right. apply (Wl i nd); [done|done|congruence].
      - rewrite list_lookup_insert_ne in Hj by done. right. apply (Wl j nj); [done|done|congruence]. }
    split.
    + split_and!; cbn; rewrite ?length_insert; try done; try apply Wp. intros j nj l' ns' Hj Hl' Hne.
      destruct (Wl' j nj l' ns' Hj Hl') as [[? _]|?]; done.
    + intros Hlk Hcap. split; cbn; rewrite ?length_insert; try done.
      intros j nj l' ns' Hj Hl'. destruct (Wl' j nj l' ns' Hj Hl') as [[[= -> ->] ->]|?]; done.
Qed.

Lemma pad_layers_ok ix i l nd : hnsw_wf ix -> (l <= 16)%nat -> nodes ix !! i = Some nd ->
  exists ix' nd', pad_layers ix i l = Ok ix' /\ hnsw_wf ix' /\ same_shape ix ix' /\ nodes ix' !! i = Some nd' /\
    (l < length (neighbours nd'))%nat /\ (forall j, j <> i -> nodes ix' !! j = nodes ix !! j).
Proof.
  intros Hwf Hl16 Hi. unfold pad_layers. rewrite Hi. cbn [index mbind res_bind]. pose proof (lookup_lt_Some _ _ _ Hi) as Hlt.
  eexists _, _. split; [done|]. split; [|split; [|split; [|split]]].
  - destruct Hwf as [Wd Wl We Wv Wp].
    assert (node_ok (dim ix) nd) as [Hvd Hln] by (rewrite Forall_forall in Wd; apply Wd; by eapply list_elem_of_lookup_2).
    split; cbn.
    + apply Forall_insert; [done|]. split; cbn; [done|]. rewrite length_app, length_replicate. lia.
    + intros j nj l' ns' Hj Hl'. rewrite length_insert. destruct (decide (j = i)) as [->|Hne].
      * rewrite list_lookup_insert_eq in Hj by done. injection Hj as <-. cbn in Hl'.
        apply lookup_app_Some in Hl' as [Hl'|[_ Hl']]; [by apply (Wl i nd)|]. apply lookup_replicate in Hl' as [-> _].
        split; [|cbn; lia]. split; [constructor|]. split; [apply not_elem_of_nil|]. intros j' Hj'. by apply not_elem_of_nil in Hj'.
      * rewrite list_lookup_insert_ne in Hj by done. by apply (Wl j nj).
    + rewrite length_insert. destruct (entry_point ix); [done|]. by rewrite We.
    + done.
    + done.
  - split_and!; try done; cbn; [by rewrite length_insert|]. intros j nj Hj. destruct (decide (j = i)) as [->|Hne].
    + rewrite list_lookup_insert_eq by done. simplify_eq. eauto.
    + rewrite list_lookup_insert_ne by done. eauto.
  - cbn. by rewrite list_lookup_insert_eq.
  - cbn. rewrite length_app, length_replicate. lia.
  - intros j Hne. cbn. by rewrite list_lookup_insert_ne.
Qed.

Lemma layer_cap_same ix ix' l : same_shape ix ix' -> layer_cap ix' l = layer_cap ix l.
Proof. intros (_ & _ & _ & Hm & Hm0 & _). unfold layer_cap. by rewrite Hm, Hm0. Qed.

Lemma link_back_ok ix lyr new_idx nb : hnsw_wf ix -> (lyr <= 16)%nat -> (new_idx < length (nodes ix))%nat -> (nb < length (nodes ix))%nat ->
  nb <> new_idx ->
  exists ix', link_back lyr (layer_cap ix lyr) new_idx (Ok ix) nb = Ok ix' /\ hnsw_wf ix' /\ same_shape ix ix' /\
    (forall j, j <> nb -> nodes ix' !! j = nodes ix !! j).
Proof.
  intros Hwf Hl16 Hnew Hnb Hne. unfold link_back. cbn [mbind res_bind]. destruct (lookup_lt_is_Some_2 _ _ Hnb) as [nd0 Hnd0].
  destruct (pad_layers_ok ix nb lyr nd0 Hwf Hl16 Hnd0) as (ix1 & nd1 & -> & Hwf1 & Hs1 & Hnd1 & Hlyr & Hother1). cbn [mbind res_bind].
  rewrite Hnd1. cbn [index mbind res_bind]. destruct (lookup_lt_is_Some_2 _ _ Hlyr) as [ns Hns]. rewrite Hns. cbn [index mbind res_bind].
  rewrite <- (layer_cap_same ix ix1) by done. assert (length (nodes ix1) = length (nodes ix)) as Hlen by apply Hs1.
  destruct (w_links ix1 Hwf1 nb nd1 lyr ns Hnd1 Hns) as [Hlk Hcap].
  destruct (bool_decide_reflect (new_idx ∈ ns)) as [Hin|Hnin].
  - cbn [mbind res_bind]. rewrite Hnd1. cbn [index mbind res_bind]. rewrite Hns. cbn [index mbind res_bind].
    rewrite (proj2 (Nat.ltb_ge _ _)) by done. by exists ix1.
  - destruct (set_layer_ok ix1 nb nd1 lyr (ns ++ [new_idx]) (wf_wf_but _ _ _ Hwf1) Hnd1 Hlyr)
      as (ix2 & -> & Hs2 & (nd2 & Hnd2 & Hn2) & Hother2 & Hbut2 & Hwf2). cbn [mbind res_bind].
    rewrite Hnd2. cbn [index mbind res_bind]. rewrite Hn2, list_lookup_insert_eq by done. cbn [index mbind res_bind].
    assert (links_ok (length (nodes ix1)) nb (ns ++ [new_idx])) as Hlk2.
    { destruct Hlk as (Hnd & Hni & Hr). split; [|split].
      - apply NoDup_app. split_and!; [done| |apply NoDup_singleton]. by intros j Hj ->%list_elem_of_singleton.
      - by intros [?| ->%list_elem_of_singleton]%elem_of_app.
      - intros j [?| ->%list_elem_of_singleton]%elem_of_app; [auto|lia]. }
    assert (same_shape ix ix2) as Hs12 by (by etransitivity).
    assert (forall j, j <> nb -> nodes ix2 !! j = nodes ix !! j) as Ho2 by (intros j Hj; rewrite Hother2, Hother1 by done; done).
    destruct (Nat.ltb_spec (layer_cap ix1 lyr) (length (ns ++ [new_idx]))) as [Hlt|Hge]; [|exists ix2; split_and!; auto].
    assert (length (nodes ix2) = length (nodes ix1)) as Hlen2 by apply Hs2.
    destruct (prune_ok ix2 nb nd2 lyr (ns ++ [new_idx]) (layer_cap ix1 lyr) Hnd2) as (pr & -> & Hlp & Hcp).
    { by rewrite Hn2, list_lookup_insert_eq. } { by rewrite Hlen2. }
    cbn [mbind res_bind].
    destruct (set_layer_ok ix2 nb nd2 lyr pr Hbut2 Hnd2) as (ix3 & -> & Hs3 & _ & Hother3 & _ & Hwf3);
      [by rewrite Hn2, length_insert|].
    exists ix3. split_and!; [done| |by etransitivity|intros j Hj; by rewrite Hother3, Ho2].
    apply Hwf3; [done|]. by rewrite (layer_cap_same ix1 ix2).
Qed.
