(* ===== verification/HnswSpec.v ===== *)
(** * Correctness of the vector index

    Insertion keeps the invariant of [Hnsw] and never panics; a query returns
    distinct vectors with their exact distances, closest first, and is exact when
    its beam can hold every vector and the bottom layer is connected. *)

From S2P Require Import Prelude Ordered Text Float Hnsw.

Section ok.
Context `{HL : HeapLaws}.
Variables (ln exp : f64 -> f64).
Implicit Types (ix : HnswIndex).

(** ** Levels *)
Lemma level_loop_bound fuel p : forall st level, (level <= 16)%nat -> ((level_loop fuel p st level).1 <= 16)%nat.
Proof.
  induction fuel as [|fuel IH]; intros st level Hl; cbn [level_loop]; destruct (next_f64 st) as [x st']; [done|].
  destruct (f_ltb x p); [|done]. cbn [andb]. destruct (Nat.ltb_spec level 16); [|done]. apply IH. lia.
Qed.

Lemma random_level_bound ix : ((random_level ln exp ix).1 <= 16)%nat.
Proof. apply level_loop_bound. lia. Qed.

(** The loop stops by itself: more fuel gives the same level. *)
Lemma level_loop_enough p : forall fuel k st level, (16 < fuel + level)%nat ->
  level_loop (fuel + k) p st level = level_loop fuel p st level.
Proof.
  induction fuel as [|fuel IH]; intros k st level Hl; cbn [level_loop Nat.add].
  - destruct k; cbn [level_loop]; [done|]. destruct (next_f64 st) as [x st'].
    rewrite (proj2 (Nat.ltb_ge level 16)), andb_false_r by lia. done.
  - destruct (next_f64 st) as [x st']. destruct (_ && _) eqn:E; [|done]. apply IH.
    apply andb_prop in E as [_ ?%Nat.ltb_lt]. lia.
Qed.

(** ** Insertion *)
Lemma search_node_ok ix q ep ef lyr : hnsw_wf ix -> (q < length (nodes ix))%nat -> (ep < length (nodes ix))%nat ->
  exists out, search_layer_node ix q ep ef lyr = Ok out /\ Forall (entry_ok ix (dist_of ix q)) out /\ NoDup out.*2 /\
    (1 <= length out)%nat.
Proof.
  intros Hwf Hq Hep. destruct (search_layer_ok ix) with (dist := node_dist ix q) (distf := dist_of ix q) (ep := ep) (ef := ef) (layer := lyr)
    as (out & E & Ho & Hnd & Hl & _).
  - intros i nd l ns Hi Hl. apply (w_links ix Hwf i nd l ns Hi Hl).
  - intros i Hi. by apply node_dist_ok.
  - done.
  - exists out. split_and!; [done..|lia].
Qed.

Lemma head_or_ok ix distf ep out : Forall (entry_ok ix distf) out -> (1 <= length out)%nat ->
  (head_or ep out < length (nodes ix))%nat.
Proof. intros Ho Hl. destruct out as [|[d c] out]; cbn in *; [lia|]. by apply Forall_cons in Ho as [[? _] _]. Qed.

Lemma descend_ok ix q lyrs : hnsw_wf ix -> (q < length (nodes ix))%nat -> forall ep, (ep < length (nodes ix))%nat ->
  exists ep', foldl (descend ix q) (Ok ep) lyrs = Ok ep' /\ (ep' < length (nodes ix))%nat.
Proof.
  intros Hwf Hq. induction lyrs as [|lyr lyrs IH]; intros ep Hep; [by exists ep|]. cbn [foldl]. unfold descend at 2. cbn [mbind res_bind].
  destruct (search_node_ok ix q ep 1 lyr Hwf Hq Hep) as (out & -> & Ho & _ & Hl). cbn [mbind res_bind].
  apply IH. by eapply head_or_ok.
Qed.

Lemma link_backs_ok lyr new nbs : (lyr <= 16)%nat -> forall ix cap, cap = layer_cap ix lyr -> hnsw_wf ix -> (new < length (nodes ix))%nat ->
  (forall nb, nb ∈ nbs -> (nb < length (nodes ix))%nat /\ nb <> new) ->
  exists ix', foldl (link_back lyr cap new) (Ok ix) nbs = Ok ix' /\ hnsw_wf ix' /\ same_shape ix ix' /\
    nodes ix' !! new = nodes ix !! new.
Proof.
  intros Hlyr. induction nbs as [|nb nbs IH]; intros ix cap Hcap Hwf Hnew Hn; [by exists ix|]. cbn [foldl].
  destruct (Hn nb ltac:(left)) as [Hnb Hne].
  destruct (link_back_ok ix lyr new nb Hwf Hlyr Hnew Hnb Hne) as (ix1 & E & Hwf1 & Hs1 & Ho1). rewrite Hcap, E.
  assert (length (nodes ix1) = length (nodes ix)) as Hlen by apply Hs1.
  destruct (IH ix1 (layer_cap ix lyr)) as (ix' & E' & Hwf' & Hs' & Hn').
  - by rewrite (layer_cap_same ix ix1).
  - done.
  - by rewrite Hlen.
  - intros j Hj. rewrite Hlen. apply Hn. by right.
  - exists ix'. split_and!; [done|done|by etransitivity|]. by rewrite Hn', Ho1.
Qed.

Lemma insert_layer_ok ix new nd ep lyr : hnsw_wf ix -> nodes ix !! new = Some nd -> (lyr < length (neighbours nd))%nat ->
  (ep < length (nodes ix))%nat ->
  exists ix' ep' nd', insert_layer new (Ok (ix, ep)) lyr = Ok (ix', ep') /\ hnsw_wf ix' /\ same_shape ix ix' /\
    nodes ix' !! new = Some nd' /\ length (neighbours nd') = length (neighbours nd) /\ (ep' < length (nodes ix'))%nat.
Proof.
  intros Hwf Hnd Hlyr Hep. pose proof (lookup_lt_Some _ _ _ Hnd) as Hnew. unfold insert_layer. cbn [mbind res_bind].
  assert (lyr <= 16)%nat as H16.
  { pose proof (w_nodes ix Hwf) as Hw. rewrite Forall_forall in Hw.
    destruct (Hw nd) as [_ ?]; [by eapply list_elem_of_lookup_2|lia]. }
  destruct (search_node_ok ix new ep (ef_build ix) lyr Hwf Hnew Hep) as (out & -> & Ho & Hndo & Hl). cbn [mbind res_bind].
  fold (layer_cap ix lyr).
  destruct (select_ok ix new (layer_cap ix lyr) out Hndo) as (sel & -> & Hlk & Hc).
  { intros c Hc. rewrite Forall_forall in Ho. by apply Ho. }
  cbn [mbind res_bind].
  destruct (set_layer_ok ix new nd lyr sel (wf_wf_but _ _ _ Hwf) Hnd Hlyr)
    as (ix1 & -> & Hs1 & (nd1 & Hnd1 & Hn1) & _ & _ & Hwf1). specialize (Hwf1 Hlk Hc). cbn [mbind res_bind].
  assert (length (nodes ix1) = length (nodes ix)) as Hlen1 by apply Hs1.
  destruct (link_backs_ok lyr new sel H16 ix1 (layer_cap ix lyr)) as (ix2 & -> & Hwf2 & Hs2 & Hnew2).
  - by rewrite (layer_cap_same ix ix1).
  - done.
  - by rewrite Hlen1.
  - intros nb Hnb. rewrite Hlen1. destruct Hlk as (_ & Hni & Hr). split; [by apply Hr|]. by intros ->.
  - cbn [mbind res_bind]. assert (same_shape ix ix2) as Hs by (by etransitivity).
    assert (length (nodes ix2) = length (nodes ix)) as Hlen2 by apply Hs.
    eexists ix2, _, nd1. split_and!; [done..|by rewrite Hnew2|by rewrite Hn1, length_insert|].
    rewrite Hlen2. by eapply head_or_ok.
Qed.

Lemma insert_layers_ok new lyrs : forall ix nd ep, hnsw_wf ix -> nodes ix !! new = Some nd ->
  (forall lyr, lyr ∈ lyrs -> (lyr < length (neighbours nd))%nat) -> (ep < length (nodes ix))%nat ->
  exists ix' ep', foldl (insert_layer new) (Ok (ix, ep)) lyrs = Ok (ix', ep') /\ hnsw_wf ix' /\ same_shape ix ix'.
Proof.
  induction lyrs as [|lyr lyrs IH]; intros ix nd ep Hwf Hnd Hl Hep; [by exists ix, ep|]. cbn [foldl].
  destruct (insert_layer_ok ix new nd ep lyr Hwf Hnd (Hl lyr ltac:(left)) Hep) as (ix1 & ep1 & nd1 & -> & Hwf1 & Hs1 & Hnd1 & Hln1 & Hep1).
  destruct (IH ix1 nd1 ep1 Hwf1 Hnd1) as (ix' & ep' & E & Hwf' & Hs'); [|done|].
  - intros l Hin. rewrite Hln1. apply Hl. by right.
  - exists ix', ep'. split_and!; [done..|by etransitivity].
Qed.

(** The node appended without links. *)
Lemma append_wf ix v key level r : hnsw_wf ix -> length v = dim ix -> (level <= 16)%nat -> is_Some (entry_point ix) ->
  hnsw_wf (set_rng r (set_nodes (nodes ix ++ [mkNode v key (replicate (S level) [])]) ix)).
Proof.
  intros [Wn Wl We Wv Wp] Hv Hlv Hep. split; cbn; [|intros i nd l ns Hi Hl| |done|done].
  - apply Forall_app. split; [done|]. apply Forall_singleton. split; cbn; [done|]. rewrite length_replicate. lia.
  - unfold layer_cap. cbn. rewrite length_app. cbn. apply lookup_app_Some in Hi as [Hi|[Hge Hi]].
    + destruct (Wl i nd l ns Hi Hl) as [(? & ? & Hr) ?]. split; [|done]. split_and!; [done..|].
      intros j Hj. specialize (Hr j Hj). lia.
    + apply list_lookup_singleton_Some in Hi as [_ <-]. change (replicate (S level) ([] : list nat) !! l = Some ns) in Hl.
      apply lookup_replicate in Hl as [-> _]. split; [|cbn; lia]. split; [constructor|]. split; [apply not_elem_of_nil|].
      intros j Hj. by apply not_elem_of_nil in Hj.
  - destruct Hep as [ep Hep]. rewrite Hep in We |- *. rewrite length_app. lia.
Qed.

Lemma length_normalize v v' : normalize v = Some v' -> length v' = length v.
Proof. unfold normalize. destruct (f_ltb _ _); [done|]. injection 1 as <-. apply length_fmap. Qed.

(** The vectors of an index and their keys, in insertion order. *)
Definition contents ix : list (bytes * list f32) := (fun nd => (key nd, vector nd)) <$> nodes ix.

Lemma same_shape_contents ix ix' : same_shape ix ix' -> contents ix' = contents ix.
Proof.
  intros (Hl & Hn & _). unfold contents. apply list_eq. intros i. rewrite !list_lookup_fmap.
  destruct (nodes ix !! i) as [nd|] eqn:Hi.
  - destruct (Hn i nd Hi) as (nd' & -> & Hv & Hk). cbn. by rewrite Hv, Hk.
  - rewrite (proj2 (lookup_ge_None (nodes ix') i)); [done|]. rewrite Hl. by apply lookup_ge_None.
Qed.

(** What an insertion leaves: the vector is appended, every other is kept, and the
    top layer is the highest level so far. *)
Definition added ix (key : bytes) (v' : list f32) ix' : Prop :=
  hnsw_wf ix' /\ contents ix' = contents ix ++ [(key, v')] /\ dim ix' = dim ix /\ m ix' = m ix /\
  ef_build ix' = ef_build ix /\ ef_search ix' = ef_search ix /\
  (entry_level ix' = Nat.max (match entry_point ix with Some _ => entry_level ix | None => 0%nat end) (random_level ln exp ix).1).

Lemma set_entry_wf ix ep level : hnsw_wf ix -> (ep < length (nodes ix))%nat -> (level <= 16)%nat -> hnsw_wf (set_entry ep level ix).
Proof. intros [Wn Wl We Wv Wp] Hep Hl. by split. Qed.

Lemma first_wf ix v key level r : hnsw_wf ix -> length v = dim ix -> (level <= 16)%nat -> nodes ix = [] ->
  hnsw_wf (set_entry 0 level (set_rng r (set_nodes [mkNode v key (replicate (S level) [])] ix))).
Proof.
  intros [Wn Wl We Wv Wp] Hv Hlv Hnil. split; cbn; [|intros i nd l ns Hi Hl|lia|done|done].
  - apply Forall_singleton. split; cbn; [done|]. rewrite length_replicate. lia.
  - apply list_lookup_singleton_Some in Hi as [_ <-]. change (replicate (S level) ([] : list nat) !! l = Some ns) in Hl.
    apply lookup_replicate in Hl as [-> _]. split; [|cbn; lia]. split; [constructor|]. split; [apply not_elem_of_nil|].
    intros j Hj. by apply not_elem_of_nil in Hj.
Qed.

Lemma add_ok ix key v v' : hnsw_wf ix -> length v = dim ix -> normalize v = Some v' ->
  exists ix', add ln exp ix key v = Ok ix' /\ added ix key v' ix'.
Proof.
  intros Hwf Hv Hn. unfold add. rewrite Hv, Nat.eqb_refl. cbn [negb]. rewrite Hn. unfold added.
  pose proof (length_normalize _ _ Hn) as Hlv. rewrite Hv in Hlv.
  pose proof (random_level_bound ix) as Hlev. destruct (random_level ln exp ix) as [level r]. cbn [fst] in Hlev |- *.
  pose proof (w_entry ix Hwf) as We. cbn [set_rng set_nodes entry_point entry_level].
  destruct (entry_point ix) as [ep|] eqn:Eep.
  2: { eexists. split; [done|]. rewrite We. split; [by apply first_wf|]. unfold contents. cbn. by rewrite We. }
  set (ix1 := set_rng _ _). set (nd := mkNode v' key (replicate (S level) [])). set (new := length (nodes ix)).
  assert (hnsw_wf ix1) as Hwf1 by (apply append_wf; [done..|by rewrite Eep]).
  assert (nodes ix1 !! new = Some nd) as Hnd by (apply list_lookup_middle; done).
  assert (length (nodes ix1) = S new) as Hlen by (cbn; rewrite length_app; cbn; unfold new; lia).
  destruct (descend_ok ix1 new (rev (seq (S level) (entry_level ix - level))) Hwf1 ltac:(lia) ep ltac:(unfold new in *; lia))
    as (ep1 & -> & Hep1). cbn [mbind res_bind].
  destruct (insert_layers_ok new (rev (seq 0 (S (Nat.min level (entry_level ix))))) ix1 nd ep1 Hwf1 Hnd) as (ix2 & ep2 & -> & Hwf2 & Hs2).
  - intros lyr Hin. rewrite list_elem_of_In, <- in_rev, in_seq in Hin. cbn [nd neighbours]. rewrite length_replicate. lia.
  - done.
  - cbn [mbind res_bind]. eexists. split; [done|]. pose proof (same_shape_contents _ _ Hs2) as Hc.
    destruct Hs2 as (Hl2 & _ & Hd & Hm & _ & Hb & Hsr & _ & Hlv2 & _). cbn in Hl2, Hd, Hm, Hb, Hsr, Hlv2.
    assert (contents ix1 = contents ix ++ [(key, v')]) as Hc1 by (unfold contents; cbn; by rewrite fmap_app).
    rewrite Hc1 in Hc. destruct (Nat.ltb_spec (entry_level ix) level).
    + split_and!; try done; [|cbn; lia]. apply set_entry_wf; [done| |done]. rewrite Hl2, length_app. cbn. unfold new. lia.
    + split_and!; try done. lia.
Qed.
End ok.

(** ** A beam that can hold every vector *)
Lemma nodup_bounded (l : list nat) n : NoDup l -> (forall i, i ∈ l -> (i < n)%nat) -> (length l <= n)%nat.
Proof.
  intros Hnd Hl. rewrite <- (length_seq n 0). apply submseteq_length, NoDup_submseteq; [done|].
  intros i Hi. apply elem_of_seq. specialize (Hl i Hi). lia.
Qed.

Lemma nodup_all (l : list nat) n i : NoDup l -> (forall j, j ∈ l -> (j < n)%nat) -> (n <= length l)%nat -> (i < n)%nat -> i ∈ l.
Proof.
  intros Hnd Hl Hn Hi. assert (l ≡ₚ seq 0 n) as ->; [|apply elem_of_seq; lia].
  apply submseteq_length_Permutation; [|by rewrite length_seq]. apply NoDup_submseteq; [done|].
  intros j Hj. apply elem_of_seq. specialize (Hl j Hj). lia.
Qed.

(** The links of one layer. *)
Definition linked (ix : HnswIndex) (layer : nat) (i j : nat) : Prop :=
  exists nd ns, nodes ix !! i = Some nd /\ neighbours nd !! layer = Some ns /\ j ∈ ns.

Section complete.
Context `{HL : HeapLaws}.
Variable ix : HnswIndex.
Let n := length (nodes ix).
Variable layer : nat.
Hypothesis Hlinks : forall i nd l ns, nodes ix !! i = Some nd -> neighbours nd !! l = Some ns -> forall j, j ∈ ns -> (j < n)%nat.
Variable dist : nat -> res bytes f32.
Variable distf : nat -> f32.
Hypothesis Hdist : forall i, (i < n)%nat -> dist i = Ok (distf i).
Variables (ep ef : nat).
Hypothesis Hef : (n <= ef)%nat.

(** Every visited node is a result, and, but for the nodes of [open], each visited
    node waits to be expanded or has its neighbours visited. *)
Record full (open : list nat) (b : Beam) : Prop := {
  f_inv : beam_inv ix distf ef b;
  f_all : forall i, i ∈ b.1.1 -> i ∈ b.2.*2;
  f_closed : forall i j, i ∈ b.1.1 -> linked ix layer i j -> i ∈ open \/ j ∈ b.1.1 \/ i ∈ b.1.2.*2;
  f_ep : ep ∈ b.1.1
}.

Lemma visit_full open b nb : full open b -> (nb < n)%nat ->
  exists b', visit dist ef (Ok b) nb = Ok b' /\ full open b' /\ b.1.1 ⊆ b'.1.1 /\ nb ∈ b'.1.1 /\
    (beam_measure ix b' <= beam_measure ix b)%nat.
Proof.
  intros [Hinv Ha Hc He] Hnb. destruct (visit_ok ix Hlinks dist distf Hdist ef b nb Hinv Hnb) as (b' & E & Hinv' & Hm).
  exists b'. split; [done|]. destruct b as [[visited cands] results]. unfold visit in E. cbn [mbind res_bind fst snd] in *.
  destruct (bool_decide_reflect (nb ∈ visited)) as [Hin|Hnin].
  { injection E as <-. by split_and!. }
  rewrite (Hdist nb Hnb) in E. cbn [mbind res_bind] in E.
  destruct Hinv as [Hv _ _ Hnd Hs _]. cbn [fst snd] in *.
  assert (S (length results) <= n)%nat as Hlen.
  { pose proof (nodup_bounded (nb :: results.*2) n) as Hb. cbn in Hb. rewrite length_fmap in Hb. apply Hb.
    - constructor; [|done]. intros Hi. apply Hnin. by apply Hs.
    - intros i [->|Hi]%elem_of_cons; [done|]. apply Hv. by apply Hs. }
  pose proof (push_perm rev_cmp (distf nb, nb) cands) as Pc. pose proof (push_perm pair_cmp (distf nb, nb) results) as Pr.
  rewrite (proj2 (Nat.ltb_lt (length results) ef)), orb_true_r in E by lia.
  rewrite (proj2 (Nat.ltb_ge ef _)) in E by (rewrite Pr; cbn; lia). injection E as <-.
  cbn [fst snd] in *. split; [split; cbn [fst snd]|split_and!; [set_solver|set_solver|done]].
  - done.
  - intros i [->%elem_of_singleton|Hi]%elem_of_union; rewrite Pr; cbn; [left|right; auto].
  - intros i j [->%elem_of_singleton|Hi]%elem_of_union Hij.
    + right; right. rewrite Pc. left.
    + destruct (Hc i j Hi Hij) as [?|[?|?]]; [by left|right; left; set_solver|right; right; rewrite Pc; by right].
  - set_solver.
Qed.

Lemma visits_full open nbs : forall b, full open b -> (forall j, j ∈ nbs -> (j < n)%nat) ->
  exists b', foldl (visit dist ef) (Ok b) nbs = Ok b' /\ full open b' /\ b.1.1 ⊆ b'.1.1 /\
    (forall j, j ∈ nbs -> j ∈ b'.1.1) /\ (beam_measure ix b' <= beam_measure ix b)%nat.
Proof.
  induction nbs as [|nb nbs IH]; intros b Hb Hn.
  { exists b. split_and!; [done..| |done]. intros j Hj. by apply not_elem_of_nil in Hj. }
  cbn [foldl]. destruct (visit_full open b nb Hb ltac:(apply Hn; left)) as (b1 & -> & Hb1 & Hs1 & Hnb & Hm1).
  destruct (IH b1 Hb1 ltac:(intros; apply Hn; by right)) as (b' & E & Hb' & Hs' & Hn' & Hm'). exists b'.
  split_and!; [done|done|set_solver| |lia]. intros j [->|Hj]%elem_of_cons; [by apply Hs'|by apply Hn'].
Qed.

Lemma linked_bounded i j : linked ix layer i j -> (j < n)%nat.
Proof. intros (nd & ns & Hi & Hl & Hj). by eapply Hlinks. Qed.

Lemma reached_bounded i : (ep < n)%nat -> rtc (linked ix layer) ep i -> (i < n)%nat.
Proof. intros He Hr. induction Hr as [|i j k Hij _ IH]; [done|]. apply IH. by eapply linked_bounded. Qed.

Lemma closed_reach visited results i : full [] (visited, [], results) -> rtc (linked ix layer) ep i -> i ∈ results.*2.
Proof.
  intros [_ Ha Hc He] Hi. cbn [fst snd] in *. apply Ha. revert He. clear - Hi Hc. induction Hi as [|i j k Hij Hjk IH]; [done|]. intros Hin. apply IH.
  destruct (Hc i j Hin Hij) as [?%not_elem_of_nil|[?|?%not_elem_of_nil]]; done.
Qed.

Lemma beam_loop_full fuel : forall b, full [] b -> (beam_measure ix b <= fuel)%nat ->
  exists out, beam_loop fuel ix dist ef layer b = Ok out /\ forall i, rtc (linked ix layer) ep i -> i ∈ out.*2.
Proof.
  induction fuel as [|fuel IH]; intros b Hb Hm; destruct b as [[visited cands] results].
  all: pose proof Hb as [Hinv Ha Hc He]; pose proof Hinv as [Hv Hco Hr Hnd Hs Hl]; cbn [fst snd] in *.
  all: cbn [beam_loop]; destruct (heap_pop rev_cmp cands) as [[[c_dist c_idx] cands']|] eqn:Ep.
  2,4: (apply pop_none in Ep; rewrite Ep in Hb; exists results; split; [done|]; intros i; by apply (closed_reach visited)).
  all: apply pop_perm in Ep; unfold beam_measure in Hm; cbn [fst snd] in Hm; rewrite Ep in Hm, Hco; cbn [length] in Hm.
  { lia. }
  apply Forall_cons in Hco as [[Hci _] Hco]. cbn in Hci.
  destruct (match heap_peek pair_cmp results with Some (worst, _) => _ | None => false end) eqn:Est.
  { exists results. split; [done|]. destruct (heap_peek pair_cmp results) as [[worst ?]|]; [|done].
    apply andb_prop in Est as [_ Hlen%Nat.leb_le]. intros i Hi. apply (nodup_all _ n); [done| | |].
    - intros j Hj. apply Hv. by apply Hs.
    - rewrite length_fmap. lia.
    - apply reached_bounded; [by apply Hv|done]. }
  destruct (lookup_lt_is_Some_2 (nodes ix) c_idx Hci) as [x Hx]. unfold get_layer_neighbours. rewrite Hx. cbn [index mbind res_bind].
  destruct (visits_full [c_idx] (default [] (neighbours x !! layer)) (visited, cands', results)) as (b' & E & Hb' & Hsub & Hnb & Hm').
  - split; cbn; [by split|done| |done]. intros i j Hi Hij. destruct (Hc i j Hi Hij) as [?%not_elem_of_nil|[?|Hw]]; [done|by right; left|].
    rewrite Ep in Hw. cbn in Hw. apply elem_of_cons in Hw as [->|?]; [left; left|by right; right].
  - intros j Hj. destruct (neighbours x !! layer) as [ns|] eqn:El; [|by apply not_elem_of_nil in Hj]. by eapply Hlinks.
  - change (@Ok bytes (gset nat * list (f32 * nat) * list (f32 * nat)) (visited, cands', results)) with (@Ok bytes Beam (visited, cands', results)).
    rewrite E. cbn [mbind res_bind]. apply IH; [|unfold beam_measure in *; cbn [fst snd] in *; lia].
    destruct Hb' as [I' A' C' E']. split; [done..| |done]. intros i j Hi Hij. destruct (C' i j Hi Hij) as [->%list_elem_of_singleton|?]; [|by right].
    right; left. apply Hnb. destruct Hij as (nd & ns & Hnd' & Hns & Hj). rewrite Hx in Hnd'. injection Hnd' as <-. by rewrite Hns.
Qed.

(** Such a beam finds every node the layer's links reach. *)
Lemma search_layer_full : (ep < n)%nat ->
  exists out, search_layer ix dist ep ef layer = Ok out /\ forall i, rtc (linked ix layer) ep i -> i ∈ out.*2.
Proof.
  intros Hep. unfold search_layer. rewrite (Hdist ep Hep). cbn [mbind res_bind]. fold n.
  pose proof (push_perm rev_cmp (distf ep, ep) []) as Pc. pose proof (push_perm pair_cmp (distf ep, ep) []) as Pr.
  destruct (beam_loop_full (S n) ({[ep]}, heap_push rev_cmp (distf ep, ep) [], heap_push pair_cmp (distf ep, ep) []))
    as (out & -> & Ho).
  - split; cbn.
    + by apply start_inv.
    + intros i ->%elem_of_singleton. rewrite Pr. left.
    + intros i j ->%elem_of_singleton _. right; right. rewrite Pc. left.
    + by apply elem_of_singleton.
  - unfold beam_measure. cbn. rewrite Pc, size_singleton. cbn. lia.
  - cbn [mbind res_bind]. exists (sort_by by_dist out). destruct (sort_by_sorts by_dist out) as [Hp _]. split; [done|].
    intros i Hi. rewrite Hp. by apply Ho.
Qed.
End complete.

(** ** Queries *)
Definition vdist (ix : HnswIndex) (q : list f32) (i : nat) : f32 := match vec_dist ix i q with Ok d => d | _ => f32_zero end.

Lemma vec_dist_ok ix q i : (i < length (nodes ix))%nat -> vec_dist ix i q = Ok (vdist ix q i).
Proof. intros Hi. unfold vdist, vec_dist. by destruct (lookup_lt_is_Some_2 _ _ Hi) as [x ->]. Qed.

Definition key_at (ix : HnswIndex) (i : nat) : bytes := match nodes ix !! i with Some nd => key nd | None => [] end.

(** The answer that lists the nodes [out], for the normalised query [q]. *)
Definition answer (ix : HnswIndex) (q : list f32) (out : list nat) : list SearchResult :=
  imap (fun r i => mkResult (key_at ix i) (vdist ix q i) r) out.

Definition no_nan (ix : HnswIndex) (q : list f32) : Prop :=
  forall i, (i < length (nodes ix))%nat -> is_nan (vdist ix q i) = false.

Lemma by_dist_total (l : list (f32 * nat)) : (forall c, c ∈ l -> is_nan c.1 = false) -> total_preorder_on by_dist l.
Proof.
  intros Hn. assert (forall x y, x ∈ l -> y ∈ l -> by_dist x y = lex3 (f_key x.1) (f_key y.1)) as Hk.
  { intros x y Hx Hy. unfold by_dist, ord_cmp. by rewrite (f_partial_cmp_key x.1 y.1) by auto. }
  split.
  - intros x y Hx Hy. rewrite !Hk by done. apply lex3_antisym.
  - intros x y z Hx Hy Hz. rewrite !Hk by done. rewrite !lex3_le. lia.
Qed.

Section query.
Context `{HL : HeapLaws}.
Implicit Types (ix : HnswIndex).

(** [out] lists nodes of the index by increasing distance. *)
Definition closest_first ix (q : list f32) (out : list nat) : Prop :=
  forall a b i j, (a < b)%nat -> out !! a = Some i -> out !! b = Some j -> ord_cmp (vdist ix q i) (vdist ix q j) <> Gt.

Lemma links_bounded ix : hnsw_wf ix -> forall i nd l ns, nodes ix !! i = Some nd -> neighbours nd !! l = Some ns ->
  forall j, j ∈ ns -> (j < length (nodes ix))%nat.
Proof. intros Hwf i nd l ns Hi Hl. apply (w_links ix Hwf i nd l ns Hi Hl). Qed.

Lemma search_vec_ok ix q ep ef lyr : hnsw_wf ix -> (ep < length (nodes ix))%nat ->
  exists out, search_layer_vec ix q ep ef lyr = Ok out /\ Forall (entry_ok ix (vdist ix q)) out /\ NoDup out.*2 /\
    (1 <= length out)%nat.
Proof.
  intros Hwf Hep. destruct (search_layer_ok ix) with (dist := fun node => vec_dist ix node q) (distf := vdist ix q) (ep := ep) (ef := ef) (layer := lyr)
    as (out & E & Ho & Hnd & Hl & _).
  - by apply links_bounded.
  - intros i Hi. by apply vec_dist_ok.
  - done.
  - exists out. split_and!; [done..|lia].
Qed.

Lemma descend_vec_ok ix q lyrs : hnsw_wf ix -> forall ep, (ep < length (nodes ix))%nat ->
  exists ep', foldl (descend_vec ix q) (Ok ep) lyrs = Ok ep' /\ (ep' < length (nodes ix))%nat.
Proof.
  intros Hwf. induction lyrs as [|lyr lyrs IH]; intros ep Hep; [by exists ep|]. cbn [foldl]. unfold descend_vec at 2. cbn [mbind res_bind].
  destruct (search_vec_ok ix q ep 1 lyr Hwf Hep) as (out & -> & Ho & _ & Hl). cbn [mbind res_bind].
  apply IH. by eapply head_or_ok.
Qed.

(** The results of a list of entries. *)
Lemma results_ok ix q (cs : list (f32 * nat)) : Forall (entry_ok ix (vdist ix q)) cs ->
  mapM (fun p => to_result ix p.1 p.2) (imap (fun i c => (i, c)) cs) = Ok (answer ix q cs.*2).
Proof.
  intros Hc. rewrite (mapM_ok _ (fun p : nat * (f32 * nat) => mkResult (key_at ix p.2.2) (vdist ix q p.2.2) p.1)).
  - f_equal. unfold answer. by rewrite fmap_imap, imap_fmap.
  - intros p (r & c & -> & Hr)%elem_of_lookup_imap_1. rewrite Forall_forall in Hc.
    destruct (Hc c) as [Hlt He]; [by eapply list_elem_of_lookup_2|]. unfold to_result, key_at. cbn [fst snd].
    destruct (lookup_lt_is_Some_2 _ _ Hlt) as [x ->]. cbn. by rewrite He.
Qed.

(** The entries a query keeps. *)
Lemma search_entries ix query k ef q : hnsw_wf ix -> nodes ix <> [] -> k <> 0%nat -> length query = dim ix ->
  normalize query = Some q ->
  exists ep cs, (ep < length (nodes ix))%nat /\ search_layer_vec ix q ep (Nat.max ef k) 0 = Ok cs /\
    Forall (entry_ok ix (vdist ix q)) cs /\ NoDup cs.*2 /\ (1 <= length cs)%nat /\
    search_with_ef ix query k ef = Ok (answer ix q (take k (sort_by by_dist cs)).*2).
Proof.
  intros Hwf Hne Hk Hd Hn. unfold search_with_ef, is_empty. destruct (nodes ix) as [|n0 ns] eqn:En; [done|]. rewrite <- En in *.
  rewrite (proj2 (Nat.eqb_neq k 0)), Hd, Nat.eqb_refl, Hn by done. cbn [orb negb].
  pose proof (w_entry ix Hwf) as We. destruct (entry_point ix) as [ep|]; [|done]. cbn [index mbind res_bind].
  destruct (descend_vec_ok ix q (rev (seq 1 (entry_level ix))) Hwf ep We) as (ep' & -> & Hep'). cbn [mbind res_bind].
  destruct (search_vec_ok ix q ep' (Nat.max ef k) 0 Hwf Hep') as (cs & E & Hc & Hnd & Hl). rewrite E. cbn [mbind res_bind].
  exists ep', cs. split_and!; try done. apply results_ok. apply Forall_take. by rewrite (proj1 (sort_by_sorts by_dist cs)).
Qed.

Lemma entries_sorted ix q cs : Forall (entry_ok ix (vdist ix q)) cs -> no_nan ix q ->
  closest_first ix q (sort_by by_dist cs).*2.
Proof.
  intros Hc Hn. destruct (sort_by_sorts by_dist cs) as [Hp Hs]. rewrite Forall_forall in Hc.
  assert (in_order by_dist (sort_by by_dist cs)) as Ho.
  { apply Hs, by_dist_total. intros c Hin. destruct (Hc c Hin) as [Hlt ->]. by apply Hn. }
  intros a b i j Hab Hi Hj. rewrite list_lookup_fmap in Hi, Hj.
  apply fmap_Some in Hi as ([di ii] & Hi & ->), Hj as ([dj jj] & Hj & ->). cbn [snd].
  pose proof (in_order_lookup _ _ _ _ _ _ Ho Hab Hi Hj) as H'. unfold by_dist in H'. cbn [fst] in H'.
  assert (di = vdist ix q ii) as Edi by (apply (Hc (di, ii)); rewrite <- Hp; by eapply list_elem_of_lookup_2).
  assert (dj = vdist ix q jj) as Edj by (apply (Hc (dj, jj)); rewrite <- Hp; by eapply list_elem_of_lookup_2). by rewrite <- Edi, <- Edj.
Qed.

Lemma closest_first_take ix q k out : closest_first ix q out -> closest_first ix q (take k out).
Proof.
  intros H' a b i j Hab Hi Hj. apply lookup_take_Some in Hi as [Hi _], Hj as [Hj _]. by apply (H' a b).
Qed.

(** A query answers nothing when there is nothing to compare with. *)
Definition usable ix (query : list f32) (k : nat) : option (list f32) :=
  if is_empty ix || (k =? 0)%nat || negb (length query =? dim ix)%nat then None else normalize query.

Lemma usable_inv ix query k q : usable ix query k = Some q ->
  nodes ix <> [] /\ k <> 0%nat /\ length query = dim ix /\ normalize query = Some q.
Proof.
  unfold usable, is_empty. destruct (nodes ix); [done|]. destruct (Nat.eqb_spec k 0), (Nat.eqb_spec (length query) (dim ix)); done.
Qed.

Lemma search_unusable ix query k ef : usable ix query k = None -> search_with_ef ix query k ef = Ok [].
Proof. unfold usable, search_with_ef. destruct (_ || _); [done|]. by intros ->. Qed.

(** The keys a query answers, at most as many as it was asked for, are those of vectors of the index. *)
Lemma search_keys ix query k ef : hnsw_wf ix ->
  exists rs, search_with_ef ix query k ef = Ok rs /\ (length rs <= k)%nat /\ forall r, r ∈ rs -> exists v, (res_key r, v) ∈ contents ix.
Proof.
  intros Hwf. destruct (usable ix query k) as [q|] eqn:Eu.
  2: { rewrite search_unusable by done. exists []. split; [done|]. split; [cbn; lia|]. intros r Hr. by apply not_elem_of_nil in Hr. }
  destruct (usable_inv _ _ _ _ Eu) as (Hne & Hk & Hd & Hn).
  destruct (search_entries ix query k ef q Hwf Hne Hk Hd Hn) as (ep & cs & Hep & _ & Hc & _ & _ & ->).
  eexists. split; [done|]. split; [unfold answer; rewrite length_imap, length_fmap, length_take; lia|]. intros r (i & j & -> & Hj)%elem_of_lookup_imap. cbn.
  apply list_elem_of_lookup_2 in Hj. rewrite fmap_take in Hj. apply elem_of_take_sub in Hj.
  rewrite (proj1 (sort_by_sorts by_dist cs)) in Hj. apply list_elem_of_fmap in Hj as (c & -> & Hj).
  rewrite Forall_forall in Hc. destruct (Hc c Hj) as [Hlt _]. destruct (lookup_lt_is_Some_2 _ _ Hlt) as [nd Hnd].
  exists (vector nd). unfold key_at. rewrite Hnd. apply list_elem_of_fmap. exists nd. split; [done|]. by eapply list_elem_of_lookup_2.
Qed.

(** C29: a query of a well-formed index (what insertions build, [hnsw_build_exact]; a loaded file
    without an entry point is not: [HnswIo.loaded_without_entry]) never panics. Without a usable
    query (an empty index, k of zero, a vector of another dimension or that cannot be normalised) it
    answers nothing; otherwise it answers between one and k distinct vectors, each with its key, its
    exact distance to the normalised query and its rank, and closest first when no distance is a
    NaN. *)
Theorem hnsw_search_exact ix query k ef : hnsw_wf ix ->
  match usable ix query k with
  | None => search_with_ef ix query k ef = Ok []
  | Some q => exists out, search_with_ef ix query k ef = Ok (answer ix q out) /\ NoDup out /\
      (forall i, i ∈ out -> (i < length (nodes ix))%nat) /\ (1 <= length out <= k)%nat /\
      (no_nan ix q -> closest_first ix q out)
  end.
Proof.
  intros Hwf. destruct (usable ix query k) as [q|] eqn:Eu; [|by apply search_unusable].
  destruct (usable_inv _ _ _ _ Eu) as (Hne & Hk & Hd & Hn).
  destruct (search_entries ix query k ef q Hwf Hne Hk Hd Hn) as (ep & cs & Hep & _ & Hc & Hnd & Hl & ->).
  pose proof (proj1 (sort_by_sorts by_dist cs)) as Hp.
  eexists. split; [done|]. rewrite fmap_take. split_and!.
  - eapply sublist_NoDup; [|apply sublist_take]. by rewrite Hp.
  - intros i Hi%elem_of_take_sub. rewrite Hp in Hi. apply list_elem_of_fmap in Hi as (c & -> & Hi).
    rewrite Forall_forall in Hc. by apply Hc.
  - rewrite length_take, length_fmap, Hp. lia.
  - rewrite length_take. lia.
  - intros Hnan. by apply closest_first_take, entries_sorted.
Qed.

(** when the beam can hold every vector ([max(ef, k)] is at least the number of
    vectors) and the links of the bottom layer connect them, a query is exact: it
    answers [k] vectors, or all of them, and no vector it leaves out is closer. *)
Theorem hnsw_exhaustive ix query k ef q : hnsw_wf ix -> usable ix query k = Some q -> no_nan ix q ->
  (length (nodes ix) <= Nat.max ef k)%nat ->
  (forall i j, (i < length (nodes ix))%nat -> (j < length (nodes ix))%nat -> rtc (linked ix 0) i j) ->
  exists out, search_with_ef ix query k ef = Ok (answer ix q out) /\ length out = Nat.min k (length (nodes ix)) /\
    forall i j, i ∈ out -> (j < length (nodes ix))%nat -> j ∉ out -> ord_cmp (vdist ix q i) (vdist ix q j) <> Gt.
Proof.
  intros Hwf Eu Hnan Hbig Hconn. destruct (usable_inv _ _ _ _ Eu) as (Hne & Hk & Hd & Hn).
  destruct (search_entries ix query k ef q Hwf Hne Hk Hd Hn) as (ep & cs & Hep & Es & Hc & Hnd & Hl & ->).
  destruct (search_layer_full ix 0 (links_bounded ix Hwf) (fun node => vec_dist ix node q) (vdist ix q)
    ltac:(intros; by apply vec_dist_ok) ep (Nat.max ef k) Hbig Hep) as (cs' & Es' & Hall).
  unfold search_layer_vec in Es. rewrite Es in Es'. injection Es' as <-.
  assert (forall i, i ∈ cs.*2 -> (i < length (nodes ix))%nat) as Hin.
  { intros i (c & -> & Hi)%list_elem_of_fmap. rewrite Forall_forall in Hc. by apply Hc. }
  pose proof (proj1 (sort_by_sorts by_dist cs)) as Hp. set (all := (sort_by by_dist cs).*2).
  assert (all ≡ₚ seq 0 (length (nodes ix))) as Hperm.
  { unfold all. rewrite Hp. apply NoDup_Permutation; [done|apply NoDup_seq|]. intros i. rewrite elem_of_seq.
    split; [intros Hi; specialize (Hin i Hi); lia|]. intros [_ Hi]. apply Hall. by apply Hconn. }
  eexists. split; [done|]. rewrite fmap_take. fold all. split.
  - rewrite length_take, Hperm, length_seq. done.
  - intros i j Hi Hj Hnj. apply list_elem_of_lookup in Hi as [a Ha]. apply lookup_take_Some in Ha as [Ha Hak].
    assert (j ∈ all) as [b Hb]%list_elem_of_lookup by (rewrite Hperm; apply elem_of_seq; lia).
    assert (k <= b)%nat as Hkb.
    { destruct (decide (k <= b)%nat); [done|]. destruct Hnj. apply list_elem_of_lookup. exists b. apply lookup_take_Some. split; [done|lia]. }
    apply (entries_sorted ix q cs Hc Hnan a b i j); [lia|done..].
Qed.
End query.

(** ** The index as it is built *)
Lemma hnsw_new_wf d mm efb efs ix : new d mm efb efs = Ok ix -> hnsw_wf ix /\ contents ix = [].
Proof.
  unfold new. destruct (Nat.eqb_spec d 0); [done|]. destruct (Nat.ltb_spec mm 2); [done|]. injection 1 as <-.
  split; [|done]. split; cbn; try (done || lia).
Qed.

Section build.
Context `{HL : HeapLaws}.
Variables (ln exp : f64 -> f64).

(** An insertion into a well-formed index never panics: it reports a vector of the
    wrong dimension or without a norm, and otherwise appends the normalised vector. *)
Lemma add_cases ix key v : hnsw_wf ix ->
  match add ln exp ix key v with
  | Ok ix' => length v = dim ix /\ exists v', normalize v = Some v' /\ added ln exp ix key v' ix'
  | Err e => (length v <> dim ix /\
               e = str "dimension mismatch: index has dim=" ++ dec (Z.of_nat (dim ix)) ++ str ", got dim=" ++ dec (Z.of_nat (length v))) \/
             (length v = dim ix /\ normalize v = None /\ e = str "vector has zero norm and cannot be normalized")
  | Panic => False
  end.
Proof.
  intros Hwf. destruct (Nat.eqb_spec (length v) (dim ix)) as [Hd|Hd].
  2: { unfold add. rewrite (proj2 (Nat.eqb_neq _ _) Hd). by left. }
  destruct (normalize v) as [v'|] eqn:En.
  - destruct (add_ok ln exp ix key v v' Hwf Hd En) as (ix' & -> & Ha). split; [done|]. by exists v'.
  - unfold add. rewrite Hd, Nat.eqb_refl, En. by right.
Qed.

(** A sequence of insertions, stopped by the first error. *)
Definition build (ix : HnswIndex) (vs : list (bytes * list f32)) : res bytes HnswIndex :=
  foldl (fun acc kv => ix ← acc; add ln exp ix kv.1 kv.2) (Ok ix) vs.

Lemma build_failed e vs :
  foldl (fun acc kv => ix ← acc; add ln exp ix kv.1 kv.2) (Err e) vs = (Err e : res bytes HnswIndex).
Proof. induction vs as [|kv vs IH]; [done|]. cbn [foldl mbind res_bind]. exact IH. Qed.

(** The entries an index keeps of the vectors given to it, when all are usable. *)
Definition kept (vs : list (bytes * list f32)) : option (list (bytes * list f32)) :=
  mapM (fun kv => v' ← normalize kv.2; Some (kv.1, v')) vs.

Lemma build_ok vs : forall ix, hnsw_wf ix ->
  match build ix vs with
  | Ok ix' => hnsw_wf ix' /\ dim ix' = dim ix /\ Forall (fun kv => length kv.2 = dim ix) vs /\
              exists new, kept vs = Some new /\ contents ix' = contents ix ++ new
  | Err _ => exists kv, kv ∈ vs /\ (length kv.2 <> dim ix \/ normalize kv.2 = None)
  | Panic => False
  end.
Proof.
  unfold build. induction vs as [|[key v] vs IH]; intros ix Hwf.
  { cbn. split_and!; [done..|]. exists []. by rewrite app_nil_r. }
  cbn [foldl mbind res_bind fst snd]. pose proof (add_cases ix key v Hwf) as Hc.
  destruct (add ln exp ix key v) as [ix1|e|]; [| |done].
  2: { rewrite build_failed. exists (key, v). split; [left|]. cbn. tauto. }
  destruct Hc as (Hd & v' & Hn & Hwf1 & Hcon & Hd1 & _). specialize (IH ix1 Hwf1).
  destruct (foldl _ (Ok ix1) vs) as [ix'|e|]; [| |done].
  - destruct IH as (Hwf' & Hd' & Hall & new & Hk & Hnew). rewrite Hd1 in Hd', Hall. split_and!; [done..|by constructor|].
    exists ((key, v') :: new). split; [|by rewrite Hnew, Hcon, <- app_assoc].
    unfold kept in *. cbn [mapM mbind option_bind fst snd]. rewrite Hn. cbn [mbind option_bind]. by rewrite Hk.
  - destruct IH as (kv & Hin & Hbad). exists kv. rewrite <- Hd1. split; [by right|done].
Qed.

(** C30: an index created by [new] and filled by any sequence of insertions never
    panics. When every vector has the dimension of the index and a norm, the result is
    a well-formed index (links between distinct existing nodes, within the caps of their
    layers; at most 17 layers; a valid entry point) whose contents are exactly the keys with the
    normalised vectors, in insertion order; otherwise some vector was refused. *)
Theorem hnsw_build_exact d mm efb efs ix vs : new d mm efb efs = Ok ix ->
  match build ix vs with
  | Ok ix' => hnsw_wf ix' /\ dim ix' = d /\ Forall (fun kv => length kv.2 = d) vs /\ kept vs = Some (contents ix')
  | Err _ => exists kv, kv ∈ vs /\ (length kv.2 <> d \/ normalize kv.2 = None)
  | Panic => False
  end.
Proof.
  intros Hnew. destruct (hnsw_new_wf _ _ _ _ _ Hnew) as [Hwf Hc].
  assert (dim ix = d) as <- by (unfold new in Hnew; by repeat case_match; simplify_eq).
  pose proof (build_ok vs ix Hwf) as Hb. destruct (build ix vs) as [ix'| |]; [|done..].
  destruct Hb as (? & ? & ? & new' & -> & Hc'). split_and!; [done..|]. by rewrite Hc', Hc.
Qed.
End build.

(** ** A heap kept as a list *)
Fixpoint list_pop (cmp : f32 * nat -> f32 * nat -> comparison) (h : list (f32 * nat)) : option (f32 * nat * list (f32 * nat)) :=
  match h with
  | [] => None
  | x :: r => match list_pop cmp r with
              | None => Some (x, [])
              | Some (y, r') => match cmp y x with Gt => Some (y, x :: r') | _ => Some (x, y :: r') end
              end
  end.

#[export] Instance list_heap : HeapOps := { heap_push _ x h := x :: h; heap_pop := list_pop }.

Lemma list_pop_none cmp h : list_pop cmp h = None <-> h = [].
Proof. destruct h as [|x r]; [done|]. cbn. destruct (list_pop cmp r) as [[y r']|]; [|done]. by destruct (cmp y x). Qed.

Lemma list_pop_perm cmp h : forall x h', list_pop cmp h = Some (x, h') -> h ≡ₚ x :: h'.
Proof.
  induction h as [|z r IH]; intros x h' E; [done|]. cbn in E. destruct (list_pop cmp r) as [[y r']|] eqn:Er.
  - rewrite (IH y r' eq_refl). destruct (cmp y z); injection E as <- <-; (done || apply Permutation_swap).
  - injection E as <- <-. by apply list_pop_none in Er as ->.
Qed.

Lemma list_pop_max cmp h : forall x h', list_pop cmp h = Some (x, h') -> total_preorder_on cmp h -> forall y, y ∈ h -> cmp y x <> Gt.
Proof.
  induction h as [|z r IH]; intros x h' E Ht w Hw; [done|]. cbn in E.
  assert (total_preorder_on cmp r) as Hr by (eapply total_preorder_sub; [|exact Ht]; by right).
  assert (forall u, u ∈ z :: r -> cmp u u <> Gt) as Hrefl.
  { intros u Hu Hg. destruct Ht as [Ha _]. specialize (Ha u u Hu Hu). by rewrite Hg in Ha. }
  destruct (list_pop cmp r) as [[y r']|] eqn:Er.
  2: { injection E as <- <-. apply list_pop_none in Er as ->. apply list_elem_of_singleton in Hw as ->. apply Hrefl. left. }
  assert (y ∈ z :: r) as Hy by (right; rewrite (list_pop_perm cmp r y r' Er); left). assert (z ∈ z :: r) as Hz by left.
  destruct Ht as [Ha Htr]. destruct (cmp y z) eqn:Eyz.
  all: injection E as <- <-; apply elem_of_cons in Hw as [->|Hw]; [try (apply Hrefl; left)|].
  all: try (rewrite (Ha y z), Eyz by done; done).
  all: try (apply (IH y r' eq_refl Hr w Hw)).
  all: apply (Htr w y z); [by right|done|done|apply (IH y r' eq_refl Hr w Hw)|by rewrite Eyz].
Qed.

#[export] Instance list_heap_laws : HeapLaws.
Proof. split; cbn; [done|apply list_pop_none|apply list_pop_perm|apply list_pop_max]. Qed.

(** ** Examples *)
Definition vec3 (a b c : Z) : list f32 := f32_of_Z <$> [a; b; c].
Definition ex_vectors : list (bytes * list f32) :=
  [(str "x", vec3 2 0 0); (str "y", vec3 0 1 0); (str "z", vec3 0 0 3)].
Definition ex_exp : f64 -> f64 := fun _ => f64_lit 1 2.
Definition ex_empty : HnswIndex := mkHnsw 3 2 4 10 10 [] None 0 (rng_new 42).
Definition ex_index : HnswIndex :=
  Eval vm_compute in match build id ex_exp ex_empty ex_vectors with Ok ix => ix | _ => ex_empty end.

Example ex_search : (res_key <$> match search ex_index (vec3 1 5 2) 2 with Ok l => l | _ => [] end) = [str "y"; str "z"].
Proof. vm_compute. reflexivity. Qed.
Example ex_bad_dim : build id ex_exp ex_empty [(str "x", f32_of_Z <$> [1; 2]%Z)]
  = Err (str "dimension mismatch: index has dim=3, got dim=2").
Proof. vm_compute. reflexivity. Qed.

Lemma ex_wf : hnsw_wf ex_index.
Proof.
  pose proof (build_ok id ex_exp ex_vectors ex_empty (proj1 (hnsw_new_wf 3 2 10 10 ex_empty eq_refl))) as Hb.
  assert (build id ex_exp ex_empty ex_vectors = Ok ex_index) as E by (vm_compute; reflexivity). rewrite E in Hb. apply Hb.
Qed.

Lemma ex_linked i j : (i < 3)%nat -> (j < 3)%nat -> rtc (linked ex_index 0) i j.
Proof.
  intros Hi Hj. destruct (decide (i = j)) as [->|Hne]; [apply rtc_refl|]. apply rtc_once.
  destruct i as [|[|[|]]]; try lia; (eexists _, _; split; [reflexivity|]; split; [reflexivity|]);
    destruct j as [|[|[|]]]; try lia; (left || (right; left)).
Qed.

Lemma hnsw_build_exact_witness :
  new 3 2 10 10 = Ok ex_empty /\ kept ex_vectors = Some (contents ex_index).
Proof.
  split; [reflexivity|]. pose proof (hnsw_build_exact id ex_exp 3 2 10 10 ex_empty ex_vectors eq_refl) as Hb.
  assert (build id ex_exp ex_empty ex_vectors = Ok ex_index) as E by (vm_compute; reflexivity). rewrite E in Hb. apply Hb.
Defined.

Definition ex_query : list f32 := Eval vm_compute in default [] (normalize (vec3 1 5 2)).

Lemma hnsw_search_exact_witness : hnsw_wf ex_index /\ exists out,
  search ex_index (vec3 1 5 2) 2 = Ok (answer ex_index ex_query out) /\ (1 <= length out <= 2)%nat.
Proof.
  split; [exact ex_wf|]. pose proof (hnsw_search_exact ex_index (vec3 1 5 2) 2 10 ex_wf) as Hs.
  assert (usable ex_index (vec3 1 5 2) 2 = Some ex_query) as E by (vm_compute; reflexivity). rewrite E in Hs.
  destruct Hs as (out & Hs & _ & _ & Hl & _). exists out. split; [exact Hs|exact Hl].
Defined.

Lemma hnsw_exhaustive_witness : exists out,
  search ex_index (vec3 1 5 2) 2 = Ok (answer ex_index ex_query out) /\ length out = 2%nat.
Proof.
  destruct (hnsw_exhaustive ex_index (vec3 1 5 2) 2 10 ex_query ex_wf) as (out & Hs & Hl & _).
  - vm_compute. reflexivity.
  - intros i Hi. destruct i as [|[|[|i]]]; [vm_compute; reflexivity..|cbn in Hi; lia].
  - cbn. lia.
  - intros i j Hi Hj. by apply ex_linked.
  - exists out. split; [exact Hs|exact Hl].
Defined.
