(* ===== verification/HnswIo.v ===== *)
(** * The file format of the vector index ([src/index/hnsw.rs], [serialize] and [deserialize])

    The position of the reader is the suffix still to be read. The generator's state
    is not written: a loaded index draws its levels from the initial seed again. *)

From S2P Require Import Prelude Text Float Hnsw HnswSpec.
Local Open Scope Z_scope.

Definition be32 (n : nat) : bytes := be_bytes 4 (Z.of_nat n).

(** ** Writing *)
Definition encode_layer (layer : list nat) : bytes := be32 (length layer) ++ mjoin (be32 <$> layer).
Definition encode_f32 (x : f32) : bytes := be_bytes 4 (f32_to_bits x).

Definition encode_node (nd : Node) : bytes :=
  be32 (length (key nd)) ++ key nd ++ mjoin (encode_f32 <$> vector nd) ++
  [z2b (Z.of_nat (length (neighbours nd)))] ++ mjoin (encode_layer <$> neighbours nd).

Definition serialize (ix : HnswIndex) : bytes :=
  str "HNSW" ++ be32 (dim ix) ++ be32 (m ix) ++ be32 (ef_build ix) ++ be32 (ef_search ix) ++
  be32 (length (nodes ix)) ++ mjoin (encode_node <$> nodes ix) ++
  (match entry_point ix with Some ep => [z2b 1] ++ be32 ep | None => [z2b 0] end) ++
  be32 (entry_level ix).

(** ** Reading *)
Definition read_u8 (data : bytes) : res bytes (Z * bytes) :=
  match data with [] => Err (str "unexpected EOF reading u8") | b :: rest => Ok (b2z b, rest) end.

Definition read_usize (data : bytes) : res bytes (nat * bytes) :=
  '(z, rest) ← read_u32 data; Ok (Z.to_nat z, rest).

(** A counted loop of reads. *)
Fixpoint read_n {A} (rd : bytes -> res bytes (A * bytes)) (n : nat) (data : bytes) : res bytes (list A * bytes) :=
  match n with
  | O => Ok ([], data)
  | S n' => '(x, d1) ← rd data; '(xs, d2) ← read_n rd n' d1; Ok (x :: xs, d2)
  end.

(** The components of a vector, once their bytes are known to be there. *)
Fixpoint read_f32s (n : nat) (data : bytes) : list f32 :=
  match n with O => [] | S n' => f32_of_bits (be_val (take 4 data)) :: read_f32s n' (drop 4 data) end.

Definition read_layer (data : bytes) : res bytes (list nat * bytes) :=
  '(n_nb, d1) ← read_usize data; read_n read_usize n_nb d1.

Definition read_node (dim : nat) (data : bytes) : res bytes (Node * bytes) :=
  '(key_len, d1) ← read_usize data;
  if (length d1 <? key_len)%nat then Err (str "unexpected EOF reading key")
  else
    let key := take key_len d1 in
    let d2 := drop key_len d1 in
    if (length d2 <? dim * 4)%nat then Err (str "unexpected EOF reading vector")
    else
      '(n_layers, d4) ← read_u8 (drop (dim * 4) d2);
      '(neighbours, d5) ← read_n read_layer (Z.to_nat n_layers) d4;
      Ok (mkNode (read_f32s dim d2) key neighbours, d5).

Definition deserialize (data : bytes) : res bytes HnswIndex :=
  if (length data <? 4)%nat || negb (bool_decide (take 4 data = str "HNSW")) then Err (str "bad HNSW magic")
  else
    '(dim, d1) ← read_usize (drop 4 data);
    '(m, d2) ← read_usize d1;
    '(ef_build, d3) ← read_usize d2;
    '(ef_search, d4) ← read_usize d3;
    '(n_nodes, d5) ← read_usize d4;
    '(nodes, d6) ← read_n (read_node dim) n_nodes d5;
    '(has_ep, d7) ← read_u8 d6;
    '(entry_point, d8) ← (if has_ep =? 1 then '(ep, d) ← read_usize d7; Ok (Some ep, d) else Ok (None, d7));
    '(entry_level, _) ← read_usize d8;
    Ok (mkHnsw dim m (m * 2) ef_build ef_search nodes entry_point entry_level (rng_new 42)).

(** ** Round trip *)
Definition fits (n : nat) : Prop := Z.of_nat n < 2 ^ 32.

(** Every count fits its four bytes, and the components are numbers of binary32. *)
Record hnsw_fits (ix : HnswIndex) : Prop := {
  fit_params : fits (dim ix) /\ fits (m ix) /\ fits (ef_build ix) /\ fits (ef_search ix);
  fit_nodes : fits (length (nodes ix));
  fit_caps : fits (m0 ix);
  fit_vectors : Forall (fun nd => fits (length (key nd)) /\ Forall (fun x => valid_binary 24 128 x = true) (vector nd)) (nodes ix)
}.

Lemma read_usize_be32 n rest : fits n -> read_usize (be32 n ++ rest) = Ok (n, rest).
Proof. intros Hn. unfold read_usize, be32. unfold fits in Hn. rewrite read_u32_be by lia. cbn [mbind res_bind]. by rewrite Nat2Z.id. Qed.

Lemma read_n_ok {A} (rd : bytes -> res bytes (A * bytes)) (enc : A -> bytes) l :
  (forall x rest, x ∈ l -> rd (enc x ++ rest) = Ok (x, rest)) ->
  forall rest, read_n rd (length l) (mjoin (enc <$> l) ++ rest) = Ok (l, rest).
Proof.
  induction l as [|x l IH]; intros Hrd rest; [done|]. cbn [length read_n]. rewrite fmap_cons, mjoin_cons, <- app_assoc.
  rewrite Hrd by left. cbn [mbind res_bind]. rewrite IH; [done|]. intros y r Hy. apply Hrd. by right.
Qed.

Lemma read_layer_ok layer rest : fits (length layer) -> Forall fits layer -> read_layer (encode_layer layer ++ rest) = Ok (layer, rest).
Proof.
  intros Hl Hf. unfold read_layer, encode_layer. rewrite <- app_assoc, read_usize_be32 by done. cbn [mbind res_bind].
  apply read_n_ok. intros n r Hn. rewrite Forall_forall in Hf. by apply read_usize_be32, Hf.
Qed.

Lemma read_f32s_ok v rest : Forall (fun x => valid_binary 24 128 x = true) v ->
  read_f32s (length v) (mjoin (encode_f32 <$> v) ++ rest) = v.
Proof.
  induction 1 as [|x v Hx Hv IH]; [done|]. cbn [length read_f32s]. rewrite fmap_cons, mjoin_cons, <- app_assoc. unfold encode_f32 at 1 3.
  rewrite take_app_length', drop_app_length' by (by rewrite length_be_bytes). rewrite IH. f_equal.
  rewrite be_val_be_bytes, Z.mod_small; [by apply f32_bits_roundtrip|]. by apply f32_bits_range.
Qed.

Lemma length_encode_f32s v : length (mjoin (encode_f32 <$> v)) = (length v * 4)%nat.
Proof. induction v as [|x v IH]; [done|]. rewrite fmap_cons, mjoin_cons, length_app, IH. unfold encode_f32. rewrite length_be_bytes. cbn. lia. Qed.

Lemma read_node_ok d nd rest : length (vector nd) = d -> fits (length (key nd)) ->
  Forall (fun x => valid_binary 24 128 x = true) (vector nd) -> (length (neighbours nd) <= 17)%nat ->
  Forall (fun l => fits (length l) /\ Forall fits l) (neighbours nd) ->
  read_node d (encode_node nd ++ rest) = Ok (nd, rest).
Proof.
  intros <- Hk Hv Hn Hl. unfold read_node, encode_node. rewrite <- !app_assoc, read_usize_be32 by done. cbn [mbind res_bind].
  rewrite (proj2 (Nat.ltb_ge _ _)) by (rewrite length_app; lia). rewrite take_app_length, drop_app_length.
  rewrite (proj2 (Nat.ltb_ge _ _)) by (rewrite length_app, length_encode_f32s; lia).
  rewrite drop_app_length' by (by rewrite length_encode_f32s). cbn [app read_u8 mbind res_bind].
  rewrite b2z_z2b, Z.mod_small, Nat2Z.id by lia. rewrite (read_n_ok read_layer encode_layer).
  - cbn [mbind res_bind]. rewrite read_f32s_ok by done. by destruct nd.
  - intros l r Hin. rewrite Forall_forall in Hl. destruct (Hl l Hin). by apply read_layer_ok.
Qed.

Lemma links_fit ix : hnsw_wf ix -> hnsw_fits ix ->
  Forall (fun nd => Forall (fun l => fits (length l) /\ Forall fits l) (neighbours nd)) (nodes ix).
Proof.
  intros Hwf Hfit. pose proof (w_params ix Hwf) as (_ & _ & Hm0). destruct (fit_params ix Hfit) as (_ & Hm & _).
  apply Forall_forall. intros nd [i Hi]%list_elem_of_lookup. apply Forall_forall. intros l [r Hr]%list_elem_of_lookup.
  destruct (w_links ix Hwf i nd r l Hi Hr) as [(_ & _ & Hlk) Hcap]. pose proof (fit_nodes ix Hfit). pose proof (fit_caps ix Hfit).
  unfold fits, layer_cap in *. split; [destruct (r =? 0)%nat; lia|]. apply Forall_forall. intros j Hj. specialize (Hlk j Hj). lia.
Qed.

Lemma read_u8_z2b z rest : read_u8 ([z2b z] ++ rest) = Ok (z mod 256, rest).
Proof. cbn [app read_u8]. by rewrite b2z_z2b. Qed.

(** C31: a well-formed index whose counts fit their four bytes and whose vectors are
    binary32 numbers is read back from its bytes exactly: parameters, vectors, keys,
    links, entry point and top layer. Only the level generator starts afresh. *)
Theorem hnsw_roundtrip ix : hnsw_wf ix -> hnsw_fits ix ->
  deserialize (serialize ix) = Ok (set_rng (rng_new 42) ix).
Proof.
  intros Hwf Hfit. destruct (fit_params ix Hfit) as (Hd & Hm & Hb & Hs). pose proof (fit_nodes ix Hfit) as Hn.
  pose proof (links_fit ix Hwf Hfit) as Hlf. pose proof (fit_vectors ix Hfit) as Hv. pose proof (w_nodes ix Hwf) as Hw.
  pose proof (w_level ix Hwf) as Hlv. destruct (w_params ix Hwf) as (_ & _ & Hm0).
  unfold deserialize, serialize.
  assert (forall rest, (length (str "HNSW" ++ rest) <? 4)%nat = false) as -> by done.
  assert (forall rest, take 4 (str "HNSW" ++ rest) = str "HNSW") as -> by done. rewrite bool_decide_true by done. cbn [orb negb].
  assert (forall rest, drop 4 (str "HNSW" ++ rest) = rest) as -> by done.
  do 5 (rewrite read_usize_be32 by done; cbn [mbind res_bind]).
  rewrite (read_n_ok _ encode_node).
  2: { intros nd rest Hin. rewrite Forall_forall in Hlf, Hv, Hw. destruct (Hw nd Hin), (Hv nd Hin). by apply read_node_ok; auto. }
  cbn [mbind res_bind]. assert (fits (entry_level ix)) as Hlf' by (unfold fits; lia). pose proof (w_entry ix Hwf) as We.
  rewrite <- Hm0, <- (app_nil_r (be32 (entry_level ix))). destruct ix as [d mm mm0 eb es ns ep el r]. cbn [dim m m0 ef_build ef_search nodes entry_point entry_level] in *. destruct ep as [ep|].
  - rewrite <- app_assoc, read_u8_z2b. cbn [mbind res_bind]. change (1 mod 256 =? 1) with true. cbv iota.
    rewrite read_usize_be32 by (unfold fits in *; lia). cbn [mbind res_bind]. by rewrite read_usize_be32.
  - rewrite read_u8_z2b. cbn [mbind res_bind]. change (0 mod 256 =? 1) with false. cbv iota. cbn [mbind res_bind].
    by rewrite read_usize_be32.
Qed.

Lemma ex_fits : hnsw_fits ex_index.
Proof.
  split; [by repeat split|done|done|]. apply Forall_forall. intros nd Hin.
  repeat (apply elem_of_cons in Hin as [->|Hin]; [split; [done|]; repeat (constructor; [reflexivity|]); constructor|]).
  by apply not_elem_of_nil in Hin.
Qed.

Lemma hnsw_roundtrip_witness : deserialize (serialize ex_index) = Ok (set_rng (rng_new 42) ex_index).
Proof. apply (hnsw_roundtrip ex_index); [exact ex_wf|exact ex_fits]. Defined.

(** Nothing checks what is read: an index with vectors and no entry point loads, and
    the first query of it panics. *)
Definition headless : HnswIndex := mkHnsw 3 2 4 10 10 (nodes ex_index) None 0 (rng_new 42).

Lemma loaded_without_entry : deserialize (serialize headless) = Ok headless /\ search headless (vec3 1 5 2) 2 = Panic.
Proof. split; vm_compute; reflexivity. Qed.
