(* ===== verification/IndexApi.v ===== *)
(** * The interface between the engine and its query indices

    What [src/engine.rs] calls of [IndexManager]: the engine is verified against
    this class, and the index manager is an instance of it. *)

From S2P Require Import Prelude.

Class IndexOps (I : Type) := {
  (** [IndexManager::new()] *)
  idx_new : I;
  (** loading the persisted vector and graph indices, if their files exist *)
  idx_load : option bytes -> option bytes -> I -> I;
  (** the files [close] writes for the vector and graph indices *)
  idx_save : I -> option bytes * option bytes;
  idx_on_put : I -> bytes -> bytes -> res unit I;
  idx_on_delete : I -> bytes -> res unit I;
  (** indexing one record during log replay: key, key text, value text *)
  idx_replay_put : I -> bytes -> bytes -> bytes -> res unit I
}.

(** The calls of the engine never panic on an index reached through them. *)
Class IndexLaws (I : Type) `{IndexOps I} := {
  idx_wf : I -> Prop;
  idx_new_wf : idx_wf idx_new;
  idx_load_wf h g i : idx_wf i -> idx_wf (idx_load h g i);
  idx_on_put_wf i k v : idx_wf i -> exists i', idx_on_put i k v = Ok i' /\ idx_wf i';
  idx_on_delete_wf i k : idx_wf i -> exists i', idx_on_delete i k = Ok i' /\ idx_wf i';
  idx_replay_put_wf i k ks vs : idx_wf i -> exists i', idx_replay_put i k ks vs = Ok i' /\ idx_wf i'
}.

(** The trivial index, for the engine's witnesses. *)
#[export] Instance unit_index : IndexOps unit := {
  idx_new := tt;
  idx_load _ _ i := i;
  idx_save _ := (None, None);
  idx_on_put i _ _ := Ok i;
  idx_on_delete i _ := Ok i;
  idx_replay_put i _ _ _ := Ok i
}.

#[export] Instance unit_index_laws : IndexLaws unit.
Proof. by exists (fun _ => True); eauto. Defined.
