(* ===== verification/Manager.v ===== *)
(** * The index manager of [src/index/manager.rs]

    The manager owns the keyword, fuzzy, vector and graph indices: it feeds them
    the writes and runs the plan of a query over them. The floating-point
    functions of the platform, the orders in which hash maps are walked and the
    unstable sorts are parameters, with their documented contracts. *)

From S2P Require Import Prelude Ordered Text Float IndexApi.
From S2P Require Bm25 Fuzzy Graph Hnsw HnswSpec HnswIo Planner.
Local Open Scope Z_scope.

(** ** State *)
Record IndexManager := mkManager {
  bm25 : Bm25.Bm25Index;
  fuzzy : Fuzzy.FuzzyMatcher;
  hnsw : option Hnsw.HnswIndex;
  graph : Graph.RelationGraph;
  hnsw_dim : nat
}.

Definition new : IndexManager := mkManager Bm25.new (Fuzzy.new 4) None Graph.new 0.

Definition set_bm25 (b : Bm25.Bm25Index) (g : IndexManager) : IndexManager := mkManager b (fuzzy g) (hnsw g) (graph g) (hnsw_dim g).
Definition set_fuzzy (f : Fuzzy.FuzzyMatcher) (g : IndexManager) : IndexManager := mkManager (bm25 g) f (hnsw g) (graph g) (hnsw_dim g).
Definition set_hnsw (h : Hnsw.HnswIndex) (d : nat) (g : IndexManager) : IndexManager := mkManager (bm25 g) (fuzzy g) (Some h) (graph g) d.
Definition set_graph (r : Graph.RelationGraph) (g : IndexManager) : IndexManager := mkManager (bm25 g) (fuzzy g) (hnsw g) r (hnsw_dim g).

(** A call that returns no error: anything but a value is a panic. *)
Definition infallible {E A} (r : res E A) : res unit A := match r with Ok a => Ok a | _ => Panic end.

(** ** Writes *)
(** The texts are the bytes themselves ([from_utf8_unchecked]). *)
Definition on_put (g : IndexManager) (key value : bytes) : res unit IndexManager :=
  b ← (if Bm25.contains_key (bm25 g) key then Bm25.remove_document (bm25 g) key else Ok (bm25 g));
  Ok (set_fuzzy (Fuzzy.add (fuzzy g) key) (set_bm25 (Bm25.add_document_direct b key key value) g)).

Definition on_delete (g : IndexManager) (key : bytes) : res unit IndexManager :=
  b ← Bm25.remove_document (bm25 g) key; Ok (set_bm25 b g).

(** A record of the log, indexed as the engine opens; empty texts are what is left of
    bytes that are not UTF-8. *)
Definition replay_put (g : IndexManager) (key key_str val_str : bytes) : IndexManager :=
  set_fuzzy (Fuzzy.add (fuzzy g) key_str) (set_bm25 (Bm25.add_document_direct (bm25 g) key key_str val_str) g).

Definition on_add_edge (g : IndexManager) (src dst relation : bytes) : res unit IndexManager :=
  match Graph.from_str relation with
  | Some rel => r ← infallible (Graph.add_edge (graph g) src dst rel); Ok (set_graph r g)
  | None => Ok g
  end.

(** [usize] doubling. *)
Definition double (top_k : nat) : nat := Z.to_nat (u64 (Z.of_nat top_k * 2)).

Section manager.
Context `{Hnsw.HeapOps}.
Variables (ln exp : f64 -> f64).
Variable sort_unstable_by : (nat * f64 -> nat * f64 -> comparison) -> list (nat * f64) -> list (nat * f64).
Variable select_nth_unstable_by : nat -> (nat * f64 -> nat * f64 -> comparison) -> list (nat * f64) -> list (nat * f64).
Variable iter_hits : gmap nat nat -> list (nat * nat).
Variable iter_scores : gmap bytes f64 -> list (bytes * f64).

(** The first vector fixes the dimension; an error of [add] is dropped. *)
Definition on_put_vector (g : IndexManager) (key : bytes) (vector : list f32) : res unit IndexManager :=
  '(h, d) ← match hnsw g with
            | None => h ← infallible (Hnsw.with_defaults (length vector)); Ok (h, length vector)
            | Some h => Ok (h, hnsw_dim g)
            end;
  match Hnsw.add ln exp h key vector with
  | Ok h' => Ok (set_hnsw h' d g)
  | Err _ => Ok (set_hnsw h d g)
  | Panic => Panic
  end.

(** ** Queries *)
Definition hits_of {A} (key : A -> bytes) (score : A -> f64) (results : list A) : list Planner.RankedHit :=
  imap (fun i r => Planner.mkRanked (key r) (score r) i) results.

Definition run_bm25 (g : IndexManager) (spec : Planner.QuerySpec) : res unit (list Planner.RankedHit) :=
  results ← Bm25.search ln sort_unstable_by select_nth_unstable_by (bm25 g) (Planner.text spec) (double (Planner.top_k spec));
  Ok (hits_of Bm25.key Bm25.score results).

Definition run_fuzzy (g : IndexManager) (spec : Planner.QuerySpec) : res unit (list Planner.RankedHit) :=
  results ← Fuzzy.query iter_hits (fuzzy g) (Planner.text spec) (double (Planner.top_k spec));
  Ok (hits_of Fuzzy.symbol Fuzzy.jaccard results).

Definition run_hnsw (g : IndexManager) (spec : Planner.QuerySpec) : res unit (list Planner.RankedHit) :=
  match hnsw g, Planner.vector spec with
  | Some h, _ :: _ =>
      results ← infallible (Hnsw.search h (Planner.vector spec) (double (Planner.top_k spec)));
      Ok (hits_of Hnsw.res_key (fun r => f64_sub (f64_lit 1 1) (f64_of_f32 (Hnsw.distance r))) results)
  | _, _ => Ok []
  end.

Definition relation_filter (spec : Planner.QuerySpec) : option Graph.Relation :=
  match Planner.relations spec with r :: _ => Graph.from_str r | [] => None end.

Definition run_graph (g : IndexManager) (spec : Planner.QuerySpec) : res unit (list Planner.RankedHit * IndexManager) :=
  match Planner.text spec with
  | [] => Ok ([], g)
  | start =>
      '(results, r) ← infallible (Graph.bfs (graph g) start (str "forward") (Planner.max_depth spec) (relation_filter spec));
      Ok (hits_of Graph.key (fun t => f64_div (f64_lit 1 1) (f64_add (f64_lit 1 1) (f64_of_Z (Z.of_nat (Graph.depth t)))))
            (filter (fun t => (0 < Graph.depth t)%nat) results), set_graph r g)
  end.

Definition run_step (spec : Planner.QuerySpec) (acc : res unit (list (list Planner.RankedHit) * IndexManager))
    (step : Planner.QueryStep) : res unit (list (list Planner.RankedHit) * IndexManager) :=
  '(all_lists, g) ← acc;
  '(hits, g') ← match step with
                | Planner.Bm25 => hits ← run_bm25 g spec; Ok (hits, g)
                | Planner.Fuzzy => hits ← run_fuzzy g spec; Ok (hits, g)
                | Planner.Hnsw => hits ← run_hnsw g spec; Ok (hits, g)
                | Planner.Graph => run_graph g spec
                end;
  Ok (match hits with [] => all_lists | _ => all_lists ++ [hits] end, g').

(** The traversal builds the arrays of the graph, so that a query changes the manager. *)
Definition query (g : IndexManager) (spec : Planner.QuerySpec) : res unit (list Planner.RankedHit * IndexManager) :=
  '(all_lists, g') ← foldl (run_step spec) (Ok ([], g)) (Planner.plan spec);
  match all_lists with
  | [] => Ok ([], g')
  | _ => Ok (take (Planner.top_k spec) (Planner.merge_rrf iter_scores all_lists (f64_lit 60 1)), g')
  end.
End manager.

Record IndexStats := mkStats {
  bm25_docs : nat; bm25_vocab : nat; fuzzy_symbols : nat; hnsw_vectors : nat; graph_nodes : nat; graph_edges : nat
}.

Definition stats (g : IndexManager) : IndexStats :=
  mkStats (Bm25.len (bm25 g)) (Bm25.vocab_size (bm25 g)) (Fuzzy.len (fuzzy g))
    (match hnsw g with Some h => Hnsw.len h | None => 0 end)
    (Graph.node_count (graph g)) (Graph.edge_count (graph g)).
