(* ===== verification/ManagerSpec.v ===== *)
(** * Correctness of the index manager

    A query never panics and every hit is justified by one of the indices the plan
    consults; the keyword index follows the records written and deleted; and the
    manager meets the contract the engine relies on. *)

From S2P Require Import Prelude Ordered Text Float IndexApi Manager.
From S2P Require Bm25 Bm25Score Fuzzy Graph Hnsw HnswSpec HnswIo Planner.
Local Open Scope Z_scope.

(** ** What the indices hold *)
Record mgr_ok (g : IndexManager) (ds : list Bm25.Doc) : Prop := {
  ok_bm25 : Bm25.bm25_repr (bm25 g) ds;
  ok_fits : Bm25.fits ds;
  ok_params : Bm25Score.std_params (bm25 g);
  ok_fuzzy : Fuzzy.fuzzy_wf (fuzzy g);
  ok_symbols : Forall (fun s => Fuzzy.ascii s /\ Fuzzy.short s) (Fuzzy.symbols (fuzzy g));
  ok_graph : Graph.graph_wf (graph g);
  ok_hnsw : forall h, hnsw g = Some h -> Hnsw.hnsw_wf h
}.

(** A key an index may answer for a query. *)
Definition found_by (g : IndexManager) (ds : list Bm25.Doc) (spec : Planner.QuerySpec) (step : Planner.QueryStep) (x : bytes) : Prop :=
  match step with
  | Planner.Bm25 => exists d, d ∈ ds /\ Bm25.matches (Bm25.tokenize (Planner.text spec)) d /\ Bm25.dkey d = x
  | Planner.Fuzzy => x ∈ Fuzzy.symbols (fuzzy g) /\ exists n, (n <= Fuzzy.max_distance (fuzzy g))%nat /\
      Fuzzy.edit_distance (b2z <$> Fuzzy.normalize (Planner.text spec)) (b2z <$> Fuzzy.normalize x) n
  | Planner.Hnsw => exists h v, hnsw g = Some h /\ (x, v) ∈ HnswSpec.contents h
  | Planner.Graph => exists s v k, Graph.key_to_idx (graph g) !! Planner.text spec = Some s /\
      Graph.idx_to_key (graph g) !! v = Some x /\ (0 < k <= Planner.max_depth spec)%nat /\
      Graph.distance (Graph.fwd_adj (graph g)) (relation_filter spec) s k v
  end.

Lemma elem_of_hits {A} (key : A -> bytes) (score : A -> f64) results h :
  h ∈ hits_of key score results -> exists r, r ∈ results /\ Planner.key h = key r.
Proof.
  intros (i & r & -> & Hr)%elem_of_lookup_imap. exists r. split; [by eapply list_elem_of_lookup_2|done].
Qed.

(** What a query leaves of the manager: the arrays of the graph may be built. *)
Definition same_but_built (g g' : IndexManager) : Prop :=
  exists r, g' = set_graph r g /\ Graph.graph_wf r /\ Graph.same_graph (graph g) r.

Lemma same_refl g ds : mgr_ok g ds -> same_but_built g g.
Proof. intros Hok. exists (graph g). split; [by destruct g|]. split; [apply Hok|done]. Qed.

Section query.
Context `{HL : Hnsw.HeapLaws}.
Variables (ln exp : f64 -> f64).
Variable sort_unstable_by : (nat * f64 -> nat * f64 -> comparison) -> list (nat * f64) -> list (nat * f64).
Variable select_nth_unstable_by : nat -> (nat * f64 -> nat * f64 -> comparison) -> list (nat * f64) -> list (nat * f64).
Variable iter_hits : gmap nat nat -> list (nat * nat).
Variable iter_scores : gmap bytes f64 -> list (bytes * f64).
Hypothesis Hsort : sorts sort_unstable_by.
Hypothesis Hselect : selects select_nth_unstable_by.
Hypothesis Hiter_hits : forall m, iter_hits m ≡ₚ map_to_list m.
Hypothesis Hiter_scores : forall m, iter_scores m ≡ₚ map_to_list m.

Section steps.
Variables (g : IndexManager) (ds : list Bm25.Doc) (spec : Planner.QuerySpec).
Hypothesis Hok : mgr_ok g ds.
Hypothesis Htext : Fuzzy.ascii (Planner.text spec) /\ Fuzzy.short (Planner.text spec).

Definition justified (step : Planner.QueryStep) (hits : list Planner.RankedHit) : Prop :=
  forall h, h ∈ hits -> found_by g ds spec step (Planner.key h).

Lemma run_bm25_ok : exists hits, run_bm25 ln sort_unstable_by select_nth_unstable_by g spec = Ok hits /\ justified Planner.Bm25 hits.
Proof.
  unfold run_bm25. destruct (Bm25.search_ok ln sort_unstable_by select_nth_unstable_by (bm25 g) ds (Planner.text spec)
    (double (Planner.top_k spec)) (ok_bm25 g ds Hok) Hsort Hselect) as (hits & cs & -> & Hf & _).
  cbn [mbind res_bind]. eexists. split; [done|]. intros h (r & [i Hr]%list_elem_of_lookup & ->)%elem_of_hits.
  destruct (Forall2_lookup_r _ _ _ _ _ Hf Hr) as (c & _ & d & Hd & Hm & Hk & _). cbn. rewrite Hk.
  exists d. split_and!; [by eapply list_elem_of_lookup_2|done..].
Qed.

Lemma run_fuzzy_ok : exists hits, run_fuzzy iter_hits g spec = Ok hits /\ justified Planner.Fuzzy hits.
Proof.
  unfold run_fuzzy, Fuzzy.query. destruct (Fuzzy.query_ok iter_hits (fuzzy g) (Planner.text spec) (double (Planner.top_k spec))
    (Fuzzy.max_distance (fuzzy g)) (ok_fuzzy g ds Hok) Hiter_hits Htext (ok_symbols g ds Hok)) as (ms & js & -> & _ & _ & Hf & _).
  cbn [mbind res_bind]. eexists. split; [done|]. intros h (r & [i Hr]%list_elem_of_lookup & ->)%elem_of_hits.
  destruct (Forall2_lookup_r _ _ _ _ _ Hf Hr) as (j & _ & s & Hs & -> & _ & _ & Hd & He). cbn.
  split; [by eapply list_elem_of_lookup_2|]. by eexists.
Qed.

Lemma run_hnsw_ok : exists hits, run_hnsw g spec = Ok hits /\ justified Planner.Hnsw hits.
Proof.
  unfold run_hnsw. destruct (hnsw g) as [h|] eqn:Eh; [|exists []; split; [done|]; intros x Hx; by apply not_elem_of_nil in Hx].
  destruct (Planner.vector spec) as [|c v] eqn:Ev; [exists []; split; [done|]; intros x Hx; by apply not_elem_of_nil in Hx|].
  rewrite <- Ev. destruct (HnswSpec.search_keys h (Planner.vector spec) (double (Planner.top_k spec)) (Hnsw.ef_search h)
    (ok_hnsw g ds Hok h Eh)) as (rs & Es & _ & Hr). unfold Hnsw.search. rewrite Es. cbn [infallible mbind res_bind].
  eexists. split; [done|]. intros x (r & Hin & ->)%elem_of_hits. destruct (Hr r Hin) as [vec Hc]. exists h, vec. by split.
Qed.

Lemma run_graph_ok : exists hits g', run_graph g spec = Ok (hits, g') /\ same_but_built g g' /\ justified Planner.Graph hits.
Proof.
  pose proof (ok_graph g ds Hok) as Hwf. unfold run_graph.
  assert (exists hits g', (Ok ([], g) : res unit (list Planner.RankedHit * IndexManager)) = Ok (hits, g') /\ same_but_built g g' /\ justified Planner.Graph hits) as Hnone.
  { exists [], g. split; [done|]. split; [by eapply same_refl|]. intros h Hh. by apply not_elem_of_nil in Hh. }
  destruct (Planner.text spec) as [|c t] eqn:Et; [done|]. rewrite <- Et. clear Hnone.
  destruct (Graph.key_to_idx (graph g) !! Planner.text spec) as [s|] eqn:Es.
  - destruct (Graph.bfs_ok (graph g) (Planner.text spec) (str "forward") (Planner.max_depth spec) (relation_filter spec) s Hwf Es)
      as (results & r & all & -> & Hwf' & Hsame & Hres & _ & _ & Hall).
    cbn [infallible mbind res_bind]. eexists _, _. split; [done|]. split; [by exists r|].
    intros h (t' & [Hd Hin]%list_elem_of_filter & ->)%elem_of_hits. apply list_elem_of_lookup in Hin as [i Hi].
    destruct (Forall2_lookup_r _ _ _ _ _ Hres Hi) as ([v k] & Hv & Hkey & Hdep & _). cbn in Hkey, Hdep.
    apply list_elem_of_lookup_2, Hall in Hv as [Hk Hdist]. cbn. exists s, v, k.
    split_and!; [done|done|lia|done|]. exact Hdist.
  - destruct (Graph.ensure_built_ok (graph g) Hwf) as (r & Er & Hwf' & _ & Hsame). unfold Graph.bfs. rewrite Er.
    cbn [mbind res_bind]. destruct Hsame as (Hk & Hs). rewrite Hk, Es. cbn [infallible mbind res_bind].
    eexists _, _. split; [done|]. split; [by exists r|]. intros h Hh. by apply not_elem_of_nil in Hh.
Qed.
End steps.

Lemma same_ok g g' ds : mgr_ok g ds -> same_but_built g g' -> mgr_ok g' ds.
Proof. intros [] (r & -> & Hr & _). by split. Qed.

Lemma same_found g g' ds spec step x : same_but_built g g' -> found_by g' ds spec step x -> found_by g ds spec step x.
Proof.
  intros (r & -> & _ & (Hk & Hi & Hf & _)) Hx. destruct step; cbn in *; try done. by rewrite Hk, Hi, Hf in Hx.
Qed.

Lemma same_trans g g1 g2 : same_but_built g g1 -> same_but_built g1 g2 -> same_but_built g g2.
Proof.
  intros (r1 & -> & _ & H1) (r2 & -> & Hwf & H2). exists r2. split; [done|]. split; [done|].
  unfold Graph.same_graph in *. cbn in *. destruct_and!. split_and!; congruence.
Qed.

Lemma run_step_ok spec g ds lists step : mgr_ok g ds ->
  Fuzzy.ascii (Planner.text spec) /\ Fuzzy.short (Planner.text spec) ->
  exists hits g', run_step ln sort_unstable_by select_nth_unstable_by iter_hits spec (Ok (lists, g)) step =
      Ok (match hits with [] => lists | _ => lists ++ [hits] end, g') /\
    same_but_built g g' /\ justified g ds spec step hits.
Proof.
  intros Hok Ht. pose proof (same_refl g ds Hok) as Hr. unfold run_step. cbn [mbind res_bind]. destruct step.
  - destruct (run_bm25_ok g ds spec Hok) as (hits & -> & Hj). by exists hits, g.
  - destruct (run_hnsw_ok g ds spec Hok) as (hits & -> & Hj). by exists hits, g.
  - destruct (run_fuzzy_ok g ds spec Hok Ht) as (hits & -> & Hj). by exists hits, g.
  - destruct (run_graph_ok g ds spec Hok Ht) as (hits & g' & -> & Hs & Hj). by exists hits, g'.
Qed.

Lemma run_steps_ok spec ds steps : Fuzzy.ascii (Planner.text spec) /\ Fuzzy.short (Planner.text spec) ->
  forall g lists, mgr_ok g ds ->
  exists lists' g', foldl (run_step ln sort_unstable_by select_nth_unstable_by iter_hits spec) (Ok (lists, g)) steps = Ok (lists', g') /\
    same_but_built g g' /\
    forall l h, l ∈ lists' -> h ∈ l -> l ∈ lists \/ exists step, step ∈ steps /\ found_by g ds spec step (Planner.key h).
Proof.
  intros Ht. induction steps as [|step steps IH]; intros g lists Hok.
  { exists lists, g. split; [done|]. split; [by eapply same_refl|]. intros l h Hl _. by left. }
  cbn [foldl]. destruct (run_step_ok spec g ds lists step Hok Ht) as (hits & g1 & -> & Hs1 & Hj).
  destruct (IH g1 (match hits with [] => lists | _ => lists ++ [hits] end) (same_ok _ _ _ Hok Hs1)) as (lists' & g' & E & Hs' & Hl').
  exists lists', g'. split; [exact E|]. split; [by eapply same_trans|]. intros l h Hl Hh.
  destruct (Hl' l h Hl Hh) as [Hin|(st & Hst & Hf)].
  - assert (l ∈ lists \/ l = hits) as [?| ->]; [|by left|right; exists step; split; [left|by apply Hj]].
    destruct hits; [by left|]. apply elem_of_app in Hin as [?|?%list_elem_of_singleton]; [by left|by right].
  - right. exists st. split; [by right|]. by eapply same_found.
Qed.

(** The keyword hits reach the fusion: the steps before and after leave the keyword index alone. *)
Lemma run_steps_bm25 spec ds steps hits : Fuzzy.ascii (Planner.text spec) /\ Fuzzy.short (Planner.text spec) ->
  forall g lists lists' g', mgr_ok g ds -> run_bm25 ln sort_unstable_by select_nth_unstable_by g spec = Ok hits ->
  foldl (run_step ln sort_unstable_by select_nth_unstable_by iter_hits spec) (Ok (lists, g)) steps = Ok (lists', g') ->
  lists ⊆ lists' /\ (Planner.Bm25 ∈ steps -> forall h, h ∈ hits -> exists l, l ∈ lists' /\ h ∈ l).
Proof.
  intros Ht. induction steps as [|step steps IH]; intros g lists lists' g' Hok Hb; cbn [foldl].
  { intros [= -> _]. split; [done|]. by intros ?%not_elem_of_nil. }
  destruct (run_step_ok spec g ds lists step Hok Ht) as (hits1 & g1 & E1 & Hs1 & _).
  intros E. rewrite E1 in E.
  assert (run_bm25 ln sort_unstable_by select_nth_unstable_by g1 spec = Ok hits) as Hb1 by (by destruct Hs1 as (r & -> & _)).
  destruct (IH _ _ _ _ (same_ok _ _ _ Hok Hs1) Hb1 E) as [Hsub Hin].
  assert (lists ⊆ lists') as Hl by (etransitivity; [|exact Hsub]; destruct hits1; [done|intros l Hl; apply elem_of_app; by left]).
  split; [done|]. intros [<-|Hrest]%elem_of_cons h Hh; [|by apply Hin].
  unfold run_step in E1. cbn [mbind res_bind] in E1. rewrite Hb in E1. cbn [mbind res_bind] in E1.
  destruct hits as [|h0 hits]; [by apply not_elem_of_nil in Hh|]. injection E1 as E1 _.
  exists (h0 :: hits). split; [|done]. apply Hsub. rewrite <- E1. apply elem_of_app. right. by apply list_elem_of_singleton.
Qed.

Lemma query_hits_ok g ds spec : mgr_ok g ds ->
  Fuzzy.ascii (Planner.text spec) /\ Fuzzy.short (Planner.text spec) ->
  exists hits g', query ln sort_unstable_by select_nth_unstable_by iter_hits iter_scores g spec = Ok (hits, g') /\
    same_but_built g g' /\ (length hits <= Planner.top_k spec)%nat /\ NoDup (Planner.key <$> hits) /\
    (forall i h, hits !! i = Some h -> Planner.rank h = i) /\
    in_order Planner.by_score hits /\
    (forall h, h ∈ hits -> exists step, step ∈ Planner.plan spec /\ found_by g ds spec step (Planner.key h)).
Proof.
  intros Hok Ht. unfold query. destruct (run_steps_ok spec ds (Planner.plan spec) Ht g [] Hok) as (lists & g' & -> & Hs & Hl).
  cbn [mbind res_bind].
  assert (forall l h, l ∈ lists -> h ∈ l -> exists step, step ∈ Planner.plan spec /\ found_by g ds spec step (Planner.key h)) as Hj.
  { intros l h Hin Hh. by destruct (Hl l h Hin Hh) as [?%not_elem_of_nil|?]. }
  destruct lists as [|l0 ls] eqn:El.
  { exists [], g'. split_and!; try done; [cbn; lia|constructor|constructor|]. intros h Hh. by apply not_elem_of_nil in Hh. }
  rewrite <- El in *. destruct (Planner.merge_ok iter_scores lists (f64_lit 60 1) Hiter_scores) as (Hnd & Hkeys & Hranks & Hord).
  set (merged := Planner.merge_rrf iter_scores lists (f64_lit 60 1)) in *. exists (take (Planner.top_k spec) merged), g'.
  split_and!; [done|done|rewrite length_take; lia| | | |].
  - rewrite fmap_take. eapply sublist_NoDup; [exact Hnd|apply sublist_take].
  - intros i h [Hi _]%lookup_take_Some. by apply Hranks.
  - apply (StronglySorted_app_1_l _ _ (drop (Planner.top_k spec) merged)). rewrite take_drop. apply Hord. vm_compute. reflexivity.
  - intros h Hh%elem_of_take_sub. assert (Planner.key h ∈ Planner.key <$> merged) as Hk by (by apply list_elem_of_fmap_2).
    apply Hkeys in Hk as (l & h' & Hin & Hh' & <-). by apply (Hj l h').
Qed.

(** A query of ASCII text never panics, and but for building the arrays of the graph
    changes nothing. It answers at most [top_k] hits, each key once, ranked from zero,
    best score first; and every hit is justified by an index that the plan
    consults: a document with a word of the query, a symbol within the edit distance, a vector of the index,
    or a node reachable along relations of the kind asked for within the depth. *)
Theorem query_justified g ds spec : mgr_ok g ds ->
  Fuzzy.ascii (Planner.text spec) /\ Fuzzy.short (Planner.text spec) ->
  exists hits g', query ln sort_unstable_by select_nth_unstable_by iter_hits iter_scores g spec = Ok (hits, g') /\
    same_but_built g g' /\ (length hits <= Planner.top_k spec)%nat /\ NoDup (Planner.key <$> hits) /\
    (forall i h, hits !! i = Some h -> Planner.rank h = i) /\
    in_order Planner.by_score hits /\
    (forall h, h ∈ hits -> exists step, step ∈ Planner.plan spec /\ found_by g ds spec step (Planner.key h)).
Proof. apply query_hits_ok. Qed.
End query.

(** ** The keyword index follows the records *)
Inductive Op :=
  | OpPut (key value : bytes)
  | OpDelete (key : bytes)
  | OpVector (key : bytes) (vector : list f32)
  | OpEdge (src dst relation : bytes).

Definition put_doc (key value : bytes) : Bm25.Doc :=
  Bm25.mkDoc key (Bm25.tokens_of key ++ Bm25.tokens_of value) Bm25.Indexed.

Definition doc_op (ds : list Bm25.Doc) (o : Op) : list Bm25.Doc :=
  match o with
  | OpPut k v => Bm25.spec_remove ds k ++ [put_doc k v]
  | OpDelete k => Bm25.spec_remove ds k
  | _ => ds
  end.

Definition map_op (m : gmap bytes bytes) (o : Op) : gmap bytes bytes :=
  match o with OpPut k v => <[k := v]> m | OpDelete k => delete k m | _ => m end.

(** Keys are ASCII text of reasonable length, and a vector has components. *)
Definition op_ok (o : Op) : Prop :=
  match o with
  | OpPut k _ => Fuzzy.ascii k /\ Fuzzy.short k
  | OpVector _ v => v <> []
  | _ => True
  end.

Section ops.
Context `{HL : Hnsw.HeapLaws}.
Variables (ln exp : f64 -> f64).

Definition run_op (g : IndexManager) (o : Op) : res unit IndexManager :=
  match o with
  | OpPut k v => on_put g k v
  | OpDelete k => on_delete g k
  | OpVector k v => on_put_vector ln exp g k v
  | OpEdge s d r => on_add_edge g s d r
  end.

Definition run_ops (g : IndexManager) (ops : list Op) : res unit IndexManager :=
  foldl (fun r o => g ← r; run_op g o) (Ok g) ops.

(** The documents that are live are the records, each once. *)
Record tracks (ds : list Bm25.Doc) (m : gmap bytes bytes) : Prop := {
  tr_status : forall d, d ∈ ds -> Bm25.dstatus d <> Bm25.Orphan;
  tr_docs : forall d, (d ∈ ds /\ Bm25.dstatus d = Bm25.Indexed) <-> exists v, m !! Bm25.dkey d = Some v /\ d = put_doc (Bm25.dkey d) v;
  tr_once : forall i j d e, ds !! i = Some d -> ds !! j = Some e -> Bm25.dstatus d = Bm25.Indexed ->
    Bm25.dstatus e = Bm25.Indexed -> Bm25.dkey d = Bm25.dkey e -> i = j
}.

Lemma set_status_none k s (ds : list Bm25.Doc) : (forall d, d ∈ ds -> Bm25.dstatus d = Bm25.Indexed -> Bm25.dkey d <> k) -> Bm25.set_status k s <$> ds = ds.
Proof.
  intros Hn. rewrite <- (list_fmap_id ds) at 2. apply list_fmap_ext. intros i d Hd. unfold Bm25.set_status.
  rewrite bool_decide_eq_false_2; [done|]. intros [Hk Hs]. apply (Hn d); [by eapply list_elem_of_lookup_2|done..].
Qed.

Lemma removed_none k (ds : list Bm25.Doc) d : d ∈ Bm25.spec_remove ds k -> Bm25.dstatus d = Bm25.Indexed -> Bm25.dkey d <> k.
Proof.
  unfold Bm25.spec_remove, Bm25.set_status. intros (d' & -> & _)%list_elem_of_fmap. case_bool_decide as Hd; [done|].
  intros Hs Hk. by apply Hd.
Qed.

Lemma indexed_removed k (ds : list Bm25.Doc) d : (d ∈ Bm25.spec_remove ds k /\ Bm25.dstatus d = Bm25.Indexed) <-> (d ∈ ds /\ Bm25.dstatus d = Bm25.Indexed /\ Bm25.dkey d <> k).
Proof.
  split.
  - intros [Hin Hs]. pose proof (removed_none k ds d Hin Hs) as Hk. apply list_elem_of_fmap in Hin as (d' & E & Hd').
    unfold Bm25.set_status in E. case_bool_decide; subst; done.
  - intros (Hin & Hs & Hk). split; [|done]. apply list_elem_of_fmap. exists d. split; [|done].
    unfold Bm25.set_status. by rewrite bool_decide_eq_false_2 by (by intros [? _]).
Qed.

Lemma tracks_remove ds m k : tracks ds m -> tracks (Bm25.spec_remove ds k) (delete k m).
Proof.
  intros [Hs Hd Ho]. split.
  - unfold Bm25.spec_remove, Bm25.set_status. intros d (d' & -> & Hd')%list_elem_of_fmap. case_bool_decide; [done|by apply Hs].
  - intros d. rewrite indexed_removed. rewrite (assoc and), Hd. split.
    + intros [(v & Hv & E) Hk]. exists v. by rewrite lookup_delete_ne.
    + intros (v & [Hk Hv]%lookup_delete_Some & E). split; [by exists v|done].
  - unfold Bm25.spec_remove. intros i j d e Hi Hj Hsd Hse Hk. rewrite list_lookup_fmap in Hi, Hj.
    apply fmap_Some in Hi as (d' & Hi & ->), Hj as (e' & Hj & ->). unfold Bm25.set_status in *.
    repeat case_bool_decide; try done. by apply (Ho i j d' e').
Qed.

Lemma tracks_op ds m o : tracks ds m -> tracks (doc_op ds o) (map_op m o).
Proof.
  intros Ht. destruct o as [k v|k| |]; cbn [doc_op map_op]; [|by apply tracks_remove|done..].
  pose proof (tracks_remove ds m k Ht) as [Hs Hd Ho]. set (rs := Bm25.spec_remove ds k) in *.
  assert (forall d, d ∈ rs -> Bm25.dstatus d = Bm25.Indexed -> Bm25.dkey d <> k) as Hn by (apply removed_none).
  split.
  - intros d [?| ->%list_elem_of_singleton]%elem_of_app; [by apply Hs|done].
  - intros d. rewrite elem_of_app, list_elem_of_singleton. split.
    + intros [[Hin| ->] Hsd]; [|by exists v; cbn; rewrite lookup_insert_eq].
      destruct (proj1 (Hd d) (conj Hin Hsd)) as (v' & [Hk Hv]%lookup_delete_Some & E). exists v'. by rewrite lookup_insert_ne.
    + intros (v' & [[Hk ->]|[Hk Hv]]%lookup_insert_Some & E).
      * split; [right; by rewrite <- Hk in E|by rewrite E].
      * assert (d ∈ rs /\ Bm25.dstatus d = Bm25.Indexed) as [? ?]; [|by split; [left|]].
        apply Hd. exists v'. by rewrite lookup_delete_ne.
  - intros i j d e Hi Hj Hsd Hse Hk.
    apply lookup_app_Some in Hi as [Hi|[Hli Hi]], Hj as [Hj|[Hlj Hj]].
    + by apply (Ho i j d e).
    + apply list_lookup_singleton_Some in Hj as [_ <-]. destruct (Hn d); [by eapply list_elem_of_lookup_2|done..].
    + apply list_lookup_singleton_Some in Hi as [_ <-]. destruct (Hn e); [by eapply list_elem_of_lookup_2|done..].
    + apply list_lookup_singleton_Some in Hi as [Ei _], Hj as [Ej _]. lia.
Qed.

Lemma on_put_ok g ds k v : mgr_ok g ds -> Fuzzy.ascii k /\ Fuzzy.short k -> Bm25.fits (doc_op ds (OpPut k v)) ->
  exists g', on_put g k v = Ok g' /\ mgr_ok g' (doc_op ds (OpPut k v)).
Proof.
  intros [Hb Hft Hp Hf Hs Hg Hh] Hk Hfit. unfold on_put.
  assert (exists b, (if Bm25.contains_key (bm25 g) k then Bm25.remove_document (bm25 g) k else Ok (bm25 g)) = Ok b /\
    Bm25.bm25_repr b (Bm25.spec_remove ds k) /\ Bm25Score.std_params b) as (b & -> & Hb' & Hp').
  { unfold Bm25.contains_key. case_bool_decide as Hc.
    - destruct (Bm25.remove_document_ok (bm25 g) ds k Hb) as (b & E & Hb'). exists b. split_and!; [done..|].
      by eapply Bm25Score.remove_document_params.
    - exists (bm25 g). split_and!; [done| |done]. by rewrite (Bm25.spec_remove_none (bm25 g) ds k Hb) by (by apply eq_None_not_Some). }
  cbn [mbind res_bind]. eexists. split; [done|].
  assert (Bm25.spec_add (Bm25.spec_remove ds k) k (Bm25.tokens_of k ++ Bm25.tokens_of v) = doc_op ds (OpPut k v)) as E.
  { unfold Bm25.spec_add. cbn [doc_op]. by rewrite set_status_none by apply removed_none. }
  rewrite <- E, <- !Bm25.tokenize_tokens_of in *. split; cbn; [by apply Bm25.add_document_direct_ok|done|by apply Bm25Score.add_document_direct_params|by apply Fuzzy.add_wf| |done|done].
  apply Forall_app. split; [done|]. by apply Forall_singleton.
Qed.

Lemma on_delete_ok g ds k : mgr_ok g ds -> exists g', on_delete g k = Ok g' /\ mgr_ok g' (Bm25.spec_remove ds k).
Proof.
  intros [Hb Hft Hp Hf Hs Hg Hh]. unfold on_delete. destruct (Bm25.remove_document_ok (bm25 g) ds k Hb) as (b & E & Hb').
  pose proof (Bm25Score.remove_document_params _ _ _ Hp E) as Hp'. rewrite E. cbn [mbind res_bind]. eexists. split; [done|].
  split; try done. unfold Bm25.fits, Bm25.spec_remove in *. by rewrite Bm25.volume_status.
Qed.

Lemma on_add_edge_ok g ds s d r : mgr_ok g ds -> exists g', on_add_edge g s d r = Ok g' /\ mgr_ok g' ds.
Proof.
  intros Hok. unfold on_add_edge. destruct (Graph.from_str r) as [rel|]; [|by exists g].
  destruct (Graph.add_edge_ok (graph g) s d rel (ok_graph g ds Hok)) as (r' & -> & Hwf & _). cbn [infallible mbind res_bind].
  eexists. split; [done|]. destruct Hok. by split.
Qed.

Lemma on_put_vector_ok g ds k v : mgr_ok g ds -> v <> [] -> exists g', on_put_vector ln exp g k v = Ok g' /\ mgr_ok g' ds.
Proof.
  intros Hok Hv. unfold on_put_vector.
  assert (exists h d, (match hnsw g with
            | None => h ← infallible (Hnsw.with_defaults (length v)); Ok (h, length v)
            | Some h => Ok (h, hnsw_dim g)
            end) = Ok (h, d) /\ Hnsw.hnsw_wf h) as (h & d & -> & Hwf).
  { destruct (hnsw g) as [h|] eqn:Eh; [by exists h, (hnsw_dim g); split; [|apply (ok_hnsw g ds Hok)]|].
    destruct (Hnsw.with_defaults (length v)) as [h| |] eqn:E.
    - exists h, (length v). split; [done|]. by eapply HnswSpec.hnsw_new_wf.
    - by destruct v.
    - by destruct v. }
  cbn [mbind res_bind]. pose proof (HnswSpec.add_cases ln exp h k v Hwf) as Hc.
  assert (forall h' d', Hnsw.hnsw_wf h' -> mgr_ok (set_hnsw h' d' g) ds) as Hset.
  { intros h' d' Hwf'. destruct Hok. split; cbn; try done. by intros h'' [= ->]. }
  destruct (Hnsw.add ln exp h k v) as [h'|e|]; [|by eexists; split; [|apply Hset]|done].
  destruct Hc as (_ & v' & _ & Hwf' & _). eexists. split; [done|]. by apply Hset.
Qed.

Lemma run_op_ok g ds o : mgr_ok g ds -> op_ok o -> Bm25.fits (doc_op ds o) ->
  exists g', run_op g o = Ok g' /\ mgr_ok g' (doc_op ds o).
Proof.
  intros Hok Ho Hfit. destruct o; cbn [run_op doc_op op_ok] in *.
  - by apply on_put_ok.
  - by apply on_delete_ok.
  - by apply on_put_vector_ok.
  - by apply on_add_edge_ok.
Qed.

Lemma doc_op_volume ds o : (Bm25.volume ds <= Bm25.volume (doc_op ds o))%nat.
Proof. destruct o; cbn [doc_op]; unfold Bm25.spec_remove; rewrite ?Bm25.volume_app, ?Bm25.volume_status; lia. Qed.

Lemma doc_ops_volume ops : forall ds, (Bm25.volume ds <= Bm25.volume (foldl doc_op ds ops))%nat.
Proof.
  induction ops as [|o ops IH]; intros ds; cbn [foldl]; [lia|]. etransitivity; [apply (doc_op_volume ds o)|apply IH].
Qed.

Lemma run_ops_ok ops : forall g ds m, mgr_ok g ds -> tracks ds m -> Forall op_ok ops -> Bm25.fits (foldl doc_op ds ops) ->
  exists g', run_ops g ops = Ok g' /\ mgr_ok g' (foldl doc_op ds ops) /\ tracks (foldl doc_op ds ops) (foldl map_op m ops).
Proof.
  induction ops as [|o ops IH]; intros g ds m Hok Ht Ho Hfit; [by exists g|]. apply Forall_cons in Ho as [Ho Hos]. cbn [foldl] in Hfit.
  assert (Bm25.fits (doc_op ds o)) as Hf1 by (unfold Bm25.fits in *; pose proof (doc_ops_volume ops (doc_op ds o)); lia).
  destruct (run_op_ok g ds o Hok Ho Hf1) as (g1 & E & Hok1).
  destruct (IH g1 (doc_op ds o) (map_op m o) Hok1 (tracks_op _ _ _ Ht) Hos Hfit) as (g' & E' & Hok' & Ht').
  exists g'. split; [|done]. unfold run_ops in *. cbn [foldl mbind res_bind]. by rewrite E.
Qed.

Lemma new_ok : mgr_ok new [].
Proof.
  split; [apply Bm25.with_params_repr|done|apply Bm25Score.new_params|apply Fuzzy.fuzzy_new_wf|constructor|apply Graph.graph_new_wf|]. by intros h.
Qed.

Lemma tracks_new : tracks [] ∅.
Proof.
  split.
  - intros d Hd. by apply not_elem_of_nil in Hd.
  - intros d. split; [intros [Hd _]; by apply not_elem_of_nil in Hd|]. intros (v & Hv & _). by rewrite lookup_empty in Hv.
  - intros i j d e Hi. by rewrite lookup_nil in Hi.
Qed.

(** What the keyword index can answer, when the documents track the records. *)
Lemma tracks_found g ds m spec x : tracks ds m ->
  found_by g ds spec Planner.Bm25 x <->
    x <> [] /\ exists v t, m !! x = Some v /\ t ∈ Bm25.tokenize (Planner.text spec) /\ t ∈ Bm25.tokens_of x ++ Bm25.tokens_of v.
Proof.
  intros [Hs Hd Ho]. cbn. split.
  - intros (d & Hin & [Hsd (t & Ht & Htd)] & <-). unfold Bm25.searchable, Bm25.stored_key, Bm25.live in Hsd.
    apply bool_decide_eq_true in Hsd. case_bool_decide as Hl; [|done].
    assert (Bm25.dstatus d = Bm25.Indexed) as Hi by (pose proof (Hs d Hin); by destruct (Bm25.dstatus d)).
    destruct (proj1 (Hd d) (conj Hin Hi)) as (v & Hv & E). split; [done|]. exists v, t. split_and!; [done..|]. by rewrite E in Htd.
  - intros (Hx & v & t & Hv & Ht & Htd). destruct (proj2 (Hd (put_doc x v))) as [Hin _]; [by exists v|].
    exists (put_doc x v). split_and!; [done| |done]. split; [by apply bool_decide_eq_true|]. by exists t.
Qed.

(** any sequence of writes, deletions, vectors and relations, within the size of the keyword
    index, runs without a panic, and the indices are well-formed after it. The keyword index then
    answers for exactly the records that were written and not deleted since, under
    their latest values: those that hold a word of the query. *)
Theorem manager_follows ops : Forall op_ok ops -> Bm25.fits (foldl doc_op [] ops) ->
  exists g ds, run_ops new ops = Ok g /\ mgr_ok g ds /\
    forall spec x, found_by g ds spec Planner.Bm25 x <->
      x <> [] /\ exists v t, foldl map_op ∅ ops !! x = Some v /\
        t ∈ Bm25.tokenize (Planner.text spec) /\ t ∈ Bm25.tokens_of x ++ Bm25.tokens_of v.
Proof.
  intros Ho Hfit. destruct (run_ops_ok ops new [] ∅ new_ok tracks_new Ho Hfit) as (g & E & Hok & Ht).
  exists g, (foldl doc_op [] ops). split; [done|]. split; [done|]. intros spec x. by apply tracks_found.
Qed.
End ops.

(** ** What a query leaves out *)
Section complete.
Context `{HL : Hnsw.HeapLaws}.
Variables (ln exp : f64 -> f64).
Variable sort_unstable_by : (nat * f64 -> nat * f64 -> comparison) -> list (nat * f64) -> list (nat * f64).
Variable select_nth_unstable_by : nat -> (nat * f64 -> nat * f64 -> comparison) -> list (nat * f64) -> list (nat * f64).
Variable iter_hits : gmap nat nat -> list (nat * nat).
Variable iter_scores : gmap bytes f64 -> list (bytes * f64).
Hypothesis Hsort : sorts sort_unstable_by.
Hypothesis Hselect : selects select_nth_unstable_by.
Hypothesis Hiter_hits : forall m, iter_hits m ≡ₚ map_to_list m.
Hypothesis Hiter_scores : forall m, iter_scores m ≡ₚ map_to_list m.

Hypothesis Hln : Bm25Score.ln_positive ln.

(** The keyword hits are of different keys, and all there are when they fall short of the bound. *)
Lemma run_bm25_complete g ds m spec : mgr_ok g ds -> tracks ds m ->
  exists hits, run_bm25 ln sort_unstable_by select_nth_unstable_by g spec = Ok hits /\ NoDup (Planner.key <$> hits) /\
    ((length hits < double (Planner.top_k spec))%nat ->
      forall x, found_by g ds spec Planner.Bm25 x -> x ∈ Planner.key <$> hits).
Proof.
  intros Hok [Hst Hd Ho]. unfold run_bm25.
  destruct (Bm25.search_ok ln sort_unstable_by select_nth_unstable_by (bm25 g) ds (Planner.text spec)
    (double (Planner.top_k spec)) (ok_bm25 g ds Hok) Hsort Hselect) as (hits & cs & -> & Hf & _ & _ & Hall & _ & Hnd).
  cbn [mbind res_bind]. specialize (Hnd (fun d q Hin _ => Bm25Score.score_positive ln Hln (bm25 g) ds (ok_bm25 g ds Hok) (ok_fits g ds Hok) (ok_params g ds Hok) q d Hin)).
  assert (Planner.key <$> hits_of Bm25.key Bm25.score hits = Bm25.key <$> hits) as Hk.
  { unfold hits_of. rewrite fmap_imap. by rewrite <- (imap_const Bm25.key hits). }
  eexists. split; [done|]. rewrite Hk. split.
  - apply NoDup_alt. intros i j x Hi Hj. rewrite list_lookup_fmap in Hi, Hj.
    apply fmap_Some in Hi as (hi & Hi & ->), Hj as (hj & Hj & Hx).
    destruct (Forall2_lookup_r _ _ _ _ _ Hf Hi) as (ci & Hci & di & Hdi & Hmi & Hki & _).
    destruct (Forall2_lookup_r _ _ _ _ _ Hf Hj) as (cj & Hcj & dj & Hdj & Hmj & Hkj & _).
    assert (forall d, d ∈ ds -> Bm25.matches (Bm25.tokenize (Planner.text spec)) d -> Bm25.dstatus d = Bm25.Indexed) as Hi'.
    { intros d Hin [Hs _]. specialize (Hst d Hin). unfold Bm25.searchable, Bm25.stored_key, Bm25.live in Hs.
      apply bool_decide_eq_true in Hs. by destruct (Bm25.dstatus d). }
    assert (ci.1 = cj.1) as Hc.
    { apply (Ho _ _ di dj Hdi Hdj); [by eapply Hi', Hmi; eapply list_elem_of_lookup_2|by eapply Hi', Hmj; eapply list_elem_of_lookup_2|].
      by rewrite <- Hki, <- Hkj, Hx. }
    apply (NoDup_lookup _ _ _ ci.1 Hnd); rewrite list_lookup_fmap; [by rewrite Hci|by rewrite Hcj, Hc].
  - intros Hlen x (d & [i Hi]%list_elem_of_lookup & Hm & <-).
    assert (length hits < double (Planner.top_k spec))%nat as Hl by (unfold hits_of in Hlen; by rewrite length_imap in Hlen).
    pose proof (Hall Hl i d Hi Hm) as ([i' s] & Hi' & [j Hj]%list_elem_of_lookup)%list_elem_of_fmap. cbn in Hi'. subst i'.
    destruct (Forall2_lookup_l _ _ _ _ _ Hf Hj) as (h & Hh & d' & Hd' & _ & Hkey & _). cbn [fst] in Hd'.
    rewrite Hi in Hd'. injection Hd' as <-. rewrite <- Hkey. apply list_elem_of_fmap_2. by eapply list_elem_of_lookup_2.
Qed.

(** A query that answers fewer hits than it was asked for left out no record with a word of its text. *)
Lemma query_complete g ds m spec hits g' : mgr_ok g ds -> tracks ds m ->
  Fuzzy.ascii (Planner.text spec) /\ Fuzzy.short (Planner.text spec) -> Z.of_nat (Planner.top_k spec) < 2 ^ 63 ->
  query ln sort_unstable_by select_nth_unstable_by iter_hits iter_scores g spec = Ok (hits, g') ->
  (length hits < Planner.top_k spec)%nat -> Planner.Bm25 ∈ Planner.plan spec ->
  forall x, found_by g ds spec Planner.Bm25 x -> x ∈ Planner.key <$> hits.
Proof.
  intros Hok Htr Htext Hk E Hlen Hplan x Hx.
  destruct (run_bm25_complete g ds m spec Hok Htr) as (bm & Eb & Hnd & Hall).
  unfold query in E. destruct (foldl _ _ _) as [[lists g1]| |] eqn:Ef; [|done..]. cbn [mbind res_bind] in E.
  destruct (run_steps_bm25 ln sort_unstable_by select_nth_unstable_by iter_hits Hsort Hselect Hiter_hits spec ds _ bm Htext _ _ _ _ Hok Eb Ef)
    as [_ Hin]. specialize (Hin Hplan).
  destruct (Planner.merge_ok iter_scores lists (f64_lit 60 1) Hiter_scores) as (Hnd' & Hkeys & _).
  set (merged := Planner.merge_rrf iter_scores lists (f64_lit 60 1)) in *.
  assert ((Planner.key <$> bm) ⊆ (Planner.key <$> merged)) as Hsub.
  { intros y (h & -> & Hh)%list_elem_of_fmap. apply Hkeys. destruct (Hin h Hh) as (l & Hl & Hhl). by exists l, h. }
  assert (lists = [] \/ hits = take (Planner.top_k spec) merged) as [Hn| ->] by (destruct lists; injection E; auto).
  - rewrite Hn in Hin. assert (bm = []) as ->.
    { destruct bm as [|h bm]; [done|]. destruct (Hin h) as (l & Hl & _); [left|]. by apply not_elem_of_nil in Hl. }
    exfalso. assert (0 < double (Planner.top_k spec))%nat as Hd by (unfold double, u64; rewrite Z.mod_small by lia; lia).
    by apply (Hall Hd), not_elem_of_nil in Hx.
  - rewrite length_take in Hlen. rewrite take_ge by lia. apply Hsub, Hall; [|done].
    pose proof (submseteq_length _ _ (NoDup_submseteq _ _ Hnd Hsub)) as Hb. rewrite !length_fmap in Hb.
    unfold double, u64. rewrite Z.mod_small by lia. lia.
Qed.
End complete.

(** ** The manager is an index of the engine *)
Definition load_hnsw (file : option bytes) (g : IndexManager) : IndexManager :=
  match file with
  | Some data => match HnswIo.deserialize data with Ok h => set_hnsw h (hnsw_dim g) g | _ => g end
  | None => g
  end.

Definition load_graph (file : option bytes) (g : IndexManager) : IndexManager :=
  match file with
  | Some data => match Graph.deserialize data with Ok r => set_graph r g | _ => g end
  | None => g
  end.

Definition save_graph (g : IndexManager) : option bytes :=
  match Graph.serialize (graph g) with
  | [] => None
  | data => if (0 <? Graph.node_count (graph g))%nat then Some data else None
  end.

#[export] Instance manager_index : IndexOps IndexManager := {
  idx_new := new;
  idx_load h r g := load_graph r (load_hnsw h g);
  idx_save g := (HnswIo.serialize <$> hnsw g, save_graph g);
  idx_on_put := on_put;
  idx_on_delete := on_delete;
  idx_replay_put g key key_str val_str := Ok (replay_put g key key_str val_str)
}.

(** Whatever is loaded, and however large the index grows, the writes of the engine do not panic. *)
#[export] Instance manager_index_laws : IndexLaws IndexManager.
Proof.
  exists (fun g => Bm25.safe (bm25 g)); cbn.
  - apply Bm25.with_params_safe.
  - intros h r g Hs. assert (bm25 (load_graph r (load_hnsw h g)) = bm25 g) as ->; [|done].
    unfold load_graph, load_hnsw. destruct h as [dh|], r as [dr|]; try done; repeat case_match; done.
  - intros g k v Hs. unfold on_put.
    assert (exists b, (if Bm25.contains_key (bm25 g) k then Bm25.remove_document (bm25 g) k else Ok (bm25 g)) = Ok b /\ Bm25.safe b)
      as (b & -> & Hb) by (destruct (Bm25.contains_key _ _); [by apply Bm25.remove_document_safe|by eexists]).
    cbn [mbind res_bind]. eexists. split; [done|]. by apply Bm25.add_document_direct_safe.
  - intros g k Hs. unfold on_delete. destruct (Bm25.remove_document_safe (bm25 g) k Hs) as (b & -> & Hb).
    cbn [mbind res_bind]. by eexists.
  - intros g k ks vs Hs. eexists. split; [done|]. by apply Bm25.add_document_direct_safe.
Defined.

(** ** Behaviour at the edges *)
#[local] Existing Instance HnswSpec.list_heap.
#[local] Existing Instance HnswSpec.list_heap_laws.

(** A first vector without components is a panic, not an error. *)
Lemma empty_vector_panics `{Hnsw.HeapOps} ln exp g key : hnsw g = None -> on_put_vector ln exp g key [] = Panic.
Proof. intros Hn. unfold on_put_vector. by rewrite Hn. Qed.

Definition ex_query (g : IndexManager) (q : Planner.QuerySpec) : res unit (list Planner.RankedHit * IndexManager) :=
  query (fun _ => f64_lit 1 1) sort_by (fun _ => sort_by) (fun m => map_to_list m) (fun m => map_to_list m) g q.

Definition ex_run (ops : list Op) : res unit IndexManager := run_ops (fun x => x) (fun _ => f64_lit 1 2) new ops.

Definition run_query (ops : list Op) (q : Planner.QuerySpec) : res unit (list (bytes * nat)) :=
  match ex_run ops with
  | Ok g => match ex_query g q with
            | Ok (hits, _) => Ok (map (fun h => (Planner.key h, Planner.rank h)) hits)
            | Err e => Err e | Panic => Panic end
  | Err e => Err e | Panic => Panic
  end.

Definition text_query (s : string) : Planner.QuerySpec := Planner.mkSpec (str s) [] 5 3 [] [] [] [] 1 5000.

(** A key that is written twice is two symbols, and the fusion counts both: it overtakes a
    better match. *)
Lemma rewritten_key_counts_twice :
  run_query [OpPut (str "getUserById") (str "x"); OpPut (str "getUserByIds") (str "y")] (text_query "getUserByIdX")
    = Ok [(str "getUserById", 0%nat); (str "getUserByIds", 1%nat)] /\
  run_query [OpPut (str "getUserById") (str "x"); OpPut (str "getUserByIds") (str "y"); OpPut (str "getUserByIds") (str "y")]
      (text_query "getUserByIdX")
    = Ok [(str "getUserByIds", 0%nat); (str "getUserById", 1%nat)].
Proof. split; vm_compute; reflexivity. Qed.

(** A deleted key is still answered, by the fuzzy index alone. *)
Lemma deleted_key_is_answered :
  run_query [OpPut (str "getUserById") (str "x"); OpDelete (str "getUserById")] (text_query "getUserById")
    = Ok [(str "getUserById", 0%nat)].
Proof. vm_compute. reflexivity. Qed.

(** ** Witnesses *)
Definition ex_ops : list Op :=
  [OpPut (str "auth::validateToken") (str "check the JWT"); OpPut (str "models::User") (str "an email field");
   OpEdge (str "auth::validateToken") (str "models::User") (str "calls"); OpVector (str "models::User") (HnswSpec.vec3 1 2 2);
   OpPut (str "auth::validateToken") (str "verify the signature"); OpDelete (str "models::User")].

Definition ex_spec : Planner.QuerySpec :=
  Planner.mkSpec (str "auth::validateToken") (HnswSpec.vec3 1 2 3) 5 3 [str "calls"] [] [] [] 1 5000.

Lemma ascii_short_dec s : forallb (fun b => b2z b <? 128) s = true -> Z.of_nat (length s) < 2 ^ 51 -> Fuzzy.ascii s /\ Fuzzy.short s.
Proof.
  intros Ha Hs. split; [|exact Hs]. apply Forall_forall. intros b Hb. rewrite forallb_forall in Ha.
  apply Z.ltb_lt, Ha. by apply list_elem_of_In.
Qed.

Lemma ex_ops_ok : Forall op_ok ex_ops /\ Bm25.fits (foldl doc_op [] ex_ops).
Proof.
  split; [|vm_compute; reflexivity]. repeat constructor; try done; apply ascii_short_dec; reflexivity.
Qed.

Lemma manager_follows_witness : exists g ds, ex_run ex_ops = Ok g /\ mgr_ok g ds /\
  ~ found_by g ds ex_spec Planner.Bm25 (str "models::User").
Proof.
  destruct (manager_follows (fun x => x) (fun _ => f64_lit 1 2) ex_ops (proj1 ex_ops_ok) (proj2 ex_ops_ok)) as (g & ds & E & Hok & Hf).
  exists g, ds. split; [exact E|]. split; [exact Hok|]. intros (_ & v & t & Hv & _)%Hf. vm_compute in Hv. discriminate.
Defined.

Lemma query_justified_witness : exists g ds hits g', ex_run ex_ops = Ok g /\ ex_query g ex_spec = Ok (hits, g') /\
  forall h, h ∈ hits -> exists step, step ∈ Planner.plan ex_spec /\ found_by g ds ex_spec step (Planner.key h).
Proof.
  destruct (run_ops_ok (fun x => x) (fun _ => f64_lit 1 2) ex_ops new [] ∅ new_ok tracks_new (proj1 ex_ops_ok) (proj2 ex_ops_ok))
    as (g & E & Hok & _).
  destruct (query_justified (fun _ => f64_lit 1 1) sort_by (fun _ => sort_by) (fun m => map_to_list m) (fun m => map_to_list m)
    sort_by_sorts sort_by_selects (fun m => reflexivity _) (fun m => reflexivity _) g _ ex_spec Hok
    (ascii_short_dec (str "auth::validateToken") eq_refl eq_refl)) as (hits & g' & Eq & _ & _ & _ & _ & _ & Hj).
  exists g, (foldl doc_op [] ex_ops), hits, g'. split; [exact E|]. split; [exact Eq|]. exact Hj.
Defined.

(** All four indices answer this query. *)
Example ex_hits : run_query ex_ops ex_spec = Ok [(str "auth::validateToken", 0%nat); (str "models::User", 1%nat)].
Proof. vm_compute. reflexivity. Qed.
