(* ===== verification/QueryApi.v ===== *)
(** * The interface between the index manager and its clients

    What the server and the Python classes call of [IndexManager] beside the writes that the
    engine itself makes ([IndexApi.v]): their handlers are defined over these classes, and
    the manager is an instance ([IndexedEngine.v]). *)

From S2P Require Import Prelude Text Float.
From S2P Require Planner Manager Fuzzy Hnsw.

(** The queries of the index manager, which the engine itself does not call. *)
Class IndexQuery (I : Type) := {
  idx_query : I -> Planner.QuerySpec -> res unit (list Planner.RankedHit * I);
  idx_stats : I -> Manager.IndexStats
}.

(** What the Python classes use of the fields of the index manager, beside its queries. *)
Class IndexFields (I : Type) := {
  (** [indices.fuzzy.query] *)
  idx_fuzzy : I -> bytes -> nat -> res unit (list Fuzzy.FuzzyMatch);
  (** [indices.hnsw.search], when there is a vector index *)
  idx_vector : I -> option (list f32 -> nat -> res unit (list Hnsw.SearchResult));
  idx_on_add_edge : I -> bytes -> bytes -> bytes -> res unit I;
  idx_on_put_vector : I -> bytes -> list f32 -> res unit I
}.
