(* ===== verification/Engine.v ===== *)
(** * The storage engine ([src/engine.rs])

    Log, memtable, frozen memtables, cache, background compaction, indices and
    the snapshot trie behind one read and write interface. The worker thread is
    the transition system of [BgCompaction]; its steps happen between the
    engine's operations, which touch its state at one point each. The query
    indices are any instance of [IndexOps]. *)

From S2P Require Import Prelude Ordered Text Float Fnv Bloom Memtable Wal Page PageStore Compaction BgCompaction Cache Hamt IndexApi.
Local Open Scope Z_scope.

Definition DEFAULT_FLUSH_THRESHOLD : Z := 32 * 1024 * 1024.

Section engine.
Context (crc : bytes -> Z) (deflate : bytes -> bytes) (inflate : bytes -> option bytes).
Context (read_dir : fs -> list bytes) (ln : f64 -> f64).
Context (iter : gmap bytes CacheEntry -> list (bytes * CacheEntry)).
Context {I : Type} `{IndexOps I}.

Record Engine := mkEngine {
  wal : WalWriter;
  memtable : Memtable;
  frozen : list Memtable;
  flush_threshold : Z;
  compactor : BackgroundCompactor;
  indices : I;
  state : Hamt;
  snapshots : gmap bytes Hamt;
  snapshot_counter : Z;
  flush_count : Z;
  total_puts : Z;
  total_gets : Z;
  total_deletes : Z;
  cache : LruCache
}.

(** ** Field updates *)
Definition set_wal (w : WalWriter) (e : Engine) : Engine :=
  {| wal := w; memtable := memtable e; frozen := frozen e; flush_threshold := flush_threshold e;
     compactor := compactor e; indices := indices e; state := state e; snapshots := snapshots e;
     snapshot_counter := snapshot_counter e; flush_count := flush_count e; total_puts := total_puts e;
     total_gets := total_gets e; total_deletes := total_deletes e; cache := cache e |}.

Definition set_memtable (m : Memtable) (e : Engine) : Engine :=
  {| wal := wal e; memtable := m; frozen := frozen e; flush_threshold := flush_threshold e;
     compactor := compactor e; indices := indices e; state := state e; snapshots := snapshots e;
     snapshot_counter := snapshot_counter e; flush_count := flush_count e; total_puts := total_puts e;
     total_gets := total_gets e; total_deletes := total_deletes e; cache := cache e |}.

Definition set_frozen (f : list Memtable) (count : Z) (e : Engine) : Engine :=
  {| wal := wal e; memtable := memtable e; frozen := f; flush_threshold := flush_threshold e;
     compactor := compactor e; indices := indices e; state := state e; snapshots := snapshots e;
     snapshot_counter := snapshot_counter e; flush_count := count; total_puts := total_puts e;
     total_gets := total_gets e; total_deletes := total_deletes e; cache := cache e |}.

Definition set_compactor (c : BackgroundCompactor) (e : Engine) : Engine :=
  {| wal := wal e; memtable := memtable e; frozen := frozen e; flush_threshold := flush_threshold e;
     compactor := c; indices := indices e; state := state e; snapshots := snapshots e;
     snapshot_counter := snapshot_counter e; flush_count := flush_count e; total_puts := total_puts e;
     total_gets := total_gets e; total_deletes := total_deletes e; cache := cache e |}.

Definition set_indices (i : I) (e : Engine) : Engine :=
  {| wal := wal e; memtable := memtable e; frozen := frozen e; flush_threshold := flush_threshold e;
     compactor := compactor e; indices := i; state := state e; snapshots := snapshots e;
     snapshot_counter := snapshot_counter e; flush_count := flush_count e; total_puts := total_puts e;
     total_gets := total_gets e; total_deletes := total_deletes e; cache := cache e |}.

Definition set_state (h : Hamt) (e : Engine) : Engine :=
  {| wal := wal e; memtable := memtable e; frozen := frozen e; flush_threshold := flush_threshold e;
     compactor := compactor e; indices := indices e; state := h; snapshots := snapshots e;
     snapshot_counter := snapshot_counter e; flush_count := flush_count e; total_puts := total_puts e;
     total_gets := total_gets e; total_deletes := total_deletes e; cache := cache e |}.

Definition set_snapshots (s : gmap bytes Hamt) (counter : Z) (e : Engine) : Engine :=
  {| wal := wal e; memtable := memtable e; frozen := frozen e; flush_threshold := flush_threshold e;
     compactor := compactor e; indices := indices e; state := state e; snapshots := s;
     snapshot_counter := counter; flush_count := flush_count e; total_puts := total_puts e;
     total_gets := total_gets e; total_deletes := total_deletes e; cache := cache e |}.

Definition set_cache (c : LruCache) (e : Engine) : Engine :=
  {| wal := wal e; memtable := memtable e; frozen := frozen e; flush_threshold := flush_threshold e;
     compactor := compactor e; indices := indices e; state := state e; snapshots := snapshots e;
     snapshot_counter := snapshot_counter e; flush_count := flush_count e; total_puts := total_puts e;
     total_gets := total_gets e; total_deletes := total_deletes e; cache := c |}.

(** The operation counters ([fetch_add] wraps). *)
Definition count_ops (puts gets deletes : Z) (e : Engine) : Engine :=
  {| wal := wal e; memtable := memtable e; frozen := frozen e; flush_threshold := flush_threshold e;
     compactor := compactor e; indices := indices e; state := state e; snapshots := snapshots e;
     snapshot_counter := snapshot_counter e; flush_count := flush_count e;
     total_puts := u64 (total_puts e + puts); total_gets := u64 (total_gets e + gets);
     total_deletes := u64 (total_deletes e + deletes); cache := cache e |}.

(** ** Operations

    An operation returns its result and the engine as it leaves it, an error or
    a panic in the middle included. *)
Definition EM (A : Type) : Type := Engine -> res bytes A * Engine.

Definition ret {A} (a : A) : EM A := fun e => (Ok a, e).
Definition bind {A B} (m : EM A) (f : A -> EM B) : EM B := fun e =>
  match m e with
  | (Ok a, e') => f a e'
  | (Err x, e') => (Err x, e')
  | (Panic, e') => (Panic, e')
  end.
Definition modify (f : Engine -> Engine) : EM unit := fun e => (Ok tt, f e).

(** Lifting a computation that may panic; for the trie, running out of fuel
    stands for the unbounded recursion, which overflows the stack. *)
Definition lift {A} (r : res unit A) : EM A := fun e =>
  (match r with Ok a => Ok a | _ => Panic end, e).

Local Notation "x ⇐ m ;; f" := (bind m (fun x => f)) (at level 100, m at next level, f at level 200, right associativity).
Local Notation "m ;;; f" := (bind m (fun _ => f)) (at level 100, f at level 200, right associativity).

Definition io_error : bytes := str "io error".

Definition wal_append (key value : bytes) : EM unit := fun e =>
  let '(w, ok) := Wal.append crc (wal e) key value in
  (if ok then Ok tt else Err io_error, set_wal w e).

Definition wal_flush : EM unit := fun e =>
  let '(w, ok) := Wal.flush (wal e) in
  (if ok then Ok tt else Err io_error, set_wal w e).

(** [cache_empty] guards the invalidation; the engine holds the only reference,
    so that [try_lock] succeeds. *)
Definition cache_invalidate (key : bytes) : EM unit := fun e =>
  (Ok tt, if Cache.is_empty (cache e) then e else set_cache (Cache.invalidate (cache e) key) e).

Definition index_put (key value : bytes) : EM unit := fun e =>
  (i ⇐ lift (idx_on_put (indices e) key value) ;; modify (set_indices i)) e.

Definition index_delete (key : bytes) : EM unit := fun e =>
  (i ⇐ lift (idx_on_delete (indices e) key) ;; modify (set_indices i)) e.

Definition state_put (key value : bytes) : EM unit := fun e =>
  (h ⇐ lift (Hamt.put (state e) key value) ;; modify (set_state h)) e.

Definition state_delete (key : bytes) : EM unit := fun e =>
  (h ⇐ lift (Hamt.delete (state e) key) ;; modify (set_state h)) e.

(** *** Flushing *)

(** [frozen_to_page] and [memtable_to_page] are the same function: the memtable
    is drained into a sorted page with a Bloom filter. *)
Definition entries_page (entries : list (bytes * MemEntry)) : Page :=
  Page.sort (foldl (fun p ke =>
      Page.push p ke.1 (default [] (Memtable.value ke.2))
        (match Memtable.value ke.2 with None => true | Some _ => false end))
    (Page.new 0) entries).

Definition frozen_to_page (m : Memtable) : res unit Page * Memtable :=
  let '(entries, m') := Memtable.drain m in
  (Page.build_bloom ln (entries_page entries), m').

Definition memtable_to_page : Memtable -> res unit Page * Memtable := frozen_to_page.

Definition submit (page : Page) : EM unit := fun e =>
  match BgCompaction.submit (compactor e) page with
  | Ok c => (Ok tt, set_compactor c e)
  | Err x => (Err x, e)
  | Panic => (Panic, e)
  end.

(** At most two frozen memtables are kept, the oldest go first. *)
Definition trim_frozen (l : list Memtable) : list Memtable := drop (length l - 2) l.

Definition flush_memtable : EM unit := fun e =>
  let old := memtable e in
  let e1 := set_memtable (Memtable.new (flush_threshold e)) e in
  let '(page, old') := frozen_to_page old in
  (page ⇐ lift page ;;
   submit page ;;;
   modify (fun e => set_frozen (trim_frozen (frozen e ++ [old'])) (u64 (flush_count e + 1)) e)) e1.

Definition memtable_put (key value : bytes) : EM bool := fun e =>
  let '(m, f) := Memtable.put (memtable e) key value in (Ok f, set_memtable m e).

Definition memtable_delete (key : bytes) : EM bool := fun e =>
  let '(m, f) := Memtable.delete (memtable e) key in (Ok f, set_memtable m e).

Definition when (b : bool) (m : EM unit) : EM unit := if b then m else ret tt.

(** *** Writes *)
Definition put (key value : bytes) : EM unit :=
  wal_append key value ;;;
  wal_flush ;;;
  should_flush ⇐ memtable_put key value ;;
  modify (count_ops 1 0 0) ;;;
  cache_invalidate key ;;;
  index_put key value ;;;
  state_put key value ;;;
  when should_flush flush_memtable.

(** [put_profiled] does not invalidate the cache. *)
Definition put_profiled (key value : bytes) : EM unit :=
  wal_append key value ;;;
  wal_flush ;;;
  should_flush ⇐ memtable_put key value ;;
  modify (count_ops 1 0 0) ;;;
  index_put key value ;;;
  state_put key value ;;;
  when should_flush flush_memtable.

Fixpoint wal_append_all (entries : list (bytes * bytes)) : EM unit :=
  match entries with
  | [] => ret tt
  | kv :: entries' => wal_append kv.1 kv.2 ;;; wal_append_all entries'
  end.

Fixpoint put_entries (entries : list (bytes * bytes)) (should_flush : bool) : EM bool :=
  match entries with
  | [] => ret should_flush
  | kv :: entries' =>
      f ⇐ memtable_put kv.1 kv.2 ;;
      modify (count_ops 1 0 0) ;;;
      index_put kv.1 kv.2 ;;;
      state_put kv.1 kv.2 ;;;
      put_entries entries' (should_flush || f)
  end.

Definition clear_cache : EM unit := modify (fun e => set_cache (Cache.clear (cache e)) e).

Definition put_batch (entries : list (bytes * bytes)) : EM unit :=
  wal_append_all entries ;;;
  wal_flush ;;;
  clear_cache ;;;
  should_flush ⇐ put_entries entries false ;;
  when should_flush flush_memtable.

Definition bulk_ingest (entries : list (bytes * bytes)) : EM nat :=
  match entries with
  | [] => ret 0%nat
  | _ =>
      wal_append_all entries ;;;
      wal_flush ;;;
      clear_cache ;;;
      _ ⇐ put_entries entries false ;;
      (fun e => when (Memtable.should_flush (memtable e)) flush_memtable e) ;;;
      ret (length entries)
  end.

Definition delete (key : bytes) : EM unit :=
  wal_append key [] ;;;
  wal_flush ;;;
  should_flush ⇐ memtable_delete key ;;
  modify (count_ops 0 0 1) ;;;
  cache_invalidate key ;;;
  index_delete key ;;;
  state_delete key ;;;
  when should_flush flush_memtable.

(** *** Reads *)

(** The newest of the frozen memtables that mentions the key. *)
Fixpoint find_frozen (newest_first : list Memtable) (key : bytes) : option MemEntry :=
  match newest_first with
  | [] => None
  | m :: ms => match Memtable.get_entry m key with Some en => Some en | None => find_frozen ms key end
  end.

Definition get (e0 : Engine) (key : bytes) : option bytes * Engine :=
  let e := count_ops 0 1 0 e0 in
  match Memtable.get_entry (memtable e) key with
  | Some en => (Memtable.value en, e)
  | None =>
      match find_frozen (rev (frozen e)) key with
      | Some en => (Memtable.value en, e)
      | None =>
          match Cache.get (cache e) key with
          | (Some v, c) => (Some v, set_cache c e)
          | (None, c) =>
              let result := Compaction.get (compaction (compactor e)) key in
              (result, set_cache (match result with
                                  | Some v => Cache.insert iter c key v
                                  | None => c
                                  end) e)
          end
      end
  end.

(** [get_profiled], without its timings. *)
Definition get_profiled (e0 : Engine) (key : bytes) : option bytes * Engine :=
  let e := count_ops 0 1 0 e0 in
  let entry := Memtable.get_entry (memtable e) key in
  let frozen_entry := match entry with None => find_frozen (rev (frozen e)) key | Some _ => None end in
  match (match entry with Some en => Some en | None => frozen_entry end) with
  | Some en => (Memtable.value en, e)
  | None =>
      match Cache.get (cache e) key with
      | (Some v, c) => (Some v, set_cache c e)
      | (None, c) =>
          let result := Compaction.get (compaction (compactor e)) key in
          (result, set_cache (match result with
                              | Some v => Cache.insert iter c key v
                              | None => c
                              end) e)
      end
  end.

Lemma get_profiled_get e key : get_profiled e key = get e key.
Proof.
  unfold get_profiled, get. destruct (Memtable.get_entry _ key); [done|]. by destruct (find_frozen _ key).
Qed.

Definition live (l : list (bytes * MemEntry)) : list (bytes * bytes) :=
  omap (fun ke => v ← Memtable.value ke.2; Some (ke.1, v)) l.

(** Entries laid over older results, tombstones removing. *)
Definition overlay (m : gmap bytes bytes) (l : list (bytes * MemEntry)) : gmap bytes bytes :=
  foldl (fun m ke => match Memtable.value ke.2 with
                     | Some v => <[ke.1 := v]> m
                     | None => base.delete ke.1 m
                     end) m l.

Fixpoint overlay_frozen (ms : list Memtable) (start end_ : bytes) (m : gmap bytes bytes)
    : res bytes (gmap bytes bytes) :=
  match ms with
  | [] => Ok m
  | f :: ms' => l ← Memtable.range f start end_; overlay_frozen ms' start end_ (overlay m l)
  end.

Definition scan (e : Engine) (start end_ : bytes) : res bytes (list (bytes * bytes)) :=
  if bool_decide (frozen e = []) && (flush_count e =? 0) then
    l ← Memtable.range (memtable e) start end_; Ok (live l)
  else
    let results := Compaction.scan (compaction (compactor e)) start end_ in
    results ← overlay_frozen (frozen e) start end_ results;
    l ← Memtable.range (memtable e) start end_;
    Ok (bt_entries (overlay results l)).

(** *** Lifecycle *)
Definition flush : EM unit := fun e =>
  if Memtable.is_empty (memtable e) then (Ok tt, e) else flush_memtable e.

Definition sync : EM unit := fun e =>
  let '(w, ok) := Wal.sync (wal e) in
  (if ok then Ok tt else Err io_error, set_wal w e).

(** What the data directory holds. *)
Record DataDir := mkDir {
  wal_file : option bytes;
  pages_dir : fs;
  hnsw_file : option bytes;
  graph_file : option bytes
}.

(** [close]: flush, sync, write the index files there are, over those of the
    directory, and wait for the worker to empty its channel and stop. *)
Definition close (io : nat) (dir : DataDir) (e : Engine) : res bytes DataDir :=
  match (flush ;;; sync) e with
  | (Ok _, e1) =>
      let '(h, g) := idx_save (indices e1) in
      let c := BgCompaction.shutdown (compactor e1) in
      let c' := drain_worker deflate read_dir (length (queue c)) io c in
      Ok {| wal_file := Some (file (wal e1)); pages_dir := default ∅ (disk c');
            hnsw_file := match h with Some _ => h | None => hnsw_file dir end;
            graph_file := match g with Some _ => g | None => graph_file dir end |}
  | (Err x, _) => Err x
  | (Panic, _) => Panic
  end.

(** One record of the replay: an empty value is a tombstone. *)
Definition replay_record (mi : res bytes (Memtable * I)) (r : WalRecord) : res bytes (Memtable * I) :=
  '(m, i) ← mi;
  let key := Wal.key r in
  let value := Wal.value r in
  match value with
  | [] => Ok ((Memtable.delete m key).1, i)
  | _ => match idx_replay_put i key (utf8_or_empty key) (utf8_or_empty value) with
         | Ok i' => Ok ((Memtable.put m key value).1, i')
         | _ => Panic
         end
  end.

(** The trie is rebuilt from what the memtable holds after the replay. *)
Definition rebuild_state (entries : list (bytes * MemEntry)) : res bytes Hamt :=
  foldl (fun acc ke =>
    h ← acc;
    match Memtable.value ke.2 with
    | Some v => match Hamt.put h ke.1 v with Ok h' => Ok h' | _ => Panic end
    | None => Ok h
    end) (Ok Hamt.new) entries.

Definition load_levels (levels : list (list Page)) (cm : CompactionManager) : CompactionManager :=
  foldl (fun cm lp => Compaction.load_pages cm lp.1 lp.2) cm (imap pair levels).

Definition open (threshold : Z) (dir : DataDir) : res bytes Engine :=
  levels ← load_all inflate read_dir (pages_dir dir);
  let c0 := BgCompaction.new (Some (pages_dir dir)) in
  let c1 := {| queue := queue c0; running := running c0;
               compaction := load_levels levels (compaction c0); disk := disk c0 |} in
  let i1 := idx_load (hnsw_file dir) (graph_file dir) idx_new in
  '(m1, i2) ← (match wal_file dir with
               | Some f => foldl replay_record (Ok (Memtable.new threshold, i1)) (replay crc f).1
               | None => Ok (Memtable.new threshold, i1)
               end);
  '(m2, c2) ← (if bool_decide (is_Some (wal_file dir)) && Memtable.should_flush m1 then
                 let '(page, m') := memtable_to_page m1 in
                 match page with
                 | Ok p => Ok (m', match BgCompaction.submit c1 p with Ok c => c | _ => c1 end)
                 | _ => Panic
                 end
               else Ok (m1, c1));
  st ← rebuild_state (Memtable.iter m2);
  Ok {| wal := Wal.open (default [] (wal_file dir)); memtable := m2; frozen := [];
        flush_threshold := threshold; compactor := c2; indices := i2; state := st; snapshots := ∅;
        snapshot_counter := 0; flush_count := 0; total_puts := 0; total_gets := 0;
        total_deletes := 0; cache := Cache.new 1024 |}.

(** *** Snapshots and branches *)
Definition snapshot_create (name : bytes) : EM bytes := fun e =>
  let '(id, counter) :=
    match name with
    | [] => let n := u64 (snapshot_counter e + 1) in (str "snap-" ++ zero_pad 4 (dec n), n)
    | _ => (name, snapshot_counter e)
    end in
  (Ok id, set_snapshots (<[id := Hamt.snapshot (state e)]> (snapshots e)) counter e).

Definition snapshot_restore (name : bytes) : EM unit := fun e =>
  match snapshots e !! name with
  | Some snap => (Ok tt, set_state snap e)
  | None => (Err (str "snapshot not found: " ++ name), e)
  end.

Definition remove_snapshot (name : bytes) : EM bool := fun e =>
  (Ok (bool_decide (is_Some (snapshots e !! name))),
   set_snapshots (base.delete name (snapshots e)) (snapshot_counter e) e).

Definition snapshot_delete : bytes -> EM bool := remove_snapshot.
Definition branch_rollback : bytes -> EM bool := remove_snapshot.

Definition snapshot_list (e : Engine) : list bytes := (map_to_list (snapshots e)).*1.
Definition snapshot_count (e : Engine) : nat := size (snapshots e).

Definition snapshot_get (e : Engine) (name key : bytes) : res unit (option bytes) :=
  match snapshots e !! name with Some h => Hamt.get h key | None => Ok None end.

Definition branch_create (branch_id from_snapshot : bytes) : EM bytes := fun e =>
  match (match from_snapshot with [] => Some (Hamt.snapshot (state e)) | _ => snapshots e !! from_snapshot end) with
  | Some base => (Ok branch_id, set_snapshots (<[branch_id := base]> (snapshots e)) (snapshot_counter e) e)
  | None => (Err (str "source snapshot not found: " ++ from_snapshot), e)
  end.

(** The merge loop: no log flush, no threshold check, no cache invalidation. *)
Fixpoint merge_entries (entries : list (bytes * bytes)) : EM unit :=
  match entries with
  | [] => ret tt
  | kv :: entries' =>
      state_put kv.1 kv.2 ;;;
      (fun e => match wal_append kv.1 kv.2 e with
                | (Err x, e') => (Err (str "WAL write failed during merge: " ++ x), e')
                | r => r
                end) ;;;
      _ ⇐ memtable_put kv.1 kv.2 ;;
      index_put kv.1 kv.2 ;;;
      merge_entries entries'
  end.

Definition branch_merge (branch_id : bytes) : EM nat := fun e =>
  match snapshots e !! branch_id with
  | None => (Err (str "branch not found: " ++ branch_id), e)
  | Some branch =>
      let entries := Hamt.iter branch in
      (merge_entries entries ;;;
       modify (fun e => set_snapshots (base.delete branch_id (snapshots e)) (snapshot_counter e) e) ;;;
       ret (length entries)) e
  end.

(** The differences in the order they are found: key, live value, branch value. *)
Definition diff_branch (st : Hamt) (kv : bytes * bytes) : res unit (option (bytes * option bytes * option bytes)) :=
  live_val ← Hamt.get st kv.1;
  Ok (if bool_decide (live_val = Some kv.2) then None else Some (kv.1, live_val, Some kv.2)).

Definition diff_live (branch : Hamt) (kv : bytes * bytes) : res unit (option (bytes * option bytes * option bytes)) :=
  b ← Hamt.get branch kv.1;
  Ok (match b with None => Some (kv.1, Some kv.2, None) | Some _ => None end).

Fixpoint collect {A B} (f : A -> res unit (option B)) (l : list A) : res unit (list B) :=
  match l with
  | [] => Ok []
  | x :: l' => o ← f x; rest ← collect f l'; Ok (match o with Some y => y :: rest | None => rest end)
  end.

Definition branch_diff (e : Engine) (branch_id : bytes)
    : res bytes (list (bytes * option bytes * option bytes)) :=
  branch ← ok_or (snapshots e !! branch_id) (str "branch not found: " ++ branch_id);
  match collect (diff_branch (state e)) (Hamt.iter branch), collect (diff_live branch) (Hamt.iter (state e)) with
  | Ok d1, Ok d2 => Ok (d1 ++ d2)
  | _, _ => Panic
  end.

(** Everything else that happens between operations: the worker's steps. *)
Definition engine_worker (io : nat) (e : Engine) : option Engine :=
  c ← worker_step deflate read_dir io (compactor e); Some (set_compactor c e).
End engine.
