(* ===== verification/EngineSpec.v ===== *)
(** * What the storage engine promises

    The engine refines a finite map of bytes to bytes when the worker catches up
    after each operation, no flush fills level 0 with pages that disagree, the keys
    have distinct hashes and the entries stay below the limit. *)

From S2P Require Import Prelude Ordered Text Float Fnv Bloom Memtable Wal Page PageStore Compaction BgCompaction Cache Hamt IndexApi Engine.
Local Open Scope Z_scope.

(** ** The page of a memtable *)
Lemma push_all_records l : forall p, records (foldl (fun p ke =>
      Page.push p ke.1 (default [] (Memtable.value ke.2))
        (match Memtable.value ke.2 with None => true | Some _ => false end)) p l) =
  records p ++ ((fun ke => {| Page.key := ke.1; Page.value := default [] (Memtable.value ke.2);
                    tombstone := match Memtable.value ke.2 with None => true | Some _ => false end |}) <$> l).
Proof.
  induction l as [|ke l IH]; intros p; cbn [foldl fmap list_fmap]; [by rewrite app_nil_r|].
  rewrite IH. cbn. by rewrite <- app_assoc.
Qed.

Definition memtable_page (m : gmap bytes MemEntry) : Page := entries_page (bt_entries m).

Lemma memtable_page_records m : records (memtable_page m) =
  (fun ke => {| Page.key := ke.1; Page.value := default [] (Memtable.value ke.2);
                tombstone := match Memtable.value ke.2 with None => true | Some _ => false end |}) <$> bt_entries m.
Proof.
  unfold memtable_page, entries_page. cbn [Page.sort records]. rewrite push_all_records. cbn [Page.new records app].
  apply sort_by_key_id. rewrite <- list_fmap_compose. apply bt_entries_sorted.
Qed.

Lemma memtable_page_sorted m : sorted_page (memtable_page m).
Proof. unfold sorted_page. rewrite memtable_page_records, <- list_fmap_compose. apply bt_entries_sorted. Qed.

Lemma memtable_page_view m : rec_map (records (memtable_page m)) = Memtable.value <$> m.
Proof.
  unfold rec_map. rewrite memtable_page_records, <- list_fmap_compose.
  rewrite <- (list_to_map_bt_entries m) at 2. rewrite <- list_to_map_fmap. f_equal.
  apply list_fmap_ext. intros i [k en] _. cbn. unfold rec_val. cbn. by destruct (Memtable.value en).
Qed.

Lemma length_memtable_page m : length (records (memtable_page m)) = size m.
Proof. by rewrite memtable_page_records, length_fmap, length_bt_entries. Qed.

(** ** Cache coherence *)
Lemma cache_insert_lookup iter c k v k' en : Cache.entries (Cache.insert iter c k v) !! k' = Some en ->
  (k' = k /\ Cache.value en = v) \/ exists en0, Cache.entries c !! k' = Some en0 /\ Cache.value en = Cache.value en0.
Proof.
  unfold Cache.insert. destruct (Cache.entries c !! k) as [e0|] eqn:E; cbn [Cache.entries]; rewrite lookup_insert;
    (case_decide as Hk; [intros [= <-]; by left|]); [eauto|].
  destruct (_ <=? _)%nat; [|eauto]. unfold evict. destruct (foldl _ _ _).2 as [km|]; [|eauto].
  intros [_ H]%lookup_delete_Some. eauto.
Qed.

Lemma cache_get_lookup c k k' en : Cache.entries (Cache.get c k).2 !! k' = Some en ->
  exists en0, Cache.entries c !! k' = Some en0 /\ Cache.value en = Cache.value en0.
Proof.
  unfold Cache.get. destruct (Cache.entries c !! k) as [e0|] eqn:E; cbn; [|eauto].
  rewrite lookup_insert. case_decide; [intros [= <-]; subst|]; eauto.
Qed.

Lemma no_collision_put (ks : gset bytes) h k : no_collision ks -> dom (Hamt.view h) ⊆ ks -> k ∈ ks ->
  no_collision ({[k]} ∪ dom (Hamt.view h)).
Proof. intros Hks Hd Hk a b Ha Hb. apply Hks; set_solver. Qed.

Definition recs (kvs : list (bytes * bytes)) : list WalRecord := (fun kv => mkRecord kv.1 kv.2) <$> kvs.

Section spec.
Context (crc : bytes -> Z) (deflate : bytes -> bytes) (inflate : bytes -> option bytes).
Context (read_dir : fs -> list bytes) (ln : f64 -> f64).
Context (iter : gmap bytes CacheEntry -> list (bytes * CacheEntry)).
Context {I : Type} `{Hops : IndexOps I} `{Hlaws : !IndexLaws I}.
Implicit Types (e : Engine (I := I)).

(** The keys in use have distinct 64-bit hashes; Bloom filters of fewer than [cap]
    keys fit the address space. *)
Context (ks : gset bytes) (Hks : no_collision ks).
Context (cap : Z) (Hcap : cap <= 2 ^ 63).
Context (Hln : forall n, Z.of_nat n < cap -> bloom_fits ln n).

(** What a key reads as when no page is waiting in the channel. *)
Definition content e (k : bytes) : option bytes :=
  match Memtable.entries (memtable e) !! k with
  | Some en => Memtable.value en
  | None => Compaction.get (compaction (compactor e)) k
  end.

(** The invariant of an engine whose worker has caught up, after [n] operations. *)
Record engine_inv (n : Z) e : Prop := {
  inv_faults : faults (wal e) = [];
  inv_idx : idx_wf (indices e);
  inv_state : hamt_wf (state e);
  inv_keys : dom (Hamt.view (state e)) ⊆ ks;
  inv_content : forall k, Hamt.view (state e) !! k = content e k;
  inv_running : running (compactor e) = true;
  inv_queue : queue (compactor e) = [];
  inv_levels : cm_wf (compaction (compactor e));
  inv_frozen : Forall (fun m => Memtable.entries m = ∅) (frozen e);
  inv_cache : forall k en, Cache.entries (cache e) !! k = Some en -> content e k = Some (Cache.value en);
  inv_size : Z.of_nat (size (Memtable.entries (memtable e))) <= n;
  inv_flushes : 0 <= flush_count e <= n;
  inv_fast : flush_count e = 0 -> frozen e = [] /\ forall k, Compaction.get (compaction (compactor e)) k = None
}.

(** What the indices are told of writes, a deletion being a write of nothing. *)
Definition idx_write (r : res unit I) (w : bytes * option bytes) : res unit I :=
  i ← r; match w.2 with Some v => idx_on_put i w.1 v | None => idx_on_delete i w.1 end.

Definition idx_writes (i : I) (ws : list (bytes * option bytes)) : res unit I := foldl idx_write (Ok i) ws.

Definition puts (kvs : list (bytes * bytes)) : list (bytes * option bytes) := (fun kv => (kv.1, Some kv.2)) <$> kvs.

(** *** Writes *)
Lemma store_lookup m k v k' : Memtable.entries (Memtable.store m k v) !! k' =
  if decide (k = k') then Some {| Memtable.value := v; seq := u64 (next_seq m + 1) |} else Memtable.entries m !! k'.
Proof. unfold Memtable.store. cbn [Memtable.entries]. apply lookup_insert. Qed.

Lemma inv_write n e e' k (v : option bytes) :
  engine_inv n e -> k ∈ ks ->
  faults (wal e') = [] -> idx_wf (indices e') -> hamt_wf (state e') ->
  Hamt.view (state e') = match v with Some v => <[k := v]> (Hamt.view (state e)) | None => base.delete k (Hamt.view (state e)) end ->
  memtable e' = Memtable.store (memtable e) k v ->
  compactor e' = compactor e -> frozen e' = frozen e -> flush_count e' = flush_count e ->
  Cache.entries (cache e') = base.delete k (Cache.entries (cache e)) ->
  engine_inv (n + 1) e'.
Proof.
  intros [] Hk Hf Hi Hs Hv Hm Hc Hfr Hfc Hca.
  assert (forall k', content e' k' = if decide (k = k') then v else content e k') as Hcon.
  { intros k'. unfold content. rewrite Hm, Hc, store_lookup. by case_decide. }
  split; rewrite ?Hc, ?Hfr, ?Hfc; auto.
  - rewrite Hv. clear -inv_keys0 Hk. destruct v; set_solver.
  - intros k'. rewrite Hcon, Hv, <- inv_content0. destruct v; [apply lookup_insert|apply lookup_delete].
  - intros k' en. rewrite Hca, Hcon, lookup_delete. case_decide; [done|apply inv_cache0].
  - rewrite Hm. unfold Memtable.store. cbn [Memtable.entries].
    rewrite map_size_insert. destruct (_ !! k); cbn [id]; unfold id; lia.
  - lia.
Qed.

Lemma log_record e key value : faults (wal e) = [] -> exists w,
  faults w = [] /\ file w = (file (wal e) ++ buf (wal e)) ++ Wal.serialize crc key value /\ buf w = [] /\
  forall A (f : EM A), bind (wal_append crc key value) (fun _ => bind wal_flush (fun _ => f)) e = f (set_wal w e).
Proof.
  intros Hf. destruct (append_ok crc (wal e) key value Hf) as (w1 & E1 & Hf1 & Hd).
  destruct (flush_buf_ok w1 Hf1) as (w2 & Hfl & Hf2 & Hb2 & Hd2).
  exists w2. rewrite Hd2, Hd. split_and!; [done..|]. intros A f. unfold bind, wal_append, wal_flush.
  rewrite E1. unfold Wal.flush. cbn [wal set_wal]. by rewrite Hfl.
Qed.

(** A put, up to the flush it may trigger. *)
Lemma put_ok n e k v : engine_inv n e -> k ∈ ks -> exists e',
  put crc ln k v e = when (Memtable.should_flush (Memtable.store (memtable e) k (Some v))) (flush_memtable ln) e' /\
  engine_inv (n + 1) e' /\ Hamt.view (state e') = <[k := v]> (Hamt.view (state e)) /\
  memtable e' = Memtable.store (memtable e) k (Some v) /\ compactor e' = compactor e /\
  Engine.flush_threshold e' = Engine.flush_threshold e /\
  file (wal e') = (file (wal e) ++ buf (wal e)) ++ Wal.serialize crc k v /\ buf (wal e') = [] /\
  Cache.entries (cache e') = base.delete k (Cache.entries (cache e)) /\
  idx_writes (indices e) [(k, Some v)] = Ok (indices e').
Proof.
  intros Hinv Hk. pose proof Hinv as [].
  destruct (log_record e k v inv_faults0) as (w & Hw1 & Hw2 & Hw3 & Elog).
  destruct (idx_on_put_wf (indices e) k v inv_idx0) as (i & Ei & Hi).
  destruct (put_spec (state e) k v inv_state0 (no_collision_put ks _ _ Hks inv_keys0 Hk)) as (h & Eh & Hh & Hv).
  set (e1 := count_ops 1 0 0 (set_memtable (Memtable.store (memtable e) k (Some v)) (set_wal w e))).
  set (e2 := if Cache.is_empty (cache e1) then e1 else set_cache (Cache.invalidate (cache e1) k) e1).
  set (e3 := set_state h (set_indices i e2)).
  assert (put crc ln k v e = when (Memtable.should_flush (Memtable.store (memtable e) k (Some v))) (flush_memtable ln) e3) as Eput.
  { unfold put. rewrite Elog.
    unfold bind, memtable_put, Memtable.put, modify, cache_invalidate. cbn [memtable set_wal]. cbn [fst snd].
    fold e1. unfold index_put, bind, lift. assert (indices e2 = indices e) as E2 by (unfold e2; by destruct (Cache.is_empty _)).
    fold e2. rewrite E2, Ei. unfold state_put, bind, lift, modify. cbn [state set_indices].
    assert (state e2 = state e) as E3 by (unfold e2; by destruct (Cache.is_empty _)).
    by rewrite E3, Eh. }
  assert (Cache.entries (cache e3) = base.delete k (Cache.entries (cache e))) as Hca.
  { unfold e3, e2. destruct (Cache.is_empty (cache e1)) eqn:Ec; [|done].
    cbn [cache set_state set_indices e1 count_ops set_memtable set_wal].
    symmetry. apply delete_id. cbn in Ec. unfold Cache.is_empty in Ec. apply Nat.eqb_eq, map_size_empty_inv in Ec.
    by rewrite Ec, lookup_empty. }
  exists e3. split; [exact Eput|]. split; [|revert Hca; unfold e3, e2, idx_writes, idx_write; cbn [foldl fst snd mbind res_bind]; rewrite Ei; by destruct (Cache.is_empty (cache e1))].
  apply (inv_write n e _ k (Some v)); auto; unfold e3, e2; by destruct (Cache.is_empty (cache e1)).
Qed.

Lemma delete_ok n e k : engine_inv n e -> k ∈ ks -> exists e',
  Engine.delete crc ln k e = when (Memtable.should_flush (Memtable.store (memtable e) k None)) (flush_memtable ln) e' /\
  engine_inv (n + 1) e' /\ Hamt.view (state e') = base.delete k (Hamt.view (state e)) /\
  memtable e' = Memtable.store (memtable e) k None /\ compactor e' = compactor e /\
  Engine.flush_threshold e' = Engine.flush_threshold e /\
  file (wal e') = (file (wal e) ++ buf (wal e)) ++ Wal.serialize crc k [] /\ buf (wal e') = [] /\
  idx_writes (indices e) [(k, None)] = Ok (indices e').
Proof.
  intros Hinv Hk. pose proof Hinv as [].
  destruct (log_record e k [] inv_faults0) as (w & Hw1 & Hw2 & Hw3 & Elog).
  destruct (idx_on_delete_wf (indices e) k inv_idx0) as (i & Ei & Hi).
  destruct (delete_spec (state e) k inv_state0) as (h & Eh & Hh & Hv).
  set (e1 := count_ops 0 0 1 (set_memtable (Memtable.store (memtable e) k None) (set_wal w e))).
  set (e2 := if Cache.is_empty (cache e1) then e1 else set_cache (Cache.invalidate (cache e1) k) e1).
  set (e3 := set_state h (set_indices i e2)).
  assert (Engine.delete crc ln k e = when (Memtable.should_flush (Memtable.store (memtable e) k None)) (flush_memtable ln) e3) as Eput.
  { unfold Engine.delete. rewrite Elog.
    unfold bind, memtable_delete, Memtable.delete, modify, cache_invalidate. cbn [memtable set_wal]. cbn [fst snd].
    fold e1. unfold index_delete, bind, lift. assert (indices e2 = indices e) as E2 by (unfold e2; by destruct (Cache.is_empty _)).
    fold e2. rewrite E2, Ei. unfold state_delete, bind, lift, modify. cbn [state set_indices].
    assert (state e2 = state e) as E3 by (unfold e2; by destruct (Cache.is_empty _)).
    by rewrite E3, Eh. }
  exists e3. split; [exact Eput|]. assert (idx_writes (indices e) [(k, None)] = Ok (indices e3)) as Hidx.
  { unfold e3, e2, idx_writes, idx_write. cbn [foldl fst snd mbind res_bind]. rewrite Ei. by destruct (Cache.is_empty (cache e1)). }
  revert Hidx. unfold e3, e2. destruct (Cache.is_empty (cache e1)) eqn:Ec; intros Hidx.
  - split; [|done]. apply (inv_write n e _ k None); auto. cbn [cache set_state set_indices e1 count_ops set_memtable set_wal].
    symmetry. apply delete_id. cbn in Ec. unfold Cache.is_empty in Ec. apply Nat.eqb_eq, map_size_empty_inv in Ec.
    by rewrite Ec, lookup_empty.
  - split; [|done]. by apply (inv_write n e _ k None).
Qed.

(** A batch of writes: every record is logged, then the log is flushed. *)
Lemma wal_append_all_ok kvs : forall e, faults (wal e) = [] -> exists w,
  wal_append_all crc kvs e = (Ok tt, set_wal w e) /\ faults w = [] /\
  file w ++ buf w = (file (wal e) ++ buf (wal e)) ++ log_bytes crc (recs kvs).
Proof.
  induction kvs as [|[k v] kvs IH]; intros e Hf; cbn [wal_append_all].
  - exists (wal e). split_and!; [by destruct e|done|]. cbn. by rewrite app_nil_r.
  - unfold bind at 1. unfold wal_append. cbn [fst snd].
    destruct (append_ok crc (wal e) k v Hf) as (w1 & -> & Hf1 & Hd1).
    destruct (IH (set_wal w1 e) Hf1) as (w & -> & Hw & Hd). exists w. split_and!; [done..|].
    rewrite Hd. cbn [wal set_wal]. rewrite Hd1. unfold recs. cbn [fmap list_fmap log_bytes Wal.key Wal.value fst snd].
    unfold ser. cbn [Wal.key Wal.value]. by rewrite app_assoc.
Qed.

Lemma log_records e kvs : faults (wal e) = [] -> exists w,
  faults w = [] /\ file w = (file (wal e) ++ buf (wal e)) ++ log_bytes crc (recs kvs) /\ buf w = [] /\
  forall A (f : EM A), bind (wal_append_all crc kvs) (fun _ => bind wal_flush (fun _ => f)) e = f (set_wal w e).
Proof.
  intros Hf. destruct (wal_append_all_ok kvs e Hf) as (w1 & E & Hf1 & Hd).
  destruct (flush_buf_ok w1 Hf1) as (w2 & Hfl & Hf2 & Hb2 & Hd2).
  exists w2. rewrite Hd2, Hd. split_and!; [done..|]. intros A f.
  unfold bind. rewrite E. unfold wal_flush, Wal.flush. cbn [wal set_wal]. by rewrite Hfl.
Qed.

(** The memtable after a batch, and whether one of its puts reached the threshold. *)
Definition put_kvs (m : Memtable) (kvs : list (bytes * bytes)) : Memtable :=
  foldl (fun m kv => Memtable.store m kv.1 (Some kv.2)) m kvs.

Fixpoint batch_flag (m : Memtable) (kvs : list (bytes * bytes)) : bool :=
  match kvs with
  | [] => false
  | kv :: kvs' => let m' := Memtable.store m kv.1 (Some kv.2) in Memtable.should_flush m' || batch_flag m' kvs'
  end.

Definition insert_kvs (m : gmap bytes bytes) (kvs : list (bytes * bytes)) : gmap bytes bytes :=
  foldl (fun m kv => <[kv.1 := kv.2]> m) m kvs.

Lemma put_entries_ok kvs : forall n e f, engine_inv n e -> (forall kv, kv ∈ kvs -> kv.1 ∈ ks) -> Cache.entries (cache e) = ∅ ->
  exists e', put_entries kvs f e = (Ok (f || batch_flag (memtable e) kvs), e') /\
  engine_inv (n + Z.of_nat (length kvs)) e' /\ Hamt.view (state e') = insert_kvs (Hamt.view (state e)) kvs /\
  memtable e' = put_kvs (memtable e) kvs /\ compactor e' = compactor e /\
  idx_writes (indices e) (puts kvs) = Ok (indices e').
Proof.
  induction kvs as [|[k v] kvs IH]; intros n e f Hinv Hk Hca.
  { exists e. cbn. rewrite orb_false_r, Z.add_0_r. done. }
  pose proof Hinv as [].
  destruct (idx_on_put_wf (indices e) k v inv_idx0) as (i & Ei & Hi).
  destruct (put_spec (state e) k v inv_state0) as (h & Eh & Hh & Hv).
  { apply no_collision_put with ks; [done..|]. apply (Hk (k, v)). left. }
  set (e1 := set_state h (set_indices i (count_ops 1 0 0 (set_memtable (Memtable.store (memtable e) k (Some v)) e)))).
  assert (engine_inv (n + 1) e1) as Hinv1.
  { apply (inv_write n e _ k (Some v)); auto; [apply (Hk (k, v)); left|].
    unfold e1. cbn [cache set_state set_indices count_ops set_memtable]. by rewrite Hca, delete_empty. }
  destruct (IH (n + 1) e1 (f || Memtable.should_flush (Memtable.store (memtable e) k (Some v))) Hinv1) as (e' & E & Hinv' & Hv' & Hm & Hc & Hix).
  { intros kv Hkv. apply Hk. by right. }
  { done. }
  exists e'. split_and!; [|by replace (n + Z.of_nat (length ((k, v) :: kvs))) with (n + 1 + Z.of_nat (length kvs)) by (cbn [length]; lia)| |done|done|].
  - cbn [put_entries fst snd batch_flag]. rewrite orb_assoc. change (memtable e1) with (Memtable.store (memtable e) k (Some v)) in E. rewrite <- E.
    unfold bind, memtable_put, Memtable.put, modify. cbn [fst snd].
    unfold index_put, bind, lift, modify. cbn [indices set_memtable count_ops]. rewrite Ei.
    unfold state_put, bind, lift, modify. cbn [state set_indices count_ops set_memtable]. rewrite Eh. done.
  - rewrite Hv'. unfold e1. cbn [state set_state]. by rewrite Hv.
  - unfold idx_writes, idx_write in *. cbn [puts fmap list_fmap foldl fst snd mbind res_bind]. by rewrite Ei.
Qed.

Lemma inv_clear n e w : engine_inv n e -> faults w = [] -> engine_inv n (set_cache (Cache.clear (cache e)) (set_wal w e)).
Proof.
  intros [] Hw. split; auto. intros k en. cbn [cache set_cache Cache.clear Cache.entries]. by rewrite lookup_empty.
Qed.

Lemma put_batch_ok n e kvs : engine_inv n e -> (forall kv, kv ∈ kvs -> kv.1 ∈ ks) -> exists e',
  put_batch crc ln kvs e = when (batch_flag (memtable e) kvs) (flush_memtable ln) e' /\
  engine_inv (n + Z.of_nat (length kvs)) e' /\ Hamt.view (state e') = insert_kvs (Hamt.view (state e)) kvs /\
  memtable e' = put_kvs (memtable e) kvs /\ compactor e' = compactor e /\
  idx_writes (indices e) (puts kvs) = Ok (indices e').
Proof.
  intros Hinv Hk. destruct (log_records e kvs (inv_faults _ _ Hinv)) as (w & Hw & _ & _ & Elog).
  destruct (put_entries_ok kvs n _ false (inv_clear n e w Hinv Hw) Hk eq_refl) as (e' & E & Hinv' & Hv & Hm & Hc & Hix).
  exists e'. split; [|done]. unfold put_batch. rewrite Elog. unfold bind, clear_cache, modify. cbn [cache set_wal].
  rewrite E. done.
Qed.

Lemma bulk_ingest_ok n e kvs : engine_inv n e -> (forall kv, kv ∈ kvs -> kv.1 ∈ ks) -> exists e',
  bulk_ingest crc ln kvs e = bind (when (match kvs with [] => false | _ => Memtable.should_flush (put_kvs (memtable e) kvs) end)
    (flush_memtable ln)) (fun _ => ret (length kvs)) e' /\
  engine_inv (n + Z.of_nat (length kvs)) e' /\ Hamt.view (state e') = insert_kvs (Hamt.view (state e)) kvs /\
  memtable e' = put_kvs (memtable e) kvs /\ compactor e' = compactor e /\
  idx_writes (indices e) (puts kvs) = Ok (indices e').
Proof.
  intros Hinv Hk. destruct kvs as [|kv kvs']; [exists e; split_and!; try done; by rewrite Z.add_0_r|].
  set (kvs := kv :: kvs') in *.
  destruct (log_records e kvs (inv_faults _ _ Hinv)) as (w & Hw & _ & _ & Elog).
  destruct (put_entries_ok kvs n _ false (inv_clear n e w Hinv Hw) Hk eq_refl) as (e' & E & Hinv' & Hv & Hm & Hc & Hix).
  exists e'. split; [|done]. unfold bulk_ingest. unfold kvs at 1. cbv iota. fold kvs. rewrite Elog. unfold bind, clear_cache, modify. cbn [cache set_wal].
  rewrite E, Hm. done.
Qed.

(** *** Flushing and the worker *)

(** The worker empties the channel. *)
Definition settle (io : nat) e : Engine (I := I) :=
  set_compactor (drain_worker deflate read_dir (length (queue (compactor e))) io (compactor e)) e.

Lemma settle_idle io e : queue (compactor e) = [] -> settle io e = e.
Proof. intros Hq. unfold settle. rewrite Hq. by destruct e. Qed.

(** The page a flush of this memtable submits. *)
Definition flushed_page e : Page := memtable_page (Memtable.entries (memtable e)).

Lemma trim_frozen_forall P l : Forall P l -> Forall P (trim_frozen l).
Proof. intros Hl. by apply Forall_drop. Qed.

(** What a flush leaves before the worker has run. *)
Lemma flush_memtable_gen e : Z.of_nat (size (Memtable.entries (memtable e))) < cap -> running (compactor e) = true ->
  queue (compactor e) = [] -> 0 <= flush_count e < 2 ^ 63 -> exists e' p,
  flush_memtable ln e = (Ok tt, e') /\ records p = records (flushed_page e) /\
  memtable e' = Memtable.new (Engine.flush_threshold e) /\
  compactor e' = mkBg [AddPage p] true (compaction (compactor e)) (disk (compactor e)) /\
  frozen e' = trim_frozen (frozen e ++ [(Memtable.drain (memtable e)).2]) /\
  wal e' = wal e /\ state e' = state e /\ cache e' = cache e /\ indices e' = indices e /\
  flush_count e' = flush_count e + 1 /\ snapshots e' = snapshots e /\
  Engine.flush_threshold e' = Engine.flush_threshold e.
Proof.
  intros Hsz Hr Hq Hfc. unfold flush_memtable, frozen_to_page, Memtable.drain. fold (flushed_page e).
  destruct (build_bloom_ok ln (flushed_page e)) as (bf & E).
  { apply Hln. unfold flushed_page. by rewrite length_memtable_page. }
  change (entries_page (bt_entries (Memtable.entries (memtable e)))) with (flushed_page e). rewrite E.
  unfold bind, lift, submit, BgCompaction.submit, modify. cbn [compactor set_memtable]. rewrite Hr, Hq.
  set (pg := flushed_page e) in *. clearbody pg.
  eexists _, (mkPage (records pg) (level pg) bf). split; [done|]. cbn. rewrite wrap_small by lia. done.
Qed.

Lemma flush_memtable_ok n e : engine_inv n e -> n < cap -> exists e' p,
  flush_memtable ln e = (Ok tt, e') /\ records p = records (flushed_page e) /\
  memtable e' = Memtable.new (Engine.flush_threshold e) /\
  compactor e' = mkBg [AddPage p] true (compaction (compactor e)) (disk (compactor e)) /\
  frozen e' = trim_frozen (frozen e ++ [(Memtable.drain (memtable e)).2]) /\
  wal e' = wal e /\ state e' = state e /\ cache e' = cache e /\ indices e' = indices e /\
  flush_count e' = flush_count e + 1 /\ snapshots e' = snapshots e /\
  Engine.flush_threshold e' = Engine.flush_threshold e.
Proof. intros [] Hn. apply flush_memtable_gen; [lia|done..|lia]. Qed.

Lemma rec_map_records p q : records p = records q -> rec_map (records p) = rec_map (records q).
Proof. congruence. Qed.

(** After a safe flush and the worker's step, nothing reads differently. *)
Lemma flush_settle n io e : engine_inv n e -> n < cap ->
  flush_safe (compaction (compactor e)) (flushed_page e) ->
  exists e', flush_memtable ln e = (Ok tt, e') /\ engine_inv (n + 1) (settle io e') /\
    state (settle io e') = state e /\ wal (settle io e') = wal e /\ indices (settle io e') = indices e.
Proof.
  intros Hinv Hn Hsafe. destruct (flush_memtable_ok n e Hinv Hn) as
    (e' & p & E & Hp & Hm & Hc & Hfr & Hw & Hs & Hca & Hi & Hfc & Hsn & Hth).
  exists e'. split; [exact E|]. destruct Hinv.
  assert (sorted_page p) as Hps by (unfold sorted_page; rewrite Hp; apply memtable_page_sorted).
  assert (flush_safe (compaction (compactor e)) p) as Hsafe'.
  { destruct Hsafe as [?|Hag]; [by left|right]. clear -Hag Hp.
    set (q := flushed_page e) in *. clearbody q.
    assert (forall a, pages_agree a q -> pages_agree a p) as Hpq.
    { intros a Ha k x y. rewrite (rec_map_records p q Hp). apply Ha. }
    induction (L0 (compaction (compactor e))) as [|a l IH]; [by repeat constructor|].
    cbn [app] in *. inversion Hag as [|? ? Ha Hl]; subst. constructor; [|auto].
    apply Forall_app in Ha as [Ha1 Ha2]. apply Forall_app. split; [done|].
    apply Forall_cons in Ha2 as [Ha2 _]. constructor; [eauto|constructor]. }
  assert (settle io e' = set_compactor (mkBg [] true (add_l0_page deflate (compaction (compactor e)) p)
    ((fun d => (save_all_cut deflate read_dir io d (all_pages (add_l0_page deflate (compaction (compactor e)) p))).1)
       <$> disk (compactor e))) e') as Es.
  { unfold settle. rewrite Hc. done. }
  rewrite Es. cbn [state wal indices set_compactor]. split; [|done].
  pose proof (add_l0_page_safe_get deflate (compaction (compactor e)) p) as Hget.
  assert (forall k, content (set_compactor (mkBg [] true (add_l0_page deflate (compaction (compactor e)) p)
    ((fun d => (save_all_cut deflate read_dir io d (all_pages (add_l0_page deflate (compaction (compactor e)) p))).1)
       <$> disk (compactor e))) e') k = content e k) as Hcon.
  { intros k. unfold content. cbn [memtable compactor set_compactor compaction]. rewrite Hm.
    cbn [Memtable.new Memtable.entries]. rewrite lookup_empty, Hget by done.
    rewrite Hp. unfold flushed_page. rewrite memtable_page_view, lookup_fmap.
    by destruct (Memtable.entries (memtable e) !! k). }
  split; cbn [wal indices state compactor frozen flush_count set_compactor queue running compaction];
    rewrite ?Hw, ?Hi, ?Hs, ?Hfc; auto.
  - intros k. by rewrite Hcon.
  - by apply add_l0_page_wf.
  - rewrite Hfr. apply trim_frozen_forall, Forall_app. split; [done|]. by repeat constructor.
  - intros k en. rewrite Hcon. cbn [cache set_compactor]. rewrite Hca. apply inv_cache0.
  - cbn [memtable set_compactor]. rewrite Hm. cbn. rewrite map_size_empty. lia.
  - lia.
  - lia.
Qed.

(** *** Reads *)
Lemma find_frozen_empty l k : Forall (fun m => Memtable.entries m = ∅) l -> find_frozen l k = None.
Proof.
  induction 1 as [|m l Hm Hl IH]; [done|]. cbn [find_frozen]. unfold Memtable.get_entry. by rewrite Hm, lookup_empty.
Qed.

(** A read that the cache does not mislead. *)
Lemma get_content e k : Forall (fun m => Memtable.entries m = ∅) (frozen e) ->
  (forall en, Memtable.entries (memtable e) !! k = None -> Cache.entries (cache e) !! k = Some en ->
    content e k = Some (Cache.value en)) ->
  (Engine.get iter e k).1 = content e k.
Proof.
  intros Hf Hca. unfold Engine.get, Memtable.get_entry, content in *. cbn [memtable frozen cache compactor count_ops].
  destruct (Memtable.entries (memtable e) !! k) as [en|]; [done|].
  rewrite find_frozen_empty by (rewrite rev_alt; by apply Forall_reverse).
  unfold Cache.get. destruct (Cache.entries (cache e) !! k) as [en|]; [|done]. cbn [fst]. by rewrite (Hca en).
Qed.

Lemma get_ok n e k : engine_inv n e ->
  (Engine.get iter e k).1 = content e k /\ engine_inv n (Engine.get iter e k).2 /\
  state (Engine.get iter e k).2 = state e /\ compactor (Engine.get iter e k).2 = compactor e /\
  wal (Engine.get iter e k).2 = wal e /\ indices (Engine.get iter e k).2 = indices e.
Proof.
  intros Hinv. pose proof Hinv as []. unfold Engine.get, Memtable.get_entry. cbn [memtable frozen cache compactor count_ops].
  assert (forall c, (forall k' en, Cache.entries c !! k' = Some en -> content e k' = Some (Cache.value en)) ->
    engine_inv n (set_cache c (count_ops 0 1 0 e))) as Hset by (intros c Hc; by split).
  assert (engine_inv n (count_ops 0 1 0 e)) as Hcount by (by split).
  destruct (Memtable.entries (memtable e) !! k) as [en|] eqn:Ek; [unfold content; by rewrite Ek|].
  rewrite find_frozen_empty by (rewrite rev_alt; by apply Forall_reverse).
  assert (content e k = Compaction.get (compaction (compactor e)) k) as Hck by (unfold content; by rewrite Ek).
  pose proof (cache_get_lookup (cache e) k) as Hcg.
  destruct (Cache.get (cache e) k) as [[v|] c] eqn:Ec; cbn [fst snd] in *.
  - split; [|split; [|done]].
    + unfold Cache.get in Ec. destruct (Cache.entries (cache e) !! k) as [en|] eqn:Een; [|done].
      injection Ec as <- _. symmetry. by apply inv_cache0.
    + apply Hset. intros k' en Hen. destruct (Hcg _ _ Hen) as (en0 & H0 & ->). by apply inv_cache0.
  - split; [done|]. split; [|done]. apply Hset.
    destruct (Compaction.get (compaction (compactor e)) k) as [v|] eqn:Eg; intros k' en Hen.
    + apply cache_insert_lookup in Hen as [[-> ->]|(en1 & H1 & ->)]; [done|].
      destruct (Hcg _ _ H1) as (en0 & H0 & ->). by apply inv_cache0.
    + destruct (Hcg _ _ Hen) as (en0 & H0 & ->). by apply inv_cache0.
Qed.

Lemma elem_of_live l k v : (k, v) ∈ live l <-> exists en, (k, en) ∈ l /\ Memtable.value en = Some v.
Proof.
  unfold live. rewrite list_elem_of_omap. split.
  - intros ([k' en] & Hin & E). cbn in E. destruct (Memtable.value en) as [v'|] eqn:Ev; [|done].
    injection E as <- <-. eauto.
  - intros (en & Hin & Ev). exists (k, en). cbn. by rewrite Ev.
Qed.

Lemma live_sorted l : keys_sorted l.*1 -> keys_sorted (live l).*1.
Proof.
  induction l as [|[k en] l IH]; intros Hs; [constructor|]. csimpl in Hs. apply StronglySorted_inv in Hs as [Hs Hk].
  unfold live. cbn [omap list_omap fst snd]. fold (live l).
  destruct (Memtable.value en) as [v|]; cbn [mbind option_bind]; [|by apply IH].
  csimpl. constructor; [by apply IH|]. rewrite Forall_forall in Hk |- *.
  intros k' ([k1 v1] & -> & (en1 & Hin & _)%elem_of_live)%list_elem_of_fmap. apply Hk. by apply (list_elem_of_fmap_2 fst) in Hin.
Qed.

Lemma overlay_lookup l : forall m k, NoDup l.*1 -> overlay m l !! k =
  match (list_to_map l : gmap bytes MemEntry) !! k with Some en => Memtable.value en | None => m !! k end.
Proof.
  induction l as [|[k0 en] l IH]; intros m k Hnd; [done|]. csimpl in Hnd. apply NoDup_cons in Hnd as [Hni Hnd].
  unfold overlay. cbn [foldl fst snd]. fold (overlay (match Memtable.value en with Some v => <[k0:=v]> m | None => base.delete k0 m end) l).
  rewrite IH, list_to_map_cons, lookup_insert by done. case_decide as E.
  - subst. rewrite not_elem_of_list_to_map_1 by done.
    destruct (Memtable.value en); [apply lookup_insert_eq|apply lookup_delete_eq].
  - destruct (list_to_map l !! k); [done|]. destruct (Memtable.value en); [by apply lookup_insert_ne|by apply lookup_delete_ne].
Qed.

Lemma overlay_frozen_empty ms s t m : Forall (fun f => Memtable.entries f = ∅) ms -> bytes_ltb t s = false ->
  overlay_frozen ms s t m = Ok m.
Proof.
  intros Hms Hst. induction Hms as [|f ms Hf Hms IH]; [done|]. cbn [overlay_frozen].
  unfold Memtable.range, bt_range. rewrite Hst, Hf, bt_entries_empty. exact IH.
Qed.

Lemma range_lookup m s t k : bytes_ltb t s = false -> exists l,
  Memtable.range (E := bytes) m s t = Ok l /\ keys_sorted l.*1 /\
  (forall en, (k, en) ∈ l <-> Memtable.entries m !! k = Some en /\ bytes_le s k /\ bytes_lt k t).
Proof.
  clear crc deflate inflate.
  intros Hst. unfold Memtable.range, bt_range. rewrite Hst. eexists. split; [done|]. split.
  - apply keys_sorted_filter, bt_entries_sorted.
  - intros en. rewrite list_elem_of_filter, elem_of_bt_entries. cbn. tauto.
Qed.

(** The result of a scan over a map. *)
Definition map_scan (m : gmap bytes bytes) (s t : bytes) : res bytes (list (bytes * bytes)) :=
  if bytes_ltb t s then Panic
  else Ok (filter (fun kv => bytes_le s kv.1 /\ bytes_lt kv.1 t) (bt_entries m)).

Lemma scan_ok n e s t : engine_inv n e -> Engine.scan e s t = map_scan (Hamt.view (state e)) s t.
Proof.
  clear crc deflate inflate. intros []. unfold Engine.scan, map_scan. destruct (bytes_ltb t s) eqn:Hst.
  { assert (forall m, Memtable.range (E := bytes) m s t = Panic) as Hp by (intros; unfold Memtable.range, bt_range; by rewrite Hst).
    destruct (_ && _); [by rewrite Hp|]. destruct (frozen e); cbn [overlay_frozen]; rewrite !Hp; done. }
  destruct (range_lookup (memtable e) s t [] Hst) as (l & El & Hl & _).
  assert (forall k en, (k, en) ∈ l <-> Memtable.entries (memtable e) !! k = Some en /\ bytes_le s k /\ bytes_lt k t) as Hin.
  { intros k en. destruct (range_lookup (memtable e) s t k Hst) as (l' & El' & _ & H'). rewrite El in El'.
    injection El' as <-. apply H'. }
  assert (forall l', keys_sorted l'.*1 -> (forall k v, (k, v) ∈ l' <-> content e k = Some v /\ bytes_le s k /\ bytes_lt k t) ->
    Ok (E := bytes) l' = Ok (filter (fun kv => bytes_le s kv.1 /\ bytes_lt kv.1 t) (bt_entries (Hamt.view (state e))))) as Heq.
  { intros l' Hs Hm. f_equal. apply sorted_assoc_unique; [done|apply keys_sorted_filter, bt_entries_sorted|].
    intros k v. rewrite Hm, list_elem_of_filter, elem_of_bt_entries, inv_content0. cbn. tauto. }
  rewrite El. destruct (bool_decide (frozen e = []) && (flush_count e =? 0)) eqn:Hfast; cbn [mbind res_bind].
  - apply andb_true_iff in Hfast as [_ Hz%Z.eqb_eq]. destruct (inv_fast0 Hz) as [_ Hempty].
    apply Heq; [by apply live_sorted|]. intros k v. rewrite elem_of_live. setoid_rewrite Hin. unfold content.
    clear -Hempty. destruct (Memtable.entries (memtable e) !! k) as [en|]; [|rewrite Hempty]; naive_solver.
  - rewrite overlay_frozen_empty by done. cbn [mbind res_bind]. apply Heq; [apply bt_entries_sorted|].
    intros k v. rewrite elem_of_bt_entries, overlay_lookup by (by apply keys_sorted_nodup).
    rewrite scan_lookup by done. unfold content.
    destruct (list_to_map (M := gmap bytes MemEntry) l !! k) as [en|] eqn:Ek.
    + apply elem_of_list_to_map_2, Hin in Ek as (-> & ? & ?). clear Heq Hin. tauto.
    + destruct (bool_decide_reflect (bytes_le s k ∧ bytes_lt k t)) as [Hr|Hr]; [|split; [intros [=]|intros (_ & Hy); destruct (Hr Hy)]].
      destruct (Memtable.entries (memtable e) !! k) as [en|] eqn:Em; [|clear Heq Hin; tauto].
      apply not_elem_of_list_to_map in Ek. destruct Ek. apply (list_elem_of_fmap_2 fst l (k, en)), Hin. done.
Qed.

(** ** The engine as a map *)
Inductive eop :=
  | EPut (key value : bytes)
  | EDelete (key : bytes)
  | EBatch (kvs : list (bytes * bytes))
  | EBulk (kvs : list (bytes * bytes))
  | EGet (key : bytes)
  | EScan (start end_ : bytes)
  | EFlush.

Inductive eout :=
  | OUnit
  | OCount (n : nat)
  | OValue (v : option bytes)
  | OEntries (l : list (bytes * bytes)).

(** The keys an operation writes. *)
Definition eop_keys (o : eop) : list bytes :=
  match o with EPut k _ | EDelete k => [k] | EBatch kvs | EBulk kvs => kvs.*1 | _ => [] end.

(** What it tells the indices. *)
Definition eop_writes (o : eop) : list (bytes * option bytes) :=
  match o with
  | EPut k v => [(k, Some v)]
  | EDelete k => [(k, None)]
  | EBatch kvs | EBulk kvs => puts kvs
  | _ => []
  end.

(** A bound on the entries and flushes an operation adds. *)
Definition eop_cost (o : eop) : Z := Z.of_nat (length (eop_keys o)) + 1.

Definition out {A} (f : A -> eout) (r : res bytes A * Engine (I := I)) : res bytes eout * Engine (I := I) := (f <$> r.1, r.2).

(** An operation on its own. *)
Definition do_eop e (o : eop) : res bytes eout * Engine (I := I) :=
  match o with
  | EPut k v => out (fun _ => OUnit) (put crc ln k v e)
  | EDelete k => out (fun _ => OUnit) (Engine.delete crc ln k e)
  | EBatch kvs => out (fun _ => OUnit) (put_batch crc ln kvs e)
  | EBulk kvs => out OCount (bulk_ingest crc ln kvs e)
  | EGet k => let '(v, e') := Engine.get iter e k in (Ok (OValue v), e')
  | EScan s t => (OEntries <$> Engine.scan e s t, e)
  | EFlush => out (fun _ => OUnit) (flush ln e)
  end.

Lemma out_ok {A} (f : A -> eout) m a e' : m = (Ok a, e') -> out f m = (Ok (f a), e').
Proof. by intros ->. Qed.

Lemma do_unit e o (m : EM unit) e' :
  do_eop e o = out (fun _ => OUnit) (m e) -> m e = (Ok tt, e') -> do_eop e o = (Ok OUnit, e').
Proof. intros -> E. by apply out_ok with (a := tt). Qed.

(** One operation, and the worker's catching up with it. *)
Definition run_eop (io : nat) e (o : eop) : res bytes eout * Engine (I := I) :=
  ((do_eop e o).1, settle io (do_eop e o).2).

Definition spec_eop (m : gmap bytes bytes) (o : eop) : res bytes eout * gmap bytes bytes :=
  match o with
  | EPut k v => (Ok OUnit, <[k := v]> m)
  | EDelete k => (Ok OUnit, base.delete k m)
  | EBatch kvs => (Ok OUnit, insert_kvs m kvs)
  | EBulk kvs => (Ok (OCount (length kvs)), insert_kvs m kvs)
  | EGet k => (Ok (OValue (m !! k)), m)
  | EScan s t => (OEntries <$> map_scan m s t, m)
  | EFlush => (Ok OUnit, m)
  end.

(** The memtable that a flush at the end of the operation would turn into a page. *)
Definition op_memtable e (o : eop) : Memtable :=
  match o with
  | EPut k v => Memtable.store (memtable e) k (Some v)
  | EDelete k => Memtable.store (memtable e) k None
  | EBatch kvs | EBulk kvs => put_kvs (memtable e) kvs
  | _ => memtable e
  end.

Definition op_flushes e (o : eop) : bool :=
  match o with
  | EPut _ _ | EDelete _ => Memtable.should_flush (op_memtable e o)
  | EBatch kvs => batch_flag (memtable e) kvs
  | EBulk kvs => match kvs with [] => false | _ => Memtable.should_flush (op_memtable e o) end
  | EFlush => negb (Memtable.is_empty (memtable e))
  | _ => false
  end.

(** No flush of the operation fills level 0 with pages that disagree. *)
Definition op_safe e (o : eop) : Prop :=
  op_flushes e o = true ->
  flush_safe (compaction (compactor e)) (memtable_page (Memtable.entries (op_memtable e o))).

Lemma engine_inv_weaken n n' e : engine_inv n e -> n <= n' -> engine_inv n' e.
Proof. intros [] Hn. split; auto; lia. Qed.

Lemma flush_if_settle n io e (f : bool) : engine_inv n e -> n < cap ->
  (f = true -> flush_safe (compaction (compactor e)) (memtable_page (Memtable.entries (memtable e)))) ->
  exists e', when f (flush_memtable ln) e = (Ok tt, e') /\ engine_inv (n + 1) (settle io e') /\
    state (settle io e') = state e /\ indices (settle io e') = indices e.
Proof.
  intros Hinv Hn Hsafe. destruct f; cbn [when].
  - destruct (flush_settle n io e Hinv Hn (Hsafe eq_refl)) as (e' & E & Hi & Hs & _ & Hx). eauto 6.
  - exists e. rewrite settle_idle by apply Hinv. split_and!; [done| |done..]. eapply engine_inv_weaken; [done|lia].
Qed.

(** Reads leave the invariant, the content and the indices alone. *)
Lemma read_ok n io e e' m : engine_inv n e' -> Hamt.view (state e') = m -> indices e' = indices e ->
  Hamt.view (state (settle io e')) = m /\ engine_inv (n + 1) (settle io e') /\ Ok (E := unit) (indices e) = Ok (indices (settle io e')).
Proof.
  intros Hinv Hm Hi. rewrite settle_idle by apply Hinv. split; [done|]. split; [|by rewrite Hi].
  eapply engine_inv_weaken; [done|lia].
Qed.

Lemma do_eop_ok n io e o : engine_inv n e -> n + eop_cost o <= cap -> (forall k, k ∈ eop_keys o -> k ∈ ks) -> op_safe e o ->
  exists e', do_eop e o = ((spec_eop (Hamt.view (state e)) o).1, e') /\
    Hamt.view (state (settle io e')) = (spec_eop (Hamt.view (state e)) o).2 /\ engine_inv (n + eop_cost o) (settle io e') /\
    idx_writes (indices e) (eop_writes o) = Ok (indices (settle io e')).
Proof.
  intros Hinv Hn Hk Hsafe. unfold eop_cost in *.
  assert (forall n' e' f, engine_inv n' e' -> n' < cap -> compactor e' = compactor e -> memtable e' = op_memtable e o ->
    f = op_flushes e o -> exists e'', when f (flush_memtable ln) e' = (Ok tt, e'') /\ engine_inv (n' + 1) (settle io e'') /\
      state (settle io e'') = state e' /\ indices (settle io e'') = indices e') as Hfl.
  { intros n' e' f Hinv' Hn' Hc Hm ->. apply flush_if_settle; [done..|]. rewrite Hc, Hm. exact Hsafe. }
  rewrite Z.add_assoc. destruct o as [k v|k|kvs|kvs|k|s t|]; cbn [spec_eop eop_keys eop_writes length fst snd] in Hn, Hk |- *;
    rewrite ?length_fmap in Hn |- *.
  - destruct (put_ok n e k v Hinv) as (e' & E & Hinv' & Hv & Hm & Hc & _ & _ & _ & _ & Hx); [apply Hk; left|].
    destruct (Hfl _ e' _ Hinv' ltac:(lia) Hc Hm eq_refl) as (e'' & E2 & Hi & Hs & Hxs).
    exists e''. rewrite Hs, Hxs. split; [|done]. apply (do_unit e (EPut k v) (put crc ln k v)); [done|]. rewrite E. exact E2.
  - destruct (delete_ok n e k Hinv) as (e' & E & Hinv' & Hv & Hm & Hc & _ & _ & _ & Hx); [apply Hk; left|].
    destruct (Hfl _ e' _ Hinv' ltac:(lia) Hc Hm eq_refl) as (e'' & E2 & Hi & Hs & Hxs).
    exists e''. rewrite Hs, Hxs. split; [|done]. apply (do_unit e (EDelete k) (Engine.delete crc ln k)); [done|]. rewrite E. exact E2.
  - destruct (put_batch_ok n e kvs Hinv) as (e' & E & Hinv' & Hv & Hm & Hc & Hx).
    { intros kv Hkv. apply Hk. by apply list_elem_of_fmap_2. }
    destruct (Hfl _ e' _ Hinv' ltac:(lia) Hc Hm eq_refl) as (e'' & E2 & Hi & Hs & Hxs).
    exists e''. rewrite Hs, Hxs. split; [|done]. apply (do_unit e (EBatch kvs) (put_batch crc ln kvs)); [done|]. rewrite E. exact E2.
  - destruct (bulk_ingest_ok n e kvs Hinv) as (e' & E & Hinv' & Hv & Hm & Hc & Hx).
    { intros kv Hkv. apply Hk. by apply list_elem_of_fmap_2. }
    destruct (Hfl _ e' _ Hinv' ltac:(lia) Hc Hm eq_refl) as (e'' & E2 & Hi & Hs & Hxs).
    exists e''. rewrite Hs, Hxs. split; [|done]. apply (out_ok OCount _ (length kvs)). rewrite E.
    cbn [op_flushes op_memtable] in E2. unfold bind. by rewrite E2.
  - destruct (get_ok n e k Hinv) as (E & Hinv' & Hs & _ & _ & Hx). exists (Engine.get iter e k).2. cbn [do_eop].
    destruct (Engine.get iter e k) as [v e']. cbn [fst snd] in *. subst v. split; [by rewrite <- (inv_content _ _ Hinv)|].
    rewrite Z.add_0_r. apply read_ok; [done| |done]. by rewrite Hs.
  - exists e. cbn [do_eop]. rewrite (scan_ok n) by done. split; [done|]. rewrite Z.add_0_r. by apply read_ok.
  - rewrite Z.add_0_r. destruct (Memtable.is_empty (memtable e)) eqn:Em.
    + exists e. split; [|by apply read_ok]. apply (do_unit e EFlush (flush ln)); [done|]. unfold flush. by rewrite Em.
    + destruct (Hfl n e true Hinv ltac:(lia) eq_refl eq_refl) as (e'' & E & Hi & Hs & Hxs); [cbn [op_flushes]; by rewrite Em|].
      exists e''. rewrite Hs, Hxs. split; [|done]. apply (do_unit e EFlush (flush ln)); [done|]. unfold flush. rewrite Em. exact E.
Qed.

Lemma run_eop_ok n io e o : engine_inv n e -> n + eop_cost o <= cap -> (forall k, k ∈ eop_keys o -> k ∈ ks) -> op_safe e o ->
  (run_eop io e o).1 = (spec_eop (Hamt.view (state e)) o).1 /\
  Hamt.view (state (run_eop io e o).2) = (spec_eop (Hamt.view (state e)) o).2 /\
  engine_inv (n + eop_cost o) (run_eop io e o).2 /\
  idx_writes (indices e) (eop_writes o) = Ok (indices (run_eop io e o).2).
Proof.
  intros Hinv Hn Hk Hsafe. destruct (do_eop_ok n io e o Hinv Hn Hk Hsafe) as (e' & E & Hv & Hi & Hx).
  unfold run_eop. rewrite E. done.
Qed.

Fixpoint run_eops (io : nat) e (os : list eop) : list (res bytes eout) * Engine (I := I) :=
  match os with
  | [] => ([], e)
  | o :: os' => let '(r, e1) := run_eop io e o in let '(rs, e2) := run_eops io e1 os' in (r :: rs, e2)
  end.

Fixpoint spec_eops (m : gmap bytes bytes) (os : list eop) : list (res bytes eout) * gmap bytes bytes :=
  match os with
  | [] => ([], m)
  | o :: os' => let '(r, m1) := spec_eop m o in let '(rs, m2) := spec_eops m1 os' in (r :: rs, m2)
  end.

Fixpoint run_safe (io : nat) e (os : list eop) : Prop :=
  match os with
  | [] => True
  | o :: os' => op_safe e o /\ run_safe io (run_eop io e o).2 os'
  end.

Definition eops_cost (os : list eop) : Z := foldr (fun o c => eop_cost o + c) 0 os.

Lemma eops_cost_nonneg os : 0 <= eops_cost os.
Proof. induction os as [|o os IH]; cbn [eops_cost foldr]; [lia|]. fold (eops_cost os). unfold eop_cost. lia. Qed.

Lemma run_eops_ok n io e os : engine_inv n e -> n + eops_cost os <= cap ->
  (forall o k, o ∈ os -> k ∈ eop_keys o -> k ∈ ks) -> run_safe io e os ->
  (run_eops io e os).1 = (spec_eops (Hamt.view (state e)) os).1 /\
  Hamt.view (state (run_eops io e os).2) = (spec_eops (Hamt.view (state e)) os).2 /\
  engine_inv (n + eops_cost os) (run_eops io e os).2.
Proof.
  revert n e. induction os as [|o os IH]; intros n e Hinv Hn Hkeys Hsafe; cbn [run_eops spec_eops eops_cost foldr] in *.
  { split_and!; [done..|]. by rewrite Z.add_0_r. }
  fold (eops_cost os) in *. pose proof (eops_cost_nonneg os).
  destruct Hsafe as [Ho Hsafe].
  destruct (run_eop_ok n io e o Hinv ltac:(lia) ltac:(intros; eapply Hkeys; [left|done]) Ho) as (E1 & E2 & E3 & _).
  destruct (run_eop io e o) as [r e1]. cbn [fst snd] in *.
  destruct (IH (n + eop_cost o) e1 E3 ltac:(lia) ltac:(intros; eapply Hkeys; [by right|done]) Hsafe) as (F1 & F2 & F3).
  destruct (spec_eop (Hamt.view (state e)) o) as [r' m1]. cbn [fst snd] in *. subst r' m1.
  destruct (run_eops io e1 os) as [rs e2], (spec_eops (Hamt.view (state e1)) os) as [rs' m2]. cbn [fst snd] in *. subst.
  split_and!; [done..|]. by rewrite Z.add_assoc.
Qed.

(** C1: on a well-formed engine (such as open gives) whose worker catches up after each operation,
    every sequence of puts, deletes, batches, bulk ingests, gets, range scans and flushes returns
    what the same operations return on a finite map, through the log, the memtable, the cache and
    the pages of all levels, and the snapshot trie holds that map. The conditions: the keys written
    have distinct hashes, no flush fills level 0 with pages that disagree on a key
    ([Compaction.compaction_oldest_wins] shows what happens then), and the entries stay below the
    limit at which the Bloom filters are sized. *)
Theorem engine_refines_map n io e os : engine_inv n e -> n + eops_cost os <= cap ->
  (forall o k, o ∈ os -> k ∈ eop_keys o -> k ∈ ks) -> run_safe io e os ->
  (run_eops io e os).1 = (spec_eops (Hamt.view (state e)) os).1 /\
  Hamt.view (state (run_eops io e os).2) = (spec_eops (Hamt.view (state e)) os).2 /\
  engine_inv (n + eops_cost os) (run_eops io e os).2.
Proof. apply run_eops_ok. Qed.
End spec.
