(* ===== verification/Recovery.v ===== *)
(** * Opening, crashing and reopening the engine

    What the log holds after acknowledged operations, what [open] rebuilds from
    it, and what that means for the reads of the reopened engine. *)

From S2P Require Import Prelude Ordered Text Float Fnv Bloom Memtable Wal Page PageStore Compaction BgCompaction Cache Hamt IndexApi Engine EngineSpec.
Local Open Scope Z_scope.

(** A log record as a memtable operation: an empty value deletes. *)
Definition rec_op (r : WalRecord) : Memtable.op :=
  match Wal.value r with [] => Memtable.OpDelete (Wal.key r) | v => Memtable.OpPut (Wal.key r) v end.

(** What the log says of each key. *)
Definition log_map (rs : list WalRecord) : gmap bytes (option bytes) := foldl Memtable.spec_op ∅ (rec_op <$> rs).

Lemma rec_op_key r : Memtable.op_key (rec_op r) = Wal.key r.
Proof. unfold rec_op. by destruct (Wal.value r). Qed.

Lemma log_map_dom rs k : is_Some (log_map rs !! k) <-> k ∈ Wal.key <$> rs.
Proof.
  unfold log_map. induction rs as [|r rs IH] using rev_ind; [cbn; rewrite lookup_empty; split; [by intros []|by intros ?%not_elem_of_nil]|].
  rewrite fmap_app, foldl_app. cbn [foldl fmap list_fmap]. unfold Memtable.spec_op at 1. rewrite rec_op_key, fmap_app, elem_of_app.
  rewrite lookup_insert_is_Some, IH. cbn. rewrite list_elem_of_singleton. destruct (decide (k = Wal.key r)); naive_solver.
Qed.

Lemma size_keys_le (l : list bytes) : (size (list_to_set l : gset bytes) <= length l)%nat.
Proof.
  induction l as [|k l IH]; [done|]. cbn [list_to_set length].
  pose proof (size_union_alt ({[k]} : gset bytes) (list_to_set l)) as E. rewrite E, size_singleton.
  assert (size (list_to_set l ∖ {[k]} : gset bytes) <= size (list_to_set l : gset bytes))%nat by (apply subseteq_size; set_solver).
  lia.
Qed.

Section recovery.
Context (crc : bytes -> Z) (deflate : bytes -> bytes) (inflate : bytes -> option bytes).
Context (read_dir : fs -> list bytes) (ln : f64 -> f64).
Context (iter : gmap bytes CacheEntry -> list (bytes * CacheEntry)).
Context {I : Type} `{Hops : IndexOps I} `{Hlaws : !IndexLaws I}.
Context (crc_u32 : forall l, 0 <= crc l < 2 ^ 32).
Implicit Types (e : Engine (I := I)).

(** ** The log of acknowledged operations *)

(** The file is exactly the records of the acknowledged writes. *)
Definition logged e (rs : list WalRecord) : Prop :=
  faults (wal e) = [] /\ buf (wal e) = [] /\ file (wal e) = log_bytes crc rs.

(** An operation that the engine acknowledged, with the records it writes, or a
    step of the worker. *)
Inductive acked e : list WalRecord -> Engine (I := I) -> Prop :=
  | acked_put k v e' : put crc ln k v e = (Ok tt, e') -> acked e [mkRecord k v] e'
  | acked_delete k e' : Engine.delete crc ln k e = (Ok tt, e') -> acked e [mkRecord k []] e'
  | acked_batch kvs e' : put_batch crc ln kvs e = (Ok tt, e') -> acked e (recs kvs) e'
  | acked_bulk kvs n e' : bulk_ingest crc ln kvs e = (Ok n, e') -> acked e (recs kvs) e'
  | acked_get k : acked e [] (Engine.get iter e k).2
  | acked_flush e' : flush ln e = (Ok tt, e') -> acked e [] e'
  | acked_snapshot name id e' : snapshot_create name e = (Ok id, e') -> acked e [] e'
  | acked_worker io e' : engine_worker deflate read_dir io e = Some e' -> acked e [] e'.

Inductive acked_run e : list WalRecord -> Engine (I := I) -> Prop :=
  | acked_nil : acked_run e [] e
  | acked_snoc rs e1 rs1 e2 : acked_run e rs e1 -> acked e1 rs1 e2 -> acked_run e (rs ++ rs1) e2.

(** Most of an operation leaves the log and the snapshots alone. *)
Definition keeps {A B} (pr : Engine (I := I) -> B) (m : EM A) : Prop := forall e, pr (m e).2 = pr e.
Definition log_snaps e : WalWriter * gmap bytes Hamt := (wal e, snapshots e).

Lemma keeps_ret {A B} pr (a : A) : keeps (B := B) pr (ret a).
Proof. done. Qed.

Lemma keeps_bind {A A' B} (pr : _ -> B) (m : EM A) (f : A -> EM A') :
  keeps pr m -> (forall a, keeps pr (f a)) -> keeps pr (bind m f).
Proof.
  intros Hm Hf e. unfold bind. specialize (Hm e). destruct (m e) as [[a|x|] e1]; cbn [snd] in *; [|done..].
  by rewrite (Hf a e1).
Qed.

Lemma keeps_when {B} (pr : _ -> B) b m : keeps pr m -> keeps pr (when b m).
Proof. by destruct b. Qed.

Lemma keeps_modify f : (forall e, log_snaps (f e) = log_snaps e) -> keeps log_snaps (modify f).
Proof. intros Hf e. apply Hf. Qed.

Lemma keeps_memtable_put k v : keeps log_snaps (memtable_put k v).
Proof. done. Qed.

Lemma keeps_memtable_delete k : keeps log_snaps (memtable_delete k).
Proof. done. Qed.

Lemma keeps_cache_invalidate k : keeps log_snaps (cache_invalidate k).
Proof. intros e. unfold cache_invalidate. by destruct (Cache.is_empty _). Qed.

Lemma keeps_index_put k v : keeps log_snaps (index_put k v).
Proof. intros e. unfold index_put, bind, lift. by destruct (idx_on_put _ k v). Qed.

Lemma keeps_index_delete k : keeps log_snaps (index_delete k).
Proof. intros e. unfold index_delete, bind, lift. by destruct (idx_on_delete _ k). Qed.

Lemma keeps_state_put k v : keeps log_snaps (state_put k v).
Proof. intros e. unfold state_put, bind, lift. by destruct (Hamt.put _ k v). Qed.

Lemma keeps_state_delete k : keeps log_snaps (state_delete k).
Proof. intros e. unfold state_delete, bind, lift. by destruct (Hamt.delete _ k). Qed.

Lemma keeps_flush_memtable : keeps log_snaps (flush_memtable ln).
Proof.
  intros e. unfold flush_memtable, frozen_to_page. destruct (Memtable.drain (memtable e)) as [en m'].
  unfold bind, lift. destruct (build_bloom ln (entries_page en)); [|done..].
  unfold submit. destruct (BgCompaction.submit _ _); done.
Qed.

Lemma keeps_clear_cache : keeps log_snaps clear_cache.
Proof. done. Qed.

Lemma keeps_flush : keeps log_snaps (flush ln).
Proof. intros e. unfold flush. destruct (Memtable.is_empty _); [done|]. apply keeps_flush_memtable. Qed.

Hint Resolve keeps_ret keeps_bind keeps_modify keeps_memtable_put keeps_memtable_delete keeps_cache_invalidate
  keeps_index_put keeps_index_delete keeps_state_put keeps_state_delete keeps_flush_memtable keeps_clear_cache keeps_when : uldb.

Lemma keeps_put_entries kvs : forall f, keeps log_snaps (put_entries kvs f).
Proof. induction kvs as [|kv kvs IH]; intros f; cbn [put_entries]; eauto 10 with uldb. Qed.

(** What the operations do after the log is flushed. *)
Lemma keeps_put_tail (m : EM bool) (k : bytes) (m1 m2 m3 : EM unit) c : keeps log_snaps m -> keeps log_snaps m1 ->
  keeps log_snaps m2 -> keeps log_snaps m3 -> (forall e, log_snaps (c e) = log_snaps e) ->
  keeps log_snaps (bind m (fun sf => bind (modify c) (fun _ => bind m1 (fun _ => bind m2 (fun _ => bind m3 (fun _ =>
    when sf (flush_memtable ln))))))).
Proof. intros. eauto 15 with uldb. Qed.

Lemma keeps_batch_tail {A} kvs (f : bool -> EM A) : (forall b, keeps log_snaps (f b)) ->
  keeps log_snaps (bind clear_cache (fun _ => bind (put_entries kvs false) f)).
Proof. intros. apply keeps_bind; [apply keeps_clear_cache|]. intros _. apply keeps_bind; [apply keeps_put_entries|done]. Qed.

Lemma keeps_bulk_tail n : keeps log_snaps (bind (fun e => when (Memtable.should_flush (memtable e)) (flush_memtable ln) e)
  (fun _ => ret (n : nat))).
Proof.
  apply keeps_bind; [|intros _; apply keeps_ret]. intros e1. apply keeps_when. apply keeps_flush_memtable.
Qed.

Lemma get_keeps e k : log_snaps (Engine.get iter e k).2 = log_snaps e.
Proof. unfold Engine.get. by repeat case_match. Qed.

Lemma logged_keeps {A} (m : EM A) e rs : keeps log_snaps m -> logged e rs -> logged (m e).2 rs.
Proof. intros Hm (H1 & H2 & H3). unfold logged. specialize (Hm e). injection Hm as Hw _. by rewrite Hw. Qed.

Lemma log_bytes_recs_snoc rs k v : log_bytes crc (rs ++ [mkRecord k v]) = log_bytes crc rs ++ Wal.serialize crc k v.
Proof. rewrite log_bytes_app. cbn. by rewrite app_nil_r. Qed.

(** One record appended and flushed, and then whatever keeps the log. *)
Lemma logged_write {A} e rs k v (m : EM A) : logged e rs -> keeps log_snaps m ->
  logged (bind (wal_append crc k v) (fun _ => bind wal_flush (fun _ => m)) e).2 (rs ++ [mkRecord k v]).
Proof.
  intros (Hf & Hb & Hfile) Hm. destruct (log_record crc e k v Hf) as (w & H1 & H2 & H3 & E).
  rewrite E. apply logged_keeps; [done|]. unfold logged. cbn [wal set_wal]. rewrite H2, Hfile, Hb, app_nil_r, log_bytes_recs_snoc. done.
Qed.

Lemma logged_writes {A} e rs kvs (m : EM A) : logged e rs -> keeps log_snaps m ->
  logged (bind (wal_append_all crc kvs) (fun _ => bind wal_flush (fun _ => m)) e).2 (rs ++ recs kvs).
Proof.
  intros (Hf & Hb & Hfile) Hm. destruct (log_records crc e kvs Hf) as (w & H1 & H2 & H3 & E).
  rewrite E. apply logged_keeps; [done|]. unfold logged. cbn [wal set_wal]. rewrite H2, Hfile, Hb, app_nil_r. by rewrite log_bytes_app.
Qed.

Lemma acked_logged e rs rs1 e' : logged e rs -> acked e rs1 e' -> logged e' (rs ++ rs1).
Proof.
  intros Hl H. inversion H as [k v ? E|k ? E|kvs ? E|kvs n ? E|k|? E|name id ? E|io ? E]; subst; clear H; rewrite ?app_nil_r.
  - apply (f_equal snd) in E. cbn [snd] in E. rewrite <- E. apply logged_write; [done|]. apply keeps_put_tail; auto with uldb.
  - apply (f_equal snd) in E. cbn [snd] in E. rewrite <- E. apply logged_write; [done|]. apply keeps_put_tail; auto with uldb.
  - apply (f_equal snd) in E. cbn [snd] in E. rewrite <- E. apply logged_writes; [done|].
    apply keeps_batch_tail. auto with uldb.
  - apply (f_equal snd) in E. cbn [snd] in E. rewrite <- E. destruct kvs as [|kv kvs]; [cbn; by rewrite app_nil_r|].
    apply logged_writes; [done|]. apply keeps_batch_tail. intros _. apply keeps_bulk_tail.
  - destruct Hl as (H1 & H2 & H3). unfold logged. pose proof (get_keeps e k) as [= -> _]. done.
  - apply (f_equal snd) in E. cbn [snd] in E. rewrite <- E. apply logged_keeps; [apply keeps_flush|done].
  - unfold snapshot_create in E. by destruct name; injection E as _ <-.
  - unfold engine_worker in E. destruct (worker_step _ _ _ _) as [c|]; [|done]. by injection E as <-.
Qed.

Lemma acked_run_logged e rs0 rs e' : logged e rs0 -> acked_run e rs e' -> logged e' (rs0 ++ rs).
Proof.
  intros Hl. induction 1 as [|rs e1 rs1 e2 Hrun IH Hstep]; [by rewrite app_nil_r|].
  rewrite app_assoc. by eapply acked_logged.
Qed.

(** ** What opening rebuilds *)

Lemma replay_records_ok rs : forall m i, idx_wf i -> exists i', idx_wf i' /\
  foldl replay_record (Ok (m, i)) rs = Ok (Memtable.run m (rec_op <$> rs), i').
Proof.
  induction rs as [|[k v] rs IH]; intros m i Hi; [by exists i|].
  cbn [foldl fmap list_fmap]. unfold replay_record at 2. cbn [mbind res_bind Wal.key Wal.value].
  unfold rec_op at 1. cbn [Wal.key Wal.value]. destruct v as [|b v]; [by apply IH|].
  destruct (idx_replay_put_wf i k (utf8_or_empty k) (utf8_or_empty (b :: v)) Hi) as (i1 & -> & Hi1). by apply IH.
Qed.

(** What a just opened engine, with nothing cached or frozen, reads. *)
Lemma get_reopened t e rs levels k : memtable e = Memtable.run (Memtable.new t) (rec_op <$> rs) -> frozen e = [] ->
  compaction (compactor e) = load_levels levels Compaction.new -> Cache.entries (cache e) = ∅ ->
  (Engine.get iter e k).1 = match log_map rs !! k with Some ov => ov
                            | None => Compaction.get (load_levels levels Compaction.new) k end.
Proof.
  intros Hm Hf Hc Hca. assert (Memtable.view (memtable e) = log_map rs) as <-.
  { rewrite Hm, view_run. unfold Memtable.view. cbn. by rewrite fmap_empty. }
  unfold Engine.get, Memtable.get_entry. cbn [memtable frozen cache compactor count_ops].
  rewrite Hf. cbn [rev find_frozen]. unfold Cache.get. rewrite Hca, lookup_empty, Hc.
  unfold Memtable.view. rewrite lookup_fmap. by destruct (Memtable.entries (memtable e) !! k).
Qed.

Section keys.
Context (ks : gset bytes) (Hks : no_collision ks).

(** The trie holds the live entries of the memtable. *)
Lemma rebuild_state_ok l : (forall k en, (k, en) ∈ l -> k ∈ ks) -> NoDup l.*1 -> exists h,
  rebuild_state l = Ok h /\ hamt_wf h /\ dom (Hamt.view h) ⊆ ks /\
  forall k, Hamt.view h !! k = (list_to_map l : gmap bytes MemEntry) !! k ≫= Memtable.value.
Proof.
  unfold rebuild_state. intros Hl Hnd.
  assert (forall h0, hamt_wf h0 -> dom (Hamt.view h0) ⊆ ks -> exists h,
    foldl (fun acc ke => h ← acc; match Memtable.value ke.2 with
      | Some v => match Hamt.put h ke.1 v with Ok h' => Ok h' | _ => Panic end | None => Ok h end) (Ok (E := bytes) h0) l = Ok h /\
    hamt_wf h /\ dom (Hamt.view h) ⊆ ks /\
    forall k, Hamt.view h !! k = match (list_to_map l : gmap bytes MemEntry) !! k ≫= Memtable.value with
                              | Some v => Some v | None => Hamt.view h0 !! k end) as Hgen.
  { induction l as [|[k en] l IH]; intros h0 Hwf Hdom; [by exists h0|].
    csimpl in Hnd. apply NoDup_cons in Hnd as [Hni Hnd]. cbn [foldl mbind res_bind fst snd].
    assert (k ∈ ks) as Hk by (apply (Hl k en); left).
    assert (exists h1, (match Memtable.value en with Some v => match Hamt.put h0 k v with Ok h' => Ok h' | _ => Panic end
                         | None => Ok h0 end) = Ok (E := bytes) h1 /\ hamt_wf h1 /\ dom (Hamt.view h1) ⊆ ks /\
      forall k', Hamt.view h1 !! k' = match (if decide (k = k') then Memtable.value en else None) with
                                  | Some v => Some v | None => Hamt.view h0 !! k' end) as (h1 & -> & Hwf1 & Hdom1 & Hv1).
    { destruct (Memtable.value en) as [v|].
      - destruct (put_spec h0 k v Hwf (no_collision_put ks h0 k Hks Hdom Hk)) as (h1 & -> & ? & E).
        exists h1. rewrite E. split_and!; [done..|clear -Hdom Hk; set_solver|]. intros k'. rewrite lookup_insert. by case_decide.
      - exists h0. split_and!; [done..|]. intros k'. by case_decide. }
    destruct (IH (fun k' en' H => Hl k' en' (list_elem_of_further _ _ _ H)) Hnd h1 Hwf1 Hdom1) as (h & E & ? & ? & Hv).
    exists h. split_and!; [done..|]. intros k'. rewrite Hv, Hv1, list_to_map_cons, lookup_insert.
    case_decide as Ek; [|done]. subst. by rewrite not_elem_of_list_to_map_1. }
  assert (dom (Hamt.view Hamt.new) ⊆ ks) as Hnew by (clear; set_solver).
  destruct (Hgen Hamt.new Hamt.hamt_new_wf Hnew) as (h & E & ? & ? & Hv). exists h. split_and!; [done..|].
  intros k. rewrite Hv. by destruct (_ ≫= _).
Qed.

Lemma run_threshold m os : Memtable.flush_threshold (Memtable.run m os) = Memtable.flush_threshold m.
Proof.
  revert m. induction os as [|o os IH]; intros m; [done|]. cbn [Memtable.run foldl].
  fold (Memtable.run (Memtable.run_op m o) os). by rewrite IH, run_op_store.
Qed.

Lemma total_size_run m os : total_size (Memtable.entries (Memtable.run m os)) <= total_size (Memtable.entries m) + ops_size os.
Proof.
  revert m. induction os as [|o os IH]; intros m; cbn [Memtable.run foldl ops_size foldr]; [lia|].
  fold (Memtable.run (Memtable.run_op m o) os). specialize (IH (Memtable.run_op m o)).
  rewrite run_op_store in IH |- *. pose proof (total_size_store_le m (Memtable.op_key o) (Memtable.op_value o)).
  unfold ops_size in *. lia.
Qed.

Lemma no_flush_on_replay t rs : ops_size (rec_op <$> rs) < t -> t <= u64_max ->
  Memtable.should_flush (Memtable.run (Memtable.new t) (rec_op <$> rs)) = false.
Proof.
  intros Hs Ht. assert (total_size (Memtable.entries (Memtable.new t)) = 0) as H0 by done.
  assert (size_exact (Memtable.run (Memtable.new t) (rec_op <$> rs))) as Hex.
  { apply run_size_exact; [done|]. rewrite H0. unfold u64_max in Ht. lia. }
  unfold Memtable.should_flush. rewrite run_threshold, Hex. cbn [Memtable.new Memtable.flush_threshold].
  pose proof (total_size_run (Memtable.new t) (rec_op <$> rs)) as H. rewrite H0 in H. apply Z.leb_gt. lia.
Qed.

Definition dir_log (dir : DataDir) : bytes := default [] (wal_file dir).

(** Opening below the flush threshold: the memtable is the replayed log, the levels
    are the page files. *)
Lemma open_ok t dir rs levels : (replay crc (dir_log dir)).1 = rs ->
  load_all inflate read_dir (pages_dir dir) = Ok levels ->
  (forall k, k ∈ Wal.key <$> rs -> k ∈ ks) -> ops_size (rec_op <$> rs) < t -> t <= u64_max ->
  exists e, open (I := I) crc inflate read_dir ln t dir = Ok e /\
    memtable e = Memtable.run (Memtable.new t) (rec_op <$> rs) /\ frozen e = [] /\
    compaction (compactor e) = load_levels levels Compaction.new /\ queue (compactor e) = [] /\
    running (compactor e) = true /\ Cache.entries (cache e) = ∅ /\ idx_wf (indices e) /\ hamt_wf (state e) /\
    dom (Hamt.view (state e)) ⊆ ks /\ (forall k, Hamt.view (state e) !! k = log_map rs !! k ≫= id) /\
    wal e = Wal.open (dir_log dir) /\ flush_count e = 0.
Proof.
  intros Hrs Hload Hkeys Hsize Ht. unfold open. rewrite Hload. cbn [mbind res_bind]. cbv zeta.
  destruct (replay_records_ok rs (Memtable.new t) (idx_load (hnsw_file dir) (graph_file dir) idx_new)
    (idx_load_wf _ _ _ idx_new_wf)) as (i & Hi & Ei).
  assert (match wal_file dir with
          | Some f => foldl replay_record (Ok (Memtable.new t, idx_load (hnsw_file dir) (graph_file dir) idx_new)) (replay crc f).1
          | None => Ok (Memtable.new t, idx_load (hnsw_file dir) (graph_file dir) idx_new)
          end = Ok (E := bytes) (Memtable.run (Memtable.new t) (rec_op <$> rs),
                  match wal_file dir with Some _ => i | None => idx_load (hnsw_file dir) (graph_file dir) idx_new end)) as ->.
  { unfold dir_log in Hrs. destruct (wal_file dir) as [f|]; cbn [default from_option id] in Hrs; [by rewrite Hrs|].
    cbn in Hrs. subst. done. }
  cbn [mbind res_bind]. rewrite no_flush_on_replay, andb_false_r by done. cbn [mbind res_bind].
  set (m := Memtable.run (Memtable.new t) (rec_op <$> rs)).
  assert (Memtable.view m = log_map rs) as Hview.
  { unfold m. rewrite view_run. unfold Memtable.view. cbn. by rewrite fmap_empty. }
  assert (forall k en, Memtable.entries m !! k = Some en -> log_map rs !! k = Some (Memtable.value en)) as Hen.
  { intros k en E. rewrite <- Hview. unfold Memtable.view. by rewrite lookup_fmap, E. }
  destruct (rebuild_state_ok (Memtable.iter m)) as (h & Eh & Hh & Hdom & Hv).
  { intros k en Hin. apply elem_of_bt_entries, Hen in Hin. apply Hkeys, log_map_dom. by rewrite Hin. }
  { apply bt_entries_nodup. }
  rewrite Eh. cbn [mbind res_bind]. eexists. split; [done|]. cbn [memtable frozen compactor cache indices state wal flush_count].
  split_and!; try done.
  - destruct (wal_file dir); [done|]. apply idx_load_wf, idx_new_wf.
  - intros k. rewrite Hv. unfold Memtable.iter. rewrite list_to_map_bt_entries, <- Hview. unfold Memtable.view.
    rewrite lookup_fmap. by destruct (Memtable.entries m !! k).
Qed.

(** Opening on a directory without pages starts in the invariant of the engine. *)
Lemma open_inv t dir rs : (replay crc (dir_log dir)).1 = rs ->
  load_all inflate read_dir (pages_dir dir) = Ok [[]; []; []] ->
  (forall k, k ∈ Wal.key <$> rs -> k ∈ ks) -> ops_size (rec_op <$> rs) < t -> t <= u64_max ->
  exists e, open (I := I) crc inflate read_dir ln t dir = Ok e /\
    engine_inv ks (Z.of_nat (length rs)) e /\ (forall k, Hamt.view (state e) !! k = log_map rs !! k ≫= id).
Proof.
  intros Hrs Hload Hkeys Hsize Ht.
  destruct (open_ok t dir rs _ Hrs Hload Hkeys Hsize Ht) as
    (e & E & Hm & Hf & Hc & Hq & Hr & Hca & Hi & Hh & Hdom & Hv & Hw & Hfc).
  assert (Memtable.view (memtable e) = log_map rs) as Hview.
  { rewrite Hm, view_run. unfold Memtable.view. cbn. by rewrite fmap_empty. }
  assert (compaction (compactor e) = Compaction.new) as Hc' by (by rewrite Hc).
  assert (forall k, Compaction.get Compaction.new k = None) as Hget by done.
  exists e. split; [done|]. split; [|done]. split; rewrite ?Hc', ?Hf, ?Hw, ?Hfc; auto.
  - intros k. rewrite Hv, <- Hview. unfold content, Memtable.view. rewrite lookup_fmap, Hc'.
    by destruct (Memtable.entries (memtable e) !! k).
  - apply Compaction.cm_new_wf.
  - intros k en. rewrite Hca. by rewrite lookup_empty.
  - rewrite <- (size_dom (Memtable.entries (memtable e)) (D := gset bytes)).
    transitivity (Z.of_nat (size (list_to_set (Wal.key <$> rs) : gset bytes))).
    + apply inj_le, subseteq_size. intros k Hk. apply elem_of_dom in Hk as [en Hk]. apply elem_of_list_to_set, log_map_dom.
      rewrite <- Hview. unfold Memtable.view. rewrite lookup_fmap, Hk. done.
    + rewrite <- (length_fmap Wal.key rs). apply inj_le, size_keys_le.
  - lia.
Qed.
End keys.

Lemma log_file_replay e rs r j : logged e rs -> Forall rec_ok rs -> rec_ok r -> (j < length (ser crc r))%nat ->
  (replay crc (file (wal e) ++ take j (ser crc r))).1 = rs.
Proof. intros (_ & _ & ->) Hrs Hr Hj. by apply replay_torn. Qed.

Lemma recovery_ok t e0 rs0 e rs r j dir levels :
  logged e0 rs0 -> acked_run e0 rs e -> Forall rec_ok (rs0 ++ rs) -> rec_ok r -> (j < length (ser crc r))%nat ->
  wal_file dir = Some (file (wal e) ++ take j (ser crc r)) ->
  load_all inflate read_dir (pages_dir dir) = Ok levels ->
  no_collision (list_to_set (Wal.key <$> rs0 ++ rs)) ->
  ops_size (rec_op <$> rs0 ++ rs) < t -> t <= u64_max ->
  exists e', open (I := I) crc inflate read_dir ln t dir = Ok e' /\
    forall k, (Engine.get iter e' k).1 =
      match log_map (rs0 ++ rs) !! k with
      | Some ov => ov
      | None => Compaction.get (load_levels levels Compaction.new) k
      end.
Proof.
  intros Hl Hrun Hrs Hr Hj Hdir Hload Hks Hsize Ht.
  pose proof (acked_run_logged e0 rs0 rs e Hl Hrun) as Hl'.
  destruct (open_ok _ Hks t dir (rs0 ++ rs) levels) as (e' & E & Hm & Hf & Hc & _ & _ & Hca & _); [|done| |done..|].
  { unfold dir_log. rewrite Hdir. cbn. by apply log_file_replay. }
  { intros k Hk. by apply elem_of_list_to_set. }
  exists e'. split; [done|]. intros k. by eapply get_reopened.
Qed.

(** C2: whatever was acknowledged since the log was last empty (puts, deletes, batches, reads,
    snapshots, flushes, turns of the worker), and wherever a crash tears the next record, reopening
    the directory succeeds and every key reads as its last acknowledged record says, with an empty
    value read as absent; a key the log does not mention reads as the saved pages say. The
    conditions: records within the limits of the format, a log that stays below the flush threshold
    ([Recovery.reopen_large_log] is the other case), keys of distinct hashes, and saved pages that
    load. *)
Theorem crash_recovery t e0 rs0 e rs r j dir levels :
  logged e0 rs0 -> acked_run e0 rs e -> Forall rec_ok (rs0 ++ rs) -> rec_ok r -> (j < length (ser crc r))%nat ->
  wal_file dir = Some (file (wal e) ++ take j (ser crc r)) ->
  load_all inflate read_dir (pages_dir dir) = Ok levels ->
  no_collision (list_to_set (Wal.key <$> rs0 ++ rs)) ->
  ops_size (rec_op <$> rs0 ++ rs) < t -> t <= u64_max ->
  exists e', open (I := I) crc inflate read_dir ln t dir = Ok e' /\
    forall k, (Engine.get iter e' k).1 =
      match log_map (rs0 ++ rs) !! k with
      | Some ov => ov
      | None => Compaction.get (load_levels levels Compaction.new) k
      end.
Proof. apply recovery_ok. Qed.

Lemma scan_fast_empty e s t : frozen e = [] -> flush_count e = 0 -> Memtable.entries (memtable e) = ∅ ->
  bytes_ltb t s = false -> Engine.scan e s t = Ok [].
Proof.
  intros Hf Hc Hm Hst. unfold Engine.scan. rewrite Hf, Hc. cbn [andb bool_decide]. unfold Memtable.range, bt_range.
  rewrite Hst, Hm, bt_entries_empty. done.
Qed.

(** When the replayed log reaches the flush threshold, opening sends all of it to
    the worker as one page and starts with an empty memtable and an empty snapshot
    trie: until the worker has run, every key reads as the old pages say, whatever
    the log says of it; and range scans return nothing, also after the worker has
    run. *)
Theorem reopen_large_log t dir f rs levels io s s' : wal_file dir = Some f -> (replay crc f).1 = rs ->
  load_all inflate read_dir (pages_dir dir) = Ok levels ->
  Memtable.should_flush (Memtable.run (Memtable.new t) (rec_op <$> rs)) = true ->
  (forall n, (n <= length rs)%nat -> bloom_fits ln n) -> bytes_ltb s' s = false ->
  exists e, open (I := I) crc inflate read_dir ln t dir = Ok e /\ Hamt.view (state e) = ∅ /\
    (forall k, (Engine.get iter e k).1 = Compaction.get (load_levels levels Compaction.new) k) /\
    Engine.scan e s s' = Ok [] /\ Engine.scan (settle deflate read_dir io e) s s' = Ok [] /\
    exists p, queue (compactor e) = [AddPage p] /\
      rec_map (records p) = log_map rs.
Proof.
  intros Hw Hrs Hload Hflush Hbloom Hst. unfold open. rewrite Hload, Hw. cbn [mbind res_bind]. cbv zeta.
  destruct (replay_records_ok rs (Memtable.new t) (idx_load (hnsw_file dir) (graph_file dir) idx_new)
    (idx_load_wf _ _ _ idx_new_wf)) as (i & Hi & Ei).
  rewrite Hrs, Ei. cbn [mbind res_bind]. rewrite Hflush, bool_decide_eq_true_2 by eauto. cbn [andb].
  set (m := Memtable.run (Memtable.new t) (rec_op <$> rs)) in *.
  assert (Memtable.view m = log_map rs) as Hview.
  { unfold m. rewrite view_run. unfold Memtable.view. cbn. by rewrite fmap_empty. }
  unfold memtable_to_page, frozen_to_page, Memtable.drain. fold (memtable_page (Memtable.entries m)).
  destruct (build_bloom_ok ln (memtable_page (Memtable.entries m))) as (bf & E).
  { apply Hbloom. rewrite length_memtable_page, <- (size_dom (D := gset bytes)).
    transitivity (size (list_to_set (Wal.key <$> rs) : gset bytes)).
    - apply subseteq_size. intros k [en Hk]%elem_of_dom. apply elem_of_list_to_set, log_map_dom.
      rewrite <- Hview. unfold Memtable.view. by rewrite lookup_fmap, Hk.
    - rewrite <- (length_fmap Wal.key rs). apply size_keys_le. }
  change (entries_page (bt_entries (Memtable.entries m))) with (memtable_page (Memtable.entries m)). rewrite E.
  cbn [mbind res_bind BgCompaction.new BgCompaction.submit running queue compaction disk app].
  unfold Memtable.iter. cbn [Memtable.entries]. rewrite bt_entries_empty. cbn [rebuild_state foldl mbind res_bind].
  eexists. split; [done|]. split; [done|]. split; [|split; [by apply scan_fast_empty|split; [by apply scan_fast_empty|]]].
  - intros k. done.
  - eexists. split; [done|]. cbn [records]. rewrite memtable_page_view. exact Hview.
Qed.
End recovery.

#[export] Hint Resolve keeps_ret keeps_bind keeps_modify keeps_memtable_put keeps_memtable_delete keeps_cache_invalidate
  keeps_index_put keeps_index_delete keeps_state_put keeps_state_delete keeps_flush_memtable keeps_clear_cache keeps_when : uldb.

(** ** A concrete database, for the witnesses *)
Definition open_sample (t : Z) (dir : DataDir) : res bytes (Engine (I := unit)) :=
  open crc32 Some list_names ln_sample t dir.

Definition empty_dir : DataDir := mkDir None ∅ None None.

Definition engine_at (t : Z) : Engine (I := unit) :=
  mkEngine (Wal.open []) (Memtable.new t) [] t (BgCompaction.new (Some ∅)) tt Hamt.new ∅ 0 0 0 0 0 (Cache.new 1024).

Definition sample_engine : Engine (I := unit) := engine_at 1000.

Lemma open_sample_empty t : open_sample t empty_dir = Ok (engine_at t).
Proof. done. Qed.

Lemma bloom_fits_sample n : Z.of_nat n < 17 -> bloom_fits ln_sample n.
Proof. intros Hn. unfold bloom_fits. replace (Nat.max n 16) with 16%nat by lia. by vm_compute. Qed.

Lemma engine_at_inv ks t : no_collision ks -> 0 < t <= u64_max -> engine_inv ks 0 (engine_at t).
Proof.
  intros Hks Ht. destruct (open_inv (I := unit) crc32 Some list_names ln_sample ks Hks t empty_dir [] eq_refl) as (e & E & Hinv & _).
  - done.
  - intros k. cbn. by intros ?%not_elem_of_nil.
  - cbn. lia.
  - lia.
  - fold (open_sample t empty_dir) in E. rewrite open_sample_empty in E. injection E as <-. exact Hinv.
Qed.

(** Sessions on that database, and the invariant after them. *)
Definition sample_run (e : Engine (I := unit)) (os : list eop) : list (res bytes eout) * Engine (I := unit) :=
  run_eops crc32 id list_names ln_sample map_to_list 100 e os.

Lemma sample_run_inv ks t os : no_collision ks -> 0 < t <= u64_max -> eops_cost os <= 17 ->
  forallb (fun o => forallb (fun k => bool_decide (k ∈ ks)) (eop_keys o)) os = true ->
  run_safe crc32 id list_names ln_sample map_to_list 100 (engine_at t) os ->
  engine_inv ks (eops_cost os) (sample_run (engine_at t) os).2.
Proof.
  intros Hks Ht Hc Hkeys Hsafe.
  destruct (run_eops_ok (I := unit) crc32 id list_names ln_sample map_to_list ks Hks 17 ltac:(done) bloom_fits_sample
    0 100 (engine_at t) os) as (_ & _ & H); [by apply engine_at_inv|done| |done|exact H].
  intros o k Ho Hk. rewrite forallb_forall in Hkeys. specialize (Hkeys o). rewrite <- list_elem_of_In, forallb_forall in Hkeys.
  specialize (Hkeys Ho k). rewrite <- list_elem_of_In in Hkeys. apply (bool_decide_eq_true _), Hkeys, Hk.
Qed.

Definition sample_session : list eop :=
  [EPut (str "a") (str "1"); EPut (str "b") (str "2"); EFlush; EGet (str "a"); EPut (str "a") (str "3");
   EDelete (str "b"); EBatch [(str "c", str "4"); (str "d", [])]; EFlush; EGet (str "a"); EGet (str "b");
   EScan (str "a") (str "d")].

Lemma engine_refines_map_witness :
  (run_eops crc32 id list_names ln_sample (@map_to_list _ _ _ _) 100 sample_engine sample_session).1 =
  [Ok OUnit; Ok OUnit; Ok OUnit; Ok (OValue (Some (str "1"))); Ok OUnit; Ok OUnit; Ok OUnit; Ok OUnit;
   Ok (OValue (Some (str "3"))); Ok (OValue None); Ok (OEntries [(str "a", str "3"); (str "c", str "4")])].
Proof.
  destruct (engine_refines_map (I := unit) crc32 id list_names ln_sample map_to_list
    (list_to_set [str "a"; str "b"; str "c"; str "d"])
    ltac:(apply distinct_hashes_ok; vm_compute; reflexivity) 17 ltac:(done) bloom_fits_sample
    0 100 sample_engine sample_session) as (E & _).
  - apply engine_at_inv; [apply distinct_hashes_ok; vm_compute; reflexivity|done].
  - by vm_compute.
  - assert (Forall (fun o => Forall (fun k => k ∈ (list_to_set [str "a"; str "b"; str "c"; str "d"] : gset bytes)) (eop_keys o))
      sample_session) as H by (by apply (bool_decide_unpack _); vm_compute).
    intros o k Ho Hk. rewrite Forall_forall in H. specialize (H o Ho). rewrite Forall_forall in H. by apply H.
  - unfold sample_session. cbn [run_safe]. repeat (split; [intros _; left; apply Nat.ltb_lt; vm_compute; reflexivity|]). done.
  - rewrite E. by vm_compute.
Defined.

(** Two puts, a flush, a step of the worker and a delete. *)
Definition crash1 : Engine := (put crc32 ln_sample (str "a") (str "1") sample_engine).2.
Definition crash2 : Engine := (put_batch crc32 ln_sample [(str "b", str "2"); (str "a", str "3")] crash1).2.
Definition crash3 : Engine := (flush ln_sample crash2).2.
Definition crash4 : Engine := default crash3 (engine_worker id list_names 100 crash3).
Definition crash5 : Engine := (Engine.delete crc32 ln_sample (str "b") crash4).2.

Definition crash_records : list WalRecord :=
  [mkRecord (str "a") (str "1"); mkRecord (str "b") (str "2"); mkRecord (str "a") (str "3"); mkRecord (str "b") []].

Lemma crash_run : acked_run crc32 id list_names ln_sample map_to_list sample_engine crash_records crash5.
Proof.
  apply (acked_snoc crc32 id list_names ln_sample map_to_list sample_engine
    [mkRecord (str "a") (str "1"); mkRecord (str "b") (str "2"); mkRecord (str "a") (str "3")] crash4 [mkRecord (str "b") []]).
  - apply (acked_snoc _ _ _ _ _ sample_engine
      [mkRecord (str "a") (str "1"); mkRecord (str "b") (str "2"); mkRecord (str "a") (str "3")] crash3 []).
    + apply (acked_snoc _ _ _ _ _ sample_engine
        [mkRecord (str "a") (str "1"); mkRecord (str "b") (str "2"); mkRecord (str "a") (str "3")] crash2 []).
      * apply (acked_snoc _ _ _ _ _ sample_engine [mkRecord (str "a") (str "1")] crash1
          (recs [(str "b", str "2"); (str "a", str "3")])).
        -- apply (acked_snoc _ _ _ _ _ sample_engine [] sample_engine [mkRecord (str "a") (str "1")]); [constructor|].
           apply acked_put. by vm_compute.
        -- apply acked_batch. by vm_compute.
      * apply acked_flush. by vm_compute.
    + apply (acked_worker _ _ _ _ _ _ 100). by vm_compute.
  - apply acked_delete. by vm_compute.
Qed.

Lemma crash_recovery_witness : exists e',
  open_sample 1000 (mkDir (Some (file (wal crash5) ++ take 7 (Wal.serialize crc32 (str "c") (str "4")))) ∅ None None) = Ok e' /\
  (Engine.get map_to_list e' (str "a")).1 = Some (str "3") /\
  (Engine.get map_to_list e' (str "b")).1 = None /\ (Engine.get map_to_list e' (str "c")).1 = None.
Proof.
  destruct (crash_recovery (I := unit) crc32 id Some list_names ln_sample map_to_list crc32_range 1000
    sample_engine [] crash5 crash_records (mkRecord (str "c") (str "4")) 7
    (mkDir (Some (file (wal crash5) ++ take 7 (Wal.serialize crc32 (str "c") (str "4")))) ∅ None None) [[]; []; []])
    as (e' & E & Hget).
  - done.
  - exact crash_run.
  - cbn [app]. unfold crash_records. repeat constructor; by vm_compute.
  - split; by vm_compute.
  - apply Nat.ltb_lt. vm_compute; reflexivity.
  - done.
  - by vm_compute.
  - apply distinct_hashes_ok. vm_compute; reflexivity.
  - by vm_compute.
  - by vm_compute.
  - exists e'. rewrite !Hget. split; [exact E|]. split_and!; by vm_compute.
Defined.

(** Five bytes of threshold: the log of the session above overflows it. *)
Lemma reopen_large_log_witness : exists e,
  open_sample 5 (mkDir (Some (file (wal crash5))) ∅ None None) = Ok e /\ (Engine.get map_to_list e (str "a")).1 = None /\
  Engine.scan (settle id list_names 100 e) (str "a") (str "z") = Ok [].
Proof.
  destruct (reopen_large_log (I := unit) crc32 id Some list_names ln_sample map_to_list 5
    (mkDir (Some (file (wal crash5))) ∅ None None) (file (wal crash5)) crash_records [[]; []; []] 100 (str "a") (str "z"))
    as (e & E & _ & Hget & _ & Hscan & _).
  - done.
  - by vm_compute.
  - by vm_compute.
  - by vm_compute.
  - intros n Hn. apply bloom_fits_sample. cbn in Hn. lia.
  - by vm_compute.
  - exists e. rewrite Hget. split; [exact E|]. split; [by vm_compute|exact Hscan].
Defined.
