(* ===== verification/Branch.v ===== *)
(** * Snapshots, branches, and the writes that bypass the cache

    Snapshots of the engine's trie, which no action on anything else changes, the differences and merges of branches, and
    the two windows in which a read does not return the latest write: between a
    flush and the worker's step, and after a write that leaves the cache alone. *)

From S2P Require Import Prelude Ordered Text Float Fnv Bloom Memtable Wal Page PageStore Compaction BgCompaction Cache Hamt IndexApi Engine EngineSpec Recovery.
Local Open Scope Z_scope.

Lemma iter_nodup h : hamt_wf h -> NoDup (Hamt.iter h).*1.
Proof. intros Hwf. rewrite (iter_spec h Hwf). apply NoDup_fst_map_to_list. Qed.

Lemma elem_of_hamt_iter h k v : hamt_wf h -> (k, v) ∈ Hamt.iter h <-> Hamt.view h !! k = Some v.
Proof. intros Hwf. rewrite (iter_spec h Hwf). apply elem_of_map_to_list. Qed.

Lemma insert_kvs_union l : forall m, NoDup l.*1 -> insert_kvs m l = list_to_map l ∪ m.
Proof.
  induction l as [|[k v] l IH]; intros m Hnd; cbn [insert_kvs foldl];
    [symmetry; apply (left_id_L ∅ (∪))|].
  csimpl in Hnd. apply NoDup_cons in Hnd as [Hni Hnd]. fold (insert_kvs (<[k:=v]> m) l). rewrite IH by done.
  rewrite list_to_map_cons. cbn [fst snd]. rewrite <- insert_union_l, insert_union_r; [done|].
  by apply not_elem_of_list_to_map_1.
Qed.

Section diff.
Context {I : Type} `{Hops : IndexOps I}.
Implicit Types (e : Engine (I := I)).

(** ** The differences of a branch *)
Definition diff_entry (a b : gmap bytes bytes) (d : bytes * option bytes * option bytes) : Prop :=
  d.1.2 = a !! d.1.1 /\ d.2 = b !! d.1.1 /\ d.1.2 <> d.2.

Lemma collect_omap {A B} (f : A -> res unit (option B)) (g : A -> option B) l :
  (forall x, f x = Ok (g x)) -> collect f l = Ok (omap g l).
Proof.
  intros Hf. induction l as [|x l IH]; [done|]. cbn [collect]. rewrite Hf, IH. cbn [mbind res_bind omap list_omap].
  by destruct (g x).
Qed.

Definition branch_side (st : Hamt) (kv : bytes * bytes) : option (bytes * option bytes * option bytes) :=
  if bool_decide (Hamt.view st !! kv.1 = Some kv.2) then None else Some (kv.1, Hamt.view st !! kv.1, Some kv.2).

Definition live_side (b : Hamt) (kv : bytes * bytes) : option (bytes * option bytes * option bytes) :=
  match Hamt.view b !! kv.1 with None => Some (kv.1, Some kv.2, None) | Some _ => None end.

Lemma branch_diff_omap e id b : snapshots e !! id = Some b -> hamt_wf (state e) -> hamt_wf b ->
  branch_diff e id = Ok (omap (branch_side (state e)) (Hamt.iter b) ++ omap (live_side b) (Hamt.iter (state e))).
Proof.
  intros Hb Hs Hwf. unfold branch_diff. rewrite Hb. cbn [ok_or mbind res_bind].
  rewrite (collect_omap _ (branch_side (state e))), (collect_omap _ (live_side b)); [done|..].
  - intros kv. unfold diff_live. by rewrite hamt_get_spec.
  - intros kv. unfold diff_branch. by rewrite hamt_get_spec.
Qed.

Lemma omap_keys_sublist {A} (f : bytes * bytes -> option (bytes * A * A)) l :
  (forall kv d, f kv = Some d -> d.1.1 = kv.1) -> sublist ((fun d => d.1.1) <$> omap f l) l.*1.
Proof.
  intros Hf. induction l as [|kv l IH]; [done|]. cbn [omap list_omap]. csimpl.
  destruct (f kv) as [d|] eqn:E; csimpl; [|by apply sublist_cons]. rewrite (Hf kv d E). by apply sublist_skip.
Qed.

(** C19: The differences of a branch and the live state: each key on which they differ
    once, with both values, and no other key. *)
Theorem branch_diff_exact e id b : snapshots e !! id = Some b -> hamt_wf (state e) -> hamt_wf b ->
  exists l, branch_diff e id = Ok l /\ NoDup ((fun d => d.1.1) <$> l) /\
    forall d, d ∈ l <-> diff_entry (Hamt.view (state e)) (Hamt.view b) d.
Proof.
  intros Hb Hs Hwf. rewrite (branch_diff_omap e id b) by done. eexists. split; [done|].
  assert (forall d, d ∈ omap (branch_side (state e)) (Hamt.iter b) <->
    diff_entry (Hamt.view (state e)) (Hamt.view b) d /\ is_Some (Hamt.view b !! d.1.1)) as H1.
  { intros [[k a] v]. rewrite list_elem_of_omap. unfold branch_side, diff_entry. cbn [fst snd]. split.
    - intros ([k' v'] & Hin & E). apply elem_of_hamt_iter in Hin; [|done]. cbn [fst snd] in E.
      case_bool_decide as Hne; [done|]. injection E as <- <- <-. rewrite Hin. eauto.
    - intros ((-> & -> & Hne) & [v' Hv]). exists (k, v'). rewrite elem_of_hamt_iter by done. split; [done|]. cbn [fst snd].
      rewrite Hv in *. by rewrite bool_decide_eq_false_2. }
  assert (forall d, d ∈ omap (live_side b) (Hamt.iter (state e)) <->
    diff_entry (Hamt.view (state e)) (Hamt.view b) d /\ Hamt.view b !! d.1.1 = None) as H2.
  { intros [[k a] v]. rewrite list_elem_of_omap. unfold live_side, diff_entry. cbn [fst snd]. split.
    - intros ([k' v'] & Hin & E). apply elem_of_hamt_iter in Hin; [|done]. cbn [fst snd] in E.
      destruct (Hamt.view b !! k') eqn:Hbk; [done|]. injection E as <- <- <-. by rewrite Hin, Hbk.
    - intros ((-> & -> & Hne) & Hn). rewrite Hn in *. destruct (Hamt.view (state e) !! k) as [v'|] eqn:Hv; [|done].
      exists (k, v'). rewrite elem_of_hamt_iter by done. split; [done|]. cbn [fst snd]. by rewrite Hn. }
  split.
  - rewrite fmap_app. apply NoDup_app. split; [|split].
    + eapply sublist_NoDup; [|apply omap_keys_sublist]; [by apply iter_nodup|].
      intros kv d. unfold branch_side. case_bool_decide; [done|]. by intros [= <-].
    + intros k (d & -> & Hd)%list_elem_of_fmap (d' & E & Hd')%list_elem_of_fmap.
      apply H1 in Hd as [_ [? Hd]]. apply H2 in Hd' as [_ Hd']. rewrite E in Hd. congruence.
    + eapply sublist_NoDup; [|apply omap_keys_sublist]; [by apply iter_nodup|].
      intros kv d. unfold live_side. destruct (Hamt.view b !! kv.1); [done|]. by intros [= <-].
  - intros d. rewrite elem_of_app, H1, H2. destruct (Hamt.view b !! d.1.1) as [v|]; [|tauto].
    split; [intros [[? _]|[_ [=]]]; done|]. intros ?. left. eauto.
Qed.
End diff.

Section branch.
Context (crc : bytes -> Z) (deflate : bytes -> bytes) (read_dir : fs -> list bytes) (ln : f64 -> f64).
Context (iter : gmap bytes CacheEntry -> list (bytes * CacheEntry)).
Context {I : Type} `{Hops : IndexOps I} `{Hlaws : !IndexLaws I}.
Context (ks : gset bytes) (Hks : no_collision ks).
Context (cap : Z) (Hcap : cap <= 2 ^ 63) (Hln : forall n, Z.of_nat n < cap -> bloom_fits ln n).
Implicit Types (e : Engine (I := I)).

(** What a key reads as, and the engine after the read. *)
Definition read e (k : bytes) : option bytes := (Engine.get iter e k).1.
Definition after_read e (k : bytes) : Engine := (Engine.get iter e k).2.

(** ** Snapshots *)
Lemma keeps_snaps {A} (m : EM A) : keeps log_snaps m -> keeps (I := I) snapshots m.
Proof. intros Hm e. specialize (Hm e). by injection Hm. Qed.

Lemma keeps_wal_append k v : keeps (I := I) snapshots (wal_append crc k v).
Proof. intros e. unfold wal_append. by destruct (Wal.append crc (wal e) k v). Qed.

Lemma keeps_wal_flush : keeps (I := I) snapshots wal_flush.
Proof. intros e. unfold wal_flush. by destruct (Wal.flush (wal e)). Qed.

Lemma keeps_wal_append_all kvs : keeps (I := I) snapshots (wal_append_all crc kvs).
Proof.
  induction kvs as [|kv kvs IH]; cbn [wal_append_all]; [apply keeps_ret|].
  apply keeps_bind; [apply keeps_wal_append|done].
Qed.

Lemma keeps_logged_write {A} (m : EM unit) (f : EM A) : keeps (I := I) snapshots m -> keeps log_snaps f ->
  keeps snapshots (bind m (fun _ => bind wal_flush (fun _ => f))).
Proof.
  intros Hm Hf. apply keeps_bind; [done|]. intros _. apply keeps_bind; [apply keeps_wal_flush|].
  intros _. by apply keeps_snaps.
Qed.

Lemma out_snapshots {A} (f : A -> eout) (m : EM A) e : keeps (I := I) snapshots m -> snapshots (out f (m e)).2 = snapshots e.
Proof. intros Hm. apply Hm. Qed.

Lemma do_eop_snapshots e o : snapshots (do_eop crc ln iter e o).2 = snapshots e.
Proof.
  assert (forall k v, keeps (I := I) snapshots (put crc ln k v)) as Hput.
  { intros k v. apply keeps_logged_write; [apply keeps_wal_append|]. apply keeps_put_tail; auto with uldb. }
  assert (forall k, keeps (I := I) snapshots (Engine.delete crc ln k)) as Hdel.
  { intros k. apply keeps_logged_write; [apply keeps_wal_append|]. apply keeps_put_tail; auto with uldb. }
  assert (forall kvs, keeps (I := I) snapshots (put_batch crc ln kvs)) as Hbatch.
  { intros kvs. apply keeps_logged_write; [apply keeps_wal_append_all|]. apply keeps_batch_tail. auto with uldb. }
  assert (forall kvs, keeps (I := I) snapshots (bulk_ingest crc ln kvs)) as Hbulk.
  { intros [|kv kvs]; [done|]. apply keeps_logged_write; [apply keeps_wal_append_all|]. apply keeps_batch_tail.
    intros _. apply keeps_bulk_tail. }
  destruct o as [k v|k|kvs|kvs|k|s t|].
  - by apply (out_snapshots (fun _ => OUnit) (put crc ln k v)).
  - by apply (out_snapshots (fun _ => OUnit) (Engine.delete crc ln k)).
  - by apply (out_snapshots (fun _ => OUnit) (put_batch crc ln kvs)).
  - by apply (out_snapshots OCount (bulk_ingest crc ln kvs)).
  - cbn [do_eop]. pose proof (get_keeps iter e k) as [= _ E]. by destruct (Engine.get iter e k).
  - done.
  - apply (out_snapshots (fun _ => OUnit) (flush ln)). apply keeps_snaps, keeps_flush.
Qed.

(** What can happen to an engine between two looks at a snapshot: the operations on
    records, the profiled put, a turn of the worker, every operation on snapshots
    and branches, and an agent's write, which replaces the trie of its branch. *)
Inductive action :=
  | ARecord (o : eop)
  | APutProfiled (key value : bytes)
  | AWorker (io : nat)
  | ACreate (name : bytes)
  | ARestore (name : bytes)
  | ADelete (name : bytes)
  | ARollback (branch : bytes)
  | ABranch (branch from_snapshot : bytes)
  | AMerge (branch : bytes)
  | AWrite (branch : bytes) (h : Hamt).

Definition act e (a : action) : Engine (I := I) :=
  match a with
  | ARecord o => (do_eop crc ln iter e o).2
  | APutProfiled k v => (put_profiled crc ln k v e).2
  | AWorker io => default e (engine_worker deflate read_dir io e)
  | ACreate name => (snapshot_create name e).2
  | ARestore name => (snapshot_restore name e).2
  | ADelete name => (snapshot_delete name e).2
  | ARollback b => (branch_rollback b e).2
  | ABranch b from => (branch_create b from e).2
  | AMerge b => (branch_merge crc b e).2
  | AWrite b h =>
      match snapshots e !! b with
      | Some _ => set_snapshots (<[b := h]> (snapshots e)) (snapshot_counter e) e
      | None => e
      end
  end.

(** The snapshot an action writes or removes. *)
Definition aims_at e (a : action) : option bytes :=
  match a with
  | ACreate name => match (snapshot_create name e).1 with Ok id => Some id | _ => None end
  | ADelete name | ARollback name | ABranch name _ | AMerge name | AWrite name _ => Some name
  | _ => None
  end.

Definition acts : list action -> Engine (I := I) -> Engine (I := I) := fun l e => foldl act e l.

(** No action of the list writes or removes the snapshot [id]. *)
Fixpoint spares (id : bytes) (l : list action) e : bool :=
  match l with
  | [] => true
  | a :: l => bool_decide (aims_at e a <> Some id) && spares id l (act e a)
  end.

Lemma keeps_merge_entries kvs : keeps (I := I) snapshots (merge_entries crc kvs).
Proof.
  induction kvs as [|kv kvs IH]; cbn [merge_entries]; [apply keeps_ret|].
  apply keeps_bind; [apply keeps_snaps, keeps_state_put|]. intros _.
  apply keeps_bind; [intros e; pose proof (keeps_wal_append kv.1 kv.2 e) as E; by destruct (wal_append crc kv.1 kv.2 e) as [[] ?]|].
  intros _. apply keeps_bind; [apply keeps_snaps, keeps_memtable_put|]. intros _.
  apply keeps_bind; [apply keeps_snaps, keeps_index_put|]. by intros _.
Qed.

Lemma keeps_put_profiled k v : keeps (I := I) snapshots (put_profiled crc ln k v).
Proof.
  apply keeps_logged_write; [apply keeps_wal_append|]. apply keeps_bind; [apply keeps_memtable_put|]. intros f.
  apply keeps_bind; [by apply keeps_modify|]. intros _. apply keeps_bind; [apply keeps_index_put|]. intros _.
  apply keeps_bind; [apply keeps_state_put|]. intros _. apply keeps_when, keeps_flush_memtable.
Qed.

Lemma branch_merge_snapshots e b id : b <> id -> snapshots (branch_merge crc b e).2 !! id = snapshots e !! id.
Proof.
  intros Hne. unfold branch_merge. destruct (snapshots e !! b); [|done]. unfold bind at 1.
  pose proof (keeps_merge_entries (Hamt.iter h) e) as E. destruct (merge_entries crc (Hamt.iter h) e) as [[] e'];
    cbn in *; rewrite <- E; [by apply lookup_delete_ne|done..].
Qed.

Lemma act_snapshots e a id : aims_at e a <> Some id -> snapshots (act e a) !! id = snapshots e !! id.
Proof.
  intros Ha. destruct a as [o|k v|io|name|name|name|b|b from|b|b h]; cbn [act aims_at] in *.
  - by rewrite do_eop_snapshots.
  - pose proof (keeps_put_profiled k v e) as E. by rewrite E.
  - unfold engine_worker. by destruct (worker_step deflate read_dir io (compactor e)).
  - unfold snapshot_create in *. destruct name; cbn in *; apply lookup_insert_ne; congruence.
  - unfold snapshot_restore. by destruct (snapshots e !! name).
  - cbn. apply lookup_delete_ne. congruence.
  - cbn. apply lookup_delete_ne. congruence.
  - unfold branch_create. destruct (match from with [] => _ | _ => _ end); [|done]. cbn. apply lookup_insert_ne. congruence.
  - apply branch_merge_snapshots. congruence.
  - destruct (snapshots e !! b); [|done]. cbn. apply lookup_insert_ne. congruence.
Qed.

Lemma acts_snapshots id l : forall e, spares id l e = true -> snapshots (acts l e) !! id = snapshots e !! id.
Proof.
  induction l as [|a l IH]; intros e Hs; [done|]. apply andb_true_iff in Hs as [Ha%bool_decide_eq_true Hs].
  change (acts (a :: l) e) with (acts l (act e a)). by rewrite IH, act_snapshots.
Qed.


Lemma branch_create_inv n e e' b s id : engine_inv ks n e -> branch_create b s e = (Ok id, e') -> engine_inv ks n e'.
Proof.
  intros [] E. unfold branch_create in E. destruct (match s with [] => _ | _ => _ end); [|done].
  injection E as _ <-. by split.
Qed.

(** ** Merging a branch *)
Lemma merge_entries_ok kvs : forall e, faults (wal e) = [] -> idx_wf (indices e) -> hamt_wf (state e) ->
  dom (Hamt.view (state e)) ⊆ ks -> (forall kv, kv ∈ kvs -> kv.1 ∈ ks) ->
  exists e', merge_entries crc kvs e = (Ok tt, e') /\
    Hamt.view (state e') = insert_kvs (Hamt.view (state e)) kvs /\ hamt_wf (state e') /\
    memtable e' = put_kvs (memtable e) kvs /\ compactor e' = compactor e /\ frozen e' = frozen e /\
    cache e' = cache e /\ snapshots e' = snapshots e /\
    file (wal e') ++ buf (wal e') = (file (wal e) ++ buf (wal e)) ++ log_bytes crc (recs kvs) /\
    faults (wal e') = [] /\ idx_wf (indices e') /\ flush_count e' = flush_count e.
Proof.
  induction kvs as [|[k v] kvs IH]; intros e Hf Hi Hh Hd Hk.
  { exists e. cbn. by rewrite app_nil_r. }
  cbn [merge_entries fst snd].
  assert (k ∈ ks) as Hkk by (apply (Hk (k, v)); left).
  destruct (put_spec (state e) k v Hh (no_collision_put ks _ _ Hks Hd Hkk)) as (h & Eh & Hwf & Hv).
  destruct (append_ok crc (wal e) k v Hf) as (w & Ew & Hfw & Hdw).
  destruct (idx_on_put_wf (indices e) k v Hi) as (i & Ei & Hi').
  set (e1 := set_indices i (set_memtable (Memtable.store (memtable e) k (Some v)) (set_wal w (set_state h e)))).
  destruct (IH e1) as (e' & E & H1 & H2 & H3 & H4 & H5 & H6 & H7 & H8 & H9 & H10 & H11); try done.
  { unfold e1. cbn [state set_state set_wal set_memtable set_indices]. rewrite Hv, dom_insert.
    clear -Hd Hkk. set_solver. }
  { intros kv Hkv. apply Hk. by right. }
  exists e'. rewrite H1, H3, H4, H5, H6, H7, H8, H9, H11. split.
  - unfold bind at 1. unfold state_put, bind at 1, lift, modify. rewrite Eh.
    unfold bind at 1. unfold wal_append. cbn [wal set_state]. rewrite Ew.
    unfold bind at 1. unfold memtable_put, Memtable.put. cbn [memtable set_wal set_state].
    unfold bind at 1. unfold index_put, bind at 1, lift, modify. cbn [indices set_memtable set_wal set_state]. rewrite Ei.
    exact E.
  - unfold e1. cbn [state set_state set_wal set_memtable set_indices wal memtable compactor frozen cache snapshots].
    rewrite Hv, Hdw. split_and!; try done. unfold recs. cbn [fmap list_fmap log_bytes fst snd].
    unfold ser. cbn [Wal.key Wal.value]. by rewrite app_assoc.
Qed.

Lemma put_kvs_lookup kvs : forall m k, NoDup kvs.*1 -> Memtable.value <$> Memtable.entries (put_kvs m kvs) !! k =
  match (list_to_map kvs : gmap bytes bytes) !! k with
  | Some v => Some (Some v)
  | None => Memtable.value <$> Memtable.entries m !! k
  end.
Proof.
  induction kvs as [|[k0 v0] kvs IH]; intros m k Hnd; [done|]. csimpl in Hnd. apply NoDup_cons in Hnd as [Hni Hnd].
  cbn [put_kvs foldl fst snd]. fold (put_kvs (Memtable.store m k0 (Some v0)) kvs). rewrite IH by done.
  rewrite list_to_map_cons, lookup_insert, store_lookup. cbn [fst snd]. case_decide as E; [|done].
  subst. by rewrite not_elem_of_list_to_map_1.
Qed.

Lemma put_kvs_size kvs : forall m, (size (Memtable.entries (put_kvs m kvs)) <= size (Memtable.entries m) + length kvs)%nat.
Proof.
  clear. induction kvs as [|[k v] kvs IH]; intros m; [cbn; lia|]. cbn [put_kvs foldl fst snd length]. fold (put_kvs (Memtable.store m k (Some v)) kvs).
  specialize (IH (Memtable.store m k (Some v))).
  assert (size (Memtable.entries (Memtable.store m k (Some v))) <= S (size (Memtable.entries m)))%nat as Hs; [|lia].
  cbn [Memtable.store Memtable.entries]. rewrite map_size_insert. destruct (Memtable.entries m !! k); cbn; lia.
Qed.

Lemma branch_merge_ok n e id b : engine_inv ks n e -> snapshots e !! id = Some b -> hamt_wf b ->
  dom (Hamt.view b) ⊆ ks ->
  exists e', branch_merge crc id e = (Ok (size (Hamt.view b)), e') /\
    Hamt.view (state e') = Hamt.view b ∪ Hamt.view (state e) /\
    (forall k, read e' k = (Hamt.view b ∪ Hamt.view (state e)) !! k) /\
    snapshots e' = base.delete id (snapshots e) /\
    file (wal e') ++ buf (wal e') = (file (wal e) ++ buf (wal e)) ++ log_bytes crc (recs (Hamt.iter b)) /\
    ((forall k, is_Some (Hamt.view b !! k) -> Cache.entries (cache e) !! k = None) ->
     engine_inv ks (n + Z.of_nat (size (Hamt.view b))) e').
Proof.
  clear Hln Hcap cap deflate read_dir ln. unfold read. intros Hinv Hb Hwf Hd. pose proof Hinv as [].
  destruct (merge_entries_ok (Hamt.iter b) e) as (e1 & E & Hv & Hh & Hm & Hc & Hf & Hca & Hs & Hw & Hfa & Hi & Hfl); try done.
  { intros [k v] Hkv. apply Hd, elem_of_dom. exists v. by apply elem_of_hamt_iter. }
  assert (insert_kvs (Hamt.view (state e)) (Hamt.iter b) = Hamt.view b ∪ Hamt.view (state e)) as Hu
    by (by apply insert_kvs_union, iter_nodup).
  set (e' := set_snapshots (base.delete id (snapshots e1)) (snapshot_counter e1) e1).
  assert (length (Hamt.iter b) = size (Hamt.view b)) as Hlen by (by rewrite (iter_spec b Hwf), length_map_to_list).
  assert (forall k, Memtable.value <$> Memtable.entries (memtable e') !! k = match Hamt.view b !! k with
    | Some v => Some (Some v) | None => Memtable.value <$> Memtable.entries (memtable e) !! k end) as Hlk.
  { intros k. unfold e'. cbn [memtable set_snapshots]. rewrite Hm, put_kvs_lookup by (by apply iter_nodup). done. }
  assert (forall k, content e' k = union_with (fun x _ => Some x) (Hamt.view b !! k) (content e k)) as Hcon.
  { intros k. specialize (Hlk k). unfold content. unfold e' at 2. cbn [compactor set_snapshots]. rewrite Hc.
    destruct (Hamt.view b !! k) as [v|].
    - apply fmap_Some in Hlk as (en & -> & <-). destruct (Memtable.entries (memtable e) !! k) as [en0|];
        [by destruct (Memtable.value en0)|by destruct (Compaction.get _ k)].
    - destruct (Memtable.entries (memtable e') !! k) as [en|], (Memtable.entries (memtable e) !! k) as [en0|];
        cbn in Hlk; try done; [injection Hlk as ->; by destruct (Memtable.value en0)|by destruct (Compaction.get _ k)]. }
  exists e'. split; [|split; [|split; [|split; [|split]]]].
  - unfold branch_merge. rewrite Hb. unfold bind. rewrite E. unfold modify, ret. by rewrite Hlen.
  - unfold e'; cbn [state set_snapshots]; by rewrite Hv.
  - intros k. specialize (Hlk k). rewrite lookup_union, inv_content. rewrite (get_content iter); [apply Hcon|..].
    + unfold e'. cbn [frozen set_snapshots]. by rewrite Hf.
    + intros en Hn. unfold e' at 1. cbn [cache set_snapshots]. rewrite Hca. intros Hen. rewrite Hcon.
      rewrite Hn in Hlk. destruct (Hamt.view b !! k) as [v|]; [done|]. by rewrite (inv_cache k en Hen).
  - unfold e'; cbn [snapshots set_snapshots]; by rewrite Hs.
  - exact Hw.
  - intros Hno. constructor; unfold e'; cbn [wal indices state compactor frozen cache memtable flush_count set_snapshots];
      rewrite ?Hc, ?Hf, ?Hca, ?Hfl, ?Hv, ?Hu; try done.
    + rewrite dom_union_L. set_solver.
    + intros k. rewrite lookup_union, inv_content. symmetry. apply Hcon.
    + intros k en Hen. change (content e' k = Some (Cache.value en)). rewrite Hcon, (inv_cache k en Hen).
      destruct (Hamt.view b !! k) as [v|] eqn:Ev; [|done]. rewrite Hno in Hen; [done|]. by exists v.
    + rewrite Hm. pose proof (put_kvs_size (Hamt.iter b) (memtable e)). lia.
    + lia.
Qed.

(** Merging a branch: the branch's entries win over the live ones, every key then
    reads as the merged map says, the branch is gone, and the records of the merge
    reach the log writer, which is not flushed. *)
Theorem branch_merge_reads n e id b : engine_inv ks n e -> snapshots e !! id = Some b -> hamt_wf b ->
  dom (Hamt.view b) ⊆ ks ->
  exists e', branch_merge crc id e = (Ok (size (Hamt.view b)), e') /\
    Hamt.view (state e') = Hamt.view b ∪ Hamt.view (state e) /\
    (forall k, read e' k = (Hamt.view b ∪ Hamt.view (state e)) !! k) /\
    snapshots e' = base.delete id (snapshots e) /\
    file (wal e') ++ buf (wal e') = (file (wal e) ++ buf (wal e)) ++ log_bytes crc (recs (Hamt.iter b)).
Proof.
  intros Hinv Hb Hwf Hd. destruct (branch_merge_ok n e id b Hinv Hb Hwf Hd) as (e' & H1 & H2 & H3 & H4 & H5 & _). by exists e'.
Qed.

(** ** Reads that miss the latest write *)

(** A read answered by the pages, which it leaves in the cache. *)
Lemma get_pages e k v : Memtable.entries (memtable e) !! k = None -> Forall (fun m => Memtable.entries m = ∅) (frozen e) ->
  Cache.entries (cache e) !! k = None -> Compaction.get (compaction (compactor e)) k = Some v ->
  exists c, Engine.get iter e k = (Some v, set_cache c (count_ops 0 1 0 e)) /\
    exists en, Cache.entries c !! k = Some en /\ Cache.value en = v.
Proof.
  intros Hm Hf Hca Hc. unfold Engine.get, Memtable.get_entry. cbn [memtable frozen cache compactor count_ops].
  rewrite Hm, find_frozen_empty by (rewrite rev_alt; by apply Forall_reverse).
  unfold Cache.get. rewrite Hca, Hc. eexists. split; [done|]. unfold Cache.insert. rewrite Hca. cbn [Cache.entries].
  rewrite lookup_insert_eq. eauto.
Qed.

Lemma get_cached e k en : Memtable.entries (memtable e) !! k = None -> Forall (fun m => Memtable.entries m = ∅) (frozen e) ->
  Cache.entries (cache e) !! k = Some en -> (Engine.get iter e k).1 = Some (Cache.value en).
Proof.
  intros Hm Hf Hca. unfold Engine.get, Memtable.get_entry. cbn [memtable frozen cache compactor count_ops].
  rewrite Hm, find_frozen_empty by (rewrite rev_alt; by apply Forall_reverse).
  unfold Cache.get. by rewrite Hca.
Qed.

(** A put that fills the memtable returns while its page waits for the worker, and
    the frozen memtables kept for that window are empty: until the worker runs, the
    key reads as the value it had on disk before; and that read leaves the old value
    in the cache, so that the key keeps reading as it did after the worker has
    run. *)
Theorem flush_gap_stale n io e k v v0 : engine_inv ks n e -> n + 1 < cap -> k ∈ ks -> v <> v0 ->
  Memtable.should_flush (Memtable.store (memtable e) k (Some v)) = true ->
  Compaction.get (compaction (compactor e)) k = Some v0 ->
  (put crc ln k v e).1 = Ok tt /\
  read (put crc ln k v e).2 k = Some v0 /\
  read (settle deflate read_dir io (after_read (put crc ln k v e).2 k)) k = Some v0.
Proof.
  unfold read, after_read. intros Hinv Hn Hk Hne Hfl Hc.
  destruct (put_ok crc ln ks Hks n e k v Hinv Hk) as (e1 & E & Hinv1 & Hv & Hm & Hc1 & Hth & _ & _ & Hca1 & _).
  destruct (flush_memtable_ok ln ks cap Hcap Hln (n + 1) e1 Hinv1 Hn) as
    (e2 & p & E2 & _ & Hm2 & Hc2 & Hf2 & _ & _ & Hca2 & _).
  assert (put crc ln k v e = (Ok tt, e2)) as -> by (rewrite E, Hfl; exact E2). cbn [fst snd].
  assert (Forall (fun m => Memtable.entries m = ∅) (frozen e2)) as Hf.
  { rewrite Hf2. apply trim_frozen_forall, Forall_app. split; [apply Hinv1|]. by repeat constructor. }
  assert (Memtable.entries (memtable e2) !! k = None) as Hmk by (by rewrite Hm2).
  destruct (get_pages e2 k v0) as (c & -> & en & Hen & <-); [done|done| | |].
  { rewrite Hca2, Hca1. apply lookup_delete_eq. }
  { rewrite Hc2, Hc1. exact Hc. }
  cbn [fst snd]. split_and!; [done|done|]. by apply get_cached.
Qed.

(** [put_profiled] leaves the cache alone: a cached key reads as its new value
    while that is in the memtable, and as the cached old value once the memtable has
    been flushed and compacted. *)
Theorem put_profiled_stale n io e k v en : engine_inv ks n e -> n + 1 < cap -> k ∈ ks ->
  Memtable.entries (memtable e) !! k = None -> Cache.entries (cache e) !! k = Some en ->
  Memtable.should_flush (Memtable.store (memtable e) k (Some v)) = false ->
  let e1 := (put_profiled crc ln k v e).2 in
  let e2 := settle deflate read_dir io (flush ln e1).2 in
  (put_profiled crc ln k v e).1 = Ok tt /\ read e1 k = Some v /\
  (flush ln e1).1 = Ok tt /\ read e2 k = Some (Cache.value en).
Proof.
  unfold read. intros Hinv Hn Hk Hmk Hen Hfl. pose proof Hinv as [].
  destruct (log_record crc e k v inv_faults) as (w & _ & _ & _ & Elog).
  destruct (idx_on_put_wf (indices e) k v inv_idx) as (i & Ei & Hi).
  destruct (put_spec (state e) k v inv_state (no_collision_put ks _ _ Hks inv_keys Hk)) as (h & Eh & Hh & _).
  set (m := Memtable.store (memtable e) k (Some v)) in *.
  set (e1' := set_state h (set_indices i (count_ops 1 0 0 (set_memtable m (set_wal w e))))).
  assert (put_profiled crc ln k v e = (Ok tt, e1')) as ->.
  { unfold put_profiled. rewrite Elog. unfold bind, memtable_put, Memtable.put, modify. cbn [memtable set_wal fst snd].
    unfold index_put, bind, lift, modify. cbn [indices set_memtable set_wal count_ops]. rewrite Ei.
    unfold state_put, bind, lift, modify. cbn [state set_indices set_memtable set_wal count_ops]. rewrite Eh.
    fold m. rewrite Hfl. done. }
  cbn [fst snd]. cbv zeta.
  assert (Memtable.entries m !! k = Some {| Memtable.value := Some v; seq := u64 (next_seq (memtable e) + 1) |}) as Hk1
    by (unfold m; rewrite store_lookup; by case_decide).
  assert (Memtable.is_empty m = false) as Hne.
  { unfold Memtable.is_empty. apply bool_decide_eq_false_2. intros E0%map_size_empty_inv. by rewrite E0, lookup_empty in Hk1. }
  destruct (flush_memtable_gen ln cap Hln e1') as (e2 & p & E2 & _ & Hm2 & Hc2 & Hf2 & _ & _ & Hca2 & _).
  { cbn [memtable e1' set_state set_indices count_ops set_memtable]. unfold m, Memtable.store. cbn [Memtable.entries].
    rewrite map_size_insert, Hmk. lia. }
  { done. }
  { done. }
  { cbn. lia. }
  assert (flush ln e1' = (Ok tt, e2)) as Efl.
  { unfold flush. change (memtable e1') with m. by rewrite Hne. }
  split; [done|]. split; [|split; [by rewrite Efl|]].
  - assert (Memtable.entries (memtable e1') !! k = Memtable.entries m !! k) as E1 by done. rewrite Hk1 in E1.
    rewrite get_content; [unfold content; by rewrite E1|done|]. intros en0. by rewrite E1.
  - rewrite Efl. cbn [snd]. apply get_cached.
    + unfold settle. cbn [memtable set_compactor]. by rewrite Hm2.
    + unfold settle. cbn [frozen set_compactor]. rewrite Hf2. apply trim_frozen_forall, Forall_app.
      split; [done|]. by repeat constructor.
    + unfold settle. cbn [cache set_compactor]. by rewrite Hca2.
Qed.
End branch.

(** ** Witnesses *)
Definition sample_keys : gset bytes := list_to_set [str "a"; str "b"].

Lemma sample_keys_ok : no_collision sample_keys.
Proof. apply distinct_hashes_ok. vm_compute; reflexivity. Qed.

(** A database holding [a], and one whose memtable overflows at every write. *)
Definition db1 : Engine := (sample_run (engine_at 1000) [EPut (str "a") (str "1"); EFlush; EGet (str "a")]).2.
Definition db2 : Engine := (sample_run (engine_at 5) [EPut (str "a") (str "1")]).2.

Lemma run_safe_step {I} `{IndexOps I} io (e : Engine (I := I)) o os : 
  (S (length (Compaction.L0 (compaction (compactor e)))) <? Compaction.L0_LIMIT)%nat = true ->
  run_safe crc32 id list_names ln_sample map_to_list io (run_eop crc32 id list_names ln_sample map_to_list io e o).2 os ->
  run_safe crc32 id list_names ln_sample map_to_list io e (o :: os).
Proof. intros Hl%Nat.ltb_lt Hs. split; [|done]. intros _. by left. Qed.

Lemma db1_inv : engine_inv sample_keys 4 db1.
Proof.
  apply (sample_run_inv sample_keys 1000 [EPut (str "a") (str "1"); EFlush; EGet (str "a")]);
    [apply sample_keys_ok|done|done|by vm_compute|].
  repeat (apply run_safe_step; [vm_compute; reflexivity|]). done.
Qed.

Lemma db2_inv : engine_inv sample_keys 2 db2.
Proof.
  apply (sample_run_inv sample_keys 5 [EPut (str "a") (str "1")]); [apply sample_keys_ok|done|done|by vm_compute|].
  repeat (apply run_safe_step; [vm_compute; reflexivity|]). done.
Qed.

(** The key is rewritten, deleted, flushed and merged over by an agent's branch, the
    live state is restored, and other snapshots come and go. *)
Definition sample_actions : list action :=
  [ARecord (EPut (str "a") (str "2")); ABranch (str "dev") (str "s"); AWrite (str "dev") Hamt.new; ACreate [];
   AMerge (str "dev"); ARecord (EDelete (str "a")); ARecord EFlush; AWorker 9; ARestore (str "s");
   APutProfiled (str "a") (str "3"); ADelete (str "snap-0001"); ARollback (str "gone")].


Definition db3 : Engine := (branch_create (str "dev") [] db1).2.
Definition db4 : Engine := (put crc32 ln_sample (str "b") (str "2") db3).2.

Lemma db3_inv : engine_inv sample_keys 4 db3.
Proof.
  apply (branch_create_inv sample_keys 4 db1 db3 (str "dev") [] (str "dev") db1_inv). by vm_compute.
Qed.

Lemma db4_inv : engine_inv sample_keys 5 db4.
Proof.
  destruct (put_ok crc32 ln_sample sample_keys sample_keys_ok 4 db3 (str "b") (str "2") db3_inv) as (e & E & Hi & _).
  - by vm_compute.
  - unfold db4. rewrite E. assert (Memtable.should_flush (Memtable.store (memtable db3) (str "b") (Some (str "2"))) = false) as ->
      by (by vm_compute). exact Hi.
Qed.

Lemma db4_branch : snapshots db4 !! str "dev" = Some (state db1).
Proof. by vm_compute. Qed.

Lemma branch_diff_exact_witness :
  branch_diff db4 (str "dev") = Ok [(str "b", Some (str "2"), None)] /\
  forall d, d ∈ [(str "b", Some (str "2"), None)] <-> diff_entry (Hamt.view (state db4)) (Hamt.view (state db1)) d.
Proof.
  destruct (branch_diff_exact db4 (str "dev") (state db1) db4_branch (inv_state _ _ _ db4_inv) (inv_state _ _ _ db1_inv))
    as (l & E & _ & H).
  assert (branch_diff db4 (str "dev") = Ok [(str "b", Some (str "2"), None)]) as E' by (by vm_compute).
  rewrite E' in E. injection E as <-. split; [exact E'|exact H].
Defined.

Lemma branch_merge_reads_witness : exists e', branch_merge crc32 (str "dev") db4 = (Ok 1%nat, e') /\
  read map_to_list e' (str "a") = Some (str "1") /\ read map_to_list e' (str "b") = Some (str "2").
Proof.
  destruct (branch_merge_reads crc32 map_to_list sample_keys sample_keys_ok 5 db4 (str "dev") (state db1) db4_inv db4_branch
    (inv_state _ _ _ db1_inv) (inv_keys _ _ _ db1_inv)) as (e' & E & _ & Hget & _).
  exists e'. rewrite E, !Hget. split; [f_equal; f_equal; by vm_compute|]. split; by vm_compute.
Defined.

Lemma flush_gap_stale_witness : read map_to_list (put crc32 ln_sample (str "a") (str "2") db2).2 (str "a") = Some (str "1").
Proof.
  apply (flush_gap_stale crc32 id list_names ln_sample map_to_list sample_keys sample_keys_ok 17 ltac:(done) bloom_fits_sample
    2 100 db2 (str "a") (str "2") (str "1") db2_inv); by vm_compute.
Defined.

Lemma put_profiled_stale_witness :
  read map_to_list (settle id list_names 100 (flush ln_sample (put_profiled crc32 ln_sample (str "a") (str "2") db1).2).2)
    (str "a") = Some (str "1").
Proof.
  assert (Cache.entries (cache db1) !! str "a" = Some {| Cache.value := str "1"; generation := 1 |}) as Hc by (by vm_compute).
  destruct (put_profiled_stale crc32 id list_names ln_sample map_to_list sample_keys sample_keys_ok 17 ltac:(done) bloom_fits_sample
    4 100 db1 (str "a") (str "2") _ db1_inv ltac:(done) ltac:(by vm_compute) ltac:(by vm_compute) Hc ltac:(by vm_compute))
    as (_ & _ & _ & H). exact H.
Defined.
