(* ===== verification/Prog.v ===== *)
(** * Programs over the operations of an engine

    A client of the engine is a program: a tree of operations and of what is done
    with their results. It runs over a finite map and, with the same answers while the
    worker keeps up, over the engine. *)

From S2P Require Import Prelude Ordered Text Float Fnv Bloom Memtable Wal Page PageStore Compaction BgCompaction Cache Hamt IndexApi Engine EngineSpec.
Local Open Scope Z_scope.

Inductive Prog (A : Type) :=
  | Ret (a : A)
  | Do (o : eop) (k : res bytes eout -> Prog A).
Arguments Ret {A} a.
Arguments Do {A} o k.

Fixpoint pbind {A B : Type} (p : Prog A) (f : A -> Prog B) : Prog B :=
  match p with
  | Ret a => f a
  | Do o k => Do o (fun r => pbind (k r) f)
  end.

(** [?] and the propagation of panics. *)
Definition try_ {A B : Type} (p : Prog (res bytes A)) (f : A -> Prog (res bytes B)) : Prog (res bytes B) :=
  pbind p (fun r => match r with Ok a => f a | Err e => Ret (Err e) | Panic => Ret Panic end).

Definition e_put (key value : bytes) : Prog (res bytes unit) :=
  Do (EPut key value) (fun r => Ret (const tt <$> r)).
Definition e_delete (key : bytes) : Prog (res bytes unit) :=
  Do (EDelete key) (fun r => Ret (const tt <$> r)).
Definition e_get (key : bytes) : Prog (option bytes) :=
  Do (EGet key) (fun r => Ret (match r with Ok (OValue v) => v | _ => None end)).
Definition e_scan (start end_ : bytes) : Prog (res bytes (list (bytes * bytes))) :=
  Do (EScan start end_) (fun r => Ret (match r with Ok (OEntries l) => Ok l | Ok _ => Ok [] | Err e => Err e | Panic => Panic end)).

Definition e_batch (kvs : list (bytes * bytes)) : Prog (res bytes unit) :=
  Do (EBatch kvs) (fun r => Ret (const tt <$> r)).
Definition e_bulk (kvs : list (bytes * bytes)) : Prog (res bytes nat) :=
  Do (EBulk kvs) (fun r => Ret (match r with Ok (OCount n) => Ok n | Ok _ => Ok 0%nat | Err e => Err e | Panic => Panic end)).
Definition e_flush : Prog (res bytes unit) := Do EFlush (fun r => Ret (const tt <$> r)).

(** Deleting keys in order, stopping at the first error. *)
Fixpoint e_delete_all (keys : list bytes) : Prog (res bytes unit) :=
  match keys with
  | [] => Ret (Ok tt)
  | key :: keys' => try_ (e_delete key) (fun _ => e_delete_all keys')
  end.

(** The operations on a map. *)
Fixpoint run_map {A : Type} (m : gmap bytes bytes) (p : Prog A) : A * gmap bytes bytes :=
  match p with
  | Ret a => (a, m)
  | Do o k => let '(r, m') := spec_eop m o in run_map m' (k r)
  end.

Lemma run_map_bind {A B : Type} (p : Prog A) (f : A -> Prog B) m :
  run_map m (pbind p f) = let '(a, m') := run_map m p in run_map m' (f a).
Proof. revert m. induction p as [a|o k IH]; intros m; [done|]. cbn. destruct (spec_eop m o) as [r m']. apply IH. Qed.

Lemma run_delete_all ks : forall m, run_map m (e_delete_all ks) = (Ok tt, foldl (fun m k => base.delete k m) m ks).
Proof. induction ks as [|k ks IH]; intros m; [done|]. cbn. apply IH. Qed.

Lemma deletes_lookup ks : forall (m : gmap bytes bytes) k,
  foldl (fun m k => base.delete k m) m ks !! k = if decide (k ∈ ks) then None else m !! k.
Proof.
  induction ks as [|x ks IH]; intros m k; cbn [foldl]; [by rewrite decide_False by apply not_elem_of_nil|].
  rewrite IH, lookup_delete. destruct (decide (k ∈ ks)) as [Hi|Hi]; [by rewrite decide_True by (by right)|].
  case_decide; [subst; by rewrite decide_True by left|]. rewrite decide_False; [done|]. by intros [?|?]%elem_of_cons.
Qed.

(** What a program writes on its way. *)
Fixpoint prog_writes {A : Type} (m : gmap bytes bytes) (p : Prog A) : list (bytes * option bytes) :=
  match p with
  | Ret _ => []
  | Do o k => eop_writes o ++ prog_writes (spec_eop m o).2 (k (spec_eop m o).1)
  end.

Lemma prog_writes_bind {A B : Type} (p : Prog A) (f : A -> Prog B) : forall m,
  prog_writes m (pbind p f) = prog_writes m p ++ prog_writes (run_map m p).2 (f (run_map m p).1).
Proof.
  induction p as [a|o k IH]; intros m; [done|]. cbn [pbind prog_writes run_map]. rewrite IH, (assoc_L app).
  by destruct (spec_eop m o).
Qed.

Definition map_write (m : gmap bytes bytes) (w : bytes * option bytes) : gmap bytes bytes :=
  match w.2 with Some v => <[w.1 := v]> m | None => base.delete w.1 m end.

Lemma spec_eop_writes m o : (spec_eop m o).2 = foldl map_write m (eop_writes o).
Proof.
  destruct o as [k v|k|kvs|kvs|k|s t|]; try done; cbn [spec_eop snd eop_writes puts];
    (revert m; induction kvs as [|kv kvs IH]; intros m; [done|apply IH]).
Qed.

Lemma run_map_writes {A : Type} (p : Prog A) : forall m, (run_map m p).2 = foldl map_write m (prog_writes m p).
Proof.
  induction p as [a|o k IH]; intros m; [done|]. cbn [run_map prog_writes]. rewrite foldl_app, <- spec_eop_writes.
  destruct (spec_eop m o) as [r m']. apply IH.
Qed.

(** ** Running over the engine *)
Section engine.
Context (crc : bytes -> Z) (deflate : bytes -> bytes).
Context (read_dir : fs -> list bytes) (ln : f64 -> f64).
Context (iter : gmap bytes CacheEntry -> list (bytes * CacheEntry)).
Context {I : Type} `{Hops : IndexOps I} `{Hlaws : !IndexLaws I}.
Implicit Types (e : Engine (I := I)).
Context (ks : gset bytes) (Hks : no_collision ks).
Context (cap : Z) (Hcap : cap <= 2 ^ 63).
Context (Hln : forall n, Z.of_nat n < cap -> bloom_fits ln n).

Abbreviation exec := (run_eop crc deflate read_dir ln iter).

(** [bg] is what the worker thread does between two operations. *)
Fixpoint run_prog {A : Type} (bg : Engine -> Engine) e (p : Prog A) : A * Engine (I := I) :=
  match p with
  | Ret a => (a, e)
  | Do o k => let '(r, e') := do_eop crc ln iter e o in run_prog bg (bg e') (k r)
  end.

Lemma run_prog_bind {A B : Type} bg (p : Prog A) (f : A -> Prog B) : forall e,
  run_prog bg e (pbind p f) = let '(a, e') := run_prog bg e p in run_prog bg e' (f a).
Proof. induction p as [a|o k IH]; intros e; [done|]. cbn. destruct (do_eop _ _ _ e o) as [r e']. apply IH. Qed.

(** The conditions of the engine's refinement, along the run: the size bound, keys
    of distinct hashes, and flushes that do not overfill level 0 with pages that disagree. *)
Fixpoint prog_safe {A : Type} (io : nat) (n : Z) e (p : Prog A) : Prop :=
  match p with
  | Ret _ => n <= cap
  | Do o k => n + eop_cost o <= cap /\ (forall x, x ∈ eop_keys o -> x ∈ ks) /\ op_safe e o /\
      prog_safe io (n + eop_cost o) (exec io e o).2 (k (exec io e o).1)
  end.

(** The bound on entries and flushes after the run. *)
Fixpoint prog_count {A : Type} (io : nat) (n : Z) e (p : Prog A) : Z :=
  match p with
  | Ret _ => n
  | Do o k => prog_count io (n + eop_cost o) (exec io e o).2 (k (exec io e o).1)
  end.

Lemma prog_count_bind {A B : Type} io (p : Prog A) (f : A -> Prog B) : forall n e,
  prog_count io n e (pbind p f) =
  prog_count io (prog_count io n e p) (run_prog (settle deflate read_dir io) e p).2 (f (run_prog (settle deflate read_dir io) e p).1).
Proof.
  induction p as [a|o k IH]; intros n e; [done|]. cbn [pbind prog_count run_prog]. rewrite IH. unfold run_eop.
  by destruct (do_eop crc ln iter e o).
Qed.

Lemma prog_safe_bind {A B : Type} io (p : Prog A) (f : A -> Prog B) : forall n e, prog_safe io n e p ->
  prog_safe io (prog_count io n e p) (run_prog (settle deflate read_dir io) e p).2 (f (run_prog (settle deflate read_dir io) e p).1) ->
  prog_safe io n e (pbind p f).
Proof.
  induction p as [a|o k IH]; intros n e; [done|]. cbn [pbind prog_safe prog_count run_prog].
  intros (Hc & Hk & Ho & Hs) Hf. split_and!; [done..|]. apply IH; [done|]. unfold run_eop in *. by destruct (do_eop crc ln iter e o).
Qed.

(** A worker that catches up after each operation. *)
Lemma run_prog_ok {A : Type} io (p : Prog A) : forall n e, engine_inv ks n e -> prog_safe io n e p ->
  (run_prog (settle deflate read_dir io) e p).1 = (run_map (Hamt.view (state e)) p).1 /\
  Hamt.view (state (run_prog (settle deflate read_dir io) e p).2) = (run_map (Hamt.view (state e)) p).2 /\
  engine_inv ks (prog_count io n e p) (run_prog (settle deflate read_dir io) e p).2 /\
  idx_writes (indices e) (prog_writes (Hamt.view (state e)) p) = Ok (indices (run_prog (settle deflate read_dir io) e p).2).
Proof.
  induction p as [a|o k IH]; intros n e Hinv Hs; [done|]. destruct Hs as (Hc & Hk & Ho & Hs).
  destruct (run_eop_ok crc deflate read_dir ln iter ks Hks cap Hcap Hln n io e o Hinv Hc Hk Ho) as (E1 & E2 & E3 & Ex).
  cbn [run_prog run_map prog_count]. unfold run_eop in *. destruct (do_eop crc ln iter e o) as [r e1]. cbn [fst snd] in *.
  destruct (IH r (n + eop_cost o) _ E3 Hs) as (F1 & F2 & F3 & F4).
  cbn [prog_writes]. destruct (spec_eop (Hamt.view (state e)) o) as [r' m1]. cbn [fst snd] in *. subst r' m1.
  split_and!; [done..|]. unfold idx_writes in *. by rewrite foldl_app, Ex.
Qed.

(** A run without a flush is safe: a check by evaluation. *)
Fixpoint prog_safeb {A : Type} (io : nat) (n : Z) e (p : Prog A) : bool :=
  match p with
  | Ret _ => n <=? cap
  | Do o k => (n + eop_cost o <=? cap) && forallb (fun x => bool_decide (x ∈ ks)) (eop_keys o) && negb (op_flushes e o) &&
      prog_safeb io (n + eop_cost o) (exec io e o).2 (k (exec io e o).1)
  end.

Lemma prog_safeb_ok {A : Type} io (p : Prog A) : forall n e, prog_safeb io n e p = true -> prog_safe io n e p.
Proof.
  induction p as [a|o k IH]; intros n e Hb; cbn in *; [lia|].
  apply andb_prop in Hb as [[[Hc Hk]%andb_prop Hf]%andb_prop Hr]. split_and!; [lia| | |by apply IH].
  - intros x Hx. rewrite forallb_forall in Hk. apply (bool_decide_eq_true _), Hk. by apply list_elem_of_In.
  - intros Ht. by rewrite Ht in Hf.
Qed.
End engine.
