(* ===== verification/Durable.v ===== *)
(** * Programs and the log

    What a program writes is what the log holds after it, so that the map a program leaves is the
    one a database opened on the log starts from, but for its empty values, which the log cannot tell from
    deletions. *)

From S2P Require Import Prelude Ordered Text Float Fnv Bloom Memtable Wal Page PageStore Compaction BgCompaction Cache Hamt IndexApi Engine EngineSpec Recovery Prog.
Local Open Scope Z_scope.

(** The record of a write. *)
Definition write_rec (w : bytes * option bytes) : WalRecord := mkRecord w.1 (default [] w.2).

(** The records that a log keeps. *)
Definition kept (m : gmap bytes bytes) : gmap bytes bytes := filter (fun kv => kv.2 <> []) m.

Lemma kept_lookup m k : kept m !! k = match m !! k with Some [] => None | v => v end.
Proof.
  unfold kept. destruct (m !! k) as [[|b v]|] eqn:E.
  - apply map_lookup_filter_None. right. intros x Hx. rewrite E in Hx. injection Hx as <-. by intros [].
  - by apply map_lookup_filter_Some.
  - apply map_lookup_filter_None. by left.
Qed.

(** The log holds the map. *)
Definition log_holds (rs : list WalRecord) (m : gmap bytes bytes) : Prop := forall k, log_map rs !! k ≫= id = kept m !! k.

Lemma log_map_snoc rs r : log_map (rs ++ [r]) = Memtable.spec_op (log_map rs) (rec_op r).
Proof. unfold log_map. by rewrite fmap_app, foldl_app. Qed.

Lemma log_holds_write rs m w : log_holds rs m -> log_holds (rs ++ [write_rec w]) (map_write m w).
Proof.
  intros H k. rewrite log_map_snoc, kept_lookup. specialize (H k). rewrite kept_lookup in H. unfold Memtable.spec_op.
  rewrite rec_op_key, lookup_insert. destruct w as [k' [[|b v]|]]; cbn [write_rec map_write fst snd default from_option id Wal.key];
    rewrite ?lookup_insert, ?lookup_delete; destruct (decide (k' = k)) as [->|]; done.
Qed.

Lemma log_holds_writes ws : forall rs m, log_holds rs m -> log_holds (rs ++ (write_rec <$> ws)) (foldl map_write m ws).
Proof.
  induction ws as [|w ws IH]; intros rs m H; [by rewrite app_nil_r|]. rewrite fmap_cons, cons_middle, (assoc_L app).
  by apply IH, log_holds_write.
Qed.

(** A value the log knows is not empty. *)
Lemma log_map_nonempty (rs : list WalRecord) k : log_map rs !! k <> Some (Some []).
Proof.
  induction rs as [|r rs IH] using rev_ind; [done|]. rewrite log_map_snoc. unfold Memtable.spec_op.
  rewrite lookup_insert. destruct (decide _) as [_|_]; [|exact IH]. unfold rec_op. by destruct (Wal.value r).
Qed.

Lemma log_holds_self (rs : list WalRecord) (m : gmap bytes bytes) : (forall k, m !! k = log_map rs !! k ≫= id) -> log_holds rs m.
Proof.
  intros H k. rewrite kept_lookup, H. pose proof (log_map_nonempty rs k) as Hn. destruct (log_map rs !! k) as [[[|b v]|]|]; done.
Qed.

Lemma recs_puts kvs : recs kvs = write_rec <$> puts kvs.
Proof. unfold recs, puts. by rewrite <- list_fmap_compose. Qed.

(** ** Running programs *)
Section durable.
Context (crc : bytes -> Z) (deflate : bytes -> bytes) (read_dir : fs -> list bytes) (ln : f64 -> f64).
Context (iter : gmap bytes CacheEntry -> list (bytes * CacheEntry)).
Context {I : Type} `{Hops : IndexOps I} `{Hlaws : !IndexLaws I}.
Context (ks : gset bytes) (Hks : no_collision ks).
Context (cap : Z) (Hcap : cap <= 2 ^ 63).
Context (Hln : forall n, Z.of_nat n < cap -> bloom_fits ln n).
Implicit Types (e : Engine (I := I)).

Abbreviation worker io := (settle (I := I) deflate read_dir io).

Lemma eop_logged e o r e' rs : logged crc e rs -> do_eop crc ln iter e o = (Ok r, e') ->
  logged crc e' (rs ++ (write_rec <$> eop_writes o)).
Proof.
  intros Hl E. destruct o as [k v|k|kvs|kvs|k|s t|]; cbn [do_eop eop_writes] in *.
  - unfold out in E. destruct (put crc ln k v e) as [[[]|x|] e1] eqn:Ep; try discriminate E. injection E as _ <-.
    by eapply (acked_logged crc deflate read_dir ln iter), acked_put.
  - unfold out in E. destruct (Engine.delete crc ln k e) as [[[]|x|] e1] eqn:Ep; try discriminate E. injection E as _ <-.
    by eapply (acked_logged crc deflate read_dir ln iter), acked_delete.
  - unfold out in E. destruct (put_batch crc ln kvs e) as [[[]|x|] e1] eqn:Ep; try discriminate E. injection E as _ <-.
    rewrite <- recs_puts. by eapply (acked_logged crc deflate read_dir ln iter), acked_batch.
  - unfold out in E. destruct (bulk_ingest crc ln kvs e) as [[n|x|] e1] eqn:Ep; try discriminate E. injection E as _ <-.
    rewrite <- recs_puts. by eapply (acked_logged crc deflate read_dir ln iter), acked_bulk.
  - destruct (Engine.get iter e k) as [v e1] eqn:Eg. injection E as _ <-.
    pose proof (acked_logged crc deflate read_dir ln iter _ _ _ _ Hl (acked_get crc deflate read_dir ln iter e k)) as H. by rewrite Eg in H.
  - injection E as _ <-. by rewrite app_nil_r.
  - unfold out in E. destruct (flush ln e) as [[[]|x|] e1] eqn:Ep; try discriminate E. injection E as _ <-.
    by eapply (acked_logged crc deflate read_dir ln iter), acked_flush.
Qed.

Lemma run_prog_logged {A : Type} io (p : Prog A) : forall n e rs, engine_inv ks n e -> prog_safe crc deflate read_dir ln iter ks cap io n e p ->
  logged crc e rs -> logged crc (run_prog crc ln iter (worker io) e p).2 (rs ++ (write_rec <$> prog_writes (Hamt.view (state e)) p)).
Proof.
  induction p as [a|o k IH]; intros n e rs Hinv Hs Hl; [by rewrite app_nil_r|]. destruct Hs as (Hc & Hk & Ho & Hs).
  destruct (run_eop_ok crc deflate read_dir ln iter ks Hks cap Hcap Hln n io e o Hinv Hc Hk Ho) as (E1 & E2 & E3 & _).
  cbn [run_prog prog_writes]. unfold run_eop in *. destruct (do_eop crc ln iter e o) as [r e1] eqn:Ee. cbn [fst snd] in *.
  assert (logged crc (settle deflate read_dir io e1) (rs ++ (write_rec <$> eop_writes o))) as Hl1.
  { destruct r as [r|x|]; [|..].
    1: exact (eop_logged _ _ _ _ _ Hl Ee).
    all: destruct o as [| | | | |s t|]; try discriminate E1; cbn in Ee; injection Ee as _ <-; by rewrite app_nil_r. }
  rewrite fmap_app, (assoc_L app), <- E1, <- E2. by eapply IH.
Qed.
End durable.
