(* ===== verification/IndexedEngine.v ===== *)
(** * The engine with the manager's indices

    The index manager behind the interfaces of the server and of the Python classes: its queries,
    and its fields. The writes of the engine are the manager's operations, and a search
    that the manager answers well is one over the map of the engine. *)

From S2P Require Import Prelude Ordered Text Float Fnv Bloom Memtable Wal Page PageStore Compaction BgCompaction Cache Hamt IndexApi QueryApi Engine EngineSpec Prog.
From S2P Require Planner Manager ManagerSpec Bm25 Fuzzy Graph Hnsw HnswSpec.
#[local] Existing Instance ManagerSpec.manager_index.
#[local] Existing Instance ManagerSpec.manager_index_laws.
Local Open Scope Z_scope.

(** ** Instances *)
Section instances.
Context `{Hnsw.HeapOps}.
Variables (ln exp : f64 -> f64).
Variable sort_unstable_by : (nat * f64 -> nat * f64 -> comparison) -> list (nat * f64) -> list (nat * f64).
Variable select_nth_unstable_by : nat -> (nat * f64 -> nat * f64 -> comparison) -> list (nat * f64) -> list (nat * f64).
Variable iter_hits : gmap nat nat -> list (nat * nat).
Variable iter_scores : gmap bytes f64 -> list (bytes * f64).

#[local] Instance manager_query : IndexQuery Manager.IndexManager := {
  idx_query := Manager.query ln sort_unstable_by select_nth_unstable_by iter_hits iter_scores;
  idx_stats := Manager.stats
}.

#[local] Instance manager_fields : IndexFields Manager.IndexManager := {
  idx_fuzzy g := Fuzzy.query iter_hits (Manager.fuzzy g);
  idx_vector g := (fun h query k => Manager.infallible (Hnsw.search h query k)) <$> Manager.hnsw g;
  idx_on_add_edge := Manager.on_add_edge;
  idx_on_put_vector := Manager.on_put_vector ln exp
}.
End instances.

(** ** Writes *)
(** The engine's writes are the manager's. *)
Definition mop (w : bytes * option bytes) : ManagerSpec.Op :=
  match w.2 with Some v => ManagerSpec.OpPut w.1 v | None => ManagerSpec.OpDelete w.1 end.

Lemma idx_writes_ops `{Hnsw.HeapOps} ln exp ws g : idx_writes g ws = ManagerSpec.run_ops ln exp g (mop <$> ws).
Proof.
  unfold idx_writes, ManagerSpec.run_ops. rewrite foldl_fmap. generalize (Ok (E := unit) g) as r.
  induction ws as [|[k [v|]] ws IH]; intros r; [done|..]; cbn [foldl]; by rewrite IH.
Qed.

Lemma map_writes_ops ws m : foldl map_write m ws = foldl ManagerSpec.map_op m (mop <$> ws).
Proof. revert m. induction ws as [|[k [v|]] ws IH]; intros m; [done|apply IH..]. Qed.

(** A key that a step of the plan finds; for the keyword index, a record of the map that holds a word of the query. *)
Definition answers (g : Manager.IndexManager) (v : gmap bytes bytes) (spec : Planner.QuerySpec) (step : Planner.QueryStep) (x : bytes) : Prop :=
  match step with
  | Planner.Bm25 => x <> [] /\ exists val t, v !! x = Some val /\ t ∈ Bm25.tokenize (Planner.text spec) /\ t ∈ Bm25.tokens_of x ++ Bm25.tokens_of val
  | _ => ManagerSpec.found_by g [] spec step x
  end.

Lemma found_answers g ds v spec step x : ManagerSpec.tracks ds v -> ManagerSpec.found_by g ds spec step x -> answers g v spec step x.
Proof. intros Ht. destruct step; cbn [answers]; [by apply ManagerSpec.tracks_found|done..]. Qed.

(** The invariant of the engine asks of the indices what the keyword index decides. *)
Lemma indices_inv ks n (e : Engine (I := Manager.IndexManager)) g :
  engine_inv ks n e -> Manager.bm25 g = Manager.bm25 (indices e) -> engine_inv ks n (set_indices g e).
Proof. intros [] Hg. split; cbn [set_indices]; try done. cbn. by rewrite Hg. Qed.

(** ** Reads *)
Section reads.
Context (crc : bytes -> Z) (deflate : bytes -> bytes) (read_dir : fs -> list bytes) (ln : f64 -> f64).
Context (iter : gmap bytes CacheEntry -> list (bytes * CacheEntry)).
Context {I : Type} `{Hops : IndexOps I}.
Context (ks : gset bytes) (cap : Z).

Abbreviation safe := (prog_safe (I := I) crc deflate read_dir ln iter ks cap).
Abbreviation count := (prog_count (I := I) crc deflate read_dir ln iter).

(** Reading is safe as far as the bound goes. *)
Lemma get_safe io n e k : n + 1 <= cap -> safe io n e (e_get k) /\ count io n e (e_get k) = n + 1.
Proof. intros Hn. split; [|done]. split_and!; [done|by intros x ?%not_elem_of_nil|by intros Hfl|done]. Qed.

End reads.
