(* ===== verification/AgentStore.v ===== *)
(** * The agent payload store of [src/agent_store.rs]

    A typed layer over the engine: payloads are stored under [agent:], their
    records under [arec:]. The functions are programs over the engine's
    operations, so that they run over the engine and over a map alike. Payloads,
    records and their codec belong to another crate: they are parameters. *)

From S2P Require Import Prelude Ordered Text Float EngineSpec Prog.
Local Open Scope Z_scope.

(** ** Text *)
Definition dec_i64 (z : Z) : bytes := if z <? 0 then str "-" ++ dec (- z) else dec z.

Definition colon : byte := x3a.

(** [splitn(n, ':')] *)
Fixpoint split_at_colon (s : bytes) : bytes * option bytes :=
  match s with
  | [] => ([], None)
  | b :: s' => if bool_decide (b = colon) then ([], Some s')
               else let '(w, rest) := split_at_colon s' in (b :: w, rest)
  end.

Fixpoint splitn (n : nat) (s : bytes) : list bytes :=
  match n with
  | O => []
  | S O => [s]
  | S n' => match split_at_colon s with
            | (w, Some rest) => w :: splitn n' rest
            | (w, None) => [w]
            end
  end.

Fixpoint strip_prefix (p s : bytes) : option bytes :=
  match p, s with
  | [], _ => Some s
  | b :: p', c :: s' => if bool_decide (b = c) then strip_prefix p' s' else None
  | _, [] => None
  end.

Definition AGENT_PREFIX : bytes := str "agent:".
Definition RECORD_PREFIX : bytes := str "arec:".

(** ** The store *)
Section store.
Context {AgentHeader AgentRecord RecordType DecodeError : Type}.
Context (as_str : RecordType -> bytes) (record_type : AgentRecord -> RecordType).
Context (step : AgentRecord -> Z) (rec_id : AgentRecord -> bytes).
Context (default_header : AgentHeader) (set_record_count : nat -> AgentHeader -> AgentHeader).

Record AgentPayload := mkPayload { header : AgentHeader; records : list AgentRecord }.

(** The codec: an error of [validate_payload] is its text. *)
Context (validate_payload : AgentPayload -> option bytes).
Context (encode : AgentPayload -> bytes) (decode : bytes -> AgentPayload + DecodeError).
Context (encode_record : AgentRecord -> bytes) (decode_record : bytes -> option AgentRecord).

Inductive LoadError := NoPayload (session_key : bytes) | InvalidUtf8 | BadPayload (e : DecodeError).

Definition agent_key (session_key : bytes) : bytes := AGENT_PREFIX ++ session_key.

Definition record_key (session_key : bytes) (rec : AgentRecord) : bytes :=
  RECORD_PREFIX ++ session_key ++ str ":" ++ dec_i64 (step rec) ++ str ":" ++ as_str (record_type rec) ++ str ":" ++ rec_id rec.

Fixpoint store_records (session_key : bytes) (recs : list AgentRecord) : Prog (res bytes unit) :=
  match recs with
  | [] => Ret (Ok tt)
  | rec :: rest => try_ (e_put (record_key session_key rec) (encode_record rec)) (fun _ => store_records session_key rest)
  end.

Definition store_payload (session_key : bytes) (payload : AgentPayload) : Prog (res bytes unit) :=
  match validate_payload payload with
  | Some e => Ret (Err (str "validation failed: " ++ e))
  | None => try_ (e_put (agent_key session_key) (encode payload)) (fun _ => store_records session_key (records payload))
  end.

Definition load_payload (session_key : bytes) : Prog (AgentPayload + LoadError) :=
  pbind (e_get (agent_key session_key)) (fun v => Ret
    match v with
    | None => inr (NoPayload session_key)
    | Some bs => if utf8_valid bs
                 then match decode bs with inl p => inl p | inr e => inr (BadPayload e) end
                 else inr InvalidUtf8
    end).

(** The keys that begin with [start], up to the byte 0xFF. *)
Definition after (start : bytes) : bytes := start ++ [xff].

Definition delete_payload (session_key : bytes) : Prog (res bytes unit) :=
  try_ (e_delete (agent_key session_key)) (fun _ =>
  let start := RECORD_PREFIX ++ session_key in
  try_ (e_scan start (after start)) (fun records => e_delete_all records.*1)).

(** The records among the hits of a query of the indices. *)
Fixpoint collect_records {S : Type} (hits : list (bytes * S)) : Prog (list (AgentRecord * S)) :=
  match hits with
  | [] => Ret []
  | (key, score) :: rest =>
      match strip_prefix RECORD_PREFIX (from_utf8_lossy key) with
      | None => collect_records rest
      | Some _ =>
          pbind (e_get key) (fun v =>
          pbind (collect_records rest) (fun rs => Ret
            match v with
            | Some value => match decode_record (from_utf8_lossy value) with Some rec => (rec, score) :: rs | None => rs end
            | None => rs
            end))
      end
  end.

Definition session_of (key : bytes) : bytes :=
  let full := from_utf8_lossy key in default full (strip_prefix AGENT_PREFIX full).

Definition list_sessions : Prog (res bytes (list bytes)) :=
  try_ (e_scan AGENT_PREFIX (after AGENT_PREFIX)) (fun l => Ret (Ok (session_of <$> l.*1))).

(** The type segment of a record key. *)
Definition has_type (rt : RecordType) (key : bytes) : bool :=
  let parts := splitn 5 (from_utf8_lossy key) in
  (4 <=? length parts)%nat && bool_decide (parts !! 3%nat = Some (as_str rt)).

Definition record_of (rt : RecordType) (kv : bytes * bytes) : option AgentRecord :=
  if has_type rt kv.1 then decode_record (from_utf8_lossy kv.2) else None.

Definition get_records_by_type (session_key : bytes) (rt : RecordType) : Prog (res bytes (list AgentRecord)) :=
  let start := RECORD_PREFIX ++ session_key ++ str ":" in
  try_ (e_scan start (after start)) (fun l => Ret (Ok (omap (record_of rt) l))).

Definition get_recent_records (session_key : bytes) (limit : nat) : Prog (list AgentRecord) :=
  pbind (load_payload session_key) (fun r => Ret
    match r with
    | inl payload =>
        let n := length (records payload) in
        if (n <=? limit)%nat then records payload else drop (n - limit) (records payload)
    | inr _ => []
    end).

Definition append_records (session_key : bytes) (new_records : list AgentRecord) : Prog (res bytes unit) :=
  pbind (load_payload session_key) (fun r =>
    let payload := match r with inl p => p | inr _ => mkPayload default_header [] end in
    let recs := records payload ++ new_records in
    store_payload session_key (mkPayload (set_record_count (length recs) (header payload)) recs)).
End store.
