(* ===== verification/AgentSpec.v ===== *)
(** * What the agent payload store promises

    The store over a map: stored payloads are read back, sessions do not disturb
    each other's payloads, deletion removes exactly the keys of a prefix, queries by type answer
    the records of that type. Over an engine whose worker keeps up, every program
    answers what it answers over the map the engine represents. *)

From S2P Require Import Prelude Ordered Text Float EngineSpec Prog AgentStore.
Local Open Scope Z_scope.

(** ** Ranges of a prefix *)
Lemma range_prefix p : forall k, bytes_le p k /\ bytes_lt k (after p) <-> exists t, k = p ++ t /\ head t <> Some xff.
Proof.
  unfold after, bytes_le, bytes_lt. induction p as [|x p IH]; intros k; cbn [app].
  - split.
    + intros [_ Hlt]. exists k. split; [done|]. destruct k as [|b k]; [done|]. cbn in *. intros [= ->]. cbn in Hlt.
      destruct k; done.
    + intros (t & -> & Ht). split; [by destruct t|]. destruct t as [|b t]; [done|]. cbn in *.
      assert (b2z b <> 255) as Hb. { intros E. apply Ht. f_equal. rewrite <- (z2b_b2z b), E. done. }
      pose proof (b2z_range b). change (b2z xff) with 255. rewrite (proj2 (Z.compare_lt_iff _ _)); [done|lia].
  - destruct k as [|y k]; cbn; [split; [by intros [? _]|by intros (t & ? & _)]|].
    rewrite (Z.compare_antisym (b2z x) (b2z y)). destruct (Z.compare_spec (b2z x) (b2z y)) as [E|?|?]; cbn.
    + assert (x = y) as <- by (rewrite <- (z2b_b2z x), <- (z2b_b2z y); by f_equal). rewrite IH. split.
      * intros (t & -> & ?). by exists t.
      * intros (t & [= ->] & ?). by exists t.
    + split; [by intros [_ ?]|]. intros (t & [= -> _] & _). lia.
    + split; [by intros [? _]|]. intros (t & [= -> _] & _). lia.
Qed.

Lemma after_le p : bytes_ltb (after p) p = false.
Proof.
  destruct (bytes_ltb (after p) p) eqn:E; [|done]. apply bytes_ltb_lt in E.
  assert (bytes_lt p (after p)) as H; [|by apply bytes_lt_asym in H].
  unfold after. rewrite <- (app_nil_r p) at 1. by apply bytes_lt_app_l.
Qed.

Lemma strip_prefix_app p s : strip_prefix p (p ++ s) = Some s.
Proof. induction p as [|b p IH]; [by destruct s|]. cbn. by rewrite bool_decide_eq_true_2. Qed.

(** ** The store over a map *)
Section spec.
Context {AgentHeader AgentRecord RecordType DecodeError : Type}.
Context (as_str : RecordType -> bytes) (record_type : AgentRecord -> RecordType).
Context (step : AgentRecord -> Z) (rec_id : AgentRecord -> bytes).
Context (default_header : AgentHeader) (set_record_count : nat -> AgentHeader -> AgentHeader).
Abbreviation Payload := (AgentPayload (AgentHeader := AgentHeader) (AgentRecord := AgentRecord)).
Context (validate_payload : Payload -> option bytes).
Context (encode : Payload -> bytes) (decode : bytes -> Payload + DecodeError).
Context (encode_record : AgentRecord -> bytes) (decode_record : bytes -> option AgentRecord).

Abbreviation store := (store_payload as_str record_type step rec_id validate_payload encode encode_record).
Abbreviation load := (load_payload (AgentHeader := AgentHeader) (AgentRecord := AgentRecord) decode).
Abbreviation rkey := (record_key as_str record_type step rec_id).
Abbreviation append := (append_records as_str record_type step rec_id default_header set_record_count validate_payload encode decode encode_record).
Abbreviation by_type := (get_records_by_type (AgentRecord := AgentRecord) as_str decode_record).

(** What a codec promises: a valid payload is read back from its text. *)
Hypothesis Hcodec : forall p, validate_payload p = None -> utf8_valid (encode p) = true /\ decode (encode p) = inl p.

Definition put_record (sk : bytes) (m : gmap bytes bytes) (r : AgentRecord) : gmap bytes bytes :=
  <[rkey sk r := encode_record r]> m.

(** The map after a payload is stored. *)
Definition stored (sk : bytes) (p : Payload) (m : gmap bytes bytes) : gmap bytes bytes :=
  foldl (put_record sk) (<[agent_key sk := encode p]> m) (records p).

Lemma run_store_records sk recs : forall m,
  run_map m (store_records as_str record_type step rec_id encode_record sk recs) = (Ok tt, foldl (put_record sk) m recs).
Proof. induction recs as [|r recs IH]; intros m; [done|]. cbn. apply IH. Qed.

Lemma run_store sk p m : validate_payload p = None -> run_map m (store sk p) = (Ok tt, stored sk p m).
Proof.
  intros Hv. unfold store_payload. rewrite Hv. cbn. change (pbind (Ret ?x) ?f) with (f x). cbn. apply run_store_records.
Qed.

(** What a load reads in a map. *)
Definition loaded (sk : bytes) (m : gmap bytes bytes) : Payload + LoadError (DecodeError := DecodeError) :=
  match m !! agent_key sk with
  | None => inr (NoPayload sk)
  | Some bs => if utf8_valid bs then match decode bs with inl p => inl p | inr e => inr (BadPayload e) end else inr InvalidUtf8
  end.

Lemma run_load sk m : run_map m (load sk) = (loaded sk m, m).
Proof. done. Qed.

(** A record key is no payload key. *)
Lemma record_key_ne sk sk' r : rkey sk r <> agent_key sk'.
Proof. discriminate. Qed.

Lemma put_records_payload sk recs : forall m sk', foldl (put_record sk) m recs !! agent_key sk' = m !! agent_key sk'.
Proof.
  induction recs as [|r recs IH]; intros m sk'; [done|]. cbn [foldl]. rewrite IH. unfold put_record. by rewrite lookup_insert_ne.
Qed.

Lemma agent_key_inj sk sk' : agent_key sk = agent_key sk' -> sk = sk'.
Proof. unfold agent_key. apply (inj (app _)). Qed.

Lemma stored_payload sk p m sk' : stored sk p m !! agent_key sk' =
  if decide (sk = sk') then Some (encode p) else m !! agent_key sk'.
Proof.
  unfold stored. rewrite put_records_payload, lookup_insert. destruct (decide (sk = sk')) as [->|Hne].
  - by rewrite decide_True.
  - rewrite decide_False; [done|]. intros E. by apply Hne, agent_key_inj.
Qed.

Lemma loaded_stored sk p m : validate_payload p = None -> loaded sk (stored sk p m) = inl p.
Proof.
  intros Hv. unfold loaded. rewrite stored_payload, decide_True by done. destruct (Hcodec p Hv) as [-> ->]. done.
Qed.

Lemma loaded_other sk sk' p m : sk <> sk' -> loaded sk' (stored sk p m) = loaded sk' m.
Proof. intros Hne. unfold loaded. by rewrite stored_payload, decide_False. Qed.

(** storing a payload that validates writes its text and one entry per record; loading the
    session then gives the payload back, and every other session loads as before. A
    payload that does not validate is an error and writes nothing. *)
Theorem agent_store_load m sk p :
  match validate_payload p with
  | Some e => run_map m (store sk p) = (Err (str "validation failed: " ++ e), m)
  | None => exists m', run_map m (store sk p) = (Ok tt, m') /\ run_map m' (load sk) = (inl p, m') /\
      (forall r, r ∈ records p -> is_Some (m' !! rkey sk r)) /\
      forall sk', sk <> sk' -> (run_map m' (load sk')).1 = (run_map m (load sk')).1
  end.
Proof.
  destruct (validate_payload p) as [e|] eqn:Hv; [unfold store_payload; by rewrite Hv|].
  exists (stored sk p m). split; [by apply run_store|]. split; [|split].
  - rewrite run_load. by rewrite loaded_stored.
  - unfold stored. generalize (<[agent_key sk := encode p]> m). intros m0 r Hr. revert m0.
    assert (forall recs (m0 : gmap bytes bytes) k, is_Some (m0 !! k) -> is_Some (foldl (put_record sk) m0 recs !! k)) as Hkeep.
    { induction recs as [|x recs IH]; intros m0 k Hk; [done|]. cbn [foldl]. apply IH. unfold put_record. rewrite lookup_insert_is_Some'. by right. }
    induction (records p) as [|x recs IH]; intros m0; [by apply not_elem_of_nil in Hr|]. cbn [foldl].
    apply elem_of_cons in Hr as [->|Hr]; [|by apply IH]. apply Hkeep. unfold put_record. rewrite lookup_insert_eq. by eexists.
  - intros sk' Hne. rewrite !run_load. by apply loaded_other.
Qed.

(** Appending to a session extends its records and counts them; a session that does not load
    starts from the default header. *)
Definition appended (sk : bytes) (new : list AgentRecord) (m : gmap bytes bytes) : Payload :=
  let p := match loaded sk m with inl p => p | inr _ => mkPayload default_header [] end in
  mkPayload (set_record_count (length (records p ++ new)) (header p)) (records p ++ new).

Theorem agent_append m sk new :
  match validate_payload (appended sk new m) with
  | Some e => run_map m (append sk new) = (Err (str "validation failed: " ++ e), m)
  | None => exists m', run_map m (append sk new) = (Ok tt, m') /\ run_map m' (load sk) = (inl (appended sk new m), m')
  end.
Proof.
  assert (run_map m (append sk new) = run_map m (store sk (appended sk new m))) as ->.
  { unfold append_records. rewrite run_map_bind, run_load. done. }
  destruct (validate_payload (appended sk new m)) as [e|] eqn:Hv; [unfold store_payload; by rewrite Hv|].
  exists (stored sk (appended sk new m) m). split; [by apply run_store|]. rewrite run_load. by rewrite loaded_stored.
Qed.

(** ** Deletion *)
Lemma run_scan_prefix m p : run_map m (e_scan p (after p)) =
  (Ok (filter (fun kv => bytes_le p kv.1 /\ bytes_lt kv.1 (after p)) (bt_entries m)), m).
Proof. unfold e_scan, run_map, spec_eop, map_scan. by rewrite after_le. Qed.

Lemma elem_of_scan (m : gmap bytes bytes) p k :
  k ∈ (filter (fun kv => bytes_le p kv.1 /\ bytes_lt kv.1 (after p)) (bt_entries m)).*1 <->
  is_Some (m !! k) /\ exists t, k = p ++ t /\ head t <> Some xff.
Proof.
  rewrite list_elem_of_fmap, <- range_prefix. split.
  - intros ([k' v] & -> & [Hr Hin]%list_elem_of_filter). cbn in *. apply elem_of_bt_entries in Hin. rewrite Hin. split; [by eexists|done].
  - intros [[v Hv] Hr]. exists (k, v). split; [done|]. apply list_elem_of_filter. split; [done|]. by apply elem_of_bt_entries.
Qed.

(** deleting a session removes its payload and every record key that begins with
    the session's, and leaves every other key as it was. *)
Theorem agent_delete_exact m sk : exists m', run_map m (delete_payload sk) = (Ok tt, m') /\
  forall k, m' !! k = if decide (k = agent_key sk \/ (RECORD_PREFIX ++ sk) `prefix_of` k /\ head (drop (length (RECORD_PREFIX ++ sk)) k) <> Some xff)
                      then None else m !! k.
Proof.
  unfold delete_payload, try_. rewrite run_map_bind. cbn [e_delete run_map spec_eop const fmap res_fmap].
  rewrite run_map_bind, run_scan_prefix, run_delete_all. eexists. split; [done|]. intros k. rewrite deletes_lookup.
  set (start := RECORD_PREFIX ++ sk). pose proof (elem_of_scan (base.delete (agent_key sk) m) start k) as Hs.
  assert ((exists t, k = start ++ t /\ head t <> Some xff) <-> start `prefix_of` k /\ head (drop (length start) k) <> Some xff) as Hp.
  { split; [intros (t & -> & Ht); split; [by exists t|by rewrite drop_app_length]|]. intros [[t ->] Ht]. exists t.
    by rewrite drop_app_length in Ht. }
  rewrite Hp in Hs. clear Hp. rewrite lookup_delete_is_Some in Hs. rewrite lookup_delete.
  destruct (decide (k ∈ _)) as [Hin|Hni].
  - rewrite decide_True; [done|]. right. by apply Hs.
  - case_decide as Ha; [subst; by rewrite decide_True by (by left)|]. case_decide as Hd; [|done]. destruct Hd as [?|Hd]; [congruence|].
    destruct (m !! k) eqn:Em; [|done]. destruct Hni. apply Hs. split; [split; [congruence|by eexists]|done].
Qed.

(** ** Queries by type *)
(** What the codec of records promises. *)
Hypothesis Hrecord : forall r, utf8_valid (encode_record r) = true /\ decode_record (encode_record r) = Some r.
(** The names of the types. *)
Context `{!EqDecision RecordType}.
Hypothesis Htypes : forall a b, as_str a = as_str b -> a = b.
Hypothesis Hcolon : forall a, colon ∉ as_str a.

Lemma split_at_colon_app w rest : colon ∉ w -> split_at_colon (w ++ str ":" ++ rest) = (w, Some rest).
Proof.
  induction w as [|b w IH]; intros Hn; [done|]. apply not_elem_of_cons in Hn as [Hb Hw]. cbn [app split_at_colon].
  rewrite bool_decide_eq_false_2 by congruence. by rewrite IH.
Qed.

Lemma splitn_app n w rest : colon ∉ w -> splitn (S (S n)) (w ++ str ":" ++ rest) = w :: splitn (S n) rest.
Proof. intros Hw. cbn [splitn]. by rewrite split_at_colon_app. Qed.

Lemma dec_i64_colon z : colon ∉ dec_i64 z.
Proof.
  assert (forall n, 0 <= n -> colon ∉ dec n) as Hd.
  { intros n Hn Hin. pose proof (dec_loop_digits 20 n Hn) as Hf. rewrite Forall_forall in Hf. specialize (Hf _ Hin).
    change (b2z colon) with 58 in Hf. lia. }
  unfold dec_i64. destruct (Z.ltb_spec z 0); [|by apply Hd]. intros [Hin|Hin]%elem_of_app; [by apply list_elem_of_singleton in Hin|].
  revert Hin. apply Hd. lia.
Qed.

(** The start of the keys of a session's records. *)
Definition range_start (sk : bytes) : bytes := RECORD_PREFIX ++ sk ++ str ":".

Lemma record_key_range sk r : exists t, rkey sk r = range_start sk ++ t /\ head t <> Some xff.
Proof.
  exists (dec_i64 (step r) ++ str ":" ++ as_str (record_type r) ++ str ":" ++ rec_id r).
  split; [unfold record_key, range_start; by rewrite <- !app_assoc|].
  unfold dec_i64, dec. destruct (Z.ltb_spec (step r) 0); [done|]. destruct (dec_loop 20 (step r)) as [|b l] eqn:E; [done|].
  pose proof (dec_loop_digits 20 (step r) ltac:(lia)) as Hf. rewrite E in Hf. apply Forall_cons in Hf as [Hb _]. cbn. intros [= ->].
  change (b2z xff) with 255 in Hb. lia.
Qed.

(** No record of the session was stored before. *)
Definition fresh (sk : bytes) (m : gmap bytes bytes) : Prop := forall t, m !! (range_start sk ++ t) = None.

Lemma put_records_lookup sk recs : forall m, NoDup (rkey sk <$> recs) -> forall k v,
  foldl (put_record sk) m recs !! k = Some v <->
    (exists r, r ∈ recs /\ k = rkey sk r /\ v = encode_record r) \/ ((k ∉ rkey sk <$> recs) /\ m !! k = Some v).
Proof.
  induction recs as [|x recs IH]; intros m Hnd k v; cbn [foldl].
  { split; [intros Hm; right; split; [apply not_elem_of_nil|done]|]. intros [(r & Hr & _)|[_ Hm]]; [by apply not_elem_of_nil in Hr|done]. }
  cbn [fmap list_fmap] in Hnd. apply NoDup_cons in Hnd as [Hni Hnd]. rewrite (IH _ Hnd k v). unfold put_record. cbn [fmap list_fmap].
  rewrite not_elem_of_cons. split.
  - intros [(r & Hr & -> & ->)|[Hk [[<- <-]|[Hne Hm]]%lookup_insert_Some]].
    + left. exists r. split; [by right|done].
    + left. exists x. split; [left|done].
    + right. done.
  - intros [(r & [->|Hr]%elem_of_cons & -> & ->)|[[Hne Hk] Hm]].
    + right. split; [done|]. apply lookup_insert_eq.
    + left. by exists r.
    + right. split; [done|]. rewrite lookup_insert_ne; [done|]. congruence.
Qed.

Lemma scan_records sk p m : NoDup (rkey sk <$> records p) -> fresh sk m ->
  filter (fun kv => bytes_le (range_start sk) kv.1 /\ bytes_lt kv.1 (after (range_start sk))) (bt_entries (stored sk p m)) ≡ₚ
    (fun r => (rkey sk r, encode_record r)) <$> records p.
Proof.
  intros Hnd Hfresh. apply NoDup_Permutation.
  - apply list.NoDup_filter, (NoDup_fmap_1 fst), bt_entries_nodup.
  - apply (NoDup_fmap_1 fst). by rewrite <- list_fmap_compose.
  - intros [k v]. rewrite list_elem_of_filter, elem_of_bt_entries, range_prefix, list_elem_of_fmap. unfold stored.
    rewrite put_records_lookup by done. cbn [fst snd]. split.
    + intros [(t & -> & _) [(r & Hr & -> & ->)|[_ [[E _]|[_ Hm]]%lookup_insert_Some]]]; [by exists r|done|].
      by rewrite Hfresh in Hm.
    + intros (r & [= -> ->] & Hr). split; [apply record_key_range|]. left. by exists r.
Qed.

Lemma key_has_type sk r rt : colon ∉ sk -> utf8_valid (rkey sk r) = true ->
  has_type as_str rt (rkey sk r) = bool_decide (record_type r = rt).
Proof.
  intros Hsk Hu. unfold has_type. rewrite (from_utf8_lossy_valid _ Hu). unfold record_key.
  change (RECORD_PREFIX ++ ?x) with (str "arec" ++ str ":" ++ x).
  rewrite (splitn_app 3) by (apply (bool_decide_unpack _); vm_compute; exact Logic.I). rewrite (splitn_app 2) by done.
  rewrite (splitn_app 1) by apply dec_i64_colon. rewrite (splitn_app 0) by apply Hcolon. cbn [splitn length Nat.leb andb lookup list_lookup].
  apply bool_decide_ext. split; [intros [= E]; by apply Htypes|by intros ->].
Qed.

(** after a session with no colon in its key is stored for the first time, a query by type answers
    exactly the records of the payload that have this type, each as often as the
    payload holds it. *)
Theorem agent_records_by_type m sk p rt : colon ∉ sk -> validate_payload p = None -> fresh sk m ->
  NoDup (rkey sk <$> records p) -> (forall r, r ∈ records p -> utf8_valid (rkey sk r) = true) ->
  exists m' rs, run_map m (store sk p) = (Ok tt, m') /\ run_map m' (by_type sk rt) = (Ok rs, m') /\
    forall r, r ∈ rs <-> r ∈ records p /\ record_type r = rt.
Proof.
  intros Hsk Hv Hfresh Hnd Hu. exists (stored sk p m). eexists. split; [by apply run_store|].
  unfold get_records_by_type, try_. fold (range_start sk). rewrite run_map_bind, run_scan_prefix. split; [done|].
  intros r. rewrite list_elem_of_omap. setoid_rewrite (scan_records sk p m Hnd Hfresh). split.
  - intros ([k v] & (r' & [= -> ->] & Hr')%list_elem_of_fmap & E). unfold record_of in E. cbn [fst snd] in E.
    rewrite key_has_type in E by auto. case_bool_decide; [|done]. destruct (Hrecord r') as [Hur Hdr].
    rewrite (from_utf8_lossy_valid _ Hur), Hdr in E. by injection E as <-.
  - intros [Hr Ht]. exists (rkey sk r, encode_record r). split; [apply list_elem_of_fmap; by exists r|].
    unfold record_of. cbn [fst snd]. rewrite key_has_type by auto. rewrite bool_decide_eq_true_2 by done.
    destruct (Hrecord r) as [Hur Hdr]. by rewrite (from_utf8_lossy_valid _ Hur).
Qed.

(** A session key with a colon, as in [session:001], hides its records from queries by type. *)
Lemma colon_hides_records m a b p rt : colon ∉ a -> colon ∉ b -> validate_payload p = None ->
  fresh (a ++ str ":" ++ b) m -> NoDup (rkey (a ++ str ":" ++ b) <$> records p) ->
  (forall r, r ∈ records p -> utf8_valid (rkey (a ++ str ":" ++ b) r) = true) -> (forall z, as_str rt <> dec_i64 z) ->
  run_map (stored (a ++ str ":" ++ b) p m) (by_type (a ++ str ":" ++ b) rt) = (Ok [], stored (a ++ str ":" ++ b) p m).
Proof.
  intros Ha Hb Hv Hfresh Hnd Hu Hz. set (sk := a ++ str ":" ++ b) in *. unfold get_records_by_type, try_. fold (range_start sk).
  rewrite run_map_bind, run_scan_prefix. cbn [run_map]. f_equal. f_equal.
  assert (forall l, (forall kv, kv ∈ l -> record_of as_str decode_record rt kv = None) -> omap (record_of as_str decode_record rt) l = []) as Hnil.
  { induction l as [|x l IH]; intros Hl; [done|]. cbn. rewrite (Hl x) by left. apply IH. intros kv Hkv. apply Hl. by right. }
  apply Hnil. intros kv Hin. rewrite (scan_records sk p m Hnd Hfresh) in Hin. apply list_elem_of_fmap in Hin as (r & -> & Hr).
  unfold record_of. cbn [fst snd]. enough (has_type as_str rt (rkey sk r) = false) as -> by done.
  unfold has_type. rewrite (from_utf8_lossy_valid _ (Hu r Hr)). unfold record_key, sk. rewrite <- !app_assoc.
  change (RECORD_PREFIX ++ ?x) with (str "arec" ++ str ":" ++ x).
  rewrite (splitn_app 3) by (apply (bool_decide_unpack _); vm_compute; exact Logic.I). rewrite (splitn_app 2) by done.
  rewrite (splitn_app 1) by done. rewrite (splitn_app 0) by apply dec_i64_colon. cbn [splitn length Nat.leb andb lookup list_lookup].
  apply bool_decide_eq_false_2. intros [= E]. by apply (Hz (step r)).
Qed.
End spec.

(** ** A small codec, for the witnesses

    A record is a message or a tool call at step zero or one; it is two
    characters, and a payload is the text of its records. *)
Definition Rec : Type := bool * bool.
Definition ex_type : Rec -> bool := fst.
Definition ex_as_str (t : bool) : bytes := if t then str "msg" else str "tool".
Definition ex_step (r : Rec) : Z := if r.2 then 1 else 0.
Definition ex_id (r : Rec) : bytes := str "x".
Definition ex_encode_record (r : Rec) : bytes := [if r.1 then x6d else x74; if r.2 then x31 else x30].

Definition ex_decode_pair (a b : byte) : option Rec :=
  match a, b with
  | x6d, x31 => Some (true, true) | x6d, x30 => Some (true, false)
  | x74, x31 => Some (false, true) | x74, x30 => Some (false, false)
  | _, _ => None
  end.

Definition ex_decode_record (l : bytes) : option Rec := match l with [a; b] => ex_decode_pair a b | _ => None end.

Fixpoint ex_decode_all (l : bytes) : option (list Rec) :=
  match l with
  | [] => Some []
  | a :: b :: l' => r ← ex_decode_pair a b; rs ← ex_decode_all l'; Some (r :: rs)
  | _ => None
  end.

Abbreviation ExPayload := (AgentPayload (AgentHeader := unit) (AgentRecord := Rec)).
Definition ex_payload (rs : list Rec) : ExPayload := mkPayload tt rs.
Definition ex_encode (p : ExPayload) : bytes := mjoin (ex_encode_record <$> records p).
Definition ex_decode (l : bytes) : ExPayload + unit := match ex_decode_all l with Some rs => inl (ex_payload rs) | None => inr tt end.
Definition ex_validate (p : ExPayload) : option bytes := match records p with [] => Some (str "empty payload") | _ => None end.

Lemma ex_record_ok r : utf8_valid (ex_encode_record r) = true /\ ex_decode_record (ex_encode_record r) = Some r.
Proof. destruct r as [[] []]; done. Qed.

Lemma ex_codec p : ex_validate p = None -> utf8_valid (ex_encode p) = true /\ ex_decode (ex_encode p) = inl p.
Proof.
  intros _. destruct p as [[] rs]. unfold ex_decode, ex_encode. cbn [records]. split.
  - unfold utf8_valid. rewrite utf8_decode_ascii; [done|]. induction rs as [|[[] []] rs IH]; repeat constructor; done.
  - assert (ex_decode_all (mjoin (ex_encode_record <$> rs)) = Some rs) as ->; [|done].
    induction rs as [|[[] []] rs IH]; [done|..]; rewrite fmap_cons, mjoin_cons; unfold ex_encode_record at 1;
      cbn [app ex_decode_all ex_decode_pair mbind option_bind fst snd]; by rewrite IH.
Qed.

Lemma ex_types a b : ex_as_str a = ex_as_str b -> a = b.
Proof. by destruct a, b. Qed.

Lemma ex_no_colon a : colon ∉ ex_as_str a.
Proof. destruct a; apply (bool_decide_unpack _); vm_compute; exact Logic.I. Qed.

Abbreviation ex_store := (store_payload ex_as_str ex_type ex_step ex_id ex_validate ex_encode ex_encode_record).
Abbreviation ex_load := (load_payload (AgentHeader := unit) (AgentRecord := Rec) ex_decode).
Abbreviation ex_by_type := (get_records_by_type (AgentRecord := Rec) ex_as_str ex_decode_record).
Abbreviation ex_append := (append_records ex_as_str ex_type ex_step ex_id tt (fun _ h => h) ex_validate ex_encode ex_decode ex_encode_record).

Definition two_records : ExPayload := ex_payload [(true, false); (false, true)].

Lemma agent_store_load_witness : exists m', run_map ∅ (ex_store (str "s1") two_records) = (Ok tt, m') /\
  run_map m' (ex_load (str "s1")) = (inl two_records, m').
Proof.
  destruct (agent_store_load ex_as_str ex_type ex_step ex_id ex_validate ex_encode ex_decode ex_encode_record ex_codec
    ∅ (str "s1") two_records) as (m' & H1 & H2 & _). exists m'. split; [exact H1|exact H2].
Defined.

Lemma agent_append_witness : exists m', run_map ∅ (ex_append (str "s1") [(true, true)]) = (Ok tt, m') /\
  run_map m' (ex_load (str "s1")) = (inl (ex_payload [(true, true)]), m').
Proof.
  exact (agent_append ex_as_str ex_type ex_step ex_id tt (fun _ h => h) ex_validate ex_encode ex_decode ex_encode_record ex_codec
    ∅ (str "s1") [(true, true)]).
Defined.

Lemma agent_records_by_type_witness : exists m' rs,
  run_map ∅ (ex_store (str "s1") two_records) = (Ok tt, m') /\ run_map m' (ex_by_type (str "s1") false) = (Ok rs, m') /\
  (false, true) ∈ rs.
Proof.
  destruct (agent_records_by_type ex_as_str ex_type ex_step ex_id ex_validate ex_encode ex_encode_record ex_decode_record
    ex_record_ok ex_types ex_no_colon ∅ (str "s1") two_records false) as (m' & rs & H1 & H2 & H3).
  - apply (bool_decide_unpack _). vm_compute. exact Logic.I.
  - reflexivity.
  - intros t. apply lookup_empty.
  - apply (bool_decide_unpack _). vm_compute. exact Logic.I.
  - intros r Hr. repeat (apply elem_of_cons in Hr as [->|Hr]; [vm_compute; reflexivity|]). by apply not_elem_of_nil in Hr.
  - exists m', rs. split; [exact H1|]. split; [exact H2|]. apply H3. split; [right; left|reflexivity].
Defined.

(** ** Behaviour at the edges *)
Definition after_ops (ps : list (Prog (res bytes unit))) : gmap bytes bytes := foldl (fun m p => (run_map m p).2) ∅ ps.

(** Deleting the session s1 takes the records of s10 with it. *)
Lemma delete_takes_longer_keys :
  (run_map (after_ops [ex_store (str "s10") two_records]) (ex_by_type (str "s10") true)).1 = Ok [(true, false)] /\
  (run_map (after_ops [ex_store (str "s10") two_records; delete_payload (str "s1")]) (ex_by_type (str "s10") true)).1 = Ok [] /\
  (run_map (after_ops [ex_store (str "s10") two_records; delete_payload (str "s1")]) (ex_load (str "s10"))).1 = inl two_records.
Proof. split_and!; vm_compute; reflexivity. Qed.

(** Storing a payload anew leaves the records of the old one behind. *)
Lemma stale_records_stay :
  (run_map (after_ops [ex_store (str "s1") two_records; ex_store (str "s1") (ex_payload [(true, true)])])
    (ex_by_type (str "s1") false)).1 = Ok [(false, true)].
Proof. vm_compute. reflexivity. Qed.

(** Appending to a session whose payload does not decode replaces it. *)
Lemma append_replaces_unreadable :
  let m := <[agent_key (str "s1") := str "??"]> (after_ops [ex_store (str "s2") two_records]) in
  (run_map m (ex_load (str "s1"))).1 = inr (BadPayload tt) /\
  (run_map (run_map m (ex_append (str "s1") [(true, true)])).2 (ex_load (str "s1"))).1 = inl (ex_payload [(true, true)]).
Proof. split; vm_compute; reflexivity. Qed.
