(* ===== verification/AgentEngine.v ===== *)
(** * The agent store on the storage engine

    The programs of [AgentStore] run over the engine with the manager's indices;
    while the worker keeps up they answer what they answer over a map, so that
    what [AgentSpec] shows holds of the store on disk. *)

From S2P Require Import Prelude Ordered Text Float Fnv Bloom Memtable Wal Page PageStore Compaction BgCompaction Cache Hamt IndexApi Engine EngineSpec Recovery.
From S2P Require Import Prog AgentStore AgentSpec.
From S2P Require Manager ManagerSpec.
#[local] Existing Instance ManagerSpec.manager_index.
#[local] Existing Instance ManagerSpec.manager_index_laws.
Local Open Scope Z_scope.

Section engine.
Context (crc : bytes -> Z) (deflate : bytes -> bytes).
Context (read_dir : fs -> list bytes) (ln : f64 -> f64).
Context (iter : gmap bytes CacheEntry -> list (bytes * CacheEntry)).
Context {I : Type} `{Hops : IndexOps I} `{Hlaws : !IndexLaws I}.
Implicit Types (e : Engine (I := I)).
Context (ks : gset bytes) (Hks : no_collision ks).
Context (cap : Z) (Hcap : cap <= 2 ^ 63).
Context (Hln : forall n, Z.of_nat n < cap -> bloom_fits ln n).

Abbreviation prog_safe := (prog_safe crc deflate read_dir ln iter ks cap).
Abbreviation run_engine io := (run_prog crc ln iter (settle deflate read_dir io)).

Section agent.
Context {AgentHeader AgentRecord RecordType DecodeError : Type}.
Context (as_str : RecordType -> bytes) (record_type : AgentRecord -> RecordType).
Context (step : AgentRecord -> Z) (rec_id : AgentRecord -> bytes).
Abbreviation Payload := (AgentPayload (AgentHeader := AgentHeader) (AgentRecord := AgentRecord)).
Context (validate_payload : Payload -> option bytes).
Context (encode : Payload -> bytes) (decode : bytes -> Payload + DecodeError).
Context (encode_record : AgentRecord -> bytes).
Context (Hcodec : forall p, validate_payload p = None -> utf8_valid (encode p) = true /\ decode (encode p) = inl p).

Abbreviation Loaded := (Payload + LoadError (DecodeError := DecodeError))%type.
Abbreviation stored := (stored as_str record_type step rec_id encode encode_record).

(** Store sessions one after the other, then load them all. *)
Fixpoint store_sessions (l : list (bytes * Payload)) : Prog (res bytes unit) :=
  match l with
  | [] => Ret (Ok tt)
  | kp :: l =>
      try_ (store_payload as_str record_type step rec_id validate_payload encode encode_record kp.1 kp.2) (fun _ => store_sessions l)
  end.

Fixpoint load_sessions (l : list bytes) : Prog (list Loaded) :=
  match l with
  | [] => Ret []
  | sk :: l => pbind (load_payload decode sk) (fun r => pbind (load_sessions l) (fun rs => Ret (r :: rs)))
  end.

Definition store_and_load (l : list (bytes * Payload)) : Prog (res bytes (list Loaded)) :=
  try_ (store_sessions l) (fun _ => pbind (load_sessions l.*1) (fun rs => Ret (Ok rs))).

(** The map after the sessions are stored. *)
Definition stored_all (m : gmap bytes bytes) (l : list (bytes * Payload)) : gmap bytes bytes :=
  foldl (fun m kp => stored kp.1 kp.2 m) m l.

Lemma run_store_sessions l : Forall (fun kp => validate_payload kp.2 = None) l ->
  forall m, run_map m (store_sessions l) = (Ok tt, stored_all m l).
Proof.
  induction 1 as [|[sk p] l Hv _ IH]; intros m; [done|]. cbn [store_sessions fst snd]. unfold try_.
  rewrite run_map_bind, (run_store _ _ _ _ validate_payload) by done. apply IH.
Qed.

Lemma run_load_sessions sks m : run_map m (load_sessions sks) = ((fun sk => loaded decode sk m) <$> sks, m).
Proof.
  induction sks as [|sk sks IH]; [done|]. cbn [load_sessions]. rewrite run_map_bind, run_load.
  cbn [fst snd]. by rewrite run_map_bind, IH.
Qed.

Lemma stored_all_other sk l : forall m, sk ∉ l.*1 -> loaded decode sk (stored_all m l) = loaded decode sk m.
Proof.
  induction l as [|[sk' p] l IH]; intros m Hsk; [done|]. csimpl in Hsk. apply not_elem_of_cons in Hsk as [Hne Hsk].
  change (stored_all m ((sk', p) :: l)) with (stored_all (stored sk' p m) l). rewrite IH by done.
  apply (loaded_other _ _ _ _ _ _ _ sk' sk). congruence.
Qed.

Lemma stored_all_loaded l : NoDup l.*1 -> Forall (fun kp => validate_payload kp.2 = None) l ->
  forall m, ((fun sk => loaded decode sk (stored_all m l)) <$> l.*1) = (inl <$> l.*2).
Proof.
  induction l as [|[sk p] l IH]; intros Hnd Hv m; [done|]. csimpl in *. apply NoDup_cons in Hnd as [Hni Hnd].
  apply Forall_cons in Hv as [Hp Hv]. change (stored_all m ((sk, p) :: l)) with (stored_all (stored sk p m) l).
  rewrite IH, stored_all_other by done. f_equal. by apply (loaded_stored _ _ _ _ validate_payload).
Qed.

(** C37: on an engine whose worker catches up after each operation, any number of
    payloads that validate, stored under different session keys by a program that is
    safe (its keys have distinct hashes, no flush fills level 0 with pages that
    disagree, the table limit is not reached), are stored without an error and all
    loaded back unchanged, and the engine then holds exactly the entries of all of
    them over what it held before. *)
Theorem agent_on_engine io n e l : engine_inv ks n e ->
  Forall (fun kp => validate_payload kp.2 = None) l -> NoDup l.*1 -> prog_safe io n e (store_and_load l) ->
  (run_engine io e (store_and_load l)).1 = Ok (inl <$> l.*2) /\
  Hamt.view (state (run_engine io e (store_and_load l)).2) = stored_all (Hamt.view (state e)) l.
Proof.
  intros Hinv Hv Hnd Hs. destruct (run_prog_ok crc deflate read_dir ln iter ks Hks cap Hcap Hln io _ n e Hinv Hs) as (-> & -> & _).
  unfold store_and_load, try_. rewrite run_map_bind, run_store_sessions by done. cbn [fst snd].
  rewrite run_map_bind, run_load_sessions. cbn [run_map fst snd]. split; [|done]. by rewrite stored_all_loaded.
Qed.
End agent.
End engine.

(** ** A database with the manager's indices *)
Definition manager_engine : Engine (I := Manager.IndexManager) :=
  mkEngine (Wal.open []) (Memtable.new 1000) [] 1000 (BgCompaction.new (Some ∅)) Manager.new Hamt.new ∅ 0 0 0 0 0 (Cache.new 1024).

Lemma manager_engine_inv ks : no_collision ks -> engine_inv ks 0 manager_engine.
Proof.
  intros Hks. destruct (open_inv (I := Manager.IndexManager) crc32 Some list_names ln_sample ks Hks 1000 empty_dir [] eq_refl) as (e & E & Hinv & _).
  - done.
  - intros k. cbn. by intros ?%not_elem_of_nil.
  - cbn. lia.
  - done.
  - assert (open crc32 Some list_names ln_sample 1000 empty_dir = Ok manager_engine) as E' by done.
    rewrite E' in E. injection E as <-. exact Hinv.
Qed.

Definition agent_keys : gset bytes :=
  list_to_set (str <$> ["agent:s1"; "arec:s1:0:msg:x"; "agent:s2"; "arec:s2:1:tool:x"]%string).

Lemma agent_keys_ok : no_collision agent_keys.
Proof. apply distinct_hashes_ok. vm_compute. reflexivity. Qed.

Definition ex_sessions : list (bytes * AgentPayload) :=
  [(str "s1", ex_payload [(true, false)]); (str "s2", ex_payload [(false, true)])].

Definition ex_program := store_and_load ex_as_str ex_type ex_step ex_id ex_validate ex_encode ex_decode ex_encode_record ex_sessions.

Lemma agent_on_engine_witness :
  (run_prog crc32 ln_sample (fun m => map_to_list m) (settle id list_names 100) manager_engine ex_program).1 =
    Ok [inl (ex_payload [(true, false)]); inl (ex_payload [(false, true)])].
Proof.
  destruct (agent_on_engine (I := Manager.IndexManager) crc32 id list_names ln_sample (fun m => map_to_list m) agent_keys agent_keys_ok
    17 ltac:(done) bloom_fits_sample ex_as_str ex_type ex_step ex_id ex_validate ex_encode ex_decode ex_encode_record ex_codec
    100 0 manager_engine ex_sessions) as [E _].
  - exact (manager_engine_inv agent_keys agent_keys_ok).
  - by repeat constructor.
  - apply (bool_decide_unpack _). by vm_compute.
  - apply prog_safeb_ok. vm_compute. reflexivity.
  - exact E.
Defined.
