(* ===== verification/AgentQuery.v ===== *)
(** * Searches of the agent store

    [search_records] of [src/agent_store.rs]: a query of the indices, and the records among its hits. After
    a safe program of the store, with ASCII keys, on an engine with the manager's indices it answers records that the
    engine holds now, and all that hold a word of the text when the query falls short of the limit. *)

From S2P Require Import Prelude Ordered Text Float Fnv Bloom Memtable Wal Page PageStore Compaction BgCompaction Cache Hamt IndexApi QueryApi Engine EngineSpec Recovery Prog IndexedEngine AgentStore AgentSpec AgentEngine.
From S2P Require Planner Manager ManagerSpec Bm25 Bm25Score Fuzzy Graph Hnsw HnswSpec.
#[local] Existing Instance ManagerSpec.manager_index.
#[local] Existing Instance ManagerSpec.manager_index_laws.
Local Open Scope Z_scope.

Definition search_spec (query : bytes) (limit : nat) : Planner.QuerySpec :=
  let d := Planner.default_spec in
  Planner.mkSpec query (Planner.vector d) limit (Planner.max_depth d) (Planner.relations d)
    (Planner.lang_filter d) (Planner.type_filter d) (Planner.file_filter d) (Planner.merge_strategy d) (Planner.timeout_ms d).

Section search.
Context (crc : bytes -> Z) (ln : f64 -> f64) (iter : gmap bytes CacheEntry -> list (bytes * CacheEntry)).
Context {I : Type} `{Hops : IndexOps I} `{Hquery : IndexQuery I}.
Context {AgentRecord : Type} (decode_record : bytes -> option AgentRecord).

Definition search_records (bg : Engine (I := I) -> Engine) (query : bytes) (limit : nat) (e : Engine) : res bytes (list (AgentRecord * f64)) * Engine :=
  match idx_query (indices e) (search_spec query limit) with
  | Ok (hits, i) =>
      let '(results, e') := run_prog crc ln iter bg (set_indices i e)
        (collect_records decode_record ((fun hit => (Planner.key hit, Planner.score hit)) <$> hits)) in
      (Ok results, e')
  | _ => (Panic, e)
  end.
End search.

(** ** The records of hits, over a map *)
Section records.
Context {AgentRecord : Type} (decode_record : bytes -> option AgentRecord).

Definition is_record_key (key : bytes) : bool := bool_decide (is_Some (strip_prefix RECORD_PREFIX (from_utf8_lossy key))).

(** The record that a map holds at a key. *)
Definition record_at (m : gmap bytes bytes) (key : bytes) : option AgentRecord :=
  if is_record_key key then v ← m !! key; decode_record (from_utf8_lossy v) else None.

Definition hit_record {S : Type} (m : gmap bytes bytes) (hit : bytes * S) : option (AgentRecord * S) :=
  (fun r => (r, hit.2)) <$> record_at m hit.1.

Lemma run_collect {S : Type} m (hits : list (bytes * S)) : run_map m (collect_records decode_record hits) = (omap (hit_record m) hits, m).
Proof.
  induction hits as [|[k s] hits IH]; [done|]. cbn [collect_records omap list_omap]. unfold hit_record at 1, record_at, is_record_key. cbn [fst snd].
  destruct (strip_prefix _ _) as [x|]; [rewrite bool_decide_eq_true_2 by done|rewrite bool_decide_eq_false_2 by (by intros []); exact IH].
  rewrite run_map_bind. cbn [e_get run_map spec_eop]. rewrite run_map_bind, IH. cbn [run_map].
  destruct (m !! k) as [v|]; [|done]. cbn [mbind option_bind]. by destruct (decode_record _).
Qed.

Lemma collect_writes {S : Type} (hits : list (bytes * S)) : forall m, prog_writes m (collect_records decode_record hits) = [].
Proof.
  induction hits as [|[k s] hits IH]; intros m; [done|]. cbn [collect_records]. destruct (strip_prefix _ _); [|apply IH].
  rewrite prog_writes_bind. cbn [e_get prog_writes eop_writes run_map spec_eop app fst snd]. by rewrite prog_writes_bind, IH.
Qed.

Context (crc : bytes -> Z) (deflate : bytes -> bytes) (read_dir : fs -> list bytes) (ln : f64 -> f64).
Context (iter : gmap bytes CacheEntry -> list (bytes * CacheEntry)) {I : Type} `{Hops : IndexOps I} (ks : gset bytes) (cap : Z).

Lemma collect_safe {S : Type} io (hits : list (bytes * S)) : forall n (e : Engine (I := I)), n + Z.of_nat (length hits) <= cap ->
  prog_safe crc deflate read_dir ln iter ks cap io n e (collect_records decode_record hits) /\
  prog_count crc deflate read_dir ln iter io n e (collect_records decode_record hits) <= n + Z.of_nat (length hits).
Proof.
  induction hits as [|[k s] hits IH]; intros n e Hn; cbn [length] in *; [cbn; lia|]. cbn [collect_records].
  destruct (strip_prefix _ _); [|destruct (IH n e) as [? ?]; [lia|split; [done|lia]]].
  destruct (get_safe crc deflate read_dir ln iter ks cap io n e k) as [Hs Hc]; [lia|]. rewrite prog_count_bind, Hc.
  set (x := run_prog _ _ _ _ _ _). destruct (IH (n + 1) x.2) as [Hs1 Hc1]; [lia|]. rewrite prog_count_bind.
  split; [|cbn [prog_count]; lia]. apply prog_safe_bind; [done|]. rewrite Hc. fold x.
  apply prog_safe_bind; [done|]. cbn [prog_safe]. lia.
Qed.
End records.

(** ** After any program *)
Section manager.
Context (crc : bytes -> Z) (deflate : bytes -> bytes) (read_dir : fs -> list bytes) (ln exp : f64 -> f64).
Context (iter : gmap bytes CacheEntry -> list (bytes * CacheEntry)).
Context `{HL : Hnsw.HeapLaws}.
Variable sort_unstable_by : (nat * f64 -> nat * f64 -> comparison) -> list (nat * f64) -> list (nat * f64).
Variable select_nth_unstable_by : nat -> (nat * f64 -> nat * f64 -> comparison) -> list (nat * f64) -> list (nat * f64).
Variable iter_hits : gmap nat nat -> list (nat * nat).
Variable iter_scores : gmap bytes f64 -> list (bytes * f64).
Hypothesis Hsort : sorts sort_unstable_by.
Hypothesis Hselect : selects select_nth_unstable_by.
Hypothesis Hiter_hits : forall x, iter_hits x ≡ₚ map_to_list x.
Hypothesis Hiter_scores : forall x, iter_scores x ≡ₚ map_to_list x.
Hypothesis Hpos : Bm25Score.ln_positive ln.

#[local] Instance queried : IndexQuery Manager.IndexManager :=
  manager_query ln sort_unstable_by select_nth_unstable_by iter_hits iter_scores.
Context (ks : gset bytes) (Hks : no_collision ks) (cap : Z) (Hcap : cap <= 2 ^ 63).
Context (Hln : forall n, Z.of_nat n < cap -> bloom_fits ln n).

Abbreviation worker io := (settle (I := Manager.IndexManager) deflate read_dir io).
Abbreviation safe := (prog_safe crc deflate read_dir ln iter ks cap).
Abbreviation count := (prog_count crc deflate read_dir ln iter).
Abbreviation run io := (run_prog crc ln iter (worker io)).

(** An engine whose indices follow its records. *)
Record follows (n : Z) (e : Engine (I := Manager.IndexManager)) (ds : list Bm25.Doc) : Prop := {
  fo_inv : engine_inv ks n e;
  fo_mgr : ManagerSpec.mgr_ok (indices e) ds;
  fo_tracks : ManagerSpec.tracks ds (Hamt.view (state e))
}.

Lemma follows_run {A : Type} io (p : Prog A) n e ds : follows n e ds -> safe io n e p ->
  let ops := mop <$> prog_writes (Hamt.view (state e)) p in
  Forall ManagerSpec.op_ok ops -> Bm25.fits (foldl ManagerSpec.doc_op ds ops) ->
  follows (count io n e p) (run io e p).2 (foldl ManagerSpec.doc_op ds ops).
Proof.
  intros [Hi Hm Ht] Hs ops Hops Hfit.
  destruct (run_prog_ok crc deflate read_dir ln iter ks Hks cap Hcap Hln io p n e Hi Hs) as (_ & E2 & E3 & E4).
  rewrite (idx_writes_ops ln exp) in E4. fold ops in E4.
  destruct (ManagerSpec.run_ops_ok ln exp ops (indices e) ds _ Hm Ht Hops Hfit) as (g & Eg & Hg & Ht').
  rewrite E4 in Eg. injection Eg as Eg. split; [done|by rewrite Eg|]. rewrite E2, run_map_writes, map_writes_ops. exact Ht'.
Qed.

(** What a search answers, from the hits [hits] of a query of the indices [g] that follow the records [m]: the records among
    them, in order of their score; and when the query answers fewer hits than it may, every record with a word of the text. *)
Record search_answered {AgentRecord : Type} (decode_record : bytes -> option AgentRecord) (g : Manager.IndexManager)
  (m : gmap bytes bytes) (query : bytes) (limit : nat) (rs : list (AgentRecord * f64)) (hits : list Planner.RankedHit) : Prop := {
  sa_limit : (length hits <= limit)%nat;
  sa_order : NoDup (Planner.key <$> hits) /\ in_order Planner.by_score hits;
  sa_found : forall h, h ∈ hits -> exists step, step ∈ Planner.plan (search_spec query limit) /\ answers g m (search_spec query limit) step (Planner.key h);
  sa_records : rs = omap (fun h => (fun r => (r, Planner.score h)) <$> record_at decode_record m (Planner.key h)) hits;
  sa_complete : (length hits < limit)%nat -> Z.of_nat limit < 2 ^ 63 -> Planner.has_text (search_spec query limit) = true ->
    forall x v t rec, m !! x = Some v -> record_at decode_record m x = Some rec ->
      t ∈ Bm25.tokenize query -> t ∈ Bm25.tokens_of x ++ Bm25.tokens_of v -> rec ∈ rs.*1
}.

Lemma record_key_nonempty {AgentRecord : Type} (decode_record : bytes -> option AgentRecord) m x rec :
  record_at decode_record m x = Some rec -> x <> [].
Proof. intros Hr ->. discriminate Hr. Qed.

Lemma omap_fmap {A B C : Type} (f : A -> B) (g : B -> option C) (l : list A) : omap g (f <$> l) = omap (fun x => g (f x)) l.
Proof. induction l as [|x l IH]; [done|]. cbn. by rewrite IH. Qed.

Lemma search_records_ok {AgentRecord : Type} (decode_record : bytes -> option AgentRecord) io n e ds query limit :
  follows n e ds -> Fuzzy.ascii query /\ Fuzzy.short query -> n + Z.of_nat limit <= cap ->
  exists rs e' hits, search_records crc ln iter decode_record (worker io) query limit e = (Ok rs, e') /\
    Hamt.view (state e') = Hamt.view (state e) /\ search_answered decode_record (indices e) (Hamt.view (state e)) query limit rs hits.
Proof.
  intros [Hi Hm Ht] Htext Hn. set (m := Hamt.view (state e)) in *. set (spec := search_spec query limit).
  destruct (ManagerSpec.query_hits_ok ln sort_unstable_by select_nth_unstable_by iter_hits iter_scores Hsort Hselect Hiter_hits
    Hiter_scores (indices e) ds spec Hm Htext) as (hits & g & E & Hsame & Hlen & Hnd & _ & Hord & Hfound).
  assert (engine_inv ks n (set_indices g e)) as Hi1 by (destruct Hsame as (r & -> & _); by apply indices_inv).
  destruct (collect_safe decode_record crc deflate read_dir ln iter ks cap io
    ((fun hit => (Planner.key hit, Planner.score hit)) <$> hits) n (set_indices g e)) as [Hs _].
  { rewrite length_fmap. cbn in Hlen. lia. }
  destruct (run_prog_ok crc deflate read_dir ln iter ks Hks cap Hcap Hln io _ n _ Hi1 Hs) as (E1 & E2 & _).
  rewrite run_collect in E1, E2. cbn [fst snd set_indices state] in E1, E2.
  unfold search_records. cbn [idx_query queried manager_query]. fold spec. rewrite E. destruct (run io _ _) as [rs e'] eqn:Er. cbn [fst snd] in E1, E2.
  exists rs, e', hits. split; [done|]. split; [done|]. rewrite omap_fmap in E1.
  assert (rs = omap (fun h => (fun r => (r, Planner.score h)) <$> record_at decode_record m (Planner.key h)) hits) as Hrs by exact E1.
  split; [done|done| |exact Hrs|].
  - intros h Hh. destruct (Hfound h Hh) as (step & Hstep & Hf). exists step. split; [done|]. by eapply found_answers.
  - intros Hl Hk Htxt x v t rec Hxv Hx Hq Htx. rewrite Hrs.
    assert (x ∈ Planner.key <$> hits) as (h & -> & Hh)%list_elem_of_fmap.
    { eapply (ManagerSpec.query_complete ln sort_unstable_by select_nth_unstable_by iter_hits iter_scores Hsort Hselect Hiter_hits
        Hiter_scores Hpos (indices e) ds m spec hits g); try done; [by apply (Planner.plan_exact spec)|].
      apply (ManagerSpec.tracks_found _ _ m); [done|]. split; [by eapply record_key_nonempty|]. by exists v, t. }
    apply list_elem_of_fmap. exists (rec, Planner.score h). split; [done|]. apply list_elem_of_omap. exists h. by rewrite Hx.
Qed.

(** C38: on an engine that started empty, a program of the agent store with short ASCII keys, within
    the size of the keyword index and safe (keys of distinct hashes, no flush that fills level 0
    with pages that disagree, a worker that catches up) writes its records, and a search with a
    short ASCII query then returns without a panic and changes none of them. It answers records that
    the engine holds now, one per hit of the query at a record key, at most as many as asked for,
    each found by an index of the plan and with its score, best first; and when the query has text
    and fewer hits than asked for, every record whose key or line holds a word of it. *)
Theorem search_records_exact {A AgentRecord : Type} (decode_record : bytes -> option AgentRecord) io n e (p : Prog A) query limit :
  engine_inv ks n e -> indices e = Manager.new -> Hamt.view (state e) = ∅ -> safe io n e p ->
  Forall ManagerSpec.op_ok (mop <$> prog_writes ∅ p) -> Bm25.fits (foldl ManagerSpec.doc_op [] (mop <$> prog_writes ∅ p)) ->
  Fuzzy.ascii query /\ Fuzzy.short query -> count io n e p + Z.of_nat limit <= cap ->
  exists e1 rs e2 hits, run io e p = ((run_map ∅ p).1, e1) /\ Hamt.view (state e1) = (run_map ∅ p).2 /\
    search_records crc ln iter decode_record (worker io) query limit e1 = (Ok rs, e2) /\ Hamt.view (state e2) = Hamt.view (state e1) /\
    search_answered decode_record (indices e1) (Hamt.view (state e1)) query limit rs hits.
Proof.
  intros Hinv Hidx Hview Hs Hops Hfit Htext Hn.
  assert (follows n e []) as Hf by (split; rewrite ?Hidx, ?Hview; [done|apply ManagerSpec.new_ok|apply ManagerSpec.tracks_new]).
  destruct (run_prog_ok crc deflate read_dir ln iter ks Hks cap Hcap Hln io p n e Hinv Hs) as (E1 & E2 & _).
  pose proof (follows_run io p n e [] Hf Hs) as Hf1. rewrite Hview in *. specialize (Hf1 Hops Hfit).
  destruct (search_records_ok decode_record io _ _ _ query limit Hf1 Htext Hn) as (rs & e2 & hits & E & Hv & Ha).
  destruct (run io e p) as [a e1]. cbn [fst snd] in *. exists e1, rs, e2, hits. by rewrite E1.
Qed.
End manager.

(** ** A store with two records, for the witness *)
#[local] Existing Instance HnswSpec.list_heap.
#[local] Existing Instance HnswSpec.list_heap_laws.

(** A record is a line of text. *)
Definition text_record (line : bytes) : option bytes := Some line.
Definition text_store (sk : bytes) (lines : list bytes) : Prog (res bytes unit) :=
  store_payload (AgentHeader := unit) (fun _ : unit => str "msg") (fun _ => tt) (fun _ => 0) (fun line => take 1 line)
    (fun _ => None) (fun p => mjoin (records p)) id sk (mkPayload tt lines).

Definition text_keys : gset bytes := list_to_set [str "agent:s1"; str "arec:s1:0:msg:a"; str "arec:s1:0:msg:b"].

Lemma text_keys_ok : no_collision text_keys.
Proof. apply distinct_hashes_ok. vm_compute. reflexivity. Qed.

Definition ex_store_lines : Prog (res bytes unit) := text_store (str "s1") [str "a token "; str "b password"].

Abbreviation ex_worker := (settle (I := Manager.IndexManager) (fun b => b) list_names 100).
Definition ex_stored : Engine (I := Manager.IndexManager) := (run_prog crc32 ln_sample map_to_list ex_worker manager_engine ex_store_lines).2.

#[local] Instance ex_queried : IndexQuery Manager.IndexManager := manager_query ln_sample sort_by (fun _ => sort_by) map_to_list map_to_list.
Abbreviation ex_search := (search_records crc32 ln_sample map_to_list text_record ex_worker).
Definition ex_writes : list (bytes * option bytes) := prog_writes ∅ ex_store_lines.

Lemma search_records_exact_witness : exists e1 rs e2,
  run_prog crc32 ln_sample map_to_list ex_worker manager_engine ex_store_lines = (Ok tt, e1) /\
  ex_search (str "password") 3 e1 = (Ok rs, e2) /\ str "b password" ∈ rs.*1.
Proof.
  destruct (search_records_exact crc32 (fun b => b) list_names ln_sample id map_to_list sort_by (fun _ => sort_by) map_to_list map_to_list
    sort_by_sorts sort_by_selects (fun m => reflexivity _) (fun m => reflexivity _) Bm25Score.ln_sample_positive text_keys text_keys_ok 17 ltac:(done) bloom_fits_sample
    text_record 100 0 manager_engine ex_store_lines (str "password") 3) as (e1 & rs & e2 & hits & E1 & Hv & E2 & _ & Ha).
  - apply manager_engine_inv. exact text_keys_ok.
  - reflexivity.
  - vm_compute. reflexivity.
  - apply prog_safeb_ok. vm_compute. reflexivity.
  - repeat (apply Forall_cons; split; [by apply ManagerSpec.ascii_short_dec|]). by apply Forall_nil.
  - vm_compute. reflexivity.
  - by apply (ManagerSpec.ascii_short_dec (str "password")).
  - apply Z.leb_le. vm_compute. reflexivity.
  - exists e1, rs, e2. split; [exact E1|]. split; [exact E2|].
    assert (rs = [(str "b password", snd (default ([], f64_of_Z 0) (head rs)))]) as ->; [|by left].
    assert (ex_stored = e1) as <- by (unfold ex_stored; by rewrite E1).
    assert (match (ex_search (str "password") 3 ex_stored).1 with Ok l => l.*1 | _ => [] end = [str "b password"]) as Hl by (vm_compute; reflexivity).
    assert ((ex_search (str "password") 3 ex_stored).1 = Ok rs) as E3 by exact (f_equal fst E2).
    rewrite E3 in Hl. destruct rs as [|[r s] [|]]; try discriminate Hl. injection Hl as ->. reflexivity.
Defined.

(** The limit counts the hits and not the records: the payload of a session, which repeats the words of its records under a shorter
    key, ranks before them, and a search for one record answers none. *)
Definition ln_low (x : f64) : f64 := f64_lit 182322 1000000.
#[local] Instance low_queried : IndexQuery Manager.IndexManager := manager_query ln_low sort_by (fun _ => sort_by) map_to_list map_to_list.

Lemma payload_hides_record :
  let e := (run_prog crc32 ln_sample map_to_list ex_worker manager_engine (text_store (str "s1") [str "a token"])).2 in
  (search_records (Hquery := low_queried) crc32 ln_sample map_to_list text_record ex_worker (str "token") 1 e).1 = Ok [] /\
  (fmap (M := list) fst <$> (search_records (Hquery := low_queried) crc32 ln_sample map_to_list text_record ex_worker (str "token") 2 e).1) = Ok [str "a token"].
Proof. split; vm_compute; reflexivity. Qed.
