(* ===== verification/Server.v ===== *)
(** * The request handlers of [src/server.rs]

    One definition per handler, over the engine behind a reader-writer lock, the
    transaction manager and the watches behind mutexes. The wire protocol (messages,
    responses, opcodes) belongs to the ulmp crates: the class [Ump] holds what the
    handlers use of it, and a handler takes the fields of its message as arguments. *)

From S2P Require Import Prelude Ordered Text Float Fnv Namespace Bloom Memtable Wal Page PageStore Compaction BgCompaction Cache Hamt IndexApi QueryApi Engine EngineSpec Prog.
From S2P Require Session Planner Manager.
#[local] Existing Instance Session.TxIsolation_eq_dec.
Local Open Scope Z_scope.

(** ** What the handlers use of the protocol *)
Class Ump := {
  Response : Type;
  Opcode : Type;
  Single : Opcode -> bytes -> Response;
  Stream : list (Opcode * bytes) -> Response;
  NoResponse : Response;
  OP_ERROR : Opcode;
  OP_RESULT_START : Opcode;
  OP_RESULT_ROW : Opcode;
  OP_RESULT_END : Opcode;
  OP_AUTH_ROTATE_CHALLENGE : Opcode;
  OP_AUTH_ROTATE_ACK : Opcode
}.

(** ** Payloads *)
Definition TAG_U8 : byte := x01.
Definition TAG_U32 : byte := x03.
Definition TAG_U64 : byte := x04.
Definition TAG_F64 : byte := x0a.
Definition TAG_BYTES : byte := x0c.
Definition TAG_STRING : byte := x0d.
Definition TAG_END : byte := xff.

Definition Field : Type := byte * bytes.

Definition enc_field (f : Field) : bytes :=
  let '(tag, data) := f in
  tag :: match tag with
         | x01 => match data with b :: _ => [b] | [] => [] end
         | x03 | x04 | x0a => data
         | x0c | x0d => be_bytes 4 (u32 (Z.of_nat (length data))) ++ data
         | _ => []
         end.

Definition enc (fields : list Field) : bytes := mjoin (enc_field <$> fields) ++ [TAG_END].

Definition string_field (s : bytes) : Field := (TAG_STRING, s).
Definition bytes_field (b : bytes) : Field := (TAG_BYTES, b).
Definition u32_field (v : Z) : Field := (TAG_U32, be_bytes 4 v).
Definition u64_field (v : Z) : Field := (TAG_U64, be_bytes 8 v).
Definition u8_field (v : byte) : Field := (TAG_U8, [v]).
Definition f64_field (v : f64) : Field := (TAG_F64, be_bytes 8 (f64_to_bits v)).

(** [n as u32] of a size. *)
Definition as_u32 (n : nat) : Z := u32 (Z.of_nat n).

Definition resolve_ns (namespace : bytes) : Z :=
  match namespace with
  | [] => 0
  | _ =>
      match parse_usize namespace with
      | Some n => n
      | None =>
          match split_first x40 namespace with
          | Some (repo, sha) => derive_namespace_id repo sha
          | None => derive_namespace_id namespace []
          end
      end
  end.

(** ** Locks *)
Record Lock (A : Type) := mkLock { guarded : A; poisoned : bool }.
Arguments mkLock {A} guarded poisoned.
Arguments guarded {A} l.
Arguments poisoned {A} l.

Definition is_panic {E A : Type} (r : res E A) : bool := match r with Panic => true | _ => false end.

(** [lock.write().unwrap()] and [mutex.lock().unwrap()], held while [f] runs: a poisoned lock
    panics, and a panic of [f] poisons it. *)
Definition with_guard {A B : Type} (l : Lock A) (f : A -> res bytes B * A) : res bytes B * Lock A :=
  if poisoned l then (Panic, l)
  else let '(r, a) := f (guarded l) in (r, mkLock a (is_panic r)).

(** [lock.read().unwrap()]: a panic under a shared guard does not poison. *)
Definition with_shared {A B : Type} (l : Lock A) (f : A -> res bytes B) : res bytes B :=
  if poisoned l then Panic else f (guarded l).

Record WatchEntry := mkWatch { namespace_id : Z; scope : Z; pattern : bytes; credit : Z }.

Section server.
Context (crc : bytes -> Z) (ln : f64 -> f64).
Context (iter : gmap bytes CacheEntry -> list (bytes * CacheEntry)).
Context {I : Type} `{Hops : IndexOps I} `{Hquery : IndexQuery I} `{Hump : Ump}.
(** What the worker thread does after an operation of the engine. *)
Context (bg : Engine (I := I) -> Engine (I := I)).

Record UmpHandler := mkHandler {
  engine : Lock (Engine (I := I));
  tx_mgr : Lock Session.TxManager;
  watches : Lock (gmap Z WatchEntry)
}.

Definition new (e : Engine) : UmpHandler := mkHandler (mkLock e false) (mkLock Session.new false) (mkLock ∅ false).

(** *** The handlers' monad *)
Definition HM (A : Type) : Type := UmpHandler -> res bytes A * UmpHandler.

Definition hret {A : Type} (a : A) : HM A := fun s => (Ok a, s).
Definition hbind {A B : Type} (m : HM A) (f : A -> HM B) : HM B := fun s =>
  match m s with
  | (Ok a, s') => f a s'
  | (Err x, s') => (Err x, s')
  | (Panic, s') => (Panic, s')
  end.
Definition hfail {A : Type} (e : bytes) : HM A := fun s => (Err e, s).

(** [match m { Ok(a) => f(a), Err(e) => g(e) }] *)
Definition hmatch {A : Type} (m : HM A) (f : A -> Response) (g : bytes -> Response) : HM Response := fun s =>
  match m s with
  | (Ok a, s') => (Ok (f a), s')
  | (Err e, s') => (Ok (g e), s')
  | (Panic, s') => (Panic, s')
  end.

Definition write_engine {A : Type} (f : Engine -> res bytes A * Engine) : HM A := fun s =>
  let '(r, l) := with_guard (engine s) f in (r, mkHandler l (tx_mgr s) (watches s)).
Definition read_engine {A : Type} (f : Engine -> res bytes A) : HM A := fun s =>
  (with_shared (engine s) f, s).
Definition lock_tx {A : Type} (f : Session.TxManager -> res bytes A * Session.TxManager) : HM A := fun s =>
  let '(r, l) := with_guard (tx_mgr s) f in (r, mkHandler (engine s) l (watches s)).
Definition lock_watches {A : Type} (f : gmap Z WatchEntry -> res bytes A * gmap Z WatchEntry) : HM A := fun s =>
  let '(r, l) := with_guard (watches s) f in (r, mkHandler (engine s) (tx_mgr s) l).

(** A program over the engine, and one operation of it, under the exclusive guard. *)
Definition write_prog {A : Type} (p : Prog (res bytes A)) : HM A := write_engine (fun e => run_prog crc ln iter bg e p).
Definition write_em {A : Type} (m : EM A) : HM A := write_engine (fun e => let '(r, e') := m e in (r, bg e')).

(** ** Responses *)
Definition error_response (code : byte) (msg : bytes) : Response :=
  Single OP_ERROR (enc [u8_field code; u32_field 0; string_field msg]).

Definition result_end_response (total elapsed_ms : Z) : Response :=
  Single OP_RESULT_END (enc [u32_field total; u32_field elapsed_ms]).

Definition Frame : Type := Opcode * bytes.

Definition start_frame (total : Z) : Frame := (OP_RESULT_START, enc [u32_field total]).
Definition end_frame (total : Z) : Frame := (OP_RESULT_END, enc [u32_field total; u32_field 0]).

Definition row_payload (display_key value : bytes) (score : f64) (rank : Z) : bytes :=
  enc [string_field display_key; bytes_field value; f64_field f64_zero; f64_field f64_zero;
       f64_field f64_zero; f64_field f64_zero; f64_field score; u32_field rank].

Definition row_frame (display_key value : bytes) (score : f64) (rank : Z) : Frame :=
  (OP_RESULT_ROW, row_payload display_key value score rank).

Definition display (key : bytes) : bytes :=
  match unscope_key key with Some k => from_utf8_lossy k | None => from_utf8_lossy key end.

(** ** Records

    Every record handler scopes its keys by namespace 0. *)
Definition put_prog (key value : bytes) : Prog (res bytes unit) := e_put (scope_key 0 key) value.

Definition handle_put (key value : bytes) : HM Response :=
  hmatch (write_prog (put_prog key value))
    (fun _ => result_end_response 1 0) (fun e => error_response xff (str "put failed: " ++ e)).

Definition get_response (key : bytes) (v : option bytes) : Response :=
  match v with
  | Some value => Single OP_RESULT_ROW (row_payload key value f64_zero 0)
  | None => error_response x40 (str "key not found: " ++ key)
  end.

Definition get_prog (key : bytes) : Prog (res bytes Response) :=
  pbind (e_get (scope_key 0 key)) (fun v => Ret (Ok (get_response key v))).

Definition handle_get (key : bytes) : HM Response := write_prog (get_prog key).

Definition delete_prog (key : bytes) : Prog (res bytes unit) := e_delete (scope_key 0 key).

Definition handle_delete (key : bytes) : HM Response :=
  hmatch (write_prog (delete_prog key))
    (fun _ => result_end_response 1 0) (fun e => error_response xff (str "delete failed: " ++ e)).

Definition scan_response (results : list (bytes * bytes)) (limit : Z) : Response :=
  let truncated := take (Z.to_nat limit) results in
  Stream (start_frame (as_u32 (length truncated)) ::
          imap (fun i kv => row_frame (display kv.1) kv.2 f64_zero (as_u32 i)) truncated ++
          [end_frame (as_u32 (length truncated))]).

Definition scan_prog (start end_ : bytes) (limit : Z) : Prog (res bytes Response) :=
  try_ (e_scan (scope_key 0 start) (scope_key 0 end_)) (fun results => Ret (Ok (scan_response results limit))).

Definition handle_scan (start end_ : bytes) (limit : Z) : HM Response := write_prog (scan_prog start end_ limit).

Definition put_batch_prog (records : list (bytes * bytes)) : Prog (res bytes unit) :=
  e_batch ((fun kv => (scope_key 0 kv.1, kv.2)) <$> records).

Definition handle_put_batch (records : list (bytes * bytes)) : HM Response :=
  hmatch (write_prog (put_batch_prog records))
    (fun _ => result_end_response (as_u32 (length records)) 0)
    (fun e => error_response xff (str "batch put failed: " ++ e)).

(** Deleting the keys found, stopping at the first error. *)
Definition range_delete_prog (start end_ : bytes) : Prog (res bytes nat) :=
  try_ (e_scan (scope_key 0 start) (scope_key 0 end_)) (fun results =>
  try_ (e_delete_all results.*1) (fun _ => Ret (Ok (length results)))).

Definition handle_range_delete (start end_ : bytes) : HM Response :=
  hmatch (write_prog (range_delete_prog start end_))
    (fun count => result_end_response (as_u32 count) 0)
    (fun e => error_response xff (str "range delete failed: " ++ e)).

(** The rows of a batch of reads from row [i] on, and how many values were not empty: a
    missing key and an empty value look the same. *)
Fixpoint get_rows (i : nat) (keys : list bytes) : Prog (list Frame * nat) :=
  match keys with
  | [] => Ret ([], 0%nat)
  | key :: keys' =>
      pbind (e_get (scope_key 0 key)) (fun v =>
      let value := default [] v in
      pbind (get_rows (S i) keys') (fun '(rows, found) =>
      Ret (row_frame key value f64_zero (as_u32 i) :: rows,
           match value with [] => found | _ => S found end)))
  end.

Definition get_batch_prog (keys : list bytes) : Prog (res bytes Response) :=
  pbind (get_rows 0 keys) (fun '(rows, found) =>
  Ret (Ok (Stream (start_frame (as_u32 (length keys)) :: rows ++ [end_frame (as_u32 found)])))).

Definition handle_get_batch (keys : list bytes) : HM Response := write_prog (get_batch_prog keys).

(** ** Queries *)

(** The rows of the hits: [show] makes the key that is displayed. *)
Fixpoint hit_rows (show : bytes -> bytes) (hits : list Planner.RankedHit) : Prog (list Frame) :=
  match hits with
  | [] => Ret []
  | hit :: hits' =>
      pbind (e_get (Planner.key hit)) (fun v =>
      pbind (hit_rows show hits') (fun rows =>
      Ret (row_frame (show (Planner.key hit)) (default [] v) (Planner.score hit) (as_u32 (Planner.rank hit)) :: rows)))
  end.

Definition hits_prog (show : bytes -> bytes) (hits : list Planner.RankedHit) : Prog Response :=
  pbind (hit_rows show hits) (fun rows =>
  Ret (Stream (start_frame (as_u32 (length hits)) :: rows ++ [end_frame (as_u32 (length hits))]))).

Definition build_query_response (hits : list Planner.RankedHit) : Prog Response := hits_prog display hits.

(** [eng.indices.query(&spec)], then the rows. *)
Definition query_engine (spec : Planner.QuerySpec) (rows : list Planner.RankedHit -> Prog Response) : HM Response :=
  write_engine (fun e =>
    match idx_query (indices e) spec with
    | Ok (hits, i) => let '(r, e') := run_prog crc ln iter bg (set_indices i e) (rows hits) in (Ok r, e')
    | _ => (Panic, e)
    end).

(** The namespace a query is restricted to: a number other than 0. *)
Definition query_namespace (namespace : bytes) : option Z :=
  match parse_usize namespace with
  | Some ns => if ns =? 0 then None else Some ns
  | None => None
  end.

Definition in_query_namespace (ns : Z) (hit : Planner.RankedHit) : bool :=
  (16 <=? length (Planner.key hit))%nat && bool_decide (slice (Planner.key hit) 8 16 = be_bytes 8 ns).

Definition query_hits (query_ns : option Z) (all_hits : list Planner.RankedHit) : list Planner.RankedHit :=
  match query_ns with
  | Some ns => filter (fun hit => in_query_namespace ns hit = true) all_hits
  | None => all_hits
  end.

Definition query_display (query_ns : option Z) (key : bytes) : bytes :=
  match query_ns with
  | Some _ => if (16 <=? length key)%nat then from_utf8_lossy (drop 16 key) else display key
  | None => display key
  end.

Definition handle_query (namespace : bytes) (spec : Planner.QuerySpec) : HM Response :=
  let query_ns := query_namespace namespace in
  query_engine spec (fun all_hits => hits_prog (query_display query_ns) (query_hits query_ns all_hits)).

Definition handle_query_fuzzy (query : bytes) (top_k : Z) : HM Response :=
  let d := Planner.default_spec in
  query_engine (Planner.mkSpec query (Planner.vector d) (Z.to_nat top_k) (Planner.max_depth d) (Planner.relations d)
    (Planner.lang_filter d) (Planner.type_filter d) (Planner.file_filter d) (Planner.merge_strategy d) (Planner.timeout_ms d))
    build_query_response.

Definition handle_query_vector (vector : list f32) (top_k : Z) : HM Response :=
  let d := Planner.default_spec in
  query_engine (Planner.mkSpec (Planner.text d) vector (Z.to_nat top_k) (Planner.max_depth d) (Planner.relations d)
    (Planner.lang_filter d) (Planner.type_filter d) (Planner.file_filter d) (Planner.merge_strategy d) (Planner.timeout_ms d))
    build_query_response.

Definition handle_query_graph (start_key : bytes) (relations : list bytes) (top_k max_depth : Z) : HM Response :=
  let d := Planner.default_spec in
  query_engine (Planner.mkSpec start_key (Planner.vector d) (Z.to_nat top_k) (Z.to_nat max_depth) relations
    (Planner.lang_filter d) (Planner.type_filter d) (Planner.file_filter d) (Planner.merge_strategy d) (Planner.timeout_ms d))
    build_query_response.

Definition handle_query_keyword (namespace query : bytes) (top_k : Z) : HM Response :=
  handle_query namespace (Planner.mkSpec query [] (Z.to_nat top_k) 0 [] [] [] [] 1 5000).

(** ** Statistics and compaction *)
Definition named_u32 (name : bytes) (n : nat) : list Field := [string_field name; u32_field (as_u32 n)].
Definition named_u64 (name : bytes) (n : Z) : list Field := [string_field name; u64_field n].

Definition handle_stats : HM Response := read_engine (fun e =>
  Ok (Single OP_RESULT_END (enc (
    named_u32 (str "memtable_len") (Memtable.len (memtable e)) ++
    [string_field (str "memtable_bytes"); u32_field (u32 (Memtable.size_bytes (memtable e)))] ++
    named_u64 (str "flush_count") (flush_count e) ++
    named_u64 (str "compaction_count") (Compaction.compaction_count (compaction (compactor e))) ++
    named_u64 (str "total_puts") (total_puts e) ++
    named_u64 (str "total_gets") (total_gets e) ++
    named_u64 (str "total_deletes") (total_deletes e))))).

Definition handle_compact : HM Response :=
  hmatch (write_prog e_flush)
    (fun _ => result_end_response 0 0) (fun e => error_response xff (str "compact failed: " ++ e)).

(** ** Transactions *)

(** [begin_tx]: the trie is taken under the shared guard, which is held while the manager
    registers the session. *)
Definition begin_tx (isolation : byte) : HM Z :=
  hbind (read_engine (fun e => Ok (Hamt.snapshot (state e)))) (fun snapshot =>
  lock_tx (fun mgr => let '(id, mgr') := Session.begin mgr (Session.from_byte isolation) snapshot in (Ok id, mgr'))).

(** [commit_tx] is three critical sections: the session is taken out of the manager, a
    serializable one is checked, and its writes are applied. *)
Definition take_session (tx_id : Z) : HM Session.TxSession := lock_tx (fun mgr =>
  let '(session, mgr') := Session.remove mgr tx_id in
  (ok_or session (str "transaction not found: " ++ dec tx_id), mgr')).

Fixpoint check_reads (live snapshot : Hamt) (read_set : list bytes) : res bytes unit :=
  match read_set with
  | [] => Ok tt
  | key :: rest =>
      match Hamt.get live key, Hamt.get snapshot key with
      | Ok live_val, Ok snap_val =>
          if bool_decide (live_val = snap_val) then check_reads live snapshot rest
          else Err (str "serialization conflict on key=" ++ from_utf8_lossy key)
      | _, _ => Panic
      end
  end.

Definition check_session (session : Session.TxSession) : HM unit :=
  if decide (Session.isolation session = Session.Serializable)
  then read_engine (fun e => check_reads (state e) (Session.snapshot session) (Session.read_set session))
  else hret tt.

Definition map_err {A : Type} (f : bytes -> bytes) (r : res bytes A) : res bytes A :=
  match r with Err e => Err (f e) | _ => r end.

Definition tx_op (o : Session.TxOp) : Prog (res bytes unit) :=
  match o with
  | Session.Put key value =>
      pbind (e_put key value) (fun r => Ret (map_err (fun e => str "tx commit put failed: " ++ e) r))
  | Session.Delete key =>
      pbind (e_delete key) (fun r => Ret (map_err (fun e => str "tx commit delete failed: " ++ e) r))
  end.

Fixpoint tx_ops (ops : list Session.TxOp) : Prog (res bytes unit) :=
  match ops with
  | [] => Ret (Ok tt)
  | o :: ops' => try_ (tx_op o) (fun _ => tx_ops ops')
  end.

Definition apply_session (session : Session.TxSession) : HM nat :=
  let count := length (Session.write_buffer session) in
  hbind (write_prog (tx_ops (Session.write_buffer session))) (fun _ => hret count).

Definition commit_tx (tx_id : Z) : HM nat :=
  hbind (take_session tx_id) (fun session =>
  hbind (check_session session) (fun _ =>
  apply_session session)).

Definition rollback_tx (tx_id : Z) : HM bool := lock_tx (fun mgr =>
  let '(session, mgr') := Session.remove mgr tx_id in (Ok (bool_decide (is_Some session)), mgr')).

(** A session reads through itself; without one the engine is read. *)
Definition tx_get (tx_id : Z) (key : bytes) : HM (option bytes) :=
  let scoped := scope_key 0 key in
  hbind (lock_tx (fun mgr =>
    match Session.lookup_session mgr tx_id with
    | Some session =>
        let '(r, session') := Session.get session scoped in
        (match r with Ok v => Ok (Some v) | _ => Panic end, Session.set_session mgr tx_id session')
    | None => (Ok None, mgr)
    end)) (fun found =>
  match found with
  | Some v => hret v
  | None => write_prog (pbind (e_get scoped) (fun v => Ret (Ok v)))
  end).

(** A buffered write; without a session it is dropped. *)
Definition tx_write (tx_id : Z) (f : Session.TxSession -> Session.TxSession) : HM bool := lock_tx (fun mgr =>
  match Session.lookup_session mgr tx_id with
  | Some session => (Ok true, Session.set_session mgr tx_id (f session))
  | None => (Ok false, mgr)
  end).

Definition tx_put (tx_id : Z) (key value : bytes) : HM bool :=
  tx_write tx_id (fun session => Session.put session (scope_key 0 key) value).
Definition tx_delete (tx_id : Z) (key : bytes) : HM bool :=
  tx_write tx_id (fun session => Session.delete session (scope_key 0 key)).

Definition end_response (fields : list Field) : Response := Single OP_RESULT_END (enc fields).

Definition handle_tx_begin (isolation : byte) : HM Response :=
  hbind (begin_tx isolation) (fun tx_id => hret (end_response [u64_field tx_id])).

Definition handle_tx_commit (tx_id : Z) : HM Response :=
  hmatch (commit_tx tx_id) (fun count => result_end_response (as_u32 count) 0) (fun e => error_response x61 e).

Definition handle_tx_rollback (tx_id : Z) : HM Response :=
  hbind (rollback_tx tx_id) (fun ok =>
  hret (if ok then result_end_response 0 0 else error_response x60 (str "transaction not found: " ++ dec tx_id))).

Definition handle_tx_status (tx_id : Z) : HM Response := lock_tx (fun mgr =>
  (Ok (end_response [u64_field tx_id; string_field (if Session.exists_tx mgr tx_id then str "active" else str "unknown")]), mgr)).

(** ** Snapshots and branches *)
Definition handle_snap_create (description : bytes) : HM Response :=
  hbind (write_em (snapshot_create description)) (fun id => hret (end_response [string_field id])).

Definition handle_snap_restore (snapshot_id : bytes) : HM Response :=
  hmatch (write_em (snapshot_restore snapshot_id)) (fun _ => result_end_response 1 0) (fun e => error_response x82 e).

Definition handle_snap_delete (snapshot_id : bytes) : HM Response :=
  hbind (write_em (snapshot_delete snapshot_id)) (fun ok =>
  hret (if ok then result_end_response 1 0 else error_response x82 (str "snapshot not found: " ++ snapshot_id))).

Definition names_response (names : list bytes) : Response :=
  Stream (start_frame (as_u32 (length names)) ::
          imap (fun i name => (OP_RESULT_ROW, enc [string_field name; u32_field (as_u32 i)])) names ++
          [end_frame (as_u32 (length names))]).

Definition handle_snap_list : HM Response := read_engine (fun e => Ok (names_response (snapshot_list e))).

Definition handle_branch_create (branch_id from_snapshot : bytes) : HM Response :=
  hmatch (write_em (branch_create branch_id from_snapshot))
    (fun id => end_response [string_field id]) (fun e => error_response x80 e).

Definition handle_branch_merge (branch_id : bytes) : HM Response :=
  hmatch (write_em (branch_merge crc branch_id))
    (fun count => result_end_response (as_u32 count) 0) (fun e => error_response x81 e).

Definition handle_branch_rollback (branch_id : bytes) : HM Response :=
  hbind (write_em (branch_rollback branch_id)) (fun ok =>
  hret (if ok then result_end_response 1 0 else error_response x80 (str "branch not found: " ++ branch_id))).

Definition diff_row (i : nat) (d : bytes * option bytes * option bytes) : Frame :=
  let '(key, live_val, branch_val) := d in
  (OP_RESULT_ROW, enc [string_field (from_utf8_lossy key); bytes_field (default [] live_val);
                       bytes_field (default [] branch_val); u32_field (as_u32 i)]).

(** The branch is compared with the live state; the message's second branch is not looked at. *)
Definition handle_branch_diff (branch_a branch_b : bytes) : HM Response :=
  hmatch (read_engine (fun e => branch_diff e branch_a))
    (fun diffs => Stream (start_frame (as_u32 (length diffs)) :: imap diff_row diffs ++ [end_frame (as_u32 (length diffs))]))
    (fun e => error_response x80 e).

Definition handle_branch_list : HM Response := read_engine (fun e => Ok (names_response (snapshot_list e))).

(** ** Namespaces

    Their metadata is stored under keys that are not scoped. *)
Definition ns_meta_key (repo_url : bytes) : bytes := str "__ns__::" ++ repo_url.

Definition handle_ns_create (repo_url commit_sha description : bytes) : HM Response :=
  hmatch (write_prog (e_put (ns_meta_key repo_url) (commit_sha ++ str "|" ++ description)))
    (fun _ => result_end_response 1 0) (fun e => error_response xff (str "ns create failed: " ++ e)).

Definition ns_list_response (results : list (bytes * bytes)) : Response :=
  Stream (start_frame (as_u32 (length results)) ::
          imap (fun i kv => (OP_RESULT_ROW, enc [string_field (from_utf8_lossy kv.1); bytes_field kv.2; u32_field (as_u32 i)])) results ++
          [end_frame (as_u32 (length results))]).

Definition ns_list_prog : Prog (res bytes Response) :=
  try_ (e_scan (str "__ns__::") (str "__ns__::" ++ [xff])) (fun results => Ret (Ok (ns_list_response results))).

Definition handle_ns_list : HM Response := write_prog ns_list_prog.

Definition handle_ns_stat : HM Response := read_engine (fun e =>
  let idx := idx_stats (indices e) in
  Ok (end_response (
    named_u32 (str "memtable_len") (Memtable.len (memtable e)) ++
    named_u32 (str "bm25_docs") (Manager.bm25_docs idx) ++
    named_u32 (str "fuzzy_symbols") (Manager.fuzzy_symbols idx) ++
    named_u32 (str "hnsw_vectors") (Manager.hnsw_vectors idx) ++
    named_u32 (str "graph_nodes") (Manager.graph_nodes idx) ++
    named_u32 (str "graph_edges") (Manager.graph_edges idx)))).

Definition handle_ns_open (namespace_id : Z) : HM Response := hret (end_response [u64_field namespace_id]).

(** Deleting keys in order; an error is ignored, a panic is not. *)
Fixpoint delete_each (keys : list bytes) : Prog (res bytes unit) :=
  match keys with
  | [] => Ret (Ok tt)
  | key :: keys' => pbind (e_delete key) (fun r => if is_panic r then Ret Panic else delete_each keys')
  end.

Definition ns_delete_prog (namespace_id : Z) : Prog (res bytes Response) :=
  let '(start, end_) := ns_scan_range namespace_id in
  try_ (e_scan start end_) (fun results =>
  try_ (delete_each results.*1) (fun _ => Ret (Ok (result_end_response (as_u32 (length results)) 0)))).

Definition handle_ns_delete (namespace_id : Z) : HM Response := write_prog (ns_delete_prog namespace_id).

(** ** Handlers that only acknowledge *)
Definition handle_ns_grant : HM Response := hret (result_end_response 1 0).
Definition handle_workspace_set : HM Response := hret (result_end_response 1 0).
Definition handle_intent : HM Response := hret NoResponse.
Definition handle_window_update : HM Response := hret NoResponse.

(** ** Watches *)
Definition handle_watch (watch_id : Z) (entry : WatchEntry) : HM Response := lock_watches (fun ws =>
  (Ok (result_end_response 1 0), <[watch_id := entry]> ws)).

Definition watch_not_found (watch_id : Z) : Response := error_response x50 (str "watch not found: " ++ dec watch_id).

Definition handle_unwatch (watch_id : Z) : HM Response := lock_watches (fun ws =>
  (Ok (if bool_decide (is_Some (ws !! watch_id)) then result_end_response 1 0 else watch_not_found watch_id),
   base.delete watch_id ws)).

(** [u32::saturating_add] *)
Definition saturating_add_u32 (a b : Z) : Z := Z.min (2 ^ 32 - 1) (a + b).

Definition add_credit (c : Z) (w : WatchEntry) : WatchEntry :=
  mkWatch (namespace_id w) (scope w) (pattern w) (saturating_add_u32 (credit w) c).

Definition handle_watch_window (watch_id credit : Z) : HM Response := lock_watches (fun ws =>
  match ws !! watch_id with
  | Some entry => (Ok NoResponse, <[watch_id := add_credit credit entry]> ws)
  | None => (Ok (watch_not_found watch_id), ws)
  end).

(** ** Token rotation, resumption, configuration *)
Definition le_bytes (n : nat) (z : Z) : bytes := rev (be_bytes n z).

(** [ts] is the clock's reading in nanoseconds, as a [u64]. *)
Definition handle_auth_rotate_request (ts : Z) : HM Response :=
  hret (Single OP_AUTH_ROTATE_CHALLENGE (enc [bytes_field (le_bytes 8 ts ++ le_bytes 8 (u64 (ts + 1)))])).

Definition handle_auth_rotate : HM Response := hret (Single OP_AUTH_ROTATE_ACK (enc [u8_field x00])).

Definition handle_stream_resume (token : bytes) : HM Response :=
  if negb (length token =? 64)%nat then hret (error_response x20 (str "invalid checkpoint token length"))
  else
    let resumed_at := if (36 <=? length token)%nat then be_val (slice token 32 36) else 0 in
    hret (end_response [u32_field resumed_at]).

Definition CARGO_PKG_VERSION : bytes := str "0.1.0".

Definition handle_config_get (key : bytes) : HM Response :=
  let answer value := hret (end_response [string_field key; string_field value]) in
  if bool_decide (key = str "max_connections") then answer (str "1024")
  else if bool_decide (key = str "flush_threshold") then answer (str "4194304")
  else if bool_decide (key = str "version") then answer CARGO_PKG_VERSION
  else hret (error_response x90 (str "unknown config key: " ++ key)).

Definition handle_config_set : HM Response := hret (error_response x91 (str "configuration is read-only")).

(** ** Backups *)

(** The files of the data directory as they are on disk: bytes still buffered by the log
    writer are not among them. *)
Definition on_disk (dir : DataDir) (e : Engine (I := I)) : DataDir :=
  {| wal_file := Some (file (wal e)); pages_dir := default ∅ (disk (compactor e));
     hnsw_file := hnsw_file dir; graph_file := graph_file dir |}.

(** [copy_dir_contents]: every file of the source is written over the destination's, which
    keeps its other files; the number of files copied. *)
Definition copy_dir_contents (src dst : DataDir) : nat * DataDir :=
  let over (a b : option bytes) := match a with Some _ => a | None => b end in
  let one (a : option bytes) : nat := match a with Some _ => 1%nat | None => 0%nat end in
  ((one (wal_file src) + size (pages_dir src) + one (hnsw_file src) + one (graph_file src))%nat,
   {| wal_file := over (wal_file src) (wal_file dst); pages_dir := pages_dir src ∪ pages_dir dst;
      hnsw_file := over (hnsw_file src) (hnsw_file dst); graph_file := over (graph_file src) (graph_file dst) |}).

(** [dir] is the data directory, [dst] what the destination holds; [mkdir] and [copy] are
    the failures of the file system calls, with what a failed copy leaves. The result carries
    what the destination holds afterwards. *)
Definition handle_backup (dir dst : DataDir) (mkdir : option bytes) (copy : option (bytes * DataDir)) (destination : bytes)
    : HM (Response * DataDir) := write_engine (fun e =>
  match flush ln e with
  | (Ok _, e1) =>
      let e2 := bg e1 in
      (Ok match mkdir, copy with
          | Some x, _ => (error_response xff (str "create backup dir failed: " ++ x), dst)
          | None, Some (x, partial) => (error_response xff (str "backup failed: " ++ x), partial)
          | None, None =>
              let '(count, dst') := copy_dir_contents (on_disk dir e2) dst in
              (end_response [string_field destination; u32_field (as_u32 count)], dst')
          end, e2)
  | (Err x, e1) => (Ok (error_response xff (str "flush before backup failed: " ++ x), dst), bg e1)
  | (Panic, e1) => (Panic, e1)
  end).

Definition handle_restore_backup : HM Response := hret (error_response x92
  (str "restore requires server restart: stop server, replace data dir with backup, restart")).
End server.
