(* ===== verification/ServerEdges.v ===== *)
(** * The server at its edges

    Commits interleaved with other clients, commits that fail half way, what a backup misses,
    and the namespace requests, which act on other keys than the records of clients. *)

From S2P Require Import Prelude Ordered Text Float Fnv Namespace Bloom Memtable Wal Page PageStore Compaction BgCompaction Cache Hamt IndexApi QueryApi Engine EngineSpec Prog Recovery Server ServerSpec.
From S2P Require Session.
#[local] Existing Instance Session.TxIsolation_eq_dec.
#[local] Existing Instance ex_ump.
Local Open Scope Z_scope.

(** ** Namespaces *)
Section namespaces.
Context `{Hump : Ump}.

Lemma run_delete_each ks : forall m, run_map m (delete_each ks) = (Ok tt, deletes m ks).
Proof. induction ks as [|k ks IH]; intros m; [done|apply IH]. Qed.

(** The keys that deleting a namespace deletes: those of its scan range. *)
Definition ns_deletes (n : Z) (k : bytes) : Prop := exists b rest, k = scope_key n (b :: rest) /\ b <> xff.

Lemma ns_range_exact n k : is_u64 n -> bytes_le (ns_scan_range n).1 k /\ bytes_lt k (ns_scan_range n).2 <-> ns_deletes n k.
Proof.
  intros Hn. unfold ns_deletes. split.
  - intros [Hle Hlt]. destruct (range_in_prefix _ _ _ _ Hle Hlt) as [k' ->].
    destruct (proj1 (ns_range_iff n n k' Hn Hn) (conj Hle Hlt)) as (_ & b & rest & -> & Hb). by exists b, rest.
  - intros (b & rest & -> & Hb). apply (ns_range_iff n n (b :: rest) Hn Hn). split; [done|]. by exists b, rest.
Qed.

Lemma deletes_size ks : forall m : gmap bytes bytes, NoDup ks -> (forall k, k ∈ ks -> is_Some (m !! k)) ->
  size m = (size (deletes m ks) + length ks)%nat.
Proof.
  induction ks as [|k ks IH]; intros m Hnd Hin; [cbn; lia|]. apply NoDup_cons in Hnd as [Hk Hnd]. cbn [foldl length].
  destruct (Hin k) as [x Hx]; [left|]. pose proof (map_size_delete_Some k m (mk_is_Some _ _ Hx)) as Hs.
  assert (size m <> 0)%nat by (intros H0%map_size_empty_inv; by rewrite H0, lookup_empty in Hx).
  rewrite (IH (base.delete k m) Hnd) in Hs; [lia|]. intros y Hy. rewrite lookup_delete_ne by (by intros ->). apply Hin. by right.
Qed.

(** Deleting a namespace deletes every stored key of its scan range and no other, and
    reports how many there were; in particular the records of clients, which are all stored
    under namespace 0, stay when another namespace is deleted. *)
Theorem ns_delete_exact v n : is_u64 n -> exists v' count,
  run_map v (ns_delete_prog n) = (Ok (result_end_response (as_u32 count) 0), v') /\
  (forall k, ns_deletes n k -> v' !! k = None) /\ (forall k, ~ ns_deletes n k -> v' !! k = v !! k) /\
  (size v = size v' + count)%nat /\ forall m, n <> 0 -> serves v m -> serves v' m.
Proof.
  intros Hn. pose proof (ns_range_exact n) as Hr. unfold ns_delete_prog. destruct (ns_scan_range n) as [start end_] eqn:E. cbn [fst snd] in Hr.
  assert (map_scan v start end_ = Ok (in_range start end_ v)) as Hscan.
  { unfold map_scan. replace (bytes_ltb end_ start) with false; [done|]. symmetry. unfold bytes_ltb.
    assert (start = scope_key n [x00]) as -> by (by apply (f_equal fst) in E).
    assert (end_ = scope_key n [xff]) as -> by (by apply (f_equal snd) in E). by rewrite scope_key_cmp, Z.compare_refl. }
  unfold try_. rewrite run_map_bind. cbn [e_scan run_map spec_eop]. rewrite Hscan. cbn [fmap res_fmap].
  rewrite run_map_bind, run_delete_each. cbn [run_map]. set (l := in_range start end_ v).
  assert (forall k, k ∈ l.*1 <-> is_Some (v !! k) /\ ns_deletes n k) as Hl.
  { intros k. rewrite list_elem_of_fmap, <- (Hr k Hn). split.
    - intros ([k' x] & -> & Hin). apply list_elem_of_filter in Hin as [Hk Hin]. apply elem_of_bt_entries in Hin. by split; [exists x|].
    - intros [[x Hx] Hk]. exists (k, x). split; [done|]. apply list_elem_of_filter. by rewrite elem_of_bt_entries. }
  assert (forall k, ~ ns_deletes n k -> deletes v l.*1 !! k = v !! k) as Hkeep.
  { intros k Hk. rewrite deletes_lookup, decide_False; [done|]. by intros [_ ?]%Hl. }
  exists (deletes v l.*1), (length l). split_and!; [done| |done| |].
  - intros k Hk. rewrite deletes_lookup. case_decide as Hd; [done|]. apply eq_None_not_Some. intros Hs. by apply Hd, Hl.
  - rewrite (deletes_size l.*1 v), length_fmap; [done| |by intros k [? _]%Hl].
    apply keys_sorted_nodup, keys_sorted_filter, bt_entries_sorted.
  - intros m Hne Hs k. rewrite Hkeep; [apply Hs|]. intros (b & rest & Ek & _).
    apply (f_equal namespace_id_of) in Ek. rewrite !namespace_id_of_scope_key in Ek by done. by injection Ek as <-.
Qed.

(** The metadata of namespaces is stored beside the records of clients, not among them. *)
Lemma ns_create_keeps v m url val : serves v m -> serves (<[ns_meta_key url := val]> v) m.
Proof. intros Hs k. rewrite lookup_insert_ne; [apply Hs|]. intros E. apply (f_equal head) in E. by vm_compute in E. Qed.

(** The two spellings of a repository at a commit are two namespaces. *)
Lemma resolve_ns_spellings : resolve_ns (str "repo@sha") <> resolve_ns (str "repo::sha").
Proof. vm_compute. discriminate. Qed.
End namespaces.

Lemma ns_delete_exact_witness : exists v' count,
  run_map (<[scope_key 7 (str "a") := str "1"]> (<[scope_key 0 (str "b") := str "2"]> ∅)) (ns_delete_prog 7) =
    (Ok (result_end_response (as_u32 count) 0), v') /\ v' !! scope_key 7 (str "a") = None /\ v' !! scope_key 0 (str "b") = Some (str "2").
Proof.
  destruct (ns_delete_exact (<[scope_key 7 (str "a") := str "1"]> (<[scope_key 0 (str "b") := str "2"]> ∅)) 7 ltac:(done))
    as (v' & count & E & Hd & Hk & _).
  exists v', count. split; [exact E|]. split.
  - apply Hd. exists x61, []. split; [vm_compute; reflexivity|discriminate].
  - rewrite Hk; [vm_compute; reflexivity|]. intros (b & rest & H & _). apply (f_equal namespace_id_of) in H. vm_compute in H. discriminate H.
Defined.

(** ** Commits and other clients *)

(** The commit of session 1, with another client's request between its check and its writes. *)
Definition raced_commit (other : HM (I := unit) Response) : HM (I := unit) nat :=
  hbind (take_session 1) (fun ss => hbind (check_session ss) (fun _ => hbind other (fun _ =>
  apply_session crc32 ln_sample map_to_list ex_bg ss))).

Definition live_value (s : UmpHandler (I := unit)) (key : bytes) : option bytes :=
  Hamt.view (state (guarded (engine s))) !! scope_key 0 key.

(** A write to a key the session has read is a conflict before the commit and is not noticed between
    the check and the writes: the check and the writes are two critical sections. *)
Lemma commit_check_race :
  (hbind (ex_handle (RPut (str "a") (str "9"))) (fun _ => commit_tx crc32 ln_sample map_to_list ex_bg 1) ex_in_tx).1 =
    Err (str "serialization conflict on key=" ++ scope_key 0 (str "a")) /\
  (raced_commit (ex_handle (RPut (str "a") (str "9"))) ex_in_tx).1 = Ok 1%nat /\
  live_value (raced_commit (ex_handle (RPut (str "a") (str "9"))) ex_in_tx).2 (str "a") = Some (str "9") /\
  live_value (raced_commit (ex_handle (RPut (str "a") (str "9"))) ex_in_tx).2 (str "b") = Some (str "2").
Proof. split_and!; vm_compute; reflexivity. Qed.

(** The log fails on the second of a session's two writes: the first one stays, and the session is gone. *)
Definition failing_log (s : UmpHandler (I := unit)) : UmpHandler (I := unit) :=
  let e := guarded (engine s) in
  mkHandler (mkLock (set_wal (mkWriter (file (wal e)) (buf (wal e)) (bytes_written (wal e)) (records_written (wal e)) [None; Some 0%nat]) e) false)
    (tx_mgr s) (watches s).

Definition ex_two_writes : UmpHandler (I := unit) := failing_log (tx_put 1 (str "c") (str "3") ex_in_tx).2.

Lemma commit_stops_half_way :
  let '(r, s) := commit_tx crc32 ln_sample map_to_list ex_bg 1 ex_two_writes in
  r = Err (str "tx commit put failed: io error") /\ live_value s (str "b") = Some (str "2") /\ live_value s (str "c") = None /\
  Session.lookup_session (guarded (tx_mgr s)) 1 = None.
Proof. vm_compute. done. Qed.

(** ** Backups *)

(** A destination keeps the page files of an earlier backup, which a database opened on it loads. *)
Lemma copy_keeps_others src dst name data : pages_dir src !! name = None -> pages_dir dst !! name = Some data ->
  pages_dir (copy_dir_contents src dst).2 !! name = Some data.
Proof. intros Hs Hd. cbn. by rewrite lookup_union_r. Qed.

(** A merge is answered and read, but its records wait in the log's buffer, which a backup does
    not copy: the restored database has the value from before the merge. *)
Definition ex_merged : UmpHandler (I := unit) :=
  (hbind (ex_handle (RPut (str "a") (str "1"))) (fun _ =>
   hbind (handle_branch_create ex_bg (str "dev") []) (fun _ =>
   hbind (ex_handle (RPut (str "a") (str "2"))) (fun _ => handle_branch_merge crc32 ex_bg (str "dev")))) (ex_server sample_engine)).2.

Definition ex_merged_backup : DataDir :=
  match (handle_backup ln_sample (fun e => e) empty_dir empty_dir None None (str "/backup") ex_merged).1 with
  | Ok (_, dst) => dst
  | _ => empty_dir
  end.

Lemma backup_misses_merge : live_value ex_merged (str "a") = Some (str "1") /\
  match open_sample 1000 ex_merged_backup with
  | Ok e => (Engine.get map_to_list e (scope_key 0 (str "a"))).1 = Some (str "2")
  | _ => False
  end.
Proof. split; vm_compute; reflexivity. Qed.

(** ** Empty values *)

(** A batch of reads counts a record with an empty value as missing, and answers a missing key with a row. *)
Lemma batch_counts_empty : batch_answer {[str "a" := []]} [str "a"; str "b"] =
  Stream [start_frame 2; row_frame (str "a") [] f64_zero 0; row_frame (str "b") [] f64_zero 1; end_frame 0].
Proof. vm_compute. reflexivity. Qed.
