(* ===== verification/Python.v ===== *)
(** * The Python classes of [src/python.rs]

    One definition per method of the classes [Document], [ContextEngine], [Workspace], [Client],
    [Agent] and [DB]. The objects of one database share the engine behind a reader-writer
    lock, which is threaded through the methods; what an object keeps for itself is a
    record. PyO3's conversions of arguments and results are outside the model:
    a dictionary is the list of its entries in the order of its walk, an exception is its text. *)

From S2P Require Import Prelude Ordered Text Float Fnv Bloom Memtable Wal Page PageStore Compaction BgCompaction Cache Hamt IndexApi QueryApi Engine EngineSpec Prog Server.
From S2P Require Planner Manager Fuzzy Hnsw.
Local Open Scope Z_scope.

(** ** Documents *)
Record Document := mkDocument { id : bytes; content_bytes : bytes; meta : gmap bytes bytes; score : f64 }.

Definition Document_content (d : Document) : bytes := utf8_or_empty (content_bytes d).
Definition Document_raw (d : Document) : bytes := content_bytes d.
Definition Document_metadata (d : Document) : gmap bytes bytes := meta d.
Definition Document_vector (d : Document) : option (list f32) := None.
Definition Document_str (d : Document) : bytes := Document_content d.
Definition Document_len (d : Document) : nat := length (content_bytes d).
Definition Document_bool (d : Document) : bool := negb (bool_decide (content_bytes d = [])).

(** A record that was read, and one that was found in a scan, whose key need not be text. *)
Definition record_doc (path value : bytes) : Document := mkDocument path value ∅ f64_zero.
Definition scan_doc (kv : bytes * bytes) : Document := record_doc (from_utf8_lossy kv.1) kv.2.

(** ** Objects *)
Record Workspace := mkWorkspace { branch_name : bytes; is_branch : bool }.
(** [is_open]: the field [engine] is [Some]. *)
Record Client := mkClient { client_open : bool; data_path : bytes }.
Record Agent := mkAgent { name : bytes; finished : bool }.
Record DB := mkDB { db_open : bool }.

(** ** Programs the methods share *)
Definition err_prog {A : Type} (f : bytes -> bytes) (p : Prog (res bytes A)) : Prog (res bytes A) :=
  pbind p (fun r => Ret (map_err f r)).

Definition get_prog (path : bytes) : Prog (res bytes (option Document)) :=
  pbind (e_get path) (fun v => Ret (Ok (record_doc path <$> v))).
Definition contains_prog (path : bytes) : Prog (res bytes bool) :=
  pbind (e_get path) (fun v => Ret (Ok (bool_decide (is_Some v)))).

(** The keys from the prefix up to the prefix followed by the byte 0xFF. *)
Definition prefix_prog {A : Type} (f : bytes * bytes -> A) (prefix : bytes) (limit : nat) : Prog (res bytes (list A)) :=
  try_ (e_scan prefix (prefix ++ [xff])) (fun results => Ret (Ok (f <$> take limit results))).

Definition delete_range_prog (start end_ : bytes) : Prog (res bytes nat) :=
  try_ (e_scan start end_) (fun l => try_ (e_delete_all l.*1) (fun _ => Ret (Ok (length l)))).

(** The documents of results that hold a key, with the values the engine has for them. *)
Fixpoint result_docs {R : Type} (key doc_id : R -> bytes) (sc : R -> f64) (results : list R) : Prog (list Document) :=
  match results with
  | [] => Ret []
  | r :: rs =>
      pbind (e_get (key r)) (fun v =>
      pbind (result_docs key doc_id sc rs) (fun docs =>
      Ret (mkDocument (doc_id r) (default [] v) ∅ (sc r) :: docs)))
  end.

Definition hit_docs : list Planner.RankedHit -> Prog (list Document) :=
  result_docs Planner.key (fun h => from_utf8_lossy (Planner.key h)) Planner.score.
Definition fuzzy_docs : list Fuzzy.FuzzyMatch -> Prog (list Document) :=
  result_docs Fuzzy.symbol Fuzzy.symbol Fuzzy.jaccard.
Definition vector_docs : list Hnsw.SearchResult -> Prog (list Document) :=
  result_docs Hnsw.res_key (fun r => from_utf8_lossy (Hnsw.res_key r))
    (fun r => f64_sub (f64_lit 1 1) (f64_of_f32 (Hnsw.distance r))).

(** [QuerySpec { text, top_k: limit, ..Default::default() }], and the one of a traversal. *)
Definition text_spec (text : bytes) (limit : nat) : Planner.QuerySpec :=
  let d := Planner.default_spec in
  Planner.mkSpec text (Planner.vector d) limit (Planner.max_depth d) (Planner.relations d)
    (Planner.lang_filter d) (Planner.type_filter d) (Planner.file_filter d) (Planner.merge_strategy d) (Planner.timeout_ms d).
Definition graph_spec (start relation : bytes) (depth limit : nat) : Planner.QuerySpec :=
  let d := Planner.default_spec in
  Planner.mkSpec start (Planner.vector d) limit depth [relation]
    (Planner.lang_filter d) (Planner.type_filter d) (Planner.file_filter d) (Planner.merge_strategy d) (Planner.timeout_ms d).

Definition poisoned_msg : bytes := str "lock poisoned".
Definition lock_msg : bytes := str "lock".
Definition closed_msg : bytes := str "database is closed".

Section python.
Context (crc : bytes -> Z) (deflate : bytes -> bytes) (inflate : bytes -> option bytes).
Context (read_dir : fs -> list bytes) (ln : f64 -> f64).
Context (iter : gmap bytes CacheEntry -> list (bytes * CacheEntry)).
Context {I : Type} `{Hops : IndexOps I} `{Hquery : IndexQuery I} `{Hfields : IndexFields I}.
(** What the worker thread does after an operation of the engine. *)
Context (bg : Engine (I := I) -> Engine (I := I)).

Abbreviation Shared := (Lock (Engine (I := I))).

(** ** The lock *)
Definition PM (A : Type) : Type := Shared -> res bytes A * Shared.

(** [engine.write().map_err(..)?]: a poisoned lock is an exception, and a panic poisons it. *)
Definition write {A : Type} (msg : bytes) (f : Engine -> res bytes A * Engine) : PM A := fun l =>
  if poisoned l then (Err msg, l)
  else let '(r, e) := f (guarded l) in (r, mkLock e (is_panic r)).

(** [engine.read().map_err(..)?]: reads count and fill the cache under the shared guard. *)
Definition read {A : Type} (msg : bytes) (f : Engine -> res bytes A * Engine) : PM A := fun l =>
  if poisoned l then (Err msg, l)
  else let '(r, e) := f (guarded l) in (r, mkLock e false).

Definition run {A : Type} (p : Prog (res bytes A)) : Engine -> res bytes A * Engine := fun e => run_prog crc ln iter bg e p.
Definition run_docs (p : Prog (list Document)) : Engine -> res bytes (list Document) * Engine := fun e =>
  let '(docs, e') := run_prog crc ln iter bg e p in (Ok docs, e').
Definition run_em {A : Type} (f : bytes -> bytes) (m : EM A) : Engine -> res bytes A * Engine := fun e =>
  let '(r, e') := m e in (map_err f r, bg e').
Definition look {A : Type} (f : Engine (I := I) -> A) : Engine -> res bytes A * Engine := fun e => (Ok (f e), e).

(** ** Searches *)
Definition query_docs (spec : Planner.QuerySpec) : Engine -> res bytes (list Document) * Engine := fun e =>
  match idx_query (indices e) spec with
  | Ok (hits, i) => run_docs (hit_docs hits) (set_indices i e)
  | _ => (Panic, e)
  end.

Definition query_fuzzy (symbol : bytes) (limit : nat) : Engine -> res bytes (list Document) * Engine := fun e =>
  match idx_fuzzy (indices e) symbol limit with
  | Ok results => run_docs (fuzzy_docs results) e
  | _ => (Panic, e)
  end.

Definition query_vector (embedding : list f32) (limit : nat) : Engine -> res bytes (list Document) * Engine := fun e =>
  match idx_vector (indices e) with
  | Some search => match search embedding limit with
                   | Ok results => run_docs (vector_docs results) e
                   | _ => (Panic, e)
                   end
  | None => (Ok [], e)
  end.

Definition add_edge (src dst relation : bytes) : EM (I := I) unit := fun e =>
  match idx_on_add_edge (indices e) src dst relation with
  | Ok i => (Ok tt, set_indices i e)
  | _ => (Panic, e)
  end.

Definition put_vector (key : bytes) (vector : list f32) : EM (I := I) unit := fun e =>
  match idx_on_put_vector (indices e) key vector with
  | Ok i => (Ok tt, set_indices i e)
  | _ => (Panic, e)
  end.

Fixpoint add_edges (key : bytes) (edges : list (bytes * bytes)) : EM (I := I) unit :=
  match edges with
  | [] => ret tt
  | (dst, rel) :: edges' => bind (add_edge key dst rel) (fun _ => add_edges key edges')
  end.

(** [index]: the record, then its vector, then its edges, under one guard. *)
Definition index_document (key content : bytes) (vector : option (list f32)) (edges : option (list (bytes * bytes)))
    : EM (I := I) unit :=
  bind (fun e => run (e_put key content) e) (fun _ =>
  bind (match vector with Some v => put_vector key v | None => ret tt end) (fun _ =>
  match edges with Some l => add_edges key l | None => ret tt end)).

(** ** [ContextEngine] *)
Definition ContextEngine_query (text : bytes) (limit : nat) : PM (list Document) :=
  write poisoned_msg (query_docs (text_spec text limit)).
Definition ContextEngine_search_text (text : bytes) (limit : nat) : PM (list Document) := ContextEngine_query text limit.
Definition ContextEngine_search_fuzzy (symbol : bytes) (limit : nat) : PM (list Document) :=
  read poisoned_msg (query_fuzzy symbol limit).
Definition ContextEngine_ingest (records : list (bytes * bytes)) : PM nat :=
  write poisoned_msg (run (err_prog (fun e => str "ingest failed: " ++ e) (e_bulk records))).
Definition ContextEngine_search_vector (embedding : list f32) (limit : nat) : PM (list Document) :=
  read poisoned_msg (query_vector embedding limit).
Definition ContextEngine_add_edge (src dst relation : bytes) : PM unit := write poisoned_msg (add_edge src dst relation).
Definition ContextEngine_search_graph (start relation : bytes) (depth limit : nat) : PM (list Document) :=
  write poisoned_msg (query_docs (graph_spec start relation depth limit)).
Definition ContextEngine_index (key content : bytes) (vector : option (list f32)) (edges : option (list (bytes * bytes))) : PM unit :=
  write poisoned_msg (index_document key content vector edges).

(** ** [Workspace] *)
Definition Workspace_get (path : bytes) : PM (option Document) := read poisoned_msg (run (get_prog path)).
Definition Workspace_put (path content : bytes) : PM unit :=
  write poisoned_msg (run (err_prog (fun e => str "put failed: " ++ e) (e_put path content))).
Definition Workspace_delete (path : bytes) : PM unit :=
  write poisoned_msg (run (err_prog (fun e => str "delete failed: " ++ e) (e_delete path))).
Definition Workspace_scan (prefix : bytes) (limit : nat) : PM (list Document) :=
  read poisoned_msg (run (prefix_prog scan_doc prefix limit)).
Definition Workspace_put_batch (records : list (bytes * bytes)) : PM unit :=
  write poisoned_msg (run (err_prog (fun e => str "put_batch failed: " ++ e) (e_batch records))).
Definition Workspace_snapshot (name : option bytes) : PM bytes :=
  write poisoned_msg (run_em (fun e => e) (snapshot_create (default [] name))).
Definition Workspace_rollback_to (checkpoint_id : bytes) : PM unit :=
  write poisoned_msg (run_em (fun e => e) (snapshot_restore checkpoint_id)).
Definition Workspace_commit : PM unit :=
  write poisoned_msg (run (err_prog (fun e => str "commit failed: " ++ e) e_flush)).
Definition Workspace_merge_to_main (w : Workspace) : PM nat :=
  if is_branch w then write poisoned_msg (run_em (fun e => e) (branch_merge crc (branch_name w)))
  else fun l => (Err (str "not a branch workspace"), l).
Definition Workspace_contains (path : bytes) : PM bool := read poisoned_msg (run (contains_prog path)).

(** ** [Agent] *)
Definition Agent_search (query : bytes) (limit : nat) : PM (list Document) :=
  write poisoned_msg (query_docs (text_spec query limit)).
Definition Agent_search_fuzzy (symbol : bytes) (limit : nat) : PM (list Document) :=
  read poisoned_msg (query_fuzzy symbol limit).

(** The agent's branch first, then the live engine. *)
Definition Agent_get (a : Agent) (path : bytes) : PM (option Document) := read poisoned_msg (fun e =>
  match snapshot_get e (name a) path with
  | Ok (Some val) => (Ok (Some (record_doc path val)), e)
  | Ok None => run (get_prog path) e
  | _ => (Panic, e)
  end).

(** The branch is cloned, written and stored again under its name. *)
Definition branch_write (name : bytes) (f : Hamt -> res unit Hamt) : EM (I := I) unit := fun e =>
  match snapshots e !! name with
  | None => (Err (str "agent branch not found"), e)
  | Some branch =>
      match f branch with
      | Ok updated => (Ok tt, set_snapshots (<[name := updated]> (snapshots e)) (snapshot_counter e) e)
      | _ => (Panic, e)
      end
  end.

Definition not_finished {A : Type} (a : Agent) (m : PM A) : PM A :=
  if finished a then fun l => (Err (str "agent is already committed or rolled back"), l) else m.

Definition Agent_put (a : Agent) (path content : bytes) : PM unit := not_finished a
  (write poisoned_msg (branch_write (name a) (fun branch => Hamt.put branch path content))).
Definition Agent_delete (a : Agent) (path : bytes) : PM unit :=
  write poisoned_msg (branch_write (name a) (fun branch => Hamt.delete branch path)).
Definition Agent_scan (prefix : bytes) (limit : nat) : PM (list Document) :=
  read poisoned_msg (run (prefix_prog scan_doc prefix limit)).

Fixpoint hamt_put_all (records : list (bytes * bytes)) (branch : Hamt) : res unit Hamt :=
  match records with
  | [] => Ok branch
  | (k, v) :: records' => branch' ← Hamt.put branch k v; hamt_put_all records' branch'
  end.

Definition Agent_load (a : Agent) (records : list (bytes * bytes)) : PM nat := not_finished a
  (write poisoned_msg (bind (branch_write (name a) (hamt_put_all records)) (fun _ => ret (length records)))).

Definition end_agent (a : Agent) : Agent := mkAgent (name a) true.

(** The methods that may finish the agent return it too. *)
Definition Agent_commit (a : Agent) (l : Shared) : res bytes nat * Agent * Shared :=
  if finished a then (Err (str "agent already finished"), a, l)
  else match write poisoned_msg (run_em (fun e => e) (branch_merge crc (name a))) l with
       | (Ok n, l') => (Ok n, end_agent a, l')
       | (r, l') => (r, a, l')
       end.

Definition Agent_discard (a : Agent) (l : Shared) : res bytes unit * Agent * Shared :=
  if finished a then (Ok tt, a, l)
  else match write poisoned_msg (run_em (fun e => e) (branch_rollback (name a))) l with
       | (Ok _, l') => (Ok tt, end_agent a, l')
       | (Err x, l') => (Err x, a, l')
       | (Panic, l') => (Panic, a, l')
       end.

(** [exc]: the block raised. The result of the merge is ignored. *)
Definition Agent_exit (a : Agent) (exc : bool) (l : Shared) : res bytes bool * Agent * Shared :=
  if finished a then (Ok false, a, l)
  else if poisoned l then (Err poisoned_msg, a, l)
  else let m : EM unit := if exc then bind (branch_rollback (name a)) (fun _ => ret tt)
                          else bind (branch_merge crc (name a)) (fun _ => ret tt) in
       let '(r, e) := m (guarded l) in
       if is_panic r then (Panic, a, mkLock (bg e) true) else (Ok false, end_agent a, mkLock (bg e) false).

Definition Agent_search_vector (embedding : list f32) (limit : nat) : PM (list Document) :=
  read poisoned_msg (query_vector embedding limit).
Definition Agent_search_graph (start relation : bytes) (depth limit : nat) : PM (list Document) :=
  write poisoned_msg (query_docs (graph_spec start relation depth limit)).
Definition Agent_checkpoint (a : Agent) (checkpoint : option bytes) : PM bytes :=
  write poisoned_msg (run_em (fun e => e) (snapshot_create (default (name a ++ str "-checkpoint") checkpoint))).

Definition create_agent (msg agent : bytes) : PM Agent := write msg (fun e =>
  let '(r, e') := run_em (fun x => str "agent create failed: " ++ x) (branch_create agent []) e in
  ((fun _ => mkAgent agent false) <$> r, e')).

(** ** [Client] *)
Definition strip_prefix (prefix s : bytes) : option bytes :=
  if bool_decide (take (length prefix) s = prefix) then Some (drop (length prefix) s) else None.

(** [dir] is what the directory at the path holds. *)
Definition Client_connect (url : bytes) (dir : DataDir) : res bytes (Client * Shared) :=
  let path := default url (strip_prefix (str "uldb://") url) in
  (fun e => (mkClient true path, mkLock e false)) <$>
    map_err (fun x => str "failed to connect: " ++ x) (open (I := I) crc inflate read_dir ln DEFAULT_FLUSH_THRESHOLD dir).

Definition client {A : Type} (c : Client) (m : PM A) : PM A :=
  if client_open c then m else fun l => (Err closed_msg, l).

Definition Client_workspace (c : Client) : PM Workspace := client c (fun l => (Ok (mkWorkspace (str "main") false), l)).
Definition Client_branch (c : Client) (name base : bytes) : PM Workspace := client c (write poisoned_msg (fun e =>
  let from_snapshot := if bool_decide (base = str "main") then [] else base in
  let '(r, e') := run_em (fun x => x) (branch_create name from_snapshot) e in
  ((fun _ => mkWorkspace name true) <$> r, e'))).
Definition Client_agent (c : Client) (agent : bytes) : PM Agent := client c (create_agent poisoned_msg agent).
Definition Client_branches (c : Client) : PM (list bytes) := client c (read poisoned_msg (look snapshot_list)).

Definition stats_of (e : Engine (I := I)) : list (bytes * Z) :=
  let idx := idx_stats (indices e) in
  [(str "records", Z.of_nat (Memtable.len (memtable e))); (str "flush_count", flush_count e);
   (str "index_docs", Z.of_nat (Manager.bm25_docs idx)); (str "index_symbols", Z.of_nat (Manager.fuzzy_symbols idx));
   (str "index_vectors", Z.of_nat (Manager.hnsw_vectors idx)); (str "graph_nodes", Z.of_nat (Manager.graph_nodes idx));
   (str "graph_edges", Z.of_nat (Manager.graph_edges idx))].
Definition Client_stats (c : Client) : PM (list (bytes * Z)) := client c (read poisoned_msg (look stats_of)).

(** [RwLock::into_inner], then [Engine::close]: what the directory holds afterwards. *)
Definition close_engine (msg : bytes) (f : bytes -> bytes) (io : nat) (dir : DataDir) (l : Shared) : res bytes DataDir :=
  if poisoned l then Err msg else map_err f (close deflate read_dir ln io dir (guarded l)).

(** The end of a handle: the database is closed, with what its directory holds; or only the
    handle is, and the others share the lock still. *)
Inductive Closed :=
  | ClosedDir (r : res bytes DataDir)
  | StillShared (r : res bytes unit) (l : Shared).

(** [unique]: no workspace, context or agent holds the engine. Otherwise the engine is flushed
    and the client keeps it, unless the flush fails. *)
Definition Client_close (c : Client) (unique : bool) (io : nat) (dir : DataDir) (l : Shared) : Client * Closed :=
  if client_open c then
    if unique then (mkClient false (data_path c), ClosedDir (close_engine poisoned_msg (fun x => str "close failed: " ++ x) io dir l))
    else let '(r, l') := write poisoned_msg (run (err_prog (fun x => str "flush failed: " ++ x) e_flush)) l in
         (mkClient (match r with Ok _ => true | _ => false end) (data_path c), StillShared r l')
  else (c, StillShared (Ok tt) l).

(** [__exit__] closes, and lets the exception of the block pass. *)
Definition exit_result (x : Closed) : res bytes bool :=
  match x with ClosedDir r => (fun _ => false) <$> r | StillShared r _ => (fun _ => false) <$> r end.

Definition Client_exit (c : Client) (unique : bool) (io : nat) (dir : DataDir) (l : Shared) : res bytes bool * Client * Closed :=
  let '(c', x) := Client_close c unique io dir l in (exit_result x, c', x).

(** ** [DB] *)
Definition DB_new (dir : DataDir) : res bytes (DB * Shared) :=
  (fun e => (mkDB true, mkLock e false)) <$>
    map_err (fun x => str "failed to open: " ++ x) (open (I := I) crc inflate read_dir ln DEFAULT_FLUSH_THRESHOLD dir).

Definition opened {A : Type} (d : DB) (m : PM A) : PM A := if db_open d then m else fun l => (Err closed_msg, l).

Definition DB_put (d : DB) (key value : bytes) : PM unit := opened d (write lock_msg (run (e_put key value))).
Definition DB_get (d : DB) (key : bytes) : PM (option bytes) :=
  opened d (read lock_msg (run (pbind (e_get key) (fun v => Ret (Ok v))))).
Definition DB_delete (d : DB) (key : bytes) : PM unit := opened d (write lock_msg (run (e_delete key))).
Definition DB_search (d : DB) (query : bytes) (limit : nat) : PM (list Document) :=
  opened d (write lock_msg (query_docs (text_spec query limit))).
Definition DB_scan (d : DB) (prefix : bytes) (limit : nat) : PM (list Document) :=
  opened d (read lock_msg (run (prefix_prog scan_doc prefix limit))).
Definition DB_load (d : DB) (records : list (bytes * bytes)) : PM nat := opened d (write lock_msg (run (e_bulk records))).
Definition DB_snapshot (d : DB) (name : option bytes) : PM bytes :=
  opened d (write lock_msg (run_em (fun x => x) (snapshot_create (default [] name)))).
Definition DB_restore (d : DB) (name : bytes) : PM unit :=
  opened d (write lock_msg (run_em (fun x => x) (snapshot_restore name))).
Definition DB_snapshots (d : DB) : PM (list bytes) := opened d (read lock_msg (look snapshot_list)).
Definition DB_search_fuzzy (d : DB) (symbol : bytes) (limit : nat) : PM (list Document) :=
  opened d (read lock_msg (query_fuzzy symbol limit)).
Definition DB_search_vector (d : DB) (embedding : list f32) (limit : nat) : PM (list Document) :=
  opened d (read lock_msg (query_vector embedding limit)).
Definition DB_add_edge (d : DB) (src dst relation : bytes) : PM unit := opened d (write lock_msg (add_edge src dst relation)).
Definition DB_search_graph (d : DB) (start relation : bytes) (depth limit : nat) : PM (list Document) :=
  opened d (write lock_msg (query_docs (graph_spec start relation depth limit))).
Definition DB_index (d : DB) (key content : bytes) (vector : option (list f32)) (edges : option (list (bytes * bytes))) : PM unit :=
  opened d (write lock_msg (index_document key content vector edges)).
Definition DB_delete_range (d : DB) (start end_ : bytes) : PM nat :=
  opened d (write lock_msg (run (delete_range_prog start end_))).
Definition DB_keys (d : DB) (prefix : bytes) (limit : nat) : PM (list bytes) :=
  opened d (read lock_msg (run (prefix_prog (fun kv => from_utf8_lossy kv.1) prefix limit))).
Definition DB_stats (d : DB) : PM (list (bytes * Z)) := opened d (read lock_msg (look stats_of)).
Definition DB_agent (d : DB) (agent : bytes) : PM Agent := opened d (create_agent lock_msg agent).

(** A database whose engine is held by an agent loses its own reference, and nothing else is done. *)
Definition DB_close (d : DB) (unique : bool) (io : nat) (dir : DataDir) (l : Shared) : DB * Closed :=
  if db_open d && unique then (mkDB false, ClosedDir (close_engine lock_msg (fun x => x) io dir l))
  else (mkDB false, StillShared (Ok tt) l).

Definition DB_exit (d : DB) (unique : bool) (io : nat) (dir : DataDir) (l : Shared) : res bytes bool * DB * Closed :=
  let '(d', x) := DB_close d unique io dir l in (exit_result x, d', x).

Definition DB_contains (d : DB) (key : bytes) : PM bool := opened d (read lock_msg (run (contains_prog key))).
(** [__len__] counts the entries of the memtable. *)
Definition DB_len (d : DB) : PM nat := opened d (read lock_msg (look (fun e => Memtable.len (memtable e)))).
End python.
