(* ===== verification/ServerQuery.v ===== *)
(** * Queries on a server with the manager's indices

    The query handlers over the index manager: the rows of an answer are the hits of the
    manager's query with the values the engine holds, and after safe requests on records
    with ASCII keys the keyword index answers for exactly the records the server then holds. *)

From S2P Require Import Prelude Ordered Text Float Fnv Namespace Bloom Memtable Wal Page PageStore Compaction BgCompaction Cache Hamt IndexApi QueryApi Engine EngineSpec Prog Recovery AgentEngine Server ServerSpec IndexedEngine.
From S2P Require Session Planner Manager ManagerSpec Bm25 Bm25Score Fuzzy Graph Hnsw HnswSpec.
#[local] Existing Instance ManagerSpec.manager_index.
#[local] Existing Instance ManagerSpec.manager_index_laws.
Local Open Scope Z_scope.

(** ** The rows of an answer *)
Section rows.
Context `{Hump : Ump}.

Definition hit_frame (v : gmap bytes bytes) (show : bytes -> bytes) (h : Planner.RankedHit) : Frame :=
  row_frame (show (Planner.key h)) (default [] (v !! Planner.key h)) (Planner.score h) (as_u32 (Planner.rank h)).

Definition hits_answer (v : gmap bytes bytes) (show : bytes -> bytes) (hits : list Planner.RankedHit) : Response :=
  Stream (start_frame (as_u32 (length hits)) :: (hit_frame v show <$> hits) ++ [end_frame (as_u32 (length hits))]).

Lemma run_hit_rows v show hits : run_map v (hit_rows show hits) = (hit_frame v show <$> hits, v).
Proof.
  induction hits as [|h hits IH]; [done|]. cbn [hit_rows]. rewrite run_map_bind. cbn [e_get run_map spec_eop].
  rewrite run_map_bind, IH. done.
Qed.

Lemma run_hits v show hits : run_map v (hits_prog show hits) = (hits_answer v show hits, v).
Proof. unfold hits_prog. by rewrite run_map_bind, run_hit_rows. Qed.

(** Reading is safe as far as the bound goes. *)
Section safe.
Context (crc : bytes -> Z) (deflate : bytes -> bytes) (read_dir : fs -> list bytes) (ln : f64 -> f64).
Context (iter : gmap bytes CacheEntry -> list (bytes * CacheEntry)).
Context {I : Type} `{Hops : IndexOps I}.
Context (ks : gset bytes) (cap : Z).

Abbreviation safe := (prog_safe (I := I) crc deflate read_dir ln iter ks cap).
Abbreviation count := (prog_count (I := I) crc deflate read_dir ln iter).

Lemma hit_rows_safe io show hits : forall n e, n + Z.of_nat (length hits) <= cap ->
  safe io n e (hit_rows show hits) /\ count io n e (hit_rows show hits) = n + Z.of_nat (length hits).
Proof.
  induction hits as [|h hits IH]; intros n e Hn; cbn [length] in *; [cbn; lia|]. cbn [hit_rows].
  destruct (get_safe crc deflate read_dir ln iter ks cap io n e (Planner.key h)) as [Hs Hc]; [lia|]. rewrite prog_count_bind, Hc.
  set (r := run_prog _ _ _ _ _ _). destruct (IH (n + 1) r.2) as [Hs1 Hc1]; [lia|]. rewrite prog_count_bind, Hc1.
  split; [|cbn [prog_count]; lia]. apply prog_safe_bind; [done|]. rewrite Hc. fold r.
  apply prog_safe_bind; [done|]. rewrite Hc1. cbn [prog_safe]. lia.
Qed.

Lemma hits_safe io show hits n e : n + Z.of_nat (length hits) <= cap -> safe io n e (hits_prog show hits).
Proof.
  intros Hn. destruct (hit_rows_safe io show hits n e Hn) as [Hs Hc]. apply prog_safe_bind; [done|]. rewrite Hc. done.
Qed.
End safe.
End rows.

(** ** The manager's queries *)
Section manager.
Context (crc : bytes -> Z) (deflate : bytes -> bytes) (read_dir : fs -> list bytes) (ln : f64 -> f64).
Context (iter : gmap bytes CacheEntry -> list (bytes * CacheEntry)).
Context `{HL : Hnsw.HeapLaws} `{Hump : Ump}.
Variable sort_unstable_by : (nat * f64 -> nat * f64 -> comparison) -> list (nat * f64) -> list (nat * f64).
Variable select_nth_unstable_by : nat -> (nat * f64 -> nat * f64 -> comparison) -> list (nat * f64) -> list (nat * f64).
Variable iter_hits : gmap nat nat -> list (nat * nat).
Variable iter_scores : gmap bytes f64 -> list (bytes * f64).
Hypothesis Hsort : sorts sort_unstable_by.
Hypothesis Hselect : selects select_nth_unstable_by.
Hypothesis Hiter_hits : forall m, iter_hits m ≡ₚ map_to_list m.
Hypothesis Hiter_scores : forall m, iter_scores m ≡ₚ map_to_list m.
Hypothesis Hpos : Bm25Score.ln_positive ln.
Context (ks : gset bytes) (Hks : no_collision ks).
Context (cap : Z) (Hcap : cap <= 2 ^ 63).
Context (Hln : forall n, Z.of_nat n < cap -> bloom_fits ln n).

#[local] Instance queried : IndexQuery Manager.IndexManager :=
  manager_query ln sort_unstable_by select_nth_unstable_by iter_hits iter_scores.

Implicit Types (e : Engine (I := Manager.IndexManager)) (s : UmpHandler (I := Manager.IndexManager)).
Abbreviation worker io := (settle (I := Manager.IndexManager) deflate read_dir io).

(** What a query of the server answers. *)
Definition query_answer e (ns : option Z) (spec : Planner.QuerySpec) (hits : list Planner.RankedHit) : Prop :=
  (length hits <= Planner.top_k spec)%nat /\ NoDup (Planner.key <$> hits) /\ in_order Planner.by_score hits /\
  (forall h, h ∈ hits -> (forall n, ns = Some n -> in_query_namespace n h = true) /\
    exists step, step ∈ Planner.plan spec /\ answers (indices e) (Hamt.view (state e)) spec step (Planner.key h)) /\
  (ns = None -> (length hits < Planner.top_k spec)%nat -> Z.of_nat (Planner.top_k spec) < 2 ^ 63 -> Planner.has_text spec = true ->
    forall x v t, x <> [] -> Hamt.view (state e) !! x = Some v -> t ∈ Bm25.tokenize (Planner.text spec) ->
      t ∈ Bm25.tokens_of x ++ Bm25.tokens_of v -> x ∈ Planner.key <$> hits).

Lemma query_hits_sublist ns hits : query_hits ns hits `sublist_of` hits.
Proof. destruct ns; [apply sublist_filter|done]. Qed.

Lemma handle_query_ok io n s ds ns spec : poisoned (engine s) = false -> engine_inv ks n (guarded (engine s)) ->
  ManagerSpec.mgr_ok (indices (guarded (engine s))) ds -> ManagerSpec.tracks ds (Hamt.view (state (guarded (engine s)))) ->
  Fuzzy.ascii (Planner.text spec) /\ Fuzzy.short (Planner.text spec) -> n + Z.of_nat (Planner.top_k spec) <= cap ->
  exists hits e', handle_query crc ln iter (worker io) ns spec s =
      (Ok (hits_answer (Hamt.view (state (guarded (engine s)))) (query_display (query_namespace ns)) hits),
       mkHandler (mkLock e' false) (tx_mgr s) (watches s)) /\
    Hamt.view (state e') = Hamt.view (state (guarded (engine s))) /\
    query_answer (guarded (engine s)) (query_namespace ns) spec hits.
Proof.
  intros Hp Hinv Hok Ht Htext Hn. set (e := guarded (engine s)) in *.
  destruct (ManagerSpec.query_hits_ok ln sort_unstable_by select_nth_unstable_by iter_hits iter_scores Hsort Hselect Hiter_hits
    Hiter_scores (indices e) ds spec Hok Htext) as (all & g' & E & Hsame & Hlen & Hnd & _ & Hord & Hfound).
  pose proof E as Eall. destruct Hsame as (r & -> & _). set (hits := query_hits (query_namespace ns) all). pose proof (query_hits_sublist (query_namespace ns) all) as Hsub.
  assert (engine_inv ks n (set_indices (Manager.set_graph r (indices e)) e)) as Hinv' by (by destruct Hinv; split).
  assert (length hits <= Planner.top_k spec)%nat as Hlen' by (pose proof (sublist_length _ _ Hsub); unfold hits; lia).
  destruct (run_prog_ok crc deflate read_dir ln iter ks Hks cap Hcap Hln io (hits_prog (query_display (query_namespace ns)) hits) n _ Hinv')
    as (E1 & E2 & _); [apply hits_safe; lia|].
  rewrite run_hits in E1, E2. cbn [fst snd state set_indices] in E1, E2.
  exists hits, (run_prog crc ln iter (worker io) (set_indices (Manager.set_graph r (indices e)) e)
    (hits_prog (query_display (query_namespace ns)) hits)).2. split_and!.
  - unfold handle_query, query_engine, write_engine, with_guard. rewrite Hp. fold e. cbn [idx_query queried manager_query]. rewrite E.
    fold hits. destruct (run_prog _ _ _ _ _ _) as [o e']. cbn [fst] in E1. by subst o.
  - exact E2.
  - split_and!; [done|by eapply sublist_NoDup; [exact Hnd|apply fmap_sublist]| | |].
    + by eapply StronglySorted_sublist.
    + intros h Hh. split.
      * intros k Hk. unfold hits in Hh. rewrite Hk in Hh. cbn [query_hits] in Hh. by apply list_elem_of_filter in Hh as [? _].
      * destruct (Hfound h) as (step & Hstep & Hf); [by eapply sublist_subseteq|]. exists step. split; [done|]. by eapply found_answers.
    + unfold hits. intros Hns. rewrite Hns. cbn [query_hits]. intros Hl Hk Htxt x v t Hx Hxv Hq Htx.
      eapply (ManagerSpec.query_complete ln sort_unstable_by select_nth_unstable_by iter_hits iter_scores Hsort Hselect Hiter_hits
        Hiter_scores Hpos (indices e) ds _ spec all); try done; [by apply (Planner.plan_exact spec)|].
      apply (ManagerSpec.tracks_found _ _ _ _ _ Ht). split; [done|]. by exists v, t.
Qed.

(** The writes of the requests, as the manager sees them. *)
Definition request_ops (v : gmap bytes bytes) (rs : list request) : list ManagerSpec.Op := mop <$> requests_writes v rs.

(** C17: on a server that started empty, requests on records with ASCII keys, no reversed range,
    safe as in [server_refines_map] and within the size of the keyword index are answered as by a
    map of the clients' keys; a query with short ASCII text is then answered without a panic by at
    most [top_k] hits, best first, no key twice, all of the namespace asked for, each with the value
    the map holds and each found by an index of the plan. When the query has text, asks for no
    namespace and gets fewer hits than [top_k], every record whose key or value holds a word of the
    text is a hit. *)
Theorem search_after_requests io n e0 rs ns spec :
  engine_inv ks n e0 -> indices e0 = Manager.new -> Hamt.view (state e0) = ∅ ->
  Forall request_text rs -> Forall (fun r => reversed r = false) rs ->
  requests_safe crc deflate read_dir ln iter ks cap io n e0 rs ->
  Forall ManagerSpec.op_ok (request_ops ∅ rs) -> Bm25.fits (foldl ManagerSpec.doc_op [] (request_ops ∅ rs)) ->
  Fuzzy.ascii (Planner.text spec) /\ Fuzzy.short (Planner.text spec) ->
  requests_count crc deflate read_dir ln iter io n e0 rs + Z.of_nat (Planner.top_k spec) <= cap ->
  exists e1 e2 hits,
    handle_all crc ln iter (worker io) rs (Server.new e0) = ((spec_all ∅ rs).1, Server.new e1) /\
    serves (Hamt.view (state e1)) (spec_all ∅ rs).2 /\
    handle_query crc ln iter (worker io) ns spec (Server.new e1) =
      (Ok (hits_answer (Hamt.view (state e1)) (query_display (query_namespace ns)) hits), Server.new e2) /\
    Hamt.view (state e2) = Hamt.view (state e1) /\ query_answer e1 (query_namespace ns) spec hits.
Proof.
  intros Hinv Hidx Hview Htext Hrev Hsafe Hops Hfit Hq Hn.
  destruct (handle_all_ok crc deflate read_dir ln iter ks Hks cap Hcap Hln io n (Server.new e0) ∅ rs eq_refl Hinv)
    as (e1 & E1 & Hserve & Hinv1 & Hv & Hi & _); try done.
  { intros k. cbn. by rewrite Hview. }
  { intros k [v Hv]. by rewrite lookup_empty in Hv. }
  cbn [Server.new engine guarded tx_mgr watches] in *. rewrite Hview, Hidx in *. rewrite (idx_writes_ops (fun x => x) (fun x => x)) in Hi. rewrite map_writes_ops in Hv.
  destruct (ManagerSpec.run_ops_ok (fun x => x) (fun x => x) (request_ops ∅ rs) Manager.new [] ∅ ManagerSpec.new_ok
    ManagerSpec.tracks_new Hops Hfit) as (g & Hg & Hok & Ht).
  fold (request_ops ∅ rs) in Hi, Hv. rewrite Hi in Hg. injection Hg as <-. rewrite <- Hv in Ht.
  destruct (handle_query_ok io _ (Server.new e1) _ ns spec eq_refl Hinv1 Hok Ht Hq Hn) as (hits & e2 & E2 & Hv2 & Ha).
  exists e1, e2, hits. split_and!; [exact E1|exact Hserve|exact E2|exact Hv2|exact Ha].
Qed.
End manager.

(** ** A search, for the witness *)
Definition search_keys : gset bytes := list_to_set (scope_key 0 <$> [str "auth.rs"; str "log.rs"]).

Lemma search_keys_ok : no_collision search_keys.
Proof. apply distinct_hashes_ok. vm_compute. reflexivity. Qed.

Definition search_requests : list request :=
  [RPut (str "auth.rs") (str "validate token"); RPut (str "log.rs") (str "write token"); RPut (str "auth.rs") (str "check password");
   RDelete (str "log.rs")].

Definition search_spec : Planner.QuerySpec := Planner.mkSpec (str "password") [] 3 0 [] [] [] [] 1 5000.

#[local] Existing Instance ex_ump.

Lemma search_ops : request_ops ∅ search_requests =
  [ManagerSpec.OpPut (scope_key 0 (str "auth.rs")) (str "validate token"); ManagerSpec.OpPut (scope_key 0 (str "log.rs")) (str "write token");
   ManagerSpec.OpPut (scope_key 0 (str "auth.rs")) (str "check password"); ManagerSpec.OpDelete (scope_key 0 (str "log.rs"))].
Proof. vm_compute. reflexivity. Qed.

#[local] Existing Instance HnswSpec.list_heap.
#[local] Existing Instance HnswSpec.list_heap_laws.

Abbreviation search_bg := (settle (I := Manager.IndexManager) id list_names 100).
Definition search_server : UmpHandler (I := Manager.IndexManager) := Server.new manager_engine.

Lemma search_after_requests_witness : exists e1 e2 hits,
  handle_all crc32 ln_sample map_to_list search_bg search_requests search_server = ((spec_all ∅ search_requests).1, Server.new e1) /\
  handle_query (Hquery := queried ln_sample sort_by (fun _ => sort_by) map_to_list map_to_list)
    crc32 ln_sample map_to_list search_bg [] search_spec (Server.new e1) =
    (Ok (hits_answer (Hamt.view (state e1)) (query_display None) hits), Server.new e2) /\
  query_answer e1 None search_spec hits.
Proof.
  destruct (search_after_requests crc32 id list_names ln_sample map_to_list sort_by (fun _ => sort_by) map_to_list map_to_list
    sort_by_sorts sort_by_selects (fun m => reflexivity _) (fun m => reflexivity _) Bm25Score.ln_sample_positive search_keys search_keys_ok 17 ltac:(done) bloom_fits_sample
    100 0 manager_engine search_requests [] search_spec) as (e1 & e2 & hits & E1 & _ & E2 & _ & Ha).
  - apply manager_engine_inv. exact search_keys_ok.
  - reflexivity.
  - vm_compute. reflexivity.
  - repeat constructor.
  - repeat constructor.
  - repeat (apply requests_safeb; [vm_compute; reflexivity|]). exact Logic.I.
  - rewrite search_ops. repeat (apply Forall_cons; split; [first [exact Logic.I|by apply ManagerSpec.ascii_short_dec]|]). by apply Forall_nil.
  - rewrite search_ops. vm_compute. reflexivity.
  - by apply (ManagerSpec.ascii_short_dec (str "password")).
  - apply Z.leb_le. vm_compute. reflexivity.
  - exists e1, e2, hits. split; [exact E1|]. split; [exact E2|exact Ha].
Defined.

(** The limit counts the hits of all namespaces: records of another one take the places of those asked for, and a query for one
    record of a namespace that has a match answers none. *)
Definition crowded_requests : list request :=
  [RPut (str "log.rs") (str "password"); RPut (scope_key 7 (str "b")) (str "the password of the seventh")].

Definition crowded_answer (k : nat) : res bytes Response :=
  (handle_query (Hquery := queried ln_sample sort_by (fun _ => sort_by) map_to_list map_to_list) crc32 ln_sample map_to_list search_bg (str "7")
    (Planner.mkSpec (str "password") [] k 0 [] [] [] [] 1 5000)
    (handle_all crc32 ln_sample map_to_list search_bg crowded_requests search_server).2).1.

Lemma namespace_limit_hides_record : crowded_answer 1 = Ok (hits_answer ∅ (query_display (Some 7)) []) /\
  exists hit, Planner.key hit = scope_key 0 (scope_key 7 (str "b")) /\
    crowded_answer 2 = Ok (hits_answer {[Planner.key hit := str "the password of the seventh"]} (query_display (Some 7)) [hit]).
Proof.
  split; [vm_compute; reflexivity|].
  eexists (Planner.mkRanked _ (match Manager.query ln_sample sort_by (fun _ => sort_by) map_to_list map_to_list
    (indices (guarded (engine (handle_all crc32 ln_sample map_to_list search_bg crowded_requests search_server).2)))
    (Planner.mkSpec (str "password") [] 2 0 [] [] [] [] 1 5000) with Ok (hits, _) => from_option Planner.score f64_zero (hits !! 1%nat) | _ => f64_zero end) 1).
  split; [reflexivity|]. vm_compute. reflexivity.
Qed.
