(* ===== verification/PythonSpec.v ===== *)
(** * What the Python classes promise

    A [DB] is a map from strings whose scans answer by prefix; an [Agent] keeps its writes in
    its branch until it commits, when the branch is laid over the live state:
    under the conditions of [calls_safe], of which the least expected is that no key of a branch is
    cached at its merge. *)

From S2P Require Import Prelude Ordered Text Float Fnv Bloom Memtable Wal Page PageStore Compaction BgCompaction Cache Hamt IndexApi QueryApi Engine EngineSpec Recovery Prog Branch AgentEngine Server ServerSpec Python.
Local Open Scope Z_scope.

(** ** Prefixes *)
Lemma cont_no_ff b : cont_byte b = true -> b <> xff.
Proof. by intros Hb ->. Qed.
Lemma second_no_ff z b : second_ok z b = true -> b <> xff.
Proof. intros Hb ->. unfold second_ok in Hb. repeat case_match; by vm_compute in Hb. Qed.
Lemma small_no_ff b : b2z b < 255 -> b <> xff.
Proof. by intros Hb ->. Qed.

#[local] Hint Resolve cont_no_ff second_no_ff : uldb.

(** No byte of valid text is 0xFF. *)
Lemma utf8_no_ff : forall s, utf8_valid s = true -> Forall (fun b => b <> xff) s.
Proof.
  unfold utf8_valid. fix IH 1. intros [|b0 s1]; [by constructor|]. cbn [utf8_decode]. cbv zeta.
  destruct (_ <? 0x80) eqn:E0.
  { intros Hv. constructor; [apply small_no_ff; lia|]. apply IH. by destruct (utf8_decode s1). }
  destruct (_ <? 0xC2); [done|]. destruct (_ <? 0xE0) eqn:E1.
  { destruct s1 as [|b1 s2]; [done|]. destruct (cont_byte b1) eqn:H1; [|done]. intros Hv.
    constructor; [apply small_no_ff; lia|]. constructor; [by eauto with uldb|]. apply IH. by destruct (utf8_decode s2). }
  destruct (_ <? 0xF0) eqn:E2.
  { destruct s1 as [|b1 [|b2 s3]]; [done..|]. destruct (second_ok _ b1) eqn:H1; cbn [andb]; [|done].
    destruct (cont_byte b2) eqn:H2; [|done]. intros Hv. constructor; [apply small_no_ff; lia|].
    do 2 (constructor; [by eauto with uldb|]). apply IH. by destruct (utf8_decode s3). }
  destruct (_ <? 0xF5) eqn:E3; [|done].
  destruct s1 as [|b1 [|b2 [|b3 s4]]]; [done..|]. destruct (second_ok _ b1) eqn:H1; cbn [andb]; [|done].
  destruct (cont_byte b2) eqn:H2; cbn [andb]; [|done]. destruct (cont_byte b3) eqn:H3; [|done].
  intros Hv. constructor; [apply small_no_ff; lia|]. do 3 (constructor; [by eauto with uldb|]). apply IH. by destruct (utf8_decode s4).
Qed.

(** Among strings, the range of a prefix scan is the keys with the prefix. *)
Lemma prefix_range p k : utf8_valid k = true -> bytes_le p k /\ bytes_lt k (p ++ [xff]) <-> p `prefix_of` k.
Proof.
  intros Hk%utf8_no_ff. split.
  - intros [Hle Hlt]. rewrite <- (app_nil_r p) in Hle. destruct (range_in_prefix _ _ _ _ Hle Hlt) as [k' ->]. by exists k'.
  - intros [k' ->]. apply Forall_app in Hk as [_ Hk]. unfold bytes_le, bytes_lt. induction p as [|x p IH]; cbn [app bytes_cmp].
    + split; [by destruct k'|]. destruct k' as [|y k']; [done|]. apply Forall_cons in Hk as [Hy _]. cbn [bytes_cmp].
      assert (b2z y < b2z xff) as Hlt; [|by rewrite (proj2 (Z.compare_lt_iff _ _) Hlt)].
      pose proof (b2z_range y). assert (b2z y <> 255) by (intros E; apply Hy; apply (inj b2z); by rewrite E).
      change (b2z xff) with 255. lia.
    + by rewrite !Z.compare_refl.
Qed.

Definition with_prefix (p : bytes) (m : gmap bytes bytes) : list (bytes * bytes) :=
  filter (fun kv => p `prefix_of` kv.1) (bt_entries m).

Lemma filter_iff_Forall {A : Type} (P Q : A -> Prop) `{!forall x, Decision (P x), !forall x, Decision (Q x)} l :
  Forall (fun x => P x <-> Q x) l -> filter P l = filter Q l.
Proof.
  induction 1 as [|x l Hx _ IH]; [done|]. rewrite !filter_cons, IH. destruct (decide (P x)), (decide (Q x)); try done; exfalso; tauto.
Qed.

Lemma scan_prefix p m : texts m -> map_scan m p (p ++ [xff]) = Ok (with_prefix p m).
Proof.
  intros Hm. unfold map_scan, with_prefix. replace (bytes_ltb (p ++ [xff]) p) with false.
  - f_equal. apply filter_iff_Forall, Forall_forall. intros [k v] Hkv%elem_of_bt_entries. apply prefix_range, Hm. by exists v.
  - symmetry. induction p as [|x p IH]; [done|]. unfold bytes_ltb in *. cbn [app bytes_cmp]. by rewrite Z.compare_refl.
Qed.

(** ** The database as a map *)

(** What calls answer. *)
Inductive answer :=
  | AUnit
  | AValue (v : option bytes)
  | ADoc (d : option Document)
  | ADocs (l : list Document)
  | AKeys (l : list bytes)
  | ACount (n : nat)
  | ABool (b : bool)
  | AAgent (i : nat).

(** The calls on the records of a [DB]. *)
Inductive db_request :=
  | DPut (key value : bytes)
  | DGet (key : bytes)
  | DDelete (key : bytes)
  | DLoad (records : list (bytes * bytes))
  | DScan (prefix : bytes) (limit : nat)
  | DKeys (prefix : bytes) (limit : nat)
  | DDeleteRange (start end_ : bytes)
  | DContains (key : bytes).

(** Keys are strings, and the ends of a range are in order. *)
Definition request_ok (r : db_request) : Prop :=
  match r with
  | DPut k _ => utf8_valid k = true
  | DLoad kvs => Forall (fun k => utf8_valid k = true) kvs.*1
  | DDeleteRange s t => bytes_ltb t s = false
  | _ => True
  end.

Definition answered {A : Type} (f : A -> answer) (p : Prog (res bytes A)) : Prog (res bytes answer) :=
  pbind p (fun r => Ret (f <$> r)).

Definition db_prog (r : db_request) : Prog (res bytes answer) :=
  match r with
  | DPut k v => answered (fun _ => AUnit) (e_put k v)
  | DGet k => answered AValue (pbind (e_get k) (fun v => Ret (Ok v)))
  | DDelete k => answered (fun _ => AUnit) (e_delete k)
  | DLoad kvs => answered ACount (e_bulk kvs)
  | DScan p limit => answered ADocs (prefix_prog scan_doc p limit)
  | DKeys p limit => answered AKeys (prefix_prog (fun kv => from_utf8_lossy kv.1) p limit)
  | DDeleteRange s t => answered ACount (delete_range_prog s t)
  | DContains k => answered ABool (contains_prog k)
  end.

Definition spec_db (m : gmap bytes bytes) (r : db_request) : res bytes answer * gmap bytes bytes :=
  match r with
  | DPut k v => (Ok AUnit, <[k := v]> m)
  | DGet k => (Ok (AValue (m !! k)), m)
  | DDelete k => (Ok AUnit, base.delete k m)
  | DLoad kvs => (Ok (ACount (length kvs)), insert_kvs m kvs)
  | DScan p limit => (Ok (ADocs ((fun kv => record_doc kv.1 kv.2) <$> take limit (with_prefix p m))), m)
  | DKeys p limit => (Ok (AKeys (take limit (with_prefix p m)).*1), m)
  | DDeleteRange s t => (Ok (ACount (length (in_range s t m))), deletes m (in_range s t m).*1)
  | DContains k => (Ok (ABool (bool_decide (is_Some (m !! k)))), m)
  end.

Lemma with_prefix_texts p m limit : texts m -> Forall (fun kv => utf8_valid kv.1 = true) (take limit (with_prefix p m)).
Proof.
  intros Hm. apply Forall_take, Forall_forall. intros [k v] [_ Hk%elem_of_bt_entries]%list_elem_of_filter. apply Hm. by exists v.
Qed.

Lemma run_prefix {A : Type} (f : bytes * bytes -> A) p limit m : texts m ->
  run_map m (prefix_prog f p limit) = (Ok (f <$> take limit (with_prefix p m)), m).
Proof.
  intros Hm. unfold prefix_prog, try_. rewrite run_map_bind. cbn [e_scan run_map spec_eop]. by rewrite scan_prefix.
Qed.

Lemma fmap_ext_Forall {A B : Type} (f g : A -> B) (P : A -> Prop) l : Forall P l -> (forall x, P x -> f x = g x) -> f <$> l = g <$> l.
Proof. induction 1 as [|x l Hx _ IH]; intros H; [done|]. cbn. by rewrite H, IH. Qed.

Lemma run_db m r : texts m -> request_ok r -> run_map m (db_prog r) = spec_db m r /\ texts (spec_db m r).2.
Proof.
  intros Hm Hr. destruct r as [k v|k|k|kvs|p limit|p limit|s t|k]; cbn [db_prog spec_db snd]; unfold answered; rewrite run_map_bind.
  - split; [done|by apply texts_insert].
  - done.
  - split; [done|by apply (texts_deletes [k])].
  - split; [done|by apply texts_insert_kvs].
  - rewrite run_prefix by done. cbn [run_map fmap res_fmap]. split; [|done]. do 3 f_equal.
    apply (fmap_ext_Forall _ _ _ _ (with_prefix_texts p m limit Hm)). intros kv Hkv. unfold scan_doc. by rewrite from_utf8_lossy_valid.
  - rewrite run_prefix by done. cbn [run_map fmap res_fmap]. split; [|done]. do 3 f_equal.
    apply (fmap_ext_Forall _ _ _ _ (with_prefix_texts p m limit Hm)). intros kv Hkv. by rewrite from_utf8_lossy_valid.
  - unfold delete_range_prog, try_. rewrite run_map_bind. cbn [e_scan run_map spec_eop]. unfold map_scan.
    cbn in Hr. rewrite Hr. cbn [fmap res_fmap]. rewrite run_map_bind, run_delete_all. cbn [run_map]. split; [done|by apply texts_deletes].
  - done.
Qed.

(** ** A database and its agents

    The calls on a [DB] and on the agents it created; an agent is named by its place in
    the order of creation. *)
Inductive agent_op :=
  | APut (path content : bytes)
  | ADelete (path : bytes)
  | ALoad (records : list (bytes * bytes))
  | AGet (path : bytes)
  | AScan (prefix : bytes) (limit : nat)
  | ACommit
  | ADiscard
  | AExit (exc : bool).

Inductive call :=
  | OnDb (r : db_request)
  | NewAgent (agent : bytes)
  | OnAgent (i : nat) (o : agent_op).

(** *** The specification: a live map, and a map for each branch *)
Record spec_state := mkSpecState {
  live : gmap bytes bytes;
  branches : gmap bytes (gmap bytes bytes);
  spec_agents : list Agent
}.

Definition set_live (m : gmap bytes bytes) (s : spec_state) : spec_state := mkSpecState m (branches s) (spec_agents s).
Definition set_branch (b : bytes) (m : option (gmap bytes bytes)) (s : spec_state) : spec_state :=
  mkSpecState (live s) (match m with Some m => <[b := m]> (branches s) | None => base.delete b (branches s) end) (spec_agents s).
Definition set_agent (i : nat) (a : Agent) (s : spec_state) : spec_state := mkSpecState (live s) (branches s) (<[i := a]> (spec_agents s)).

(** A write to the agent's branch. *)
Definition spec_write (a : Agent) (f : gmap bytes bytes -> gmap bytes bytes) (r : answer) (s : spec_state) : res bytes answer * spec_state :=
  match branches s !! name a with
  | Some b => (Ok r, set_branch (name a) (Some (f b)) s)
  | None => (Err (str "agent branch not found"), s)
  end.

Definition finished_msg : bytes := str "agent is already committed or rolled back".

(** The branch laid over the live state, and removed. *)
Definition spec_merge (a : Agent) (b : gmap bytes bytes) (s : spec_state) : spec_state :=
  set_branch (name a) None (set_live (b ∪ live s) s).

Definition spec_agent (i : nat) (a : Agent) (o : agent_op) (s : spec_state) : res bytes answer * spec_state :=
  match o with
  | APut k v => if finished a then (Err finished_msg, s) else spec_write a <[k := v]> AUnit s
  | ADelete k => spec_write a (base.delete k) AUnit s
  | ALoad kvs => if finished a then (Err finished_msg, s) else spec_write a (fun b => insert_kvs b kvs) (ACount (length kvs)) s
  | AGet k => (Ok (ADoc (record_doc k <$> match (b ← branches s !! name a; b !! k) with Some v => Some v | None => live s !! k end)), s)
  | AScan p limit => (Ok (ADocs ((fun kv => record_doc kv.1 kv.2) <$> take limit (with_prefix p (live s)))), s)
  | ACommit =>
      if finished a then (Err (str "agent already finished"), s)
      else match branches s !! name a with
           | Some b => (Ok (ACount (size b)), set_agent i (end_agent a) (spec_merge a b s))
           | None => (Err (str "branch not found: " ++ name a), s)
           end
  | ADiscard => (Ok AUnit, if finished a then s else set_agent i (end_agent a) (set_branch (name a) None s))
  | AExit exc =>
      (Ok (ABool false),
       if finished a then s
       else set_agent i (end_agent a)
         (match branches s !! name a with
          | Some b => if exc then set_branch (name a) None s else spec_merge a b s
          | None => s
          end))
  end.

Definition spec_call (s : spec_state) (c : call) : res bytes answer * spec_state :=
  match c with
  | OnDb r => let '(x, m) := spec_db (live s) r in (x, set_live m s)
  | NewAgent n => (Ok (AAgent (length (spec_agents s))),
      mkSpecState (live s) (<[n := live s]> (branches s)) (spec_agents s ++ [mkAgent n false]))
  | OnAgent i o => match spec_agents s !! i with Some a => spec_agent i a o s | None => (Ok AUnit, s) end
  end.

Fixpoint spec_calls (s : spec_state) (cs : list call) : list (res bytes answer) * spec_state :=
  match cs with
  | [] => ([], s)
  | c :: cs' => let '(x, s1) := spec_call s c in let '(xs, s2) := spec_calls s1 cs' in (x :: xs, s2)
  end.

(** *** The implementation *)
Section python.
Context (crc : bytes -> Z) (deflate : bytes -> bytes) (read_dir : fs -> list bytes) (ln : f64 -> f64).
Context (iter : gmap bytes CacheEntry -> list (bytes * CacheEntry)).
Context {I : Type} `{Hops : IndexOps I} `{Hlaws : !IndexLaws I}.
Implicit Types (e : Engine (I := I)) (l : Lock (Engine (I := I))).

Definition pmap {A B : Type} (f : A -> B) (m : PM (I := I) A) : PM (I := I) B := fun l => let '(r, l') := m l in (f <$> r, l').

Record world := mkWorld { shared : Lock (Engine (I := I)); agents : list Agent }.

Section calls.
Context (bg : Engine (I := I) -> Engine (I := I)).

Definition db_call (r : db_request) : PM (I := I) answer :=
  let d := mkDB true in
  match r with
  | DPut k v => pmap (fun _ => AUnit) (DB_put crc ln iter bg d k v)
  | DGet k => pmap AValue (DB_get crc ln iter bg d k)
  | DDelete k => pmap (fun _ => AUnit) (DB_delete crc ln iter bg d k)
  | DLoad kvs => pmap ACount (DB_load crc ln iter bg d kvs)
  | DScan p limit => pmap ADocs (DB_scan crc ln iter bg d p limit)
  | DKeys p limit => pmap AKeys (DB_keys crc ln iter bg d p limit)
  | DDeleteRange s t => pmap ACount (DB_delete_range crc ln iter bg d s t)
  | DContains k => pmap ABool (DB_contains crc ln iter bg d k)
  end.

(** A call on an agent, with the agent afterwards. *)
Definition agent_call (a : Agent) (o : agent_op) l : res bytes answer * Agent * Lock (Engine (I := I)) :=
  let same (x : res bytes answer * Lock Engine) := (x.1, a, x.2) in
  match o with
  | APut k v => same (pmap (fun _ => AUnit) (Agent_put a k v) l)
  | ADelete k => same (pmap (fun _ => AUnit) (Agent_delete a k) l)
  | ALoad kvs => same (pmap ACount (Agent_load a kvs) l)
  | AGet k => same (pmap ADoc (Agent_get crc ln iter bg a k) l)
  | AScan p limit => same (pmap ADocs (Agent_scan crc ln iter bg p limit) l)
  | ACommit => let '(r, a', l') := Agent_commit crc bg a l in (ACount <$> r, a', l')
  | ADiscard => let '(r, a', l') := Agent_discard bg a l in ((fun _ => AUnit) <$> r, a', l')
  | AExit exc => let '(r, a', l') := Agent_exit crc bg a exc l in (ABool <$> r, a', l')
  end.

Definition do_call (w : world) (c : call) : res bytes answer * world :=
  match c with
  | OnDb r => let '(x, l) := db_call r (shared w) in (x, mkWorld l (agents w))
  | NewAgent n => let '(r, l) := DB_agent bg (mkDB true) n (shared w) in
      ((fun _ => AAgent (length (agents w))) <$> r,
       mkWorld l (match r with Ok a => agents w ++ [a] | _ => agents w end))
  | OnAgent i o =>
      match agents w !! i with
      | Some a => let '(x, a', l) := agent_call a o (shared w) in (x, mkWorld l (<[i := a']> (agents w)))
      | None => (Ok AUnit, w)
      end
  end.

Fixpoint do_calls (w : world) (cs : list call) : list (res bytes answer) * world :=
  match cs with
  | [] => ([], w)
  | c :: cs' => let '(x, w1) := do_call w c in let '(xs, w2) := do_calls w1 cs' in (x :: xs, w2)
  end.
End calls.

(** *** The refinement *)
Section refinement.
Context (ks : gset bytes) (Hks : no_collision ks).
Context (cap : Z) (Hcap : cap <= 2 ^ 63).
Context (Hln : forall n, Z.of_nat n < cap -> bloom_fits ln n).

Abbreviation worker io := (settle (I := I) deflate read_dir io).
Abbreviation safe := (prog_safe crc deflate read_dir ln iter ks cap).
Abbreviation count := (prog_count crc deflate read_dir ln iter).
Abbreviation engine_of w := (guarded (shared w)).

Definition branch_ok (h : Hamt) : Prop := hamt_wf h /\ dom (Hamt.view h) ⊆ ks /\ texts (Hamt.view h).

Record related (n : Z) (w : world) (s : spec_state) : Prop := {
  rel_lock : poisoned (shared w) = false;
  rel_inv : engine_inv ks n (engine_of w);
  rel_live : Hamt.view (state (engine_of w)) = live s;
  rel_texts : texts (live s);
  rel_branches : Hamt.view <$> snapshots (engine_of w) = branches s;
  rel_ok : map_Forall (fun _ => branch_ok) (snapshots (engine_of w));
  rel_agents : agents w = spec_agents s
}.

(** A merge does not invalidate the cache, so that none of its keys may be cached. *)
Definition mergeable (n : Z) e (b : bytes) : Prop := forall h, snapshots e !! b = Some h ->
  n + Z.of_nat (size (Hamt.view h)) <= cap /\ forall k, is_Some (Hamt.view h !! k) -> Cache.entries (cache e) !! k = None.

Definition agent_safe (n : Z) e (a : Agent) (o : agent_op) : Prop :=
  match o with
  | APut k _ => k ∈ ks /\ utf8_valid k = true
  | ALoad kvs => Forall (fun k => k ∈ ks /\ utf8_valid k = true) kvs.*1
  | AGet _ | AScan _ _ => n + 1 <= cap
  | ACommit | AExit _ => mergeable n e (name a)
  | _ => True
  end.

(** The bound on entries and flushes after the call. *)
Definition agent_count (n : Z) e (a : Agent) (o : agent_op) : Z :=
  match o with
  | AGet _ | AScan _ _ => n + 1
  | ACommit | AExit _ => n + match snapshots e !! name a with Some h => Z.of_nat (size (Hamt.view h)) | None => 0 end
  | _ => n
  end.

Definition call_safe (io : nat) (n : Z) (w : world) (c : call) : Prop :=
  match c with
  | OnDb r => request_ok r /\ safe io n (engine_of w) (db_prog r)
  | NewAgent _ => True
  | OnAgent i o => forall a, agents w !! i = Some a -> agent_safe n (engine_of w) a o
  end.

Definition call_count (io : nat) (n : Z) (w : world) (c : call) : Z :=
  match c with
  | OnDb r => count io n (engine_of w) (db_prog r)
  | NewAgent _ => n
  | OnAgent i o => match agents w !! i with Some a => agent_count n (engine_of w) a o | None => n end
  end.

Fixpoint calls_safe (io : nat) (n : Z) (w : world) (cs : list call) : Prop :=
  match cs with
  | [] => True
  | c :: cs' => call_safe io n w c /\ calls_safe io (call_count io n w c) (do_call (worker io) w c).2 cs'
  end.

Fixpoint calls_count (io : nat) (n : Z) (w : world) (cs : list call) : Z :=
  match cs with
  | [] => n
  | c :: cs' => calls_count io (call_count io n w c) (do_call (worker io) w c).2 cs'
  end.

(** **** Steps *)
Lemma run_prog_snapshots {A : Type} io (p : Prog A) : forall e, snapshots (run_prog crc ln iter (worker io) e p).2 = snapshots e.
Proof.
  induction p as [a|o k IH]; intros e; [done|]. cbn [run_prog]. pose proof (do_eop_snapshots crc ln iter e o) as E.
  destruct (do_eop crc ln iter e o) as [r e1]. by rewrite IH.
Qed.

(** A read or a write under the lock, when nothing panics. *)
Lemma write_calm {A : Type} msg (f : Engine -> res bytes A * Engine) e r e' : f e = (r, e') -> is_panic r = false ->
  write (I := I) msg f (mkLock e false) = (r, mkLock e' false).
Proof. intros E H. unfold write. cbn. by rewrite E, H. Qed.

Lemma read_calm {A : Type} msg (f : Engine -> res bytes A * Engine) e r e' : f e = (r, e') ->
  read (I := I) msg f (mkLock e false) = (r, mkLock e' false).
Proof. intros E. unfold read. cbn. by rewrite E. Qed.

Lemma db_call_prog bg r e : is_panic (run_prog crc ln iter bg e (db_prog r)).1 = false ->
  db_call bg r (mkLock e false) = ((run_prog crc ln iter bg e (db_prog r)).1, mkLock (run_prog crc ln iter bg e (db_prog r)).2 false).
Proof.
  intros Hp. destruct r; cbn [db_prog db_call] in *; unfold answered in *; rewrite run_prog_bind in *;
    unfold pmap, DB_put, DB_get, DB_delete, DB_load, DB_scan, DB_keys, DB_delete_range, DB_contains, opened; cbn [db_open];
    unfold write, read, run; cbn [poisoned guarded]; destruct (run_prog _ _ _ _ _ _) as [[x|x|] e1]; done.
Qed.
Lemma spec_db_calm m r : is_panic (spec_db m r).1 = false.
Proof. by destruct r. Qed.

Lemma step_db io n w s r : related n w s -> call_safe io n w (OnDb r) ->
  exists w', do_call (worker io) w (OnDb r) = ((spec_call s (OnDb r)).1, w') /\
    related (call_count io n w (OnDb r)) w' (spec_call s (OnDb r)).2.
Proof.
  destruct w as [[e p] ags]. intros [Hl Hi Hv Ht Hb Ho Ha] [Hr Hs]. cbn [shared agents guarded poisoned] in *. subst p.
  destruct (run_prog_ok crc deflate read_dir ln iter ks Hks cap Hcap Hln io (db_prog r) n e Hi Hs) as (E1 & E2 & E3 & _).
  destruct (run_db (live s) r Ht Hr) as [Er Ht']. rewrite Hv, Er in E1, E2.
  pose proof (run_prog_snapshots io (db_prog r) e) as Hsn.
  cbn [do_call spec_call shared agents]. rewrite db_call_prog by (rewrite E1; apply spec_db_calm). rewrite E1.
  destruct (spec_db (live s) r) as [x m] eqn:Es. cbn [fst snd] in *. eexists. split; [done|].
  constructor; cbn [shared agents guarded poisoned live branches spec_agents set_live]; rewrite ?Hsn; done.
Qed.

Lemma step_new io n w s b : related n w s -> exists w', do_call (worker io) w (NewAgent b) = ((spec_call s (NewAgent b)).1, w') /\
    related n w' (spec_call s (NewAgent b)).2.
Proof.
  destruct w as [[e p] ags]. intros [Hl Hi Hv Ht Hb Ho Ha]. cbn [shared agents guarded poisoned] in *. subst p.
  cbn [do_call spec_call shared agents]. unfold DB_agent, opened, create_agent, run_em, branch_create. cbn [db_open].
  eassert (branch_create (I := I) b [] e = (Ok b, _)) as Ec by reflexivity.
  pose proof (branch_create_inv ks n e _ b [] b Hi Ec) as Hinv. unfold write. cbn [poisoned guarded map_err fmap res_fmap is_panic fst snd].
  rewrite (settle_idle deflate read_dir io) by (cbn; apply Hi). rewrite Ha. eexists. split; [done|].
  constructor; cbn [shared agents guarded poisoned live branches spec_agents fst snd]; try done.
  - cbn [snapshots set_snapshots]. rewrite fmap_insert, Hb, <- Hv. done.
  - cbn [snapshots set_snapshots]. apply map_Forall_insert_2; [|done]. rewrite <- Hv in Ht. split; [apply Hi|]. split; [apply Hi|exact Ht].
Qed.

(** A write to the branch of an agent. *)
Lemma write_branch n w s a f g : related n w s ->
  (forall h, branch_ok h -> exists h', f h = Ok h' /\ branch_ok h' /\ Hamt.view h' = g (Hamt.view h)) ->
  exists l', write poisoned_msg (branch_write (name a) f) (shared w) =
      (match branches s !! name a with Some _ => Ok tt | None => Err (str "agent branch not found") end, l') /\
    related n (mkWorld l' (agents w))
      (match branches s !! name a with Some b => set_branch (name a) (Some (g b)) s | None => s end).
Proof.
  destruct w as [[e p] ags]. intros [Hl Hi Hv Ht Hb Ho Ha] Hf. cbn [shared agents guarded poisoned] in *. subst p.
  rewrite <- Hb, lookup_fmap. destruct (snapshots e !! name a) as [h|] eqn:Eh; cbn [fmap option_fmap option_map].
  - destruct (Hf h) as (h' & E & Hok & Hg); [by apply (Ho (name a))|]. unfold write. cbn [poisoned guarded].
    unfold branch_write. rewrite Eh, E. eexists. split; [done|].
    constructor; cbn [shared agents guarded poisoned live branches spec_agents set_branch is_panic]; try done.
    + destruct Hi. by constructor.
    + cbn [snapshots set_snapshots]. by rewrite fmap_insert, Hb, Hg.
    + cbn [snapshots set_snapshots]. by apply map_Forall_insert_2.
  - unfold write. cbn [poisoned guarded]. unfold branch_write. rewrite Eh. eexists. split; [done|]. by constructor.
Qed.

Lemma put_branch k v h : k ∈ ks -> utf8_valid k = true -> branch_ok h ->
  exists h', Hamt.put h k v = Ok h' /\ branch_ok h' /\ Hamt.view h' = <[k := v]> (Hamt.view h).
Proof.
  intros Hk Ht (Hwf & Hd & Hx). destruct (put_spec h k v Hwf (no_collision_put ks h k Hks Hd Hk)) as (h' & E & Hwf' & Hv).
  exists h'. split_and!; [done| |done]. split; [done|]. rewrite Hv. split; [rewrite dom_insert; set_solver|by apply texts_insert].
Qed.

Lemma delete_branch k h : branch_ok h ->
  exists h', Hamt.delete h k = Ok h' /\ branch_ok h' /\ Hamt.view h' = base.delete k (Hamt.view h).
Proof.
  intros (Hwf & Hd & Hx). destruct (delete_spec h k Hwf) as (h' & E & Hwf' & Hv).
  exists h'. split_and!; [done| |done]. split; [done|]. rewrite Hv. split; [rewrite dom_delete; set_solver|by apply (texts_deletes [k])].
Qed.

Lemma put_all_branch kvs : Forall (fun k => k ∈ ks /\ utf8_valid k = true) kvs.*1 -> forall h, branch_ok h ->
  exists h', hamt_put_all kvs h = Ok h' /\ branch_ok h' /\ Hamt.view h' = insert_kvs (Hamt.view h) kvs.
Proof.
  induction kvs as [|[k v] kvs IH]; intros Hk h Hh; [by exists h|]. apply Forall_cons in Hk as [[Hk Ht] Hkvs].
  destruct (put_branch k v h Hk Ht Hh) as (h1 & E & Hh1 & Hv). destruct (IH Hkvs h1 Hh1) as (h' & E' & Hh' & Hv').
  exists h'. cbn [hamt_put_all]. rewrite E. cbn [mbind res_bind]. by rewrite E', Hv', Hv.
Qed.
(** The merge of an agent's branch, and its removal. *)
Lemma agent_merge_ok n w s a b : related n w s -> mergeable n (engine_of w) (name a) -> branches s !! name a = Some b ->
  exists e', branch_merge crc (name a) (engine_of w) = (Ok (size b), e') /\ queue (compactor e') = [] /\
    related (n + Z.of_nat (size b)) (mkWorld (mkLock e' false) (agents w)) (spec_merge a b s).
Proof.
  destruct w as [[e p] ags]. intros [Hl Hi Hv Ht Hb Ho Ha] Hm Eb. cbn [shared agents guarded poisoned] in *. subst p.
  rewrite <- Hb, lookup_fmap in Eb. apply fmap_Some in Eb as (h & Eh & ->). destruct (Ho _ _ Eh) as (Hwf & Hd & Hx).
  destruct (Hm h Eh) as [_ Hno].
  destruct (branch_merge_ok crc iter ks Hks n e (name a) h Hi Eh Hwf Hd) as (e' & E & Hv' & _ & Hs & _ & Hinv).
  specialize (Hinv Hno). exists e'. split; [done|]. split; [apply Hinv|].
  constructor; cbn [shared agents guarded poisoned live branches spec_agents spec_merge set_branch set_live]; try done.
  - by rewrite Hv', Hv.
  - intros k. rewrite lookup_union. destruct (Hamt.view h !! k) eqn:E1; [intros _; apply Hx; by eexists|].
    rewrite (left_id None _). apply Ht.
  - by rewrite Hs, fmap_delete, Hb.
  - rewrite Hs. by apply map_Forall_delete.
Qed.

Lemma rollback_ok n w s a : related n w s -> exists x e', branch_rollback (name a) (engine_of w) = (Ok x, e') /\
  queue (compactor e') = [] /\ related n (mkWorld (mkLock e' false) (agents w)) (set_branch (name a) None s).
Proof.
  destruct w as [[e p] ags]. intros [Hl Hi Hv Ht Hb Ho Ha]. cbn [shared agents guarded poisoned] in *. subst p.
  do 2 eexists. split; [done|]. split; [apply Hi|].
  constructor; cbn [shared agents guarded poisoned live branches spec_agents set_branch snapshots set_snapshots]; try done.
  - destruct Hi. by constructor.
  - by rewrite fmap_delete, Hb.
  - by apply map_Forall_delete.
Qed.

(** A program that only reads, under the shared guard. *)
Lemma shared_read_ok {A : Type} io n w s (p : Prog (res bytes A)) r : related n w s -> safe io n (engine_of w) p ->
  count io n (engine_of w) p = n + 1 -> run_map (live s) p = (r, live s) ->
  exists l', read poisoned_msg (run crc ln iter (worker io) p) (shared w) = (r, l') /\ related (n + 1) (mkWorld l' (agents w)) s.
Proof.
  destruct w as [[e q] ags]. intros [Hl Hi Hv Ht Hb Ho Ha] Hs Hc Hr. cbn [shared agents guarded poisoned] in *. subst q.
  destruct (run_prog_ok crc deflate read_dir ln iter ks Hks cap Hcap Hln io p n e Hi Hs) as (E1 & E2 & E3 & _).
  pose proof (run_prog_snapshots io p e) as Hsn. rewrite Hv, Hr in E1, E2. rewrite Hc in E3. unfold read, run. cbn [poisoned guarded].
  destruct (run_prog _ _ _ _ _ _) as [x e']. cbn [fst snd] in *. subst x. eexists. split; [done|].
  constructor; cbn [shared agents guarded poisoned]; rewrite ?Hsn; done.
Qed.

Lemma related_weaken n n' w s : related n w s -> n <= n' -> related n' w s.
Proof. intros [] Hn. constructor; try done. by eapply engine_inv_weaken. Qed.

Lemma write_then {A B : Type} msg (m : EM A) (x : B) l :
  write (I := I) msg (bind m (fun _ => ret x)) l = let '(r, l') := write msg m l in ((fun _ => x) <$> r, l').
Proof. unfold write. destruct (poisoned l); [done|]. unfold bind. by destruct (m (guarded l)) as [[a|y|] e']. Qed.

(** One operation that only reads. *)
Lemma safe_read {A : Type} io n e o (k : _ -> Prog A) f : o = EGet f \/ (exists t, o = EScan f t) -> n + 1 <= cap ->
  (forall r, exists a, k r = Ret a) -> safe io n e (Do o k) /\ count io n e (Do o k) = n + 1.
Proof.
  intros Ho Hn Hk. cbn [prog_safe prog_count]. destruct (Hk (run_eop crc deflate read_dir ln iter io e o).1) as [a ->].
  destruct Ho as [->|[t ->]]; (split; [|done]); (split_and!; [done|by intros x ?%not_elem_of_nil|by intros Hfl|done]).
Qed.

Lemma branch_value n w s a k : related n w s -> snapshot_get (engine_of w) (name a) k = Ok (b ← branches s !! name a; b !! k).
Proof.
  intros [Hl Hi Hv Ht Hb Ho Ha]. unfold snapshot_get. rewrite <- Hb, lookup_fmap.
  destruct (snapshots (engine_of w) !! name a) as [h|] eqn:Eh; [|done]. cbn. apply hamt_get_spec. by apply (Ho (name a)).
Qed.

(** The calls that leave the agent as it is. *)
Definition plain_op (o : agent_op) : bool := match o with ACommit | ADiscard | AExit _ => false | _ => true end.

Lemma step_plain io n w s i a o : related n w s -> plain_op o = true -> agent_safe n (engine_of w) a o -> exists l',
  agent_call (worker io) a o (shared w) = ((spec_agent i a o s).1, a, l') /\
  related (agent_count n (engine_of w) a o) (mkWorld l' (agents w)) (spec_agent i a o s).2.
Proof.
  intros Hrel Ho Hs. destruct o as [k v|k|kvs|k|p limit| | |]; try done; cbn [agent_call agent_safe agent_count spec_agent] in *.
  - destruct Hs as [Hk Ht]. unfold Agent_put, not_finished, pmap. destruct (finished a); [by exists (shared w); destruct w|].
    destruct (write_branch n w s a (fun h => Hamt.put h k v) <[k := v]> Hrel (fun h => put_branch k v h Hk Ht)) as (l' & E & Hr).
    exists l'. rewrite E. unfold spec_write. by destruct (branches s !! name a).
  - unfold Agent_delete, pmap.
    destruct (write_branch n w s a (fun h => Hamt.delete h k) (base.delete k) Hrel (delete_branch k)) as (l' & E & Hr).
    exists l'. rewrite E. unfold spec_write. by destruct (branches s !! name a).
  - unfold Agent_load, not_finished, pmap. destruct (finished a); [by exists (shared w); destruct w|].
    destruct (write_branch n w s a (hamt_put_all kvs) (fun b => insert_kvs b kvs) Hrel (put_all_branch kvs Hs)) as (l' & E & Hr).
    exists l'. rewrite write_then, E. unfold spec_write. by destruct (branches s !! name a).
  - unfold Agent_get, pmap. pose proof (branch_value n w s a k Hrel) as Eb. destruct (b ← branches s !! name a; b !! k) as [v|].
    + unfold read. rewrite (rel_lock _ _ _ Hrel), Eb. eexists. split; [done|]. apply related_weaken with n; [|lia].
      destruct Hrel as [Hl]. destruct w as [[e q] ags]. cbn in Hl. subst q. by constructor.
    + destruct (safe_read io n (engine_of w) (EGet k) (fun r => Ret (Ok (E := bytes) (record_doc k <$> match r with Ok (OValue v) => v | _ => None end))) k)
        as [Hsafe Hcount]; [by left|done|intros r; by eexists|].
      destruct (shared_read_ok io n w s (get_prog k) (Ok (record_doc k <$> live s !! k)) Hrel Hsafe Hcount eq_refl) as (l' & E & Hr).
      unfold read in E |- *. rewrite (rel_lock _ _ _ Hrel) in E |- *. rewrite Eb, E. by exists l'.
  - unfold Agent_scan, pmap.
    destruct (safe_read io n (engine_of w) (EScan p (p ++ [xff])) (fun r => pbind (Ret (match r with
      Ok (OEntries l) => Ok (E := bytes) l | Ok _ => Ok [] | Err e => Err e | Panic => Panic end)) (fun r => match r with
      Ok results => Ret (Ok (scan_doc <$> take limit results)) | Err e => Ret (Err e) | Panic => Ret Panic end)) p)
      as [Hsafe Hcount]; [by right; eexists|done|by intros [[]| |]; eexists|].
    destruct (shared_read_ok io n w s (prefix_prog scan_doc p limit) _ Hrel Hsafe Hcount (run_prefix _ _ _ _ (rel_texts _ _ _ Hrel))) as (l' & E & Hr).
    exists l'. rewrite E. split; [|done]. cbn [fst snd fmap res_fmap]. do 4 f_equal.
    apply (fmap_ext_Forall _ _ _ _ (with_prefix_texts p (live s) limit (rel_texts _ _ _ Hrel))). intros kv Hkv. unfold scan_doc. by rewrite from_utf8_lossy_valid.
Qed.
Lemma related_agent n l ags s i a : related n (mkWorld l ags) s -> related n (mkWorld l (<[i := a]> ags)) (set_agent i a s).
Proof. intros []. constructor; try done. cbn in *. by subst. Qed.

Lemma related_same n l w s i a : related n (mkWorld l (agents w)) s -> agents w !! i = Some a -> related n (mkWorld l (<[i := a]> (agents w))) s.
Proof. intros Hr Ha. by rewrite list_insert_id. Qed.

Lemma merge_missing n w s a : related n w s -> branches s !! name a = None ->
  branch_merge crc (name a) (engine_of w) = (Err (str "branch not found: " ++ name a), engine_of w).
Proof.
  intros [Hl Hi Hv Ht Hb Ho Ha] E. rewrite <- Hb, lookup_fmap in E. apply fmap_None in E. unfold branch_merge. by rewrite E.
Qed.

Lemma merge_count n w s a o : related n w s -> o = ACommit \/ (exists exc, o = AExit exc) ->
  agent_count n (engine_of w) a o = n + match branches s !! name a with Some b => Z.of_nat (size b) | None => 0 end.
Proof.
  intros [Hl Hi Hv Ht Hb Ho Ha] E. rewrite <- Hb, lookup_fmap.
  destruct E as [->|[exc ->]]; cbn [agent_count]; by destruct (snapshots (engine_of w) !! name a).
Qed.

Lemma same_world n w s : related n w s -> w = mkWorld (mkLock (engine_of w) false) (agents w).
Proof. intros [Hl]. destruct w as [[e q] ags]. cbn in *. by subst. Qed.

(** The calls that finish the agent. *)
Lemma step_end io n w s i a o : related n w s -> agents w !! i = Some a -> plain_op o = false -> agent_safe n (engine_of w) a o ->
  exists l' a', agent_call (worker io) a o (shared w) = ((spec_agent i a o s).1, a', l') /\
  related (agent_count n (engine_of w) a o) (mkWorld l' (<[i := a']> (agents w))) (spec_agent i a o s).2.
Proof.
  intros Hrel Ha Ho Hs. pose proof (same_world _ _ _ Hrel) as Hw. set (e := engine_of w) in *.
  assert (shared w = mkLock e false) as Hsh by (by rewrite Hw). pose proof (inv_queue _ _ _ (rel_inv _ _ _ Hrel)) as Hq. fold e in Hq.
  destruct o as [| | | | | | |exc]; try done; cbn [agent_call spec_agent agent_safe] in *; rewrite Hsh.
  - pose proof (merge_count n w s a ACommit Hrel ltac:(by left)) as Ec. fold e in Ec. rewrite Ec. clear Ec. unfold Agent_commit. destruct (finished a) eqn:Hf.
    { do 2 eexists. split; [done|]. apply related_same; [|done]. rewrite <- Hw. apply related_weaken with n; [done|]. destruct (branches s !! name a); lia. }
    unfold write, run_em. cbn [poisoned guarded]. destruct (branches s !! name a) as [b|] eqn:Eb.
    + destruct (agent_merge_ok n w s a b Hrel Hs Eb) as (e' & E & Hq' & Hr). fold e in E. rewrite E. cbn [map_err is_panic].
      rewrite (settle_idle deflate read_dir io) by done. do 2 eexists. split; [done|]. by apply related_agent.
    + pose proof (merge_missing n w s a Hrel Eb) as E. fold e in E. rewrite E. cbn [map_err is_panic].
      rewrite (settle_idle deflate read_dir io) by done. do 2 eexists. split; [done|]. apply related_same; [|done]. rewrite <- Hw, Z.add_0_r. done.
  - unfold Agent_discard. cbn [agent_count]. destruct (finished a) eqn:Hf.
    { do 2 eexists. split; [done|]. apply related_same; [|done]. by rewrite <- Hw. }
    destruct (rollback_ok n w s a Hrel) as (x & e' & E & Hq' & Hr). fold e in E. unfold write, run_em. cbn [poisoned guarded].
    rewrite E. cbn [map_err is_panic]. rewrite (settle_idle deflate read_dir io) by done. do 2 eexists. split; [done|]. by apply related_agent.
  - pose proof (merge_count n w s a (AExit exc) Hrel ltac:(by right; eexists)) as Ec. fold e in Ec. rewrite Ec. clear Ec. unfold Agent_exit. destruct (finished a) eqn:Hf.
    { do 2 eexists. split; [done|]. apply related_same; [|done]. rewrite <- Hw. apply related_weaken with n; [done|]. destruct (branches s !! name a); lia. }
    cbn [poisoned guarded]. destruct exc.
    + destruct (rollback_ok n w s a Hrel) as (x & e' & E & Hq' & Hr). fold e in E. unfold bind at 1. rewrite E. cbn [ret is_panic].
      rewrite (settle_idle deflate read_dir io) by done. do 2 eexists. split; [done|]. cbn [snd]. apply related_agent.
      destruct (branches s !! name a) as [b|] eqn:Eb; [apply related_weaken with n; [done|lia]|].
      rewrite Z.add_0_r. destruct s as [m bs ags]. cbn in Hr, Eb. unfold set_branch in Hr. cbn in Hr. by rewrite delete_id in Hr.
    + destruct (branches s !! name a) as [b|] eqn:Eb.
      * destruct (agent_merge_ok n w s a b Hrel Hs Eb) as (e' & E & Hq' & Hr). fold e in E. unfold bind at 1. rewrite E. cbn [ret is_panic].
        rewrite (settle_idle deflate read_dir io) by done. do 2 eexists. split; [done|]. by apply related_agent.
      * pose proof (merge_missing n w s a Hrel Eb) as E. fold e in E. unfold bind at 1. rewrite E. cbn [is_panic].
        rewrite (settle_idle deflate read_dir io) by done. do 2 eexists. split; [done|]. apply related_agent. by rewrite <- Hw, Z.add_0_r.
Qed.

Lemma step_call io n w s c : related n w s -> call_safe io n w c -> exists w', do_call (worker io) w c = ((spec_call s c).1, w') /\
    related (call_count io n w c) w' (spec_call s c).2.
Proof.
  intros Hrel Hs. destruct c as [r|b|i o]; [by apply step_db|by apply step_new|]. cbn [do_call spec_call call_safe call_count] in *.
  rewrite <- (rel_agents _ _ _ Hrel). destruct (agents w !! i) as [a|] eqn:Ha; [|by exists w].
  specialize (Hs a eq_refl). destruct (plain_op o) eqn:Ho.
  - destruct (step_plain io n w s i a o Hrel Ho Hs) as (l' & -> & Hr). eexists. split; [done|]. by apply related_same.
  - destruct (step_end io n w s i a o Hrel Ha Ho Hs) as (l' & a' & -> & Hr). by eexists.
Qed.

Lemma calls_ok io cs : forall n w s, related n w s -> calls_safe io n w cs ->
  exists w', do_calls (worker io) w cs = ((spec_calls s cs).1, w') /\ related (calls_count io n w cs) w' (spec_calls s cs).2.
Proof.
  induction cs as [|c cs IH]; intros n w s Hrel Hs; [by exists w|]. destruct Hs as [Hs1 Hs2].
  destruct (step_call io n w s c Hrel Hs1) as (w1 & E & Hr1). cbn [do_calls spec_calls calls_count]. rewrite E in *. cbn [snd] in *.
  destruct (spec_call s c) as [x s1]. cbn [fst snd] in *. destruct (IH _ w1 s1 Hr1 Hs2) as (w2 & E2 & Hr2). rewrite E2.
  destruct (spec_calls s1 cs) as [xs s2]. by exists w2.
Qed.
(** C10: from a database that corresponds to the specification (as a new one does), the calls of
    Python programs on the database and on any number of agents, created, written, read, committed,
    discarded or left by an exception in any order, answer exactly what the specification answers: a
    map of strings for the live state and a map for each branch, laid over the live one by a commit;
    no call panics and the lock is never poisoned. The conditions, call by call: no key of a branch
    is cached when the branch is merged (a merge leaves the cache as it is), delete ranges have
    their ends in order, keys are text of distinct hashes, no flush fills level 0 with pages that
    disagree, the entries stay below the limit, and the worker catches up after each operation. *)
Theorem python_refines_branches io n w s cs : related n w s -> calls_safe io n w cs -> exists w',
  do_calls (worker io) w cs = ((spec_calls s cs).1, w') /\ related (calls_count io n w cs) w' (spec_calls s cs).2.
Proof. apply calls_ok. Qed.
End refinement.
End python.

(** ** What the specification says of agents *)

(** The calls of a session before it commits: the ones on the records of the database, and any
    on agents but the ones that merge. *)
Definition uncommitted (c : call) : bool := match c with OnAgent _ ACommit | OnAgent _ (AExit false) => false | _ => true end.

Fixpoint db_requests (cs : list call) : list db_request :=
  match cs with [] => [] | OnDb r :: cs' => r :: db_requests cs' | _ :: cs' => db_requests cs' end.

(** The answers to the calls on the records of the database. *)
Fixpoint db_answers {X : Type} (cs : list call) (xs : list X) : list X :=
  match cs, xs with
  | OnDb _ :: cs', x :: xs' => x :: db_answers cs' xs'
  | _ :: cs', _ :: xs' => db_answers cs' xs'
  | _, _ => []
  end.

Fixpoint spec_dbs (m : gmap bytes bytes) (rs : list db_request) : list (res bytes answer) * gmap bytes bytes :=
  match rs with
  | [] => ([], m)
  | r :: rs' => let '(x, m1) := spec_db m r in let '(xs, m2) := spec_dbs m1 rs' in (x :: xs, m2)
  end.

Lemma uncommitted_live s c : uncommitted c = true -> match c with OnDb _ => True | _ => live (spec_call s c).2 = live s end.
Proof.
  destruct c as [r|b|i o]; [done|done|]. cbn [spec_call]. destruct (spec_agents s !! i) as [a|]; [|done].
  destruct o as [k v|k|kvs|k|p limit| | |[]]; try done; intros _; cbn [spec_agent]; unfold spec_write; repeat case_match; done.
Qed.

Lemma spec_calls_isolated cs : forall s, forallb uncommitted cs = true ->
  spec_dbs (live s) (db_requests cs) = (db_answers cs (spec_calls s cs).1, live (spec_calls s cs).2).
Proof.
  induction cs as [|c cs IH]; intros s H; [done|]. apply andb_prop in H as [Hc Hcs]. pose proof (uncommitted_live s c Hc) as Hl.
  cbn [spec_calls]. destruct (spec_call s c) as [x s1] eqn:E. cbn [snd] in Hl. specialize (IH s1 Hcs).
  destruct (spec_calls s1 cs) as [xs s2]. cbn [fst snd] in *. destruct c as [r|b|i o]; cbn [db_requests db_answers]; [|by rewrite <- Hl..].
  cbn [spec_call spec_dbs] in *. destruct (spec_db (live s) r) as [y m]. injection E as -> <-. cbn [live set_live] in IH. by rewrite IH.
Qed.

(** The writes of a session to the branch of agent [i], which is the only agent called. *)
Definition session_call (i : nat) (c : call) : bool :=
  match c with OnDb _ => true | NewAgent _ => false | OnAgent j o => bool_decide (j = i) && plain_op o end.

Definition session_write (b : gmap bytes bytes) (c : call) : gmap bytes bytes :=
  match c with
  | OnAgent _ (APut k v) => <[k := v]> b
  | OnAgent _ (ADelete k) => base.delete k b
  | OnAgent _ (ALoad kvs) => insert_kvs b kvs
  | _ => b
  end.

Lemma session_spec i a cs : finished a = false -> forall s b, forallb (session_call i) cs = true -> spec_agents s !! i = Some a ->
  branches s !! name a = Some b ->
  let s' := (spec_calls s cs).2 in
  live s' = (spec_dbs (live s) (db_requests cs)).2 /\ branches s' !! name a = Some (foldl session_write b cs) /\ spec_agents s' = spec_agents s.
Proof.
  intros Hf. induction cs as [|c cs IH]; intros s b H Ha Hb; [done|]. apply andb_prop in H as [Hc Hcs]. cbn [spec_calls foldl].
  assert (spec_agents (spec_call s c).2 = spec_agents s /\ branches (spec_call s c).2 !! name a = Some (session_write b c)) as [Ha1 Hb1].
  { destruct c as [r|b'|j o]; [cbn; by destruct (spec_db (live s) r)|done|]. apply andb_prop in Hc as [Hj%bool_decide_eq_true Ho]. subst j.
    cbn [spec_call]. rewrite Ha. destruct o as [k v|k|kvs|k|p limit| | |]; try done; cbn [spec_agent]; rewrite ?Hf; unfold spec_write;
      rewrite ?Hb; cbn [snd spec_agents branches set_branch]; split; try done; by rewrite lookup_insert_eq. }
  assert (live (spec_call s c).2 = match c with OnDb r => (spec_db (live s) r).2 | _ => live s end) as Hl1.
  { destruct c as [r|b'|j o]; [cbn; by destruct (spec_db (live s) r)|done|]. apply (uncommitted_live s (OnAgent j o)).
    apply andb_prop in Hc as [_ Ho]. by destruct o as [| | | | | | |[]]. }
  destruct (spec_call s c) as [x s1]. cbn [snd] in *. destruct (IH s1 (session_write b c) Hcs) as (H1 & H2 & H3); [by rewrite Ha1|done|].
  destruct (spec_calls s1 cs) as [xs s2]. cbn [snd] in *. split_and!; [|done|by rewrite H3].
  rewrite H1, Hl1. destruct c as [r|b'|j o]; cbn [db_requests spec_dbs]; [|done..].
  destruct (spec_db (live s) r) as [y m]. cbn [snd]. by destruct (spec_dbs m (db_requests cs)).
Qed.

Lemma spec_calls_app cs1 cs2 : forall s, spec_calls s (cs1 ++ cs2) =
  let '(xs1, s1) := spec_calls s cs1 in let '(xs2, s2) := spec_calls s1 cs2 in (xs1 ++ xs2, s2).
Proof.
  induction cs1 as [|c cs1 IH]; intros s; cbn [app spec_calls]; [by destruct (spec_calls s cs2)|].
  destruct (spec_call s c) as [x s1]. rewrite IH. destruct (spec_calls s1 cs1) as [xs s2]. by destruct (spec_calls s2 cs2).
Qed.

(** A session: an agent is created, is the only agent called, and commits. *)
Definition session (b : bytes) (i : nat) (cs : list call) : list call := NewAgent b :: cs ++ [OnAgent i ACommit].

Lemma session_exact s b cs : forallb (session_call (length (spec_agents s))) cs = true ->
  let branch := foldl session_write (live s) cs in
  let s' := (spec_calls s (session b (length (spec_agents s)) cs)).2 in
  last (spec_calls s (session b (length (spec_agents s)) cs)).1 = Some (Ok (ACount (size branch))) /\
  live s' = branch ∪ (spec_dbs (live s) (db_requests cs)).2 /\ branches s' !! b = None.
Proof.
  intros H. cbv zeta. unfold session. cbn [spec_calls spec_call]. set (i := length (spec_agents s)) in *.
  set (s1 := mkSpecState (live s) (<[b := live s]> (branches s)) (spec_agents s ++ [mkAgent b false])).
  rewrite spec_calls_app. destruct (session_spec i (mkAgent b false) cs eq_refl s1 (live s) H) as (Hl & Hb & Ha).
  { cbn [s1 spec_agents]. by rewrite lookup_app_r, Nat.sub_diag by done. }
  { cbn [s1 branches name]. by rewrite lookup_insert_eq. }
  destruct (spec_calls s1 cs) as [xs s2]. cbn [snd name] in *. cbn [spec_calls spec_call].
  replace (spec_agents s2 !! i) with (Some (mkAgent b false)) by (rewrite Ha; cbn [s1 spec_agents]; by rewrite lookup_app_r, Nat.sub_diag by done).
  cbn [spec_agent finished name]. rewrite Hb. cbn [fst snd]. split_and!.
  - by rewrite app_comm_cons, last_snoc.
  - unfold spec_merge. cbn [live set_agent set_branch set_live]. by rewrite Hl.
  - unfold spec_merge. cbn [branches set_agent set_branch set_live name]. by rewrite lookup_delete_eq.
Qed.

Section agents.
Context (crc : bytes -> Z) (deflate : bytes -> bytes) (read_dir : fs -> list bytes) (ln : f64 -> f64).
Context (iter : gmap bytes CacheEntry -> list (bytes * CacheEntry)).
Context {I : Type} `{Hops : IndexOps I} `{Hlaws : !IndexLaws I}.
Context (ks : gset bytes) (Hks : no_collision ks).
Context (cap : Z) (Hcap : cap <= 2 ^ 63).
Context (Hln : forall n, Z.of_nat n < cap -> bloom_fits ln n).

Abbreviation run_calls io := (do_calls crc ln iter (settle (I := I) deflate read_dir io)).
Abbreviation related := (related ks (I := I)).
Abbreviation calls_safe := (calls_safe crc deflate read_dir ln iter ks cap (I := I)).
Abbreviation live_view w := (Hamt.view (state (guarded (shared w)))).

(** Whatever agents do short of a merge (put, load and delete documents, read, discard, or
    leave with an exception), the database answers its own calls, and ends, as if there
    were no agents: as the map of its own writes. *)
Theorem agent_writes_isolated io n w s cs : related n w s -> calls_safe io n w cs -> forallb uncommitted cs = true ->
  let '(xs, w') := run_calls io w cs in spec_dbs (live_view w) (db_requests cs) = (db_answers cs xs, live_view w').
Proof.
  intros Hrel Hs Hu. destruct (calls_ok crc deflate read_dir ln iter ks Hks cap Hcap Hln io cs n w s Hrel Hs) as (w' & -> & Hr).
  rewrite (rel_live _ _ _ _ Hrel), (rel_live _ _ _ _ Hr). by apply spec_calls_isolated.
Qed.

(** C11: on a database that corresponds to its specification, an agent is created, its calls and the
    database's interleave in any way, with no other agent in between, and it commits: the commit
    answers the number of keys of the branch, and every key then reads as in the branch (the live
    state at the creation with the agent's writes) when it is there, and as the database last wrote
    it otherwise. So keys the agent deleted stay, against the documentation, and what the database
    wrote meanwhile to a key of the branch is lost. The calls are safe as in
    [python_refines_branches]; in particular no key of the branch is cached at the commit. *)
Theorem agent_session_exact io n w s b cs : related n w s ->
  calls_safe io n w (session b (length (agents w)) cs) -> forallb (session_call (length (agents w))) cs = true ->
  let branch := foldl session_write (live_view w) cs in
  let merged := branch ∪ (spec_dbs (live_view w) (db_requests cs)).2 in
  let '(xs, w') := run_calls io w (session b (length (agents w)) cs) in
  last xs = Some (Ok (ACount (size branch))) /\ live_view w' = merged /\
  snapshots (guarded (shared w')) !! b = None /\ forall k, (Engine.get iter (guarded (shared w')) k).1 = merged !! k.
Proof.
  intros Hrel Hs Hc. cbv zeta.
  destruct (calls_ok crc deflate read_dir ln iter ks Hks cap Hcap Hln io _ n w s Hrel Hs) as (w' & -> & Hr).
  rewrite (rel_live _ _ _ _ Hrel), (rel_live _ _ _ _ Hr). rewrite (rel_agents _ _ _ _ Hrel) in *.
  destruct (session_exact s b cs Hc) as (H1 & H2 & H3). cbv zeta in *. split_and!; [done|done| |].
  - pose proof (rel_branches _ _ _ _ Hr) as Hb. rewrite <- Hb, lookup_fmap in H3. by apply fmap_None in H3.
  - intros k. destruct (get_ok iter ks _ _ k (rel_inv _ _ _ _ Hr)) as (-> & _).
    rewrite <- (inv_content _ _ _ (rel_inv _ _ _ _ Hr)), (rel_live _ _ _ _ Hr). by rewrite H2.
Qed.
End agents.

(** ** Concrete programs, for the witnesses *)
Definition request_okb (r : db_request) : bool :=
  match r with
  | DPut k _ => utf8_valid k
  | DLoad kvs => forallb utf8_valid kvs.*1
  | DDeleteRange s t => negb (bytes_ltb t s)
  | _ => true
  end.

Lemma request_okb_ok r : request_okb r = true -> request_ok r.
Proof.
  destruct r; cbn; try done; [|by intros ?%negb_true_iff]. intros H. apply Forall_forall. intros k Hk.
  rewrite forallb_forall in H. apply H. by apply list_elem_of_In.
Qed.

Section check.
Context {I : Type} `{Hops : IndexOps I}.
Context (crc : bytes -> Z) (deflate : bytes -> bytes) (read_dir : fs -> list bytes) (ln : f64 -> f64).
Context (iter : gmap bytes CacheEntry -> list (bytes * CacheEntry)) (ks : gset bytes) (cap : Z).
Implicit Types (e : Engine (I := I)) (w : world (I := I)).

Definition agent_safeb (n : Z) e (a : Agent) (o : agent_op) : bool :=
  match o with
  | APut k _ => bool_decide (k ∈ ks) && utf8_valid k
  | ALoad kvs => forallb (fun k => bool_decide (k ∈ ks) && utf8_valid k) kvs.*1
  | AGet _ | AScan _ _ => n + 1 <=? cap
  | ACommit | AExit _ =>
      match snapshots e !! name a with
      | Some h => (n + Z.of_nat (size (Hamt.view h)) <=? cap) && bool_decide (Cache.entries (cache e) = ∅)
      | None => true
      end
  | _ => true
  end.

Lemma agent_safeb_ok n e a o : agent_safeb n e a o = true -> agent_safe ks cap n e a o.
Proof.
  assert (forall k, bool_decide (k ∈ ks) && utf8_valid k = true -> k ∈ ks /\ utf8_valid k = true) as Hk
    by (intros k [?%bool_decide_eq_true ?]%andb_prop; done).
  assert (match snapshots e !! name a with Some h => (n + Z.of_nat (size (Hamt.view h)) <=? cap) && bool_decide (Cache.entries (cache e) = ∅)
    | None => true end = true -> mergeable cap n e (name a)) as Hm.
  { intros H h Eh. rewrite Eh in H. apply andb_prop in H as [Hn Hc%bool_decide_eq_true]. split; [lia|]. intros k _. by rewrite Hc, lookup_empty. }
  destruct o; cbn [agent_safeb agent_safe]; try done; try apply Hk; try apply Hm; try lia.
  intros H. apply Forall_forall. intros k Hin. apply Hk. rewrite forallb_forall in H. apply H. by apply list_elem_of_In.
Qed.

Definition call_safeb (io : nat) (n : Z) w (c : call) : bool :=
  match c with
  | OnDb r => request_okb r && prog_safeb crc deflate read_dir ln iter ks cap io n (guarded (shared w)) (db_prog r)
  | NewAgent _ => true
  | OnAgent i o => match agents w !! i with Some a => agent_safeb n (guarded (shared w)) a o | None => true end
  end.

Lemma calls_safeb io n w c cs : call_safeb io n w c = true ->
  calls_safe crc deflate read_dir ln iter ks cap io (call_count crc deflate read_dir ln iter io n w c)
    (do_call crc ln iter (settle deflate read_dir io) w c).2 cs ->
  calls_safe crc deflate read_dir ln iter ks cap io n w (c :: cs).
Proof.
  intros Hb Hr. split; [|done]. destruct c as [r|b|i o]; cbn [call_safeb call_safe] in *; [|done|].
  - apply andb_prop in Hb as [? ?]. split; [by apply request_okb_ok|by apply prog_safeb_ok].
  - intros a Ha. rewrite Ha in Hb. by apply agent_safeb_ok.
Qed.
End check.

Definition ex_strings : gset bytes := list_to_set [str "a"; str "ab"; str "b"].

Lemma ex_strings_ok : no_collision ex_strings.
Proof. apply distinct_hashes_ok. vm_compute. reflexivity. Qed.

Definition ex_world : world (I := unit) := mkWorld (mkLock sample_engine false) [].
Definition ex_spec : spec_state := mkSpecState ∅ ∅ [].

Lemma ex_related : related ex_strings 0 ex_world ex_spec.
Proof.
  constructor; try done.
  - apply engine_at_inv; [exact ex_strings_ok|done].
  - intros k [v Hv]. cbn in Hv. by rewrite lookup_empty in Hv.
Qed.

(** An agent whose delete does not survive its commit, and one that leaves with an exception. *)
Definition ex_session : list call :=
  [OnAgent 0 (APut (str "b") (str "2")); OnAgent 0 (ADelete (str "a")); OnDb (DPut (str "a") (str "3")); OnAgent 0 (AGet (str "a"))].
Definition ex_calls : list call := OnDb (DPut (str "a") (str "1")) :: NewAgent (str "dev") :: ex_session ++
  [OnDb (DScan (str "a") 5); OnAgent 0 ACommit; OnDb (DGet (str "b")); NewAgent (str "dev"); OnAgent 1 (AExit true)].

Abbreviation ex_run := (do_calls crc32 ln_sample map_to_list (settle (I := unit) (fun b => b) list_names 100)).

Lemma python_refines_branches_witness : (ex_run ex_world ex_calls).1 = (spec_calls ex_spec ex_calls).1.
Proof.
  destruct (python_refines_branches (I := unit) crc32 (fun b => b) list_names ln_sample map_to_list ex_strings ex_strings_ok 17 ltac:(done) bloom_fits_sample
    100 0 ex_world ex_spec ex_calls ex_related) as (w' & E & _).
  - repeat (apply calls_safeb; [vm_compute; reflexivity|]). exact Logic.I.
  - exact (f_equal fst E).
Defined.

Lemma agent_writes_isolated_witness :
  spec_dbs ∅ (db_requests (NewAgent (str "dev") :: ex_session)) =
    (db_answers (NewAgent (str "dev") :: ex_session) (ex_run ex_world (NewAgent (str "dev") :: ex_session)).1,
     Hamt.view (state (guarded (shared (ex_run ex_world (NewAgent (str "dev") :: ex_session)).2)))).
Proof.
  pose proof (agent_writes_isolated (I := unit) crc32 (fun b => b) list_names ln_sample map_to_list ex_strings ex_strings_ok 17 ltac:(done) bloom_fits_sample
    100 0 ex_world ex_spec (NewAgent (str "dev") :: ex_session) ex_related) as H.
  destruct (ex_run ex_world (NewAgent (str "dev") :: ex_session)) as [xs w']. apply H; [|reflexivity].
  repeat (apply calls_safeb; [vm_compute; reflexivity|]). exact Logic.I.
Defined.

Lemma agent_session_exact_witness :
  last (ex_run ex_world (session (str "dev") 0 ex_session)).1 = Some (Ok (ACount 1)).
Proof.
  pose proof (agent_session_exact (I := unit) crc32 (fun b => b) list_names ln_sample map_to_list ex_strings ex_strings_ok 17 ltac:(done) bloom_fits_sample
    100 0 ex_world ex_spec (str "dev") ex_session ex_related) as H.
  destruct (ex_run ex_world (session (str "dev") 0 ex_session)) as [xs w'] eqn:E.
  change (length (agents ex_world)) with 0%nat in H. rewrite E in H. apply H; [|reflexivity].
  repeat (apply calls_safeb; [vm_compute; reflexivity|]). exact Logic.I.
Defined.
