(* ===== verification/PythonEdges.v ===== *)
(** * Edges of the Python classes

    Where the classes of [src/python.rs] do not do what their documentation says: programs of a
    few calls, evaluated on the implementation. *)

From S2P Require Import Prelude Ordered Text Float Fnv Bloom Memtable Wal Page PageStore Compaction BgCompaction Cache Hamt IndexApi QueryApi Engine EngineSpec Recovery Prog Branch AgentEngine Server ServerSpec Python PythonSpec.
From S2P Require Planner.
Local Open Scope Z_scope.

Definition answers (cs : list call) : list (res bytes answer) := (ex_run ex_world cs).1.

Definition found (k v : string) : res bytes answer := Ok (ADoc (Some (record_doc (str k) (str v)))).
Definition value (v : string) : res bytes answer := Ok (AValue (Some (str v))).
Definition done_ : res bytes answer := Ok AUnit.

(** ** What an agent reads *)

(** Its own deletion is not read: the live value is. *)
Lemma agent_reads_deleted :
  answers [OnDb (DPut (str "a") (str "1")); NewAgent (str "dev"); OnAgent 0 (ADelete (str "a")); OnAgent 0 (AGet (str "a"))] =
  [done_; Ok (AAgent 0); done_; found "a" "1"].
Proof. vm_compute. reflexivity. Qed.

(** A key added to the live state after the agent was created is read; its scans read the
    live state only. *)
Lemma agent_reads_newer :
  answers [NewAgent (str "dev"); OnDb (DPut (str "a") (str "1")); OnAgent 0 (AGet (str "a"));
           OnAgent 0 (APut (str "ab") (str "2")); OnAgent 0 (AScan (str "a") 10)] =
  [Ok (AAgent 0); done_; found "a" "1"; done_; Ok (ADocs [record_doc (str "a") (str "1")])].
Proof. vm_compute. reflexivity. Qed.

(** ** What a commit applies *)

(** Deletions are not applied. *)
Lemma commit_forgets_deletes :
  answers [OnDb (DPut (str "a") (str "1")); NewAgent (str "dev"); OnAgent 0 (ADelete (str "a")); OnAgent 0 ACommit; OnDb (DGet (str "a"))] =
  [done_; Ok (AAgent 0); done_; Ok (ACount 0); value "1"].
Proof. vm_compute. reflexivity. Qed.

(** A key the agent did not touch gets back the value it had when the agent was created. *)
Lemma commit_reverts_others :
  answers [OnDb (DPut (str "a") (str "1")); NewAgent (str "dev"); OnDb (DPut (str "a") (str "9")); OnAgent 0 (APut (str "b") (str "2"));
           OnAgent 0 ACommit; OnDb (DGet (str "a"))] =
  [done_; Ok (AAgent 0); done_; done_; Ok (ACount 2); value "1"].
Proof. vm_compute. reflexivity. Qed.

(** ** Lives of agents *)

(** A second agent of the same name takes the branch of the first, with its writes; and an agent
    that has finished still deletes in the branch of its successor. *)
Lemma same_name_same_branch :
  answers [NewAgent (str "dev"); OnAgent 0 (APut (str "a") (str "1")); NewAgent (str "dev"); OnAgent 0 ACommit; OnDb (DGet (str "a"))] =
    [Ok (AAgent 0); done_; Ok (AAgent 1); Ok (ACount 0); Ok (AValue None)] /\
  answers [NewAgent (str "dev"); OnAgent 0 ACommit; NewAgent (str "dev"); OnAgent 1 (APut (str "a") (str "1"));
           OnAgent 0 (ADelete (str "a")); OnAgent 1 ACommit] =
    [Ok (AAgent 0); Ok (ACount 0); Ok (AAgent 1); done_; done_; Ok (ACount 0)].
Proof. split; vm_compute; reflexivity. Qed.

(** A block that ends well reports nothing when the merge has failed. *)
Lemma exit_hides_failure :
  answers [NewAgent (str "dev"); NewAgent (str "dev"); OnAgent 0 (APut (str "a") (str "1")); OnAgent 1 (AExit true);
           OnAgent 0 (AExit false); OnDb (DGet (str "a"))] =
  [Ok (AAgent 0); Ok (AAgent 1); done_; Ok (ABool false); Ok (ABool false); Ok (AValue None)].
Proof. vm_compute. reflexivity. Qed.

(** ** Branch workspaces *)
Abbreviation ex_worker := (settle (I := unit) (fun b => b) list_names 100).
Abbreviation Ex A := (Lock (Engine (I := unit)) -> res bytes A * Lock (Engine (I := unit))).

Definition andthen {A B : Type} (m : Ex A) (f : A -> Ex B) : Ex B := fun l =>
  match m l with (Ok a, l') => f a l' | (Err e, l') => (Err e, l') | (Panic, l') => (Panic, l') end.

Definition ex_client : Client := mkClient true (str "./data").

(** A document written in a branch workspace is in the live state at once, and the merge of the
    branch takes it back. *)
Lemma branch_workspace_writes_live :
  let program : Ex (option bytes * nat * option bytes) :=
    andthen (DB_put crc32 ln_sample map_to_list ex_worker (mkDB true) (str "a") (str "1")) (fun _ =>
    andthen (Client_branch ex_worker ex_client (str "dev") (str "main")) (fun w =>
    andthen (Workspace_put crc32 ln_sample map_to_list ex_worker (str "a") (str "2")) (fun _ =>
    andthen (DB_get crc32 ln_sample map_to_list ex_worker (mkDB true) (str "a")) (fun before =>
    andthen (Workspace_merge_to_main crc32 ex_worker w) (fun n =>
    andthen (DB_get crc32 ln_sample map_to_list ex_worker (mkDB true) (str "a")) (fun after =>
    fun l => (Ok (before, n, after), l))))))) in
  (program (mkLock sample_engine false)).1 = Ok (Some (str "2"), 1%nat, Some (str "1")).
Proof. vm_compute. reflexivity. Qed.

(** ** Ranges, counts and the end *)
Section edges.
Context (crc : bytes -> Z) (ln : f64 -> f64) (iter : gmap bytes CacheEntry -> list (bytes * CacheEntry)).
Context {I : Type} `{Hops : IndexOps I} (bg : Engine (I := I) -> Engine (I := I)).
Implicit Types (l : Lock (Engine (I := I))).

(** A range with reversed ends panics under the exclusive guard; every later call is an exception. *)
Lemma delete_range_poisons start end_ l : bytes_ltb end_ start = true -> poisoned l = false ->
  let '(r, l') := DB_delete_range crc ln iter bg (mkDB true) start end_ l in
  r = Panic /\ forall k v, DB_put crc ln iter bg (mkDB true) k v l' = (Err lock_msg, l').
Proof.
  intros Hr Hl. unfold DB_delete_range, opened, write, run, delete_range_prog, try_. cbn [db_open]. rewrite Hl, run_prog_bind.
  cbn [e_scan run_prog do_eop]. rewrite scan_reversed by done. by cbn.
Qed.

(** A database whose engine an agent still holds closes without closing: nothing is flushed,
    and the lock is left to the agent. *)
Lemma close_leaves_agents deflate read_dir io dir l :
  DB_close deflate read_dir ln (mkDB true) false io dir l = (mkDB false, StillShared (Ok tt) l).
Proof. done. Qed.

(** Once closed, every call on the database is an exception that changes nothing. *)
Lemma closed_refuses {A : Type} (m : Lock (Engine (I := I)) -> res bytes A * Lock (Engine (I := I))) l :
  opened (mkDB false) m l = (Err closed_msg, l).
Proof. done. Qed.
End edges.

(** The length of a database is that of its memtable, so that it forgets what has been flushed. *)
Lemma len_forgets_flushed :
  let program : Ex (nat * nat) :=
    andthen (DB_put crc32 ln_sample map_to_list ex_worker (mkDB true) (str "a") (str "1")) (fun _ =>
    andthen (DB_len (mkDB true)) (fun before =>
    andthen (Workspace_commit crc32 ln_sample map_to_list ex_worker) (fun _ =>
    andthen (DB_len (mkDB true)) (fun after => fun l => (Ok (before, after), l))))) in
  (program (mkLock sample_engine false)).1 = Ok (1%nat, 0%nat).
Proof. vm_compute. reflexivity. Qed.

(** Which of two keys of equal score comes first depends on the walk of a hash map, which
    differs between runs, so that a search is not a function of the query and the data. *)
Definition tied : list (list Planner.RankedHit) :=
  [[Planner.mkRanked (str "a") f64_zero 0]; [Planner.mkRanked (str "b") f64_zero 0]].

Lemma search_order_is_open :
  Planner.merge_rrf map_to_list tied (f64_lit 60 1) <> Planner.merge_rrf (fun m => rev (map_to_list m)) tied (f64_lit 60 1).
Proof. intros H%(f_equal (fmap Planner.key)). vm_compute in H. discriminate H. Qed.
