(* ===== verification/PythonQuery.v ===== *)
(** * Searches of the Python classes with the manager's indices

    A database whose calls write records, vectors and relations, and the searches over it. The
    records behave as a map, as in [PythonSpec.v], and the indices follow them; a search
    answers documents of the map, and when it answers fewer than it was asked for, all of those that
    hold a word of the text. *)

From S2P Require Import Prelude Ordered Text Float Fnv Bloom Memtable Wal Page PageStore Compaction BgCompaction Cache Hamt IndexApi QueryApi Engine EngineSpec Prog IndexedEngine Recovery Branch AgentEngine Server ServerSpec Python PythonSpec.
From S2P Require Planner Manager ManagerSpec Bm25 Bm25Score Fuzzy Graph Hnsw HnswSpec.
#[local] Existing Instance ManagerSpec.manager_index.
#[local] Existing Instance ManagerSpec.manager_index_laws.
Local Open Scope Z_scope.

(** ** Calls that write *)
Inductive index_call :=
  | Data (r : db_request)
  | Index (key content : bytes) (vector : option (list f32)) (edges : option (list (bytes * bytes)))
  | AddEdge (src dst relation : bytes).

(** What a call does to the records. *)
Definition call_record (c : index_call) : option db_request :=
  match c with Data r => Some r | Index k v _ _ => Some (DPut k v) | AddEdge _ _ _ => None end.

(** What it tells the manager beside them. *)
Definition side_ops (c : index_call) : list ManagerSpec.Op :=
  match c with
  | Data _ => []
  | Index k _ vec edges =>
      match vec with Some v => [ManagerSpec.OpVector k v] | None => [] end ++
      match edges with Some l => (fun e => ManagerSpec.OpEdge k e.1 e.2) <$> l | None => [] end
  | AddEdge s d r => [ManagerSpec.OpEdge s d r]
  end.

Definition call_ops (m : gmap bytes bytes) (c : index_call) : list ManagerSpec.Op :=
  match call_record c with Some r => mop <$> prog_writes m (db_prog r) | None => [] end ++ side_ops c.

Definition spec_index (m : gmap bytes bytes) (c : index_call) : res bytes answer * gmap bytes bytes :=
  match call_record c with Some r => spec_db m r | None => (Ok AUnit, m) end.

Fixpoint spec_indexes (m : gmap bytes bytes) (cs : list index_call) : list (res bytes answer) * gmap bytes bytes :=
  match cs with
  | [] => ([], m)
  | c :: cs' => let '(x, m1) := spec_index m c in let '(xs, m2) := spec_indexes m1 cs' in (x :: xs, m2)
  end.

Fixpoint calls_ops (m : gmap bytes bytes) (cs : list index_call) : list ManagerSpec.Op :=
  match cs with [] => [] | c :: cs' => call_ops m c ++ calls_ops (spec_index m c).2 cs' end.

(** ** Searches *)
Inductive search :=
  | Text (query : bytes) (limit : nat)
  | Related (start relation : bytes) (depth limit : nat)
  | Similar (symbol : bytes) (limit : nat)
  | Near (embedding : list f32) (limit : nat).

Definition search_limit (q : search) : nat :=
  match q with Text _ k | Related _ _ _ k | Similar _ k | Near _ k => k end.

(** The text a search looks up must be ASCII, as the keys are. *)
Definition search_text (q : search) : bytes :=
  match q with Text t _ | Related t _ _ _ | Similar t _ => t | Near _ _ => [] end.

Definition hit_doc (m : gmap bytes bytes) (h : Planner.RankedHit) : Document :=
  mkDocument (from_utf8_lossy (Planner.key h)) (default [] (m !! Planner.key h)) ∅ (Planner.score h).

(** The program that fetches the documents of results, over a map. *)
Lemma run_docs_map {R : Type} (key doc_id : R -> bytes) (sc : R -> f64) m rs :
  run_map m (result_docs key doc_id sc rs) = ((fun r => mkDocument (doc_id r) (default [] (m !! key r)) ∅ (sc r)) <$> rs, m).
Proof.
  induction rs as [|r rs IH]; [done|]. cbn [result_docs]. rewrite run_map_bind. cbn [e_get run_map spec_eop].
  by rewrite run_map_bind, IH.
Qed.

Lemma docs_write_nothing {R : Type} (key doc_id : R -> bytes) (sc : R -> f64) m rs : prog_writes m (result_docs key doc_id sc rs) = [].
Proof.
  revert m. induction rs as [|r rs IH]; intros m; [done|]. cbn [result_docs]. rewrite prog_writes_bind.
  cbn [e_get prog_writes eop_writes run_map spec_eop app fst snd]. by rewrite prog_writes_bind, IH.
Qed.

Section docs.
Context (crc : bytes -> Z) (deflate : bytes -> bytes) (read_dir : fs -> list bytes) (ln : f64 -> f64).
Context (iter : gmap bytes CacheEntry -> list (bytes * CacheEntry)).
Context {I : Type} `{Hops : IndexOps I}.
Context (ks : gset bytes) (cap : Z).

Lemma result_docs_safe {R : Type} (key doc_id : R -> bytes) (sc : R -> f64) io rs : forall n (e : Engine (I := I)),
  n + Z.of_nat (length rs) <= cap ->
  prog_safe crc deflate read_dir ln iter ks cap io n e (result_docs key doc_id sc rs) /\
  prog_count crc deflate read_dir ln iter io n e (result_docs key doc_id sc rs) = n + Z.of_nat (length rs).
Proof.
  induction rs as [|r rs IH]; intros n e Hn; cbn [length] in *; [cbn; lia|]. cbn [result_docs].
  destruct (get_safe crc deflate read_dir ln iter ks cap io n e (key r)) as [Hs Hc]; [lia|]. rewrite prog_count_bind, Hc.
  set (x := run_prog _ _ _ _ _ _). destruct (IH (n + 1) x.2) as [Hs1 Hc1]; [lia|]. rewrite prog_count_bind, Hc1.
  split; [|cbn [prog_count]; lia]. apply prog_safe_bind; [done|]. rewrite Hc. fold x.
  apply prog_safe_bind; [done|]. rewrite Hc1. cbn [prog_safe]. lia.
Qed.
End docs.

(** ** The manager's side *)
Section manager.
Context (crc : bytes -> Z) (deflate : bytes -> bytes) (read_dir : fs -> list bytes) (ln exp : f64 -> f64).
Context (iter : gmap bytes CacheEntry -> list (bytes * CacheEntry)).
Context `{HL : Hnsw.HeapLaws}.
Variable sort_unstable_by : (nat * f64 -> nat * f64 -> comparison) -> list (nat * f64) -> list (nat * f64).
Variable select_nth_unstable_by : nat -> (nat * f64 -> nat * f64 -> comparison) -> list (nat * f64) -> list (nat * f64).
Variable iter_hits : gmap nat nat -> list (nat * nat).
Variable iter_scores : gmap bytes f64 -> list (bytes * f64).

#[local] Instance queried : IndexQuery Manager.IndexManager :=
  manager_query ln sort_unstable_by select_nth_unstable_by iter_hits iter_scores.
#[local] Instance fielded : IndexFields Manager.IndexManager := manager_fields ln exp iter_hits.

Abbreviation MEngine := (Engine (I := Manager.IndexManager)).
Implicit Types (e : MEngine) (l : Lock MEngine) (m : gmap bytes bytes) (ds : list Bm25.Doc).

(** The calls, on an open database. *)
Definition index_call_on (bg : MEngine -> MEngine) (c : index_call) : PM (I := Manager.IndexManager) answer :=
  match c with
  | Data r => db_call crc ln iter bg r
  | Index k v vec edges => pmap (fun _ => AUnit) (DB_index crc ln iter bg (mkDB true) k v vec edges)
  | AddEdge s d r => pmap (fun _ => AUnit) (DB_add_edge (mkDB true) s d r)
  end.

Fixpoint index_calls_on (bg : MEngine -> MEngine) (cs : list index_call) l : list (res bytes answer) * Lock MEngine :=
  match cs with
  | [] => ([], l)
  | c :: cs' => let '(x, l1) := index_call_on bg c l in let '(xs, l2) := index_calls_on bg cs' l1 in (x :: xs, l2)
  end.

Definition search_on (bg : MEngine -> MEngine) (q : search) : PM (I := Manager.IndexManager) (list Document) :=
  match q with
  | Text t k => DB_search crc ln iter bg (mkDB true) t k
  | Related s r d k => DB_search_graph crc ln iter bg (mkDB true) s r d k
  | Similar s k => DB_search_fuzzy crc ln iter bg (mkDB true) s k
  | Near v k => DB_search_vector crc ln iter bg (mkDB true) v k
  end.

(** *** Vectors and relations *)

(** A change of the indices that the keyword index does not see. *)
Definition sided (ds : list Bm25.Doc) e (f : EM (I := Manager.IndexManager) unit) : Prop :=
  ManagerSpec.mgr_ok (indices e) ds -> exists g, f e = (Ok tt, set_indices g e) /\ ManagerSpec.mgr_ok g ds /\
    Manager.bm25 g = Manager.bm25 (indices e).

Lemma sided_ret ds e : sided ds e (ret tt).
Proof. intros Hok. exists (indices e). split; [by destruct e|done]. Qed.

Lemma sided_bind ds e f f' : sided ds e f -> (forall e', sided ds e' f') -> sided ds e (bind f (fun _ => f')).
Proof.
  intros Hf Hf' Hok. destruct (Hf Hok) as (g & E & Hg & Hb). destruct (Hf' (set_indices g e) Hg) as (g' & E' & Hg' & Hb').
  exists g'. unfold bind. rewrite E, E'. cbn [set_indices indices] in Hb'. split; [done|]. split; [done|by rewrite Hb'].
Qed.

Lemma add_edge_sided ds e s d r : sided ds e (add_edge s d r).
Proof.
  intros Hok. destruct (ManagerSpec.on_add_edge_ok (indices e) ds s d r Hok) as (g & E & Hg). exists g.
  unfold add_edge. cbn [idx_on_add_edge fielded manager_fields]. rewrite E. split_and!; [done..|].
  unfold Manager.on_add_edge in E. destruct (Graph.from_str r); [|by injection E as <-].
  destruct (Manager.infallible _); [|done..]. by injection E as <-.
Qed.

Lemma put_vector_sided ds e k v : v <> [] -> sided ds e (put_vector k v).
Proof.
  intros Hv Hok. destruct (ManagerSpec.on_put_vector_ok ln exp (indices e) ds k v Hok Hv) as (g & E & Hg). exists g.
  unfold put_vector. cbn [idx_on_put_vector fielded manager_fields]. rewrite E. split_and!; [done..|].
  unfold Manager.on_put_vector in E. destruct (match Manager.hnsw _ with Some _ => _ | None => _ end) as [[h d]| |]; [|done..].
  cbn [mbind res_bind] in E. by destruct (Hnsw.add _ _ _ _ _); [injection E as <-..|done].
Qed.

Lemma add_edges_sided ds k edges : forall e, sided ds e (add_edges k edges).
Proof.
  induction edges as [|[d r] edges IH]; intros e; [apply sided_ret|]. apply sided_bind; [apply add_edge_sided|exact IH].
Qed.

Lemma index_sides ds e k content vec edges : Forall ManagerSpec.op_ok (side_ops (Index k content vec edges)) ->
  sided ds e (bind (match vec with Some v => put_vector k v | None => ret tt end)
    (fun _ => match edges with Some l => add_edges k l | None => ret tt end)).
Proof.
  intros [Hv _]%Forall_app. apply sided_bind.
  - destruct vec as [v|]; [|apply sided_ret]. apply Forall_cons in Hv as [Hv _]. by apply put_vector_sided.
  - intros e'. destruct edges; [apply add_edges_sided|apply sided_ret].
Qed.

(** Operations on vectors and relations are none on documents and records. *)
Lemma side_ops_docs c ds : foldl ManagerSpec.doc_op ds (side_ops c) = ds.
Proof.
  destruct c as [r|k v vec edges|s d r]; [done| |done]. cbn [side_ops]. rewrite foldl_app.
  destruct edges as [l|]; [|by destruct vec]. replace (foldl _ ds (match vec with Some _ => _ | None => _ end)) with ds by (by destruct vec).
  by induction l.
Qed.

(** *** A database whose indices follow its records *)
Section calls.
Context (ks : gset bytes) (Hks : no_collision ks).
Context (cap : Z) (Hcap : cap <= 2 ^ 63).
Context (Hln : forall n, Z.of_nat n < cap -> bloom_fits ln n).

Abbreviation worker io := (settle (I := Manager.IndexManager) deflate read_dir io).
Abbreviation safe := (prog_safe crc deflate read_dir ln iter ks cap).
Abbreviation count := (prog_count crc deflate read_dir ln iter).
Abbreviation run io := (run_prog crc ln iter (worker io)).

Record indexed (n : Z) l m ds : Prop := {
  ix_lock : poisoned l = false;
  ix_inv : engine_inv ks n (guarded l);
  ix_view : Hamt.view (state (guarded l)) = m;
  ix_texts : texts m;
  ix_mgr : ManagerSpec.mgr_ok (indices (guarded l)) ds;
  ix_tracks : ManagerSpec.tracks ds m
}.

Definition index_safe (io : nat) (n : Z) e (c : index_call) : Prop :=
  match call_record c with Some r => request_ok r /\ safe io n e (db_prog r) | None => True end.

Definition index_count (io : nat) (n : Z) e (c : index_call) : Z :=
  match call_record c with Some r => count io n e (db_prog r) | None => n end.

Lemma run_answered {A : Type} io e (f : A -> answer) p :
  run io e (answered f p) = (f <$> (run io e p).1, (run io e p).2).
Proof. unfold answered. rewrite run_prog_bind. by destruct (run io e p). Qed.

(** The records of a call, and then its vectors and relations. *)
Lemma step_record io n l m ds r : indexed n l m ds -> request_ok r -> safe io n (guarded l) (db_prog r) ->
  let ops := mop <$> prog_writes m (db_prog r) in
  Forall ManagerSpec.op_ok ops -> Bm25.fits (foldl ManagerSpec.doc_op ds ops) ->
  run io (guarded l) (db_prog r) = ((spec_db m r).1, (run io (guarded l) (db_prog r)).2) /\
  indexed (count io n (guarded l) (db_prog r)) (mkLock (run io (guarded l) (db_prog r)).2 false) (spec_db m r).2
    (foldl ManagerSpec.doc_op ds ops).
Proof.
  intros [Hl Hi Hv Ht Hm Htr] Hr Hs ops Hops Hfit.
  destruct (run_prog_ok crc deflate read_dir ln iter ks Hks cap Hcap Hln io (db_prog r) n (guarded l) Hi Hs) as (E1 & E2 & E3 & E4).
  destruct (run_db m r Ht Hr) as [Er Ht']. rewrite Hv in E1, E2, E4. rewrite (idx_writes_ops ln exp) in E4.
  destruct (ManagerSpec.run_ops_ok ln exp ops (indices (guarded l)) ds m Hm Htr Hops Hfit) as (g & Eg & Hg & Htr').
  fold ops in E4. rewrite E4 in Eg. injection Eg as Eg. rewrite Er in E1, E2.
  split; [rewrite <- E1; by destruct (run io (guarded l) (db_prog r))|].
  constructor; cbn [poisoned guarded]; [done..|by rewrite Eg|].
  replace (spec_db m r).2 with (foldl ManagerSpec.map_op m ops); [done|].
  unfold ops. by rewrite <- map_writes_ops, <- run_map_writes, Er.
Qed.

Lemma step_sides n l m ds f : indexed n l m ds -> sided ds (guarded l) f ->
  exists g, f (guarded l) = (Ok tt, set_indices g (guarded l)) /\ indexed n (mkLock (set_indices g (guarded l)) false) m ds.
Proof.
  intros [Hl Hi Hv Ht Hm Htr] Hf. destruct (Hf Hm) as (g & E & Hg & Hb). exists g. split; [exact E|].
  constructor; cbn [poisoned guarded set_indices indices state]; try done. by apply indices_inv.
Qed.

Lemma pmap_write {A B : Type} (f : A -> B) msg (g : MEngine -> res bytes A * MEngine) e a e' : g e = (Ok a, e') ->
  pmap f (opened (mkDB true) (write msg g)) (mkLock e false) = (Ok (f a), mkLock e' false).
Proof. intros E. unfold pmap, opened. cbn [db_open]. by rewrite (write_calm msg g e (Ok a) e' E). Qed.

(** The record is written first, and its vector and relations are added to the engine as it is then. *)
Lemma document_ok io e k v vec edges x e1 : run io e (e_put k v) = (Ok tt, e1) ->
  bind (match vec with Some v => put_vector k v | None => ret tt end)
    (fun _ => match edges with Some l => add_edges k l | None => ret tt end) e1 = x ->
  index_document crc ln iter (worker io) k v vec edges e = x.
Proof. intros E Ex. unfold index_document, bind at 1, Python.run. rewrite E. exact Ex. Qed.

Lemma run_put_ok io e k v a : (run io e (answered (fun _ : unit => AUnit) (e_put k v))).1 = Ok a ->
  run io e (e_put k v) = (Ok tt, (run io e (answered (fun _ : unit => AUnit) (e_put k v))).2).
Proof. rewrite run_answered. generalize (run io e (e_put k v)) as x. by intros [[[]|z|] e1]. Qed.

Lemma DB_index_ok io e k v vec edges e1 e2 : run io e (e_put k v) = (Ok tt, e1) ->
  bind (match vec with Some v => put_vector k v | None => ret tt end)
    (fun _ => match edges with Some l => add_edges k l | None => ret tt end) e1 = (Ok tt, e2) ->
  index_call_on (worker io) (Index k v vec edges) (mkLock e false) = (Ok AUnit, mkLock e2 false).
Proof.
  intros E E2. apply (pmap_write (fun _ : unit => AUnit) _ _ e tt). exact (document_ok io e k v vec edges _ e1 E E2).
Qed.

(** What a call has to show, on the engine under the lock. *)
Definition stepped (io : nat) (n : Z) e m ds (c : index_call) : Prop :=
  exists l', index_call_on (worker io) c (mkLock e false) = ((spec_index m c).1, l') /\
    indexed (index_count io n e c) l' (spec_index m c).2 (foldl ManagerSpec.doc_op ds (call_ops m c)).

Lemma step_data io n e m ds r : indexed n (mkLock e false) m ds -> request_ok r -> safe io n e (db_prog r) ->
  Forall ManagerSpec.op_ok (call_ops m (Data r)) -> Bm25.fits (foldl ManagerSpec.doc_op ds (call_ops m (Data r))) -> stepped io n e m ds (Data r).
Proof.
  intros Hix Hr Hs. unfold stepped, call_ops. cbn [call_record side_ops]. rewrite app_nil_r. intros Hw Hfit.
  destruct (step_record io n _ m ds r Hix Hr Hs Hw Hfit) as [E Hix1]. cbn [guarded] in *.
  eexists. split; [|exact Hix1]. cbn [index_call_on]. rewrite db_call_prog; rewrite E; [done|apply spec_db_calm].
Qed.

Lemma step_document io n e m ds k v vec edges : indexed n (mkLock e false) m ds -> request_ok (DPut k v) -> safe io n e (db_prog (DPut k v)) ->
  Forall ManagerSpec.op_ok (call_ops m (Index k v vec edges)) -> Bm25.fits (foldl ManagerSpec.doc_op ds (call_ops m (Index k v vec edges))) ->
  stepped io n e m ds (Index k v vec edges).
Proof.
  intros Hix Hr Hs. unfold stepped, call_ops. intros [Hw Hside]%Forall_app. rewrite foldl_app, side_ops_docs. intros Hfit.
  destruct (step_record io n _ m ds _ Hix Hr Hs Hw Hfit) as [E Hix1]. cbn [guarded] in E, Hix1.
  destruct (step_sides _ _ _ _ _ Hix1 (index_sides _ _ k v vec edges Hside)) as (g & Eg & Hg). cbn [guarded] in Eg, Hg.
  pose proof (run_put_ok io e k v AUnit (f_equal fst E)) as Ep.
  exists (mkLock (set_indices g (run io e (db_prog (DPut k v))).2) false). split; [exact (DB_index_ok io e k v vec edges _ _ Ep Eg)|exact Hg].
Qed.

Lemma step_edge io n e m ds s d r : indexed n (mkLock e false) m ds -> stepped io n e m ds (AddEdge s d r).
Proof.
  intros Hix. destruct (step_sides _ _ _ _ _ Hix (add_edge_sided ds e s d r)) as (g & Eg & Hg). cbn [guarded] in *.
  eexists. split; [|exact Hg]. by apply (pmap_write (fun _ : unit => AUnit) _ _ e tt).
Qed.

Lemma step_index io n l m ds c : indexed n l m ds -> index_safe io n (guarded l) c ->
  Forall ManagerSpec.op_ok (call_ops m c) -> Bm25.fits (foldl ManagerSpec.doc_op ds (call_ops m c)) ->
  exists l', index_call_on (worker io) c l = ((spec_index m c).1, l') /\
    indexed (index_count io n (guarded l) c) l' (spec_index m c).2 (foldl ManagerSpec.doc_op ds (call_ops m c)).
Proof.
  destruct l as [e p]. intros Hix Hs. pose proof (ix_lock _ _ _ _ Hix) as Hp. cbn in Hp. subst p.
  destruct c as [r|k v vec edges|s d r]; [destruct Hs as [Hr Hs]; by apply step_data|destruct Hs as [Hr Hs]; by apply step_document|].
  intros _ _. by apply step_edge.
Qed.

Fixpoint indexes_safe (io : nat) (n : Z) l (cs : list index_call) : Prop :=
  match cs with
  | [] => True
  | c :: cs' => index_safe io n (guarded l) c /\
      indexes_safe io (index_count io n (guarded l) c) (index_call_on (worker io) c l).2 cs'
  end.

Fixpoint indexes_count (io : nat) (n : Z) l (cs : list index_call) : Z :=
  match cs with
  | [] => n
  | c :: cs' => indexes_count io (index_count io n (guarded l) c) (index_call_on (worker io) c l).2 cs'
  end.

Lemma indexes_ok io cs : forall n l m ds, indexed n l m ds -> indexes_safe io n l cs ->
  Forall ManagerSpec.op_ok (calls_ops m cs) -> Bm25.fits (foldl ManagerSpec.doc_op ds (calls_ops m cs)) ->
  exists l', index_calls_on (worker io) cs l = ((spec_indexes m cs).1, l') /\
    indexed (indexes_count io n l cs) l' (spec_indexes m cs).2 (foldl ManagerSpec.doc_op ds (calls_ops m cs)).
Proof.
  induction cs as [|c cs IH]; intros n l m ds Hix Hs Hops Hfit; [by exists l|].
  destruct Hs as [Hs Hss]. cbn [calls_ops] in *. apply Forall_app in Hops as [Hops Hopss]. rewrite foldl_app in *.
  assert (Bm25.fits (foldl ManagerSpec.doc_op ds (call_ops m c))) as Hfit1.
  { unfold Bm25.fits in *. pose proof (ManagerSpec.doc_ops_volume (calls_ops (spec_index m c).2 cs) (foldl ManagerSpec.doc_op ds (call_ops m c))). lia. }
  destruct (step_index io n l m ds c Hix Hs Hops Hfit1) as (l1 & E & Hix1). rewrite E in Hss.
  destruct (IH _ l1 _ _ Hix1 Hss Hopss Hfit) as (l2 & E2 & Hix2). exists l2.
  cbn [index_calls_on indexes_count spec_indexes]. rewrite E. destruct (spec_index m c) as [x m1]. cbn [fst snd] in *. rewrite E2.
  by destruct (spec_indexes m1 cs).
Qed.

(** *** Searches *)
Hypothesis Hsort : sorts sort_unstable_by.
Hypothesis Hselect : selects select_nth_unstable_by.
Hypothesis Hiter_hits : forall x, iter_hits x ≡ₚ map_to_list x.
Hypothesis Hiter_scores : forall x, iter_scores x ≡ₚ map_to_list x.
Hypothesis Hpos : Bm25Score.ln_positive ln.

(** Fetching the documents of results leaves the database as it was. *)
Lemma run_docs_ok {R : Type} (key doc_id : R -> bytes) (sc : R -> f64) io n e m ds rs :
  indexed n (mkLock e false) m ds -> n + Z.of_nat (length rs) <= cap ->
  exists e', run_docs crc ln iter (worker io) (result_docs key doc_id sc rs) e =
      (Ok ((fun r => mkDocument (doc_id r) (default [] (m !! key r)) ∅ (sc r)) <$> rs), e') /\
    indexed (n + Z.of_nat (length rs)) (mkLock e' false) m ds.
Proof.
  intros [Hl Hi Hv Ht Hm Htr] Hn. cbn [guarded] in *.
  destruct (result_docs_safe crc deflate read_dir ln iter ks cap key doc_id sc io rs n e Hn) as [Hs Hc].
  destruct (run_prog_ok crc deflate read_dir ln iter ks Hks cap Hcap Hln io _ n e Hi Hs) as (E1 & E2 & E3 & E4).
  rewrite run_docs_map, Hv in E1, E2. rewrite Hc in E3. cbn [fst snd] in *.
  rewrite docs_write_nothing in E4.
  unfold run_docs. destruct (run io e _) as [docs e'] eqn:E. cbn [fst snd] in *. exists e'. split; [by rewrite E1|].
  injection E4 as E4. constructor; cbn [poisoned guarded]; try done. by rewrite <- E4.
Qed.

(** What a query of the plan answers, of a map of records: documents of it, each found by an index
    of the plan, best first; fewer than asked for only when no other record holds a word of the text. *)
Record ranked_answer (g : Manager.IndexManager) m (spec : Planner.QuerySpec) (docs : list Document) : Prop := {
  ra_docs : exists hits, docs = hit_doc m <$> hits /\ NoDup (Planner.key <$> hits) /\ in_order Planner.by_score hits /\
    forall h, h ∈ hits -> exists step, step ∈ Planner.plan spec /\ answers g m spec step (Planner.key h);
  ra_complete : (length docs < Planner.top_k spec)%nat -> Z.of_nat (Planner.top_k spec) < 2 ^ 63 ->
    Planner.has_text spec = true ->
    forall x v t, x <> [] -> m !! x = Some v -> t ∈ Bm25.tokenize (Planner.text spec) -> t ∈ Bm25.tokens_of x ++ Bm25.tokens_of v ->
      exists d, d ∈ docs /\ Python.id d = x /\ content_bytes d = v
}.

(** A document under the value its key has now, or none when it has been deleted since. *)
Definition current m (key : bytes) (d : Document) : Prop := Python.id d = from_utf8_lossy key /\ content_bytes d = default [] (m !! key).

Definition search_answer (g : Manager.IndexManager) m (q : search) (docs : list Document) : Prop :=
  match q with
  | Text t k => ranked_answer g m (text_spec t k) docs
  | Related s r d k => ranked_answer g m (graph_spec s r d k) docs
  | Similar s _ => forall d, d ∈ docs -> exists n, Python.id d ∈ Fuzzy.symbols (Manager.fuzzy g) /\
      content_bytes d = default [] (m !! Python.id d) /\ (n <= Fuzzy.max_distance (Manager.fuzzy g))%nat /\
      Fuzzy.edit_distance (b2z <$> Fuzzy.normalize s) (b2z <$> Fuzzy.normalize (Python.id d)) n
  | Near _ _ => forall d, d ∈ docs -> exists h x vec, Manager.hnsw g = Some h /\ (x, vec) ∈ HnswSpec.contents h /\ current m x d
  end.

Definition searched (io : nat) (n : Z) e m ds (q : search) : Prop :=
  exists docs l', search_on (worker io) q (mkLock e false) = (Ok docs, l') /\ (length docs <= search_limit q)%nat /\
    indexed (n + Z.of_nat (length docs)) l' m ds /\ search_answer (indices e) m q docs.

Lemma query_docs_ok io n e m ds spec : indexed n (mkLock e false) m ds ->
  Fuzzy.ascii (Planner.text spec) /\ Fuzzy.short (Planner.text spec) -> n + Z.of_nat (Planner.top_k spec) <= cap ->
  exists docs e', query_docs crc ln iter (worker io) spec e = (Ok docs, e') /\ (length docs <= Planner.top_k spec)%nat /\
    indexed (n + Z.of_nat (length docs)) (mkLock e' false) m ds /\ ranked_answer (indices e) m spec docs.
Proof.
  intros Hix Htext Hn. pose proof (ix_mgr _ _ _ _ Hix) as Hm. pose proof (ix_tracks _ _ _ _ Hix) as Htr. cbn [guarded] in Hm.
  destruct (ManagerSpec.query_hits_ok ln sort_unstable_by select_nth_unstable_by iter_hits iter_scores Hsort Hselect Hiter_hits
    Hiter_scores (indices e) ds spec Hm Htext) as (hits & g & E & Hsame & Hlen & Hnd & _ & Hord & Hfound).
  assert (indexed n (mkLock (set_indices g e) false) m ds) as Hix1.
  { pose proof (ManagerSpec.same_ok _ _ _ Hm Hsame) as Hg. destruct Hsame as (r & -> & _).
    destruct Hix as [Hl Hi Hv Ht _ _]. constructor; cbn [poisoned guarded] in *; try done. by apply indices_inv. }
  destruct (run_docs_ok Planner.key (fun h => from_utf8_lossy (Planner.key h)) Planner.score io n _ m ds hits Hix1) as (e' & Ed & Hix2); [lia|].
  exists (hit_doc m <$> hits), e'. rewrite length_fmap. split; [|split; [done|split; [done|split]]].
  - unfold query_docs. cbn [idx_query queried manager_query]. by rewrite E.
  - exists hits. split_and!; [done..|]. intros h Hh. destruct (Hfound h Hh) as (step & Hstep & Hf). exists step.
    split; [done|]. by eapply found_answers.
  - rewrite length_fmap. intros Hl Hk Htxt x v t Hx Hxv Ht Htx.
    assert (x ∈ Planner.key <$> hits) as (h & -> & Hh)%list_elem_of_fmap.
    { eapply (ManagerSpec.query_complete ln sort_unstable_by select_nth_unstable_by iter_hits iter_scores Hsort Hselect Hiter_hits
        Hiter_scores Hpos (indices e) ds m spec hits g); try done; [by apply (Planner.plan_exact spec)|].
      apply (ManagerSpec.tracks_found _ _ m); [done|]. split; [done|]. by exists v, t. }
    exists (hit_doc m h). split; [by apply list_elem_of_fmap_2|]. cbn. rewrite Hxv. split; [|done].
    apply from_utf8_lossy_valid. eapply ix_texts; [exact Hix|by eexists].
Qed.

Lemma similar_ok io n e m ds s k : indexed n (mkLock e false) m ds -> Fuzzy.ascii s /\ Fuzzy.short s -> n + Z.of_nat k <= cap ->
  searched io n e m ds (Similar s k).
Proof.
  intros Hix Hs Hn. pose proof (ix_mgr _ _ _ _ Hix) as Hm. cbn [guarded] in Hm.
  destruct (Fuzzy.query_ok iter_hits (Manager.fuzzy (indices e)) s k (Fuzzy.max_distance (Manager.fuzzy (indices e)))
    (ManagerSpec.ok_fuzzy _ _ Hm) Hiter_hits Hs (ManagerSpec.ok_symbols _ _ Hm)) as (ms & js & E & Hlen & _ & Hf & _).
  destruct (run_docs_ok Fuzzy.symbol Fuzzy.symbol Fuzzy.jaccard io n _ m ds ms Hix) as (e' & Ed & Hix2); [lia|].
  eexists _, (mkLock e' false). split.
  { unfold search_on, DB_search_fuzzy, opened. cbn [db_open]. apply read_calm. unfold query_fuzzy.
    cbn [idx_fuzzy fielded manager_fields]. unfold Fuzzy.query. rewrite E. exact Ed. }
  rewrite length_fmap. split; [exact Hlen|split; [exact Hix2|]].
  intros d (r & -> & [i Hr]%list_elem_of_lookup)%list_elem_of_fmap. cbn [Python.id content_bytes].
  destruct (Forall2_lookup_r _ _ _ _ _ Hf Hr) as (j & _ & s' & Hs' & Es & _ & _ & Hd & He). exists (Fuzzy.distance r).
  rewrite Es. split; [by eapply list_elem_of_lookup_2|done].
Qed.

Lemma near_ok io n e m ds v k : indexed n (mkLock e false) m ds -> n + Z.of_nat k <= cap -> searched io n e m ds (Near v k).
Proof.
  intros Hix Hn. pose proof (ix_mgr _ _ _ _ Hix) as Hm. cbn [guarded] in Hm. unfold searched, search_on, DB_search_vector, opened.
  cbn [db_open]. destruct (Manager.hnsw (indices e)) as [h|] eqn:Eh.
  - destruct (HnswSpec.search_keys h v k (Hnsw.ef_search h) (ManagerSpec.ok_hnsw _ _ Hm h Eh)) as (rs & E & Hlen & Hrs).
    destruct (run_docs_ok Hnsw.res_key (fun r => from_utf8_lossy (Hnsw.res_key r))
      (fun r => f64_sub (f64_lit 1 1) (f64_of_f32 (Hnsw.distance r))) io n _ m ds rs Hix) as (e' & Ed & Hix2); [lia|].
    eexists _, (mkLock e' false). split.
    { apply read_calm. unfold query_vector. cbn [idx_vector fielded manager_fields]. rewrite Eh. cbn [fmap option_fmap option_map].
      unfold Hnsw.search. rewrite E. exact Ed. }
    rewrite length_fmap. split; [exact Hlen|split; [exact Hix2|]].
    intros d (r & -> & Hr)%list_elem_of_fmap. destruct (Hrs r Hr) as [vec Hc]. by exists h, (Hnsw.res_key r), vec.
  - exists [], (mkLock e false). split; [|split; [cbn; lia|split; [by rewrite Z.add_0_r|by intros d ?%not_elem_of_nil]]].
    apply read_calm. unfold query_vector. cbn [idx_vector fielded manager_fields]. by rewrite Eh.
Qed.

Lemma searched_ok io n e m ds q : indexed n (mkLock e false) m ds -> Fuzzy.ascii (search_text q) /\ Fuzzy.short (search_text q) ->
  n + Z.of_nat (search_limit q) <= cap -> searched io n e m ds q.
Proof.
  intros Hix Ht Hn. destruct q as [t k|s r d k|s k|v k]; [..|by apply similar_ok|by apply near_ok].
  - destruct (query_docs_ok io n e m ds (text_spec t k) Hix Ht Hn) as (docs & e' & E & Hrest). exists docs, (mkLock e' false).
    split; [|exact Hrest]. by apply write_calm.
  - destruct (query_docs_ok io n e m ds (graph_spec s r d k) Hix Ht Hn) as (docs & e' & E & Hrest). exists docs, (mkLock e' false).
    split; [|exact Hrest]. by apply write_calm.
Qed.

(** C18: on a database that started empty, calls that write records with short ASCII keys, non-empty
    vectors and relations, with delete ranges in order, within the size of the keyword index and
    safe as in [python_refines_branches], are answered as by a map of records; a search with short
    ASCII text is then answered without a panic and changes no record. A search of text or of
    relations answers at most as many documents as asked for, no key twice, best first, each under
    its present value and found by an index of the plan, and when it has text and answers fewer it
    answers every record that holds a word of the text; a fuzzy search answers keys within the edit
    distance, and a vector search keys of vectors, each with its present value. *)
Theorem searches_after_calls io n e0 cs q :
  engine_inv ks n e0 -> indices e0 = Manager.new -> Hamt.view (state e0) = ∅ ->
  indexes_safe io n (mkLock e0 false) cs -> Forall ManagerSpec.op_ok (calls_ops ∅ cs) ->
  Bm25.fits (foldl ManagerSpec.doc_op [] (calls_ops ∅ cs)) ->
  Fuzzy.ascii (search_text q) /\ Fuzzy.short (search_text q) ->
  indexes_count io n (mkLock e0 false) cs + Z.of_nat (search_limit q) <= cap ->
  exists e1 docs e2,
    index_calls_on (worker io) cs (mkLock e0 false) = ((spec_indexes ∅ cs).1, mkLock e1 false) /\
    Hamt.view (state e1) = (spec_indexes ∅ cs).2 /\
    search_on (worker io) q (mkLock e1 false) = (Ok docs, mkLock e2 false) /\
    Hamt.view (state e2) = Hamt.view (state e1) /\ (length docs <= search_limit q)%nat /\
    search_answer (indices e1) (Hamt.view (state e1)) q docs.
Proof.
  intros Hinv Hidx Hview Hs Hops Hfit Htext Hn.
  assert (indexed n (mkLock e0 false) ∅ []) as Hix.
  { constructor; cbn [poisoned guarded]; [done..| | |]; [by intros k [v Hv]; rewrite lookup_empty in Hv| |apply ManagerSpec.tracks_new].
    rewrite Hidx. apply ManagerSpec.new_ok. }
  destruct (indexes_ok io cs n _ ∅ [] Hix Hs Hops Hfit) as ([e1 p1] & E1 & Hix1).
  pose proof (ix_lock _ _ _ _ Hix1) as Hp1. cbn in Hp1. subst p1. pose proof (ix_view _ _ _ _ Hix1) as Hv1. cbn [guarded] in Hv1.
  destruct (searched_ok io _ e1 _ _ q Hix1 Htext Hn) as (docs & [e2 p2] & E2 & Hlen & Hix2 & Ha).
  pose proof (ix_lock _ _ _ _ Hix2) as Hp2. cbn in Hp2. subst p2. pose proof (ix_view _ _ _ _ Hix2) as Hv2. cbn [guarded] in Hv2.
  exists e1, docs, e2. rewrite Hv1, Hv2. done.
Qed.

(** *** A check by evaluation *)
Definition index_safeb (io : nat) (n : Z) e (c : index_call) : bool :=
  match call_record c with
  | Some r => request_okb r && prog_safeb crc deflate read_dir ln iter ks cap io n e (db_prog r)
  | None => true
  end.

Lemma indexes_safeb io n l c cs : index_safeb io n (guarded l) c = true ->
  indexes_safe io (index_count io n (guarded l) c) (index_call_on (worker io) c l).2 cs -> indexes_safe io n l (c :: cs).
Proof.
  intros Hc Hs. split; [|exact Hs]. unfold index_safe, index_safeb in *. destruct (call_record c) as [r|]; [|done].
  apply andb_prop in Hc as [Hr Hp]. split; [by apply request_okb_ok|by apply prog_safeb_ok].
Qed.

End calls.
End manager.

(** ** A database, for the witness *)
#[local] Existing Instance HnswSpec.list_heap.
#[local] Existing Instance HnswSpec.list_heap_laws.

Definition index_keys : gset bytes := list_to_set [str "auth.rs"; str "log.rs"].

Lemma index_keys_ok : no_collision index_keys.
Proof. apply distinct_hashes_ok. vm_compute. reflexivity. Qed.

Definition ex_index_calls : list index_call :=
  [Data (DPut (str "auth.rs") (str "validate token"));
   Index (str "log.rs") (str "write password") (Some [f32_lit 1 1; f32_lit 1 2]) (Some [(str "auth.rs", str "calls")]);
   AddEdge (str "auth.rs") (str "log.rs") (str "calls"); Data (DPut (str "auth.rs") (str "check password")); Data (DDelete (str "log.rs"))].

Definition ex_half (x : f64) : f64 := f64_lit 1 2.

Abbreviation ex_calls_on := (index_calls_on crc32 ln_sample ex_half map_to_list map_to_list (settle (I := Manager.IndexManager) (fun b => b) list_names 100)).
Abbreviation ex_search_on := (search_on crc32 ln_sample ex_half map_to_list sort_by (fun _ => sort_by) map_to_list map_to_list
  (settle (I := Manager.IndexManager) (fun b => b) list_names 100)).
Definition ex_docs : list Bm25.Doc := foldl ManagerSpec.doc_op [] (calls_ops ∅ ex_index_calls).

Lemma index_ops : calls_ops ∅ ex_index_calls =
  [ManagerSpec.OpPut (str "auth.rs") (str "validate token"); ManagerSpec.OpPut (str "log.rs") (str "write password");
   ManagerSpec.OpVector (str "log.rs") [f32_lit 1 1; f32_lit 1 2]; ManagerSpec.OpEdge (str "log.rs") (str "auth.rs") (str "calls");
   ManagerSpec.OpEdge (str "auth.rs") (str "log.rs") (str "calls"); ManagerSpec.OpPut (str "auth.rs") (str "check password");
   ManagerSpec.OpDelete (str "log.rs")].
Proof. vm_compute. reflexivity. Qed.

(** The record of a word that is held now is found under its present value. *)
Lemma searches_after_calls_witness : exists e1 docs e2,
  ex_calls_on ex_index_calls (mkLock manager_engine false) = ((spec_indexes ∅ ex_index_calls).1, mkLock e1 false) /\
  ex_search_on (Text (str "password") 3) (mkLock e1 false) = (Ok docs, mkLock e2 false) /\
  exists d, d ∈ docs /\ Python.id d = str "auth.rs" /\ content_bytes d = str "check password".
Proof.
  destruct (searches_after_calls crc32 (fun b => b) list_names ln_sample ex_half map_to_list sort_by (fun _ => sort_by) map_to_list map_to_list
    index_keys index_keys_ok 17 ltac:(done) bloom_fits_sample sort_by_sorts sort_by_selects (fun m => reflexivity _) (fun m => reflexivity _)
    Bm25Score.ln_sample_positive
    100 0 manager_engine ex_index_calls (Text (str "password") 3)) as (e1 & docs & e2 & E1 & Hv & E2 & _ & _ & Ha).
  - apply manager_engine_inv. exact index_keys_ok.
  - reflexivity.
  - vm_compute. reflexivity.
  - repeat (apply indexes_safeb; [vm_compute; reflexivity|]). exact Logic.I.
  - rewrite index_ops. repeat (apply Forall_cons; split; [first [exact Logic.I|by apply ManagerSpec.ascii_short_dec|discriminate]|]). by apply Forall_nil.
  - rewrite index_ops. vm_compute. reflexivity.
  - by apply (ManagerSpec.ascii_short_dec (str "password")).
  - apply Z.leb_le. vm_compute. reflexivity.
  - exists e1, docs, e2. split; [exact E1|]. split; [exact E2|]. destruct Ha as [_ Hall].
    assert ((match (ex_search_on (Text (str "password") 3) (ex_calls_on ex_index_calls (mkLock manager_engine false)).2).1 with
             | Ok l => length l | _ => 3 end <? 3)%nat = true) as Hl by (vm_compute; reflexivity).
    rewrite E1 in Hl. cbn [snd] in Hl. rewrite E2 in Hl. apply Nat.ltb_lt in Hl.
    apply (Hall Hl) with (t := str "password"); [done|done|discriminate|..].
    + rewrite Hv. vm_compute. reflexivity.
    + apply (bool_decide_eq_true_1 _). vm_compute. reflexivity.
    + apply (bool_decide_eq_true_1 _). vm_compute. reflexivity.
Defined.
