(* ===== verification/Connection.v ===== *)
(** * Connections and the command line of [src/bin/uldb.rs]

    The thread of a connection: the handshake (challenge, hello, welcome) and the loop over
    requests, cut where it reads from the client, so that the threads of several
    connections interleave in a transition system. The frames and messages of the protocol, the
    message authentication code, the store of nonces and the routing of a request to a
    handler belong to the ulmp crates: they are the class [UmpWire]. A client is the bytes
    that arrive from it before a read times out; a failure of a write is ignored, as in the code. *)

From S2P Require Import Prelude Ordered Text Float Fnv Bloom Memtable Wal Page PageStore Compaction BgCompaction Cache Hamt IndexApi Engine EngineSpec Prog Server.
Local Open Scope Z_scope.

(** A response, as the binary looks at it. *)
Inductive ResponseView (Opcode : Type) :=
  | VSingle (op : Opcode) (payload : bytes)
  | VStream (frames : list (Opcode * bytes))
  | VDisconnect (op : Opcode) (payload : bytes)
  | VNone.
Arguments VSingle {Opcode} op payload.
Arguments VStream {Opcode} frames.
Arguments VDisconnect {Opcode} op payload.
Arguments VNone {Opcode}.

Class UmpWire `{Hump : Ump} := {
  Header : Type;
  HEADER_SIZE : nat;
  decode_header : bytes -> option Header;
  opcode : Header -> Opcode;
  stream_id : Header -> Z;
  payload_length : Header -> Z;
  opcode_eq_dec :: EqDecision Opcode;
  OP_CHALLENGE : Opcode;
  OP_HELLO : Opcode;
  OP_WELCOME : Opcode;
  OP_PING : Opcode;
  OP_PONG : Opcode;
  OP_GOODBYE : Opcode;
  (** the [token_hash] of a hello that decodes *)
  decode_hello : bytes -> option bytes;
  (** the payload of the pong that answers a ping that decodes *)
  decode_ping : bytes -> option bytes;
  hmac_sha256 : bytes -> bytes -> bytes;
  NonceStore : Type;
  generate : NonceStore -> option bytes * NonceStore;
  consume : NonceStore -> bytes -> bool * NonceStore;
  view : Response -> ResponseView Opcode
}.

(** The binary has an encoder of fields of its own, without the tag of floating-point numbers. *)
Definition enc_field (f : Field) : bytes :=
  let '(tag, data) := f in
  tag :: match tag with
         | x01 => match data with b :: _ => [b] | [] => [] end
         | x03 | x04 => data
         | x0c | x0d => be_bytes 4 (u32 (Z.of_nat (length data))) ++ data
         | _ => []
         end.

Definition enc (fields : list Field) : bytes := mjoin (enc_field <$> fields) ++ [TAG_END].

(** ** The command line *)
Inductive Args :=
  | Exit (code : Z)
  | Serve (port : Z) (data_dir token : bytes).

Definition parse_u16 (s : bytes) : option Z :=
  n ← parse_usize s; if n <? 65536 then Some n else None.

Definition finish_args (port : Z) (data_dir token : bytes) : Args :=
  match token with [] => Exit 1 | _ => Serve port data_dir token end.

(** The loop over the options. A missing value leaves the setting as it is, but for the port,
    which is set back to its default, as it is by a value that is not a port. *)
Fixpoint parse_options (args : list bytes) (port : Z) (data_dir token : bytes) : Args :=
  match args with
  | [] => finish_args port data_dir token
  | opt :: rest =>
      let value := head rest in
      let next (port : Z) (data_dir token : bytes) :=
        match rest with [] => finish_args port data_dir token | _ :: rest' => parse_options rest' port data_dir token end in
      if bool_decide (opt = str "--port") then next (default 7771 (s ← value; parse_u16 s)) data_dir token
      else if bool_decide (opt = str "--data") then next port (default data_dir value) token
      else if bool_decide (opt = str "--token") then next port data_dir (default token value)
      else Exit 1
  end.

(** [args] includes the name of the program. *)
Definition parse_args (args : list bytes) : Args :=
  match args with
  | _ :: command :: options =>
      if bool_decide (command = str "--help") || bool_decide (command = str "-h") then Exit 0
      else if bool_decide (command = str "serve") then parse_options options 7771 (str "./data") []
      else Exit 1
  | _ => Exit 0
  end.

Section connection.
Context {I : Type} `{Hwire : UmpWire}.
(** [dispatch] routes a request to a handler; an error is the text of a payload that does not decode. *)
Context (dispatch : Header -> bytes -> UmpHandler (I := I) -> res bytes Response * UmpHandler (I := I)).
Context (token server_name : bytes).

(** ** Frames *)
Record SentFrame := mkFrame { frame_opcode : Opcode; frame_stream : Z; frame_seq : Z; frame_payload : bytes }.

(** [read_exact]: the bytes and the rest, when enough arrive. *)
Definition read_exact (n : nat) (input : bytes) : option (bytes * bytes) :=
  if (length input <? n)%nat then None else Some (take n input, drop n input).

Definition recv_frame (input : bytes) : option (Header * bytes * bytes) :=
  '(hdr, input1) ← read_exact HEADER_SIZE input;
  header ← decode_header hdr;
  '(payload, input2) ← read_exact (Z.to_nat (payload_length header)) input1;
  Some (header, payload, input2).

(** ** A connection *)
Inductive Phase :=
  | Accepted
  | Challenged (nonce : bytes)
  | Ready (seq : Z)
  | Closed.

Record Connection := mkConn { phase : Phase; input : bytes; sent : list SentFrame }.

Definition open_conn (client : bytes) : Connection := mkConn Accepted client [].
Definition closed (c : Connection) : Connection := mkConn Closed (input c) (sent c).

Definition send_frame (c : Connection) (op : Opcode) (stream seq : Z) (payload : bytes) : Connection :=
  mkConn (phase c) (input c) (sent c ++ [mkFrame op stream seq payload]).

(** What the threads share. *)
Record Shared := mkShared { handler : UmpHandler (I := I); nonce_store : Lock NonceStore }.

(** The bits in which the hash differs are collected over the length of the shorter one. *)
Definition hash_diff (expected hash : bytes) : Z :=
  foldl (fun diff ab => Z.lor diff (Z.lxor (b2z ab.1) (b2z ab.2))) 0 (zip expected hash).

Definition token_ok (nonce hash : bytes) : bool :=
  (hash_diff (hmac_sha256 token nonce) hash =? 0) && (length hash =? 32)%nat.

(** The handshake up to the challenge. *)
Definition challenge (c : Connection) (s : Shared) : Connection * Shared :=
  match with_guard (nonce_store s) (fun store => let '(n, store') := generate store in (Ok n, store')) with
  | (Ok (Some nonce), l) =>
      let c1 := send_frame c OP_CHALLENGE 0 0 (enc [bytes_field nonce]) in
      (mkConn (Challenged nonce) (input c1) (sent c1), mkShared (handler s) l)
  | (_, l) => (closed c, mkShared (handler s) l)
  end.

Definition welcome_payload (session_id : Z) : bytes :=
  enc [u64_field session_id; string_field server_name; u32_field (64 * 1024 * 1024); u32_field 128].

(** From the hello to the welcome; [session_id] is read from the clock. *)
Definition hello (session_id : Z) (nonce : bytes) (c : Connection) (s : Shared) : Connection * Shared :=
  match recv_frame (input c) with
  | None => (closed c, s)
  | Some (hdr, payload, rest) =>
      let c1 := mkConn (phase c) rest (sent c) in
      if decide (opcode hdr = OP_HELLO) then
        match decode_hello payload with
        | None => (closed c1, s)
        | Some hash =>
            if token_ok nonce hash then
              match with_guard (nonce_store s) (fun store => let '(b, store') := consume store nonce in (Ok b, store')) with
              | (Ok true, l) =>
                  let c2 := send_frame c1 OP_WELCOME 0 0 (welcome_payload session_id) in
                  (mkConn (Ready 1) (input c2) (sent c2), mkShared (handler s) l)
              | (_, l) => (closed c1, mkShared (handler s) l)
              end
            else (closed c1, s)
        end
      else (closed c1, s)
  end.

(** The frames of a streamed response, numbered one after another. *)
Fixpoint send_frames (c : Connection) (stream seq : Z) (frames : list (Opcode * bytes)) : Connection * Z :=
  match frames with
  | [] => (c, seq)
  | (op, p) :: frames' => send_frames (send_frame c op stream seq p) stream (u32 (seq + 1)) frames'
  end.

Definition ready (c : Connection) (seq : Z) : Connection := mkConn (Ready seq) (input c) (sent c).

Definition send_response (c : Connection) (stream seq : Z) (r : Response) : Connection :=
  match view r with
  | VSingle op p => ready (send_frame c op stream seq p) (u32 (seq + 1))
  | VStream frames => let '(c', seq') := send_frames c stream seq frames in ready c' seq'
  | VDisconnect op p => closed (send_frame c op stream seq p)
  | VNone => ready c seq
  end.

Definition decode_error (x : bytes) : Response :=
  Single OP_ERROR (enc [u8_field x21; u32_field 0; string_field (str "decode error: " ++ x)]).

(** A request that was given to the handler, and what it answered. *)
Definition Handled : Type := Header * bytes * res bytes Response.

(** One turn of the request loop. *)
Definition request_turn (shutdown : bool) (seq : Z) (c : Connection) (s : Shared) : Connection * Shared * option Handled :=
  if shutdown then (closed c, s, None)
  else match recv_frame (input c) with
  | None => (closed c, s, None)
  | Some (hdr, payload, rest) =>
      let c1 := mkConn (phase c) rest (sent c) in
      if decide (opcode hdr = OP_PING) then
        (ready (send_frame c1 OP_PONG (stream_id hdr) seq (default payload (decode_ping payload))) (u32 (seq + 1)), s, None)
      else if decide (opcode hdr = OP_GOODBYE) then (closed c1, s, None)
      else
        let '(r, h) := dispatch hdr payload (handler s) in
        let s1 := mkShared h (nonce_store s) in
        (match r with
         | Ok resp => send_response c1 (stream_id hdr) seq resp
         | Err x => send_response c1 (stream_id hdr) seq (decode_error x)
         | Panic => closed c1
         end, s1, Some (hdr, payload, r))
  end.

(** The next turn of the thread of a connection. *)
Definition turn (shutdown : bool) (clock : Z) (c : Connection) (s : Shared) : Connection * Shared * option Handled :=
  match phase c with
  | Accepted => (challenge c s, None)
  | Challenged nonce => (hello clock nonce c s, None)
  | Ready seq => request_turn shutdown seq c s
  | Closed => (c, s, None)
  end.

(** [handle_connection] on its own, with the clock's readings. *)
Fixpoint handle_connection (fuel : nat) (clock : Z) (c : Connection) (s : Shared) : Connection * Shared :=
  match fuel with
  | O => (c, s)
  | S fuel' => let '(c', s', _) := turn false clock c s in handle_connection fuel' clock c' s'
  end.

(** ** The server: the connections and what they share *)
Record System := mkSystem { shared : Shared; conns : list Connection }.

(** One thread takes a turn; the label is the request it gave to the handler. *)
Inductive step (y : System) : option (nat * Handled) -> System -> Prop :=
  | step_turn i c shutdown clock c' s' ev : conns y !! i = Some c -> turn shutdown clock c (shared y) = (c', s', ev) ->
      step y (pair i <$> ev) (mkSystem s' (<[i := c']> (conns y))).

Inductive reach (y : System) : list (nat * Handled) -> System -> Prop :=
  | reach_refl : reach y [] y
  | reach_step t y1 ev y2 : reach y t y1 -> step y1 ev y2 -> reach y (t ++ option_list ev) y2.

Definition start (s : Shared) (clients : list bytes) : System := mkSystem s (open_conn <$> clients).
End connection.
