(* ===== verification/ConnectionSpec.v ===== *)
(** * What the connection threads promise

    Under any interleaving of the threads, a request reaches the handler only from a client
    that answered its own challenge with the hash of the token, the frames of a session
    are numbered without a gap, and a connection ends when its client's bytes do. *)

From S2P Require Import Prelude Ordered Text Float Fnv Namespace Bloom Memtable Wal Page PageStore Compaction BgCompaction Cache Hamt IndexApi QueryApi Engine EngineSpec Recovery Prog Server ServerSpec Connection.
Local Open Scope Z_scope.

(** ** The comparison of hashes *)
Lemma hash_diff_zero a b : forall acc,
  foldl (fun diff ab => Z.lor diff (Z.lxor (b2z ab.1) (b2z ab.2))) acc (zip a b) = 0 <->
  acc = 0 /\ take (length b) a = take (length a) b.
Proof.
  revert b. induction a as [|x a IH]; intros [|y b] acc; cbn [zip zip_with foldl length take]; try (split; [done|by intros []]).
  rewrite IH, Z.lor_eq_0_iff, Z.lxor_eq_0_iff. cbn [fst snd]. split.
  - intros [[-> ->%(inj b2z)] ->]. done.
  - intros [-> [= -> ->]]. done.
Qed.

Section connection.
Context {I : Type} `{Hwire : UmpWire}.
Context (dispatch : Header -> bytes -> UmpHandler (I := I) -> res bytes Response * UmpHandler (I := I)).
Context (token server_name : bytes).
Implicit Types (s : Shared (I := I)) (c : Connection).

Abbreviation turn := (turn dispatch token server_name).
Abbreviation reach := (reach dispatch token server_name).

(** A hash passes exactly when it is the code of the nonce, all 32 bytes of it. *)
Lemma token_ok_iff nonce hash : length (hmac_sha256 token nonce) = 32%nat ->
  token_ok token nonce hash = true <-> hash = hmac_sha256 token nonce.
Proof.
  intros Hl. unfold token_ok, hash_diff. rewrite andb_true_iff, Z.eqb_eq, hash_diff_zero, Nat.eqb_eq. split.
  - intros [[_ H] H32]. rewrite H32, Hl in H. rewrite !take_ge in H by lia. done.
  - intros ->. by rewrite Hl.
Qed.

(** ** Sessions *)
Definition challenge_frame (nonce : bytes) : SentFrame := mkFrame OP_CHALLENGE 0 0 (enc [bytes_field nonce]).
Definition welcome_frame (session_id : Z) : SentFrame := mkFrame OP_WELCOME 0 0 (welcome_payload server_name session_id).

(** The client's first frame is a hello with the code of the nonce under the token. *)
Definition authentic (nonce client : bytes) : Prop := exists hdr payload rest,
  recv_frame client = Some (hdr, payload, rest) /\ opcode hdr = OP_HELLO /\ decode_hello payload = Some (hmac_sha256 token nonce).

Definition numbered (frames : list SentFrame) : Prop := forall j f, frames !! j = Some f -> frame_seq f = u32 (1 + Z.of_nat j).

(** A session sends the challenge, the welcome, and answers numbered from 1. *)
Definition in_session (client : bytes) (answers : list SentFrame) (c : Connection) : Prop := exists nonce session_id,
  sent c = challenge_frame nonce :: welcome_frame session_id :: answers /\ authentic nonce client /\ numbered answers.

Definition conn_ok (client : bytes) (c : Connection) : Prop :=
  match phase c with
  | Accepted => input c = client /\ sent c = []
  | Challenged nonce => input c = client /\ sent c = [challenge_frame nonce]
  | Ready seq => exists answers, in_session client answers c /\ seq = u32 (1 + Z.of_nat (length answers))
  | Closed => sent c = [] \/ (exists nonce, sent c = [challenge_frame nonce]) \/ exists answers, in_session client answers c
  end.

Lemma u32_next n : u32 (u32 n + 1) = u32 (n + 1).
Proof. unfold u32, wrap. by rewrite Zplus_mod_idemp_l. Qed.

Lemma numbered_snoc frames f : numbered frames -> frame_seq f = u32 (1 + Z.of_nat (length frames)) -> numbered (frames ++ [f]).
Proof.
  intros H Hf j g [[_ Hg]|[-> <-]]%lookup_snoc_Some; [by apply H|done].
Qed.

Lemma session_send client answers c op stream payload : in_session client answers c ->
  exists answers', in_session client answers' (send_frame c op stream (u32 (1 + Z.of_nat (length answers))) payload) /\
    length answers' = S (length answers).
Proof.
  intros (nonce & sid & Hs & Ha & Hn). eexists (answers ++ [_]). split; [|by rewrite length_app, Nat.add_comm].
  exists nonce, sid. cbn [send_frame sent]. rewrite Hs. split_and!; [done|done|by apply numbered_snoc].
Qed.

Lemma session_sends client stream frames : forall answers c, in_session client answers c ->
  let '(c', seq') := send_frames c stream (u32 (1 + Z.of_nat (length answers))) frames in
  exists answers', in_session client answers' c' /\ seq' = u32 (1 + Z.of_nat (length answers')).
Proof.
  induction frames as [|[op p] frames IH]; intros answers c Hs; cbn [send_frames]; [by exists answers|].
  destruct (session_send client answers c op stream p Hs) as (answers1 & Hs1 & Hl). rewrite u32_next.
  replace (1 + Z.of_nat (length answers) + 1) with (1 + Z.of_nat (length answers1)) by lia. by apply IH.
Qed.

Lemma in_session_phase client answers c c' : sent c' = sent c -> in_session client answers c -> in_session client answers c'.
Proof. intros E (nonce & sid & Hs & Ha). exists nonce, sid. by rewrite E. Qed.

(** In order, and past the welcome. *)
Definition served (client : bytes) (c : Connection) : Prop := conn_ok client c /\ exists answers, in_session client answers c.

Lemma served_ready client answers c : in_session client answers c -> served client (ready c (u32 (1 + Z.of_nat (length answers)))).
Proof.
  intros Hs. assert (in_session client answers (ready c (u32 (1 + Z.of_nat (length answers))))) as Hs' by (by eapply in_session_phase).
  split; by exists answers.
Qed.

Lemma served_closed client answers c : in_session client answers c -> served client (closed c).
Proof.
  intros Hs. assert (in_session client answers (closed c)) as Hs' by (by eapply in_session_phase).
  split; [right; right|]; by exists answers.
Qed.

Lemma served_sent client answers c op stream payload : in_session client answers c ->
  served client (ready (send_frame c op stream (u32 (1 + Z.of_nat (length answers))) payload) (u32 (u32 (1 + Z.of_nat (length answers)) + 1))).
Proof.
  intros Hs. destruct (session_send client answers c op stream payload Hs) as (answers1 & Hs1 & Hl). rewrite u32_next.
  replace (1 + Z.of_nat (length answers) + 1) with (1 + Z.of_nat (length answers1)) by lia. by apply served_ready.
Qed.

Lemma served_response client answers c stream r : in_session client answers c ->
  served client (send_response c stream (u32 (1 + Z.of_nat (length answers))) r).
Proof.
  intros Hs. unfold send_response. destruct (view r) as [op p|frames|op p|].
  - by apply served_sent.
  - pose proof (session_sends client stream frames answers c Hs) as H. destruct (send_frames _ _ _ _) as [c' seq'].
    destruct H as (answers1 & Hs1 & ->). by apply served_ready.
  - destruct (session_send client answers c op stream p Hs) as (answers1 & Hs1 & Hl). by eapply served_closed.
  - by apply served_ready.
Qed.

(** The handler is changed by the request that was given to it, and answers it. *)
Definition handled_ok s s' (ev : option Handled) : Prop :=
  match ev with Some (hdr, payload, r) => dispatch hdr payload (handler s) = (r, handler s') | None => handler s' = handler s end.

(** A turn of the request loop. *)
Lemma request_ok client shutdown answers c s c' s' ev : in_session client answers c ->
  request_turn dispatch shutdown (u32 (1 + Z.of_nat (length answers))) c s = (c', s', ev) ->
  served client c' /\ handled_ok s s' ev.
Proof.
  intros Hs. unfold request_turn. pose proof (served_closed client answers c Hs) as Hcl.
  destruct shutdown; [by intros [= <- <- <-]|].
  destruct (recv_frame (input c)) as [[[hdr payload] rest]|]; [|by intros [= <- <- <-]].
  set (c1 := mkConn _ _ _). assert (in_session client answers c1) as Hs1 by (by eapply in_session_phase).
  destruct (decide (opcode hdr = OP_PING)); [intros [= <- <- <-]; split; [by apply served_sent|done]|].
  destruct (decide (opcode hdr = OP_GOODBYE)); [intros [= <- <- <-]; split; [by apply (served_closed client answers)|done]|].
  destruct (dispatch hdr payload (handler s)) as [r h] eqn:Ed. intros [= <- <- <-].
  assert (served client match r with Ok resp => send_response c1 (stream_id hdr) (u32 (1 + Z.of_nat (length answers))) resp
    | Err x => send_response c1 (stream_id hdr) (u32 (1 + Z.of_nat (length answers))) (decode_error x) | Panic => closed c1 end) as H1
    by (destruct r; [by apply served_response..|by apply (served_closed client answers)]).
  by split.
Qed.

(** The handshake. *)
Lemma challenge_ok client c s : input c = client -> sent c = [] ->
  conn_ok client (challenge c s).1 /\ handler (challenge c s).2 = handler s.
Proof.
  intros Hi Hs. unfold challenge, with_guard. destruct (poisoned (nonce_store s)); [split; [by left|done]|].
  destruct (generate (guarded (nonce_store s))) as [[nonce|] store]; (split; [|done]); [|by left]. split; [done|]. cbn. by rewrite Hs.
Qed.

Lemma hello_ok client clock nonce c s : (forall k m, length (hmac_sha256 k m) = 32%nat) -> input c = client ->
  sent c = [challenge_frame nonce] ->
  conn_ok client (hello token server_name clock nonce c s).1 /\ handler (hello token server_name clock nonce c s).2 = handler s.
Proof.
  intros Hlen Hi Hs. assert (forall rest, conn_ok client (closed (mkConn (phase c) rest (sent c)))) as Hc by (intros; right; left; by exists nonce).
  assert (conn_ok client (closed c)) as Hc0 by (right; left; by exists nonce).
  unfold hello. rewrite Hi. destruct (recv_frame client) as [[[hdr payload] rest]|] eqn:Er; [|done].
  destruct (decide (opcode hdr = OP_HELLO)) as [Ho|]; [|by split].
  destruct (decode_hello payload) as [hash|] eqn:Eh; [|by split]. destruct (token_ok token nonce hash) eqn:Et; [|by split].
  apply token_ok_iff in Et as ->; [|done]. unfold with_guard. destruct (poisoned (nonce_store s)); [by split|].
  destruct (consume (guarded (nonce_store s)) nonce) as [[] store]; (split; [|done]); [|apply Hc].
  exists []. split; [|done]. exists nonce, clock. cbn [fst sent send_frame]. rewrite Hs. split_and!; [done| |by intros j f ?].
  by exists hdr, payload, rest.
Qed.

(** A turn keeps a connection in order and in its session; it gives the handler a request only in
    a session, and changes the handler only so. *)
Lemma turn_ok client shutdown clock c s c' s' ev : (forall k m, length (hmac_sha256 k m) = 32%nat) ->
  conn_ok client c -> turn shutdown clock c s = (c', s', ev) ->
  conn_ok client c' /\ handled_ok s s' ev /\
  (is_Some ev \/ (exists answers, in_session client answers c) -> exists answers, in_session client answers c').
Proof.
  intros Hlen. unfold conn_ok at 1, Connection.turn. destruct (phase c) as [|nonce|seq|] eqn:Hp.
  - intros [Hi Hs] E. destruct (challenge_ok client c s Hi Hs) as [H1 H2]. injection E as E <-. rewrite E in H1, H2. split_and!; [done..|].
    intros [[? [=]]|(answers & nonce & sid & Hs' & _)]. congruence.
  - intros [Hi Hs] E. destruct (hello_ok client clock nonce c s Hlen Hi Hs) as [H1 H2]. injection E as E <-. rewrite E in H1, H2.
    split_and!; [done..|]. intros [[? [=]]|(answers & nonce' & sid & Hs' & _)]. congruence.
  - intros (answers & Hs & ->) E. destruct (request_ok client shutdown answers c s c' s' ev Hs E) as [[H1 H2] H3]. by split_and!.
  - intros Hc [= <- <- <-]. split_and!; [|done|by intros [[? [=]]|?]]. unfold conn_ok. by rewrite Hp.
Qed.

Fixpoint dispatch_all (rs : list (Header * bytes)) (h : UmpHandler (I := I)) : list (res bytes Response) * UmpHandler (I := I) :=
  match rs with
  | [] => ([], h)
  | (hdr, payload) :: rs' => let '(r, h1) := dispatch hdr payload h in let '(out, h2) := dispatch_all rs' h1 in (r :: out, h2)
  end.

Lemma dispatch_all_snoc rs hdr payload : forall h, dispatch_all (rs ++ [(hdr, payload)]) h =
  let '(out, h1) := dispatch_all rs h in let '(r, h2) := dispatch hdr payload h1 in (out ++ [r], h2).
Proof.
  induction rs as [|[hdr' payload'] rs IH]; intros h; cbn [app dispatch_all]; [by destruct (dispatch hdr payload h)|].
  destruct (dispatch hdr' payload' h) as [r h1]. rewrite IH. destruct (dispatch_all rs h1) as [out h2].
  by destruct (dispatch hdr payload h2).
Qed.

(** The requests of a trace, and the answers of the handler. *)
Definition asked (t : list (nat * Handled)) : list (Header * bytes) := t.*2.*1.
Definition answered (t : list (nat * Handled)) : list (res bytes Response) := t.*2.*2.

(** What holds of any threads of these clients, after the requests of a trace. *)
Definition sound (h : UmpHandler (I := I)) (clients : list bytes) (t : list (nat * Handled)) (y : System) : Prop :=
  length (conns y) = length clients /\
  (forall i c client, conns y !! i = Some c -> clients !! i = Some client -> conn_ok client c) /\
  (forall i ev, (i, ev) ∈ t -> exists c client answers, conns y !! i = Some c /\ clients !! i = Some client /\ in_session client answers c) /\
  dispatch_all (asked t) h = (answered t, handler (shared y)).

Lemma sound_step h clients t y1 i c shutdown clock c' s' e : (forall k m, length (hmac_sha256 k m) = 32%nat) ->
  sound h clients t y1 -> conns y1 !! i = Some c -> turn shutdown clock c (shared y1) = (c', s', e) ->
  sound h clients (t ++ option_list (pair i <$> e)) (mkSystem s' (<[i := c']> (conns y1))).
Proof.
  intros Hlen (H1 & H2 & H3 & H4) Hi Ht. unfold sound. cbn [conns shared].
  destruct (lookup_lt_is_Some_2 clients i) as [client Hcl]; [rewrite <- H1; by eapply lookup_lt_Some|].
  destruct (turn_ok client shutdown clock c (shared y1) c' s' e Hlen (H2 i c client Hi Hcl) Ht) as (Hok & Hh & He).
  pose proof (lookup_lt_Some _ _ _ Hi) as Hlt. split_and!.
  - by rewrite length_insert.
  - intros j d client' Hd Hcl'. destruct (decide (i = j)) as [<-|Hne].
    + rewrite list_lookup_insert_eq in Hd by done. injection Hd as <-. congruence.
    + rewrite list_lookup_insert_ne in Hd by done. by apply (H2 j).
  - intros j ev Hin. assert (j = i /\ is_Some e \/ (j, ev) ∈ t) as [[-> Hs']|Hin'].
    { apply elem_of_app in Hin as [?|Hin]; [by right|left]. destruct e as [e|]; cbn in Hin; [|by apply not_elem_of_nil in Hin].
      apply list_elem_of_singleton in Hin as [= -> ->]. by eexists. }
    + destruct He as [answers Ha]; [by left|]. exists c', client, answers. by rewrite list_lookup_insert_eq.
    + destruct (H3 j ev Hin') as (d & client' & answers & Hd & Hcl' & Ha). destruct (decide (i = j)) as [<-|Hne].
      * rewrite Hi in Hd. injection Hd as <-. rewrite Hcl in Hcl'. injection Hcl' as <-.
        destruct He as [answers' Ha']; [right; by exists answers|]. exists c', client, answers'. by rewrite list_lookup_insert_eq.
      * exists d, client', answers. by rewrite list_lookup_insert_ne.
  - unfold asked, answered in *. destruct e as [[[hdr payload] r]|]; cbn [fmap option_fmap option_map option_list option_rect]; [|by rewrite app_nil_r, H4, <- Hh].
    rewrite !fmap_app. cbn [fmap list_fmap fst snd]. rewrite dispatch_all_snoc, H4. cbn [handled_ok] in Hh. by rewrite Hh.
Qed.

Lemma reach_ok s clients t y : (forall k m, length (hmac_sha256 k m) = 32%nat) -> reach (start s clients) t y ->
  sound (handler s) clients t y.
Proof.
  intros Hlen Hr. induction Hr as [|t y1 ev y2 Hr IH Hs].
  { unfold sound. cbn. split_and!; [by rewrite length_fmap| |by intros ? ? ?%not_elem_of_nil|done].
    intros i c client Hc Hcl. rewrite list_lookup_fmap, Hcl in Hc. injection Hc as <-. done. }
  inversion Hs as [i c shutdown clock c' s' e Hi Ht]; subst ev y2. by eapply sound_step.
Qed.

(** C13: Under any interleaving of the threads of any clients, every request given to the handler comes
    from a client whose first frame is a hello with the code, under the token, of the nonce in
    the challenge it was sent, and which has been welcomed; the handler answers, and is changed by, these requests
    one after another and nothing else; and every connection sends nothing, or its challenge, or its challenge,
    its welcome and answers numbered from 1 without a gap. *)
Theorem requests_authenticated s clients t y : (forall k m, length (hmac_sha256 k m) = 32%nat) ->
  reach (start s clients) t y ->
  length (conns y) = length clients /\
  (forall i c client, conns y !! i = Some c -> clients !! i = Some client -> conn_ok client c) /\
  (forall i ev, (i, ev) ∈ t -> exists c client answers, conns y !! i = Some c /\ clients !! i = Some client /\ in_session client answers c) /\
  dispatch_all (asked t) (handler s) = (answered t, handler (shared y)).
Proof. apply reach_ok. Qed.

(** ** The end of a connection *)
Lemma read_exact_shorter n bs a rest : read_exact n bs = Some (a, rest) -> (length rest + n = length bs)%nat.
Proof.
  unfold read_exact. destruct (length bs <? n)%nat eqn:E; [done|]. apply Nat.ltb_ge in E. intros [= _ <-]. rewrite length_drop. lia.
Qed.

Lemma recv_shorter bs hdr payload rest : recv_frame bs = Some (hdr, payload, rest) -> (length rest + HEADER_SIZE <= length bs)%nat.
Proof.
  unfold recv_frame. destruct (read_exact HEADER_SIZE bs) as [[a b1]|] eqn:E1; [|done]. cbn [mbind option_bind].
  destruct (decode_header a) as [h|]; cbn [mbind option_bind]; [|done].
  destruct (read_exact (Z.to_nat (payload_length h)) b1) as [[p b2]|] eqn:E2; cbn [mbind option_bind]; [|done]. intros [= _ _ <-].
  apply read_exact_shorter in E1, E2. lia.
Qed.

Lemma send_frames_input stream frames : forall c seq, input (send_frames c stream seq frames).1 = input c.
Proof. induction frames as [|[op p] frames IH]; intros c seq; [done|]. cbn [send_frames]. by rewrite IH. Qed.

(** Turns left, at most. *)
Definition turns_left (c : Connection) : nat :=
  match phase c with Accepted => length (input c) + 3 | Challenged _ => length (input c) + 2 | Ready _ => length (input c) + 1 | Closed => 0 end.

Lemma turns_left_input c bs : input c = bs -> phase c = Closed \/ (exists seq, phase c = Ready seq) -> (turns_left c <= length bs + 1)%nat.
Proof. intros <- [H|[seq H]]; unfold turns_left; rewrite H; lia. Qed.

Lemma response_left c stream seq r : (turns_left (send_response c stream seq r) <= length (input c) + 1)%nat.
Proof.
  apply turns_left_input; unfold send_response; destruct (view r) as [op p|frames|op p|]; try done; try (by left); try (by right; eexists).
  - pose proof (send_frames_input stream frames c seq) as E. by destruct (send_frames c stream seq frames).
  - destruct (send_frames c stream seq frames). by right; eexists.
Qed.

Lemma turn_left clock c s : (0 < HEADER_SIZE)%nat -> phase c <> Closed ->
  (turns_left (turn false clock c s).1.1 < turns_left c)%nat.
Proof.
  intros Hh Hp. unfold turns_left at 2, Connection.turn. destruct (phase c) as [|nonce|seq|] eqn:E; [| | |done].
  - unfold challenge. destruct (with_guard _ _) as [[[nonce|]| |] l]; cbn; lia.
  - unfold hello. destruct (recv_frame (input c)) as [[[hdr payload] rest]|] eqn:Er; [|cbn; lia]. apply recv_shorter in Er.
    destruct (decide _); [|cbn; lia]. destruct (decode_hello payload) as [hash|]; [|cbn; lia].
    destruct (token_ok _ _ _); [|cbn; lia]. destruct (with_guard _ _) as [[[]| |] l]; cbn; lia.
  - unfold request_turn. destruct (recv_frame (input c)) as [[[hdr payload] rest]|] eqn:Er; [|cbn; lia]. apply recv_shorter in Er.
    destruct (decide _); [cbn; lia|]. destruct (decide _); [cbn; lia|]. destruct (dispatch hdr payload (handler s)) as [[resp|x|] h]; cbn [fst];
      [| |cbn; lia]; (eapply Nat.le_lt_trans; [apply response_left|cbn; lia]).
Qed.

(** Turns that are enough for what a client sends: one a byte, and three. *)
Definition turn_bound (client : bytes) : nat := length client + 3.

(** C40: A connection ends: as many turns as the client's bytes and three more close it, whatever
    the bytes are, since every turn of the loop consumes at least a header. *)
Theorem connection_ends fuel clock client s : (0 < HEADER_SIZE)%nat -> (turn_bound client <= fuel)%nat ->
  phase (handle_connection dispatch token server_name fuel clock (open_conn client) s).1 = Closed.
Proof.
  intros Hh. assert (forall fuel c s, (turns_left c <= fuel)%nat ->
    phase (handle_connection dispatch token server_name fuel clock c s).1 = Closed) as H; [|intros Hf; by apply H].
  clear fuel client s. induction fuel as [|fuel IH]; intros c s Hf; cbn [handle_connection].
  - unfold turns_left in Hf. cbn. destruct (phase c); [lia..|done].
  - assert (phase c = Closed \/ phase c <> Closed) as [Hc|Hc] by (destruct (phase c); (by left) || by right).
    + unfold Connection.turn. rewrite Hc. apply IH. unfold turns_left. rewrite Hc. lia.
    + pose proof (turn_left clock c s Hh Hc) as Hl. destruct (turn false clock c s) as [[c' s'] ev]. cbn [fst] in Hl. apply IH. lia.
Qed.
End connection.

(** ** The server from end to end

    The routing of a request decodes its message, in the ulmp crates, and calls the handler
    of [Server.v] for it. *)
Section served.
Context (crc : bytes -> Z) (deflate : bytes -> bytes) (read_dir : fs -> list bytes) (ln : f64 -> f64).
Context (iter : gmap bytes CacheEntry -> list (bytes * CacheEntry)).
Context {I : Type} `{Hops : IndexOps I} `{Hlaws : !IndexLaws I} `{Hquery : IndexQuery I} `{Hwire : UmpWire}.
Context (token server_name : bytes) (decode : Header -> bytes -> res bytes request).

Definition serve (bg : Engine -> Engine) (hdr : Header) (payload : bytes) (h : UmpHandler (I := I)) : res bytes Response * UmpHandler (I := I) :=
  match decode hdr payload with
  | Ok r => handle crc ln iter bg r h
  | Err x => (Err x, h)
  | Panic => (Panic, h)
  end.

Definition decoded (l : list (Header * bytes)) : list request :=
  omap (fun hp => match decode hp.1 hp.2 with Ok r => Some r | _ => None end) l.

(** The answers to requests of which only some decode. *)
Fixpoint outcomes (l : list (Header * bytes)) (out : list (res bytes Response)) : list (res bytes Response) :=
  match l with
  | [] => []
  | (hdr, payload) :: l' =>
      match decode hdr payload, out with
      | Ok _, o :: out' => o :: outcomes l' out'
      | Ok _, [] => []
      | Err x, _ => Err x :: outcomes l' out
      | Panic, _ => Panic :: outcomes l' out
      end
  end.

Lemma serve_all bg l : forall h, dispatch_all (serve bg) l h =
  let '(out, h') := handle_all crc ln iter bg (decoded l) h in (outcomes l out, h').
Proof.
  induction l as [|[hdr payload] l IH]; intros h; [done|]. cbn [dispatch_all outcomes]. unfold decoded. cbn [omap list_omap fst snd].
  unfold serve at 1. destruct (decode hdr payload) as [r|x|]; [cbn [handle_all]; destruct (handle crc ln iter bg r h) as [o h1]|..];
    rewrite IH; fold (decoded l); by destruct (handle_all _ _ _ _ (decoded l) _).
Qed.

Context (ks : gset bytes) (Hks : no_collision ks).
Context (cap : Z) (Hcap : cap <= 2 ^ 63) (Hln : forall n, Z.of_nat n < cap -> bloom_fits ln n).

(** The server from end to end: whatever clients connect and however their threads interleave,
    their record requests are answered as by one map of the clients' keys that they reach one after another,
    payloads that do not decode change nothing, and only clients that hold the token reach it; the lock is
    never poisoned, while the worker keeps up and ranges are in order. *)
Theorem clients_share_one_map io n m s clients t y : (forall k x, length (hmac_sha256 k x) = 32%nat) ->
  let e := guarded (engine (handler s)) in
  let rs := decoded (asked t) in
  poisoned (engine (handler s)) = false -> engine_inv ks n e -> serves (Hamt.view (state e)) m -> texts m ->
  reach (serve (settle deflate read_dir io)) token server_name (start s clients) t y ->
  Forall request_text rs -> Forall (fun r => reversed r = false) rs ->
  requests_safe crc deflate read_dir ln iter ks cap io n e rs ->
  let h := handler (Connection.shared y) in
  answered t = outcomes (asked t) (spec_all m rs).1 /\
  poisoned (engine h) = false /\ serves (Hamt.view (state (guarded (engine h)))) (spec_all m rs).2 /\
  forall i ev, (i, ev) ∈ t -> exists client nonce, clients !! i = Some client /\ authentic token nonce client.
Proof.
  intros Hlen e rs Hp Hinv Hserve Htext Hr Hrt Hrev Hsafe h.
  destruct (reach_ok _ _ _ _ _ _ _ Hlen Hr) as (_ & _ & H3 & H4). rewrite serve_all in H4. fold rs in H4.
  destruct (handle_all_ok crc deflate read_dir ln iter ks Hks cap Hcap Hln io n (handler s) m rs Hp Hinv Hserve Htext Hrt Hrev Hsafe)
    as (e' & E & Hserve' & _). rewrite E in H4. injection H4 as <- Eh. unfold h. rewrite <- Eh. split_and!; [done..|].
  intros i ev Hin. destruct (H3 i ev Hin) as (c & client & answers & _ & Hcl & nonce & sid & _ & Ha & _). by exists client, nonce.
Qed.
End served.

(** ** The command line *)

(** A command line that names each option once, in any order, is read as it says; a token is needed. *)
Lemma parse_args_serve prog p port dir token : parse_u16 p = Some port -> token <> [] ->
  parse_args [prog; str "serve"; str "--port"; p; str "--data"; dir; str "--token"; token] = Serve port dir token /\
  parse_args [prog; str "serve"; str "--token"; token; str "--data"; dir; str "--port"; p] = Serve port dir token /\
  parse_args [prog; str "serve"; str "--data"; dir; str "--port"; p] = Exit 1.
Proof. intros Hp Ht. unfold parse_args. cbn. rewrite Hp. destruct token; [done|]. by split_and!. Qed.

(** A port that is no port, or is missing, is the default one, without an error. *)
Lemma bad_port_is_default : parse_args [str "uldb"; str "serve"; str "--token"; str "t"; str "--port"; str "99999"] =
  Serve 7771 (str "./data") (str "t").
Proof. vm_compute. reflexivity. Qed.

(** ** A concrete protocol, for the witnesses *)
#[local] Instance wire_ump : Ump := {
  Response := ResponseView Z; Opcode := Z; Single := VSingle; Stream := VStream; NoResponse := VNone;
  OP_ERROR := 1; OP_RESULT_START := 2; OP_RESULT_ROW := 3; OP_RESULT_END := 4;
  OP_AUTH_ROTATE_CHALLENGE := 5; OP_AUTH_ROTATE_ACK := 6
}.

(** A header is the opcode, the stream and the length, a byte each; a hello is its hash. *)
#[local] Instance ex_wire : UmpWire := {
  Header := Z * Z * Z; HEADER_SIZE := 3;
  decode_header bs := match bs with [o; st; n] => Some (b2z o, b2z st, b2z n) | _ => None end;
  opcode h := h.1.1; stream_id h := h.1.2; payload_length h := h.2;
  OP_CHALLENGE := 10; OP_HELLO := 11; OP_WELCOME := 12; OP_PING := 13; OP_PONG := 14; OP_GOODBYE := 15;
  decode_hello p := Some p; decode_ping p := Some p;
  hmac_sha256 k m := take 32 (k ++ m ++ replicate 32 x00);
  NonceStore := list bytes; generate st := (head st, tail st); consume st n := (true, st);
  view r := r
}.

(** Message 7 puts its payload as a key. *)
Definition ex_decode (hdr : Header) (payload : bytes) : res bytes request :=
  if opcode hdr =? 7 then Ok (RPut payload (str "1")) else Err (str "unknown opcode").

Definition ex_dispatch : Header -> bytes -> UmpHandler (I := unit) -> res bytes Response * UmpHandler (I := unit) :=
  serve crc32 ln_sample map_to_list ex_decode ex_bg.

Definition ex_token : bytes := str "secret".
Definition ex_nonce : bytes := str "nonce".
Definition ex_shared : Shared (I := unit) := mkShared (Server.new sample_engine) (mkLock [ex_nonce] false).

(** A client that knows the token, puts a key, and pings. *)
Definition ex_client : bytes :=
  [x0b; x00; x20] ++ hmac_sha256 ex_token ex_nonce ++ [x07; x05; x01] ++ str "a" ++ [x0d; x05; x00].

Abbreviation ex_turn := (turn ex_dispatch ex_token (str "uldb/0.1.0") false 0).

Fixpoint ex_steps (n : nat) (c : Connection) (s : Shared (I := unit)) : list Handled * Connection * Shared (I := unit) :=
  match n with
  | O => ([], c, s)
  | S n' => let '(c1, s1, ev) := ex_turn c s in let '(t, c2, s2) := ex_steps n' c1 s1 in (option_list ev ++ t, c2, s2)
  end.

Lemma ex_steps_reach n : forall y t c s, reach ex_dispatch ex_token (str "uldb/0.1.0") y t (mkSystem s [c]) ->
  let '(t', c', s') := ex_steps n c s in
  reach ex_dispatch ex_token (str "uldb/0.1.0") y (t ++ (pair 0%nat <$> t')) (mkSystem s' [c']).
Proof.
  induction n as [|n IH]; intros y t c s Hr; cbn [ex_steps]; [by rewrite app_nil_r|].
  destruct (ex_turn c s) as [[c1 s1] ev] eqn:E.
  assert (reach ex_dispatch ex_token (str "uldb/0.1.0") y (t ++ option_list (pair 0%nat <$> ev)) (mkSystem s1 [c1])) as Hr1.
  { eapply reach_step; [exact Hr|]. exact (step_turn _ _ _ (mkSystem s [c]) 0 c false 0 c1 s1 ev eq_refl E). }
  specialize (IH _ _ _ _ Hr1). destruct (ex_steps n c1 s1) as [[t' c2] s2].
  rewrite <- app_assoc in IH. destruct ev; exact IH.
Qed.

Lemma requests_authenticated_witness :
  let '(t, c, s) := ex_steps 5 (open_conn ex_client) ex_shared in
  t.*1 = [((7, 5, 1), str "a")] /\ (frame_seq <$> sent c) = [0; 0; 1; 2] /\ exists answers, in_session ex_token (str "uldb/0.1.0") ex_client answers c.
Proof.
  pose proof (ex_steps_reach 5 _ [] (open_conn ex_client) ex_shared (reach_refl _ _ _ _)) as Hr.
  assert ((ex_steps 5 (open_conn ex_client) ex_shared).1.1.*1 = [((7, 5, 1), str "a")]) as Et by (vm_compute; reflexivity).
  assert ((frame_seq <$> sent (ex_steps 5 (open_conn ex_client) ex_shared).1.2) = [0; 0; 1; 2]) as Es by (vm_compute; reflexivity).
  destruct (ex_steps 5 (open_conn ex_client) ex_shared) as [[t c] s]. cbn [fst snd] in Et, Es. destruct t as [|[hp r] [|]]; try discriminate Et.
  assert (forall k m, length (hmac_sha256 k m) = 32%nat) as Hlen by (intros k m; change (length (take 32 (k ++ m ++ replicate 32 x00)) = 32%nat); rewrite length_take, !length_app, length_replicate; lia).
  destruct (requests_authenticated ex_dispatch ex_token (str "uldb/0.1.0") ex_shared [ex_client] _ _ Hlen Hr) as (_ & _ & H & _).
  split; [exact Et|]. split; [exact Es|].
  destruct (H 0%nat (hp, r)) as (c' & client & answers & Hc & Hcl & Ha); [left|].
  injection Hc as <-. injection Hcl as <-. exists answers. exact Ha.
Defined.

Lemma connection_ends_witness :
  phase (handle_connection ex_dispatch ex_token (str "uldb/0.1.0") 60 0 (open_conn ex_client) ex_shared).1 = Closed.
Proof. apply (connection_ends ex_dispatch ex_token (str "uldb/0.1.0")); [cbn; lia|vm_compute; lia]. Defined.

Lemma clients_share_one_map_witness : let '(t, c, s) := ex_steps 5 (open_conn ex_client) ex_shared in
  t.*2 = [Ok (result_end_response 1 0)] /\ Hamt.view (state (guarded (engine (handler s)))) !! scope_key 0 (str "a") = Some (str "1").
Proof.
  pose proof (ex_steps_reach 5 _ [] (open_conn ex_client) ex_shared (reach_refl _ _ _ _)) as Hr.
  assert ((ex_steps 5 (open_conn ex_client) ex_shared).1.1.*1 = [((7, 5, 1), str "a")]) as Et by (vm_compute; reflexivity).
  destruct (ex_steps 5 (open_conn ex_client) ex_shared) as [[t c] s]. cbn [fst snd] in Et.
  destruct t as [|[hp r] [|]]; try discriminate Et. injection Et as ->.
  assert (forall k m, length (hmac_sha256 k m) = 32%nat) as Hlen by (intros k m; change (length (take 32 (k ++ m ++ replicate 32 x00)) = 32%nat); rewrite length_take, !length_app, length_replicate; lia).
  destruct (clients_share_one_map (I := unit) crc32 id list_names ln_sample map_to_list ex_token (str "uldb/0.1.0") ex_decode ex_keys ex_keys_ok 17
    ltac:(done) bloom_fits_sample 100 0 ∅ ex_shared [ex_client] ([] ++ (pair 0%nat <$> [((7, 5, 1), str "a", r)])) (mkSystem s [c]) Hlen eq_refl) as (Ha & _ & Hs & _).
  - apply engine_at_inv; [exact ex_keys_ok|done].
  - intros k. apply lookup_empty.
  - intros k [v Hv]. rewrite lookup_empty in Hv. discriminate Hv.
  - exact Hr.
  - repeat constructor.
  - repeat constructor.
  - change (decoded ex_decode _) with [RPut (str "a") (str "1")]. split; [apply prog_safeb_ok; vm_compute; reflexivity|exact Logic.I].
  - split; [exact Ha|]. exact (Hs (str "a")).
Defined.
