(* ===== verification/Daemon.v ===== *)
(** * The server process of [src/bin/uldb.rs]

    [main]: what it takes to start, the accept loop, the thread that waits for a shutdown, and the
    threads of the connections, which are those of [Connection.v], as one transition system in which
    clients arrive at any time. Certificates, TLS and the socket are outcomes given to the process. *)

From S2P Require Import Prelude Ordered Text Float Fnv Bloom Memtable Wal Page PageStore Compaction BgCompaction Cache Hamt IndexApi Engine EngineSpec Prog Server Connection.
Local Open Scope Z_scope.

(** ** The configuration of the engine *)
Record EngineConfig := mkConfig { data_dir : bytes; config_threshold : Z }.

Definition config_new (dir : bytes) : EngineConfig := mkConfig dir DEFAULT_FLUSH_THRESHOLD.
Definition with_flush_threshold (threshold : Z) (c : EngineConfig) : EngineConfig := mkConfig (data_dir c) threshold.

Section daemon.
Context (crc : bytes -> Z) (inflate : bytes -> option bytes) (read_dir : fs -> list bytes) (ln : f64 -> f64).
Context {I : Type} `{Hops : IndexOps I} `{Hwire : UmpWire}.
Context (dispatch : Header -> bytes -> UmpHandler (I := I) -> res bytes Response * UmpHandler (I := I)).
(** [CARGO_PKG_VERSION] *)
Context (version : bytes).

Definition server_name : bytes := str "uldb/" ++ version.

(** ** The start *)

(** What the process finds: whether a certificate and the TLS server can be made, the directories,
    the ports it may listen on, and a new store of nonces. *)
Record Host := mkHost {
  certificate : bool;
  tls_server : bool;
  directory : bytes -> DataDir;
  bindable : Z -> bool;
  nonces : NonceStore
}.

(** [looping]: [main] is in its accept loop; [watching]: the thread of [ctrlc_handler] runs. *)
Record Daemon := mkDaemon {
  token : bytes;
  shutdown : bool;
  looping : bool;
  watching : bool;
  system : System (I := I)
}.

Inductive Started :=
  | Exited (code : Z)
  | Listening (d : Daemon).

(** [UmpHandler::new] and what the threads will share, before any client. *)
Definition listening (token : bytes) (store : NonceStore) (e : Engine) : Daemon :=
  mkDaemon token false true true (mkSystem (mkShared (Server.new e) (mkLock store false)) []).

(** A panic ends the process with 101. *)
Definition main (args : list bytes) (h : Host) : Started :=
  match parse_args args with
  | Exit code => Exited code
  | Serve port dir token =>
      if negb (certificate h) then Exited 1
      else if negb (tls_server h) then Exited 1
      else
        let config := config_new dir in
        match open crc inflate read_dir ln (config_threshold config) (directory h (data_dir config)) with
        | Ok e => if bindable h port then Listening (listening token (nonces h) e) else Exited 1
        | Err _ => Exited 1
        | Panic => Exited 101
        end
  end.

(** ** The accept loop *)
Inductive Accept :=
  | Incoming (tls : bool) (client : bytes)
  | WouldBlock
  | AcceptError.

(** A thread for the client; without a TLS session it returns at once. *)
Definition spawn (tls : bool) (client : bytes) (y : System (I := I)) : System (I := I) :=
  mkSystem (shared y) (conns y ++ [if tls then open_conn client else closed (open_conn client)]).

Definition with_system (y : System (I := I)) (d : Daemon) : Daemon :=
  mkDaemon (token d) (shutdown d) (looping d) (watching d) y.

(** One turn of the loop. *)
Definition accept_turn (a : Accept) (d : Daemon) : Daemon :=
  if shutdown d then mkDaemon (token d) (shutdown d) false (watching d) (system d)
  else match a with
       | Incoming tls client => with_system (spawn tls client (system d)) d
       | WouldBlock | AcceptError => d
       end.

(** The thread of [ctrlc_handler] wakes up and looks at the flag. *)
Definition watch_turn (d : Daemon) : Daemon :=
  if shutdown d then mkDaemon (token d) (shutdown d) (looping d) false (system d) else d.

(** ** The process: its threads interleave until [main] returns *)

(** What the outside sees of a step: a client that arrived, or a request given to the handler. *)
Inductive Event :=
  | Arrived (client : bytes)
  | Asked (i : nat) (ev : Handled).

Definition accept_event (a : Accept) (d : Daemon) : option Event :=
  match a with Incoming _ client => if shutdown d then None else Some (Arrived client) | _ => None end.

Inductive dstep (d : Daemon) : option Event -> Daemon -> Prop :=
  | dstep_accept a : looping d = true -> dstep d (accept_event a d) (accept_turn a d)
  | dstep_watch : looping d = true -> watching d = true -> dstep d None (watch_turn d)
  | dstep_turn i c clock c' s' ev : looping d = true -> conns (system d) !! i = Some c ->
      turn dispatch (token d) server_name (shutdown d) clock c (shared (system d)) = (c', s', ev) ->
      dstep d (Asked i <$> ev) (with_system (mkSystem s' (<[i := c']> (conns (system d)))) d).

Inductive dreach (d : Daemon) : list Event -> Daemon -> Prop :=
  | dreach_refl : dreach d [] d
  | dreach_step t d1 ev d2 : dreach d t d1 -> dstep d1 ev d2 -> dreach d (t ++ option_list ev) d2.

Definition clients (t : list Event) : list bytes := omap (fun ev => match ev with Arrived client => Some client | _ => None end) t.
Definition requests (t : list Event) : list (nat * Handled) := omap (fun ev => match ev with Asked i h => Some (i, h) | _ => None end) t.
End daemon.
