(* ===== verification/DaemonSpec.v ===== *)
(** * What the server process promises

    Started on a directory without saved pages whose log holds a map of records, the process never stops by itself, and
    answers the regular requests on records of all clients that ever arrive as one map; killed at any point and started again on what
    is on disk, it goes on with that map. *)

From S2P Require Import Prelude Ordered Text Float Fnv Namespace Bloom Memtable Wal Page PageStore Compaction BgCompaction Cache Hamt IndexApi QueryApi Engine EngineSpec Recovery Prog Durable Server ServerSpec Connection ConnectionSpec Daemon.
Local Open Scope Z_scope.

(** ** Threads of a process that never stops *)
Section daemon.
Context {I : Type} `{Hops : IndexOps I} `{Hwire : UmpWire}.
Context (dispatch : Header -> bytes -> UmpHandler (I := I) -> res bytes Response * UmpHandler (I := I)).
Context (version : bytes).
Implicit Types (d : Daemon (I := I)).

Abbreviation dstep := (dstep dispatch version).
Abbreviation dreach := (dreach dispatch version).

(** The flag is not set, so that the loop goes on and the watcher waits. *)
Definition serving (tok : bytes) d : Prop := token d = tok /\ shutdown d = false /\ looping d = true /\ watching d = true.

Lemma sound_spawn tok name h clients t tls client y : (forall k m, length (hmac_sha256 k m) = 32%nat) ->
  sound dispatch tok name h clients t y -> sound dispatch tok name h (clients ++ [client]) t (spawn tls client y).
Proof.
  intros Hlen (H1 & H2 & H3 & H4). unfold sound, spawn. cbn [conns shared]. split_and!; [by rewrite !length_app, H1| | |done].
  - intros i c cl [Hc|[Hl Hc]]%lookup_app_Some [Hcl|[Hl' Hcl]]%lookup_app_Some.
    + by apply (H2 i).
    + apply lookup_lt_Some in Hc. lia.
    + apply lookup_lt_Some in Hcl. lia.
    + apply list_lookup_singleton_Some in Hc as [_ <-], Hcl as [_ <-]. unfold conn_ok. destruct tls; cbn; [done|by left].
  - intros i ev Hin. destruct (H3 i ev Hin) as (c & cl & answers & Hc & Hcl & Ha). exists c, cl, answers.
    split_and!; [by apply lookup_app_l_Some..|done].
Qed.

Lemma dreach_ok tok d0 t d : (forall k m, length (hmac_sha256 k m) = 32%nat) -> serving tok d0 -> conns (system d0) = [] ->
  dreach d0 t d ->
  serving tok d /\ sound dispatch tok (server_name version) (handler (shared (system d0))) (clients t) (requests t) (system d).
Proof.
  intros Hlen H0 Hc0 Hr. induction Hr as [|t d1 ev d2 Hr [(Ht & Hs & Hl & Hw) IH] Hstep].
  { split; [done|]. unfold sound. rewrite Hc0. split_and!; [done|by intros i c cl Hc|by intros ? ? ?%not_elem_of_nil|done]. }
  unfold clients, requests in *. rewrite !omap_app. inversion Hstep as [a _ Ea E2|_ _ Ea E2|i c clock c' s' ev' _ Hi Hturn Ea E2]; subst ev.
  - unfold accept_event, accept_turn in *. rewrite Hs in *. destruct a as [tls client| |]; subst d2; cbn; rewrite ?app_nil_r.
    + split; [done|]. by apply sound_spawn.
    + done.
    + done.
  - unfold watch_turn in *. rewrite Hs in *. subst d2. cbn. by rewrite !app_nil_r.
  - subst d2. split; [done|]. rewrite Ht, Hs in Hturn. pose proof (sound_step _ _ _ _ _ _ _ _ _ _ _ _ _ _ Hlen IH Hi Hturn) as Hx.
    destruct ev' as [ev'|]; cbn in *; rewrite ?app_nil_r in *; exact Hx.
Qed.
End daemon.

(** ** From the command line to the answers *)
Section served.
Context (crc : bytes -> Z) (deflate : bytes -> bytes) (inflate : bytes -> option bytes).
Context (read_dir : fs -> list bytes) (ln : f64 -> f64) (iter : gmap bytes CacheEntry -> list (bytes * CacheEntry)).
Context {I : Type} `{Hops : IndexOps I} `{Hlaws : !IndexLaws I} `{Hquery : IndexQuery I} `{Hwire : UmpWire}.
Context (version : bytes) (decode : Header -> bytes -> res bytes request).
Context (crc_u32 : forall l, 0 <= crc l < 2 ^ 32).
Context (hmac_32 : forall k x, length (hmac_sha256 k x) = 32%nat).

Abbreviation worker io := (settle (I := I) deflate read_dir io).
Abbreviation main := (main (I := I) crc inflate read_dir ln).
Abbreviation run io := (dreach (serve crc ln iter decode (worker io)) version).
Abbreviation engine_of d := (guarded (engine (handler (shared (system d))))).
Abbreviation asked_of t := (decoded decode (asked (requests t))).

(** A command line and a host on which the process starts: [log] is on disk, and no page has been saved. *)
Record startable (args : list bytes) (h : Host) (tok log : bytes) : Prop := {
  st_args : exists port dir, parse_args args = Serve port dir tok /\ bindable h port = true /\
    dir_log (directory h dir) = log /\ load_all inflate read_dir (pages_dir (directory h dir)) = Ok [[]; []; []];
  st_tls : certificate h = true /\ Daemon.tls_server h = true
}.

(** The log of these records, below the flush threshold, and the torn beginning of another. *)
Record readable (rs : list WalRecord) (torn : bytes) : Prop := {
  rd_records : Forall rec_ok rs;
  rd_torn : exists r j, rec_ok r /\ (j < length (ser crc r))%nat /\ torn = take j (ser crc r);
  rd_size : ops_size (rec_op <$> rs) < DEFAULT_FLUSH_THRESHOLD;
  rd_keys : no_collision (list_to_set (Wal.key <$> rs))
}.

(** The log holds the clients' map. *)
Definition log_serves (rs : list WalRecord) (m : gmap bytes bytes) : Prop := forall k, log_map rs !! scope_key 0 k ≫= id = m !! k.

Lemma main_ok ks args h tok rs torn : no_collision ks -> (forall k, k ∈ Wal.key <$> rs -> k ∈ ks) ->
  startable args h tok (log_bytes crc rs ++ torn) -> readable rs torn ->
  exists d, main args h = Listening d /\ serving tok d /\ conns (system d) = [] /\
    poisoned (engine (handler (shared (system d)))) = false /\ engine_inv ks (Z.of_nat (length rs)) (engine_of d) /\
    (forall k, Hamt.view (state (engine_of d)) !! k = log_map rs !! k ≫= id) /\ wal (engine_of d) = Wal.open (log_bytes crc rs ++ torn).
Proof.
  intros Hks Hkeys [(port & dir & Ep & Hb & Hlog & Hpages) [Hc Ht]] [Hrs (r & j & Hr & Hj & ->) Hsize _].
  assert ((replay crc (dir_log (directory h dir))).1 = rs) as Hrep by (rewrite Hlog; by apply replay_torn).
  assert (DEFAULT_FLUSH_THRESHOLD <= u64_max) as Hmax by (vm_compute; discriminate).
  destruct (open_inv (I := I) crc inflate read_dir ln ks Hks DEFAULT_FLUSH_THRESHOLD (directory h dir) rs Hrep Hpages Hkeys Hsize Hmax)
    as (e & E & Hinv & Hv).
  exists (listening tok (nonces h) e). unfold Daemon.main. rewrite Ep, Hc, Ht. cbn [negb config_threshold config_new data_dir].
  rewrite E, Hb. unfold serving, listening. cbn [token Daemon.shutdown looping watching system conns shared handler Server.new engine guarded poisoned].
  split_and!; try done.
  destruct (open_ok (I := I) crc inflate read_dir ln ks Hks DEFAULT_FLUSH_THRESHOLD (directory h dir) rs _ Hrep Hpages Hkeys Hsize Hmax)
    as (e' & E' & _ & _ & _ & _ & _ & _ & _ & _ & _ & _ & Hw & _). rewrite E in E'. injection E' as <-. by rewrite Hw, Hlog.
Qed.

Context (ks : gset bytes) (Hks : no_collision ks).
Context (cap : Z) (Hcap : cap <= 2 ^ 63) (Hln : forall n, Z.of_nat n < cap -> bloom_fits ln n).

(** Requests that do not ask for ranges in the wrong order, within the bounds of the engine. *)
Definition regular (io : nat) (n : Z) (e : Engine) (rqs : list request) : Prop :=
  Forall request_text rqs /\ Forall (fun r => reversed r = false) rqs /\ requests_safe crc deflate read_dir ln iter ks cap io n e rqs.

Lemma process_ok io n m tok d0 t d : serving tok d0 -> conns (system d0) = [] ->
  poisoned (engine (handler (shared (system d0)))) = false -> engine_inv ks n (engine_of d0) ->
  serves (Hamt.view (state (engine_of d0))) m -> texts m -> run io d0 t d -> regular io n (engine_of d0) (asked_of t) ->
  serving tok d /\ answered (requests t) = outcomes decode (asked (requests t)) (spec_all m (asked_of t)).1 /\
  poisoned (engine (handler (shared (system d)))) = false /\ serves (Hamt.view (state (engine_of d))) (spec_all m (asked_of t)).2 /\
  (forall i ev, (i, ev) ∈ requests t -> exists client nonce, clients t !! i = Some client /\ authentic tok nonce client) /\
  Hamt.view (state (engine_of d)) = foldl map_write (Hamt.view (state (engine_of d0))) (requests_writes (Hamt.view (state (engine_of d0))) (asked_of t)) /\
  forall l, logged crc (engine_of d0) l ->
    logged crc (engine_of d) (l ++ (write_rec <$> requests_writes (Hamt.view (state (engine_of d0))) (asked_of t))).
Proof.
  intros H0 Hc0 Hp Hinv Hserve Htext Hr (Hrt & Hrev & Hsafe).
  destruct (dreach_ok _ _ tok d0 t d hmac_32 H0 Hc0 Hr) as [Hs (_ & _ & H3 & H4)]. rewrite serve_all in H4.
  destruct (handle_all_ok crc deflate read_dir ln iter ks Hks cap Hcap Hln io n _ m _ Hp Hinv Hserve Htext Hrt Hrev Hsafe)
    as (e' & E & Hserve' & _ & Hv & _ & Hlog). rewrite E in H4. injection H4 as Ha Eh.
  rewrite <- Eh. cbn [engine guarded poisoned]. split_and!; try done.
  intros i ev Hin. destruct (H3 i ev Hin) as (c & client & answers & _ & Hcl & nonce & sid & _ & Hauth & _). by exists client, nonce.
Qed.

(** C3: on a host where the server can start, with no saved pages and a log below the flush
    threshold that holds a map of the clients' keys and may end in a torn record, main listens;
    then, whatever clients arrive at whatever time and however the threads interleave, the process
    goes on, and the requests that reach the handler come from clients that hold the token, are
    answered as by that map one after another, and leave the lock unpoisoned, provided they are
    regular: text keys of distinct hashes, ranges in order, no flush that fills level 0 with pages
    that disagree, the entries below the limit, the worker catching up after each operation. Only
    the eight requests on records are routed to the handler here; of the other requests nothing is
    claimed. *)
Theorem daemon_serves io args h tok rs torn m :
  startable args h tok (log_bytes crc rs ++ torn) -> readable rs torn -> (forall k, k ∈ Wal.key <$> rs -> k ∈ ks) ->
  log_serves rs m -> texts m ->
  exists d0, main args h = Listening d0 /\ forall t d, run io d0 t d -> regular io (Z.of_nat (length rs)) (engine_of d0) (asked_of t) ->
    serving tok d /\ answered (requests t) = outcomes decode (asked (requests t)) (spec_all m (asked_of t)).1 /\
    poisoned (engine (handler (shared (system d)))) = false /\ serves (Hamt.view (state (engine_of d))) (spec_all m (asked_of t)).2 /\
    forall i ev, (i, ev) ∈ requests t -> exists client nonce, clients t !! i = Some client /\ authentic tok nonce client.
Proof.
  intros Hst Hrd Hkeys Hm Htext. destruct (main_ok ks args h tok rs torn Hks Hkeys Hst Hrd) as (d0 & E & Hs & Hc & Hp & Hinv & Hv & _).
  exists d0. split; [done|]. intros t d Hr Hreg.
  destruct (process_ok io _ m tok d0 t d Hs Hc Hp Hinv) as (H1 & H2 & H3 & H4 & H5 & _); try done. intros k. by rewrite Hv.
Qed.

End served.

(** ** Schedules, evaluated *)
Inductive Sched :=
  | SAccept (a : Accept)
  | SWatch
  | STurn (i : nat) (clock : Z).

Section sched.
Context {I : Type} `{Hops : IndexOps I} `{Hwire : UmpWire}.
Context (dispatch : Header -> bytes -> UmpHandler (I := I) -> res bytes Response * UmpHandler (I := I)).
Context (version : bytes).

Definition sched_step (d : Daemon (I := I)) (x : Sched) : option Event * Daemon (I := I) :=
  match x with
  | SAccept a => if looping d then (accept_event a d, accept_turn a d) else (None, d)
  | SWatch => if looping d && watching d then (None, watch_turn d) else (None, d)
  | STurn i clock =>
      match looping d, conns (system d) !! i with
      | true, Some c =>
          let '(c', s', ev) := turn dispatch (token d) (server_name version) (shutdown d) clock c (shared (system d)) in
          (Asked i <$> ev, with_system (mkSystem s' (<[i := c']> (conns (system d)))) d)
      | _, _ => (None, d)
      end
  end.

Fixpoint drun (d : Daemon (I := I)) (xs : list Sched) : list Event * Daemon (I := I) :=
  match xs with
  | [] => ([], d)
  | x :: xs' => let '(ev, d1) := sched_step d x in let '(t, d2) := drun d1 xs' in (option_list ev ++ t, d2)
  end.

Lemma drun_reach xs : forall d0 t d, dreach dispatch version d0 t d -> dreach dispatch version d0 (t ++ (drun d xs).1) (drun d xs).2.
Proof.
  induction xs as [|x xs IH]; intros d0 t d Hr; [by rewrite app_nil_r|]. cbn [drun].
  assert (dreach dispatch version d0 (t ++ option_list (sched_step d x).1) (sched_step d x).2) as Hr1.
  { destruct x as [a| |i clock]; cbn [sched_step].
    - destruct (looping d) eqn:El; [|by rewrite app_nil_r]. eapply dreach_step; [exact Hr|by constructor].
    - destruct (looping d) eqn:El, (watching d) eqn:Ew; cbn [andb]; try (by rewrite app_nil_r).
      eapply dreach_step; [exact Hr|by constructor].
    - destruct (looping d) eqn:El; [|by rewrite app_nil_r]. destruct (conns (system d) !! i) as [c|] eqn:Ec; [|by rewrite app_nil_r].
      destruct (turn _ _ _ _ _ _ _) as [[c' s'] ev] eqn:Et. eapply dreach_step; [exact Hr|by eapply dstep_turn]. }
  specialize (IH _ _ _ Hr1). destruct (sched_step d x) as [ev d1]. cbn [fst snd] in IH. destruct (drun d1 xs) as [t' d2].
  cbn [fst snd]. by rewrite (assoc_L app).
Qed.
End sched.

(** ** A server, for the witnesses *)
#[local] Existing Instance wire_ump.
#[local] Existing Instance ex_wire.

Definition ex_args : list bytes := str <$> ["uldb"; "serve"; "--token"; "secret"]%string.
Definition host_with (dir : DataDir) : Host := mkHost true true (fun _ => dir) (fun _ => true) [ex_nonce].

(** A client without TLS, one that puts a record, and idle turns of the loop and the watcher. *)
Definition ex_sched : list Sched :=
  [SAccept WouldBlock; SAccept (Incoming false []); SAccept (Incoming true ex_client); SWatch; STurn 1 0; STurn 0 0; STurn 1 0;
   SAccept AcceptError; STurn 1 0; STurn 1 0; STurn 1 0].

Definition ex_daemon : Daemon (I := unit) := listening ex_token [ex_nonce] (engine_at DEFAULT_FLUSH_THRESHOLD).
Definition ex_run : list Event * Daemon (I := unit) := drun ex_dispatch (str "0.1.0") ex_daemon ex_sched.

Lemma ex_ready : readable crc32 [] [].
Proof.
  split; [by constructor|exists (mkRecord [] []), 0%nat; split; [split; vm_compute; congruence|split; [vm_compute; lia|done]]|by vm_compute|].
  intros k k' Hk. by apply not_elem_of_empty in Hk.
Qed.

Lemma ex_startable dir log : dir_log dir = log -> load_all Some list_names (pages_dir dir) = Ok [[]; []; []] ->
  startable Some list_names ex_args (host_with dir) ex_token log.
Proof. intros Hl Hp. split; [|done]. exists 7771, (str "./data"). split_and!; [vm_compute; reflexivity|done..]. Qed.

Lemma ex_hmac : forall k m, length (hmac_sha256 k m) = 32%nat.
Proof. intros k m. change (length (take 32 (k ++ m ++ replicate 32 x00)) = 32%nat). rewrite length_take, !length_app, length_replicate. lia. Qed.

Lemma ex_started : main crc32 Some list_names ln_sample ex_args (host_with empty_dir) = Listening ex_daemon.
Proof. vm_compute. reflexivity. Qed.

Lemma ex_reach : dreach ex_dispatch (str "0.1.0") ex_daemon ex_run.1 ex_run.2.
Proof. exact (drun_reach ex_dispatch (str "0.1.0") ex_sched ex_daemon [] ex_daemon (dreach_refl _ _ _)). Qed.

Lemma ex_asked : decoded ex_decode (asked (requests ex_run.1)) = [RPut (str "a") (str "1")].
Proof. vm_compute. reflexivity. Qed.

Lemma ex_regular : regular crc32 id list_names ln_sample map_to_list ex_keys 17 100 0 (engine_at DEFAULT_FLUSH_THRESHOLD)
  (decoded ex_decode (asked (requests ex_run.1))).
Proof.
  rewrite ex_asked. split; [by repeat constructor|]. split; [by repeat constructor|].
  split; [apply prog_safeb_ok; vm_compute; reflexivity|exact Logic.I].
Qed.

Lemma texts_empty : texts ∅.
Proof. intros k [v Hv]. rewrite lookup_empty in Hv. discriminate Hv. Qed.

Lemma daemon_serves_witness : serving ex_token ex_run.2 /\
  answered (requests ex_run.1) = [Ok (result_end_response 1 0)] /\
  exists nonce, clients ex_run.1 = [[]; ex_client] /\ authentic ex_token nonce ex_client.
Proof.
  destruct (daemon_serves (I := unit) crc32 id Some list_names ln_sample map_to_list (str "0.1.0") ex_decode crc32_range ex_hmac ex_keys ex_keys_ok
    17 ltac:(done) bloom_fits_sample 100 ex_args (host_with empty_dir) ex_token [] [] ∅) as (d0 & E & H).
  - by apply ex_startable.
  - exact ex_ready.
  - intros k Hk. by apply not_elem_of_nil in Hk.
  - intros k. reflexivity.
  - exact texts_empty.
  - pose proof ex_started as E'. rewrite E in E'. injection E' as ->.
    destruct (H _ _ ex_reach ex_regular) as (Hs & Ha & _ & _ & Hc). split; [exact Hs|]. split; [rewrite Ha; vm_compute; reflexivity|].
    assert (clients ex_run.1 = [[]; ex_client]) as Ec by (vm_compute; reflexivity).
    assert (exists ev, (1%nat, ev) ∈ requests ex_run.1) as [ev Hev].
    { eexists. apply (list_elem_of_lookup_2 _ 0%nat). vm_compute. reflexivity. }
    destruct (Hc 1%nat ev Hev) as (client & nonce & Hcl & Hauth). rewrite Ec in Hcl. injection Hcl as <-.
    exists nonce. split; [exact Ec|exact Hauth].
Defined.

(** The process is killed three bytes into the next record. *)
Definition ex_torn : bytes := take 3 (ser crc32 (mkRecord (scope_key 0 (str "b")) (str "2"))).
Definition log_dir (log : bytes) : DataDir := {| wal_file := Some log; pages_dir := ∅; hnsw_file := None; graph_file := None |}.
Definition ex_disk : DataDir := log_dir (file (wal (guarded (engine (handler (shared (system ex_run.2)))))) ++ ex_torn).


(** ** A torn log

    Opening does not cut the torn record off: what is acknowledged afterwards is appended behind it, where
    the next replay does not come. *)
Definition read_b (e : Engine (I := unit)) : option bytes := (Engine.get map_to_list e (str "b")).1.

(** The answer to a put after opening a torn log, what is read then, and what is read after the next opening. *)
Definition put_behind (torn : bytes) : res bytes (res bytes unit * option bytes * option bytes) :=
  e ← open_sample 1000 (log_dir torn);
  let '(r, e1) := put crc32 ln_sample (str "b") (str "2") e in
  e2 ← open_sample 1000 (log_dir (file (wal e1)));
  Ok (r, read_b e1, read_b e2).

Lemma torn_log_hides_later_records : put_behind (take 3 (ser crc32 (mkRecord (str "a") (str "1")))) = Ok (Ok tt, Some (str "2"), None).
Proof. vm_compute. reflexivity. Qed.
